(* ===== verification/_CoqProject ===== *)
-Q . S2P
Prelude.v
Heap.v
Bucket.v
BucketManager.v
BucketPartition.v
BucketStats.v
Coding.v
BlobIndex.v
Comparator.v
DbFormat.v
ManifestRecords.v
FileMeta.v
VersionEdit.v
UnionFind.v
Grouping.v
L0Groups.v
L0Tracking.v
TableIterator.v
RangeScan.v
BuildTable.v
BucketFlush.v
VersionStorage.v
Compaction.v
CompactionPicker.v
CompactionScore.v
LevelPicker.v
LevelPickerSound.v
RunningCompactions.v
BlobGarbageMeter.v
CompactionOutputs.v
CompactionJob.v
CompactionRun.v
RangeTombstones.v
CompactionResult.v
VersionBuilder.v
VersionBuilderFiles.v
VersionBuilderBlobs.v
VersionHistory.v
WriteStall.v
CompactionIterator.v
CompactionReads.v
