(* ===== verification/Prelude.v ===== *)
(** * BucketLSM: a verification development

    BucketLSM is a fork of RocksDB in which a memtable is flushed into several
    level-0 files, one per bucket of the key space, and in which reads and
    compactions work on the groups of overlapping level-0 files.  This library
    models the parts of the program that the fork adds or changes, and the parts
    of RocksDB they rest on, as executable functions, and proves theorems about
    them.  Names are those of the source where Rocq allows it; every file says
    which file under [src/] it models.

    ** The program and the files

    - This file: notations, record updates, the [lsm] and [u64] hint databases,
      64-bit arithmetic ([+64], [-64], [*64]), IEEE doubles through [SpecFloat],
      orders on keys with the tactics [order] and [key_order], and what the
      standard library leaves open: [StdChoices] holds the results of
      [std::sort], [std::partial_sort] and the iteration over unordered maps, so
      that theorems hold for every conforming implementation; [simple_choices]
      is one of them.
    - Buckets ([src/db/column_family.cc], [.h]): [Bucket] (windows of flush
      events), [BucketManager] (boundaries, splits, merges, snapshots),
      [BucketPartition] (the refinement to a list of boundaries), [BucketStats]
      (invariants over all runs).
    - Formats: [Coding] ([src/util/coding.h]), [BlobIndex], [Comparator],
      [DbFormat] (internal keys), [FileMeta], [ManifestRecords] and
      [VersionEdit] (the manifest).
    - Level 0: [UnionFind] and [Grouping] (the local lambdas of the grouping
      functions), [L0Groups] and [L0Tracking] (groups and their trackers),
      [TableIterator] and [RangeScan] (the lazy level-0 scan).
    - Flush: [BuildTable] ([src/db/builder.cc]) and [BucketFlush]
      ([src/db/flush_job.cc]).
    - Compaction: [VersionStorage] (searches over the files of a version),
      [Compaction] (the compaction object), [CompactionPicker] (clean cuts,
      conflicts, completion of inputs), [CompactionScore] (targets, scores,
      priorities, marks), [LevelPicker] (the level builder),
      [LevelPickerSound] (what a picked compaction satisfies) and
      [RunningCompactions] (compactions that run at the same time).
    - Execution of compactions ([src/db/compaction/]): [CompactionOutputs] (when
      an output file ends), [CompactionJob] (a subcompaction: opening, filling
      and closing output files), [CompactionRun] (its loop over the compaction
      iterator), [CompactionResult] (the theorems on whole runs),
      [BlobGarbageMeter], and [RangeTombstones] (the fragmented range tombstones
      of [src/db/range_tombstone_fragmenter.cc]); [Heap] is [src/util/heap.h].
    - Versions: [VersionBuilder] ([src/db/version_builder.cc]: applying edits,
      the consistency checks, saving a version), [VersionBuilderFiles] and
      [VersionBuilderBlobs] (its theorems on table files and on blob files), and
      [VersionHistory] (the versions installed one after the other).

    The parts meet as in the program: a flush takes a snapshot of the manager's
    boundaries ([BucketManager.GetBucketSnapshot]), writes one table per bucket
    ([BucketFlush] over [BuildTable]), and records its statistics in the manager;
    the files reach a version through a [VersionEdit] and the [VersionBuilder];
    [CompactionScore] scores the version and [LevelPicker] turns the scores into
    a [Compaction], with the components of [Grouping] and the searches of
    [VersionStorage]; [CompactionJob] executes it, and its outputs reach the next
    version through an edit again.

    ** How state is modelled

    Mutable objects are records passed through the operations.  64-bit integers
    are elements of [Z] with explicit wrap-around; levels and positions are
    natural numbers.  Methods that run under one mutex are one step.  Pointers to
    files are the files; the shared mark [being_compacted] is changed in every
    place of the version that refers to the file ([Compaction.map_files]).
    Errors are [None] or a sum.  Code outside the modelled files (the compaction
    iterator, table builders, memtable merging, the clock) is an argument of the
    definitions that use it.

    ** What the theorems show

    - Buckets: lookups find the unique bucket of a key; splits and merges insert
      and remove one boundary; partition and statistics are invariants of all
      runs; a snapshot of the current epoch is current.
    - Formats: round trips of the encodings, of internal keys and of version
      edits; the built-in comparators satisfy the interface the other
      components rely on ([ComparatorOk]).
    - Level 0: the groups are the connected components of the overlap relation
      and are disjoint ranges; the maximal group size is the depth of the
      overlap; a scan returns the merged entries of all files, in order, though
      it opens files only when it reaches them.
    - Flush: the tables of the buckets partition the merged entries; the result
      does not depend on the schedule of the parallel path.
    - Compaction: searches over levels find exactly the overlapping files; clean
      cuts end and are minimal; completed inputs hold every file of the output
      level that they touch; scores are ordered; marks are exact; a group picked
      from level 0 is a connected component; group boundaries are the disjoint
      hulls of the components; what is picked keeps the order of level 0 and does
      not meet a running compaction.
    - Execution: the output files of a subcompaction hold what the compaction
      iterator returned, in order and without overlap; range tombstones and
      errors are kept; files are cut within the bounds of their size and of the
      overlap with the level below, and at the boundaries of buckets;
      fragmenting tombstones keeps their coverage.
    - Versions: applying edits and saving the result implements the plain meaning
      of the edits ([VersionBuilderFiles.lsm_edit]); the consistency checks are
      exact; no blob file in use is lost; every version installed this way
      satisfies what the pickers assume ([VersionHistory.version_good]), and the
      edits of flushes and compactions keep it so.

    ** Fuel

    Loops that are not structural carry a bound: a clean cut adds a file in every
    round but the last, so one round more than the level has files is enough
    ([CompactionPicker.clean_cut_expansion]); searches are bounded by the number
    of files; the loop over paths moves to the next path or level in every round;
    sifting in a heap is bounded by its size, and merging two lists of blob files
    by the sum of their lengths.

    ** Not modelled

    The compaction iterator, the installation of results, replaying the manifest,
    memtables, the front end and the write path, table formats, caches,
    environments, options parsing, transactions and tools: they are concurrent
    code, input and output, or layers above or below the modelled ones, and enter
    as arguments where a modelled part calls them.  Log messages and performance
    counters are left out everywhere. *)

From Stdlib Require Export Init.Byte Strings.Byte ZArith Lia.
From Stdlib Require Export Floats.SpecFloat.
From stdpp Require Export base tactics list sorting gmap numbers fin_maps strings.

(** ** Notation and hint databases of the development *)

Declare Scope lsm_scope.
Delimit Scope lsm_scope with lsm.

Create HintDb lsm discriminated.
Create Rewrite HintDb u64.

(** ** Record update

    [r <| f := v |>] is the record [r] with field [f] replaced by [v]; a record
    type takes part through its expansion into its fields. *)

Class Eta (A : Type) := eta : A → A.

Ltac update_field r f v :=
  let A := type of r in
  let h := constr:(_ : Eta A) in
  let t := eval hnf in (@eta A h r) in
  let x := constr:(f r) in
  lazymatch eval pattern x in t with
  | ?F _ => let y := eval cbv beta in (F v) in exact y
  end.

Notation "r <| f := v |>" := (ltac:(update_field r f v))
  (at level 1, f at level 9, left associativity, only parsing) : lsm_scope.

(** ** Machine integers

    A [uint64_t] is a [Z] in [0, 2^64); every operation that can leave the
    range is followed by [u64]. *)

Definition u64 (z : Z) : Z := z mod 2 ^ 64.
Definition u64_ok (z : Z) : Prop := (0 <= z < 2 ^ 64)%Z.

Notation "a +64 b" := (u64 (a + b)%Z) (at level 50, left associativity) : lsm_scope.
Notation "a -64 b" := (u64 (a - b)%Z) (at level 50, left associativity) : lsm_scope.
Notation "a *64 b" := (u64 (a * b)%Z) (at level 40, left associativity) : lsm_scope.

Open Scope lsm_scope.
Open Scope Z_scope.

Lemma u64_range z : u64_ok (u64 z).
Proof. unfold u64_ok, u64. apply Z.mod_pos_bound. lia. Qed.

Lemma u64_id z : u64_ok z → u64 z = z.
Proof. unfold u64_ok, u64. intros. by apply Z.mod_small. Qed.

Lemma u64_add_l a b : u64 (u64 a + b) = u64 (a + b).
Proof. unfold u64. by rewrite Zplus_mod_idemp_l. Qed.

Lemma u64_add_r a b : u64 (a + u64 b) = u64 (a + b).
Proof. unfold u64. by rewrite Zplus_mod_idemp_r. Qed.

Lemma u64_sub_l a b : u64 (u64 a - b) = u64 (a - b).
Proof. unfold u64. by rewrite Zminus_mod_idemp_l. Qed.

Lemma u64_sub_r a b : u64 (a - u64 b) = u64 (a - b).
Proof. unfold u64. by rewrite Zminus_mod_idemp_r. Qed.

Lemma u64_u64 a : u64 (u64 a) = u64 a.
Proof. apply u64_id, u64_range. Qed.

#[export] Hint Resolve u64_range : lsm.
#[export] Hint Rewrite u64_add_l u64_add_r u64_sub_l u64_sub_r u64_u64 : u64.

(** Bring both sides of an equation of 64-bit expressions to one [u64]. *)
Ltac u64_norm := autorewrite with u64; try (f_equal; lia).

(** The sum of a list of 64-bit values, accumulated left to right the way the
    loops of the source do it ([acc += x]). *)
Definition sum64 (l : list Z) : Z := foldl (λ acc x, acc +64 x) 0 l.

Lemma foldl_add64 l a : foldl (λ acc x, acc +64 x) (u64 a) l = u64 (a + foldr Z.add 0 l).
Proof.
  revert a. induction l as [|x l IH]; intros a; simpl.
  - by rewrite Z.add_0_r.
  - rewrite u64_add_l, IH. f_equal. lia.
Qed.

Lemma sum64_spec l : sum64 l = u64 (foldr Z.add 0 l).
Proof. unfold sum64. apply (foldl_add64 l 0). Qed.

Lemma sum_Permutation l l' : l ≡ₚ l' → foldr Z.add 0 l = foldr Z.add 0 l'.
Proof. induction 1; simpl; lia. Qed.

Lemma sum64_Permutation l l' : l ≡ₚ l' → sum64 l = sum64 l'.
Proof. intros H. rewrite !sum64_spec. f_equal. by apply sum_Permutation. Qed.

Lemma sum_app l l' : foldr Z.add 0 (l ++ l') = foldr Z.add 0 l + foldr Z.add 0 l'.
Proof. induction l; simpl; lia. Qed.

(** ** Bytes and strings

    A [std::string] or [Slice] is a list of bytes.  Both [std::string]'s
    [operator<] and [Slice::compare] compare like [memcmp], that is on the
    unsigned value of the bytes, a proper prefix being smaller. *)

Definition byte_val (b : byte) : Z := Z.of_N (Byte.to_N b).

Definition byte_of (z : Z) : byte :=
  match Byte.of_N (Z.to_N (z mod 256)) with Some b => b | None => x00 end.

Lemma byte_val_range b : 0 <= byte_val b < 256.
Proof. unfold byte_val. pose proof (Byte.to_N_bounded b). lia. Qed.

Lemma byte_val_inj b c : byte_val b = byte_val c → b = c.
Proof.
  unfold byte_val. intros H%N2Z.inj.
  pose proof (Byte.of_to_N b) as Hb. pose proof (Byte.of_to_N c) as Hc.
  rewrite H in Hb. congruence.
Qed.

Lemma byte_val_of z : byte_val (byte_of z) = z mod 256.
Proof.
  unfold byte_of, byte_val. pose proof (Z.mod_pos_bound z 256 eq_refl).
  destruct (Byte.of_N (Z.to_N (z mod 256))) eqn:E.
  - apply Byte.to_of_N in E. rewrite E. lia.
  - apply Byte.of_N_None_iff in E. lia.
Qed.

Lemma byte_of_val b : byte_of (byte_val b) = b.
Proof.
  apply byte_val_inj. rewrite byte_val_of. apply Z.mod_small, byte_val_range.
Qed.

#[export] Instance byte_eq_dec : EqDecision byte := Byte.byte_eq_dec.

(** The value of a byte read as a (signed) [char]. *)
Definition schar_val (b : byte) : Z :=
  if byte_val b <? 128 then byte_val b else byte_val b - 256.

Abbreviation key := (list byte).

(** [Slice::compare] and [std::string::compare]. *)
Fixpoint slice_compare (a b : key) : comparison :=
  match a, b with
  | [], [] => Eq
  | [], _ :: _ => Lt
  | _ :: _, [] => Gt
  | x :: a', y :: b' =>
      match byte_val x ?= byte_val y with
      | Eq => slice_compare a' b'
      | c => c
      end
  end.

Definition key_ltb (a b : key) : bool :=
  match slice_compare a b with Lt => true | _ => false end.
Definition key_leb (a b : key) : bool :=
  match slice_compare a b with Gt => false | _ => true end.

Lemma slice_compare_refl a : slice_compare a a = Eq.
Proof. induction a as [|x a IH]; simpl; [done|]. by rewrite Z.compare_refl. Qed.

Lemma slice_compare_eq a b : slice_compare a b = Eq → a = b.
Proof.
  revert b. induction a as [|x a IH]; intros [|y b]; simpl; try done.
  destruct (Z.compare_spec (byte_val x) (byte_val y)) as [H| |]; try done.
  intros ->%IH. by apply byte_val_inj in H as ->.
Qed.

Lemma slice_compare_opp a b : slice_compare b a = CompOpp (slice_compare a b).
Proof.
  revert b. induction a as [|x a IH]; intros [|y b]; simpl; try done.
  rewrite (Z.compare_antisym (byte_val x) (byte_val y)).
  destruct (byte_val x ?= byte_val y); simpl; auto.
Qed.

Lemma slice_compare_trans_lt a b c :
  slice_compare a b = Lt → slice_compare b c ≠ Gt → slice_compare a c = Lt.
Proof.
  revert b c. induction a as [|x a IH]; intros [|y b] [|z c]; simpl; try done.
  destruct (Z.compare_spec (byte_val x) (byte_val y));
  destruct (Z.compare_spec (byte_val y) (byte_val z));
  destruct (Z.compare_spec (byte_val x) (byte_val z)); try done; try lia.
  by apply IH.
Qed.

(** ** Total preorders and the [order] tactic

    Key comparators, internal-key comparators and the byte order are all
    decidable total preorders; [order R] decides goals made of [R a b] and
    [¬ R a b] facts by saturating the context with totality and transitivity. *)

Class TotalPre {A} (R : relation A) : Prop := {
  #[global] total_pre_preorder :: PreOrder R;
  #[global] total_pre_total :: Total R;
}.

Ltac order_saturate R :=
  repeat match goal with
  | H : ¬ R ?a ?b |- _ =>
      lazymatch goal with
      | _ : R b a |- _ => fail
      | _ => let K := fresh in
             assert (R b a) as K by (destruct (total R b a); [assumption | contradiction])
      end
  | H1 : R ?a ?b, H2 : R ?b ?c |- _ =>
      lazymatch goal with
      | _ : R a c |- _ => fail
      | _ => let K := fresh in assert (R a c) as K by (transitivity b; assumption)
      end
  end.

Ltac order R :=
  intros; subst;
  lazymatch goal with
  | |- ¬ R ?a ?b => intros ?
  | |- R ?a ?b => destruct (decide (R a b)); [assumption | exfalso]
  | |- False => idtac
  | |- _ => exfalso
  end;
  order_saturate R;
  match goal with
  | H : ¬ R ?a ?a |- _ => destruct (H (reflexivity a))
  | _ => contradiction
  end.

(** A three-way comparison function that induces a total preorder. *)
Class CompareOk {A} (cmp : A → A → comparison) : Prop := {
  compare_opp : ∀ a b, cmp b a = CompOpp (cmp a b);
  compare_trans : ∀ a b c, cmp a b ≠ Gt → cmp b c ≠ Gt → cmp a c ≠ Gt;
}.
Arguments compare_opp {A} cmp {_} a b.
Arguments compare_trans {A} cmp {_} a b c.

Section compare_order.
Context {A : Type} (cmp : A → A → comparison) `{!CompareOk cmp}.

Definition cmp_le (a b : A) : Prop := cmp a b ≠ Gt.

#[export] Instance cmp_le_dec : RelDecision cmp_le.
Proof. intros a b. unfold cmp_le. apply _. Defined.

Lemma compare_refl a : cmp a a = Eq.
Proof. pose proof (compare_opp cmp a a). by destruct (cmp a a). Qed.

#[export] Instance cmp_le_total_pre : TotalPre cmp_le.
Proof.
  split; [split|].
  - intros a. unfold cmp_le. by rewrite compare_refl.
  - intros a b c. apply (compare_trans cmp).
  - intros a b. unfold cmp_le. rewrite (compare_opp cmp a b). destruct (cmp a b); auto.
Qed.

Lemma cmp_lt_iff a b : cmp a b = Lt ↔ ¬ cmp_le b a.
Proof.
  unfold cmp_le. rewrite (compare_opp cmp a b).
  split; [by intros ->; auto | intros H].
  destruct (cmp a b); simpl in *; try done; by destruct H.
Qed.

Lemma cmp_gt_iff a b : cmp a b = Gt ↔ ¬ cmp_le a b.
Proof. unfold cmp_le. destruct (decide (cmp a b = Gt)); tauto. Qed.

Lemma cmp_eq_iff a b : cmp a b = Eq ↔ cmp_le a b ∧ cmp_le b a.
Proof.
  unfold cmp_le. rewrite (compare_opp cmp a b).
  destruct (cmp a b); simpl; split; try done; intros []; congruence.
Qed.

(** Case analysis on a comparison, in terms of the order. *)
Lemma compare_cases a b :
  (cmp a b = Eq ∧ cmp_le a b ∧ cmp_le b a) ∨
  (cmp a b = Lt ∧ ¬ cmp_le b a) ∨ (cmp a b = Gt ∧ ¬ cmp_le a b).
Proof.
  destruct (cmp a b) eqn:E.
  - left. by rewrite <- cmp_eq_iff.
  - right; left. by rewrite <- cmp_lt_iff.
  - right; right. by rewrite <- cmp_gt_iff.
Qed.
End compare_order.

#[export] Existing Instance cmp_le_dec.
#[export] Existing Instance cmp_le_total_pre.

(** Destruct the three-way comparison [c a b] and rewrite with it. *)
Ltac cmp_case c a b :=
  let E := fresh "Ecmp" in
  destruct (compare_cases c a b) as [(E & ? & ?)|[(E & ?)|(E & ?)]];
  rewrite ?E in *.

(** Comparing by a key, in reverse, and lexicographically. *)
Definition cmp_on {A B} (f : A → B) (cmp : B → B → comparison) (a b : A) : comparison :=
  cmp (f a) (f b).

Definition lex_compare {A} (c1 c2 : A → A → comparison) (a b : A) : comparison :=
  match c1 a b with Eq => c2 a b | r => r end.

Definition cmp_flip {A} (cmp : A → A → comparison) (a b : A) : comparison := cmp b a.

#[global] Typeclasses Opaque cmp_on lex_compare cmp_flip.

#[export] Instance cmp_on_ok {A B} (f : A → B) cmp : CompareOk cmp → CompareOk (cmp_on f cmp).
Proof.
  intros H. split; unfold cmp_on; [intros; apply (compare_opp cmp)|].
  intros a b c. apply (compare_trans cmp).
Qed.

Lemma compare_ok_ext {A} (c c' : A → A → comparison) :
  (∀ a b, c a b = c' a b) → CompareOk c' → CompareOk c.
Proof.
  intros He H. split; intros *; rewrite !He; [apply (compare_opp c')|apply (compare_trans c')].
Qed.

#[export] Instance cmp_flip_ok {A} (cmp : A → A → comparison) :
  CompareOk cmp → CompareOk (cmp_flip cmp).
Proof.
  intros H. split; unfold cmp_flip; [intros; apply (compare_opp cmp)|].
  intros a b c Hab Hbc. by apply (compare_trans cmp c b a).
Qed.

#[export] Instance Zcompare_ok : CompareOk Z.compare.
Proof.
  split; [intros a b; apply Z.compare_antisym|].
  intros a b c. rewrite !Z.compare_le_iff. lia.
Qed.

#[export] Instance lex_compare_ok {A} (c1 c2 : A → A → comparison) :
  CompareOk c1 → CompareOk c2 → CompareOk (lex_compare c1 c2).
Proof.
  intros H1 H2. split.
  - intros a b. unfold lex_compare. rewrite (compare_opp c1 a b), (compare_opp c2 a b).
    by destruct (c1 a b).
  - intros a b c Hab Hbc. unfold lex_compare in *.
    cmp_case c1 a b; cmp_case c1 b c; cmp_case c1 a c; try done; try (by order (cmp_le c1)).
    by apply (compare_trans c2 a b c).
Qed.

#[export] Instance slice_compare_ok : CompareOk slice_compare.
Proof.
  split; [intros; apply slice_compare_opp|].
  intros a b c Hab Hbc. destruct (slice_compare a b) eqn:E; try done.
  - by apply slice_compare_eq in E as ->.
  - by rewrite (slice_compare_trans_lt a b c).
Qed.

Abbreviation key_le := (cmp_le slice_compare).

Lemma key_le_antisym a b : key_le a b → key_le b a → a = b.
Proof. intros. apply slice_compare_eq. by apply cmp_eq_iff; [apply _|]. Qed.

Lemma key_ltb_true a b : key_ltb a b = true ↔ ¬ key_le b a.
Proof.
  rewrite <- (cmp_lt_iff slice_compare). unfold key_ltb. by destruct (slice_compare a b).
Qed.

Lemma key_ltb_false a b : key_ltb a b = false ↔ key_le b a.
Proof.
  unfold key_ltb, cmp_le. rewrite (slice_compare_opp a b). by destruct (slice_compare a b).
Qed.

Lemma key_leb_true a b : key_leb a b = true ↔ key_le a b.
Proof. unfold key_leb, cmp_le. by destruct (slice_compare a b). Qed.

Lemma key_leb_false a b : key_leb a b = false ↔ ¬ key_le a b.
Proof.
  rewrite <- key_leb_true. by destruct (key_leb a b).
Qed.

(** Turn boolean key comparisons into order facts. *)
Ltac key_facts :=
  rewrite ?andb_true_iff, ?orb_true_iff, ?andb_false_iff, ?orb_false_iff,
    ?negb_true_iff, ?negb_false_iff,
    ?key_ltb_true, ?key_ltb_false, ?key_leb_true, ?key_leb_false in *.

Ltac key_order := key_facts; order (cmp_le slice_compare).

(** ** [double]

    IEEE-754 binary64 as the Standard Library's executable specification
    ([SpecFloat] at 53 bits of precision), round to nearest even. *)

Abbreviation double := spec_float.

Definition dbl_of_Z (z : Z) : double := binary_normalize 53 1024 z 0 false.
Definition dadd : double → double → double := SFadd 53 1024.
Definition dsub : double → double → double := SFsub 53 1024.
Definition dmul : double → double → double := SFmul 53 1024.
Definition ddiv : double → double → double := SFdiv 53 1024.
Definition dabs : double → double := SFabs.
(** [a < b], [a > b], [a <= b] and [a >= b]; all false on a NaN. *)
Definition dltb (a b : double) : bool := SFltb a b.
Definition dgtb (a b : double) : bool := SFltb b a.
Definition dleb (a b : double) : bool := SFleb a b.
Definition dgeb (a b : double) : bool := SFleb b a.
(** [std::max(a, b)] is [(a < b) ? b : a]. *)
Definition dmax (a b : double) : double := if dltb a b then b else a.
(** A literal [num / den] rounded once, e.g. [dlit 15 10] for [1.5]. *)
Definition dlit (num den : Z) : double := ddiv (dbl_of_Z num) (dbl_of_Z den).

#[global] Arguments dbl_of_Z : simpl never.
#[global] Arguments dadd : simpl never.
#[global] Arguments dsub : simpl never.
#[global] Arguments dmul : simpl never.
#[global] Arguments ddiv : simpl never.
#[global] Arguments dltb : simpl never.
#[global] Arguments dgtb : simpl never.
#[global] Arguments dleb : simpl never.
#[global] Arguments dgeb : simpl never.
#[global] Arguments dlit : simpl never.

(** Truncation toward zero of a finite double. *)
Definition dtrunc (d : double) : option Z :=
  match d with
  | S754_zero _ => Some 0
  | S754_finite s m e =>
      let a := if 0 <=? e then Z.shiftl (Zpos m) e else Z.shiftr (Zpos m) (- e) in
      Some (if s then - a else a)
  | _ => None
  end.

(** [static_cast<uint64_t>(d)]: undefined behaviour ([None]) when the truncated
    value does not fit. *)
Definition u64_of_double (d : double) : option Z :=
  match dtrunc d with
  | Some z => if (0 <=? z) && (z <? 2 ^ 64) then Some z else None
  | None => None
  end.

(** The cast where the source relies on the value to fit; 0 otherwise. *)
Definition u64_cast (d : double) : Z := default 0 (u64_of_double d).

Definition is_nan (d : double) : bool := match d with S754_nan => true | _ => false end.

(** Doubles other than NaN are ordered by class, exponent and mantissa. *)
Definition drank (d : double) : Z * Z * Z :=
  match d with
  | S754_infinity true => (-2, 0, 0)
  | S754_finite true m e => (-1, - e, - Zpos m)
  | S754_zero _ | S754_nan => (0, 0, 0)
  | S754_finite false m e => (1, e, Zpos m)
  | S754_infinity false => (2, 0, 0)
  end.

Definition dcompare : double → double → comparison :=
  lex_compare (lex_compare (cmp_on (λ d, (drank d).1.1) Z.compare) (cmp_on (λ d, (drank d).1.2) Z.compare))
    (cmp_on (λ d, (drank d).2) Z.compare).

#[export] Instance dcompare_ok : CompareOk dcompare.
Proof. apply _. Qed.

Lemma SFcompare_dcompare a b :
  is_nan a = false → is_nan b = false → SFcompare a b = Some (dcompare a b).
Proof.
  destruct a as [?|[]| |[] m e], b as [?|[]| |[] m' e']; try done; intros _ _;
    unfold dcompare, lex_compare, cmp_on; cbn [drank fst snd SFcompare]; try done.
  rewrite Z.compare_refl, !Z.compare_opp, (Z.compare_antisym e e'). cbn [Z.compare].
  rewrite (Pos.compare_antisym m m'). by destruct (Z.compare e e').
Qed.

Lemma dltb_dcompare a b :
  is_nan a = false → is_nan b = false → dltb a b = true ↔ dcompare a b = Lt.
Proof.
  intros Ha Hb. unfold dltb, SFltb. rewrite SFcompare_dcompare by done. by destruct (dcompare a b).
Qed.

(** ** The choices the C++ standard library leaves open

    [std::sort] and [std::partial_sort] order equivalent elements (and the
    latter the unsorted rest) arbitrarily, and the iteration order of an [std::unordered_map] is unspecified.  The definitions that depend on
    these choices are parameterised by them; the only facts used are the ones
    the standard guarantees. *)

(** A strict weak order on the elements with [P]. *)
Record StrictWeakOrderOn {A} (P : A → Prop) (lt : A → A → bool) : Prop := {
  swo_irrefl : ∀ x, P x → lt x x = false;
  swo_trans : ∀ x y z, P x → P y → P z → lt x y = true → lt y z = true → lt x z = true;
  swo_incomp_trans : ∀ x y z, P x → P y → P z →
    lt x y = false → lt y x = false → lt y z = false → lt z y = false →
    lt x z = false ∧ lt z x = false;
}.

Record StrictWeakOrder {A} (lt : A → A → bool) : Prop := {
  swo_irrefl_all : ∀ x, lt x x = false;
  swo_trans_all : ∀ x y z, lt x y = true → lt y z = true → lt x z = true;
  swo_incomp_trans_all : ∀ x y z,
    lt x y = false → lt y x = false → lt y z = false → lt z y = false →
    lt x z = false ∧ lt z x = false;
}.

Lemma swo_on {A} (P : A → Prop) lt : StrictWeakOrder lt → StrictWeakOrderOn P lt.
Proof. intros [H1 H2 H3]. split; intros; eauto. Qed.

(** A list that [std::sort] may be called on. *)
Abbreviation sortable lt l := (StrictWeakOrderOn (λ x, x ∈ l) lt).

(** Whether a concrete list may be sorted, by trying all its triples. *)
Definition sortableb {A} (lt : A → A → bool) (l : list A) : bool :=
  forallb (λ x, negb (lt x x) && forallb (λ y, forallb (λ z,
    implb (lt x y && lt y z) (lt x z) &&
    implb (negb (lt x y) && negb (lt y x) && negb (lt y z) && negb (lt z y)) (negb (lt x z) && negb (lt z x)))
    l) l) l.

Lemma sortableb_sound {A} (lt : A → A → bool) l : sortableb lt l = true → sortable lt l.
Proof.
  unfold sortableb. intros Hl. rewrite forallb_forall in Hl.
  assert (H1 : ∀ x, x ∈ l → lt x x = false ∧ ∀ y z, y ∈ l → z ∈ l →
    implb (lt x y && lt y z) (lt x z) = true ∧
    implb (negb (lt x y) && negb (lt y x) && negb (lt y z) && negb (lt z y)) (negb (lt x z) && negb (lt z x)) = true).
  { intros x Hx%list_elem_of_In%Hl. apply andb_true_iff in Hx as [Hx%negb_true_iff Hy]. split; [done|].
    rewrite forallb_forall in Hy. intros y z Hyl%list_elem_of_In%Hy Hz%list_elem_of_In.
    rewrite forallb_forall in Hyl. by apply andb_true_iff, Hyl. }
  split.
  - intros x Hx. by apply H1.
  - intros x y z Hx Hy Hz Exy Eyz. destruct (H1 x Hx) as [_ H2]. destruct (H2 y z Hy Hz) as [H3 _].
    by rewrite Exy, Eyz in H3.
  - intros x y z Hx Hy Hz E1 E2 E3 E4. destruct (H1 x Hx) as [_ H2]. destruct (H2 y z Hy Hz) as [_ H3].
    rewrite E1, E2, E3, E4 in H3. by apply andb_true_iff in H3 as [?%negb_true_iff ?%negb_true_iff].
Qed.

Class StdChoices := {
  std_sort : ∀ {A : Type}, (A → A → bool) → list A → list A;
  std_sort_perm_on : ∀ {A} (lt : A → A → bool) l, sortable lt l → std_sort lt l ≡ₚ l;
  std_sort_sorted_on : ∀ {A} (lt : A → A → bool) l,
    sortable lt l → StronglySorted (λ x y, lt y x = false) (std_sort lt l);
  std_partial_sort : ∀ {A : Type}, (A → A → bool) → nat → list A → list A;
  std_partial_sort_perm_on : ∀ {A} (lt : A → A → bool) n l,
    sortable lt l → std_partial_sort lt n l ≡ₚ l;
  std_partial_sort_sorted_on : ∀ {A} (lt : A → A → bool) n l i j x y,
    sortable lt l → (i < n)%nat → (i < j)%nat →
    std_partial_sort lt n l !! i = Some x → std_partial_sort lt n l !! j = Some y → lt y x = false;
  unordered_iter : ∀ {A : Type}, list A → list A;
  unordered_iter_perm : ∀ {A} (l : list A), unordered_iter l ≡ₚ l;
}.

Section std_sort.
Context `{StdChoices} {A : Type} (lt : A → A → bool) (Hlt : StrictWeakOrder lt).

Lemma std_sort_perm l : std_sort lt l ≡ₚ l.
Proof using Hlt. by apply std_sort_perm_on, swo_on. Qed.

Lemma std_sort_sorted l : StronglySorted (λ x y, lt y x = false) (std_sort lt l).
Proof using Hlt. by apply std_sort_sorted_on, swo_on. Qed.

Lemma std_partial_sort_perm n l : std_partial_sort lt n l ≡ₚ l.
Proof using Hlt. by apply std_partial_sort_perm_on, swo_on. Qed.

Lemma std_partial_sort_sorted n l i j x y :
  (i < n)%nat → (i < j)%nat →
  std_partial_sort lt n l !! i = Some x → std_partial_sort lt n l !! j = Some y → lt y x = false.
Proof using Hlt. by apply std_partial_sort_sorted_on, swo_on. Qed.
End std_sort.

(** Stable insertion sort, a conforming [std::sort]. *)
Fixpoint insert_by {A} (lt : A → A → bool) (x : A) (l : list A) : list A :=
  match l with
  | [] => [x]
  | y :: l' => if lt y x then y :: insert_by lt x l' else x :: l
  end.

Definition insertion_sort {A} (lt : A → A → bool) (l : list A) : list A :=
  foldr (insert_by lt) [] l.

Section insertion_sort.
Context {A : Type} (lt : A → A → bool) (P : A → Prop).

Lemma insert_by_perm x l : insert_by lt x l ≡ₚ x :: l.
Proof.
  induction l as [|y l IH]; simpl; [done|].
  destruct (lt y x); [|done]. rewrite IH. apply Permutation_swap.
Qed.

Lemma insertion_sort_perm l : insertion_sort lt l ≡ₚ l.
Proof. induction l as [|x l IH]; simpl; [done|]. by rewrite insert_by_perm, IH. Qed.

Hypothesis lt_swo : StrictWeakOrderOn P lt.

(** Negated [lt] is transitive for a strict weak order. *)
Lemma swo_le_trans x y z : P x → P y → P z → lt y x = false → lt z y = false → lt z x = false.
Proof.
  intros Px Py Pz Hxy Hyz. destruct (lt z x) eqn:Hzx; [|done]. exfalso.
  destruct (lt x y) eqn:Exy.
  { pose proof (swo_trans _ _ lt_swo _ _ _ Pz Px Py Hzx Exy). congruence. }
  destruct (lt y z) eqn:Eyz.
  { pose proof (swo_trans _ _ lt_swo _ _ _ Py Pz Px Eyz Hzx). congruence. }
  destruct (swo_incomp_trans _ _ lt_swo x y z); congruence.
Qed.

Lemma swo_asym x y : P x → P y → lt x y = true → lt y x = false.
Proof.
  intros Px Py Hxy. destruct (lt y x) eqn:Hyx; [|done].
  pose proof (swo_trans _ _ lt_swo _ _ _ Px Py Px Hxy Hyx).
  pose proof (swo_irrefl _ _ lt_swo x Px). congruence.
Qed.

Lemma insert_by_sorted x l :
  P x → Forall P l → StronglySorted (λ x y, lt y x = false) l →
  StronglySorted (λ x y, lt y x = false) (insert_by lt x l).
Proof.
  intros Px Pl. induction 1 as [|y l Hl IH Hy]; simpl; [by repeat constructor|].
  apply Forall_cons in Pl as [Py Pl]. destruct (lt y x) eqn:Hyx; constructor; auto.
  - rewrite insert_by_perm. constructor; [by apply swo_asym | done].
  - by constructor.
  - constructor; [done|]. rewrite Forall_forall in Hy, Pl |- *. intros z Hz.
    apply (swo_le_trans x y z); auto.
Qed.

Lemma insertion_sort_sorted l : Forall P l → StronglySorted (λ x y, lt y x = false) (insertion_sort lt l).
Proof.
  induction 1 as [|x l Px Pl IH]; simpl; [constructor|]. apply insert_by_sorted; auto.
  by rewrite insertion_sort_perm.
Qed.

Lemma insertion_sort_lookup l i j x y :
  Forall P l → (i < j)%nat →
  insertion_sort lt l !! i = Some x → insertion_sort lt l !! j = Some y → lt y x = false.
Proof.
  intros Pl. pose proof (insertion_sort_sorted l Pl) as Hs. revert i j.
  induction Hs as [|z l' _ IH Hz]; intros [|i] [|j] Hij Hx Hy; try done; try lia; cbn in *.
  - simplify_eq. by apply (Forall_lookup_1 _ _ _ _ Hz Hy).
  - apply (IH i j); [lia|done..].
Qed.
End insertion_sort.

Lemma Forall_self {A} (l : list A) : Forall (λ x, x ∈ l) l.
Proof. by apply Forall_forall. Qed.

(** The first element of a sorted range is one of its least. *)
Lemma std_sort_head `{StdChoices} {A} (lt : A → A → bool) l x :
  sortable lt l → head (std_sort lt l) = Some x → x ∈ l ∧ ∀ y, y ∈ l → lt y x = false.
Proof.
  intros Hl Hx. pose proof (std_sort_perm_on lt l Hl) as Hp. pose proof (std_sort_sorted_on lt l Hl) as Hs.
  destruct (std_sort lt l) as [|z l']; [done|]. injection Hx as ->.
  assert (Hin : x ∈ l) by (rewrite <- Hp; left). split; [done|]. intros y. rewrite <- Hp.
  apply StronglySorted_inv in Hs as [_ Hs]. rewrite Forall_forall in Hs.
  intros [->|Hy]%elem_of_cons; [by apply (swo_irrefl _ _ Hl)|auto].
Qed.

Lemma std_sort_head_some `{StdChoices} {A} (lt : A → A → bool) l :
  sortable lt l → l ≠ [] → is_Some (head (std_sort lt l)).
Proof.
  intros Hl Hne. pose proof (std_sort_perm_on lt l Hl) as Hp. destruct (std_sort lt l); [|by eexists].
  by apply Permutation_nil_l in Hp.
Qed.

(** Ordering by a number, largest first. *)
Lemma swo_by_desc {A} (f : A → Z) : StrictWeakOrder (λ a b, f b <? f a).
Proof.
  split; intros *; rewrite ?Z.ltb_lt, ?Z.ltb_ge; lia.
Qed.

(** The strict part of a comparison. *)
Lemma swo_of_compare {A} (c : A → A → comparison) (lt : A → A → bool) :
  CompareOk c → (∀ a b, lt a b = true ↔ c a b = Lt) → StrictWeakOrder lt.
Proof.
  intros Hc Hlt. assert (Hf : ∀ a b, lt a b = false ↔ cmp_le c b a).
  { intros a b. rewrite <- not_true_iff_false, Hlt, (cmp_lt_iff c).
    destruct (decide (cmp_le c b a)); tauto. }
  split; intros *; rewrite ?Hlt, ?Hf, ?(cmp_lt_iff c).
  - done.
  - intros. order (cmp_le c).
  - intros. split; order (cmp_le c).
Qed.

Lemma not_lt_le {A} (c : A → A → comparison) (lt : A → A → bool) a b :
  CompareOk c → (∀ a b, lt a b = true ↔ c a b = Lt) → lt b a = false → cmp_le c a b.
Proof.
  intros Hc Hlt. rewrite <- not_true_iff_false, Hlt, (cmp_lt_iff c).
  destruct (decide (cmp_le c a b)); tauto.
Qed.

(** Sorting by the strict part of a comparison gives a list in its order. *)
Lemma std_sort_compare `{StdChoices} {A} (c : A → A → comparison) (lt : A → A → bool) l :
  CompareOk c → (∀ a b, lt a b = true ↔ c a b = Lt) →
  std_sort lt l ≡ₚ l ∧ StronglySorted (cmp_le c) (std_sort lt l).
Proof.
  intros Hc Hlt. pose proof (swo_of_compare c lt Hc Hlt) as Hswo.
  split; [by apply std_sort_perm|]. pose proof (std_sort_sorted lt Hswo l) as Hs.
  induction Hs as [|x l' _ IH Hx]; constructor; [done|].
  eapply Forall_impl; [exact Hx|]. intros y. by apply not_lt_le.
Qed.

(** Two distinct positions of a permutation are two distinct positions. *)
Lemma Permutation_lookup_2 {A} (l l' : list A) p q x y :
  l ≡ₚ l' → l !! p = Some x → l !! q = Some y → p ≠ q →
  ∃ p' q', l' !! p' = Some x ∧ l' !! q' = Some y ∧ p' ≠ q'.
Proof.
  intros [_ (f & Hf & Hl)]%Permutation_inj Hp Hq Hpq.
  exists (f p), (f q). rewrite <- !Hl. split_and!; [done..|]. intros E. by apply Hf in E.
Qed.

(** The instance used to evaluate the model: insertion sort, insertion order. *)
Definition simple_choices : StdChoices := {|
  std_sort := @insertion_sort;
  std_sort_perm_on := λ A lt l _, insertion_sort_perm lt l;
  std_sort_sorted_on := λ A lt l H, insertion_sort_sorted lt _ H l (Forall_self l);
  std_partial_sort := λ A lt _, @insertion_sort A lt;
  std_partial_sort_perm_on := λ A lt _ l _, insertion_sort_perm lt l;
  std_partial_sort_sorted_on := λ A lt _ l i j x y H _, insertion_sort_lookup lt _ H l i j x y (Forall_self l);
  unordered_iter := λ A l, l;
  unordered_iter_perm := λ A l, Permutation_refl l;
|}.

(** Sorting keys: the order is total, so [std::sort] has a single result. *)
Definition sort_keys (l : list key) : list key := insertion_sort key_ltb l.

Lemma key_ltb_swo : StrictWeakOrder key_ltb.
Proof.
  split.
  - intros x. by apply key_ltb_false.
  - intros x y z. rewrite !key_ltb_true. order (cmp_le slice_compare).
  - intros x y z. rewrite !key_ltb_false. intros. split; order (cmp_le slice_compare).
Qed.

Lemma sort_keys_perm l : sort_keys l ≡ₚ l.
Proof. apply insertion_sort_perm. Qed.

Lemma StronglySorted_perm_unique {A} (R : relation A) (l l' : list A) :
  (∀ x y, R x y → R y x → x = y) →
  StronglySorted R l → StronglySorted R l' → l ≡ₚ l' → l = l'.
Proof.
  intros HR Hl. revert l'. induction Hl as [|x l Hl IH Hx]; intros l' Hl' Hp.
  - by apply Permutation_nil_l in Hp.
  - destruct Hl' as [|y l' Hl' Hy]; [by apply Permutation_nil_r in Hp|].
    assert (x = y) as ->.
    { assert (Hin : x ∈ y :: l') by (rewrite <- Hp; left).
      assert (Hin' : y ∈ x :: l) by (rewrite Hp; left).
      apply elem_of_cons in Hin as [->|Hin]; [done|].
      apply elem_of_cons in Hin' as [->|Hin']; [done|].
      apply HR; [by rewrite Forall_forall in Hx; apply Hx
                |by rewrite Forall_forall in Hy; apply Hy]. }
    f_equal. apply IH; [done|]. by apply Permutation_cons_inv in Hp.
Qed.

(** Whatever conforming [std::sort] is used, the result is [sort_keys]. *)
Lemma std_sort_keys (C : StdChoices) l : std_sort key_ltb l = sort_keys l.
Proof.
  apply (StronglySorted_perm_unique (λ x y, key_ltb y x = false)).
  - intros x y. rewrite !key_ltb_false. apply key_le_antisym.
  - apply std_sort_sorted, key_ltb_swo.
  - apply (insertion_sort_sorted key_ltb (λ _, True)); [apply swo_on, key_ltb_swo|by apply Forall_true].
  - rewrite sort_keys_perm. apply std_sort_perm, key_ltb_swo.
Qed.

(** [v[v.size() / 2]] of the sorted vector, the "median" the code takes. *)
Definition middle_key (l : list key) : key := default [] (sort_keys l !! (length l / 2)%nat).

Lemma middle_key_elem l : l ≠ [] → middle_key l ∈ l.
Proof.
  intros Hl. unfold middle_key.
  destruct (sort_keys l !! (length l / 2)%nat) as [k|] eqn:E.
  - simpl. rewrite <- (sort_keys_perm l). by apply list_elem_of_lookup_2 in E.
  - apply lookup_ge_None in E. rewrite (Permutation_length (sort_keys_perm l)) in E.
    destruct l as [|b l]; [done|]. pose proof (Nat.div_lt (length (b :: l)) 2). simpl in *. lia.
Qed.

(** ** Lists *)

Section list_lemmas.
Context {A : Type} (P : A → Prop) `{!∀ x, Decision (P x)}.

Lemma filter_none l : Forall (λ x, ¬ P x) l → filter P l = [].
Proof. induction 1; [done|]. by rewrite filter_cons_False. Qed.

Lemma filter_all l : Forall P l → filter P l = l.
Proof. induction 1; [done|]. rewrite filter_cons_True; congruence. Qed.
End list_lemmas.

Lemma StronglySorted_take {A} (R : relation A) n l : StronglySorted R l → StronglySorted R (take n l).
Proof. rewrite <- (take_drop n l) at 1. apply StronglySorted_app_1_l. Qed.

Lemma StronglySorted_drop {A} (R : relation A) n l : StronglySorted R l → StronglySorted R (drop n l).
Proof. rewrite <- (take_drop n l) at 1. apply StronglySorted_app_1_r. Qed.

Lemma StronglySorted_impl {A} (R S : relation A) l :
  (∀ x y, R x y → S x y) → StronglySorted R l → StronglySorted S l.
Proof. intros HRS. induction 1 as [|x l _ IH Hx]; constructor; [done|]. eapply Forall_impl; [exact Hx|]. auto. Qed.

Lemma StronglySorted_lookup {A} (R : relation A) l i j x y :
  StronglySorted R l → (i < j)%nat → l !! i = Some x → l !! j = Some y → R x y.
Proof.
  intros Hs. revert i j. induction Hs as [|z l _ IH Hz]; intros [|i] [|j] Hij Hx Hy; try done; try lia; cbn in *.
  - simplify_eq. by apply (Forall_lookup_1 _ _ _ _ Hz Hy).
  - by apply (IH i j); [lia|..].
Qed.

Lemma omap_all_Some {A B} (f : A → option B) (g : A → B) l :
  Forall (λ x, f x = Some (g x)) l → omap f l = g <$> l.
Proof. induction 1 as [|x l Hx _ IH]; [done|]. cbn. by rewrite Hx, IH. Qed.

Lemma StronglySorted_filter {A} (R : relation A) (P : A → Prop) `{∀ x, Decision (P x)} l :
  StronglySorted R l → StronglySorted R (filter P l).
Proof.
  induction 1 as [|x l _ IH Hx]; [constructor|]. rewrite filter_cons. case_decide; [|done].
  constructor; [done|]. rewrite Forall_forall in Hx |- *. intros y [_ Hy]%list_elem_of_filter. by apply Hx.
Qed.

Lemma filter_iff_Forall {A} (P Q : A → Prop) `{∀ x, Decision (P x), ∀ x, Decision (Q x)} l :
  Forall (λ x, P x ↔ Q x) l → filter P l = filter Q l.
Proof.
  induction 1 as [|x l Hx _ IH]; [done|]. rewrite !filter_cons, IH. by do 2 case_decide; try tauto.
Qed.

Lemma fmap_zip_with_compose {A B C D} (g : C → D) (f : A → B → C) l k :
  g <$> zip_with f l k = zip_with (λ x y, g (f x y)) l k.
Proof. revert k. induction l as [|x l IH]; intros [|y k]; simpl; [done..|]. by rewrite IH. Qed.

Lemma Forall_zip_with_r {A B C} (P : B → Prop) (Q : C → Prop) (f : A → B → C) l k :
  (∀ x y, P y → Q (f x y)) → Forall P k → Forall Q (zip_with f l k).
Proof.
  intros Hf Hk. revert l. induction Hk; intros [|? ?]; simpl; constructor; auto.
Qed.

Lemma elem_of_concat {A} (x : A) (ls : list (list A)) :
  x ∈ concat ls ↔ ∃ l, x ∈ l ∧ l ∈ ls.
Proof.
  rewrite list_elem_of_In, in_concat. split; intros (l & H1 & H2); exists l;
    rewrite ?list_elem_of_In in *; tauto.
Qed.

Lemma omap_concat {A B} (f : A → option B) (ls : list (list A)) :
  (omap f (concat ls) : list B) = concat ((omap f : list A → list B) <$> ls).
Proof. induction ls as [|l ls IH]; simpl; [done|]. by rewrite omap_app, IH. Qed.

Lemma lookup_omap_all {A B} (f : A → option B) (l : list A) i :
  Forall (λ x, is_Some (f x)) l → omap f l !! i = l !! i ≫= f.
Proof.
  intros Hl. revert i. induction Hl as [|x l [y Hy] Hl IH]; intros i; [done|].
  simpl. rewrite Hy. destruct i; [by simpl; rewrite Hy|]. simpl. apply IH.
Qed.

Lemma alter_middle {A} (f : A → A) (l : list A) i x :
  l !! i = Some x → ∃ l1 l2, l = l1 ++ x :: l2 ∧ alter f i l = l1 ++ f x :: l2.
Proof.
  intros Hi. exists (take i l), (drop (S i) l). split; [by rewrite take_drop_middle|].
  rewrite <- (take_drop_middle l i x Hi) at 1. apply lookup_lt_Some in Hi.
  rewrite alter_app_r_alt by (rewrite length_take; lia).
  rewrite length_take, Nat.min_l, Nat.sub_diag by lia. done.
Qed.

(** Looking up all positions that satisfy a test gives the elements that do. *)
Lemma omap_lookup_filter {A} (P : A → Prop) `{!∀ x, Decision (P x)}
    (Q : nat → Prop) `{!∀ i, Decision (Q i)} (l : list A) :
  (∀ i x, l !! i = Some x → Q i ↔ P x) →
  omap (λ i, l !! i) (filter Q (seq 0 (length l))) = filter P l.
Proof.
  intros HQ. assert (Hgen : ∀ pre l', l = pre ++ l' →
    omap (λ i, l !! i) (filter Q (seq (length pre) (length l'))) = filter P l').
  { intros pre l'. revert pre. induction l' as [|x l' IH]; intros pre ->; [done|].
    simpl. assert (Hx : (pre ++ x :: l') !! length pre = Some x) by (by apply list_lookup_middle).
    specialize (IH (pre ++ [x])). rewrite length_app, Nat.add_1_r, <- app_assoc in IH.
    rewrite !filter_cons. destruct (decide (Q (length pre))) as [Hq|Hq];
      rewrite (HQ _ _ Hx) in Hq.
    - rewrite decide_True by done. simpl. rewrite Hx. f_equal. by apply IH.
    - rewrite decide_False by done. by apply IH. }
  by apply (Hgen [] l).
Qed.

(** An invariant of the steps is an invariant of the runs. *)
Lemma rtc_invariant {A} (R : relation A) (P : A → Prop) x y :
  (∀ x y, R x y → P x → P y) → rtc R x y → P x → P y.
Proof. intros HR. induction 1; eauto. Qed.

(** Splitting a list at the last element with a property. *)
Lemma last_split {A} (P : A → Prop) `{!∀ x, Decision (P x)} (l : list A) :
  (∃ x, x ∈ l ∧ P x) → ∃ l1 x l2, l = l1 ++ x :: l2 ∧ P x ∧ Forall (λ y, ¬ P y) l2.
Proof.
  induction l as [|y l IH]; [by intros (x & ?%not_elem_of_nil & _)|].
  destruct (decide (Exists P l)) as [He|He].
  - intros _. apply Exists_exists in He. destruct (IH He) as (l1 & x & l2 & -> & HP & Hl2).
    by exists (y :: l1), x, l2.
  - intros (x & [->|Hx]%elem_of_cons & HP).
    + exists [], y, l. split_and!; [done|done|]. by apply not_Exists_Forall in He; [|apply _].
    + destruct He. apply Exists_exists. eauto.
Qed.

(** A nonempty list has a largest element for a total preorder. *)
Lemma list_max {A} (R : relation A) `{!PreOrder R, !Total R} (l : list A) :
  l ≠ [] → ∃ x, x ∈ l ∧ ∀ y, y ∈ l → R y x.
Proof.
  induction l as [|x l IH]; [done|]. intros _. destruct (decide (l = [])) as [->|Hl].
  - exists x. split; [left|]. by intros y ->%list_elem_of_singleton.
  - destruct (IH Hl) as (z & Hz & Hmax). destruct (total R x z).
    + exists z. split; [by right|]. intros y [->|Hy]%elem_of_cons; auto.
    + exists x. split; [left|]. intros y [->|Hy]%elem_of_cons; [done|]. transitivity z; auto.
Qed.

Lemma filter_length_mono {A} (P Q : A → Prop) `{!∀ x, Decision (P x), !∀ x, Decision (Q x)} l :
  (∀ x, x ∈ l → P x → Q x) → (length (filter P l) <= length (filter Q l))%nat.
Proof.
  induction l as [|x l IH]; intros HPQ; [done|]. rewrite !filter_cons.
  assert (length (filter P l) <= length (filter Q l))%nat by (apply IH; intros; apply HPQ; [by right|done]).
  destruct (decide (P x)), (decide (Q x)) as [|Hq]; simpl; try lia.
  destruct Hq. apply HPQ; [left|done].
Qed.

(** ** Lexicographic comparison of strings with a common prefix *)

Lemma slice_compare_app p a b : slice_compare (p ++ a) (p ++ b) = slice_compare a b.
Proof. induction p; simpl; [done|]. by rewrite Z.compare_refl. Qed.

Lemma slice_compare_prefix a x c : slice_compare a (a ++ x :: c) = Lt.
Proof. rewrite <- (app_nil_r a) at 1. by rewrite slice_compare_app. Qed.

Lemma slice_compare_diverge p x y a b :
  byte_val x < byte_val y → slice_compare (p ++ x :: a) (p ++ y :: b) = Lt.
Proof.
  intros Hxy. rewrite slice_compare_app. simpl.
  apply Z.compare_lt_iff in Hxy. by rewrite Hxy.
Qed.

Lemma key_ltb_compare a b : key_ltb a b = true ↔ slice_compare a b = Lt.
Proof. unfold key_ltb. by destruct (slice_compare a b). Qed.

(** ** [std::lower_bound] and [std::upper_bound]

    Binary search for the first position in [first, last) whose element does
    not satisfy [p].  The algorithm halves the interval, so [fuel] of its
    length is enough. *)

Fixpoint bound_loop {A} (p : A → bool) (l : list A) (fuel first len : nat) : nat :=
  match fuel with
  | O => first
  | S fuel' =>
      if (len =? 0)%nat then first
      else
        let half := (len / 2)%nat in
        match l !! (first + half)%nat with
        | None => first
        | Some x =>
            if p x then bound_loop p l fuel' (S (first + half)) (len - S half)
            else bound_loop p l fuel' first half
        end
  end.

Definition std_bound {A} (p : A → bool) (l : list A) (first last : nat) : nat :=
  bound_loop p l (last - first) first (last - first).

Section std_bound.
Context {A : Type} (p : A → bool) (l : list A).

(** The elements of [first, last) that satisfy [p] come first. *)
Definition partitioned_on (first last : nat) : Prop :=
  ∀ i j x y, (first <= i)%nat → (i <= j)%nat → (j < last)%nat →
    l !! i = Some x → l !! j = Some y → p y = true → p x = true.

Lemma bound_loop_spec fuel first len :
  (len <= fuel)%nat → (first + len <= length l)%nat → partitioned_on first (first + len) →
  let r := bound_loop p l fuel first len in
  (first <= r <= first + len)%nat ∧
  (∀ i x, (first <= i < r)%nat → l !! i = Some x → p x = true) ∧
  (∀ i x, (r <= i < first + len)%nat → l !! i = Some x → p x = false).
Proof.
  revert first len. induction fuel as [|fuel IH]; intros first len Hf Hl Hp; cbn [bound_loop].
  { split_and!; intros; lia. }
  destruct (Nat.eqb_spec len 0) as [->|Hn]; [split_and!; intros; lia|].
  set (half := (len / 2)%nat). assert (Hh : (half < len)%nat) by (apply Nat.div_lt; lia).
  destruct (lookup_lt_is_Some_2 l (first + half)) as [x Hx]; [lia|]. rewrite Hx.
  destruct (p x) eqn:Ep.
  - destruct (IH (S (first + half)) (len - S half)%nat) as (H1 & H2 & H3); [lia|lia| |].
    { intros i j y z ??? Hy Hz. apply (Hp i j y z); [lia..|done|done]. }
    split_and!; [lia|lia| |intros i y ?; apply H3; lia].
    intros i y Hi Hy. destruct (decide (i <= first + half)%nat); [|apply (H2 i y); [lia|done]].
    apply (Hp i (first + half)%nat y x); [lia..|done|done|done].
  - destruct (IH first half) as (H1 & H2 & H3); [lia|lia| |].
    { intros i j y z ??? Hy Hz. apply (Hp i j y z); [lia..|done|done]. }
    split_and!; [lia|lia|exact H2|]. intros i y Hi Hy.
    destruct (decide (i < first + half)%nat); [apply (H3 i y); [lia|done]|].
    destruct (p y) eqn:Epy; [|done].
    rewrite (Hp (first + half)%nat i x y) in Ep; [done|lia..|done|done|done].
Qed.

Lemma std_bound_spec first last :
  (first <= last <= length l)%nat → partitioned_on first last →
  (first <= std_bound p l first last <= last)%nat ∧
  (∀ i x, (first <= i < std_bound p l first last)%nat → l !! i = Some x → p x = true) ∧
  (∀ i x, (std_bound p l first last <= i < last)%nat → l !! i = Some x → p x = false).
Proof.
  intros Hl Hp. unfold std_bound.
  destruct (bound_loop_spec (last - first) first (last - first)) as (H1 & H2 & H3); [lia|lia| |].
  { by replace (first + (last - first))%nat with last by lia. }
  replace (first + (last - first))%nat with last in * by lia. done.
Qed.

(** A position with the property of the result is the result. *)
Lemma std_bound_unique first last k :
  (first <= k <= last)%nat → (last <= length l)%nat →
  (∀ i x, (first <= i < k)%nat → l !! i = Some x → p x = true) →
  (∀ i x, (k <= i < last)%nat → l !! i = Some x → p x = false) →
  std_bound p l first last = k.
Proof.
  intros Hk Hl Hlo Hhi. assert (Hp : partitioned_on first last).
  { intros i j x y ??? Hx Hy Hpy. apply (Hlo i x); [|done]. split; [done|].
    destruct (decide (j < k)%nat); [lia|]. rewrite (Hhi j y) in Hpy; [done|lia|done]. }
  destruct (std_bound_spec first last) as (H1 & H2 & H3); [lia|done|].
  set (r := std_bound p l first last) in *.
  destruct (Nat.lt_trichotomy r k) as [Hrk|[?|Hrk]]; [|done|].
  - destruct (lookup_lt_is_Some_2 l r) as [x Hx]; [lia|].
    pose proof (Hlo r x ltac:(lia) Hx). rewrite (H3 r x) in *; [done|lia|done].
  - destruct (lookup_lt_is_Some_2 l k) as [x Hx]; [lia|].
    pose proof (H2 k x ltac:(lia) Hx). rewrite (Hhi k x) in *; [done|lia|done].
Qed.
End std_bound.
