(* ===== verification/Heap.v ===== *)
(** * The binary heap

    Model of [BinaryHeap] of src/util/heap.h, the priority queue of the merging
    iterators: an array in heap order whose top is a greatest element, and a
    cache of the child of the root that is the greater one.  The theorems show
    that every operation keeps the heap order, the elements and a valid cache,
    so that the top is always a greatest element. *)

From S2P Require Import Prelude.

Section heap.
Context {T : Type}.

(** [root_cmp_cache_] is the maximum of [size_t] when there is no cached child. *)
Record BinaryHeap := mkHeap {
  data_ : list T;
  root_cmp_cache_ : option nat;
}.

Definition get_parent (index : nat) : nat := (index - 1) / 2.
Definition get_left (index : nat) : nat := 2 * index + 1.

Definition empty_heap : BinaryHeap := mkHeap [] None.

Definition heap_empty (h : BinaryHeap) : bool := (length (data_ h) =? 0)%nat.
Definition heap_top (h : BinaryHeap) : option T := head (data_ h).

(** The less-than relation; the top is a maximum. *)
Context (cmp : T → T → bool).

(** [cmp_(data_[i], data_[j])] *)
Definition less_at (data : list T) (i j : nat) : bool :=
  match data !! i, data !! j with
  | Some a, Some b => cmp a b
  | _, _ => false
  end.

(** Parents move down into the hole at [index] until [v] fits.  The index
    decreases, so as many rounds as its value are enough. *)
Fixpoint upheap_loop (fuel : nat) (v : T) (data : list T) (index : nat) : list T :=
  match fuel with
  | O => <[index := v]> data
  | S n =>
      if (0 <? index)%nat then
        match data !! get_parent index with
        | Some p => if cmp p v then upheap_loop n v (<[index := p]> data) (get_parent index) else <[index := v]> data
        | None => data
        end
      else <[index := v]> data
  end.

Definition upheap (index : nat) (h : BinaryHeap) : BinaryHeap :=
  match data_ h !! index with
  | Some v => mkHeap (upheap_loop index v (data_ h) index) None
  | None => h
  end.

(** The child of [index] that is compared: the cached one, or the greater. *)
Definition pick_child (cache : option nat) (data : list T) (index : nat) : nat :=
  let left_child := get_left index in
  let right_child := S left_child in
  let picked_child :=
    if (right_child <? length data)%nat && less_at data left_child right_child then right_child else left_child in
  match cache with
  | Some c => if (index =? 0)%nat && (c <? length data)%nat then c else picked_child
  | None => picked_child
  end.

(** Children move up into the hole at [index] until [v] fits.  The index
    grows, so as many rounds as there are elements are enough. *)
Fixpoint downheap_loop (fuel : nat) (cache : option nat) (v : T) (data : list T) (index : nat) (picked : option nat)
    : list T * nat * option nat :=
  match fuel with
  | O => (data, index, picked)
  | S n =>
      if (length data <=? get_left index)%nat then (data, index, picked)
      else
        let picked_child := pick_child cache data index in
        match data !! picked_child with
        | Some c =>
            if cmp v c then downheap_loop n cache v (<[index := c]> data) picked_child (Some picked_child)
            else (data, index, Some picked_child)
        | None => (data, index, Some picked_child)
        end
  end.

Definition downheap (index : nat) (h : BinaryHeap) : BinaryHeap :=
  match data_ h !! index with
  | Some v =>
      let '(data, index', picked_child) := downheap_loop (length (data_ h)) (root_cmp_cache_ h) v (data_ h) index None in
      mkHeap (<[index' := v]> data) (if (index' =? 0)%nat then picked_child else None)
  | None => h
  end.

Definition push (value : T) (h : BinaryHeap) : BinaryHeap :=
  upheap (length (data_ h)) (mkHeap (data_ h ++ [value]) (root_cmp_cache_ h)).

Definition replace_top (value : T) (h : BinaryHeap) : BinaryHeap :=
  downheap 0 (mkHeap (<[0%nat := value]> (data_ h)) (root_cmp_cache_ h)).

Definition pop (h : BinaryHeap) : BinaryHeap :=
  let n := length (data_ h) in
  let data := match data_ h !! (n - 1)%nat with
              | Some back => take (n - 1) (if (1 <? n)%nat then <[0%nat := back]> (data_ h) else data_ h)
              | None => []
              end in
  if (length data =? 0)%nat then mkHeap data None else downheap 0 (mkHeap data (root_cmp_cache_ h)).

Definition clear (h : BinaryHeap) : BinaryHeap := empty_heap.
End heap.
Arguments BinaryHeap : clear implicits.

(** ** The heap order *)

Section order.
Context {T : Type} (cmp : T → T → bool) (Hcmp : StrictWeakOrder cmp).

(** [a] may be above [b]. *)
Definition above (a b : T) : Prop := cmp a b = false.

#[export] Instance above_dec : RelDecision above.
Proof. intros a b. unfold above. apply _. Defined.

#[local] Instance above_total_pre : TotalPre above.
Proof using Hcmp.
  pose proof (swo_on (λ _, True) cmp Hcmp) as Hon. split; [split|]; unfold above.
  - intros a. apply (swo_irrefl_all _ Hcmp).
  - intros a b c ??. by apply (swo_le_trans cmp (λ _, True) Hon c b a).
  - intros a b. destruct (cmp a b) eqn:E; [|by left]. right. by apply (swo_asym cmp (λ _, True) Hon).
Qed.

Lemma not_above a b : cmp a b = true ↔ ¬ above a b.
Proof. unfold above. by rewrite not_false_iff_true. Qed.

Lemma get_parent_iff i k : (0 < i)%nat → get_parent i = k ↔ i = (2 * k + 1)%nat ∨ i = (2 * k + 2)%nat.
Proof.
  intros Hi. unfold get_parent. pose proof (Nat.div_mod (i - 1) 2 ltac:(lia)).
  pose proof (Nat.mod_upper_bound (i - 1) 2 ltac:(lia)). lia.
Qed.

Lemma get_parent_lt i : (0 < i)%nat → (get_parent i < i)%nat.
Proof. intros Hi. pose proof (proj1 (get_parent_iff i _ Hi) eq_refl). lia. Qed.

(** Every element but the root is below its parent. *)
Definition heap_ordered (l : list T) : Prop :=
  ∀ i x y, (0 < i)%nat → l !! i = Some x → l !! get_parent i = Some y → above y x.

(** All pairs are in order but those [bad] names, and the children of [k] are
    below its parent. *)
Definition ordered_but (bad : nat → Prop) (k : nat) (l : list T) : Prop :=
  (∀ i x y, (0 < i)%nat → ¬ bad i → l !! i = Some x → l !! get_parent i = Some y → above y x) ∧
  (∀ i x y, (0 < i)%nat → get_parent i = k → (0 < k)%nat → l !! i = Some x → l !! get_parent k = Some y → above y x).

(** The cached child of the root is one of its children and not below the
    other. *)
Definition cache_ok (l : list T) (cache : option nat) : Prop :=
  ∀ c, cache = Some c → (c < length l)%nat → (c = 1 ∨ c = 2)%nat ∧
    ∀ i x y, (i = 1 ∨ i = 2)%nat → l !! i = Some x → l !! c = Some y → above y x.

Definition heap_ok (h : BinaryHeap T) : Prop := heap_ordered (data_ h) ∧ cache_ok (data_ h) (root_cmp_cache_ h).

(** The root is above all. *)
Lemma root_above l t i x : heap_ordered l → l !! 0%nat = Some t → l !! i = Some x → above t x.
Proof using Hcmp.
  intros Ho Ht. revert x. induction i as [i IH] using lt_wf_ind. intros x Hx.
  destruct (decide (i = 0)%nat) as [->|Hi]; [simplify_eq; reflexivity|].
  pose proof (get_parent_lt i ltac:(lia)) as Hp. apply lookup_lt_Some in Hx as Hl.
  destruct (lookup_lt_is_Some_2 l (get_parent i)) as [y Hy]; [lia|].
  pose proof (IH _ Hp y Hy). pose proof (Ho i x y ltac:(lia) Hx Hy). by transitivity y.
Qed.

Lemma insert_lookup (l : list T) i x j :
  (i < length l)%nat → <[i := x]> l !! j = if decide (j = i) then Some x else l !! j.
Proof.
  intros Hi. destruct (decide (j = i)) as [->|]; [by apply list_lookup_insert_eq|by apply list_lookup_insert_ne].
Qed.

(** Exchanging [v] at [i] with [w] at [j], in terms of the list with the hole. *)
Lemma swap_hole (l : list T) i j v w :
  (i < length l)%nat → (j < length l)%nat → i ≠ j → l !! j = Some w →
  let W := <[i := v]> l in let W' := <[j := v]> (<[i := w]> l) in
  W' ≡ₚ W ∧ W !! i = Some v ∧ W !! j = Some w ∧
  ∀ k, W' !! k = if decide (k = j) then Some v else if decide (k = i) then Some w else W !! k.
Proof.
  intros Hi Hj Hne Hw. cbn zeta. assert (HWi : <[i := v]> l !! i = Some v) by (by apply list_lookup_insert_eq).
  assert (HWj : <[i := v]> l !! j = Some w) by (by rewrite list_lookup_insert_ne). split_and!; [|done..|].
  - rewrite <- (list_insert_insert_eq l i w v). by apply Permutation_insert_swap.
  - intros k. rewrite insert_lookup by (by rewrite length_insert). destruct (decide (k = j)); [done|].
    rewrite insert_lookup by done. destruct (decide (k = i)) as [->|]; [done|]. by rewrite list_lookup_insert_ne.
Qed.

Lemma upheap_loop_spec fuel : ∀ v data index,
  (index <= fuel)%nat → (index < length data)%nat →
  ordered_but (λ i, i = index) index (<[index := v]> data) →
  heap_ordered (upheap_loop cmp fuel v data index) ∧ upheap_loop cmp fuel v data index ≡ₚ <[index := v]> data.
Proof using Hcmp.
  induction fuel as [|n IH]; intros v data index Hf Hi [Ho1 Ho2]; cbn [upheap_loop].
  { split; [|done]. intros i x y Hi0 Hx Hy. by apply (Ho1 i x y Hi0); [lia|..]. }
  destruct (Nat.ltb_spec 0 index) as [Hpos|Hpos].
  2:{ split; [|done]. intros i x y Hi0 Hx Hy. by apply (Ho1 i x y Hi0); [lia|..]. }
  pose proof (get_parent_lt index Hpos) as Hpar.
  destruct (lookup_lt_is_Some_2 data (get_parent index)) as [p Hp]; [lia|]. rewrite Hp.
  destruct (swap_hole data index (get_parent index) v p) as (Hperm & Hv & HWp & HW); [lia..|done|].
  set (W := <[index := v]> data) in *. set (W' := <[get_parent index := v]> _) in *.
  destruct (cmp p v) eqn:E.
  - apply not_above in E. destruct (IH v (<[index := p]> data) (get_parent index)) as [H1 H2]; [lia|rewrite length_insert; lia| |].
    2:{ split; [done|]. by rewrite H2. }
    fold W'. split.
    + intros i x y Hi0 Hne. rewrite !HW. destruct (decide (i = get_parent index)); [done|].
      destruct (decide (i = index)) as [->|Hni].
      { rewrite decide_True by done. intros [= <-] [= <-]. order above. }
      intros Hx. destruct (decide (get_parent i = get_parent index)) as [Ep|Ep].
      * intros [= <-]. rewrite <- Ep in HWp. pose proof (Ho1 i x p Hi0 Hni Hx HWp). order above.
      * destruct (decide (get_parent i = index)) as [Ei|Ei]; [|by apply Ho1].
        intros [= <-]. by apply (Ho2 i x p).
    + intros i x y Hi0 Hi1 Hpp. rewrite !HW. pose proof (get_parent_lt i Hi0). pose proof (get_parent_lt _ Hpp).
      rewrite (decide_False (P := i = get_parent index)) by lia.
      rewrite (decide_False (P := get_parent (get_parent index) = get_parent index)) by lia.
      rewrite (decide_False (P := get_parent (get_parent index) = index)) by lia.
      intros Hx Hy. pose proof (Ho1 _ p y Hpp ltac:(lia) HWp Hy).
      destruct (decide (i = index)) as [->|Hni]; [by simplify_eq|].
      rewrite <- Hi1 in HWp. pose proof (Ho1 i x p Hi0 Hni Hx HWp). order above.
  - split; [|done]. intros i x y Hi0 Hx Hy. destruct (decide (i = index)) as [->|]; [|by apply (Ho1 i x y)].
    rewrite Hv in Hx. rewrite HWp in Hy. by simplify_eq.
Qed.

(** The picked child is a child that is not below the other. *)
Lemma pick_child_spec cache data index :
  (get_left index < length data)%nat → (index = 0%nat → cache_ok data cache) →
  let c := pick_child cmp cache data index in
  (c < length data)%nat ∧ (c = 2 * index + 1 ∨ c = 2 * index + 2)%nat ∧
  ∀ i x y, (i = 2 * index + 1 ∨ i = 2 * index + 2)%nat → data !! i = Some x → data !! c = Some y → above y x.
Proof using Hcmp.
  unfold get_left. intros Hl Hc. cbn zeta. unfold pick_child, get_left.
  set (d := if _ : bool then _ else _).
  assert (Hd : (d < length data)%nat ∧ (d = 2 * index + 1 ∨ d = 2 * index + 2)%nat ∧
    ∀ i x y, (i = 2 * index + 1 ∨ i = 2 * index + 2)%nat → data !! i = Some x → data !! d = Some y → above y x).
  { unfold d. destruct (Nat.ltb_spec (S (2 * index + 1)) (length data)) as [Hr|Hr]; cbn [andb].
    - unfold less_at. destruct (lookup_lt_is_Some_2 data (2 * index + 1)) as [a Ha]; [lia|].
      destruct (lookup_lt_is_Some_2 data (S (2 * index + 1))) as [b Hb]; [lia|]. rewrite Ha, Hb.
      replace (2 * index + 2)%nat with (S (2 * index + 1)) by lia.
      destruct (cmp a b) eqn:E; [apply not_above in E|].
      + split_and!; [lia|lia|]. intros i x y [->| ->] Hx Hy; simplify_eq; order above.
      + split_and!; [lia|lia|]. intros i x y [->| ->] Hx Hy; simplify_eq; [reflexivity|done].
    - split_and!; [lia|lia|]. intros i x y [->| ->] Hx Hy; [simplify_eq; reflexivity|].
      apply lookup_lt_Some in Hx. lia. }
  destruct cache as [c|]; [|done]. destruct (Nat.eqb_spec index 0) as [->|]; [|done].
  destruct (Nat.ltb_spec c (length data)) as [Hcl|]; [|done]. cbn [andb].
  destruct (Hc eq_refl c eq_refl Hcl) as [Hc1 Hc2]. split_and!; [done|lia|].
  intros i x y Hi. apply Hc2. lia.
Qed.

Lemma children_of i k : (0 < i)%nat → get_parent i = k → (i = 2 * k + 1 ∨ i = 2 * k + 2)%nat.
Proof. intros. by apply get_parent_iff. Qed.

Lemma downheap_loop_spec fuel cache v : ∀ data index picked,
  (length data <= fuel + index)%nat → (index < length data)%nat →
  (index = 0%nat → cache_ok data cache ∧ picked = None) →
  ordered_but (λ i, get_parent i = index) index (<[index := v]> data) →
  let '(data', index', picked') := downheap_loop cmp fuel cache v data index picked in
  heap_ordered (<[index' := v]> data') ∧ <[index' := v]> data' ≡ₚ <[index := v]> data ∧
  (index' = 0%nat → cache_ok (<[0%nat := v]> data') picked').
Proof using Hcmp.
  induction fuel as [|n IH]; intros data index picked Hf Hi Hc [Ho1 Ho2]; cbn [downheap_loop]; [lia|].
  destruct (Nat.leb_spec (length data) (get_left index)) as [Hl|Hl].
  { unfold get_left in Hl. split_and!; [|done|].
    - intros i x y Hi0 Hx Hy. apply (Ho1 i x y Hi0); [|done..]. intros Ep%children_of; [|done].
      apply lookup_lt_Some in Hx. rewrite length_insert in Hx. lia.
    - intros ->. destruct (Hc eq_refl) as [_ ->]. by intros c. }
  destruct (pick_child_spec cache data index Hl (λ E, proj1 (Hc E))) as (Hcl & Hck & Hbig).
  set (c := pick_child cmp cache data index) in *. clearbody c. destruct (lookup_lt_is_Some_2 data c Hcl) as [w Hw]. rewrite Hw.
  destruct (swap_hole data index c v w) as (Hperm & Hv & HWc & HW); [lia..|done|].
  set (W := <[index := v]> data) in *. set (W' := <[c := v]> _) in *.
  assert (HWd : ∀ j, j ≠ index → W !! j = data !! j) by (intros; by apply list_lookup_insert_ne).
  assert (Hpc : get_parent c = index) by (apply get_parent_iff; lia).
  destruct (cmp v w) eqn:E.
  - apply not_above in E. specialize (IH (<[index := w]> data) c (Some c)). rewrite length_insert in IH.
    destruct (downheap_loop cmp n cache v _ c _) as [[data' index'] picked'].
    destruct IH as (H1 & H2 & H3); [lia..|split| by split_and!; [|rewrite H2|]]; fold W'.
    + intros i x y Hi0 Hne. rewrite !HW. rewrite (decide_False (P := get_parent i = c)) by done.
      destruct (decide (i = c)) as [->|Hnc].
      { rewrite decide_True by done. intros [= <-] [= <-]. order above. }
      pose proof (get_parent_lt i Hi0). destruct (decide (get_parent i = index)) as [Ep|Ep].
      * rewrite decide_False by lia. intros Hx [= <-]. rewrite HWd in Hx by lia.
        apply (Hbig i x w); [by apply children_of|done..].
      * destruct (decide (i = index)) as [->|Hni]; [|by apply Ho1].
        intros [= <-] Hy. by apply (Ho2 c w y); [lia|..].
    + intros i x y Hi0 Hi1 _. rewrite !HW. pose proof (get_parent_lt i Hi0).
      rewrite Hpc, (decide_False (P := i = c)), (decide_False (P := i = index)) by lia.
      rewrite decide_False, decide_True by lia. intros Hx [= <-]. apply (Ho1 i x w Hi0); [lia|done|by rewrite Hi1].
  - split_and!; [|done|].
    + fold W. intros i x y Hi0 Hx Hy. destruct (decide (get_parent i = index)) as [Ep|]; [|by apply (Ho1 i x y)].
      pose proof (get_parent_lt i Hi0). rewrite Ep, Hv in Hy. injection Hy as <-. rewrite HWd in Hx by lia.
      pose proof (Hbig i x w (children_of i index Hi0 Ep) Hx Hw). change (above v w) in E. order above.
    + intros -> c' [= <-] _. split; [lia|]. intros i x y Hi'. fold W. rewrite !HWd by lia. apply Hbig. lia.
Qed.

Lemma heap_ordered_but l k : heap_ordered l → ordered_but (λ _, False) k l.
Proof using Hcmp.
  intros Ho. split; [intros i x y Hi _; by apply Ho|]. intros i x y Hi Hk Hk0 Hx Hy.
  pose proof (get_parent_lt i Hi). apply lookup_lt_Some in Hx as Hl.
  destruct (lookup_lt_is_Some_2 l k) as [z Hz]; [lia|]. rewrite <- Hk in Hz.
  pose proof (Ho i x z Hi Hx Hz). rewrite Hk in Hz. pose proof (Ho k z y Hk0 Hz Hy). order above.
Qed.

Lemma push_spec v h : heap_ok h → heap_ok (push cmp v h) ∧ data_ (push cmp v h) ≡ₚ v :: data_ h.
Proof using Hcmp.
  intros [Ho _]. unfold push, upheap. cbn [data_ root_cmp_cache_].
  rewrite list_lookup_middle by done. destruct (upheap_loop_spec (length (data_ h)) v (data_ h ++ [v]) (length (data_ h)))
    as [H1 H2]; [lia|rewrite length_app; cbn; lia| |].
  - rewrite insert_app_r_alt by lia. rewrite Nat.sub_diag. cbn. split.
    + intros i x y Hi Hne Hx Hy. apply lookup_lt_Some in Hx as Hl. rewrite length_app in Hl. cbn in Hl.
      pose proof (get_parent_lt i Hi). rewrite lookup_app_l in Hx, Hy by lia. by apply (Ho i x y).
    + intros i x y Hi Hk _ Hx. pose proof (get_parent_lt i Hi). apply lookup_lt_Some in Hx. rewrite length_app in Hx.
      cbn in Hx. lia.
  - split; [split; [done|by intros c]|]. cbn [data_]. rewrite H2, insert_app_r_alt, Nat.sub_diag by lia. cbn.
    by rewrite Permutation_app_comm.
Qed.

(** Sifting a new root down, when the rest is in order. *)
Lemma downheap_root v l cache :
  heap_ordered (v :: l) ∨ (∃ t, heap_ordered (t :: l)) → cache_ok (v :: l) cache →
  let h := downheap cmp 0 (mkHeap (v :: l) cache) in heap_ok h ∧ data_ h ≡ₚ v :: l.
Proof using Hcmp.
  intros Hor Hc. assert (∃ t, heap_ordered (t :: l)) as [t Ht] by (destruct Hor; eauto). clear Hor.
  unfold downheap. cbn [data_ root_cmp_cache_ lookup list_lookup].
  pose proof (downheap_loop_spec (length (v :: l)) cache v (v :: l) 0 None ltac:(lia) ltac:(cbn; lia) (λ _, conj Hc eq_refl)) as Hd.
  destruct (downheap_loop _ _ _ _ _ _) as [[data index] picked]. destruct Hd as (H1 & H2 & H3).
  - split; [|intros; lia]. cbn [insert list_insert]. intros i x y Hi Hp Hx Hy. apply (Ht i x y Hi).
    + by destruct i.
    + destruct (get_parent i) eqn:Ep; [by destruct Hp|done].
  - split; [|exact H2]. split; [exact H1|]. cbn. destruct (Nat.eqb_spec index 0) as [->|]; [by apply H3|by intros c].
Qed.

Lemma cache_ok_root v t l cache : cache_ok (t :: l) cache → cache_ok (v :: l) cache.
Proof.
  intros Hc c Ec Hl. destruct (Hc c Ec Hl) as [Hc1 Hc2]. split; [done|]. intros i x y Hi Hx Hy.
  apply (Hc2 i x y Hi); [destruct i; [lia|done]|destruct c; [lia|done]].
Qed.

Lemma replace_top_spec v t l cache :
  heap_ok (mkHeap (t :: l) cache) →
  let h := replace_top cmp v (mkHeap (t :: l) cache) in heap_ok h ∧ data_ h ≡ₚ v :: l.
Proof using Hcmp.
  intros [Ho Hc]. unfold replace_top. cbn [data_ root_cmp_cache_ insert list_insert].
  apply downheap_root; [right; by exists t|]. by eapply cache_ok_root.
Qed.

Lemma pop_spec t l cache :
  heap_ok (mkHeap (t :: l) cache) →
  let h := pop cmp (mkHeap (t :: l) cache) in heap_ok h ∧ data_ h ≡ₚ l.
Proof using Hcmp.
  intros [Ho Hc]. cbn [data_ root_cmp_cache_] in Ho, Hc. unfold pop. cbn [data_ root_cmp_cache_].
  destruct (decide (l = [])) as [->|Hne]; [cbn; split; [split; [intros [] ??|by intros c]|done]; done|].
  destruct (exists_last Hne) as (l' & b & ->). cbn [length]. rewrite length_app. cbn [length Nat.sub].
  replace (length l' + 1 - 0)%nat with (S (length l')) by lia.
  rewrite (lookup_cons_ne_0 _ _ _ (Nat.neq_succ_0 _)). cbn [Nat.pred]. rewrite list_lookup_middle by done.
  rewrite (proj2 (Nat.ltb_lt 1 _)) by lia. cbn [insert list_insert].
  change (take (S (length l')) (b :: l' ++ [b])) with (b :: take (length l') (l' ++ [b])).
  rewrite take_app_length. cbn [length Nat.eqb].
  assert (Hpre : heap_ordered (t :: l')).
  { intros i x y Hi Hx Hy. apply (Ho i x y Hi); rewrite app_comm_cons; by apply lookup_app_l_Some. }
  destruct (downheap_root b l' cache) as [H1 H2]; [right; by exists t| |].
  - apply (cache_ok_root b t). intros c Ec Hl. cbn in Hl. destruct (Hc c Ec) as [Hc1 Hc2]; [cbn; rewrite length_app; cbn; lia|].
    split; [done|]. intros i x y Hi Hx Hy. apply (Hc2 i x y Hi); rewrite app_comm_cons; by apply lookup_app_l_Some.
  - split; [done|]. rewrite H2. apply Permutation_cons_append.
Qed.
End order.

(** ** A priority queue *)

Inductive heap_op (T : Type) :=
| OpPush (v : T)
| OpReplaceTop (v : T)
| OpPop
| OpClear.
Arguments OpPush {T} v.
Arguments OpReplaceTop {T} v.
Arguments OpPop {T}.
Arguments OpClear {T}.

Section queue.
Context {T : Type} (cmp : T → T → bool).

(** An operation of the heap; those that need an element are not called on an
    empty heap. *)
Definition heap_step (op : heap_op T) (h : BinaryHeap T) : option (BinaryHeap T) :=
  match op with
  | OpPush v => Some (push cmp v h)
  | OpReplaceTop v => if heap_empty h then None else Some (replace_top cmp v h)
  | OpPop => if heap_empty h then None else Some (pop cmp h)
  | OpClear => Some (clear h)
  end.

Fixpoint heap_run (ops : list (heap_op T)) (h : BinaryHeap T) : option (BinaryHeap T) :=
  match ops with
  | [] => Some h
  | op :: ops' => h' ← heap_step op h; heap_run ops' h'
  end.

Definition maximum (t : T) (l : list T) : Prop := t ∈ l ∧ Forall (λ x, cmp t x = false) l.

(** What a priority queue promises: the elements as a multiset; a greatest one
    is on top and leaves first. *)
Inductive queue_step : heap_op T → list T → list T → Prop :=
| queue_push v l l' : l' ≡ₚ v :: l → queue_step (OpPush v) l l'
| queue_replace v t r l l' : maximum t l → l ≡ₚ t :: r → l' ≡ₚ v :: r → queue_step (OpReplaceTop v) l l'
| queue_pop t l l' : maximum t l → l ≡ₚ t :: l' → queue_step OpPop l l'
| queue_clear l : queue_step OpClear l [].

Inductive queue_run : list (heap_op T) → list T → list T → Prop :=
| queue_done l : queue_run [] l l
| queue_next op ops l1 l2 l3 : queue_step op l1 l2 → queue_run ops l2 l3 → queue_run (op :: ops) l1 l3.

Context (Hcmp : StrictWeakOrder cmp).

Lemma top_maximum t l cache : heap_ok cmp (mkHeap (t :: l) cache) → maximum t (t :: l).
Proof using Hcmp.
  intros [Ho _]. split; [left|]. apply Forall_lookup_2. intros i x Hx.
  exact (root_above cmp Hcmp _ t i x Ho eq_refl Hx).
Qed.

Lemma empty_heap_ok : heap_ok cmp (@empty_heap T).
Proof. split; [by intros [|i] x y _ Hx|by intros c]. Qed.

Lemma heap_step_queue op h h' :
  heap_ok cmp h → heap_step op h = Some h' → heap_ok cmp h' ∧ queue_step op (data_ h) (data_ h').
Proof using Hcmp.
  intros Hok. destruct op as [v|v| |]; cbn [heap_step].
  - intros [= <-]. destruct (push_spec cmp Hcmp v h Hok). split; [done|]. by constructor.
  - destruct h as [[|t l] cache]; [done|]. intros [= <-]. pose proof (top_maximum t l cache Hok) as Hm.
    destruct (replace_top_spec cmp Hcmp v t l cache Hok). split; [done|]. by apply (queue_replace v t l).
  - destruct h as [[|t l] cache]; [done|]. intros [= <-]. pose proof (top_maximum t l cache Hok) as Hm.
    destruct (pop_spec cmp Hcmp t l cache Hok) as [? Hp]. split; [done|]. apply (queue_pop t); [exact Hm|].
    cbn [data_]. by rewrite Hp.
  - intros [= <-]. split; [apply empty_heap_ok|constructor].
Qed.
End queue.

(** C33. The binary heap implements a priority queue: after any sequence of
    pushes, pops, replacements of the top and clears on a new heap, its elements
    are what a priority queue that always removes a greatest element may hold,
    its top is a greatest of them (there is one unless it is empty), and the
    cached child of the root is the greater child. *)
Theorem heap_is_priority_queue {T} (cmp : T → T → bool) ops h :
  StrictWeakOrder cmp → heap_run cmp ops empty_heap = Some h →
  queue_run cmp ops [] (data_ h) ∧ heap_ok cmp h ∧
  match heap_top h with Some t => maximum cmp t (data_ h) | None => data_ h = [] end.
Proof.
  intros Hcmp. pose proof (empty_heap_ok cmp) as Hok.
  change (@nil T) with (data_ (@empty_heap T)) at 1. revert Hok. generalize (@empty_heap T) as h0.
  induction ops as [|op ops IH]; intros h0 Hok; cbn [heap_run].
  - intros [= <-]. split_and!; [constructor|done|]. destruct h0 as [[|t l] cache]; [done|].
    by apply (top_maximum cmp Hcmp t l cache).
  - destruct (heap_step cmp op h0) as [h1|] eqn:E; [|done]. cbn [mbind option_bind]. intros Hrun.
    destruct (heap_step_queue cmp Hcmp op h0 h1 Hok E) as [Hok1 Hq].
    destruct (IH h1 Hok1 Hrun) as (Hr & ? & ?). split_and!; [by econstructor|done..].
Qed.

Lemma heap_is_priority_queue_witness :
  let ops := [OpPush 3; OpPush 9; OpPush 5; OpPush 7; OpReplaceTop 4; OpPop; OpReplaceTop 6] in
  ∃ h, heap_run Z.ltb ops empty_heap = Some h ∧ data_ h = [6; 4; 3] ∧ queue_run Z.ltb ops [] (data_ h).
Proof.
  cbn zeta. eexists. split; [by vm_compute|]. split; [done|].
  refine (proj1 (heap_is_priority_queue Z.ltb _ _ _ _)).
  - split; [apply Z.ltb_irrefl|intros x y z; rewrite !Z.ltb_lt; lia|].
    intros x y z. rewrite !Z.ltb_ge. lia.
  - by vm_compute.
Defined.
