(* ===== verification/Bucket.v ===== *)
(** * Buckets: a key range and the statistics of its last flushes

    Models [FlushEvent], [Bucket] and [BucketFlushResult] of
    [src/db/column_family.h] and the [Bucket] methods of
    [src/db/column_family.cc].  A bucket keeps one event per global flush in
    [flush_events] (a [std::map] keyed by flush id) and the sums of the events'
    counters in its [window_*] fields. *)

From S2P Require Import Prelude.

Record FlushEvent := mkFlushEvent {
  fe_flush_id : Z;
  fe_file_count : Z;
  fe_entry_count : Z;
  fe_data_bytes : Z;
  fe_median_key : key;
}.

Record Bucket := mkBucket {
  min_key : key;  (* inclusive, empty = -infinity *)
  max_key : key;  (* exclusive, empty = +infinity *)
  flush_events : gmap Z FlushEvent;
  window_file_count : Z;
  window_entry_count : Z;
  window_data_bytes : Z;
}.

Definition WINDOW_SIZE : Z := 10.

Record BucketFlushResult := mkBucketFlushResult {
  bfr_file_count : Z;
  bfr_entry_count : Z;
  bfr_data_bytes : Z;
  bfr_median_key : key;
  bfr_min_key : key;
  bfr_max_key : key;
}.

(** A freshly constructed bucket with the given range. *)
Definition new_bucket (lo hi : key) : Bucket := mkBucket lo hi ∅ 0 0 0.

Definition AddFlushEvent (flush_id file_count entries bytes : Z) (median : key)
    (b : Bucket) : Bucket :=
  let event := mkFlushEvent flush_id file_count entries bytes median in
  mkBucket (min_key b) (max_key b) (<[flush_id := event]> (flush_events b))
    (window_file_count b +64 file_count)
    (window_entry_count b +64 entries)
    (window_data_bytes b +64 bytes).

Definition RemoveFlushEvent (flush_id : Z) (b : Bucket) : Bucket :=
  match flush_events b !! flush_id with
  | Some e =>
      mkBucket (min_key b) (max_key b) (delete flush_id (flush_events b))
        (window_file_count b -64 fe_file_count e)
        (window_entry_count b -64 fe_entry_count e)
        (window_data_bytes b -64 fe_data_bytes e)
  | None => b
  end.

(** The events of the window; the loops over them only add the counters up or
    collect keys that are sorted afterwards, so their order does not matter. *)
Definition events_of (m : gmap Z FlushEvent) : list FlushEvent := (map_to_list m).*2.

Definition RecalculateWindowStats (b : Bucket) : Bucket :=
  mkBucket (min_key b) (max_key b) (flush_events b)
    (sum64 (fe_file_count <$> events_of (flush_events b)))
    (sum64 (fe_entry_count <$> events_of (flush_events b)))
    (sum64 (fe_data_bytes <$> events_of (flush_events b))).

(** ** The window invariant

    [sum_events f m] is the sum of the counter [f] over a window.  A bucket is
    consistent when its three aggregates are the sums of its events. *)

Definition sum_events (f : FlushEvent → Z) (m : gmap Z FlushEvent) : Z :=
  foldr Z.add 0 (f <$> events_of m).

Definition window_ok (b : Bucket) : Prop :=
  window_file_count b = u64 (sum_events fe_file_count (flush_events b)) ∧
  window_entry_count b = u64 (sum_events fe_entry_count (flush_events b)) ∧
  window_data_bytes b = u64 (sum_events fe_data_bytes (flush_events b)).

Section sum_events.
Context (f : FlushEvent → Z).

Lemma sum_events_empty : sum_events f ∅ = 0.
Proof. unfold sum_events, events_of. by rewrite map_to_list_empty. Qed.

Lemma sum_events_insert m i e :
  m !! i = None → sum_events f (<[i := e]> m) = f e + sum_events f m.
Proof.
  intros Hi. unfold sum_events, events_of.
  rewrite (sum_Permutation _ (f <$> (e :: (map_to_list m).*2))); [done|].
  by rewrite map_to_list_insert.
Qed.

Lemma sum_events_delete m i e :
  m !! i = Some e → sum_events f (delete i m) = sum_events f m - f e.
Proof.
  intros Hi. rewrite <- (insert_delete_id m i e Hi) at 2.
  rewrite sum_events_insert by apply lookup_delete_eq. lia.
Qed.

(** Adding to the event at [i], as the merge loop does. *)
Lemma sum_events_update m i e e' :
  m !! i = Some e → sum_events f (<[i := e']> m) = sum_events f m - f e + f e'.
Proof.
  intros Hi. rewrite <- insert_delete_eq, sum_events_insert by apply lookup_delete_eq.
  rewrite (sum_events_delete m i e) by done. lia.
Qed.

Lemma sum_events_union m1 m2 :
  m1 ##ₘ m2 → sum_events f (m1 ∪ m2) = sum_events f m1 + sum_events f m2.
Proof.
  induction m1 as [|i e m1 Hi IH] using map_ind; intros Hd.
  - by rewrite map_empty_union, sum_events_empty.
  - apply map_disjoint_insert_l in Hd as [Hi2 Hd].
    rewrite <- insert_union_l, !sum_events_insert, IH by
      (rewrite ?lookup_union_None; done). lia.
Qed.

Lemma sum_events_nonneg m :
  map_Forall (λ _ e, 0 <= f e) m → 0 <= sum_events f m.
Proof.
  induction m as [|i e m Hi IH] using map_ind; intros Hm.
  - by rewrite sum_events_empty.
  - rewrite map_Forall_insert in Hm by done. destruct Hm.
    rewrite sum_events_insert by done. naive_solver lia.
Qed.
End sum_events.

#[export] Hint Resolve sum_events_empty : lsm.

(** ** The operations keep the aggregates consistent *)

Lemma window_ok_new lo hi : window_ok (new_bucket lo hi).
Proof. unfold window_ok. simpl. by rewrite !sum_events_empty. Qed.

Lemma window_ok_recalculate b : window_ok (RecalculateWindowStats b).
Proof. unfold window_ok. simpl. by rewrite !sum64_spec. Qed.

Lemma window_ok_add id fc ec db mk b :
  flush_events b !! id = None → window_ok b → window_ok (AddFlushEvent id fc ec db mk b).
Proof.
  intros Hid (Hf & He & Hd). unfold window_ok. simpl.
  rewrite Hf, He, Hd, !sum_events_insert by done. simpl.
  split_and!; u64_norm.
Qed.

Lemma window_ok_remove id b : window_ok b → window_ok (RemoveFlushEvent id b).
Proof.
  intros (Hf & He & Hd). unfold RemoveFlushEvent.
  destruct (flush_events b !! id) as [e|] eqn:Hid; [|done].
  unfold window_ok. simpl. rewrite Hf, He, Hd, !(sum_events_delete _ _ _ e) by done.
  split_and!; u64_norm.
Qed.

#[export] Hint Resolve window_ok_new window_ok_recalculate window_ok_add window_ok_remove : lsm.

(** Removing an event and recomputing the sums agree: the incremental update
    is an optimisation of the full recomputation. *)
Lemma remove_is_recalculate id b :
  window_ok b → RemoveFlushEvent id b = RecalculateWindowStats (RemoveFlushEvent id b).
Proof.
  intros (Hf & He & Hd)%(window_ok_remove id).
  destruct (RemoveFlushEvent id b) as [lo hi ev fc ec db]. simpl in *.
  unfold RecalculateWindowStats. simpl. rewrite !sum64_spec. by rewrite Hf, He, Hd.
Qed.

Lemma add_events id fc ec db mk b :
  flush_events (AddFlushEvent id fc ec db mk b)
  = <[id := mkFlushEvent id fc ec db mk]> (flush_events b).
Proof. done. Qed.

Lemma remove_events id b :
  flush_events (RemoveFlushEvent id b) = delete id (flush_events b).
Proof.
  unfold RemoveFlushEvent. destruct (flush_events b !! id) eqn:E; [done|].
  by rewrite delete_id.
Qed.

Lemma remove_range id b :
  min_key (RemoveFlushEvent id b) = min_key b ∧ max_key (RemoveFlushEvent id b) = max_key b.
Proof. unfold RemoveFlushEvent. by destruct (flush_events b !! id). Qed.
