(* ===== verification/BucketManager.v ===== *)
(** * BucketManager: the global key-range partition of a column family

    Models class [BucketManager] of [src/db/column_family.h] and
    [src/db/column_family.cc].  All public methods run under [mutex_], so each
    is one atomic step on the manager's state. *)

From S2P Require Import Prelude Bucket.

(** Whether plain [char] is signed is implementation-defined. *)
Class CharSign := char_is_signed : bool.

Definition char_val `{CharSign} (b : byte) : Z :=
  if char_is_signed then schar_val b else byte_val b.

Record BucketManager := mkManager {
  buckets_ : list Bucket;
  target_bucket_count_ : Z;
  initialized_ : bool;
  structure_epoch_ : Z;
  global_flush_counter_ : Z;
  (* [None] for a null [cfd_], else [cfd_->ioptions().enable_bucket_adjustment] *)
  cfd_enable_bucket_adjustment : option bool;
}.

Definition set_buckets (bs : list Bucket) (m : BucketManager) : BucketManager :=
  mkManager bs (target_bucket_count_ m) (initialized_ m) (structure_epoch_ m)
    (global_flush_counter_ m) (cfd_enable_bucket_adjustment m).

Definition set_initialized (i : bool) (m : BucketManager) : BucketManager :=
  mkManager (buckets_ m) (target_bucket_count_ m) i (structure_epoch_ m)
    (global_flush_counter_ m) (cfd_enable_bucket_adjustment m).

Definition set_flush_counter (c : Z) (m : BucketManager) : BucketManager :=
  mkManager (buckets_ m) (target_bucket_count_ m) (initialized_ m) (structure_epoch_ m)
    c (cfd_enable_bucket_adjustment m).

(** [structure_epoch_.fetch_add(1)] *)
Definition bump_epoch (m : BucketManager) : BucketManager :=
  mkManager (buckets_ m) (target_bucket_count_ m) (initialized_ m)
    (structure_epoch_ m +64 1) (global_flush_counter_ m) (cfd_enable_bucket_adjustment m).

Record BucketSnapshot := mkSnapshot {
  epoch : Z;
  ranges : list (key * key);
}.

(** ** Construction and initialisation *)

Definition NewBucketManager (target_count : Z) (cfd : option bool) : BucketManager :=
  mkManager [] target_count false 0 0 cfd.

(** One bucket per gap between consecutive split points, the first one open to
    the left and the last one open to the right. *)
Definition InitializeFromFirstFlush (split_points : list key) (m : BucketManager)
    : BucketManager :=
  if initialized_ m then m else
  let num_buckets := (length split_points + 1)%nat in
  let bs :=
    (λ i : nat,
       new_bucket
         (if (i =? 0)%nat then [] else default [] (split_points !! (i - 1)%nat))
         (if (i =? num_buckets - 1)%nat then [] else default [] (split_points !! i)))
    <$> seq 0 num_buckets in
  set_initialized true (set_buckets bs m).

(** ** Lookup *)

(** [key >= min_key], an empty [min_key] being -infinity. *)
Definition ge_min (lo k : key) : bool := bool_decide (lo = []) || key_leb lo k.
(** [key < max_key], an empty [max_key] being +infinity. *)
Definition lt_max (hi k : key) : bool := bool_decide (hi = []) || key_ltb k hi.

Fixpoint find_bucket_loop (i : Z) (bs : list Bucket) (k : key) : option Z :=
  match bs with
  | [] => None
  | b :: bs' =>
      if ge_min (min_key b) k && lt_max (max_key b) k then Some i
      else find_bucket_loop (i + 1) bs' k
  end.

Definition FindBucketInternal (m : BucketManager) (k : key) : Z :=
  match find_bucket_loop 0 (buckets_ m) k with
  | Some i => i
  | None => Z.of_nat (length (buckets_ m)) - 1
  end.

Definition FindBucket (m : BucketManager) (k : key) : Z := FindBucketInternal m k.

Definition GetSnapshot (m : BucketManager) : BucketSnapshot :=
  mkSnapshot (structure_epoch_ m) ((λ b, (min_key b, max_key b)) <$> buckets_ m).

Fixpoint find_range_loop (i : Z) (rs : list (key * key)) (k : key) : option Z :=
  match rs with
  | [] => None
  | (lo, hi) :: rs' =>
      if ge_min lo k && lt_max hi k then Some i else find_range_loop (i + 1) rs' k
  end.

Definition FindBucketInSnapshot (snap : BucketSnapshot) (k : key) : Z :=
  match find_range_loop 0 (ranges snap) k with
  | Some i => i
  | None => Z.of_nat (length (ranges snap)) - 1
  end.

(** Bucket [lo, hi) overlaps the range [min_k, max_k), neither lying entirely
    before the other. *)
Definition overlaps_range (min_k max_k lo hi : key) : bool :=
  let bucket_before_range :=
    negb (bool_decide (hi = [])) && negb (bool_decide (min_k = [])) && key_leb hi min_k in
  let range_before_bucket :=
    negb (bool_decide (max_k = [])) && negb (bool_decide (lo = [])) && key_leb max_k lo in
  negb bucket_before_range && negb range_before_bucket.

Fixpoint find_in_range_loop (i : nat) (bs : list Bucket) (min_k max_k : key) : list nat :=
  match bs with
  | [] => []
  | b :: bs' =>
      if overlaps_range min_k max_k (min_key b) (max_key b)
      then i :: find_in_range_loop (S i) bs' min_k max_k
      else find_in_range_loop (S i) bs' min_k max_k
  end.

Definition FindBucketsInRangeInternal (m : BucketManager) (min_k max_k : key) : list nat :=
  find_in_range_loop 0 (buckets_ m) min_k max_k.

Definition FindBucketsInRange (m : BucketManager) (min_k max_k : key) : list nat :=
  find_in_range_loop 0 (buckets_ m) min_k max_k.

(** The boundaries are the [min_key]s of all buckets but the first. *)
Definition GetAllBoundaries (m : BucketManager) : list key :=
  filter (λ k, k ≠ []) (min_key <$> tail (buckets_ m)).

Definition IsBucketBoundary (m : BucketManager) (k : key) : bool :=
  if bool_decide (k = []) then false
  else existsb (λ b, bool_decide (min_key b = k)) (tail (buckets_ m)).

(** ** Split points *)

(** The loop of [ComputeMidpointKey] over the common length of [a] and [b];
    [ra] and [rb] are what is left of them, [result] the bytes passed. *)
Fixpoint midpoint_loop (a b ra rb result : key) : option key :=
  match ra, rb with
  | x :: ra', y :: rb' =>
      if byte_val x <? byte_val y then
        let mid := (byte_val x + byte_val y) / 2 in
        let r := take (length result) a ++ [byte_of mid] in
        if key_ltb a r && key_ltb r b then Some r else Some (a ++ [x80])
      else midpoint_loop a b ra' rb' (result ++ [x])
  | _, _ => None
  end.

Definition ComputeMidpointKey `{CharSign} (a b : key) : key :=
  match a, b with
  | [], [] => [byte_of 77] (* 'M' *)
  | [], y :: _ => if 1 <? char_val y then [byte_of (char_val y - 1)] else [x01]
  | _, [] => a ++ [x80]
  | _, _ =>
      match midpoint_loop a b a b [] with
      | Some r => r
      | None =>
          if (length a <? length b)%nat then
            let r := a ++ [byte_of (byte_val (default x00 (b !! length a)) / 2)] in
            if key_ltb a r && key_ltb r b then r else a ++ [x80]
          else a ++ [x80]
      end
  end.

(** Median of the median keys of the events that produced files. *)
Definition ComputeSplitPoint (b : Bucket) : key :=
  let median_keys :=
    fe_median_key <$>
      filter (λ e, fe_median_key e ≠ [] ∧ (0 < fe_file_count e)%Z) (events_of (flush_events b)) in
  match median_keys with [] => [] | _ => middle_key median_keys end.

(** ** Splitting and merging *)

(** The split point [SplitBucket] settles on for bucket [b]. *)
Definition split_point_of `{CharSign} (b : Bucket) : key :=
  let mid := ComputeMidpointKey (min_key b) (max_key b) in
  let sp0 := ComputeSplitPoint b in
  let sp1 := if bool_decide (sp0 = []) then mid else sp0 in
  let sp2 := if negb (bool_decide (min_key b = [])) && key_leb sp1 (min_key b)
             then mid else sp1 in
  if negb (bool_decide (max_key b = [])) && key_leb (max_key b) sp2 then mid else sp2.

(** The two halves of [b]: events whose median key is at or past the split
    point move to the right half, and both windows are recomputed. *)
Definition split_halves (sp : key) (b : Bucket) : Bucket * Bucket :=
  let moved := filter (λ kv : Z * FlushEvent, key_leb sp (fe_median_key kv.2) = true)
                 (flush_events b) in
  let kept := filter (λ kv : Z * FlushEvent, key_leb sp (fe_median_key kv.2) ≠ true)
                (flush_events b) in
  (RecalculateWindowStats
     (mkBucket (min_key b) sp kept (window_file_count b) (window_entry_count b)
        (window_data_bytes b)),
   RecalculateWindowStats (mkBucket sp (max_key b) moved 0 0 0)).

Definition SplitBucket `{CharSign} (idx : Z) (m : BucketManager) : BucketManager :=
  if (idx <? 0) || (Z.of_nat (length (buckets_ m)) <=? idx) then m else
  match buckets_ m !! Z.to_nat idx with
  | None => m
  | Some b =>
      let '(lb, rb) := split_halves (split_point_of b) b in
      let bs := take (Z.to_nat idx) (buckets_ m) ++
                [lb; rb] ++ drop (S (Z.to_nat idx)) (buckets_ m) in
      bump_epoch (set_buckets bs m)
  end.

(** Merging the events of the right bucket into those of the left one, one
    right event at a time. *)
Definition merge_event (flush_id : Z) (r : FlushEvent) (acc : gmap Z FlushEvent)
    : gmap Z FlushEvent :=
  match acc !! flush_id with
  | Some l =>
      <[flush_id := mkFlushEvent (fe_flush_id l)
          (fe_file_count l +64 fe_file_count r)
          (fe_entry_count l +64 fe_entry_count r)
          (fe_data_bytes l +64 fe_data_bytes r)
          (fe_median_key l)]> acc
  | None => <[flush_id := r]> acc
  end.

Definition merge_buckets (left right : Bucket) : Bucket :=
  RecalculateWindowStats
    (mkBucket (min_key left) (max_key right)
       (map_fold merge_event (flush_events left) (flush_events right))
       (window_file_count left) (window_entry_count left) (window_data_bytes left)).

(** The neighbour [MergeWithAdjacentBucket] picks: the one with the smaller
    window, the right one on a tie; -1 when there is none. *)
Definition merge_target (idx : Z) (bs : list Bucket) : Z :=
  let n := Z.of_nat (length bs) in
  if (0 <? idx) && (idx <? n - 1) then
    match bs !! Z.to_nat (idx - 1), bs !! Z.to_nat (idx + 1) with
    | Some l, Some r => if window_data_bytes l <? window_data_bytes r then idx - 1 else idx + 1
    | _, _ => -1
    end
  else if 0 <? idx then idx - 1
  else if idx <? n - 1 then idx + 1
  else -1.

Definition MergeWithAdjacentBucket (idx : Z) (m : BucketManager) : BucketManager :=
  let bs := buckets_ m in
  let n := Z.of_nat (length bs) in
  if (idx <? 0) || (n <=? idx) then m
  else if n <=? 1 then m
  else
    let t := merge_target idx bs in
    if t <? 0 then m else
    let left := Z.to_nat (Z.min idx t) in
    let right := Z.to_nat (Z.max idx t) in
    match bs !! left, bs !! right with
    | Some l, Some r =>
        bump_epoch (set_buckets (delete right (<[left := merge_buckets l r]> bs)) m)
    | _, _ => m
    end.

(** ** Completion of a flush *)

Record AccumulatedStats := mkAcc {
  acc_file_count : Z;
  acc_entry_count : Z;
  acc_data_bytes : Z;
  acc_median_keys : list key;
}.

Definition intersection_min (rmin bmin : key) : key :=
  if negb (bool_decide (bmin = [])) && (bool_decide (rmin = []) || key_ltb rmin bmin)
  then bmin else rmin.

Definition intersection_max (rmax bmax : key) : key :=
  if negb (bool_decide (bmax = [])) && (bool_decide (rmax = []) || key_ltb bmax rmax)
  then bmax else rmax.

(** One share of a result, added to the statistics of bucket [idx]. *)
Definition distribute_to `{CharSign} (bs : list Bucket) (r : BucketFlushResult) (n : Z)
    (accs : list AccumulatedStats) (idx : nat) : list AccumulatedStats :=
  match bs !! idx with
  | None => accs
  | Some b =>
      let median := ComputeMidpointKey (intersection_min (bfr_min_key r) (min_key b))
                      (intersection_max (bfr_max_key r) (max_key b)) in
      alter (λ a, mkAcc (acc_file_count a +64 bfr_file_count r / n)
                        (acc_entry_count a +64 bfr_entry_count r / n)
                        (acc_data_bytes a +64 bfr_data_bytes r / n)
                        (acc_median_keys a ++ [median])) idx accs
  end.

Definition distribute_result `{CharSign} (m : BucketManager) (accs : list AccumulatedStats)
    (r : BucketFlushResult) : list AccumulatedStats :=
  let overlapping := FindBucketsInRangeInternal m (bfr_min_key r) (bfr_max_key r) in
  let n := Z.of_nat (length overlapping) in
  foldl (distribute_to (buckets_ m) r n) accs overlapping.

Definition add_accumulated (id : Z) (a : AccumulatedStats) (b : Bucket) : Bucket :=
  AddFlushEvent id (acc_file_count a) (acc_entry_count a) (acc_data_bytes a)
    (match acc_median_keys a with [] => [] | ks => middle_key ks end) b.

Definition add_result (id : Z) (r : BucketFlushResult) (b : Bucket) : Bucket :=
  AddFlushEvent id (bfr_file_count r) (bfr_entry_count r) (bfr_data_bytes r)
    (bfr_median_key r) b.

Definition OnFlushCompleted `{CharSign} (snapshot_epoch : Z) (results : list BucketFlushResult)
    (m : BucketManager) : BucketManager :=
  if negb (initialized_ m) then m else
  let current_flush_id := global_flush_counter_ m +64 1 in
  let bs :=
    if (snapshot_epoch =? structure_epoch_ m) && (length results =? length (buckets_ m))%nat
    then zip_with (add_result current_flush_id) results (buckets_ m)
    else
      let accs := foldl (distribute_result m)
                    (replicate (length (buckets_ m)) (mkAcc 0 0 0 [])) results in
      zip_with (add_accumulated current_flush_id) accs (buckets_ m) in
  let bs' :=
    if WINDOW_SIZE <? current_flush_id
    then RemoveFlushEvent (current_flush_id -64 WINDOW_SIZE) <$> bs else bs in
  set_flush_counter current_flush_id (set_buckets bs' m).

(** ** Adjustment after a compaction *)

Definition total_window_files (bs : list Bucket) : Z := sum64 (window_file_count <$> bs).
Definition total_window_bytes (bs : list Bucket) : Z := sum64 (window_data_bytes <$> bs).

Definition expected_ratio (bs : list Bucket) : double :=
  ddiv (dbl_of_Z 1) (dbl_of_Z (Z.of_nat (length bs))).

Definition AdjustAfterCompaction `{CharSign} (idx : Z) (m : BucketManager)
    : BucketManager * bool :=
  if match cfd_enable_bucket_adjustment m with Some e => negb e | None => false end
  then (m, false)
  else if (idx <? 0) || (Z.of_nat (length (buckets_ m)) <=? idx) then (m, false)
  else
    let tf := total_window_files (buckets_ m) in
    let tb := total_window_bytes (buckets_ m) in
    match buckets_ m !! Z.to_nat idx with
    | None => (m, false)
    | Some b =>
        if (tf =? 0) || (tb =? 0) then (m, false)
        else
          let actual_ratio := ddiv (dbl_of_Z (window_data_bytes b)) (dbl_of_Z tb) in
          if dgtb actual_ratio (dmul (dlit 3 2) (expected_ratio (buckets_ m)))
          then (SplitBucket idx m, true)
          else if dltb actual_ratio (dmul (dlit 1 2) (expected_ratio (buckets_ m)))
                  && (1 <? length (buckets_ m))%nat
          then (MergeWithAdjacentBucket idx m, true)
          else (m, false)
    end.

(** The loop of [AdjustBucketsInRange] over the affected indices, largest
    first; the totals stay those computed before the loop. *)
Fixpoint adjust_loop `{CharSign} (tf tb : Z) (affected : list nat) (er : double)
    (modified : bool) (m : BucketManager) : BucketManager * bool :=
  match affected with
  | [] => (m, modified)
  | idx :: rest =>
      match buckets_ m !! idx with
      | None => adjust_loop tf tb rest er modified m
      | Some b =>
          let file_ratio := ddiv (dbl_of_Z (window_file_count b)) (dbl_of_Z tf) in
          let bytes_ratio := ddiv (dbl_of_Z (window_data_bytes b)) (dbl_of_Z tb) in
          let actual := dadd (dmul (dlit 1 2) file_ratio) (dmul (dlit 1 2) bytes_ratio) in
          if dgtb actual (dmul (dlit 2 1) er) then
            let m' := SplitBucket (Z.of_nat idx) m in
            adjust_loop tf tb rest (expected_ratio (buckets_ m')) true m'
          else if dltb actual (dmul (dlit 1 4) er) && (1 <? length (buckets_ m))%nat then
            let m' := MergeWithAdjacentBucket (Z.of_nat idx) m in
            adjust_loop tf tb rest (expected_ratio (buckets_ m')) true m'
          else adjust_loop tf tb rest er modified m
      end
  end.

Definition AdjustBucketsInRange `{CharSign} (min_k max_k : key) (m : BucketManager)
    : BucketManager * bool :=
  match buckets_ m with
  | [] => (m, false)
  | _ =>
      let affected := find_in_range_loop 0 (buckets_ m) min_k max_k in
      match affected with
      | [] => (m, false)
      | _ =>
          let tf := total_window_files (buckets_ m) in
          let tb := total_window_bytes (buckets_ m) in
          if (tf =? 0) || (tb =? 0) then (m, false)
          else adjust_loop tf tb (reverse affected) (expected_ratio (buckets_ m)) false m
      end
  end.
