(* ===== verification/BucketPartition.v ===== *)
(** * The buckets partition the key space

    The abstract view of a [BucketManager] is its list of boundaries: bucket
    [i] is the interval between boundaries [i-1] and [i], the first interval
    being open to the left and the last one to the right.  This file proves
    that the manager's operations implement operations on that list, that a
    lookup counts boundaries, and that the partition survives splits and
    merges. *)

From S2P Require Import Prelude Bucket BucketManager.

Abbreviation key_lt a b := (¬ key_le b a).

(** ** The abstract view *)

(** The ranges cut out of [lo, +inf) by the boundaries [bs]. *)
Fixpoint ranges_from (lo : key) (bs : list key) : list (key * key) :=
  match bs with
  | [] => [(lo, [])]
  | b :: bs' => (lo, b) :: ranges_from b bs'
  end.

(** Boundaries strictly increase, starting above [lo].  The empty key, which
    the code uses for -infinity, is the least key. *)
Fixpoint increasing (lo : key) (bs : list key) : Prop :=
  match bs with
  | [] => True
  | b :: bs' => key_lt lo b ∧ increasing b bs'
  end.

Definition bucket_ranges (m : BucketManager) : list (key * key) :=
  (λ b, (min_key b, max_key b)) <$> buckets_ m.

(** [m] is partitioned at the boundaries [bs]. *)
Definition partitioned (m : BucketManager) (bs : list key) : Prop :=
  bucket_ranges m = ranges_from [] bs ∧ increasing [] bs.

(** A key lies in a range: [min_key <= k < max_key] with infinities. *)
Definition in_range (r : key * key) (k : key) : Prop :=
  key_le r.1 k ∧ (r.2 = [] ∨ key_lt k r.2).

#[export] Instance in_range_dec r k : Decision (in_range r k).
Proof. unfold in_range. apply _. Defined.

#[export] Instance increasing_dec lo bs : Decision (increasing lo bs).
Proof. revert lo. induction bs; intros lo; simpl; apply _. Defined.

#[export] Instance partitioned_dec m bs : Decision (partitioned m bs).
Proof. unfold partitioned. apply _. Defined.

(** The number of boundaries at or below [k]. *)
Definition rank (bs : list key) (k : key) : nat := length (filter (λ b, key_le b k) bs).

Lemma key_le_nil k : key_le [] k.
Proof. unfold cmp_le. by destruct k. Qed.

Lemma key_lt_nil k : key_lt [] k ↔ k ≠ [].
Proof. unfold cmp_le. destruct k; simpl; split; intros; try done; auto. Qed.

#[export] Hint Resolve key_le_nil : lsm.

Lemma increasing_nonempty lo bs : increasing lo bs → Forall (λ b, b ≠ []) bs.
Proof.
  revert lo. induction bs as [|b bs IH]; intros lo; simpl; [constructor|].
  intros [Hlo Hbs]. constructor; [|eauto]. intros ->. apply Hlo, key_le_nil.
Qed.

Lemma increasing_above lo bs : increasing lo bs → Forall (λ b, key_lt lo b) bs.
Proof.
  revert lo. induction bs as [|b bs IH]; intros lo; simpl; [constructor|].
  intros [Hlo Hbs]. constructor; [done|].
  eapply Forall_impl; [by apply IH|]. simpl. intros. key_order.
Qed.

(** ** Lookup counts boundaries *)

Lemma range_test lo hi k : ge_min lo k && lt_max hi k = true ↔ in_range (lo, hi) k.
Proof.
  unfold ge_min, lt_max, in_range. simpl. key_facts. rewrite !bool_decide_eq_true.
  split; intros [H1 H2]; split; auto.
  destruct H1 as [->|]; auto using key_le_nil.
Qed.

Lemma find_range_loop_rank i lo bs k :
  increasing lo bs → key_le lo k →
  find_range_loop i (ranges_from lo bs) k = Some (i + Z.of_nat (rank bs k)).
Proof.
  revert i lo. induction bs as [|b bs IH]; intros i lo Hinc Hlo; simpl.
  - rewrite (proj2 (range_test lo [] k)) by (split; simpl; auto).
    unfold rank. simpl. f_equal. lia.
  - destruct Hinc as [Hb Hbs]. unfold rank. rewrite filter_cons.
    destruct (decide (key_le b k)) as [Hbk|Hbk].
    + destruct (ge_min lo k && lt_max b k) eqn:E.
      { apply range_test in E. unfold in_range in E. simpl in E.
        destruct E as [_ [->|E]]; [|done]. destruct Hb. apply key_le_nil. }
      rewrite (IH (i + 1) b) by done. unfold rank. simpl. f_equal. lia.
    + rewrite (proj2 (range_test lo b k)) by (split; simpl; auto).
      rewrite filter_none; [simpl; f_equal; lia|].
      eapply Forall_impl; [by apply (increasing_above b)|]. simpl. intros. key_order.
Qed.

Lemma find_bucket_loop_ranges i bs k :
  find_bucket_loop i bs k = find_range_loop i ((λ b, (min_key b, max_key b)) <$> bs) k.
Proof. revert i. induction bs as [|b bs IH]; intros i; simpl; [done|]. by rewrite IH. Qed.

Lemma find_internal_snapshot m k :
  FindBucketInternal m k = FindBucketInSnapshot (GetSnapshot m) k.
Proof.
  unfold FindBucketInternal, FindBucketInSnapshot, GetSnapshot. simpl.
  by rewrite find_bucket_loop_ranges, length_fmap.
Qed.

Lemma find_bucket_rank m bs k :
  partitioned m bs → FindBucket m k = Z.of_nat (rank bs k).
Proof.
  intros [Hr Hi]. unfold FindBucket. rewrite find_internal_snapshot.
  unfold FindBucketInSnapshot, GetSnapshot. simpl. fold (bucket_ranges m). rewrite Hr.
  rewrite find_range_loop_rank; [lia | done | apply key_le_nil].
Qed.

Lemma length_ranges_from lo bs : length (ranges_from lo bs) = S (length bs).
Proof. revert lo. induction bs; intros; simpl; auto. Qed.

(** The range of rank [rank bs k] is the only one that contains [k]. *)
Lemma in_range_rank lo bs k i r :
  increasing lo bs → key_le lo k → ranges_from lo bs !! i = Some r →
  in_range r k ↔ i = rank bs k.
Proof.
  revert lo i. induction bs as [|b bs IH]; intros lo i Hinc Hlo Hr; simpl in *.
  - destruct i as [|i]; [|done]. injection Hr as <-.
    unfold in_range, rank. simpl. split; auto.
  - destruct Hinc as [Hb Hbs]. unfold rank. rewrite filter_cons.
    destruct (decide (key_le b k)) as [Hbk|Hbk].
    + destruct i as [|i]; simpl in *.
      * injection Hr as <-. unfold in_range. simpl. split; [|done].
        intros [_ [->|?]]; [|done]. destruct Hb. apply key_le_nil.
      * rewrite (IH b i) by done. unfold rank. split; lia.
    + assert (Hnil : filter (λ b0, key_le b0 k) bs = []).
      { apply filter_none. eapply Forall_impl; [by apply (increasing_above b)|].
        simpl. intros. key_order. }
      rewrite Hnil. simpl. destruct i as [|i]; simpl in *.
      * injection Hr as <-. unfold in_range. simpl. split; auto.
      * split; [|done]. intros [Hle _]. exfalso. apply Hbk.
        revert Hr. clear -Hle Hbs. revert b i Hbs. induction bs as [|c bs IH];
          intros b [|i] Hbs Hr; simpl in *; simplify_eq/=; auto.
        destruct Hbs as [Hbc Hbs]. pose proof (IH c i Hbs Hr). key_order.
Qed.

Lemma lookup_ranges_from lo bs i :
  (i <= length bs)%nat →
  ranges_from lo bs !! i =
  Some (if (i =? 0)%nat then lo else default [] (bs !! (i - 1)%nat), default [] (bs !! i)).
Proof.
  revert lo i. induction bs as [|b bs IH]; intros lo [|i] Hi; simpl in *; try done; [lia|].
  rewrite IH by lia. f_equal. f_equal. destruct i; simpl; [done|]. by rewrite Nat.sub_0_r.
Qed.

(** ** Initialisation *)

Lemma initialize_ranges sps m :
  initialized_ m = false →
  bucket_ranges (InitializeFromFirstFlush sps m) = ranges_from [] sps.
Proof.
  intros Hi. unfold InitializeFromFirstFlush, bucket_ranges. rewrite Hi. simpl.
  rewrite <- list_fmap_compose. apply list_eq. intros i.
  rewrite list_lookup_fmap.
  destruct (decide (i <= length sps)%nat) as [Hle|Hgt].
  - rewrite lookup_seq_lt, lookup_ranges_from by lia. simpl. f_equal. f_equal.
    destruct (Nat.eqb_spec i (length sps + 1 - 1)); [|done].
    by rewrite (lookup_ge_None_2 sps) by lia.
  - rewrite lookup_seq_ge by lia. simpl. symmetry. apply lookup_ge_None.
    rewrite length_ranges_from. lia.
Qed.

Lemma initialize_partitioned sps m :
  initialized_ m = false → increasing [] sps →
  partitioned (InitializeFromFirstFlush sps m) sps.
Proof. intros. split; [by apply initialize_ranges | done]. Qed.

(** The boundaries read back from a partitioned manager. *)
Lemma mins_ranges_from lo bs : (ranges_from lo bs).*1 = lo :: bs.
Proof. revert lo. induction bs as [|b bs IH]; intros; simpl; [done|]. by rewrite IH. Qed.

Lemma partitioned_mins m bs : partitioned m bs → min_key <$> tail (buckets_ m) = bs.
Proof.
  intros [Hr _]. assert (Hm : min_key <$> buckets_ m = [] :: bs).
  { rewrite <- (mins_ranges_from [] bs), <- Hr. unfold bucket_ranges.
    rewrite <- list_fmap_compose. done. }
  destruct (buckets_ m); simpl in *; [done|]. by injection Hm.
Qed.

Lemma partitioned_boundaries m bs : partitioned m bs → GetAllBoundaries m = bs.
Proof.
  intros H. unfold GetAllBoundaries. rewrite (partitioned_mins m bs H).
  apply filter_all, (increasing_nonempty []), H.
Qed.

Lemma partitioned_unique m bs bs' : partitioned m bs → partitioned m bs' → bs = bs'.
Proof. intros ?%partitioned_boundaries ?%partitioned_boundaries. congruence. Qed.

Lemma partitioned_length m bs : partitioned m bs → length (buckets_ m) = S (length bs).
Proof.
  intros [Hr _]. rewrite <- (length_ranges_from [] bs), <- Hr. unfold bucket_ranges.
  by rewrite length_fmap.
Qed.

(** ** Inserting and deleting a boundary *)

Lemma ranges_from_insert lo bs i l h sp :
  ranges_from lo bs !! i = Some (l, h) →
  take i (ranges_from lo bs) ++ [(l, sp); (sp, h)] ++ drop (S i) (ranges_from lo bs)
  = ranges_from lo (take i bs ++ sp :: drop i bs).
Proof.
  revert lo i. induction bs as [|b bs IH]; intros lo [|i] Hr; simpl in *; simplify_eq/=; try done.
  f_equal. by apply IH.
Qed.

Lemma increasing_insert lo bs i l h sp :
  increasing lo bs → ranges_from lo bs !! i = Some (l, h) →
  key_lt l sp → (h = [] ∨ key_lt sp h) →
  increasing lo (take i bs ++ sp :: drop i bs).
Proof.
  revert lo i. induction bs as [|b bs IH]; intros lo [|i] Hinc Hr Hl Hh; simpl in *;
    simplify_eq/=; try tauto; destruct Hinc as [Hb ?]; [|split; eauto].
  split_and!; auto.
  destruct Hh as [->|]; [|done]. destruct Hb. apply key_le_nil.
Qed.

Lemma ranges_from_delete lo bs i l h l' h' :
  ranges_from lo bs !! i = Some (l, h) → ranges_from lo bs !! S i = Some (l', h') →
  delete (S i) (<[i := (l, h')]> (ranges_from lo bs)) = ranges_from lo (delete i bs).
Proof.
  revert lo i. induction bs as [|b bs IH]; intros lo [|i] Hr Hr'; simpl in *; simplify_eq/=; try done.
  - destruct bs; simpl in *; by simplify_eq/=.
  - f_equal. by apply IH.
Qed.

Lemma increasing_delete lo bs i : increasing lo bs → increasing lo (delete i bs).
Proof.
  revert lo i. induction bs as [|b bs IH]; intros lo [|i] Hinc; simpl in *; try done.
  - destruct Hinc as [Hb Hbs]. destruct bs as [|c bs]; simpl in *; [done|].
    destruct Hbs. split; [key_order | done].
  - destruct Hinc. auto.
Qed.

(** ** Midpoints

    [ComputeMidpointKey lo hi] is a key strictly inside the range, except when
    the range is too small at its upper end: [hi] is the immediate successor of
    [lo], or [lo] is -infinity and [hi] starts with a byte the code cannot
    decrement. *)

Definition splittable (lo hi : key) : Prop :=
  match lo, hi with
  | _, [] => True
  | [], y :: t => 2 <= byte_val y ∨ (byte_val y = 1 ∧ t ≠ [])
  | _, _ => hi ≠ lo ++ [x00]
  end.

Lemma midpoint_loop_between a b ra rb p :
  a = p ++ ra → b = p ++ rb → slice_compare a b = Lt →
  match midpoint_loop a b ra rb p with
  | Some r => slice_compare a r = Lt ∧ slice_compare r b = Lt
  | None => ∃ y t, b = a ++ y :: t
  end.
Proof.
  revert rb p. induction ra as [|x ra IH]; intros rb p Ha Hb Hab.
  - simpl. destruct rb as [|y rb].
    + subst. by rewrite slice_compare_refl in Hab.
    + exists y, rb. by rewrite Ha, app_nil_r.
  - destruct rb as [|y rb]; simpl.
    { subst a b. rewrite slice_compare_app in Hab. done. }
    destruct (Z.ltb_spec (byte_val x) (byte_val y)) as [Hxy|Hxy].
    + destruct (key_ltb a _ && key_ltb _ b) eqn:E.
      * by rewrite andb_true_iff, !key_ltb_compare in E.
      * subst a b. split; [apply slice_compare_prefix|].
        rewrite <- app_assoc, <- app_comm_cons. by apply slice_compare_diverge.
    + assert (x = y) as <-.
      { apply byte_val_inj. subst a b. rewrite slice_compare_app in Hab. simpl in Hab.
        destruct (Z.compare_spec (byte_val x) (byte_val y)); [done|lia|done]. }
      apply IH; [by rewrite <- app_assoc | by rewrite <- app_assoc | done].
Qed.

Lemma half_between a y t :
  (y :: t ≠ [x00]) →
  slice_compare (a ++ [byte_of (byte_val y / 2)]) (a ++ y :: t) = Lt.
Proof.
  intros Hne. pose proof (byte_val_range y).
  assert (Hv : byte_val (byte_of (byte_val y / 2)) = byte_val y / 2).
  { rewrite byte_val_of. apply Z.mod_small. Z.div_mod_to_equations. lia. }
  destruct (decide (byte_val y = 0)) as [Hy|Hy].
  - rewrite slice_compare_app. simpl. rewrite Hv, Hy. simpl.
    destruct t; [|done]. destruct Hne. f_equal. by apply byte_val_inj.
  - apply slice_compare_diverge. rewrite Hv. Z.div_mod_to_equations. lia.
Qed.

Lemma midpoint_between `{CharSign} lo hi :
  splittable lo hi → (hi = [] ∨ key_lt lo hi) →
  key_lt lo (ComputeMidpointKey lo hi) ∧
  (hi = [] ∨ key_lt (ComputeMidpointKey lo hi) hi).
Proof.
  setoid_rewrite <- (cmp_lt_iff slice_compare).
  intros Hs Hlt. destruct lo as [|x lo], hi as [|y hi].
  - simpl. auto.
  - split; [simpl; by destruct (1 <? char_val y)|]. right. simpl in Hs.
    pose proof (byte_val_range y). unfold ComputeMidpointKey.
    destruct (Z.ltb_spec 1 (char_val y)) as [H1|H1].
    + assert (Hc : char_val y = byte_val y).
      { revert H1. unfold char_val, schar_val. destruct char_is_signed; [|done].
        destruct (byte_val y <? 128); lia. }
      apply (slice_compare_diverge []). rewrite byte_val_of, Hc, Z.mod_small; lia.
    + destruct Hs as [Hy|[Hy Ht]].
      * apply (slice_compare_diverge []). change (byte_val x01) with 1. lia.
      * simpl. change (byte_val x01) with 1. rewrite Hy. simpl. by destruct hi.
  - split; [|auto]. apply (slice_compare_prefix (x :: lo)).
  - destruct Hlt as [|Hlt]; [done|]. simpl in Hs.
    pose proof (midpoint_loop_between (x :: lo) (y :: hi) (x :: lo) (y :: hi) []
                  eq_refl eq_refl Hlt) as Hm.
    unfold ComputeMidpointKey.
    destruct (midpoint_loop _ _ _ _ _) as [r|]; [tauto|].
    destruct Hm as (z & t & Hm). rewrite Hm.
    rewrite length_app. simpl (length (z :: t)).
    destruct (Nat.ltb_spec (length (x :: lo)) (length (x :: lo) + S (length t))); [|lia].
    rewrite lookup_app_r, Nat.sub_diag by done. simpl (default _ _).
    assert (Hne : z :: t ≠ [x00]) by (intros E; rewrite E in Hm; done).
    rewrite (proj2 (key_ltb_compare (x :: lo) _) (slice_compare_prefix _ _ _)).
    rewrite (proj2 (key_ltb_compare _ _) (half_between _ _ _ Hne)). simpl andb. cbv iota.
    split; [apply slice_compare_prefix|]. right. by apply half_between.
Qed.

(** ** Splitting inserts a boundary, merging removes one *)

Definition inside (b : Bucket) (k : key) : Prop :=
  key_lt (min_key b) k ∧ (max_key b = [] ∨ key_lt k (max_key b)).

(** A bucket can be split when its range admits a midpoint, or when the median
    of its flush medians already falls inside. *)
Definition can_split (b : Bucket) : Prop :=
  splittable (min_key b) (max_key b) ∨ inside b (ComputeSplitPoint b).

Lemma split_point_inside `{CharSign} b :
  (max_key b = [] ∨ key_lt (min_key b) (max_key b)) → can_split b →
  inside b (split_point_of b).
Proof.
  intros Hb Hc. unfold split_point_of.
  set (mid := ComputeMidpointKey (min_key b) (max_key b)).
  assert (Hpos : ∀ k, key_lt (min_key b) k → k ≠ []).
  { intros k Hk ->. apply Hk, key_le_nil. }
  destruct Hc as [Hs|[Hlo Hhi]].
  - destruct (midpoint_between (min_key b) (max_key b) Hs Hb) as [Hlo Hhi].
    fold mid in Hlo, Hhi.
    set (sp1 := if bool_decide (ComputeSplitPoint b = []) then mid else ComputeSplitPoint b).
    assert (Hsp1 : sp1 ≠ []) by (unfold sp1; case_bool_decide; auto).
    set (sp2 := if negb _ && key_leb sp1 _ then mid else sp1).
    assert (Hsp2 : key_lt (min_key b) sp2).
    { unfold sp2. case_bool_decide as E; simpl; [by rewrite E, key_lt_nil|].
      destruct (key_leb sp1 (min_key b)) eqn:El; [done | by key_facts]. }
    case_bool_decide as E; simpl; [by split; auto|].
    destruct (key_leb (max_key b) sp2) eqn:El; key_facts; split; auto.
  - rewrite (bool_decide_false (ComputeSplitPoint b = [])) by auto.
    rewrite (proj2 (key_leb_false (ComputeSplitPoint b) (min_key b)) Hlo), andb_false_r.
    destruct Hhi as [Hhi|Hhi].
    + rewrite Hhi. simpl. split; auto.
    + rewrite (proj2 (key_leb_false _ _) Hhi), andb_false_r. split; auto.
Qed.

Lemma split_buckets_ranges `{CharSign} m idx b :
  buckets_ m !! idx = Some b →
  bucket_ranges (SplitBucket (Z.of_nat idx) m) =
  take idx (bucket_ranges m) ++
    [(min_key b, split_point_of b); (split_point_of b, max_key b)] ++
    drop (S idx) (bucket_ranges m).
Proof.
  intros Hb. pose proof (lookup_lt_Some _ _ _ Hb).
  unfold SplitBucket.
  rewrite (proj2 (Z.ltb_ge _ 0)), (proj2 (Z.leb_gt _ _)), Nat2Z.id, Hb by lia. simpl.
  unfold bucket_ranges. simpl.
  rewrite fmap_app. simpl. by rewrite fmap_take, fmap_drop.
Qed.

Lemma ranges_nonempty lo bs i l h :
  increasing lo bs → ranges_from lo bs !! i = Some (l, h) → h = [] ∨ key_lt l h.
Proof.
  revert lo i. induction bs as [|c bs IH]; intros lo [|i] Hi Hl; simpl in *; simplify_eq/=; auto.
  - tauto.
  - eapply IH; [apply Hi|done].
Qed.

Lemma bucket_nonempty m bs idx b :
  bucket_ranges m = ranges_from [] bs → increasing [] bs → buckets_ m !! idx = Some b →
  max_key b = [] ∨ key_lt (min_key b) (max_key b).
Proof.
  intros Hr Hi Hb. apply (ranges_nonempty [] bs idx); [done|].
  rewrite <- Hr. unfold bucket_ranges. by rewrite list_lookup_fmap, Hb.
Qed.

Lemma split_partitioned `{CharSign} m bs idx b :
  partitioned m bs → buckets_ m !! idx = Some b → can_split b →
  partitioned (SplitBucket (Z.of_nat idx) m)
    (take idx bs ++ split_point_of b :: drop idx bs).
Proof.
  intros [Hr Hi] Hb Hc.
  assert (Hl : ranges_from [] bs !! idx = Some (min_key b, max_key b)).
  { rewrite <- Hr. unfold bucket_ranges. by rewrite list_lookup_fmap, Hb. }
  pose proof (bucket_nonempty m bs idx b Hr Hi Hb) as Hlt.
  destruct (split_point_inside b Hlt Hc) as [Hlo Hhi].
  split.
  - rewrite (split_buckets_ranges m idx b Hb), Hr. by apply ranges_from_insert.
  - by eapply increasing_insert.
Qed.

(** The chosen neighbour is adjacent and in range. *)
Lemma merge_target_adjacent idx bs :
  0 <= idx < Z.of_nat (length bs) → (1 < length bs)%nat →
  (merge_target idx bs = idx - 1 ∧ 0 < idx) ∨
  (merge_target idx bs = idx + 1 ∧ idx + 1 < Z.of_nat (length bs)).
Proof.
  intros Hidx Hlen. unfold merge_target.
  destruct (Z.ltb_spec 0 idx), (Z.ltb_spec idx (Z.of_nat (length bs) - 1)); simpl; try lia.
  destruct (lookup_lt_is_Some_2 bs (Z.to_nat (idx - 1))) as [l Hl]; [lia|].
  destruct (lookup_lt_is_Some_2 bs (Z.to_nat (idx + 1))) as [r Hr]; [lia|].
  rewrite Hl, Hr. destruct (_ <? _); lia.
Qed.

(** [MergeWithAdjacentBucket] joins two neighbours: there is a position [i]
    such that buckets [i] and [i+1] are replaced by their merge. *)
Lemma merge_spec m idx :
  0 <= idx < Z.of_nat (length (buckets_ m)) → (1 < length (buckets_ m))%nat →
  ∃ i l r,
    buckets_ m !! i = Some l ∧ buckets_ m !! S i = Some r ∧
    Z.of_nat i = Z.min idx (merge_target idx (buckets_ m)) ∧
    MergeWithAdjacentBucket idx m =
      bump_epoch (set_buckets (delete (S i) (<[i := merge_buckets l r]> (buckets_ m))) m).
Proof.
  intros Hidx Hlen. pose proof (merge_target_adjacent idx (buckets_ m) Hidx Hlen) as Ht.
  set (t := merge_target idx (buckets_ m)) in *.
  set (i := Z.to_nat (Z.min idx t)).
  assert (Hi : Z.to_nat (Z.max idx t) = S i) by lia.
  destruct (lookup_lt_is_Some_2 (buckets_ m) i) as [l Hl]; [lia|].
  destruct (lookup_lt_is_Some_2 (buckets_ m) (S i)) as [r Hr]; [lia|].
  exists i, l, r. split_and!; try done; [lia|].
  unfold MergeWithAdjacentBucket. fold t.
  rewrite (proj2 (Z.ltb_ge idx 0)), (proj2 (Z.leb_gt _ idx)), (proj2 (Z.leb_gt _ 1)),
    (proj2 (Z.ltb_ge t 0)) by lia. simpl. rewrite Hi. fold i. by rewrite Hl, Hr.
Qed.

Lemma merge_partitioned m bs idx :
  partitioned m bs → 0 <= idx <= Z.of_nat (length bs) → bs ≠ [] →
  ∃ i, (i < length bs)%nat ∧ Z.of_nat i = Z.min idx (merge_target idx (buckets_ m)) ∧
    partitioned (MergeWithAdjacentBucket idx m) (delete i bs).
Proof.
  intros Hp Hidx Hbs. pose proof (partitioned_length m bs Hp) as Hlen.
  destruct bs as [|c bs]; [done|]. simpl in Hlen, Hidx.
  destruct (merge_spec m idx) as (i & l & r & Hl & Hr & Hi & ->); [lia..|].
  destruct Hp as [Hrs Hinc]. exists i. split_and!.
  - apply lookup_lt_Some in Hr. simpl. lia.
  - done.
  - split; [|by apply increasing_delete].
    unfold bucket_ranges. cbn [buckets_ bump_epoch set_buckets].
    rewrite list_fmap_delete, list_fmap_insert. fold (bucket_ranges m). rewrite Hrs.
    apply (ranges_from_delete _ _ _ (min_key l) (max_key l) (min_key r) (max_key r));
      rewrite <- Hrs; unfold bucket_ranges; rewrite list_lookup_fmap, ?Hl, ?Hr; done.
Qed.

(** ** Runs keep the partition

    The steps that change boundaries, with what they need: the sample keys of
    the first flush increase, and a bucket that is split admits a split point. *)

Inductive boundary_step `{CharSign} (m : BucketManager) : BucketManager → Prop :=
  | boundary_initialize sps :
      initialized_ m = false → increasing [] sps →
      boundary_step m (InitializeFromFirstFlush sps m)
  | boundary_split idx b :
      buckets_ m !! idx = Some b → can_split b →
      boundary_step m (SplitBucket (Z.of_nat idx) m)
  | boundary_merge idx : boundary_step m (MergeWithAdjacentBucket idx m).

Lemma merge_initialized idx m :
  initialized_ (MergeWithAdjacentBucket idx m) = initialized_ m.
Proof. unfold MergeWithAdjacentBucket. repeat case_match; done. Qed.

Lemma split_initialized `{CharSign} idx m : initialized_ (SplitBucket idx m) = initialized_ m.
Proof. unfold SplitBucket. repeat case_match; done. Qed.

(** Merging outside the range, or a single bucket, changes nothing. *)
Lemma merge_noop m idx :
  ¬ (0 <= idx < Z.of_nat (length (buckets_ m)) ∧ (1 < length (buckets_ m))%nat) →
  MergeWithAdjacentBucket idx m = m.
Proof.
  intros Hno. unfold MergeWithAdjacentBucket.
  destruct (Z.ltb_spec idx 0); simpl; [done|].
  destruct (Z.leb_spec (Z.of_nat (length (buckets_ m))) idx); simpl; [done|].
  destruct (Z.leb_spec (Z.of_nat (length (buckets_ m))) 1); [done|].
  destruct Hno. lia.
Qed.

Definition partition_inv (m : BucketManager) : Prop :=
  if initialized_ m then ∃ bs, partitioned m bs else buckets_ m = [].

Lemma partition_inv_step `{CharSign} m m' :
  boundary_step m m' → partition_inv m → partition_inv m'.
Proof.
  unfold partition_inv. intros [sps Hi Hinc|idx b Hb Hc|idx] Hinv.
  - assert (initialized_ (InitializeFromFirstFlush sps m) = true) as ->
      by (unfold InitializeFromFirstFlush; by rewrite Hi).
    exists sps. by apply initialize_partitioned.
  - rewrite split_initialized. destruct (initialized_ m); [|by rewrite Hinv in Hb].
    destruct Hinv as [bs Hp]. eexists. by apply (split_partitioned m bs idx b).
  - rewrite merge_initialized.
    destruct (decide (0 <= idx < Z.of_nat (length (buckets_ m)) ∧ (1 < length (buckets_ m))%nat))
      as [[H1 H2]|Hno]; [|by rewrite merge_noop].
    destruct (initialized_ m); [|rewrite Hinv in H2; simpl in H2; lia].
    destruct Hinv as [bs Hp]. pose proof (partitioned_length m bs Hp).
    destruct (merge_partitioned m bs idx Hp) as (i & _ & _ & Hp'); [lia|by destruct bs; simpl in *; [lia|]|].
    by eexists.
Qed.

(** ** The rank of a key after an insertion or a deletion *)

Lemma rank_insert bs i sp k :
  rank (take i bs ++ sp :: drop i bs) k
  = (rank bs k + if decide (key_le sp k) then 1 else 0)%nat.
Proof.
  assert (Hr : rank bs k = (rank (take i bs) k + rank (drop i bs) k)%nat).
  { unfold rank. by rewrite <- length_app, <- filter_app, take_drop. }
  rewrite Hr. unfold rank. rewrite filter_app, filter_cons, length_app.
  destruct (decide (key_le sp k)); simpl; lia.
Qed.

Lemma rank_delete bs i bd k :
  bs !! i = Some bd →
  rank bs k = (rank (delete i bs) k + if decide (key_le bd k) then 1 else 0)%nat.
Proof.
  intros Hb. unfold rank. rewrite <- (take_drop_middle bs i bd Hb) at 1.
  rewrite delete_take_drop, !filter_app, filter_cons, !length_app.
  destruct (decide (key_le bd k)); simpl; lia.
Qed.

(** ** Theorems *)

(** C1. Every key belongs to exactly one bucket of a partitioned manager, and
    [FindBucket] and [FindBucketInSnapshot] return its index, the number of
    boundaries at or below the key. *)
Theorem find_bucket_unique m bs k :
  partitioned m bs →
  ∃ i b, FindBucket m k = Z.of_nat i ∧ i = rank bs k ∧
    FindBucketInSnapshot (GetSnapshot m) k = Z.of_nat i ∧
    buckets_ m !! i = Some b ∧ in_range (min_key b, max_key b) k ∧
    ∀ j b', buckets_ m !! j = Some b' → in_range (min_key b', max_key b') k → j = i.
Proof.
  intros Hp. pose proof (find_bucket_rank m bs k Hp) as Hf.
  assert (Hi : (rank bs k < length (buckets_ m))%nat).
  { rewrite (partitioned_length m bs Hp). unfold rank.
    pose proof (length_filter (λ b, key_le b k) bs). lia. }
  destruct (lookup_lt_is_Some_2 _ _ Hi) as [b Hb]. exists (rank bs k), b.
  assert (Hin : ∀ j b', buckets_ m !! j = Some b' →
    in_range (min_key b', max_key b') k ↔ j = rank bs k).
  { intros j b' Hj. destruct Hp as [Hr Hinc].
    apply (in_range_rank [] bs k j); [done|apply key_le_nil|].
    rewrite <- Hr. unfold bucket_ranges. by rewrite list_lookup_fmap, Hj. }
  split_and!; auto.
  - rewrite <- find_internal_snapshot. done.
  - by apply (Hin _ b Hb).
  - intros j b' Hj. by apply Hin.
Qed.

(** The first flush partitions the key space at the sampled keys: one
    bucket more than sample keys, the boundaries reported by
    [GetAllBoundaries] are the sample keys, and [IsBucketBoundary] recognises
    exactly these. *)
Theorem initialize_boundaries m sps :
  initialized_ m = false → increasing [] sps →
  let m' := InitializeFromFirstFlush sps m in
  initialized_ m' = true ∧ partitioned m' sps ∧ length (buckets_ m') = S (length sps) ∧
  GetAllBoundaries m' = sps ∧ (∀ k, IsBucketBoundary m' k = true ↔ k ∈ sps) ∧
  InitializeFromFirstFlush sps m' = m'.
Proof.
  intros Hi Hinc m'. pose proof (initialize_partitioned sps m Hi Hinc) as Hp. fold m' in Hp.
  assert (Hi' : initialized_ m' = true).
  { unfold m', InitializeFromFirstFlush. by rewrite Hi. }
  split_and!; [done | done | by apply partitioned_length | by apply partitioned_boundaries | |].
  - intros k. unfold IsBucketBoundary. case_bool_decide as Hk.
    + split; [done|]. intros Hin. apply increasing_nonempty in Hinc.
      by rewrite Forall_forall in Hinc; apply Hinc in Hin.
    + rewrite <- (partitioned_mins m' sps Hp).
      rewrite existsb_exists, list_elem_of_fmap. split.
      * intros (b & Hin & E%bool_decide_eq_true). exists b. by rewrite list_elem_of_In.
      * intros (b & -> & Hin%list_elem_of_In). exists b. by rewrite bool_decide_eq_true.
  - unfold InitializeFromFirstFlush at 1. by rewrite Hi'.
Qed.

(** [ComputeMidpointKey] returns a key strictly inside its range, for
    either signedness of [char], unless the range is one of the degenerate
    ones that [splittable] excludes. *)
Theorem midpoint_strictly_between `{CharSign} lo hi :
  splittable lo hi → (hi = [] ∨ key_lt lo hi) →
  key_lt lo (ComputeMidpointKey lo hi) ∧ (hi = [] ∨ key_lt (ComputeMidpointKey lo hi) hi).
Proof. apply midpoint_between. Qed.





(** ** Witnesses

    A manager with boundaries "g" and "t", for a platform with signed [char]. *)

Definition sample_boundaries : list key := [[byte_of 103]; [byte_of 116]].

Definition sample_manager : BucketManager :=
  InitializeFromFirstFlush sample_boundaries (NewBucketManager 3 (Some true)).

Lemma find_bucket_unique_witness :
  ∃ i b, FindBucket sample_manager [byte_of 109] = Z.of_nat i ∧
    buckets_ sample_manager !! i = Some b ∧ i = 1%nat.
Proof.
  destruct (find_bucket_unique sample_manager sample_boundaries [byte_of 109])
    as (i & b & Hi & -> & _ & Hb & _).
  - apply (bool_decide_unpack _). vm_compute. exact I.
  - exists (rank sample_boundaries [byte_of 109]), b. split_and!; [exact Hi | exact Hb | reflexivity].
Defined.

Lemma initialize_boundaries_witness : GetAllBoundaries sample_manager = sample_boundaries.
Proof.
  refine (proj1 (proj2 (proj2 (proj2 (initialize_boundaries (NewBucketManager 3 (Some true))
    sample_boundaries eq_refl _))))).
  apply (bool_decide_unpack _). vm_compute. exact I.
Defined.

Lemma midpoint_strictly_between_witness :
  let _ : CharSign := true in
  key_lt [byte_of 103] (ComputeMidpointKey [byte_of 103] [byte_of 116]).
Proof.
  intros Hc. refine (proj1 (midpoint_strictly_between [byte_of 103] [byte_of 116] _ _)).
  - discriminate.
  - right. apply (bool_decide_unpack _). vm_compute. exact I.
Defined.




