(* ===== verification/BucketStats.v ===== *)
(** * Window statistics, epochs and runs of the bucket manager

    Invariants of the statistics a [BucketManager] keeps, over every sequence
    of its operations; conservation of the window totals by splits and merges;
    and the optimistic protocol of flushes: a snapshot whose epoch still
    matches describes the current buckets. *)

From S2P Require Import Prelude Bucket BucketManager BucketPartition.

(** ** Conservation of the window totals *)

Section conservation.
Context (f : FlushEvent → Z).

Lemma sum_split_events (P : Z * FlushEvent → Prop) `{!∀ x, Decision (P x)}
    (m : gmap Z FlushEvent) :
  sum_events f (filter P m) + sum_events f (filter (λ x, ¬ P x) m) = sum_events f m.
Proof.
  rewrite <- sum_events_union by apply map_disjoint_filter_complement.
  by rewrite map_filter_union_complement.
Qed.

Lemma merge_event_sum i e acc :
  f = fe_file_count ∨ f = fe_entry_count ∨ f = fe_data_bytes →
  u64 (sum_events f (merge_event i e acc)) = u64 (f e + sum_events f acc).
Proof.
  intros Hf. unfold merge_event. destruct (acc !! i) as [l|] eqn:E.
  - rewrite (sum_events_update f _ _ l) by done.
    destruct Hf as [->|[->| ->]]; simpl; rewrite u64_add_r; f_equal; lia.
  - by rewrite sum_events_insert.
Qed.

Lemma merge_events_sum (l r : gmap Z FlushEvent) :
  f = fe_file_count ∨ f = fe_entry_count ∨ f = fe_data_bytes →
  u64 (sum_events f (map_fold merge_event l r)) = u64 (sum_events f l + sum_events f r).
Proof.
  intros Hf. apply (map_fold_weak_ind (λ acc m,
    u64 (sum_events f acc) = u64 (sum_events f l + sum_events f m))).
  - rewrite sum_events_empty. f_equal. lia.
  - intros i e m acc Hi IH. rewrite merge_event_sum by done.
    rewrite sum_events_insert by done.
    rewrite <- u64_add_r, IH, u64_add_r. f_equal. lia.
Qed.
End conservation.

(** The three window totals of a list of buckets. *)
Definition total_window_entries (bs : list Bucket) : Z := sum64 (window_entry_count <$> bs).

Definition window_totals (bs : list Bucket) : Z * Z * Z :=
  (total_window_files bs, total_window_entries bs, total_window_bytes bs).

Lemma sum64_middle (l1 l2 xs ys : list Z) :
  u64 (foldr Z.add 0 xs) = u64 (foldr Z.add 0 ys) →
  sum64 (l1 ++ xs ++ l2) = sum64 (l1 ++ ys ++ l2).
Proof.
  intros H. rewrite !sum64_spec, !sum_app.
  rewrite <- u64_add_r, <- (u64_add_l (foldr Z.add 0 xs)), H, u64_add_l, u64_add_r.
  done.
Qed.

(** Replacing a run of buckets by another with the same sums keeps the totals. *)
Lemma window_totals_middle l1 l2 xs ys :
  (∀ g, g = window_file_count ∨ g = window_entry_count ∨ g = window_data_bytes →
     u64 (foldr Z.add 0 (g <$> xs)) = u64 (foldr Z.add 0 (g <$> ys))) →
  window_totals (l1 ++ xs ++ l2) = window_totals (l1 ++ ys ++ l2).
Proof.
  intros H. unfold window_totals, total_window_files, total_window_entries, total_window_bytes.
  rewrite !fmap_app. f_equal; [f_equal|]; apply sum64_middle, H; auto.
Qed.

Lemma split_halves_sums sp b g :
  window_ok b → g = window_file_count ∨ g = window_entry_count ∨ g = window_data_bytes →
  u64 (foldr Z.add 0 (g <$> [(split_halves sp b).1; (split_halves sp b).2])) = g b.
Proof.
  intros (Hf & He & Hd) Hg.
  set (P := λ kv : Z * FlushEvent, key_leb sp (fe_median_key kv.2) = true).
  pose proof (λ f, sum_split_events f P (flush_events b)) as Hs. subst P.
  destruct Hg as [->|[->| ->]]; simpl; rewrite !sum64_spec, ?Hf, ?He, ?Hd;
    fold (sum_events fe_file_count) (sum_events fe_entry_count) (sum_events fe_data_bytes);
    rewrite Z.add_0_r, u64_add_l, u64_add_r; f_equal;
    [rewrite <- (Hs fe_file_count)|rewrite <- (Hs fe_entry_count)|rewrite <- (Hs fe_data_bytes)];
    apply Z.add_comm.
Qed.

Lemma merge_buckets_sums l r g :
  window_ok l → window_ok r →
  g = window_file_count ∨ g = window_entry_count ∨ g = window_data_bytes →
  u64 (foldr Z.add 0 (g <$> [merge_buckets l r])) = u64 (foldr Z.add 0 (g <$> [l; r])).
Proof.
  intros (Hf & He & Hd) (Hf' & He' & Hd') Hg.
  destruct Hg as [->|[->| ->]]; simpl; rewrite sum64_spec, ?Hf, ?He, ?Hd, ?Hf', ?He', ?Hd';
    fold (sum_events fe_file_count) (sum_events fe_entry_count) (sum_events fe_data_bytes);
    rewrite !Z.add_0_r, u64_add_l, u64_add_r, u64_u64; apply merge_events_sum; auto.
Qed.

(** ** What an operation does to the list of buckets

    Every operation of the manager either leaves the buckets alone, splits one,
    joins two neighbours, records a flush in each of them, or initialises them.
    The shapes below are shared by all invariants. *)

Lemma split_shape `{CharSign} idx m :
  SplitBucket idx m = m ∨
  ∃ l1 b l2, buckets_ m = l1 ++ b :: l2 ∧ Z.of_nat (length l1) = idx ∧
    SplitBucket idx m =
      bump_epoch (set_buckets (l1 ++ [(split_halves (split_point_of b) b).1;
                                      (split_halves (split_point_of b) b).2] ++ l2) m).
Proof.
  unfold SplitBucket. destruct (Z.ltb_spec idx 0); simpl; [by left|].
  destruct (Z.leb_spec (Z.of_nat (length (buckets_ m))) idx); simpl; [by left|].
  destruct (buckets_ m !! Z.to_nat idx) as [b|] eqn:Hb; [right|by left].
  exists (take (Z.to_nat idx) (buckets_ m)), b, (drop (S (Z.to_nat idx)) (buckets_ m)).
  split_and!; [by rewrite take_drop_middle | rewrite length_take; lia | done].
Qed.

Lemma merge_shape idx m :
  MergeWithAdjacentBucket idx m = m ∨
  ∃ l1 l r l2, buckets_ m = l1 ++ l :: r :: l2 ∧
    MergeWithAdjacentBucket idx m =
      bump_epoch (set_buckets (l1 ++ [merge_buckets l r] ++ l2) m).
Proof.
  destruct (decide (0 <= idx < Z.of_nat (length (buckets_ m)) ∧ (1 < length (buckets_ m))%nat))
    as [[Hidx Hlen]|Hno].
  - right. destruct (merge_spec m idx Hidx Hlen) as (i & l & r & Hl & Hr & _ & ->).
    exists (take i (buckets_ m)), l, r, (drop (S (S i)) (buckets_ m)). split.
    + rewrite <- (take_drop_middle (buckets_ m) i l Hl) at 1. do 2 f_equal.
      by rewrite (drop_S _ r (S i)).
    + f_equal. f_equal. pose proof (lookup_lt_Some _ _ _ Hr).
      rewrite insert_take_drop, delete_take_drop by lia.
      rewrite take_app_ge, drop_app_ge by (rewrite length_take; lia).
      rewrite length_take, Nat.min_l by lia.
      replace (S i - i)%nat with 1%nat by lia. replace (S (S i) - i)%nat with 2%nat by lia.
      simpl. rewrite drop_drop, Nat.add_1_r, <- app_assoc. done.
  - left. by apply merge_noop.
Qed.

(** A split or a merge keeps the totals of the window statistics. *)
Lemma split_totals `{CharSign} idx m :
  Forall window_ok (buckets_ m) →
  window_totals (buckets_ (SplitBucket idx m)) = window_totals (buckets_ m).
Proof.
  intros Hok. destruct (split_shape idx m) as [->|(l1 & b & l2 & Hb & _ & ->)]; [done|].
  cbn [buckets_ bump_epoch set_buckets]. rewrite Hb in *.
  apply Forall_app in Hok as [_ [Hw _]%Forall_cons].
  apply (window_totals_middle l1 l2 _ [b]). intros g Hg.
  rewrite split_halves_sums by done. destruct Hw as (Hf & He & Hd).
  destruct Hg as [->|[->| ->]]; simpl; rewrite ?Hf, ?He, ?Hd, Z.add_0_r, u64_u64; done.
Qed.

Lemma merge_totals idx m :
  Forall window_ok (buckets_ m) →
  window_totals (buckets_ (MergeWithAdjacentBucket idx m)) = window_totals (buckets_ m).
Proof.
  intros Hok. destruct (merge_shape idx m) as [->|(l1 & l & r & l2 & Hb & ->)]; [done|].
  cbn [buckets_ bump_epoch set_buckets]. rewrite Hb in *.
  apply Forall_app in Hok as [_ [Hl [Hr _]%Forall_cons]%Forall_cons].
  apply (window_totals_middle l1 l2 [merge_buckets l r] [l; r]). intros g Hg.
  by apply merge_buckets_sums.
Qed.

(** ** Runs

    The atomic steps of a manager: each constructor is one critical section of
    [mutex_], or one iteration of a loop inside such a section. *)

Inductive step `{CharSign} (m : BucketManager) : BucketManager → Prop :=
  | step_initialize sps : step m (InitializeFromFirstFlush sps m)
  | step_flush snapshot_epoch results : step m (OnFlushCompleted snapshot_epoch results m)
  | step_split idx : step m (SplitBucket idx m)
  | step_merge idx : step m (MergeWithAdjacentBucket idx m).

Lemma adjust_after_steps `{CharSign} idx m :
  (AdjustAfterCompaction idx m).1 = m ∨ step m (AdjustAfterCompaction idx m).1.
Proof.
  unfold AdjustAfterCompaction.
  repeat case_match; simpl; auto using step_split, step_merge.
Qed.

Lemma adjust_loop_steps `{CharSign} tf tb affected er modified m :
  rtc step m (adjust_loop tf tb affected er modified m).1.
Proof.
  revert er modified m. induction affected as [|i rest IH]; intros er modified m; simpl; [done|].
  destruct (buckets_ m !! i); [|done].
  case_match; [eapply rtc_l; [apply step_split | apply IH]|].
  case_match; [eapply rtc_l; [apply step_merge | apply IH]|]. done.
Qed.

Lemma adjust_range_steps `{CharSign} lo hi m :
  rtc step m (AdjustBucketsInRange lo hi m).1.
Proof.
  unfold AdjustBucketsInRange. repeat case_match; simpl; try done.
  apply adjust_loop_steps.
Qed.

(** ** The invariant of the statistics

    With [c] flushes completed, a bucket's sums are those of its events, and
    its events belong to the last [WINDOW_SIZE] flushes. *)

Definition bucket_ok (c : Z) (b : Bucket) : Prop :=
  window_ok b ∧
  map_Forall (λ id _, 1 <= id ∧ c - WINDOW_SIZE < id <= c) (flush_events b).

Definition manager_ok (m : BucketManager) : Prop :=
  0 <= global_flush_counter_ m ∧
  Forall (bucket_ok (global_flush_counter_ m)) (buckets_ m).

Lemma bucket_ok_new c lo hi : bucket_ok c (new_bucket lo hi).
Proof. split; [apply window_ok_new | apply map_Forall_empty]. Qed.

Lemma bucket_ok_split c sp b :
  bucket_ok c b → bucket_ok c (split_halves sp b).1 ∧ bucket_ok c (split_halves sp b).2.
Proof.
  intros [_ Hid]. split; (split; [apply window_ok_recalculate|]); simpl;
    intros i e [He _]%map_lookup_filter_Some; exact (Hid i e He).
Qed.

Lemma bucket_ok_merge c l r : bucket_ok c l → bucket_ok c r → bucket_ok c (merge_buckets l r).
Proof.
  intros [_ Hl] [_ Hr]. split; [apply window_ok_recalculate|]. simpl.
  revert Hr. apply (map_fold_weak_ind (λ acc m,
    map_Forall (λ id _, 1 <= id ∧ c - WINDOW_SIZE < id <= c) m →
    map_Forall (λ id _, 1 <= id ∧ c - WINDOW_SIZE < id <= c) acc)); [done|].
  intros i e m acc Hi IH [He Hm]%map_Forall_insert; [|done].
  unfold merge_event. destruct (acc !! i); apply map_Forall_insert_2; auto.
Qed.

(** Recording flush [c + 1] and dropping the event that left the window. *)
Definition record_flush (id fc ec db : Z) (mk : key) (b : Bucket) : Bucket :=
  let b' := AddFlushEvent id fc ec db mk b in
  if WINDOW_SIZE <? id then RemoveFlushEvent (id -64 WINDOW_SIZE) b' else b'.

Lemma bucket_ok_record c fc ec db mk b :
  0 <= c → c + 1 < 2 ^ 64 → bucket_ok c b →
  bucket_ok (c + 1) (record_flush (c + 1) fc ec db mk b).
Proof.
  intros Hc Hc64 [Hw Hid]. unfold record_flush.
  assert (Hnew : flush_events b !! (c + 1) = None).
  { destruct (flush_events b !! (c + 1)) eqn:E; [|done]. apply Hid in E. lia. }
  assert (Hadd : map_Forall (λ id _, 1 <= id ∧ c - WINDOW_SIZE < id <= c + 1)
                   (flush_events (AddFlushEvent (c + 1) fc ec db mk b))).
  { rewrite add_events. apply map_Forall_insert_2; [unfold WINDOW_SIZE; lia|].
    eapply map_Forall_impl; [exact Hid|]. simpl. lia. }
  destruct (Z.ltb_spec WINDOW_SIZE (c + 1)) as [Hlt|Hge].
  - split; [by apply window_ok_remove, window_ok_add|].
    rewrite remove_events, u64_id by (unfold u64_ok, WINDOW_SIZE in *; lia).
    intros i e [Hne He]%lookup_delete_Some. apply Hadd in He. lia.
  - split; [by apply window_ok_add|].
    eapply map_Forall_impl; [exact Hadd|]. simpl. lia.
Qed.

(** The statistics distributed to the buckets, one entry per bucket. *)
Lemma length_distribute `{CharSign} bs r n accs idxs :
  length (foldl (distribute_to bs r n) accs idxs) = length accs.
Proof.
  revert accs. induction idxs as [|i idxs IH]; intros accs; simpl; [done|].
  rewrite IH. unfold distribute_to. destruct (bs !! i); [apply length_alter | done].
Qed.

Lemma length_distribute_all `{CharSign} m accs results :
  length (foldl (distribute_result m) accs results) = length accs.
Proof.
  revert accs. induction results as [|r results IH]; intros accs; simpl; [done|].
  rewrite IH. apply length_distribute.
Qed.

(** The event each bucket records for a flush: the result of the same index
    when the snapshot is current, a share of the overlapping results if not. *)
Definition result_event (r : BucketFlushResult) : Z * Z * Z * key :=
  (bfr_file_count r, bfr_entry_count r, bfr_data_bytes r, bfr_median_key r).

Definition acc_event (a : AccumulatedStats) : Z * Z * Z * key :=
  (acc_file_count a, acc_entry_count a, acc_data_bytes a,
   match acc_median_keys a with [] => [] | ks => middle_key ks end).

Definition distributed `{CharSign} (results : list BucketFlushResult) (m : BucketManager)
    : list AccumulatedStats :=
  foldl (distribute_result m) (replicate (length (buckets_ m)) (mkAcc 0 0 0 [])) results.

Definition recorded_events `{CharSign} (e : Z) (results : list BucketFlushResult)
    (m : BucketManager) : list (Z * Z * Z * key) :=
  if (e =? structure_epoch_ m) && (length results =? length (buckets_ m))%nat
  then result_event <$> results else acc_event <$> distributed results m.

Lemma length_recorded_events `{CharSign} e results m :
  length (recorded_events e results m) = length (buckets_ m).
Proof.
  unfold recorded_events, distributed.
  destruct (_ && _) eqn:E; rewrite length_fmap.
  - by apply andb_true_iff in E as [_ E%Nat.eqb_eq].
  - by rewrite length_distribute_all, length_replicate.
Qed.

(** [OnFlushCompleted] records one event in every bucket, on both paths. *)
Lemma flush_records `{CharSign} e results m :
  initialized_ m = true →
  OnFlushCompleted e results m =
  set_flush_counter (global_flush_counter_ m +64 1)
    (set_buckets
       (zip_with (λ ev b, record_flush (global_flush_counter_ m +64 1)
                            ev.1.1.1 ev.1.1.2 ev.1.2 ev.2 b)
          (recorded_events e results m) (buckets_ m)) m).
Proof.
  intros Hi. unfold OnFlushCompleted. rewrite Hi. simpl. unfold recorded_events.
  destruct (_ && _); rewrite zip_with_fmap_l; do 2 f_equal; unfold record_flush; simpl;
    (destruct (WINDOW_SIZE <? _); [by rewrite fmap_zip_with_compose | done]).
Qed.

Lemma record_range id fc ec db mk b :
  min_key (record_flush id fc ec db mk b) = min_key b ∧
  max_key (record_flush id fc ec db mk b) = max_key b.
Proof.
  unfold record_flush. destruct (WINDOW_SIZE <? id); [|done].
  destruct (remove_range (id -64 WINDOW_SIZE) (AddFlushEvent id fc ec db mk b)) as [-> ->].
  done.
Qed.

(** A flush leaves the ranges of the buckets and the epoch alone. *)
Lemma flush_ranges `{CharSign} e results m :
  bucket_ranges (OnFlushCompleted e results m) = bucket_ranges m ∧
  structure_epoch_ (OnFlushCompleted e results m) = structure_epoch_ m.
Proof.
  destruct (initialized_ m) eqn:Hi; [|unfold OnFlushCompleted; rewrite Hi; done].
  rewrite (flush_records e results m Hi). split; [|done].
  unfold bucket_ranges. cbn [buckets_ set_flush_counter set_buckets].
  rewrite fmap_zip_with_compose. generalize (length_recorded_events e results m).
  generalize (recorded_events e results m) as evs, (buckets_ m) as bs,
    (global_flush_counter_ m +64 1) as id. clear.
  induction evs as [|ev evs IH]; intros [|b bs] id Hl; simpl in *; try done.
  destruct (record_range id ev.1.1.1 ev.1.1.2 ev.1.2 ev.2 b) as [-> ->].
  f_equal. apply IH. lia.
Qed.

(** ** Preservation *)

Lemma manager_ok_step `{CharSign} m m' :
  global_flush_counter_ m + 1 < 2 ^ 64 → manager_ok m → step m m' →
  manager_ok m' ∧ global_flush_counter_ m' <= global_flush_counter_ m + 1.
Proof.
  intros Hc [Hpos Hok]. destruct 1 as [sps|e results|idx|idx].
  - unfold InitializeFromFirstFlush. destruct (initialized_ m); [split; [done|lia]|].
    split; [|simpl; lia]. split; [done|]. simpl. apply Forall_fmap, Forall_forall.
    intros i _. apply bucket_ok_new.
  - destruct (initialized_ m) eqn:Hi;
      [|unfold OnFlushCompleted; rewrite Hi; split; [done|simpl; lia]].
    rewrite (flush_records e results m Hi).
    rewrite (u64_id (global_flush_counter_ m + 1)) by (unfold u64_ok; lia).
    split; [|simpl; lia]. split; simpl; [lia|].
    eapply Forall_zip_with_r; [|exact Hok]. simpl. intros ev b Hb.
    by apply bucket_ok_record.
  - destruct (split_shape idx m) as [->|(l1 & b & l2 & Hb & _ & ->)]; [split; [done|lia]|].
    split; [|simpl; lia]. split; [done|]. simpl. rewrite Hb in Hok.
    apply Forall_app in Hok as [H1 [Hw H2]%Forall_cons].
    destruct (bucket_ok_split _ (split_point_of b) b Hw).
    apply Forall_app; split; [done|]. by do 2 (constructor; [done|]).
  - destruct (merge_shape idx m) as [->|(l1 & l & r & l2 & Hb & ->)]; [split; [done|lia]|].
    split; [|simpl; lia]. split; [done|]. simpl. rewrite Hb in Hok.
    apply Forall_app in Hok as [H1 [Hl [Hr H2]%Forall_cons]%Forall_cons].
    apply Forall_app; split; [done|]. constructor; [by apply bucket_ok_merge | done].
Qed.

Lemma manager_ok_steps `{CharSign} n m m' :
  global_flush_counter_ m + Z.of_nat n < 2 ^ 64 → manager_ok m → nsteps step n m m' →
  manager_ok m' ∧ global_flush_counter_ m' <= global_flush_counter_ m + Z.of_nat n.
Proof.
  intros Hn Hok Hs. induction Hs as [m|n m m1 m2 H1 Hs IH]; [split; [done|lia]|].
  destruct (manager_ok_step m m1) as [Hok1 Hc]; [lia|done..|].
  destruct IH as [Hok2 Hc2]; [lia|done|]. split; [done|lia].
Qed.

Lemma manager_ok_new t c : manager_ok (NewBucketManager t c).
Proof. split; [done | constructor]. Qed.

Lemma manager_ok_window m : manager_ok m → Forall window_ok (buckets_ m).
Proof. intros [_ H]. eapply Forall_impl; [exact H|]. by intros b []. Qed.

(** At most [WINDOW_SIZE] events per bucket. *)
Lemma window_events_bound c b : bucket_ok c b → (size (flush_events b) <= 10)%nat.
Proof.
  intros [_ Hid]. rewrite <- size_dom.
  transitivity (size (list_to_set (seqZ (c - 9) 10) : gset Z)).
  - apply subseteq_size. intros i [e He]%elem_of_dom. apply Hid in He.
    rewrite elem_of_list_to_set, elem_of_seqZ. unfold WINDOW_SIZE in He. lia.
  - rewrite size_list_to_set by apply NoDup_seqZ. by rewrite length_seqZ.
Qed.

(** ** Epochs *)

Definition epoch_step (m m' : BucketManager) : Prop :=
  (structure_epoch_ m' = structure_epoch_ m ∧ bucket_ranges m' = bucket_ranges m) ∨
  structure_epoch_ m' = structure_epoch_ m +64 1.

Lemma step_initialized `{CharSign} m m' :
  step m m' → initialized_ m = true → initialized_ m' = true.
Proof.
  intros [sps|e results|idx|idx] Hi.
  - unfold InitializeFromFirstFlush. by rewrite Hi.
  - by rewrite (flush_records e results m Hi).
  - by destruct (split_shape idx m) as [->|(? & ? & ? & _ & _ & ->)].
  - by destruct (merge_shape idx m) as [->|(? & ? & ? & ? & _ & ->)].
Qed.

Lemma step_epoch `{CharSign} m m' :
  step m m' → initialized_ m = true → epoch_step m m'.
Proof.
  intros [sps|e results|idx|idx] Hi.
  - left. unfold InitializeFromFirstFlush. by rewrite Hi.
  - left. destruct (flush_ranges e results m). done.
  - destruct (split_shape idx m) as [->|(? & ? & ? & _ & _ & ->)]; [by left | by right].
  - destruct (merge_shape idx m) as [->|(? & ? & ? & ? & _ & ->)]; [by left | by right].
Qed.

(** Along a run the epoch counts the structure changes. *)
Lemma steps_epoch `{CharSign} n m m' :
  nsteps step n m m' → initialized_ m = true →
  ∃ k : nat, (k <= n)%nat ∧
    u64 (structure_epoch_ m') = u64 (structure_epoch_ m + Z.of_nat k) ∧
    (k = 0%nat → bucket_ranges m' = bucket_ranges m).
Proof.
  intros Hs. induction Hs as [m|n m m1 m2 H1 Hs IH]; intros Hi.
  - exists 0%nat. split_and!; [lia | f_equal; lia | done].
  - destruct IH as (k & Hk & He & Hr); [by eapply step_initialized|].
    destruct (step_epoch m m1 H1 Hi) as [[He1 Hr1]|He1].
    + exists k. split_and!; [lia | congruence | intros ->; by rewrite Hr].
    + exists (S k). split_and!; [lia | | done].
      rewrite He, He1, u64_add_l. f_equal. lia.
Qed.

Lemma u64_add_inj e k : u64 e = u64 (e + k) → 0 <= k < 2 ^ 64 → k = 0.
Proof.
  unfold u64. intros H Hk. pose proof (Z.mod_pos_bound e (2 ^ 64)).
  pose proof (Z.div_mod e (2 ^ 64)). pose proof (Z.div_mod (e + k) (2 ^ 64)). nia.
Qed.

(** ** What a flush records in total *)

Inductive counter := Files | Entries | Bytes.

Definition event_counter (c : counter) : FlushEvent → Z :=
  match c with Files => fe_file_count | Entries => fe_entry_count | Bytes => fe_data_bytes end.
Definition result_counter (c : counter) : BucketFlushResult → Z :=
  match c with Files => bfr_file_count | Entries => bfr_entry_count | Bytes => bfr_data_bytes end.
Definition acc_counter (c : counter) : AccumulatedStats → Z :=
  match c with Files => acc_file_count | Entries => acc_entry_count | Bytes => acc_data_bytes end.
Definition tuple_counter (c : counter) (ev : Z * Z * Z * key) : Z :=
  match c with Files => ev.1.1.1 | Entries => ev.1.1.2 | Bytes => ev.1.2 end.

(** The sum over the buckets of what they recorded for flush [id]. *)
Definition recorded_total (c : counter) (id : Z) (m : BucketManager) : Z :=
  foldr Z.add 0
    ((λ b, match flush_events b !! id with Some e => event_counter c e | None => 0 end)
       <$> buckets_ m).

Definition results_total (c : counter) (results : list BucketFlushResult) : Z :=
  foldr Z.add 0 (result_counter c <$> results).

(** The number of buckets a result is shared between. *)
Definition fanout (m : BucketManager) (r : BucketFlushResult) : Z :=
  Z.of_nat (length (FindBucketsInRangeInternal m (bfr_min_key r) (bfr_max_key r))).

Lemma find_in_range_bounds i bs lo hi :
  Forall (λ j, (i <= j < i + length bs)%nat) (find_in_range_loop i bs lo hi).
Proof.
  revert i. induction bs as [|b bs IH]; intros i; simpl; [constructor|].
  assert (H : Forall (λ j, (i <= j < i + S (length bs))%nat) (find_in_range_loop (S i) bs lo hi)).
  { eapply Forall_impl; [apply IH|]. simpl. lia. }
  destruct (overlaps_range _ _ _ _); [constructor; [lia|]|]; done.
Qed.

Lemma length_find_in_range i bs lo hi :
  (length (find_in_range_loop i bs lo hi) <= length bs)%nat.
Proof.
  revert i. induction bs as [|b bs IH]; intros i; simpl; [done|].
  pose proof (IH (S i)). destruct (overlaps_range _ _ _ _); simpl; lia.
Qed.

Lemma sum_alter (g : AccumulatedStats → AccumulatedStats) (f : AccumulatedStats → Z) d idx accs :
  (idx < length accs)%nat → (∀ a, f (g a) = u64 (f a + d)) →
  u64 (foldr Z.add 0 (f <$> alter g idx accs)) = u64 (foldr Z.add 0 (f <$> accs) + d).
Proof.
  intros Hi Hg. revert idx Hi. induction accs as [|a accs IH]; intros [|idx] Hi; simpl in *;
    [lia|lia| |].
  - rewrite Hg, u64_add_l. f_equal. lia.
  - transitivity (u64 (f a + u64 (foldr Z.add 0 (f <$> alter g idx accs)))).
    + by rewrite u64_add_r.
    + rewrite IH, u64_add_r, Z.add_assoc by lia. done.
Qed.

Lemma distribute_to_sum `{CharSign} c bs r n accs idx :
  length accs = length bs → (idx < length bs)%nat →
  u64 (foldr Z.add 0 (acc_counter c <$> distribute_to bs r n accs idx)) =
  u64 (foldr Z.add 0 (acc_counter c <$> accs) + result_counter c r / n).
Proof.
  intros Hl Hi. unfold distribute_to.
  destruct (lookup_lt_is_Some_2 bs idx Hi) as [b ->].
  apply sum_alter; [lia|]. intros a. by destruct c.
Qed.

Lemma distribute_sum `{CharSign} c bs r n accs idxs :
  length accs = length bs → Forall (λ i, (i < length bs)%nat) idxs →
  u64 (foldr Z.add 0 (acc_counter c <$> foldl (distribute_to bs r n) accs idxs)) =
  u64 (foldr Z.add 0 (acc_counter c <$> accs) + Z.of_nat (length idxs) * (result_counter c r / n)).
Proof.
  intros Hl Hi. revert accs Hl. induction Hi as [|i idxs Hi His IH]; intros accs Hl; simpl.
  - f_equal. lia.
  - rewrite IH by (rewrite <- Hl; apply (length_distribute bs r n accs [i])).
    rewrite <- u64_add_l, distribute_to_sum, u64_add_l by done. f_equal. lia.
Qed.

Lemma distribute_all_sum `{CharSign} c m accs results :
  length accs = length (buckets_ m) →
  u64 (foldr Z.add 0 (acc_counter c <$> foldl (distribute_result m) accs results)) =
  u64 (foldr Z.add 0 (acc_counter c <$> accs) +
       foldr Z.add 0 ((λ r, fanout m r * (result_counter c r / fanout m r)) <$> results)).
Proof.
  revert accs. induction results as [|r results IH]; intros accs Hl; simpl.
  - f_equal. lia.
  - rewrite IH by (rewrite <- Hl; apply length_distribute).
    rewrite <- u64_add_l. unfold distribute_result at 1. rewrite distribute_sum; [|done|].
    + by rewrite u64_add_l, <- Z.add_assoc.
    + eapply Forall_impl; [apply find_in_range_bounds|]. simpl. lia.
Qed.

Lemma record_flush_lookup id fc ec db mk b :
  u64_ok id →
  flush_events (record_flush id fc ec db mk b) !! id = Some (mkFlushEvent id fc ec db mk).
Proof.
  intros Hid. unfold record_flush. destruct (Z.ltb_spec WINDOW_SIZE id).
  - rewrite remove_events, lookup_delete_ne, add_events; [apply lookup_insert_eq|].
    rewrite u64_id; unfold u64_ok, WINDOW_SIZE in *; lia.
  - rewrite add_events. apply lookup_insert_eq.
Qed.

Lemma recorded_total_flush `{CharSign} c e results m :
  initialized_ m = true →
  recorded_total c (global_flush_counter_ m +64 1) (OnFlushCompleted e results m) =
  foldr Z.add 0 (tuple_counter c <$> recorded_events e results m).
Proof.
  intros Hi. unfold recorded_total. rewrite (flush_records e results m Hi).
  cbn [buckets_ set_flush_counter set_buckets].
  pose proof (u64_range (global_flush_counter_ m + 1)) as Hid. revert Hid.
  generalize (length_recorded_events e results m).
  generalize (recorded_events e results m) as evs, (buckets_ m) as bs,
    (global_flush_counter_ m +64 1) as id. clear.
  induction evs as [|ev evs IH]; intros [|b bs] id Hl Hid; simpl in *; try done.
  rewrite record_flush_lookup by done. f_equal; [by destruct c|]. apply IH; [lia|done].
Qed.

Lemma find_in_range_elem i bs lo hi j b :
  bs !! j = Some b → overlaps_range lo hi (min_key b) (max_key b) = true →
  (i + j)%nat ∈ find_in_range_loop i bs lo hi.
Proof.
  revert i j. induction bs as [|b' bs IH]; intros i [|j] Hj Ho; simpl in *; simplify_eq/=.
  - rewrite Ho, Nat.add_0_r. left.
  - rewrite Nat.add_succ_r, <- Nat.add_succ_l.
    destruct (overlaps_range lo hi (min_key b') (max_key b')); [right|]; by apply IH.
Qed.

(** A range [lo, hi) and a bucket with a common key overlap for the code. *)
Lemma overlaps_common lo hi blo bhi :
  in_range (blo, bhi) lo → (hi = [] ∨ key_lt lo hi) → overlaps_range lo hi blo bhi = true.
Proof.
  intros [Hlo Hhi] Hne. simpl in *. unfold overlaps_range.
  destruct (negb _ && negb _ && key_leb bhi lo) eqn:E1.
  { rewrite !andb_true_iff, !negb_true_iff, !bool_decide_eq_false in E1.
    destruct E1 as [[? ?] ?%key_leb_true]. destruct Hhi; done. }
  destruct (negb _ && negb _ && key_leb hi blo) eqn:E2; [|done].
  rewrite !andb_true_iff, !negb_true_iff, !bool_decide_eq_false in E2.
  destruct E2 as [[? ?] ?]. destruct Hne as [|Hne]; [done|]. key_order.
Qed.

Lemma fanout_bounds m bs r :
  partitioned m bs → (bfr_max_key r = [] ∨ key_lt (bfr_min_key r) (bfr_max_key r)) →
  1 <= fanout m r <= Z.of_nat (S (length bs)).
Proof.
  intros Hp Hr. unfold fanout, FindBucketsInRangeInternal. split.
  - set (j := rank bs (bfr_min_key r)).
    assert (Hj : (j < length (buckets_ m))%nat).
    { rewrite (partitioned_length m bs Hp). unfold j, rank.
      pose proof (length_filter (λ b, key_le b (bfr_min_key r)) bs). lia. }
    destruct (lookup_lt_is_Some_2 _ _ Hj) as [b Hb].
    assert (Hin : in_range (min_key b, max_key b) (bfr_min_key r)).
    { destruct Hp as [Hrs Hinc]. eapply (in_range_rank [] bs _ j); [done|apply key_le_nil| |done].
      rewrite <- Hrs. unfold bucket_ranges. by rewrite list_lookup_fmap, Hb. }
    pose proof (find_in_range_elem 0 _ _ _ j b Hb (overlaps_common _ _ _ _ Hin Hr)) as Hel.
    destruct (find_in_range_loop _ _ _ _); [by apply not_elem_of_nil in Hel|]. simpl. lia.
  - rewrite <- (partitioned_length m bs Hp).
    pose proof (length_find_in_range 0 (buckets_ m) (bfr_min_key r) (bfr_max_key r)). lia.
Qed.

(** Dividing a counter over [n] buckets loses less than [n]. *)
Lemma shares_loss c m bs results :
  partitioned m bs →
  Forall (λ r, bfr_max_key r = [] ∨ key_lt (bfr_min_key r) (bfr_max_key r)) results →
  ∃ loss, 0 <= loss <= Z.of_nat (length results) * Z.of_nat (length bs) ∧
    foldr Z.add 0 ((λ r, fanout m r * (result_counter c r / fanout m r)) <$> results)
    = results_total c results - loss.
Proof.
  intros Hp. induction 1 as [|r results Hr _ (loss & Hloss & IH)]; [by exists 0|].
  pose proof (fanout_bounds m bs r Hp Hr).
  exists (loss + result_counter c r mod fanout m r).
  pose proof (Z.mod_pos_bound (result_counter c r) (fanout m r)).
  pose proof (Z.div_mod (result_counter c r) (fanout m r)).
  split; [cbn [length]; nia|]. cbn [fmap list_fmap foldr]. rewrite IH.
  unfold results_total. cbn [fmap list_fmap foldr]. lia.
Qed.

(** ** Theorems *)

(** C6. After any run of fewer than 2^64 steps from construction, every
    bucket's window sums equal the sums over its events (modulo 2^64), its
    events belong to the last [WINDOW_SIZE] flushes, and it holds at most
    [WINDOW_SIZE] of them. *)
Theorem reachable_statistics `{CharSign} n t cfd m :
  nsteps step n (NewBucketManager t cfd) m → Z.of_nat n < 2 ^ 64 →
  Forall (λ b, window_ok b ∧ Z.of_nat (size (flush_events b)) <= WINDOW_SIZE ∧
    map_Forall (λ id _, 1 <= id ∧ global_flush_counter_ m - WINDOW_SIZE < id
                        ∧ id <= global_flush_counter_ m) (flush_events b)) (buckets_ m).
Proof.
  intros Hs Hn.
  destruct (manager_ok_steps n (NewBucketManager t cfd) m Hn (manager_ok_new t cfd) Hs)
    as [[_ Hok] _]. eapply Forall_impl; [exact Hok|]. intros b Hb.
  pose proof (window_events_bound _ b Hb). destruct Hb as [Hw Hid].
  split_and!; [done | unfold WINDOW_SIZE; lia |].
  eapply map_Forall_impl; [exact Hid|]. simpl. lia.
Qed.

(** Splitting and merging conserve the totals of the window statistics:
    no file, entry or byte of the window is lost or counted twice. *)
Theorem split_merge_conserve `{CharSign} idx m :
  manager_ok m →
  window_totals (buckets_ (SplitBucket idx m)) = window_totals (buckets_ m) ∧
  window_totals (buckets_ (MergeWithAdjacentBucket idx m)) = window_totals (buckets_ m).
Proof. intros Hok%manager_ok_window. split; [by apply split_totals | by apply merge_totals]. Qed.

(** The optimistic flush protocol is sound: if the epoch of a snapshot is
    still the manager's epoch after any run of fewer than 2^64 steps, the
    snapshot's ranges are the current ranges, so every key is still found in
    the same bucket. *)
Theorem snapshot_epoch_valid `{CharSign} n m m' :
  initialized_ m = true → nsteps step n m m' → Z.of_nat n < 2 ^ 64 →
  epoch (GetSnapshot m) = structure_epoch_ m' →
  ranges (GetSnapshot m) = bucket_ranges m' ∧
  ∀ k, FindBucketInSnapshot (GetSnapshot m) k = FindBucket m' k.
Proof.
  intros Hi Hs Hn He. simpl in He.
  destruct (steps_epoch n m m' Hs Hi) as (k & Hk & Hek & Hr).
  rewrite <- He in Hek. apply u64_add_inj in Hek; [|lia].
  assert (Hrg : bucket_ranges m' = bucket_ranges m) by (apply Hr; lia).
  split; [done|]. intros key. unfold FindBucket. rewrite find_internal_snapshot.
  unfold FindBucketInSnapshot, GetSnapshot. simpl.
  fold (bucket_ranges m) (bucket_ranges m'). by rewrite Hrg.
Qed.

(** A completed flush records each counter of its results in full when
    its snapshot is current; when the buckets changed meanwhile, the shares
    handed to the overlapping buckets add up to the results up to rounding:
    less than one unit per result and boundary is lost, and nothing is
    counted twice. *)
Theorem flush_records_results `{CharSign} c e results m bs :
  initialized_ m = true → partitioned m bs →
  Forall (λ r, bfr_max_key r = [] ∨ key_lt (bfr_min_key r) (bfr_max_key r)) results →
  let id := global_flush_counter_ m +64 1 in
  let m' := OnFlushCompleted e results m in
  partitioned m' bs ∧ global_flush_counter_ m' = id ∧
  ∃ loss, 0 <= loss <= Z.of_nat (length results) * Z.of_nat (length bs) ∧
    u64 (recorded_total c id m') = u64 (results_total c results - loss) ∧
    (e = structure_epoch_ m → length results = length (buckets_ m) → loss = 0).
Proof.
  intros Hi Hp Hr id m'. split_and!.
  - destruct (flush_ranges e results m) as [E _]. destruct Hp. split; [|done].
    unfold m'. by rewrite E.
  - unfold m'. by rewrite (flush_records e results m Hi).
  - unfold id, m'. rewrite (recorded_total_flush c e results m Hi). unfold recorded_events.
    destruct ((e =? structure_epoch_ m) && (length results =? length (buckets_ m))%nat) eqn:E.
    + exists 0. split_and!; [lia..| |done]. rewrite Z.sub_0_r. f_equal. unfold results_total.
      rewrite <- list_fmap_compose. f_equal. apply list_fmap_ext. by destruct c.
    + destruct (shares_loss c m bs results Hp Hr) as (loss & Hl & Hsum).
      exists loss. split_and!; [lia..| |].
      * rewrite <- Hsum, <- list_fmap_compose. unfold distributed.
        rewrite (list_fmap_ext _ (acc_counter c) _) by (by destruct c).
        rewrite (distribute_all_sum c m _ results) by apply length_replicate.
        f_equal. rewrite fmap_replicate. replace (acc_counter c _) with 0 by (by destruct c).
        assert (Hz : ∀ n, foldr Z.add 0 (replicate n 0) = 0) by (induction n; simpl; lia).
        by rewrite Hz.
      * intros He Hlen. apply andb_false_iff in E.
        destruct E as [E%Z.eqb_neq|E%Nat.eqb_neq]; done.
Qed.

(** ** Witnesses *)

Definition sample_results : list BucketFlushResult :=
  [mkBucketFlushResult 1 10 1000 [byte_of 98] [] [byte_of 103];
   mkBucketFlushResult 1 20 2001 [byte_of 108] [byte_of 103] [byte_of 116];
   mkBucketFlushResult 1 30 3000 [byte_of 120] [byte_of 116] []].

Lemma sample_ok : manager_ok sample_manager.
Proof.
  apply (@manager_ok_step true (NewBucketManager 3 (Some true)));
    [done | apply manager_ok_new | apply step_initialize].
Qed.

Lemma reachable_statistics_witness :
  let _ : CharSign := true in
  Forall window_ok (buckets_ (OnFlushCompleted 0 sample_results sample_manager)).
Proof.
  intros Hc.
  eapply Forall_impl; [refine (reachable_statistics 2 3 (Some true) _ _ _)|].
  - eapply nsteps_l; [apply (step_initialize _ sample_boundaries)|].
    eapply nsteps_once, (step_flush _ 0 sample_results).
  - vm_compute. reflexivity.
  - intros b Hb. exact (proj1 Hb).
Defined.

Lemma split_merge_conserve_witness :
  let _ : CharSign := true in
  window_totals (buckets_ (SplitBucket 1 sample_manager)) = (0, 0, 0).
Proof.
  intros Hc. etransitivity; [exact (proj1 (split_merge_conserve 1 sample_manager sample_ok))|].
  vm_compute. reflexivity.
Defined.

Lemma snapshot_epoch_valid_witness :
  let _ : CharSign := true in
  FindBucketInSnapshot (GetSnapshot sample_manager) [byte_of 109] =
  FindBucket (OnFlushCompleted 0 sample_results sample_manager) [byte_of 109].
Proof.
  intros Hc. refine (proj2 (snapshot_epoch_valid 1 sample_manager _ _ _ _ _) _).
  - reflexivity.
  - eapply nsteps_once, step_flush.
  - vm_compute. reflexivity.
  - reflexivity.
Defined.

(** A stale snapshot: the flush was cut at "m", so each of its two results is
    shared by two buckets. *)
Lemma flush_records_results_witness :
  let _ : CharSign := true in
  let results := [mkBucketFlushResult 1 10 1001 [byte_of 98] [] [byte_of 109];
                  mkBucketFlushResult 1 20 2001 [byte_of 120] [byte_of 109] []] in
  ∃ loss, 0 <= loss <= 4 ∧
    u64 (recorded_total Bytes 1 (OnFlushCompleted 7 results sample_manager)) =
    u64 (3002 - loss).
Proof.
  intros Hc results.
  destruct (flush_records_results Bytes 7 results sample_manager sample_boundaries)
    as (_ & _ & loss & Hl & Hs & _).
  - reflexivity.
  - apply (bool_decide_unpack _). vm_compute. exact I.
  - apply (bool_decide_unpack _). vm_compute. exact I.
  - exists loss. split; [exact Hl | exact Hs].
Defined.
