(* ===== verification/Coding.v ===== *)
(** * Coding: fixed-width, varint and length-prefixed encodings

    Models [src/util/coding_lean.h], [src/util/coding.h] and
    [src/util/coding.cc].  A [char*] buffer being written is the list of bytes
    appended to it; a [Slice*] or pointer pair being read is the list of the
    bytes left, and a read returns [None] where the source returns false or a
    null pointer.  The fixed-width routines are the portable branch of the
    source, which writes the bytes the little-endian [memcpy] branch copies. *)

From S2P Require Import Prelude.

Definition u32 (z : Z) : Z := z mod 2 ^ 32.

(** ** Fixed width *)

Definition EncodeFixed16 (value : Z) : list byte :=
  [byte_of (Z.land value 255); byte_of (Z.land (Z.shiftr value 8) 255)].

Definition EncodeFixed32 (value : Z) : list byte :=
  [byte_of (Z.land value 255); byte_of (Z.land (Z.shiftr value 8) 255);
   byte_of (Z.land (Z.shiftr value 16) 255); byte_of (Z.land (Z.shiftr value 24) 255)].

Definition EncodeFixed64 (value : Z) : list byte :=
  [byte_of (Z.land value 255); byte_of (Z.land (Z.shiftr value 8) 255);
   byte_of (Z.land (Z.shiftr value 16) 255); byte_of (Z.land (Z.shiftr value 24) 255);
   byte_of (Z.land (Z.shiftr value 32) 255); byte_of (Z.land (Z.shiftr value 40) 255);
   byte_of (Z.land (Z.shiftr value 48) 255); byte_of (Z.land (Z.shiftr value 56) 255)].

(** [ptr[i]] as an unsigned value; reading past the end is the caller's error. *)
Definition byte_at (ptr : list byte) (i : nat) : Z := byte_val (default x00 (ptr !! i)).

Definition DecodeFixed16 (ptr : list byte) : Z :=
  Z.lor (byte_at ptr 0) (Z.shiftl (byte_at ptr 1) 8).

Definition DecodeFixed32 (ptr : list byte) : Z :=
  Z.lor (Z.lor (Z.lor (byte_at ptr 0) (Z.shiftl (byte_at ptr 1) 8))
               (Z.shiftl (byte_at ptr 2) 16)) (Z.shiftl (byte_at ptr 3) 24).

Definition DecodeFixed64 (ptr : list byte) : Z :=
  let lo := DecodeFixed32 ptr in
  let hi := DecodeFixed32 (drop 4 ptr) in
  Z.lor (Z.shiftl hi 32) lo.

Definition PutFixed16 (dst : list byte) (value : Z) : list byte := dst ++ EncodeFixed16 value.
Definition PutFixed32 (dst : list byte) (value : Z) : list byte := dst ++ EncodeFixed32 value.
Definition PutFixed64 (dst : list byte) (value : Z) : list byte := dst ++ EncodeFixed64 value.

Definition GetFixed16 (input : list byte) : option (Z * list byte) :=
  if (length input <? 2)%nat then None else Some (DecodeFixed16 input, drop 2 input).
Definition GetFixed32 (input : list byte) : option (Z * list byte) :=
  if (length input <? 4)%nat then None else Some (DecodeFixed32 input, drop 4 input).
Definition GetFixed64 (input : list byte) : option (Z * list byte) :=
  if (length input <? 8)%nat then None else Some (DecodeFixed64 input, drop 8 input).

(** ** Varints *)

Definition kMaxVarint64Length : nat := 10.

Definition EncodeVarint32 (v : Z) : list byte :=
  let B := 128 in
  if v <? Z.shiftl 1 7 then [byte_of v]
  else if v <? Z.shiftl 1 14 then
    [byte_of (Z.lor v B); byte_of (Z.shiftr v 7)]
  else if v <? Z.shiftl 1 21 then
    [byte_of (Z.lor v B); byte_of (Z.lor (Z.shiftr v 7) B); byte_of (Z.shiftr v 14)]
  else if v <? Z.shiftl 1 28 then
    [byte_of (Z.lor v B); byte_of (Z.lor (Z.shiftr v 7) B);
     byte_of (Z.lor (Z.shiftr v 14) B); byte_of (Z.shiftr v 21)]
  else
    [byte_of (Z.lor v B); byte_of (Z.lor (Z.shiftr v 7) B);
     byte_of (Z.lor (Z.shiftr v 14) B); byte_of (Z.lor (Z.shiftr v 21) B);
     byte_of (Z.shiftr v 28)].

(** The [while (v >= B)] loop; [fuel] bounds its iterations, and a 64-bit value
    needs at most nine of them. *)
Fixpoint encode_varint64_loop (fuel : nat) (v : Z) : list byte :=
  match fuel with
  | S n =>
      if 128 <=? v
      then byte_of (Z.lor (Z.land v 127) 128) :: encode_varint64_loop n (Z.shiftr v 7)
      else [byte_of v]
  | O => [byte_of v]
  end.

Definition EncodeVarint64 (v : Z) : list byte := encode_varint64_loop 10 v.

Fixpoint varint_length_loop (fuel : nat) (v len : Z) : Z :=
  match fuel with
  | S n => if 128 <=? v then varint_length_loop n (Z.shiftr v 7) (len + 1) else len
  | O => len
  end.

Definition VarintLength (v : Z) : Z := varint_length_loop 10 v 1.

(** The decoding loop at width [w]: [for (shift = 0; shift <= last && p < limit;
    shift += 7)]. *)
Fixpoint varint_loop (w last shift result : Z) (p : list byte) : option (Z * list byte) :=
  match p with
  | [] => None
  | c :: p' =>
      if last <? shift then None
      else if negb (Z.land (byte_val c) 128 =? 0)
      then varint_loop w last (shift + 7)
             (Z.lor result (Z.shiftl (Z.land (byte_val c) 127) shift mod 2 ^ w)) p'
      else Some (Z.lor result (Z.shiftl (byte_val c) shift mod 2 ^ w), p')
  end.

Definition GetVarint32PtrFallback (p : list byte) : option (Z * list byte) :=
  varint_loop 32 28 0 0 p.

Definition GetVarint32Ptr (p : list byte) : option (Z * list byte) :=
  match p with
  | c :: p' => if Z.land (byte_val c) 128 =? 0 then Some (byte_val c, p')
               else GetVarint32PtrFallback p
  | [] => GetVarint32PtrFallback p
  end.

Definition GetVarint64Ptr (p : list byte) : option (Z * list byte) := varint_loop 64 63 0 0 p.

Definition GetVarint32 (input : list byte) : option (Z * list byte) := GetVarint32Ptr input.
Definition GetVarint64 (input : list byte) : option (Z * list byte) := GetVarint64Ptr input.

Definition PutVarint32 (dst : list byte) (v : Z) : list byte := dst ++ EncodeVarint32 v.
Definition PutVarint64 (dst : list byte) (v : Z) : list byte := dst ++ EncodeVarint64 v.
Definition PutVarint32Varint32 (dst : list byte) (v1 v2 : Z) : list byte :=
  dst ++ EncodeVarint32 v1 ++ EncodeVarint32 v2.
Definition PutVarint32Varint64 (dst : list byte) (v1 v2 : Z) : list byte :=
  dst ++ EncodeVarint32 v1 ++ EncodeVarint64 v2.
Definition PutVarint64Varint64 (dst : list byte) (v1 v2 : Z) : list byte :=
  dst ++ EncodeVarint64 v1 ++ EncodeVarint64 v2.
Definition PutVarint32Varint32Varint32 (dst : list byte) (v1 v2 v3 : Z) : list byte :=
  dst ++ EncodeVarint32 v1 ++ EncodeVarint32 v2 ++ EncodeVarint32 v3.
Definition PutVarint32Varint32Varint64 (dst : list byte) (v1 v2 v3 : Z) : list byte :=
  dst ++ EncodeVarint32 v1 ++ EncodeVarint32 v2 ++ EncodeVarint64 v3.

(** ** Zigzag and signed varints *)

(** The value of a 64-bit pattern read as an [int64_t]. *)
Definition s64 (z : Z) : Z := if u64 z <? 2 ^ 63 then u64 z else u64 z - 2 ^ 64.

Definition i64ToZigzag (l : Z) : Z := Z.lxor (u64 (Z.shiftl (u64 l) 1)) (u64 (Z.shiftr l 63)).

Definition zigzagToI64 (n : Z) : Z := s64 (Z.lxor (Z.shiftr n 1) (u64 (- Z.land n 1))).

Definition PutVarsignedint64 (dst : list byte) (v : Z) : list byte :=
  dst ++ EncodeVarint64 (i64ToZigzag v).

Definition GetVarsignedint64 (input : list byte) : option (Z * list byte) :=
  match GetVarint64Ptr input with
  | Some (u, rest) => Some (zigzagToI64 u, rest)
  | None => None
  end.

(** ** Length-prefixed slices *)

Definition PutLengthPrefixedSlice (dst value : list byte) : list byte :=
  PutVarint32 dst (u32 (Z.of_nat (length value))) ++ value.

Definition PutLengthPrefixedSliceParts (dst : list byte) (total_bytes : Z)
    (parts : list (list byte)) : list byte :=
  let total := foldl (λ acc p, acc +64 Z.of_nat (length p)) total_bytes parts in
  PutVarint32 dst (u32 total) ++ concat parts.

Definition PutLengthPrefixedSlicePartsWithPadding (dst : list byte)
    (parts : list (list byte)) (pad_sz : nat) : list byte :=
  PutLengthPrefixedSliceParts dst (Z.of_nat pad_sz) parts ++ replicate pad_sz x00.

Definition GetLengthPrefixedSlice (input : list byte) : option (list byte * list byte) :=
  match GetVarint32 input with
  | Some (len, rest) =>
      if len <=? Z.of_nat (length rest)
      then Some (take (Z.to_nat len) rest, drop (Z.to_nat len) rest) else None
  | None => None
  end.

Fixpoint slice_until_len (slice : list byte) (delimiter : byte) : nat :=
  match slice with
  | [] => 0
  | c :: s => if bool_decide (c = delimiter) then 0%nat else S (slice_until_len s delimiter)
  end.

Definition GetSliceUntil (slice : list byte) (delimiter : byte) : list byte * list byte :=
  let len := slice_until_len slice delimiter in
  (take len slice, drop (len + if (len <? length slice)%nat then 1 else 0)%nat slice).

(** ** Bit operations as arithmetic *)

Lemma lor_shiftl_add a b n :
  0 <= n → 0 <= a < 2 ^ n → Z.lor a (Z.shiftl b n) = a + b * 2 ^ n.
Proof.
  intros Hn Ha. rewrite Z.shiftl_mul_pow2 by done.
  assert (Hd : Z.land a (b * 2 ^ n) = 0).
  { apply Z.bits_inj'. intros i Hi. rewrite Z.bits_0, Z.land_spec.
    destruct (Z.lt_ge_cases i n).
    - by rewrite Z.mul_pow2_bits_low, andb_false_r.
    - destruct (decide (a = 0)) as [->|]; [by rewrite Z.bits_0|].
      rewrite (Z.bits_above_log2 a i); [done|lia|]. apply Z.log2_lt_pow2; [lia|].
      eapply Z.lt_le_trans; [apply Ha|]. apply Z.pow_le_mono_r; lia. }
  rewrite Z.add_nocarry_lxor by done. symmetry. by apply Z.lxor_lor.
Qed.

Lemma lor_mul_add a b n : 0 <= n → 0 <= a < 2 ^ n → Z.lor a (b * 2 ^ n) = a + b * 2 ^ n.
Proof. intros. rewrite <- (Z.shiftl_mul_pow2 b n) at 1 by done. by apply lor_shiftl_add. Qed.

Lemma byte_of_land v : byte_val (byte_of (Z.land v 255)) = v mod 256.
Proof.
  rewrite byte_val_of. change 255 with (Z.ones 8). rewrite Z.land_ones by lia.
  change (2 ^ 8) with 256. by rewrite Z.mod_mod.
Qed.

Lemma byte_of_continue v : byte_val (byte_of (Z.lor v 128)) = v mod 128 + 128.
Proof.
  rewrite byte_val_of. change 256 with (2 ^ 8). rewrite <- Z.land_ones by lia.
  rewrite Z.land_lor_distr_l, Z.land_ones by lia. change (Z.land 128 (Z.ones 8)) with 128.
  rewrite (Z.div_mod (v mod 2 ^ 8) 128) by lia.
  assert (H : v mod 2 ^ 8 mod 128 = v mod 128).
  { change (2 ^ 8) with (128 * 2). rewrite Z.rem_mul_r by lia.
    rewrite Z.mul_comm, Z.mod_add, Z.mod_mod by lia. done. }
  rewrite H. pose proof (Z.mod_pos_bound v 128 eq_refl).
  assert (Hq : v mod 2 ^ 8 / 128 = 0 ∨ v mod 2 ^ 8 / 128 = 1).
  { pose proof (Z.mod_pos_bound v (2 ^ 8) eq_refl). Z.div_mod_to_equations. lia. }
  assert (Hl : Z.lor (v mod 128) 128 = v mod 128 + 128)
    by (apply (lor_shiftl_add (v mod 128) 1 7); lia).
  destruct Hq as [-> | ->]; [by rewrite Z.mul_0_r, Z.add_0_l|].
  replace (128 * 1 + v mod 128) with (v mod 128 + 128) by lia.
  by rewrite <- Hl, <- Z.lor_assoc, Z.lor_diag.
Qed.

Lemma byte_at_0 c ptr : byte_at (c :: ptr) 0 = byte_val c.
Proof. done. Qed.
Lemma byte_at_S c ptr i : byte_at (c :: ptr) (S i) = byte_at ptr i.
Proof. done. Qed.

Lemma byte_shift v k : 0 <= k →
  byte_val (byte_of (Z.land (Z.shiftr v k) 255)) = (v / 2 ^ k) mod 256.
Proof. intros. by rewrite byte_of_land, Z.shiftr_div_pow2. Qed.

(** ** Fixed-width round trips *)

Lemma lor_bytes a b c d :
  0 <= a < 256 → 0 <= b < 256 → 0 <= c < 256 →
  Z.lor (Z.lor (Z.lor a (Z.shiftl b 8)) (Z.shiftl c 16)) (Z.shiftl d 24)
  = a + b * 2 ^ 8 + c * 2 ^ 16 + d * 2 ^ 24.
Proof.
  intros. rewrite (lor_shiftl_add a b 8) by lia.
  rewrite (lor_shiftl_add _ c 16) by lia. by rewrite (lor_shiftl_add _ d 24) by lia.
Qed.

Lemma decode_bytes32 b0 b1 b2 b3 rest :
  DecodeFixed32 (b0 :: b1 :: b2 :: b3 :: rest) =
  byte_val b0 + byte_val b1 * 2 ^ 8 + byte_val b2 * 2 ^ 16 + byte_val b3 * 2 ^ 24.
Proof.
  unfold DecodeFixed32. rewrite !byte_at_S, !byte_at_0.
  by rewrite lor_bytes by apply byte_val_range.
Qed.

Lemma decode_fixed32 v rest : DecodeFixed32 (EncodeFixed32 v ++ rest) = u32 v.
Proof.
  unfold EncodeFixed32. simpl app. rewrite decode_bytes32, byte_of_land, !byte_shift by lia.
  unfold u32. Z.div_mod_to_equations. lia.
Qed.

Lemma decode_fixed16 v rest : DecodeFixed16 (EncodeFixed16 v ++ rest) = v mod 2 ^ 16.
Proof.
  unfold EncodeFixed16, DecodeFixed16. simpl app. rewrite !byte_at_S, !byte_at_0.
  rewrite byte_of_land, byte_shift by lia. pose proof (Z.mod_pos_bound v 256 eq_refl).
  rewrite lor_shiftl_add by lia. Z.div_mod_to_equations. lia.
Qed.

(** The eight bytes are the four low ones followed by the four high ones. *)
Lemma encode_fixed64_split v :
  EncodeFixed64 v = EncodeFixed32 v ++ EncodeFixed32 (Z.shiftr v 32).
Proof. unfold EncodeFixed64, EncodeFixed32. by rewrite !Z.shiftr_shiftr. Qed.

Lemma decode_fixed64 v rest : DecodeFixed64 (EncodeFixed64 v ++ rest) = u64 v.
Proof.
  unfold DecodeFixed64. rewrite encode_fixed64_split, <- app_assoc.
  rewrite (drop_app_length' (EncodeFixed32 v)) by done.
  rewrite !decode_fixed32, Z.shiftr_div_pow2 by lia.
  rewrite Z.lor_comm, lor_shiftl_add; [|lia|apply Z.mod_pos_bound; lia].
  unfold u32, u64. Z.div_mod_to_equations. lia.
Qed.

Lemma decode_fixed32_range p : 0 <= DecodeFixed32 p < 2 ^ 32.
Proof.
  unfold DecodeFixed32, byte_at.
  pose proof (byte_val_range (default x00 (p !! 0%nat))).
  pose proof (byte_val_range (default x00 (p !! 1%nat))).
  pose proof (byte_val_range (default x00 (p !! 2%nat))).
  pose proof (byte_val_range (default x00 (p !! 3%nat))).
  rewrite lor_bytes by done. lia.
Qed.

Lemma decode_fixed64_range ptr : u64_ok (DecodeFixed64 ptr).
Proof.
  pose proof decode_fixed32_range as H32. unfold DecodeFixed64, u64_ok. pose proof (H32 ptr). pose proof (H32 (drop 4 ptr)).
  rewrite Z.lor_comm, lor_shiftl_add by lia. lia.
Qed.

Lemma encode_fixed32_mod v w :
  v mod 2 ^ 32 = w mod 2 ^ 32 → EncodeFixed32 v = EncodeFixed32 w.
Proof.
  intros H. assert (Hk : ∀ k, 0 <= k <= 24 → byte_of (Z.land (Z.shiftr v k) 255)
      = byte_of (Z.land (Z.shiftr w k) 255)).
  { intros k Hk. apply byte_val_inj. rewrite !byte_shift by lia.
    assert (E : ∀ x, (x / 2 ^ k) mod 256 = ((x mod 2 ^ 32) / 2 ^ k) mod 256).
    { intros x. pose proof (Z.pow_pos_nonneg 2 k ltac:(lia) ltac:(lia)).
      pose proof (Z.pow_pos_nonneg 2 (24 - k) ltac:(lia) ltac:(lia)).
      replace (2 ^ 32) with (2 ^ k * (2 ^ (24 - k) * 256)).
      - rewrite (Z.rem_mul_r x (2 ^ k) (2 ^ (24 - k) * 256)); [|lia..].
        rewrite Z.add_comm, Z.mul_comm, Z.div_add_l by lia.
        rewrite (Z.div_small (x mod 2 ^ k)) by (apply Z.mod_pos_bound; lia).
        rewrite Z.add_0_r, Z.mod_mod_divide; [done|]. by exists (2 ^ (24 - k)).
      - change 256 with (2 ^ 8). rewrite <- !Z.pow_add_r by lia. f_equal. lia. }
    by rewrite (E v), (E w), H. }
  unfold EncodeFixed32. pose proof (Hk 0) as H0. rewrite !Z.shiftr_0_r in H0.
  by rewrite H0, (Hk 8), (Hk 16), (Hk 24) by lia.
Qed.

Lemma encode_decode32 b0 b1 b2 b3 rest :
  EncodeFixed32 (DecodeFixed32 (b0 :: b1 :: b2 :: b3 :: rest)) = [b0; b1; b2; b3].
Proof.
  rewrite decode_bytes32. unfold EncodeFixed32.
  pose proof (byte_val_range b0). pose proof (byte_val_range b1).
  pose proof (byte_val_range b2). pose proof (byte_val_range b3).
  set (v := _ + _ * 2 ^ 24).
  assert (Hv : v = byte_val b0 + 256 * (byte_val b1 + 256 * (byte_val b2 + 256 * byte_val b3)))
    by (unfold v; lia).
  assert (H8 : v / 2 ^ 8 = byte_val b1 + 256 * (byte_val b2 + 256 * byte_val b3))
    by (symmetry; apply (Z.div_unique v (2 ^ 8) _ (byte_val b0)); lia).
  assert (H16 : v / 2 ^ 16 = byte_val b2 + 256 * byte_val b3)
    by (symmetry; apply (Z.div_unique v (2 ^ 16) _ (byte_val b0 + 256 * byte_val b1)); lia).
  assert (H24 : v / 2 ^ 24 = byte_val b3)
    by (symmetry; apply (Z.div_unique v (2 ^ 24) _
          (byte_val b0 + 256 * (byte_val b1 + 256 * byte_val b2))); lia).
  repeat f_equal; apply byte_val_inj; rewrite ?byte_shift, ?byte_of_land by lia;
    rewrite ?H8, ?H16, ?H24, ?Hv; Z.div_mod_to_equations; lia.
Qed.

(** Eight bytes are the encoding of their value. *)
Lemma encode_decode64 bs : length bs = 8%nat → EncodeFixed64 (DecodeFixed64 bs) = bs.
Proof.
  intros Hl. do 8 (destruct bs as [|? bs]; [done|]). destruct bs; [|done].
  rewrite encode_fixed64_split. unfold DecodeFixed64. cbn [drop].
  set (hi := DecodeFixed32 _). set (lo := DecodeFixed32 _).
  assert (Hlo : 0 <= lo < 2 ^ 32) by apply decode_fixed32_range.
  rewrite Z.lor_comm, lor_shiftl_add by lia.
  rewrite (encode_fixed32_mod (lo + hi * 2 ^ 32) lo) by (by rewrite Z.mod_add).
  rewrite Z.shiftr_div_pow2, Z.div_add, Z.div_small by lia. rewrite Z.add_0_l.
  unfold lo, hi. by rewrite !encode_decode32.
Qed.

(** ** Varint round trips *)

Lemma continue_bit c : Z.land (byte_val c) 128 = 0 ↔ byte_val c < 128.
Proof. destruct c; vm_compute; split; congruence. Qed.

Lemma payload_bits c : Z.land (byte_val c) 127 = byte_val c mod 128.
Proof. change 127 with (Z.ones 7). by rewrite Z.land_ones. Qed.

Lemma shiftl_mod_small a n w :
  0 <= n → 0 <= a → a * 2 ^ n < 2 ^ w → Z.shiftl a n mod 2 ^ w = a * 2 ^ n.
Proof.
  intros. rewrite Z.shiftl_mul_pow2 by done. apply Z.mod_small.
  split; [|done]. apply Z.mul_nonneg_nonneg; [done|]. apply Z.pow_nonneg. lia.
Qed.

(** The decoder undoes the encoding loop from any shift, provided the value
    still fits in the width and the loop has enough rounds left. *)
Lemma varint_loop_encode w last fuel v shift result rest :
  0 <= shift → 0 <= result < 2 ^ shift → 0 <= v < 2 ^ (7 * Z.of_nat (S fuel)) →
  v * 2 ^ shift < 2 ^ w → shift + 7 * Z.of_nat fuel <= last →
  varint_loop w last shift result (encode_varint64_loop fuel v ++ rest)
  = Some (result + v * 2 ^ shift, rest).
Proof.
  revert v shift result. induction fuel as [|n IH]; intros v shift result Hs Hr Hv Hw Hl.
  - change (2 ^ (7 * Z.of_nat 1)) with 128 in Hv.
    assert (Hlast : (last <? shift) = false) by (apply Z.ltb_ge; lia).
    simpl. rewrite Hlast.
    rewrite (proj2 (Z.eqb_eq _ _)).
    + simpl. rewrite byte_val_of, (Z.mod_small v 256) by lia.
      by rewrite shiftl_mod_small, lor_mul_add by lia.
    + apply continue_bit. rewrite byte_val_of, Z.mod_small; lia.
  - assert (Hlast : (last <? shift) = false) by (apply Z.ltb_ge; lia).
    pose proof (Z.pow_pos_nonneg 2 shift ltac:(lia) Hs) as Hpos.
    cbn [encode_varint64_loop]. destruct (Z.leb_spec 128 v) as [Hge|Hlt].
    + cbn [app varint_loop]. rewrite Hlast.
      assert (Hbv : byte_val (byte_of (Z.lor (Z.land v 127) 128)) = v mod 128 + 128).
      { rewrite byte_of_continue. change 127 with (Z.ones 7). rewrite Z.land_ones by lia.
        change (2 ^ 7) with 128. by rewrite Z.mod_mod. }
      rewrite (proj2 (Z.eqb_neq _ _)); [|rewrite continue_bit, Hbv;
        pose proof (Z.mod_pos_bound v 128 eq_refl); lia].
      cbn [negb]. rewrite payload_bits, Hbv.
      replace ((v mod 128 + 128) mod 128) with (v mod 128)
        by (Z.div_mod_to_equations; lia).
      pose proof (Z.mod_pos_bound v 128 eq_refl).
      assert (Hdm : v = 128 * (v / 128) + v mod 128) by (apply Z.div_mod; lia).
      rewrite shiftl_mod_small; [|lia|lia|nia].
      rewrite lor_mul_add by lia.
      rewrite Z.shiftr_div_pow2 by lia. change (2 ^ 7) with 128.
      assert (Hp7 : 2 ^ (shift + 7) = 2 ^ shift * 128) by (rewrite Z.pow_add_r by lia; done).
      rewrite IH; [f_equal; f_equal; rewrite Hp7; nia | lia | rewrite Hp7; nia | | | lia].
      * split; [apply Z.div_pos; lia|]. apply Z.div_lt_upper_bound; [lia|].
        change 128 with (2 ^ 7). rewrite <- Z.pow_add_r by lia.
        replace (7 + 7 * Z.of_nat (S n)) with (7 * Z.of_nat (S (S n))) by lia. lia.
      * rewrite Hp7. nia.
    + cbn [app varint_loop]. rewrite Hlast.
      rewrite (proj2 (Z.eqb_eq _ _)); [|apply continue_bit; rewrite byte_val_of, Z.mod_small; lia].
      cbn [negb]. rewrite byte_val_of, (Z.mod_small v) by lia.
      by rewrite shiftl_mod_small, lor_mul_add by lia.
Qed.

Lemma byte_of_eq a b : a mod 256 = b mod 256 → byte_of a = byte_of b.
Proof. intros. apply byte_val_inj. by rewrite !byte_val_of. Qed.

Lemma byte_continue_eq v : byte_of (Z.lor v 128) = byte_of (Z.lor (Z.land v 127) 128).
Proof.
  apply byte_val_inj. rewrite !byte_of_continue. change 127 with (Z.ones 7).
  rewrite Z.land_ones by lia. change (2 ^ 7) with 128. by rewrite Z.mod_mod.
Qed.

Lemma encode_small fuel v : v < 128 → encode_varint64_loop fuel v = [byte_of v].
Proof. intros Hv. destruct fuel; [done|]. simpl. by rewrite (proj2 (Z.leb_gt _ _) Hv). Qed.

Lemma encode_more fuel v :
  128 <= v →
  encode_varint64_loop (S fuel) v = byte_of (Z.lor v 128) :: encode_varint64_loop fuel (Z.shiftr v 7).
Proof.
  intros Hv. cbn [encode_varint64_loop]. rewrite (proj2 (Z.leb_le _ _) Hv).
  by rewrite <- byte_continue_eq.
Qed.

Lemma shiftr_lt v k b : 0 <= k → v < b * 2 ^ k → Z.shiftr v k < b.
Proof. intros. rewrite Z.shiftr_div_pow2 by done. apply Z.div_lt_upper_bound; lia. Qed.

Lemma shiftr_ge v k b : 0 <= k → b * 2 ^ k <= v → b <= Z.shiftr v k.
Proof. intros. rewrite Z.shiftr_div_pow2 by done. apply Z.div_le_lower_bound; lia. Qed.

(** The unrolled 32-bit encoder and the 64-bit loop write the same bytes. *)
Lemma encode_varint32_loop v : 0 <= v < 2 ^ 32 → EncodeVarint32 v = encode_varint64_loop 4 v.
Proof.
  intros Hv. unfold EncodeVarint32.
  change (Z.shiftl 1 7) with (128 * 2 ^ 0). change (Z.shiftl 1 14) with (128 * 2 ^ 7).
  change (Z.shiftl 1 21) with (128 * 2 ^ 14). change (Z.shiftl 1 28) with (128 * 2 ^ 21).
  destruct (Z.ltb_spec v (128 * 2 ^ 0)); [by rewrite encode_small by lia|].
  rewrite encode_more by lia.
  destruct (Z.ltb_spec v (128 * 2 ^ 7)).
  { by rewrite encode_small by (apply shiftr_lt; lia). }
  rewrite encode_more, Z.shiftr_shiftr by (try apply shiftr_ge; lia).
  destruct (Z.ltb_spec v (128 * 2 ^ 14)).
  { by rewrite encode_small by (apply shiftr_lt; lia). }
  rewrite encode_more, Z.shiftr_shiftr by (try apply shiftr_ge; lia).
  destruct (Z.ltb_spec v (128 * 2 ^ 21)).
  { by rewrite encode_small by (apply shiftr_lt; lia). }
  rewrite encode_more, Z.shiftr_shiftr by (try apply shiftr_ge; lia). done.
Qed.

Lemma length_encode_fuel fuel v : (1 <= length (encode_varint64_loop fuel v) <= S fuel)%nat.
Proof.
  revert v. induction fuel as [|n IH]; intros v; simpl; [lia|].
  destruct (128 <=? v); simpl; [|lia]. pose proof (IH (Z.shiftr v 7)). lia.
Qed.

(** One unit of fuel per seven bits is enough. *)
Lemma encode_fuel fuel v :
  v < 2 ^ (7 * Z.of_nat (S fuel)) →
  encode_varint64_loop (S fuel) v = encode_varint64_loop fuel v.
Proof.
  revert v. induction fuel as [|n IH]; intros v Hv.
  - by rewrite !encode_small by done.
  - destruct (Z.lt_ge_cases v 128); [by rewrite !encode_small|].
    rewrite !(encode_more _ v) by done. f_equal. apply IH. apply shiftr_lt; [lia|].
    rewrite <- Z.pow_add_r by lia.
    by replace (7 * Z.of_nat (S n) + 7) with (7 * Z.of_nat (S (S n))) by lia.
Qed.

Lemma get_encode_varint32 v rest :
  0 <= v < 2 ^ 32 → GetVarint32 (EncodeVarint32 v ++ rest) = Some (v, rest).
Proof.
  intros Hv. assert (Hd : GetVarint32PtrFallback (EncodeVarint32 v ++ rest) = Some (v, rest)).
  { rewrite encode_varint32_loop by done. unfold GetVarint32PtrFallback.
    rewrite (varint_loop_encode 32 28 4 v 0 0) by lia. f_equal. f_equal. lia. }
  unfold GetVarint32, GetVarint32Ptr. destruct (EncodeVarint32 v ++ rest) as [|c p] eqn:E; [done|].
  destruct (Z.eqb_spec (Z.land (byte_val c) 128) 0) as [Hc|Hc]; [|done].
  rewrite <- Hd. unfold GetVarint32PtrFallback. cbn [varint_loop].
  rewrite (proj2 (Z.eqb_eq _ _) Hc). simpl.
  apply continue_bit in Hc. pose proof (byte_val_range c).
  by rewrite Z.shiftl_0_r, Z.mod_small by lia.
Qed.

Lemma get_encode_varint64 v rest :
  u64_ok v → GetVarint64 (EncodeVarint64 v ++ rest) = Some (v, rest).
Proof.
  unfold u64_ok. intros Hv. unfold GetVarint64, GetVarint64Ptr, EncodeVarint64.
  assert (Hfuel : encode_varint64_loop 10 v = encode_varint64_loop 9 v)
    by (apply encode_fuel; simpl; lia).
  rewrite Hfuel, (varint_loop_encode 64 63 9 v 0 0) by lia. f_equal. f_equal. lia.
Qed.

(** ** Lengths *)

Lemma length_encode_loop fuel v len :
  varint_length_loop fuel v len + 1 = len + Z.of_nat (length (encode_varint64_loop fuel v)).
Proof.
  revert v len. induction fuel as [|n IH]; intros v len; simpl; [lia|].
  destruct (128 <=? v); simpl; [|lia]. rewrite IH. lia.
Qed.

Lemma length_encode_varint64 v : Z.of_nat (length (EncodeVarint64 v)) = VarintLength v.
Proof. pose proof (length_encode_loop 10 v 1). unfold VarintLength, EncodeVarint64. lia. Qed.

Lemma length_encode_varint64_bound v :
  u64_ok v → (1 <= length (EncodeVarint64 v) <= kMaxVarint64Length)%nat.
Proof.
  unfold u64_ok, EncodeVarint64, kMaxVarint64Length. intros Hv.
  rewrite encode_fuel by (simpl; lia). apply length_encode_fuel.
Qed.

(** ** Zigzag *)

Lemma lxor_ones x : u64_ok x → Z.lxor x (2 ^ 64 - 1) = 2 ^ 64 - 1 - x.
Proof.
  unfold u64_ok. intros Hx. change (2 ^ 64 - 1) with (Z.ones 64).
  rewrite Z.sub_nocarry_ldiff.
  - apply Z.bits_inj'. intros i Hi. rewrite Z.lxor_spec, Z.ldiff_spec.
    destruct (Z.lt_ge_cases i 64).
    + rewrite Z.ones_spec_low by lia. by destruct (Z.testbit x i).
    + rewrite Z.ones_spec_high by lia.
      replace (Z.testbit x i) with false; [done|]. symmetry.
      destruct (decide (x = 0)) as [->|]; [apply Z.bits_0|].
      apply Z.bits_above_log2; [lia|]. apply Z.log2_lt_pow2; [lia|].
      eapply Z.lt_le_trans; [apply Hx|]. apply Z.pow_le_mono_r; lia.
  - apply Z.ldiff_ones_r_low; [lia|].
    destruct (decide (x = 0)) as [->|]; [done|]. apply Z.log2_lt_pow2; lia.
Qed.

Lemma zigzag_value l :
  - 2 ^ 63 <= l < 2 ^ 63 → i64ToZigzag l = if 0 <=? l then 2 * l else - 2 * l - 1.
Proof.
  intros Hl. unfold i64ToZigzag.
  rewrite Z.shiftl_mul_pow2, Z.shiftr_div_pow2 by lia. change (2 ^ 1) with 2.
  assert (Hd : u64 (u64 l * 2) = u64 (2 * l)).
  { unfold u64. rewrite Z.mul_mod_idemp_l by lia. f_equal. lia. }
  rewrite Hd. destruct (Z.leb_spec 0 l).
  - rewrite (Z.div_small l) by lia. rewrite !u64_id by (unfold u64_ok; lia).
    apply Z.lxor_0_r.
  - assert (l / 2 ^ 63 = -1) as -> by (Z.div_mod_to_equations; lia).
    assert (u64 (2 * l) = 2 * l + 2 ^ 64) as ->.
    { unfold u64. rewrite <- (Z.mod_add _ 1) by lia. rewrite Z.mod_small; lia. }
    change (u64 (-1)) with (2 ^ 64 - 1). rewrite lxor_ones by (unfold u64_ok; lia). lia.
Qed.

Lemma unzigzag_value n :
  u64_ok n → zigzagToI64 n = if n mod 2 =? 0 then n / 2 else - (n / 2) - 1.
Proof.
  unfold u64_ok. intros Hn. unfold zigzagToI64.
  change 1 with (Z.ones 1) at 2. rewrite Z.land_ones, Z.shiftr_div_pow2 by lia.
  change (2 ^ 1) with 2. pose proof (Z.mod_pos_bound n 2 eq_refl).
  destruct (Z.eqb_spec (n mod 2) 0) as [->|].
  - change (u64 (-0)) with 0. rewrite Z.lxor_0_r. unfold s64.
    rewrite u64_id by (unfold u64_ok; Z.div_mod_to_equations; lia).
    destruct (Z.ltb_spec (n / 2) (2 ^ 63)); [done|]. Z.div_mod_to_equations. lia.
  - assert (n mod 2 = 1) as -> by lia. change (u64 (-1)) with (2 ^ 64 - 1).
    rewrite lxor_ones by (unfold u64_ok; Z.div_mod_to_equations; lia). unfold s64.
    rewrite u64_id by (unfold u64_ok; Z.div_mod_to_equations; lia).
    destruct (Z.ltb_spec (2 ^ 64 - 1 - n / 2) (2 ^ 63)); [|lia].
    Z.div_mod_to_equations. lia.
Qed.

Lemma zigzag_roundtrip l :
  - 2 ^ 63 <= l < 2 ^ 63 → u64_ok (i64ToZigzag l) ∧ zigzagToI64 (i64ToZigzag l) = l.
Proof.
  intros Hl. assert (Hok : u64_ok (i64ToZigzag l)).
  { rewrite zigzag_value by done. unfold u64_ok. destruct (Z.leb_spec 0 l); lia. }
  split; [done|]. rewrite unzigzag_value by done. rewrite zigzag_value by done.
  destruct (Z.leb_spec 0 l).
  - destruct (Z.eqb_spec (2 * l mod 2) 0); Z.div_mod_to_equations; lia.
  - destruct (Z.eqb_spec ((-2 * l - 1) mod 2) 0); Z.div_mod_to_equations; lia.
Qed.

(** ** Truncated input *)

Lemma varint_loop_continue w last shift result p :
  Forall (λ c, 128 <= byte_val c) p → varint_loop w last shift result p = None.
Proof.
  intros Hp. revert shift result. induction Hp as [|c p Hc Hp IH]; intros; simpl; [done|].
  destruct (last <? shift); [done|].
  rewrite (proj2 (Z.eqb_neq _ _)); [apply IH|]. rewrite continue_bit. lia.
Qed.

(** All bytes of an encoding but the last carry the continuation bit. *)
Lemma encode_prefix_continue fuel v p :
  p `prefix_of` encode_varint64_loop fuel v → p ≠ encode_varint64_loop fuel v →
  Forall (λ c, 128 <= byte_val c) p.
Proof.
  revert v p. induction fuel as [|n IH]; intros v p Hp Hne; simpl in *.
  - destruct p as [|c p]; [done|]. apply prefix_cons_inv_1 in Hp as E.
    apply prefix_cons_inv_2, prefix_nil_inv in Hp. by subst.
  - destruct (128 <=? v); destruct p as [|c p]; try done;
      apply prefix_cons_inv_1 in Hp as E; apply prefix_cons_inv_2 in Hp.
    + constructor.
      * rewrite E, byte_of_continue. pose proof (Z.mod_pos_bound (Z.land v 127) 128 eq_refl). lia.
      * apply (IH _ _ Hp). congruence.
    + apply prefix_nil_inv in Hp. by subst.
Qed.

Lemma get_varint32_truncated v p :
  0 <= v < 2 ^ 32 → p `prefix_of` EncodeVarint32 v → p ≠ EncodeVarint32 v → GetVarint32 p = None.
Proof.
  intros Hv. rewrite encode_varint32_loop by done. intros Hp Hne.
  pose proof (encode_prefix_continue _ _ _ Hp Hne) as Hc.
  unfold GetVarint32, GetVarint32Ptr, GetVarint32PtrFallback.
  destruct p as [|c p]; [done|]. apply Forall_cons in Hc as Hcc. destruct Hcc as [H1 _].
  rewrite (proj2 (Z.eqb_neq _ _)) by (rewrite continue_bit; lia).
  by apply varint_loop_continue.
Qed.

Lemma prefix_app_cases {A} (p l k : list A) :
  p `prefix_of` l ++ k → (p `prefix_of` l ∧ p ≠ l) ∨ ∃ k', p = l ++ k' ∧ k' `prefix_of` k.
Proof.
  revert p. induction l as [|x l IH]; intros p Hp; simpl in *; [right; eauto|].
  destruct p as [|y p]; [left; split; [apply prefix_nil|done]|].
  apply prefix_cons_inv_1 in Hp as E. apply prefix_cons_inv_2 in Hp. subst y.
  destruct (IH p Hp) as [[H1 H2]|(k' & -> & Hk)].
  - left. split; [by apply prefix_cons | congruence].
  - right. by exists k'.
Qed.

Lemma get_put_length_prefixed value rest :
  Z.of_nat (length value) < 2 ^ 32 →
  GetLengthPrefixedSlice (PutLengthPrefixedSlice [] value ++ rest) = Some (value, rest).
Proof.
  intros Hl. unfold GetLengthPrefixedSlice, PutLengthPrefixedSlice, PutVarint32.
  assert (Hu : u32 (Z.of_nat (length value)) = Z.of_nat (length value))
    by (apply Z.mod_small; lia).
  rewrite Hu. simpl app. rewrite <- app_assoc, get_encode_varint32 by lia.
  rewrite length_app, (proj2 (Z.leb_le _ _)) by lia.
  by rewrite Nat2Z.id, take_app_length, drop_app_length.
Qed.

(** ** Theorems *)

(** Every number encoding is undone by its decoder, which leaves exactly
    the bytes after the encoding: fixed width, varints, and signed varints in
    zigzag form. *)
Theorem number_encodings_roundtrip rest :
  (∀ v, 0 <= v < 2 ^ 16 → GetFixed16 (PutFixed16 [] v ++ rest) = Some (v, rest)) ∧
  (∀ v, 0 <= v < 2 ^ 32 → GetFixed32 (PutFixed32 [] v ++ rest) = Some (v, rest)) ∧
  (∀ v, 0 <= v < 2 ^ 64 → GetFixed64 (PutFixed64 [] v ++ rest) = Some (v, rest)) ∧
  (∀ v, 0 <= v < 2 ^ 32 → GetVarint32 (PutVarint32 [] v ++ rest) = Some (v, rest)) ∧
  (∀ v, 0 <= v < 2 ^ 64 → GetVarint64 (PutVarint64 [] v ++ rest) = Some (v, rest)
                          ∧ Z.of_nat (length (PutVarint64 [] v)) = VarintLength v
                          ∧ (length (PutVarint64 [] v) <= kMaxVarint64Length)%nat) ∧
  (∀ v, - 2 ^ 63 <= v < 2 ^ 63 →
     GetVarsignedint64 (PutVarsignedint64 [] v ++ rest) = Some (v, rest)).
Proof.
  split_and!; intros v Hv.
  - change (PutFixed16 [] v ++ rest) with (EncodeFixed16 v ++ rest). unfold GetFixed16.
    by rewrite decode_fixed16, Z.mod_small.
  - change (PutFixed32 [] v ++ rest) with (EncodeFixed32 v ++ rest). unfold GetFixed32.
    rewrite decode_fixed32. unfold u32. by rewrite Z.mod_small.
  - change (PutFixed64 [] v ++ rest) with (EncodeFixed64 v ++ rest). unfold GetFixed64.
    by rewrite decode_fixed64, u64_id.
  - by apply get_encode_varint32.
  - split_and!; [by apply get_encode_varint64 | apply length_encode_varint64 |].
    by apply length_encode_varint64_bound.
  - destruct (zigzag_roundtrip v Hv) as [Hok Hz]. unfold GetVarsignedint64, PutVarsignedint64.
    pose proof (get_encode_varint64 (i64ToZigzag v) rest Hok) as Hg.
    unfold GetVarint64 in Hg. simpl app. by rewrite Hg, Hz.
Qed.

(** A length-prefixed slice is read back with what follows it untouched,
    and any truncation of it is rejected. *)
Theorem length_prefixed_roundtrip value :
  Z.of_nat (length value) < 2 ^ 32 →
  (∀ rest, GetLengthPrefixedSlice (PutLengthPrefixedSlice [] value ++ rest) = Some (value, rest)) ∧
  (∀ p, p `prefix_of` PutLengthPrefixedSlice [] value → p ≠ PutLengthPrefixedSlice [] value →
     GetLengthPrefixedSlice p = None).
Proof.
  intros Hl. split; [intros; by apply get_put_length_prefixed|].
  assert (Hu : u32 (Z.of_nat (length value)) = Z.of_nat (length value))
    by (apply Z.mod_small; lia).
  unfold PutLengthPrefixedSlice, PutVarint32, GetLengthPrefixedSlice. rewrite Hu. simpl app.
  intros p Hp Hne. apply prefix_app_cases in Hp as [[Hp Hn]|(k & -> & Hk)].
  - by rewrite (get_varint32_truncated (Z.of_nat (length value)) p) by (done || lia).
  - rewrite get_encode_varint32 by lia.
    destruct (Z.leb_spec (Z.of_nat (length value)) (Z.of_nat (length k))); [|done].
    destruct Hne. destruct Hk as [k2 ->]. rewrite length_app in *.
    destruct k2; [by rewrite app_nil_r | simpl in *; lia].
Qed.

Lemma length_prefixed_roundtrip_witness :
  GetLengthPrefixedSlice (PutLengthPrefixedSlice [] [x61; x62] ++ [x63]) = Some ([x61; x62], [x63]).
Proof.
  refine (proj1 (length_prefixed_roundtrip [x61; x62] _) [x63]).
  vm_compute. reflexivity.
Defined.
