(* ===== verification/BlobIndex.v ===== *)
(** * References to blobs

    Models [BlobIndex] of [src/db/blob/blob_index.h]: the encoding of a value
    that lives in a blob file, and its decoder.  Decoding failures are [None]. *)

From S2P Require Import Prelude Coding.

Inductive BlobType := kInlinedTTL | kBlob | kBlobTTL | kUnknownBlobType.

Record BlobIndex := mkBlobIndex {
  blob_type : BlobType;
  blob_expiration : Z;
  blob_value : list byte;
  blob_file_number : Z;
  blob_offset : Z;
  blob_size : Z;
  blob_compression : Z;
}.

Definition NewBlobIndex : BlobIndex := mkBlobIndex kUnknownBlobType 0 [] 0 0 0 0.

Definition IsInlined (b : BlobIndex) : bool :=
  match blob_type b with kInlinedTTL => true | _ => false end.
Definition HasTTL (b : BlobIndex) : bool :=
  match blob_type b with kInlinedTTL | kBlobTTL => true | _ => false end.

Definition blob_type_of (c : Z) : BlobType :=
  if c =? 0 then kInlinedTTL else if c =? 1 then kBlob else if c =? 2 then kBlobTTL
  else kUnknownBlobType.

(** The part after the optional expiration. *)
Definition decode_blob_location (t : BlobType) (expiration : Z) (slice : list byte) : option BlobIndex :=
  '(number, s1) ← GetVarint64 slice;
  '(offset, s2) ← GetVarint64 s1;
  '(size, s3) ← GetVarint64 s2;
  match s3 with
  | [c] => Some (mkBlobIndex t expiration [] number offset size (byte_val c))
  | _ => None
  end.

(** [DecodeFrom] on a fresh [BlobIndex]; the slice is not empty. *)
Definition DecodeBlobIndex (slice : list byte) : option BlobIndex :=
  match slice with
  | [] => None
  | c :: rest =>
      match blob_type_of (byte_val c) with
      | kUnknownBlobType => None
      | kInlinedTTL =>
          '(expiration, v) ← GetVarint64 rest;
          Some (mkBlobIndex kInlinedTTL expiration v 0 0 0 0)
      | kBlobTTL =>
          '(expiration, s) ← GetVarint64 rest;
          decode_blob_location kBlobTTL expiration s
      | kBlob => decode_blob_location kBlob 0 rest
      end
  end.

Definition EncodeInlinedTTL (expiration : Z) (value : list byte) : list byte :=
  PutVarint64 [x00] expiration ++ value.

Definition EncodeBlob (file_number offset size compression : Z) : list byte :=
  PutVarint64 (PutVarint64 (PutVarint64 [x01] file_number) offset) size ++ [byte_of compression].

Definition EncodeBlobTTL (expiration file_number offset size compression : Z) : list byte :=
  PutVarint64 (PutVarint64 (PutVarint64 (PutVarint64 [x02] expiration) file_number) offset) size
    ++ [byte_of compression].
