(* ===== verification/Comparator.v ===== *)
(** * User key comparators

    Models the [Comparator] interface of [src/include/rocksdb/comparator.h] and
    its built-in implementations in [src/util/comparator.cc].  A comparator's
    [int] result is represented by its sign. *)

From S2P Require Import Prelude Coding.

(** ** The interface *)

Class Comparator := {
  Compare : key → key → comparison;
  FindShortestSeparator : key → key → key;
  FindShortSuccessor : key → key;
  IsSameLengthImmediateSuccessor : key → key → bool;
  timestamp_size : nat;
  CompareWithoutTimestamp : key → bool → key → bool → comparison;
}.

(** The overload with two arguments: both keys carry a timestamp. *)
Definition CompareUser `{Comparator} (a b : key) : comparison :=
  CompareWithoutTimestamp a true b true.

(** What the interface documents and its clients rely on: a total order,
    separators and successors that stay in their ranges, and a comparison
    without timestamps that is an order too and never contradicts the full
    one. *)
Class ComparatorOk (C : Comparator) : Prop := {
  #[global] Compare_ok :: CompareOk Compare;
  separator_ok : ∀ start limit, Compare start limit = Lt →
    Compare start (FindShortestSeparator start limit) ≠ Gt ∧
    Compare (FindShortestSeparator start limit) limit = Lt;
  successor_ok : ∀ k, Compare k (FindShortSuccessor k) ≠ Gt;
  #[global] CompareUser_ok :: CompareOk CompareUser;
  without_timestamp_ok : ∀ a b, Compare a b ≠ Gt → CompareUser a b ≠ Gt;
}.

(** ** Slices *)

Fixpoint difference_offset (a b : key) : nat :=
  match a, b with
  | x :: a', y :: b' => if bool_decide (x = y) then S (difference_offset a' b') else 0
  | _, _ => 0
  end.

(** [key[i]] as a [uint8_t]. *)
Definition uint8_at (k : key) (i : nat) : Z := byte_val (default x00 (k !! i)).

(** [key[i] = b; key.resize(i + 1)] *)
Definition truncate_with (k : key) (i : nat) (b : Z) : key := take i k ++ [byte_of b].

(** ** BytewiseComparatorImpl *)

(** The loop that increments the first byte at or after [i] that is not 0xff. *)
Fixpoint increment_from (fuel : nat) (start : key) (i : nat) : key :=
  match fuel with
  | O => start
  | S n =>
      if (i <? length start)%nat then
        if uint8_at start i <? 255 then truncate_with start i (uint8_at start i + 1)
        else increment_from n start (S i)
      else start
  end.

Definition bytewise_separator (start limit : key) : key :=
  let min_length := Nat.min (length start) (length limit) in
  let diff_index := difference_offset start limit in
  if (min_length <=? diff_index)%nat then start
  else
    let start_byte := uint8_at start diff_index in
    let limit_byte := uint8_at limit diff_index in
    if limit_byte <=? start_byte then start
    else if (diff_index <? length limit - 1)%nat || (start_byte + 1 <? limit_byte)
    then truncate_with start diff_index (start_byte + 1)
    else increment_from (length start) start (S diff_index).

Definition bytewise_successor (k : key) : key := increment_from (length k) k 0.

(** The remaining bytes: 0xff in [s] and 0x00 in [t]. *)
Definition successor_tail (s t : key) : bool :=
  forallb (λ st : byte * byte, (byte_val st.1 =? 255) && (byte_val st.2 =? 0)) (zip s t).

Definition bytewise_immediate_successor (s t : key) : bool :=
  if negb (length s =? length t)%nat || (length s =? 0)%nat then false
  else
    let diff_ind := difference_offset s t in
    if (length s <=? diff_ind)%nat then false
    else
      let byte_s := uint8_at s diff_ind in
      let byte_t := uint8_at t diff_ind in
      if negb (byte_s =? 255) && (byte_s + 1 =? byte_t)
      then successor_tail (drop (S diff_ind) s) (drop (S diff_ind) t)
      else false.

Definition BytewiseComparator : Comparator := {|
  Compare := slice_compare;
  FindShortestSeparator := bytewise_separator;
  FindShortSuccessor := bytewise_successor;
  IsSameLengthImmediateSuccessor := bytewise_immediate_successor;
  timestamp_size := 0;
  CompareWithoutTimestamp := λ a _ b _, slice_compare a b;
|}.

(** ** ReverseBytewiseComparatorImpl *)

Definition reverse_separator (start limit : key) : key :=
  let min_length := Nat.min (length start) (length limit) in
  let diff_index := difference_offset start limit in
  if (diff_index =? min_length)%nat then start
  else
    let start_byte := uint8_at start diff_index in
    let limit_byte := uint8_at limit diff_index in
    if (limit_byte <? start_byte) && (diff_index <? length start - 1)%nat
    then take (S diff_index) start else start.

Definition ReverseBytewiseComparator : Comparator := {|
  Compare := λ a b, CompOpp (slice_compare a b);
  FindShortestSeparator := reverse_separator;
  FindShortSuccessor := λ k, k;
  IsSameLengthImmediateSuccessor := λ _ _, false;
  timestamp_size := 0;
  CompareWithoutTimestamp := λ a _ b _, CompOpp (slice_compare a b);
|}.

(** ** ComparatorWithU64TsImpl *)

Definition StripTimestampFromUserKey (user_key : key) (ts_sz : nat) : key :=
  take (length user_key - ts_sz) user_key.

Definition ExtractTimestampFromUserKey (user_key : key) (ts_sz : nat) : key :=
  drop (length user_key - ts_sz) user_key.

Definition CompareTimestamp (ts1 ts2 : key) : comparison :=
  let lhs := DecodeFixed64 ts1 in
  let rhs := DecodeFixed64 ts2 in
  if lhs <? rhs then Lt else if rhs <? lhs then Gt else Eq.

Definition u64ts_compare_without (cmp_without_ts : Comparator) (a : key) (a_has_ts : bool)
    (b : key) (b_has_ts : bool) : comparison :=
  let lhs := if a_has_ts then StripTimestampFromUserKey a 8 else a in
  let rhs := if b_has_ts then StripTimestampFromUserKey b 8 else b in
  Compare lhs rhs.

Definition u64ts_compare (cmp_without_ts : Comparator) (a b : key) : comparison :=
  let ret := u64ts_compare_without cmp_without_ts a true b true in
  match ret with
  | Eq => CompOpp (CompareTimestamp (ExtractTimestampFromUserKey a 8)
                     (ExtractTimestampFromUserKey b 8))
  | _ => ret
  end.

Definition ComparatorWithU64Ts (cmp_without_ts : Comparator) : Comparator := {|
  Compare := u64ts_compare cmp_without_ts;
  FindShortestSeparator := λ start _, start;
  FindShortSuccessor := λ k, k;
  IsSameLengthImmediateSuccessor := λ _ _, false;
  timestamp_size := 8;
  CompareWithoutTimestamp := u64ts_compare_without cmp_without_ts;
|}.

Definition DecodeU64Ts (ts : key) : option Z :=
  if (length ts =? 8)%nat then Some (DecodeFixed64 ts) else None.

Definition EncodeU64Ts (ts : Z) : key := EncodeFixed64 ts.
Definition MaxU64Ts : key := replicate 8 xff.
Definition MinU64Ts : key := replicate 8 x00.

(** ** The byte comparators conform to the interface *)

Lemma difference_offset_spec a b :
  ∃ p a' b', a = p ++ a' ∧ b = p ++ b' ∧ length p = difference_offset a b ∧
    match a', b' with x :: _, y :: _ => x ≠ y | _, _ => True end.
Proof.
  revert b. induction a as [|x a IH]; intros [|y b].
  1-3: by eexists [], _, _.
  simpl. case_bool_decide as E.
  - destruct (IH b) as (p & a' & b' & -> & -> & Hl & Hd). subst y.
    exists (x :: p), a', b'. simpl. by rewrite Hl.
  - by exists [], (x :: a), (y :: b).
Qed.

Lemma truncate_greater k j :
  (j < length k)%nat → uint8_at k j < 255 →
  slice_compare k (truncate_with k j (uint8_at k j + 1)) = Lt.
Proof.
  intros Hj Hb. destruct (lookup_lt_is_Some_2 k j Hj) as [c Hc].
  unfold truncate_with, uint8_at in *. rewrite Hc in *. simpl in *.
  rewrite <- (take_drop_middle k j c Hc) at 1. apply slice_compare_diverge.
  pose proof (byte_val_range c). rewrite byte_val_of, Z.mod_small by lia. lia.
Qed.

Lemma increment_from_spec fuel k i :
  increment_from fuel k i = k ∨
  ∃ j, (i <= j < length k)%nat ∧ uint8_at k j < 255 ∧
    increment_from fuel k i = truncate_with k j (uint8_at k j + 1).
Proof.
  revert i. induction fuel as [|n IH]; intros i; simpl; [by left|].
  destruct (Nat.ltb_spec i (length k)); [|by left].
  destruct (Z.ltb_spec (uint8_at k i) 255); [right; exists i; split_and!; done|].
  destruct (IH (S i)) as [->|(j & Hj & Hb & ->)]; [by left|].
  right. exists j. split_and!; [lia..|done|done].
Qed.

Lemma increment_from_ge fuel k i :
  slice_compare k (increment_from fuel k i) ≠ Gt ∧
  (length (increment_from fuel k i) <= length k)%nat.
Proof.
  destruct (increment_from_spec fuel k i) as [->|(j & Hj & Hb & ->)].
  - by rewrite slice_compare_refl.
  - rewrite truncate_greater by lia. split; [done|].
    unfold truncate_with. rewrite length_app, length_take. simpl. lia.
Qed.

(** Incrementing past position [length p] keeps the bytes up to it. *)
Lemma increment_from_below p x a y b fuel :
  byte_val x < byte_val y →
  slice_compare (increment_from fuel (p ++ x :: a) (S (length p))) (p ++ y :: b) = Lt.
Proof.
  intros Hxy. destruct (increment_from_spec fuel (p ++ x :: a) (S (length p)))
    as [->|(j & Hj & _ & ->)].
  - by apply slice_compare_diverge.
  - unfold truncate_with. rewrite take_app_ge by lia.
    destruct (j - length p)%nat eqn:E; [lia|]. simpl. rewrite <- app_assoc.
    by apply slice_compare_diverge.
Qed.

Lemma uint8_at_middle p x a : uint8_at (p ++ x :: a) (length p) = byte_val x.
Proof. unfold uint8_at. by rewrite list_lookup_middle. Qed.

Lemma bytewise_separator_ok start limit :
  slice_compare start limit = Lt →
  slice_compare start (bytewise_separator start limit) ≠ Gt ∧
  slice_compare (bytewise_separator start limit) limit = Lt ∧
  (length (bytewise_separator start limit) <= length start)%nat.
Proof.
  intros Hlt. unfold bytewise_separator.
  destruct (difference_offset_spec start limit) as (p & a & b & Hs & Hl & <- & Hd).
  assert (Hsame : slice_compare start start ≠ Gt ∧ slice_compare start limit = Lt
    ∧ (length start <= length start)%nat) by (by rewrite slice_compare_refl).
  destruct (Nat.leb_spec (length start `min` length limit) (length p)) as [|Hmin]; [done|].
  destruct a as [|x a]; [rewrite Hs, length_app in Hmin; simpl in *; lia|].
  destruct b as [|y b]; [rewrite Hl, length_app in Hmin; simpl in *; lia|].
  rewrite Hs, Hl, !uint8_at_middle. rewrite <- Hs, <- Hl.
  destruct (Z.leb_spec (byte_val y) (byte_val x)) as [|Hxy]; [done|].
  pose proof (byte_val_range x). pose proof (byte_val_range y).
  destruct (_ || _) eqn:E.
  - rewrite orb_true_iff, Nat.ltb_lt, Z.ltb_lt in E. unfold truncate_with.
    rewrite Hs, take_app_length. split_and!.
    + rewrite slice_compare_diverge; [done|]. rewrite byte_val_of, Z.mod_small; lia.
    + rewrite Hl. destruct (Z.lt_ge_cases (byte_val x + 1) (byte_val y)).
      * apply slice_compare_diverge. rewrite byte_val_of, Z.mod_small; lia.
      * assert (byte_val x + 1 = byte_val y) as -> by lia. rewrite byte_of_val.
        destruct b as [|z b]; [rewrite Hl, length_app in E; simpl in *; lia|].
        rewrite slice_compare_app. simpl. by rewrite Z.compare_refl.
    + rewrite !length_app. simpl. lia.
  - destruct (increment_from_ge (length start) start (S (length p))) as [Hge Hle].
    split_and!; [done | | done].
    rewrite Hs at 2. rewrite Hl. by apply increment_from_below.
Qed.

#[export] Instance bytewise_ok : ComparatorOk BytewiseComparator.
Proof.
  split; [apply slice_compare_ok| | |apply slice_compare_ok|done].
  - intros start limit H. by destruct (bytewise_separator_ok start limit H) as (? & ? & _).
  - intros k. simpl. apply increment_from_ge.
Qed.

(** ** The reverse comparator *)

Lemma reverse_separator_ok start limit :
  slice_compare limit start = Lt →
  slice_compare (reverse_separator start limit) start ≠ Gt ∧
  slice_compare limit (reverse_separator start limit) = Lt ∧
  (length (reverse_separator start limit) <= length start)%nat.
Proof.
  intros Hlt. unfold reverse_separator.
  destruct (difference_offset_spec start limit) as (p & a & b & Hs & Hl & <- & Hd).
  assert (Hsame : slice_compare start start ≠ Gt ∧ slice_compare limit start = Lt
    ∧ (length start <= length start)%nat) by (by rewrite slice_compare_refl).
  destruct (Nat.eqb_spec (length p) (length start `min` length limit)) as [|Hmin]; [done|].
  destruct (_ && _) eqn:E; [|done]. rewrite andb_true_iff, Z.ltb_lt, Nat.ltb_lt in E.
  destruct E as [Hb Hi].
  destruct a as [|x a].
  { rewrite Hs, Hl, !length_app in Hmin. simpl in Hmin. lia. }
  destruct b as [|y b].
  { rewrite Hs, Hl, !length_app in Hmin. simpl in Hmin. lia. }
  rewrite Hs, Hl, !uint8_at_middle in Hb. rewrite Hs, Hl, take_app_ge by lia.
  replace (S (length p) - length p)%nat with 1%nat by lia. simpl. split_and!.
  - rewrite slice_compare_app. simpl. rewrite Z.compare_refl. by destruct a.
  - by apply slice_compare_diverge.
  - rewrite !length_app. simpl. lia.
Qed.

Lemma reverse_compare_ok : CompareOk (λ a b, CompOpp (slice_compare a b)).
Proof.
  split; [intros; by rewrite (slice_compare_opp a b)|].
  intros a b c. rewrite <- !slice_compare_opp. intros Hab Hbc.
  by apply (compare_trans slice_compare c b a).
Qed.

#[export] Instance reverse_bytewise_ok : ComparatorOk ReverseBytewiseComparator.
Proof.
  split; [apply reverse_compare_ok| | |apply reverse_compare_ok|done].
  - simpl. intros start limit. rewrite <- !slice_compare_opp. intros H.
    by destruct (reverse_separator_ok start limit H) as (? & ? & _).
  - intros k. simpl. by rewrite slice_compare_refl.
Qed.

(** ** Timestamps *)

Lemma compare_timestamp_Z t1 t2 : CompareTimestamp t1 t2 = (DecodeFixed64 t1 ?= DecodeFixed64 t2).
Proof.
  unfold CompareTimestamp. destruct (Z.compare_spec (DecodeFixed64 t1) (DecodeFixed64 t2)) as [E|E|E].
  - by rewrite E, Z.ltb_irrefl.
  - by rewrite (proj2 (Z.ltb_lt _ _) E).
  - rewrite (proj2 (Z.ltb_ge _ _)) by lia. by rewrite (proj2 (Z.ltb_lt _ _) E).
Qed.

Lemma u64ts_compare_lex C a b :
  u64ts_compare C a b = lex_compare
    (cmp_on (λ k, StripTimestampFromUserKey k 8) (@Compare C))
    (cmp_flip (cmp_on (λ k, DecodeFixed64 (ExtractTimestampFromUserKey k 8)) Z.compare)) a b.
Proof.
  unfold u64ts_compare, lex_compare, cmp_flip, cmp_on, u64ts_compare_without.
  destruct (Compare _ _); [|done..]. by rewrite compare_timestamp_Z, <- Z.compare_antisym.
Qed.

Lemma u64ts_ok C : ComparatorOk C → ComparatorOk (ComparatorWithU64Ts C).
Proof.
  intros HC. assert (Hok : CompareOk (u64ts_compare C)).
  { exact (compare_ok_ext _ _ (u64ts_compare_lex C) _). }
  assert (Hus : CompareOk (@CompareUser (ComparatorWithU64Ts C))).
  { exact (cmp_on_ok (λ k, StripTimestampFromUserKey k 8) (@Compare C) _). }
  split; [exact Hok| | |exact Hus|];
    cbn [Compare FindShortestSeparator FindShortSuccessor ComparatorWithU64Ts].
  - intros start limit H. by rewrite (compare_refl (u64ts_compare C)).
  - intros k. by rewrite (compare_refl (u64ts_compare C)).
  - intros a b. unfold u64ts_compare, CompareUser, CompareWithoutTimestamp. simpl.
    by destruct (u64ts_compare_without C a true b true).
Qed.

(** ** Immediate successors

    Strings of one length compare like the numbers they write in base 256. *)

Definition base256 (k : key) : Z := foldl (λ acc b, acc * 256 + byte_val b) 0 k.

Lemma base256_app_acc k acc :
  foldl (λ acc b, acc * 256 + byte_val b) acc k = acc * 256 ^ Z.of_nat (length k) + base256 k.
Proof.
  unfold base256. revert acc. induction k as [|b k IH]; intros acc.
  - simpl. lia.
  - cbn [foldl length]. rewrite (IH (acc * 256 + byte_val b)), (IH (0 * 256 + byte_val b)).
    rewrite Nat2Z.inj_succ, Z.pow_succ_r by lia. lia.
Qed.

Lemma base256_cons b k : base256 (b :: k) = byte_val b * 256 ^ Z.of_nat (length k) + base256 k.
Proof. unfold base256 at 1. simpl. by rewrite base256_app_acc. Qed.

Lemma base256_app a b : base256 (a ++ b) = base256 a * 256 ^ Z.of_nat (length b) + base256 b.
Proof. unfold base256 at 1. by rewrite foldl_app, base256_app_acc. Qed.

Lemma base256_range k : 0 <= base256 k < 256 ^ Z.of_nat (length k).
Proof.
  induction k as [|b k IH]; [unfold base256; simpl; lia|].
  rewrite base256_cons. cbn [length]. rewrite Nat2Z.inj_succ, Z.pow_succ_r by lia.
  pose proof (byte_val_range b). nia.
Qed.

Lemma slice_compare_base256 a b :
  length a = length b → slice_compare a b = (base256 a ?= base256 b).
Proof.
  revert b. induction a as [|x a IH]; intros [|y b] Hl; simpl in *; try done.
  rewrite !base256_cons. injection Hl as Hl. rewrite <- Hl.
  pose proof (base256_range a). pose proof (base256_range b). rewrite <- Hl in *.
  destruct (Z.compare_spec (byte_val x) (byte_val y)) as [E|E|E].
  - rewrite IH, E by done. symmetry. apply Z.add_compare_mono_l.
  - symmetry. apply Z.compare_lt_iff. nia.
  - symmetry. apply Z.compare_gt_iff. nia.
Qed.

Lemma successor_tail_values s t :
  length s = length t → successor_tail s t = true →
  base256 s = 256 ^ Z.of_nat (length s) - 1 ∧ base256 t = 0.
Proof.
  revert t. induction s as [|x s IH]; intros [|y t] Hl Hs; try done.
  unfold successor_tail in Hs. simpl in Hs. rewrite !andb_true_iff, !Z.eqb_eq in Hs.
  destruct Hs as [[Hx Hy] Hs]. simpl in Hx, Hy. injection Hl as Hl.
  destruct (IH t Hl Hs) as [Es Et]. rewrite !base256_cons, Hx, Hy, Es, Et.
  cbn [length]. rewrite Nat2Z.inj_succ, Z.pow_succ_r by lia. lia.
Qed.

Lemma immediate_successor_value s t :
  bytewise_immediate_successor s t = true → length s = length t ∧ base256 t = base256 s + 1.
Proof.
  unfold bytewise_immediate_successor.
  destruct (Nat.eqb_spec (length s) (length t)) as [Hl|]; [|done].
  destruct (Nat.eqb_spec (length s) 0); [done|]. simpl.
  destruct (difference_offset_spec s t) as (p & a & b & Hs & Ht & <- & _).
  destruct (Nat.leb_spec (length s) (length p)) as [|Hp]; [done|].
  destruct a as [|x a]; [rewrite Hs, app_nil_r in Hp; lia|].
  destruct b as [|y b]; [rewrite Hl, Ht, app_nil_r in Hp; lia|].
  assert (Hab : length a = length b).
  { rewrite Hs, Ht, !length_app in Hl. simpl in Hl. lia. }
  assert (Hsp : ∀ c k, drop (S (length p)) (p ++ c :: k) = k).
  { intros. by rewrite drop_app_ge, Nat.sub_succ_l, Nat.sub_diag by lia. }
  rewrite Hs, Ht, !uint8_at_middle, !Hsp. destruct (_ && _) eqn:E; [|done].
  rewrite andb_true_iff, Z.eqb_eq in E. destruct E as [_ E].
  intros Htl%successor_tail_values; [|done]. destruct Htl as [Ea Eb].
  split; [rewrite !length_app; simpl; lia|].
  rewrite !base256_app, !base256_cons. cbn [length]. rewrite Ea, Eb, <- E, Hab. lia.
Qed.

(** ** Theorems *)

(** The built-in comparators keep the contract of the interface: each is
    a total order, the separator of [start < limit] lies in [start, limit), a
    short successor is not before its key, and neither is longer than the key
    it shortens; adding 64-bit timestamps to a conforming comparator gives a
    conforming comparator. *)
Theorem builtin_comparators_conform :
  ComparatorOk BytewiseComparator ∧ ComparatorOk ReverseBytewiseComparator ∧
  (∀ C, ComparatorOk C → ComparatorOk (ComparatorWithU64Ts C)) ∧
  (∀ k, (length (bytewise_successor k) <= length k)%nat) ∧
  (∀ start limit, slice_compare start limit = Lt →
     (length (bytewise_separator start limit) <= length start)%nat) ∧
  (∀ start limit, slice_compare limit start = Lt →
     (length (reverse_separator start limit) <= length start)%nat).
Proof.
  split_and!; [apply bytewise_ok | apply reverse_bytewise_ok | apply u64ts_ok | | |].
  - intros k. apply increment_from_ge.
  - intros start limit H. apply (bytewise_separator_ok start limit H).
  - intros start limit H. apply (reverse_separator_ok start limit H).
Qed.

(** [IsSameLengthImmediateSuccessor s t] holds only for the next string
    of the same length: [s] is before [t] and no string of that length lies
    strictly between them. *)
Theorem immediate_successor_correct s t :
  bytewise_immediate_successor s t = true →
  slice_compare s t = Lt ∧ length s = length t ∧
  ∀ u, length u = length s → ¬ (slice_compare s u = Lt ∧ slice_compare u t = Lt).
Proof.
  intros H%immediate_successor_value. destruct H as [Hl Hv]. split_and!; [|done|].
  - rewrite slice_compare_base256 by done. apply Z.compare_lt_iff. lia.
  - intros u Hu. rewrite !slice_compare_base256 by congruence. rewrite !Z.compare_lt_iff. lia.
Qed.

Lemma immediate_successor_correct_witness :
  slice_compare [x61; xff] [x62; x00] = Lt ∧ length [x61; xff] = length [x62; x00].
Proof.
  destruct (immediate_successor_correct [x61; xff] [x62; x00]) as (H1 & H2 & _).
  - vm_compute. reflexivity.
  - split; [exact H1 | exact H2].
Defined.
