(* ===== verification/DbFormat.v ===== *)
(** * Internal keys

    Models [src/db/dbformat.h], [src/db/dbformat.cc] and
    [src/db/lookup_key.h]: an internal key is a user key followed by eight
    bytes holding a sequence number and a value type.  A [std::string*] that a
    function appends to is its first argument; asserts are the preconditions of
    the theorems. *)

From S2P Require Import Prelude Coding Comparator.

(** ** Value types *)

(** [ValueType] is an enumeration over [unsigned char]; values read from disk
    are cast to it unchecked, so it is modelled by the byte's value. *)
Definition kTypeDeletion : Z := 0.
Definition kTypeValue : Z := 1.
Definition kTypeMerge : Z := 2.
Definition kTypeSingleDeletion : Z := 7.
Definition kTypeRangeDeletion : Z := 15.
Definition kTypeBlobIndex : Z := 17.
Definition kTypeDeletionWithTimestamp : Z := 20.
Definition kTypeWideColumnEntity : Z := 22.
Definition kTypeValuePreferredSeqno : Z := 24.
Definition kTypeMaxValid : Z := 26.
Definition kValueTypeForSeek : Z := kTypeValuePreferredSeqno.
Definition kValueTypeForSeekForPrev : Z := kTypeDeletion.

Definition IsValueType (t : Z) : bool :=
  (t <=? kTypeMerge) || (kTypeSingleDeletion =? t) || (kTypeBlobIndex =? t) ||
  (kTypeDeletionWithTimestamp =? t) || (kTypeWideColumnEntity =? t) ||
  (kTypeValuePreferredSeqno =? t).

Definition IsExtendedValueType (t : Z) : bool :=
  IsValueType t || (t =? kTypeRangeDeletion) || (t =? kTypeMaxValid).

Inductive EntryType :=
  | kEntryPut | kEntryDelete | kEntrySingleDelete | kEntryMerge | kEntryRangeDeletion
  | kEntryBlobIndex | kEntryDeleteWithTimestamp | kEntryWideColumnEntity | kEntryTimedPut
  | kEntryOther.

Definition GetEntryType (value_type : Z) : EntryType :=
  if value_type =? kTypeValue then kEntryPut
  else if value_type =? kTypeDeletion then kEntryDelete
  else if value_type =? kTypeDeletionWithTimestamp then kEntryDeleteWithTimestamp
  else if value_type =? kTypeSingleDeletion then kEntrySingleDelete
  else if value_type =? kTypeMerge then kEntryMerge
  else if value_type =? kTypeRangeDeletion then kEntryRangeDeletion
  else if value_type =? kTypeBlobIndex then kEntryBlobIndex
  else if value_type =? kTypeWideColumnEntity then kEntryWideColumnEntity
  else if value_type =? kTypeValuePreferredSeqno then kEntryTimedPut
  else kEntryOther.

Definition kMaxSequenceNumber : Z := 2 ^ 56 - 1.
Definition kDisableGlobalSequenceNumber : Z := 2 ^ 64 - 1.
Definition kNumInternalBytes : nat := 8.

(** ** Packing *)

Record ParsedInternalKey := mkParsed {
  user_key : key;
  sequence : Z;
  type : Z;
}.

Definition InternalKeyEncodingLength (k : ParsedInternalKey) : nat :=
  (length (user_key k) + kNumInternalBytes)%nat.

Definition PackSequenceAndType (seq t : Z) : Z := Z.lor (u64 (Z.shiftl seq 8)) t.

Definition UnPackSequenceAndType (packed : Z) : Z * Z := (Z.shiftr packed 8, Z.land packed 255).

Definition kRangeTombstoneSentinel : Z := PackSequenceAndType kMaxSequenceNumber kTypeRangeDeletion.

Definition AppendInternalKey (result : key) (k : ParsedInternalKey) : key :=
  PutFixed64 (result ++ user_key k) (PackSequenceAndType (sequence k) (type k)).

Definition AppendInternalKeyFooter (result : key) (s t : Z) : key :=
  PutFixed64 result (PackSequenceAndType s t).

Definition ExtractUserKey (internal_key : key) : key :=
  take (length internal_key - kNumInternalBytes) internal_key.

(** [internal_key.data() + internal_key.size() - kNumInternalBytes] *)
Definition footer_bytes (internal_key : key) : key :=
  drop (length internal_key - kNumInternalBytes) internal_key.

Definition ExtractInternalKeyFooter (internal_key : key) : Z :=
  DecodeFixed64 (footer_bytes internal_key).

Definition ExtractValueType (internal_key : key) : Z :=
  Z.land (ExtractInternalKeyFooter internal_key) 255.

Definition GetInternalKeySeqno (internal_key : key) : Z :=
  Z.shiftr (DecodeFixed64 (footer_bytes internal_key)) 8.

(** [None] is [Status::Corruption]. *)
Definition ParseInternalKey (internal_key : key) : option ParsedInternalKey :=
  let n := length internal_key in
  if (n <? kNumInternalBytes)%nat then None
  else
    let num := DecodeFixed64 (footer_bytes internal_key) in
    let t := Z.land num 255 in
    let result := mkParsed (take (n - kNumInternalBytes) internal_key) (Z.shiftr num 8) t in
    if IsExtendedValueType t then Some result else None.

Definition UpdateInternalKey (ikey : key) (seq t : Z) : key :=
  take (length ikey - kNumInternalBytes) ikey ++
  EncodeFixed64 (Z.lor (u64 (Z.shiftl seq 8)) t).

(** The constructor and the setters of [InternalKey]. *)
Definition InternalKey (uk : key) (s t : Z) : key := AppendInternalKey [] (mkParsed uk s t).
Definition MaxPossibleForUserKey (uk : key) : key := AppendInternalKey [] (mkParsed uk 0 0).
Definition MinPossibleForUserKey (uk : key) : key :=
  AppendInternalKey [] (mkParsed uk kMaxSequenceNumber kValueTypeForSeek).
Definition ConvertFromUserKey (rep_ : key) (s t : Z) : key := AppendInternalKeyFooter rep_ s t.
Definition Valid (rep_ : key) : bool :=
  match ParseInternalKey rep_ with Some _ => true | None => false end.

(** ** Timestamps inside keys *)

Definition AppendInternalKeyWithDifferentTimestamp (result : key) (k : ParsedInternalKey)
    (ts : key) : key :=
  PutFixed64 (result ++ take (length (user_key k) - length ts) (user_key k) ++ ts)
    (PackSequenceAndType (sequence k) (type k)).

Definition AppendUserKeyWithDifferentTimestamp (result k ts : key) : key :=
  result ++ take (length k - length ts) k ++ ts.

Definition AppendKeyWithMinTimestamp (result k : key) (ts_sz : nat) : key :=
  result ++ k ++ replicate ts_sz x00.
Definition AppendKeyWithMaxTimestamp (result k : key) (ts_sz : nat) : key :=
  result ++ k ++ replicate ts_sz xff.
Definition AppendUserKeyWithMinTimestamp (result k : key) (ts_sz : nat) : key :=
  result ++ take (length k - ts_sz) k ++ replicate ts_sz x00.
Definition AppendUserKeyWithMaxTimestamp (result k : key) (ts_sz : nat) : key :=
  let kTsMax := replicate 9 xff in
  result ++ take (length k - ts_sz) k ++
  (if (ts_sz <? length kTsMax)%nat then take ts_sz kTsMax else replicate ts_sz xff).

Definition PadInternalKeyWithMinTimestamp (result k : key) (ts_sz : nat) : key :=
  let user_key_size := (length k - kNumInternalBytes)%nat in
  result ++ take user_key_size k ++ replicate ts_sz x00 ++ drop user_key_size k.
Definition PadInternalKeyWithMaxTimestamp (result k : key) (ts_sz : nat) : key :=
  let user_key_size := (length k - kNumInternalBytes)%nat in
  result ++ take user_key_size k ++ replicate ts_sz xff ++ drop user_key_size k.
Definition StripTimestampFromInternalKey (result k : key) (ts_sz : nat) : key :=
  result ++ take (length k - kNumInternalBytes - ts_sz) k ++ drop (length k - kNumInternalBytes) k.
Definition ReplaceInternalKeyWithMinTimestamp (result k : key) (ts_sz : nat) : key :=
  result ++ take (length k - kNumInternalBytes - ts_sz) k ++ replicate ts_sz x00 ++
  drop (length k - kNumInternalBytes) k.

Definition ExtractUserKeyAndStripTimestamp (internal_key : key) (ts_sz : nat) : key :=
  take (length internal_key - (kNumInternalBytes + ts_sz)) internal_key.
Definition ExtractTimestampFromKey (internal_key : key) (ts_sz : nat) : key :=
  take ts_sz (drop (length internal_key - ts_sz - kNumInternalBytes) internal_key).

(** ** InternalKeyComparator *)

(** [if (anum > bnum) r = -1; else if (anum < bnum) r = +1;] *)
Definition compare_desc (anum bnum : Z) : comparison :=
  if bnum <? anum then Lt else if anum <? bnum then Gt else Eq.

Definition InternalKeyCompare `{Comparator} (akey bkey : key) : comparison :=
  match Compare (ExtractUserKey akey) (ExtractUserKey bkey) with
  | Eq => compare_desc (DecodeFixed64 (footer_bytes akey)) (DecodeFixed64 (footer_bytes bkey))
  | r => r
  end.

Definition CompareKeySeq `{Comparator} (akey bkey : key) : comparison :=
  match Compare (ExtractUserKey akey) (ExtractUserKey bkey) with
  | Eq => compare_desc (Z.shiftr (DecodeFixed64 (footer_bytes akey)) 8)
                       (Z.shiftr (DecodeFixed64 (footer_bytes bkey)) 8)
  | r => r
  end.

Definition CompareKeySeqParsed `{Comparator} (a : ParsedInternalKey) (b : key) : comparison :=
  match Compare (user_key a) (ExtractUserKey b) with
  | Eq => compare_desc (sequence a) (Z.shiftr (DecodeFixed64 (footer_bytes b)) 8)
  | r => r
  end.

Definition CompareGlobalSeqno `{Comparator} (a : key) (a_global_seqno : Z)
    (b : key) (b_global_seqno : Z) : comparison :=
  match Compare (ExtractUserKey a) (ExtractUserKey b) with
  | Eq =>
      let a_footer := if a_global_seqno =? kDisableGlobalSequenceNumber
                      then ExtractInternalKeyFooter a
                      else PackSequenceAndType a_global_seqno (ExtractValueType a) in
      let b_footer := if b_global_seqno =? kDisableGlobalSequenceNumber
                      then ExtractInternalKeyFooter b
                      else PackSequenceAndType b_global_seqno (ExtractValueType b) in
      compare_desc a_footer b_footer
  | r => r
  end.

Definition CompareParsed `{Comparator} (a b : ParsedInternalKey) : comparison :=
  match Compare (user_key a) (user_key b) with
  | Eq =>
      if sequence b <? sequence a then Lt
      else if sequence a <? sequence b then Gt
      else if type b <? type a then Lt
      else if type a <? type b then Gt
      else Eq
  | r => r
  end.

Definition CompareSliceParsed `{Comparator} (a : key) (b : ParsedInternalKey) : comparison :=
  match Compare (ExtractUserKey a) (user_key b) with
  | Eq => compare_desc (DecodeFixed64 (footer_bytes a))
                       (Z.lor (u64 (Z.shiftl (sequence b) 8)) (type b))
  | r => r
  end.

Definition CompareParsedSlice `{Comparator} (a : ParsedInternalKey) (b : key) : comparison :=
  CompOpp (CompareSliceParsed b a).

(** ** LookupKey *)

Record LookupKey := mkLookupKey {
  lk_prefix : key;  (* [start_, kstart_) *)
  lk_rest : key;    (* [kstart_, end_) *)
}.

Definition NewLookupKey (uk : key) (s : Z) (ts : option key) : LookupKey :=
  let usize := Z.of_nat (length uk) in
  let ts_sz := match ts with None => 0 | Some t => Z.of_nat (length t) end in
  mkLookupKey (EncodeVarint32 (u32 (usize + ts_sz + 8)))
    (uk ++ match ts with None => [] | Some t => t end ++
     EncodeFixed64 (PackSequenceAndType s kValueTypeForSeek)).

Definition memtable_key (k : LookupKey) : key := lk_prefix k ++ lk_rest k.
Definition internal_key (k : LookupKey) : key := lk_rest k.
Definition lookup_user_key (k : LookupKey) : key := take (length (lk_rest k) - 8) (lk_rest k).

(** ** Packing and unpacking *)

Definition seq_ok (seq : Z) : Prop := 0 <= seq <= kMaxSequenceNumber.
Definition type_ok (t : Z) : Prop := 0 <= t < 256.
Definition parsed_ok (k : ParsedInternalKey) : Prop := seq_ok (sequence k) ∧ type_ok (type k).

Lemma pack_value seq t :
  seq_ok seq → type_ok t → PackSequenceAndType seq t = seq * 256 + t ∧
  u64_ok (PackSequenceAndType seq t).
Proof.
  unfold seq_ok, type_ok, PackSequenceAndType, kMaxSequenceNumber. intros Hs Ht.
  rewrite Z.shiftl_mul_pow2, u64_id by (unfold u64_ok; lia).
  rewrite Z.lor_comm, lor_mul_add by lia. unfold u64_ok. lia.
Qed.

Lemma unpack_value num :
  u64_ok num → Z.shiftr num 8 = num / 256 ∧ Z.land num 255 = num mod 256.
Proof.
  intros _. rewrite Z.shiftr_div_pow2 by lia. change 255 with (Z.ones 8).
  by rewrite Z.land_ones by lia.
Qed.

Lemma unpack_pack seq t :
  seq_ok seq → type_ok t → UnPackSequenceAndType (PackSequenceAndType seq t) = (seq, t).
Proof.
  intros Hs Ht. destruct (pack_value seq t Hs Ht) as [Hv Hok].
  unfold UnPackSequenceAndType. destruct (unpack_value _ Hok) as [-> ->]. rewrite Hv.
  unfold type_ok in Ht. f_equal; Z.div_mod_to_equations; lia.
Qed.

Lemma pack_unpack num :
  u64_ok num → PackSequenceAndType (Z.shiftr num 8) (Z.land num 255) = num ∧
  seq_ok (Z.shiftr num 8) ∧ type_ok (Z.land num 255).
Proof.
  intros Hn. destruct (unpack_value num Hn) as [-> ->]. unfold u64_ok in Hn.
  assert (Hs : seq_ok (num / 256)) by (unfold seq_ok, kMaxSequenceNumber; Z.div_mod_to_equations; lia).
  assert (Ht : type_ok (num mod 256)) by (unfold type_ok; apply Z.mod_pos_bound; lia).
  split; [|done]. destruct (pack_value _ _ Hs Ht) as [-> _].
  rewrite (Z.div_mod num 256) at 3 by lia. lia.
Qed.

(** ** The parts of an encoded key *)

Lemma length_encode_fixed64 v : length (EncodeFixed64 v) = 8%nat.
Proof. done. Qed.

Lemma extract_user_key uk footer :
  length footer = 8%nat → ExtractUserKey (uk ++ footer) = uk.
Proof.
  intros Hf. unfold ExtractUserKey, kNumInternalBytes. rewrite length_app, Hf.
  by rewrite Nat.add_sub, take_app_length.
Qed.

Lemma footer_bytes_app uk footer : length footer = 8%nat → footer_bytes (uk ++ footer) = footer.
Proof.
  intros Hf. unfold footer_bytes, kNumInternalBytes. rewrite length_app, Hf.
  by rewrite Nat.add_sub, drop_app_length.
Qed.

Lemma split_internal_key ikey :
  (8 <= length ikey)%nat →
  ikey = ExtractUserKey ikey ++ footer_bytes ikey ∧ length (footer_bytes ikey) = 8%nat.
Proof.
  intros Hl. unfold ExtractUserKey, footer_bytes, kNumInternalBytes. rewrite take_drop.
  split; [done|]. rewrite length_drop. lia.
Qed.

Lemma append_internal_key k :
  AppendInternalKey [] k = user_key k ++ EncodeFixed64 (PackSequenceAndType (sequence k) (type k)).
Proof. done. Qed.

Lemma encoded_user_key k : ExtractUserKey (AppendInternalKey [] k) = user_key k.
Proof. by rewrite append_internal_key, extract_user_key. Qed.

Lemma encoded_footer k :
  parsed_ok k →
  DecodeFixed64 (footer_bytes (AppendInternalKey [] k)) = PackSequenceAndType (sequence k) (type k).
Proof.
  intros [Hs Ht]. rewrite append_internal_key, footer_bytes_app by done.
  rewrite <- (app_nil_r (EncodeFixed64 _)), decode_fixed64, u64_id; [done|].
  by apply pack_value.
Qed.

Lemma parse_append k :
  seq_ok (sequence k) → type_ok (type k) →
  ParseInternalKey (AppendInternalKey [] k) = if IsExtendedValueType (type k) then Some k else None.
Proof.
  intros Hs Ht. unfold ParseInternalKey.
  assert (Hl : length (AppendInternalKey [] k) = (length (user_key k) + 8)%nat)
    by (rewrite append_internal_key, length_app; done).
  rewrite (proj2 (Nat.ltb_ge _ _)) by (rewrite Hl; unfold kNumInternalBytes; lia).
  fold (ExtractUserKey (AppendInternalKey [] k)). rewrite encoded_user_key, encoded_footer by done.
  pose proof (unpack_pack (sequence k) (type k) Hs Ht) as Hu. unfold UnPackSequenceAndType in Hu.
  injection Hu as -> ->. by destruct k.
Qed.

Lemma append_parse ikey k :
  ParseInternalKey ikey = Some k →
  AppendInternalKey [] k = ikey ∧ parsed_ok k ∧ IsExtendedValueType (type k) = true.
Proof.
  unfold ParseInternalKey.
  destruct (Nat.ltb_spec (length ikey) kNumInternalBytes) as [|Hl]; [done|].
  destruct (IsExtendedValueType _) eqn:Ht; [|done]. intros [= <-].
  destruct (split_internal_key ikey Hl) as [Hs Hf].
  destruct (pack_unpack (DecodeFixed64 (footer_bytes ikey)) (decode_fixed64_range _)) as (Hp & Hok).
  split_and!; [|done..]. rewrite append_internal_key. cbn [sequence type user_key].
  fold (ExtractUserKey ikey). rewrite Hp, encode_decode64 by done. by rewrite <- Hs.
Qed.

(** ** Comparison *)

Lemma compare_desc_Z a b : compare_desc a b = (b ?= a).
Proof.
  unfold compare_desc. destruct (Z.compare_spec b a) as [->|H|H].
  - by rewrite Z.ltb_irrefl.
  - by rewrite (proj2 (Z.ltb_lt _ _) H).
  - rewrite (proj2 (Z.ltb_ge _ _)) by lia. by rewrite (proj2 (Z.ltb_lt _ _) H).
Qed.

Section comparator.
Context (C : Comparator) (HC : ComparatorOk C).

Lemma internal_compare_lex a b :
  InternalKeyCompare a b = lex_compare (cmp_on ExtractUserKey Compare)
    (cmp_flip (cmp_on (λ k, DecodeFixed64 (footer_bytes k)) Z.compare)) a b.
Proof.
  unfold InternalKeyCompare, lex_compare, cmp_flip, cmp_on.
  destruct (Compare _ _); [|done..]. apply compare_desc_Z.
Qed.

#[export] Instance internal_compare_ok : CompareOk InternalKeyCompare.
Proof using HC. exact (compare_ok_ext _ _ internal_compare_lex _). Qed.

(** Comparing packed numbers is comparing sequence numbers, then types. *)
Lemma compare_desc_pack sa ta sb tb :
  seq_ok sa → type_ok ta → seq_ok sb → type_ok tb →
  compare_desc (PackSequenceAndType sa ta) (PackSequenceAndType sb tb) =
  if sb <? sa then Lt else if sa <? sb then Gt
  else if tb <? ta then Lt else if ta <? tb then Gt else Eq.
Proof.
  intros Hsa Hta Hsb Htb. destruct (pack_value sa ta Hsa Hta) as [-> _].
  destruct (pack_value sb tb Hsb Htb) as [-> _]. unfold type_ok in *. unfold compare_desc.
  destruct (Z.ltb_spec sb sa), (Z.ltb_spec sa sb), (Z.ltb_spec tb ta), (Z.ltb_spec ta tb),
    (Z.ltb_spec (sb * 256 + tb) (sa * 256 + ta)), (Z.ltb_spec (sa * 256 + ta) (sb * 256 + tb));
    try done; lia.
Qed.

Lemma compare_encoded a b :
  parsed_ok a → parsed_ok b →
  InternalKeyCompare (AppendInternalKey [] a) (AppendInternalKey [] b) = CompareParsed a b.
Proof.
  intros Ha Hb. unfold InternalKeyCompare, CompareParsed.
  rewrite !encoded_user_key, !encoded_footer by done. destruct (Compare _ _); [|done..].
  destruct Ha, Hb. by apply compare_desc_pack.
Qed.

Lemma compare_encoded_parsed a b :
  parsed_ok a → parsed_ok b → CompareSliceParsed (AppendInternalKey [] a) b = CompareParsed a b.
Proof.
  intros Ha Hb. unfold CompareSliceParsed, CompareParsed.
  rewrite encoded_user_key, encoded_footer by done. destruct (Compare _ _); [|done..].
  destruct Ha, Hb. by apply compare_desc_pack.
Qed.

Lemma compare_parsed_opp a b : parsed_ok a → parsed_ok b → CompareParsed b a = CompOpp (CompareParsed a b).
Proof using HC.
  intros Ha Hb. rewrite <- !compare_encoded by done. apply (compare_opp InternalKeyCompare).
Qed.

(** With the sequence numbers of whole files imposed, as for ingested files. *)
Definition with_seqno (k : ParsedInternalKey) (g : Z) : ParsedInternalKey :=
  if g =? kDisableGlobalSequenceNumber then k else mkParsed (user_key k) g (type k).

Lemma compare_global a ga b gb :
  parsed_ok a → parsed_ok b →
  (seq_ok ga ∨ ga = kDisableGlobalSequenceNumber) →
  (seq_ok gb ∨ gb = kDisableGlobalSequenceNumber) →
  CompareGlobalSeqno (AppendInternalKey [] a) ga (AppendInternalKey [] b) gb =
  CompareParsed (with_seqno a ga) (with_seqno b gb).
Proof.
  intros Ha Hb Hga Hgb. unfold CompareGlobalSeqno, ExtractValueType, ExtractInternalKeyFooter.
  rewrite !encoded_user_key, !encoded_footer by done.
  assert (Hf : ∀ k g, parsed_ok k → (seq_ok g ∨ g = kDisableGlobalSequenceNumber) →
    parsed_ok (with_seqno k g) ∧ user_key (with_seqno k g) = user_key k ∧
    (if g =? kDisableGlobalSequenceNumber then PackSequenceAndType (sequence k) (type k)
     else PackSequenceAndType g (Z.land (PackSequenceAndType (sequence k) (type k)) 255)) =
    PackSequenceAndType (sequence (with_seqno k g)) (type (with_seqno k g))).
  { intros k g [Hs Ht] Hg. unfold with_seqno.
    destruct (Z.eqb_spec g kDisableGlobalSequenceNumber); [done|].
    destruct Hg as [Hg|]; [|done]. split_and!; [done|done|]. simpl. f_equal.
    pose proof (unpack_pack _ _ Hs Ht) as Hu. by injection Hu as _ ->. }
  destruct (Hf a ga Ha Hga) as ([Hsa Hta] & Hua & ->). destruct (Hf b gb Hb Hgb) as ([Hsb Htb] & Hub & ->).
  unfold CompareParsed. rewrite Hua, Hub. destruct (Compare _ _); [|done..].
  by apply compare_desc_pack.
Qed.

(** The smallest and the largest internal key of a user key. *)
Lemma possible_bounds k :
  parsed_ok k → type k <= kValueTypeForSeek ∨ sequence k < kMaxSequenceNumber →
  InternalKeyCompare (MinPossibleForUserKey (user_key k)) (AppendInternalKey [] k) ≠ Gt ∧
  InternalKeyCompare (AppendInternalKey [] k) (MaxPossibleForUserKey (user_key k)) ≠ Gt.
Proof using HC.
  intros Hk Hseek. destruct Hk as [Hs Ht] eqn:E. clear E.
  unfold MinPossibleForUserKey, MaxPossibleForUserKey.
  rewrite !compare_encoded by (done || (split; done)).
  unfold CompareParsed. simpl. rewrite (compare_refl Compare).
  unfold seq_ok, type_ok, kMaxSequenceNumber, kValueTypeForSeek, kTypeValuePreferredSeqno in *.
  split; repeat case_match; try done; lia.
Qed.
End comparator.

#[export] Existing Instance internal_compare_ok.

(** ** Timestamps *)

Lemma pad_shape uk ts footer ts_sz :
  length footer = 8%nat → length ts = ts_sz →
  let ik := uk ++ ts ++ footer in
  StripTimestampFromInternalKey [] ik ts_sz = uk ++ footer ∧
  ReplaceInternalKeyWithMinTimestamp [] ik ts_sz = uk ++ replicate ts_sz x00 ++ footer ∧
  ExtractUserKeyAndStripTimestamp ik ts_sz = uk ∧
  ExtractTimestampFromKey ik ts_sz = ts.
Proof.
  intros Hf Hts ik.
  assert (Hl : length ik = (length uk + (ts_sz + 8))%nat)
    by (unfold ik; rewrite !length_app; lia).
  assert (Hd : drop (length ik - 8) ik = footer).
  { rewrite Hl. unfold ik. rewrite app_assoc. apply drop_app_length'. rewrite length_app. lia. }
  assert (Ht : take (length ik - 8 - ts_sz) ik = uk).
  { rewrite Hl. unfold ik. apply take_app_length'. lia. }
  unfold StripTimestampFromInternalKey, ReplaceInternalKeyWithMinTimestamp,
    ExtractUserKeyAndStripTimestamp, ExtractTimestampFromKey, kNumInternalBytes.
  rewrite Ht, Hd. split_and!; [done|done| |].
  - rewrite Nat.sub_add_distr. done.
  - replace (length ik - ts_sz - 8)%nat with (length uk) by lia. unfold ik.
    rewrite drop_app_length. by apply take_app_length'.
Qed.

(** ** Theorems *)

(** Internal keys round-trip: a key with a 56-bit sequence number and a
    valid type is parsed back from its encoding, a key with an invalid type is
    rejected, and every byte string that parses is the encoding of what was
    parsed. *)
Theorem internal_key_roundtrip :
  (∀ k, seq_ok (sequence k) → type_ok (type k) →
     ParseInternalKey (AppendInternalKey [] k) =
     if IsExtendedValueType (type k) then Some k else None) ∧
  (∀ ikey k, ParseInternalKey ikey = Some k → AppendInternalKey [] k = ikey) ∧
  (∀ seq t, seq_ok seq → type_ok t → UnPackSequenceAndType (PackSequenceAndType seq t) = (seq, t)) ∧
  (∀ k s t, seq_ok s → type_ok t →
     UpdateInternalKey (AppendInternalKey [] k) s t = AppendInternalKey [] (mkParsed (user_key k) s t)).
Proof.
  split_and!.
  - apply parse_append.
  - intros ikey k H. by apply append_parse.
  - apply unpack_pack.
  - intros k s t _ _. unfold UpdateInternalKey. fold (ExtractUserKey (AppendInternalKey [] k)).
    by rewrite encoded_user_key.
Qed.

(** All overloads of [InternalKeyComparator::Compare] agree: comparing
    encoded keys is comparing user keys by the user comparator, then sequence
    numbers and types in decreasing order; the result is a total order. *)
Theorem internal_compare_overloads (C : Comparator) (a b : ParsedInternalKey) :
  ComparatorOk C → parsed_ok a → parsed_ok b →
  let ea := AppendInternalKey [] a in
  let eb := AppendInternalKey [] b in
  InternalKeyCompare ea eb = CompareParsed a b ∧
  CompareSliceParsed ea b = CompareParsed a b ∧
  CompareParsedSlice a eb = CompareParsed a b ∧
  (∀ ga gb, (seq_ok ga ∨ ga = kDisableGlobalSequenceNumber) →
            (seq_ok gb ∨ gb = kDisableGlobalSequenceNumber) →
     CompareGlobalSeqno ea ga eb gb = CompareParsed (with_seqno a ga) (with_seqno b gb)) ∧
  CompareOk InternalKeyCompare.
Proof.
  intros HC Ha Hb ea eb. split_and!.
  - by apply compare_encoded.
  - by apply compare_encoded_parsed.
  - unfold CompareParsedSlice, eb. rewrite compare_encoded_parsed by done.
    by rewrite (compare_parsed_opp C HC b a).
  - intros ga gb. by apply compare_global.
  - by apply internal_compare_ok.
Qed.

(** A lookup key addresses a snapshot: its memtable form is the
    length-prefixed internal key, and an entry of the user key (with a type up
    to the seek type) is at or after the lookup key exactly when its sequence
    number is visible at the snapshot. *)
Theorem lookup_key_seeks_snapshot (C : Comparator) uk s (ts : option key) :
  ComparatorOk C → seq_ok s →
  Z.of_nat (length uk) + Z.of_nat (length (default [] ts)) + 8 < 2 ^ 32 →
  let lk := NewLookupKey uk s ts in
  let u := uk ++ default [] ts in
  GetLengthPrefixedSlice (memtable_key lk) = Some (internal_key lk, []) ∧
  lookup_user_key lk = u ∧
  ParseInternalKey (internal_key lk) = Some (mkParsed u s kValueTypeForSeek) ∧
  ∀ k, parsed_ok k → user_key k = u → type k <= kValueTypeForSeek →
    InternalKeyCompare (internal_key lk) (AppendInternalKey [] k) ≠ Gt ↔ sequence k <= s.
Proof.
  intros HC Hs Hl lk u.
  assert (Hik : internal_key lk = AppendInternalKey [] (mkParsed u s kValueTypeForSeek)).
  { rewrite append_internal_key. unfold u. simpl. by destruct ts; rewrite <- app_assoc. }
  assert (Hts : match ts with None => 0 | Some t => Z.of_nat (length t) end
    = Z.of_nat (length (default [] ts))) by (by destruct ts).
  split_and!.
  - unfold memtable_key, GetLengthPrefixedSlice.
    change (lk_rest lk) with (internal_key lk). rewrite <- (app_nil_r (internal_key lk)) at 1.
    unfold lk at 1. cbn [lk_prefix NewLookupKey]. rewrite Hts.
    assert (Hlen : Z.of_nat (length (internal_key lk)) =
      Z.of_nat (length uk) + Z.of_nat (length (default [] ts)) + 8).
    { rewrite Hik, append_internal_key. cbn [user_key]. unfold u. rewrite !length_app.
      cbn [length EncodeFixed64]. lia. }
    unfold u32. rewrite Z.mod_small, <- Hlen by lia.
    rewrite get_encode_varint32 by lia. rewrite app_nil_r, (proj2 (Z.leb_le _ _)) by lia.
    by rewrite Nat2Z.id, firstn_all, drop_all.
  - unfold lookup_user_key. change (lk_rest lk) with (internal_key lk). rewrite Hik.
    apply encoded_user_key.
  - rewrite Hik. by rewrite parse_append.
  - intros k Hk Hu Ht. rewrite Hik, compare_encoded by (done || (split; done)).
    unfold CompareParsed. simpl. rewrite Hu, (compare_refl Compare).
    destruct (Z.ltb_spec (sequence k) s), (Z.ltb_spec s (sequence k)); try (split; [lia|done]);
      try (split; [done|lia]).
    destruct (Z.ltb_spec (type k) kValueTypeForSeek), (Z.ltb_spec kValueTypeForSeek (type k));
      split; (done || lia).
Qed.

(** Stripping the timestamp undoes padding with a minimum or maximum
    timestamp; the padded key carries that timestamp, and replacing its
    timestamp by the minimum gives the key padded with the minimum. *)
Theorem timestamp_padding ikey ts_sz :
  (kNumInternalBytes <= length ikey)%nat →
  let lo := PadInternalKeyWithMinTimestamp [] ikey ts_sz in
  let hi := PadInternalKeyWithMaxTimestamp [] ikey ts_sz in
  StripTimestampFromInternalKey [] lo ts_sz = ikey ∧
  StripTimestampFromInternalKey [] hi ts_sz = ikey ∧
  ExtractTimestampFromKey lo ts_sz = replicate ts_sz x00 ∧
  ExtractTimestampFromKey hi ts_sz = replicate ts_sz xff ∧
  ExtractUserKeyAndStripTimestamp hi ts_sz = ExtractUserKey ikey ∧
  ReplaceInternalKeyWithMinTimestamp [] hi ts_sz = lo.
Proof.
  intros Hl lo hi. destruct (split_internal_key ikey Hl) as [Hik Hf].
  destruct (pad_shape (ExtractUserKey ikey) (replicate ts_sz x00) (footer_bytes ikey) ts_sz Hf)
    as (S1 & _ & _ & T1); [apply length_replicate|].
  destruct (pad_shape (ExtractUserKey ikey) (replicate ts_sz xff) (footer_bytes ikey) ts_sz Hf)
    as (S2 & R2 & U2 & T2); [apply length_replicate|].
  rewrite <- Hik in S1, S2. split_and!; done.
Qed.

(** ** Witnesses *)

Lemma internal_compare_overloads_witness :
  @InternalKeyCompare BytewiseComparator (InternalKey [x61] 5 1) (InternalKey [x61] 7 1) =
  @CompareParsed BytewiseComparator (mkParsed [x61] 5 1) (mkParsed [x61] 7 1).
Proof.
  refine (proj1 (internal_compare_overloads BytewiseComparator (mkParsed [x61] 5 1)
    (mkParsed [x61] 7 1) bytewise_ok _ _)); split; vm_compute; split; congruence.
Defined.

Lemma lookup_key_seeks_snapshot_witness :
  GetLengthPrefixedSlice (memtable_key (NewLookupKey [x61] 5 None)) =
  Some (internal_key (NewLookupKey [x61] 5 None), []).
Proof.
  refine (proj1 (lookup_key_seeks_snapshot BytewiseComparator [x61] 5 None bytewise_ok _ _)).
  - vm_compute. split; congruence.
  - vm_compute. reflexivity.
Defined.

Lemma timestamp_padding_witness :
  StripTimestampFromInternalKey []
    (PadInternalKeyWithMinTimestamp [] (InternalKey [x61] 5 1) 8) 8 = InternalKey [x61] 5 1.
Proof.
  refine (proj1 (timestamp_padding (InternalKey [x61] 5 1) 8 _)).
  apply (bool_decide_unpack _). vm_compute. exact I.
Defined.
