(* ===== verification/ManifestRecords.v ===== *)
(** * Records of the manifest

    Models the entries of a version edit that have their own encoding:
    [BlobFileAddition] and [BlobFileGarbage] ([src/db/blob/blob_file_addition.cc],
    [src/db/blob/blob_file_garbage.cc]), [WalAddition], [WalDeletion] and the
    [WalSet] they are applied to ([src/db/wal_edit.h], [.cc]), and the byte form
    of unique identifiers ([src/table/unique_id.cc]).  A decoder takes the input
    and returns a value with the rest of the input, or the corruption message. *)

From S2P Require Import Prelude Coding BlobIndex.

(** ** Decoders *)

Inductive Status (A : Type) :=
  | Ok (a : A)
  | Corruption (msg : string).
Arguments Ok {A} a.
Arguments Corruption {A} msg.

Definition decoder (A : Type) := list byte → Status (A * list byte).

Definition dret {A} (a : A) : decoder A := λ input, Ok (a, input).

Definition dbind {A B} (d : decoder A) (k : A → decoder B) : decoder B := λ input,
  match d input with
  | Ok (a, rest) => k a rest
  | Corruption msg => Corruption msg
  end.

Notation "'let!' x ':=' d 'in' k" := (dbind d (λ x, k))
  (at level 10, x name, d at level 100, k at level 200) : lsm_scope.

Definition dfail {A} (msg : string) : decoder A := λ _, Corruption msg.

(** One of the [Get] functions, with the message used when it fails. *)
Definition read {A} (get : list byte → option (A * list byte)) (msg : string) : decoder A :=
  λ input, match get input with Some r => Ok r | None => Corruption msg end.

(** A loop that consumes input in every iteration; [step] says whether to go on.
    The number of iterations is bounded by the length of the input. *)
Fixpoint loop {S} (fuel : nat) (step : S → decoder (S * bool)) (s : S) (input : list byte)
    : Status (S * list byte) :=
  match fuel with
  | O => Corruption "loop bound"
  | Datatypes.S fuel' =>
      match step s input with
      | Corruption msg => Corruption msg
      | Ok ((s', false), rest) => Ok (s', rest)
      | Ok ((s', true), rest) => loop fuel' step s' rest
      end
  end.

Definition iterate {S} (step : S → decoder (S * bool)) (s : S) : decoder S :=
  λ input, loop (Datatypes.S (length input)) step s input.

(** ** Blob files *)

Record BlobFileAddition := mkBlobFileAddition {
  bfa_blob_file_number : Z;
  bfa_total_blob_count : Z;
  bfa_total_blob_bytes : Z;
  bfa_checksum_method : list byte;
  bfa_checksum_value : list byte;
}.

Definition kEndMarker : Z := 0.
Definition kForwardIncompatibleMask : Z := 64.

Definition EncodeBlobFileAddition (b : BlobFileAddition) : list byte :=
  EncodeVarint64 (bfa_blob_file_number b) ++
  EncodeVarint64 (bfa_total_blob_count b) ++
  EncodeVarint64 (bfa_total_blob_bytes b) ++
  PutLengthPrefixedSlice [] (bfa_checksum_method b) ++
  PutLengthPrefixedSlice [] (bfa_checksum_value b) ++
  EncodeVarint32 kEndMarker.

(** The loop over custom fields of [BlobFileAddition] and [BlobFileGarbage]. *)
Definition custom_field (_ : unit) : decoder (unit * bool) :=
  let! tag := read GetVarint32 "Error decoding custom field tag" in
  if tag =? kEndMarker then dret (tt, false)
  else if negb (Z.land tag kForwardIncompatibleMask =? 0)
  then dfail "Forward incompatible custom field encountered"
  else
    let! _ := read GetLengthPrefixedSlice "Error decoding custom field value" in
    dret (tt, true).

Definition DecodeBlobFileAddition : decoder BlobFileAddition :=
  let! number := read GetVarint64 "Error decoding blob file number" in
  let! count := read GetVarint64 "Error decoding total blob count" in
  let! bytes := read GetVarint64 "Error decoding total blob bytes" in
  let! method := read GetLengthPrefixedSlice "Error decoding checksum method" in
  let! value := read GetLengthPrefixedSlice "Error decoding checksum value" in
  let! _ := iterate custom_field tt in
  dret (mkBlobFileAddition number count bytes method value).

Record BlobFileGarbage := mkBlobFileGarbage {
  bfg_blob_file_number : Z;
  bfg_garbage_blob_count : Z;
  bfg_garbage_blob_bytes : Z;
}.

Definition EncodeBlobFileGarbage (b : BlobFileGarbage) : list byte :=
  EncodeVarint64 (bfg_blob_file_number b) ++
  EncodeVarint64 (bfg_garbage_blob_count b) ++
  EncodeVarint64 (bfg_garbage_blob_bytes b) ++
  EncodeVarint32 kEndMarker.

Definition DecodeBlobFileGarbage : decoder BlobFileGarbage :=
  let! number := read GetVarint64 "Error decoding blob file number" in
  let! count := read GetVarint64 "Error decoding garbage blob count" in
  let! bytes := read GetVarint64 "Error decoding garbage blob bytes" in
  let! _ := iterate custom_field tt in
  dret (mkBlobFileGarbage number count bytes).

(** ** Write-ahead logs *)

Definition kUnknownWalSize : Z := 2 ^ 64 - 1.

(** The metadata of a log is its synced size. *)
Record WalAddition := mkWalAddition {
  wal_number : Z;
  wal_synced_size : Z;
}.

Definition HasSyncedSize (size : Z) : bool := negb (size =? kUnknownWalSize).

Definition kWalTerminate : Z := 1.
Definition kWalSyncedSize : Z := 2.

Definition EncodeWalAddition (w : WalAddition) : list byte :=
  EncodeVarint64 (wal_number w) ++
  (if HasSyncedSize (wal_synced_size w)
   then EncodeVarint32 kWalSyncedSize ++ EncodeVarint64 (wal_synced_size w) else []) ++
  EncodeVarint32 kWalTerminate.

Definition wal_field (size : Z) : decoder (Z * bool) :=
  let! tag := read GetVarint32 "Error decoding tag" in
  if tag =? kWalSyncedSize then
    let! size' := read GetVarint64 "Error decoding WAL file size" in dret (size', true)
  else if tag =? kWalTerminate then dret (size, false)
  else dfail "Unknown tag".

Definition DecodeWalAddition : decoder WalAddition :=
  let! number := read GetVarint64 "Error decoding WAL log number" in
  let! size := iterate wal_field kUnknownWalSize in
  dret (mkWalAddition number size).

(** A deletion is the log number before which logs are deleted; 0 is none. *)
Definition EncodeWalDeletion (number : Z) : list byte := EncodeVarint64 number.
Definition DecodeWalDeletion : decoder Z := read GetVarint64 "Error decoding WAL log number".

(** ** The set of logs *)

Record WalSet := mkWalSet {
  wals_ : gmap Z Z;  (* log number to synced size *)
  min_wal_number_to_keep_ : Z;
}.

Definition NewWalSet : WalSet := mkWalSet ∅ 0.

(** [AddWal]: the new set and whether the status is OK. *)
Definition AddWal (w : WalAddition) (s : WalSet) : WalSet * bool :=
  if wal_number w <? min_wal_number_to_keep_ s then (s, true)
  else
    match wals_ s !! wal_number w with
    | None => (mkWalSet (<[wal_number w := wal_synced_size w]> (wals_ s)) (min_wal_number_to_keep_ s), true)
    | Some old =>
        if negb (HasSyncedSize (wal_synced_size w)) then (s, false)
        else if HasSyncedSize old && (wal_synced_size w <=? old) then (s, true)
        else (mkWalSet (<[wal_number w := wal_synced_size w]> (wals_ s)) (min_wal_number_to_keep_ s), true)
    end.

(** [AddWals] stops at the first failure. *)
Fixpoint AddWals (ws : list WalAddition) (s : WalSet) : WalSet * bool :=
  match ws with
  | [] => (s, true)
  | w :: ws' =>
      match AddWal w s with
      | (s', true) => AddWals ws' s'
      | (s', false) => (s', false)
      end
  end.

Definition DeleteWalsBefore (wal : Z) (s : WalSet) : WalSet :=
  if min_wal_number_to_keep_ s <? wal
  then mkWalSet (filter (λ kv : Z * Z, wal <= kv.1) (wals_ s)) wal
  else s.

Definition ResetWals (s : WalSet) : WalSet := NewWalSet.

(** The outcome of [CheckWals], with the log it stopped at. *)
Inductive WalCheck :=
  | WalsOk
  | MissingWal (number : Z)
  | WalSizeError (number : Z)
  | WalSizeMismatch (number : Z).

(** The logs in ascending order, the way [std::map] iterates. *)
Definition ordered_wals (m : gmap Z Z) : list (Z * Z) :=
  insertion_sort (λ a b, a.1 <? b.1) (map_to_list m).

Section check.
(** [Env::GetFileSize] of the file system; [None] is its error. *)
Context (GetFileSizeOnDisk : string → option Z).

Fixpoint check_loop (logs_on_disk : gmap Z string) (ws : list (Z * Z)) : WalCheck :=
  match ws with
  | [] => WalsOk
  | (number, size) :: ws' =>
      if negb (HasSyncedSize size) then check_loop logs_on_disk ws'
      else
        match logs_on_disk !! number with
        | None => MissingWal number
        | Some name =>
            match GetFileSizeOnDisk name with
            | None => WalSizeError number
            | Some n => if n <? size then WalSizeMismatch number else check_loop logs_on_disk ws'
            end
        end
  end.

Definition CheckWals (logs_on_disk : gmap Z string) (s : WalSet) : WalCheck :=
  check_loop logs_on_disk (ordered_wals (wals_ s)).
End check.

(** ** Unique identifiers of 128 bits *)

Definition kNullUniqueId64x2 : Z * Z := (0, 0).

Definition EncodeUniqueIdBytes (id : Z * Z) : list byte :=
  EncodeFixed64 id.1 ++ EncodeFixed64 id.2.

Definition DecodeUniqueIdBytes (s : list byte) : option (Z * Z) :=
  if (length s =? 16)%nat then Some (DecodeFixed64 s, DecodeFixed64 (drop 8 s)) else None.

#[global] Arguments EncodeVarint32 : simpl never.
#[global] Arguments EncodeVarint64 : simpl never.
#[global] Arguments PutLengthPrefixedSlice : simpl never.

(** ** Progress of decoders *)

Class Keeps {A} (d : decoder A) : Prop :=
  keeps input a rest : d input = Ok (a, rest) → (length rest <= length input)%nat.
Class Consumes {A} (d : decoder A) : Prop :=
  consumes input a rest : d input = Ok (a, rest) → (length rest < length input)%nat.

Lemma varint_loop_shrinks w last shift result p v rest :
  varint_loop w last shift result p = Some (v, rest) → (length rest < length p)%nat.
Proof.
  revert shift result. induction p as [|c p IH]; intros shift result; simpl.
  - by destruct (last <? shift).
  - destruct (last <? shift); [done|]. destruct (Z.land (byte_val c) 128 =? 0).
    + intros [= _ <-]. lia.
    + intros H%IH. lia.
Qed.

Lemma varint32_shrinks p v rest : GetVarint32 p = Some (v, rest) → (length rest < length p)%nat.
Proof.
  unfold GetVarint32, GetVarint32Ptr, GetVarint32PtrFallback. destruct p as [|c p]; [done|].
  destruct (Z.land (byte_val c) 128 =? 0); [intros [= _ <-]; simpl; lia|apply varint_loop_shrinks].
Qed.

Lemma length_prefixed_shrinks p v rest :
  GetLengthPrefixedSlice p = Some (v, rest) → (length rest < length p)%nat.
Proof.
  unfold GetLengthPrefixedSlice. destruct (GetVarint32 p) as [[len q]|] eqn:E; [|done].
  apply varint32_shrinks in E. destruct (len <=? Z.of_nat (length q)); [|done].
  intros [= _ <-]. rewrite length_drop. lia.
Qed.

Lemma consumes_read {A} (get : list byte → option (A * list byte)) msg :
  (∀ p v rest, get p = Some (v, rest) → (length rest < length p)%nat) → Consumes (read get msg).
Proof.
  intros Hg input a rest. unfold read. destruct (get input) as [[v q]|] eqn:E; [|done].
  intros [= -> ->]. eauto.
Qed.

#[export] Instance consumes_varint32 msg : Consumes (read GetVarint32 msg).
Proof. apply consumes_read, varint32_shrinks. Qed.
#[export] Instance consumes_varint64 msg : Consumes (read GetVarint64 msg).
Proof. apply consumes_read. intros p v rest. apply varint_loop_shrinks. Qed.
#[export] Instance consumes_slice msg : Consumes (read GetLengthPrefixedSlice msg).
Proof. apply consumes_read, length_prefixed_shrinks. Qed.

#[export] Instance consumes_keeps {A} (d : decoder A) : Consumes d → Keeps d | 10.
Proof. intros Hd input a rest H. apply Hd in H. lia. Qed.
#[export] Instance keeps_ret {A} (a : A) : Keeps (dret a).
Proof. intros input b rest [= <- <-]. done. Qed.
#[export] Instance consumes_fail {A} msg : Consumes (dfail (A:=A) msg).
Proof. intros input b rest [=]. Qed.

Lemma dbind_inv {A B} (d : decoder A) (k : A → decoder B) input b rest :
  dbind d k input = Ok (b, rest) → ∃ a q, d input = Ok (a, q) ∧ k a q = Ok (b, rest).
Proof. unfold dbind. destruct (d input) as [[a q]|]; [eauto|done]. Qed.

#[export] Instance keeps_bind {A B} (d : decoder A) (k : A → decoder B) :
  Keeps d → (∀ a, Keeps (k a)) → Keeps (dbind d k) | 5.
Proof.
  intros Hd Hk input b rest (a & q & H1 & H2)%dbind_inv. apply Hd in H1. apply Hk in H2. lia.
Qed.
#[export] Instance consumes_bind {A B} (d : decoder A) (k : A → decoder B) :
  Consumes d → (∀ a, Keeps (k a)) → Consumes (dbind d k) | 5.
Proof.
  intros Hd Hk input b rest (a & q & H1 & H2)%dbind_inv. apply Hd in H1. apply Hk in H2. lia.
Qed.
#[export] Instance keeps_if {A} (b : bool) (d1 d2 : decoder A) :
  Keeps d1 → Keeps d2 → Keeps (if b then d1 else d2).
Proof. by destruct b. Qed.
#[export] Instance consumes_if {A} (b : bool) (d1 d2 : decoder A) :
  Consumes d1 → Consumes d2 → Consumes (if b then d1 else d2).
Proof. by destruct b. Qed.

(** ** Loops *)

Class Advances {S} (step : S → decoder (S * bool)) : Prop :=
  advances s input s' rest :
    step s input = Ok ((s', true), rest) → (length rest < length input)%nat.

#[export] Instance consumes_advances {S} (step : S → decoder (S * bool)) :
  (∀ s, Consumes (step s)) → Advances step.
Proof. intros Hc s input s' rest H. by apply Hc in H. Qed.

Section iterate.
Context {S : Type} (step : S → decoder (S * bool)) `{Hstep : !Advances step}.

Lemma loop_fuel n m s input :
  (length input < n)%nat → (length input < m)%nat → loop n step s input = loop m step s input.
Proof using Hstep.
  revert m s input. induction n as [|n IH]; intros m s input Hn Hm; [lia|].
  destruct m as [|m]; [lia|]. simpl. destruct (step s input) as [[[s' []] rest]|] eqn:E; try done.
  apply Hstep in E. apply IH; lia.
Qed.

(** The bound on the iterations is never reached: the loop runs until the step
    stops or fails. *)
Lemma iterate_unfold s input :
  iterate step s input =
  match step s input with
  | Corruption msg => Corruption msg
  | Ok ((s', false), rest) => Ok (s', rest)
  | Ok ((s', true), rest) => iterate step s' rest
  end.
Proof using Hstep.
  unfold iterate at 1. cbn [loop]. destruct (step s input) as [[[s' []] rest]|] eqn:E; try done.
  apply Hstep in E. unfold iterate. apply loop_fuel; lia.
Qed.
End iterate.

#[export] Instance keeps_iterate {S} (step : S → decoder (S * bool)) s :
  (∀ s, Consumes (step s)) → Keeps (iterate step s).
Proof.
  intros Hstep input. remember (length input) as n eqn:Hn. revert s input Hn.
  induction n as [n IH] using lt_wf_ind. intros s input -> a rest. rewrite (iterate_unfold step).
  destruct (step s input) as [[[s' []] q]|] eqn:E; [| |done]; apply Hstep in E.
  - intros H. apply (IH (length q)) in H; lia.
  - intros [= <- <-]. lia.
Qed.

(** ** Decoding an encoding *)

Definition decodes {A} (d : decoder A) (bs : list byte) (a : A) : Prop :=
  ∀ rest, d (bs ++ rest) = Ok (a, rest).

Section decodes.
Context {A B : Type}.

Lemma decodes_ret (a : A) : decodes (dret a) [] a.
Proof. intros rest. done. Qed.

Lemma decodes_bind (d : decoder A) (k : A → decoder B) bs bs' a b :
  decodes d bs a → decodes (k a) bs' b → decodes (dbind d k) (bs ++ bs') b.
Proof. intros Hd Hk rest. unfold dbind. by rewrite <- app_assoc, Hd. Qed.

(** The last step of a decoder, when it reads nothing more. *)
Lemma decodes_last (d : decoder A) (k : A → decoder B) bs a b :
  decodes d bs a → decodes (k a) [] b → decodes (dbind d k) bs b.
Proof. intros Hd Hk. rewrite <- (app_nil_r bs). by eapply decodes_bind. Qed.

Lemma decodes_if (c : bool) (d1 d2 : decoder A) bs a :
  decodes (if c then d1 else d2) bs a ↔ if c then decodes d1 bs a else decodes d2 bs a.
Proof. by destruct c. Qed.

Lemma decodes_iterate_more step `{!Advances step} (s s' s'' : A) bs bs' :
  decodes (step s) bs (s', true) → decodes (iterate step s') bs' s'' →
  decodes (iterate step s) (bs ++ bs') s''.
Proof. intros H1 H2 rest. by rewrite iterate_unfold, <- app_assoc, H1. Qed.

Lemma decodes_iterate_end step `{!Advances step} (s s' : A) bs :
  decodes (step s) bs (s', false) → decodes (iterate step s) bs s'.
Proof. intros H1 rest. by rewrite iterate_unfold, H1. Qed.
End decodes.

Lemma decodes_varint64 v msg : u64_ok v → decodes (read GetVarint64 msg) (EncodeVarint64 v) v.
Proof. intros Hv rest. unfold read. by rewrite get_encode_varint64. Qed.
Lemma decodes_varint32 v msg : 0 <= v < 2 ^ 32 → decodes (read GetVarint32 msg) (EncodeVarint32 v) v.
Proof. intros Hv rest. unfold read. by rewrite get_encode_varint32. Qed.

(** Strings are shorter than the 32-bit length that precedes them. *)
Definition slice_ok (s : list byte) : Prop := Z.of_nat (length s) < 2 ^ 32.

Lemma decodes_slice s msg :
  slice_ok s → decodes (read GetLengthPrefixedSlice msg) (PutLengthPrefixedSlice [] s) s.
Proof. intros Hs rest. unfold read. by rewrite get_put_length_prefixed. Qed.

(** ** Round trips of the records *)

Definition blob_addition_ok (b : BlobFileAddition) : Prop :=
  u64_ok (bfa_blob_file_number b) ∧ u64_ok (bfa_total_blob_count b) ∧
  u64_ok (bfa_total_blob_bytes b) ∧ slice_ok (bfa_checksum_method b) ∧ slice_ok (bfa_checksum_value b).
Definition blob_garbage_ok (b : BlobFileGarbage) : Prop :=
  u64_ok (bfg_blob_file_number b) ∧ u64_ok (bfg_garbage_blob_count b) ∧
  u64_ok (bfg_garbage_blob_bytes b).
Definition wal_addition_ok (w : WalAddition) : Prop :=
  u64_ok (wal_number w) ∧ u64_ok (wal_synced_size w).

#[export] Instance consumes_custom_field u : Consumes (custom_field u).
Proof. unfold custom_field. apply _. Qed.
#[export] Instance consumes_wal_field size : Consumes (wal_field size).
Proof. unfold wal_field. apply _. Qed.
#[export] Instance consumes_blob_addition : Consumes DecodeBlobFileAddition.
Proof. unfold DecodeBlobFileAddition. apply _. Qed.
#[export] Instance consumes_blob_garbage : Consumes DecodeBlobFileGarbage.
Proof. unfold DecodeBlobFileGarbage. apply _. Qed.
#[export] Instance consumes_wal_addition : Consumes DecodeWalAddition.
Proof. unfold DecodeWalAddition. apply _. Qed.
#[export] Instance consumes_wal_deletion : Consumes DecodeWalDeletion.
Proof. unfold DecodeWalDeletion. apply _. Qed.

(** Run a decoder over an encoding, field by field. *)
Ltac decode_step :=
  first
  [ apply decodes_ret
  | apply decodes_varint64; done
  | apply decodes_varint32; done
  | apply decodes_slice; done ].
Ltac decode_fields :=
  repeat (eapply decodes_bind; [decode_step|]; cbv beta);
  try (eapply decodes_last; [|apply decodes_ret]).

Lemma decodes_end_marker : decodes (iterate custom_field tt) (EncodeVarint32 kEndMarker) tt.
Proof.
  apply (decodes_iterate_end custom_field). eapply decodes_last; [by apply decodes_varint32|]. apply decodes_ret.
Qed.

Lemma decodes_blob_addition b :
  blob_addition_ok b → decodes DecodeBlobFileAddition (EncodeBlobFileAddition b) b.
Proof.
  destruct b. intros (? & ? & ? & ? & ?). unfold DecodeBlobFileAddition, EncodeBlobFileAddition.
  decode_fields. apply decodes_end_marker.
Qed.

Lemma decodes_blob_garbage b :
  blob_garbage_ok b → decodes DecodeBlobFileGarbage (EncodeBlobFileGarbage b) b.
Proof.
  destruct b. intros (? & ? & ?). unfold DecodeBlobFileGarbage, EncodeBlobFileGarbage.
  decode_fields. apply decodes_end_marker.
Qed.

Lemma decodes_wal_addition w :
  wal_addition_ok w → decodes DecodeWalAddition (EncodeWalAddition w) w.
Proof.
  destruct w as [number size]. intros [Hn Hs]. simpl in Hn, Hs.
  unfold DecodeWalAddition, EncodeWalAddition. cbn [wal_number wal_synced_size].
  assert (Hend : ∀ s, decodes (wal_field s) (EncodeVarint32 kWalTerminate) (s, false)).
  { intros s. eapply decodes_last; [by apply decodes_varint32|]. apply decodes_ret. }
  decode_fields. unfold HasSyncedSize. destruct (Z.eqb_spec size kUnknownWalSize) as [->|Hne]; cbn [negb].
  - apply (decodes_iterate_end wal_field), Hend.
  - eapply (decodes_iterate_more wal_field); [|apply (decodes_iterate_end wal_field), Hend].
    eapply decodes_bind; [by apply decodes_varint32|]. cbn [Z.eqb kWalSyncedSize].
    eapply decodes_last; [by apply decodes_varint64|]. apply decodes_ret.
Qed.

Lemma decode_unique_id id :
  u64_ok id.1 → u64_ok id.2 →
  length (EncodeUniqueIdBytes id) = 16%nat ∧ DecodeUniqueIdBytes (EncodeUniqueIdBytes id) = Some id.
Proof.
  intros H1 H2. split; [done|]. unfold DecodeUniqueIdBytes, EncodeUniqueIdBytes.
  change (length _ =? 16)%nat with true. cbv iota.
  change 8%nat with (length (EncodeFixed64 id.1)) at 1. rewrite drop_app_length.
  rewrite decode_fixed64, <- (app_nil_r (EncodeFixed64 id.2)), decode_fixed64, !u64_id by done.
  by destruct id.
Qed.

(** ** Invariants of the log set *)

Definition wal_set_ok (s : WalSet) : Prop :=
  ∀ n size, wals_ s !! n = Some size → min_wal_number_to_keep_ s <= n.

Definition synced (w : WalAddition) : Prop := HasSyncedSize (wal_synced_size w) = true.

(** The size recorded for a log when a synced size arrives. *)
Definition sync_size (size : Z) (old : option Z) : Z :=
  match old with
  | Some o => if HasSyncedSize o then Z.max o size else size
  | None => size
  end.

Lemma add_synced w s :
  synced w →
  AddWal w s =
  (if wal_number w <? min_wal_number_to_keep_ s then s
   else mkWalSet (<[wal_number w := sync_size (wal_synced_size w) (wals_ s !! wal_number w)]> (wals_ s))
          (min_wal_number_to_keep_ s), true).
Proof.
  unfold synced, AddWal. intros Hs. destruct (wal_number w <? _); [done|].
  destruct (wals_ s !! wal_number w) as [old|] eqn:E; [|done]. rewrite Hs. simpl.
  destruct (HasSyncedSize old); [|done]. simpl.
  destruct (Z.leb_spec (wal_synced_size w) old); [|by rewrite Z.max_r by lia].
  rewrite Z.max_l by lia. f_equal. destruct s. simpl in *. by rewrite insert_id.
Qed.

Lemma sync_size_synced size old :
  HasSyncedSize size = true → HasSyncedSize (sync_size size old) = true.
Proof.
  intros Hs. unfold sync_size. destruct old as [o|]; [|done]. destruct (HasSyncedSize o) eqn:E; [|done].
  by destruct (Z.max_spec o size) as [[_ ->]|[_ ->]].
Qed.

Lemma add_synced_comm w1 w2 s :
  synced w1 → synced w2 → AddWals [w1; w2] s = AddWals [w2; w1] s.
Proof.
  intros H1 H2. assert (Hp : ∀ (a b : WalSet), a = b → (a, true) = (b, true)) by congruence.
  cbn [AddWals]. rewrite !add_synced by done. apply Hp.
  repeat (case_match; simpl in *; try congruence; try done). f_equal.
  destruct (decide (wal_number w1 = wal_number w2)) as [->|Hne].
  - rewrite !lookup_insert_eq, !insert_insert_eq. f_equal. unfold sync_size at 1 3.
    rewrite !sync_size_synced by done. unfold sync_size. destruct (wals_ s !! wal_number w2); [|lia].
    destruct (HasSyncedSize z); lia.
  - rewrite !lookup_insert_ne by done. by apply insert_insert_ne.
Qed.

Lemma add_wals_app ws1 ws2 s :
  AddWals (ws1 ++ ws2) s =
  match AddWals ws1 s with (s', true) => AddWals ws2 s' | (s', false) => (s', false) end.
Proof.
  revert s. induction ws1 as [|w ws1 IH]; intros s; simpl; [done|].
  destruct (AddWal w s) as [s' []]; [apply IH|done].
Qed.

Lemma add_synced_perm ws ws' s :
  ws ≡ₚ ws' → Forall synced ws → AddWals ws s = AddWals ws' s ∧ (AddWals ws s).2 = true.
Proof.
  intros Hp. revert s. induction Hp as [|w ws ws' _ IH|w1 w2 ws|ws1 ws2 ws3 Hp12 IH1 _ IH2]; intros s Hs.
  - done.
  - apply Forall_cons in Hs as [Hw Hs]. cbn [AddWals]. rewrite !add_synced by done. by apply IH.
  - apply Forall_cons in Hs as [H2 Hs]. apply Forall_cons in Hs as [H1 Hs].
    change (w2 :: w1 :: ws) with ([w2; w1] ++ ws). change (w1 :: w2 :: ws) with ([w1; w2] ++ ws).
    rewrite !add_wals_app, (add_synced_comm w1 w2) by done. split; [done|].
    cbn [AddWals]. rewrite !add_synced by done. clear H1 H2. generalize dependent ws. intros ws Hs.
    match goal with |- (AddWals ws ?x).2 = true => generalize x end.
    induction Hs as [|w ws Hw Hs IH]; intros s'; [done|]. cbn [AddWals]. rewrite add_synced by done. apply IH.
  - destruct (IH1 s Hs) as [-> _]. apply IH2. by rewrite <- Hp12.
Qed.

Lemma add_wal_ok w s :
  wal_set_ok s →
  wal_set_ok (AddWal w s).1 ∧ min_wal_number_to_keep_ (AddWal w s).1 = min_wal_number_to_keep_ s.
Proof.
  intros Hok. unfold AddWal. destruct (Z.ltb_spec (wal_number w) (min_wal_number_to_keep_ s)) as [|Hge]; [done|].
  assert (Hi : wal_set_ok (mkWalSet (<[wal_number w := wal_synced_size w]> (wals_ s)) (min_wal_number_to_keep_ s))).
  { intros n size. simpl. rewrite lookup_insert_Some. intros [[<- _]|[_ H]]; [done|]. by apply (Hok n size). }
  destruct (wals_ s !! wal_number w); [|done].
  destruct (negb _); [done|]. by destruct (_ && _).
Qed.

Lemma delete_wals_ok wal s :
  wal_set_ok s → wal_set_ok (DeleteWalsBefore wal s) ∧
  ∀ n, wals_ (DeleteWalsBefore wal s) !! n = if n <? wal then None else wals_ s !! n.
Proof.
  intros Hok. unfold DeleteWalsBefore. destruct (Z.ltb_spec (min_wal_number_to_keep_ s) wal) as [Hlt|Hge].
  - split.
    + intros n size [_ H]%map_lookup_filter_Some. done.
    + intros n. simpl. destruct (Z.ltb_spec n wal).
      * apply map_lookup_filter_None. right. simpl. lia.
      * destruct (wals_ s !! n) as [size|] eqn:E.
        -- by apply map_lookup_filter_Some.
        -- apply map_lookup_filter_None. by left.
  - split; [done|]. intros n. destruct (Z.ltb_spec n wal); [|done].
    apply eq_None_not_Some. intros [size E]. apply Hok in E. lia.
Qed.

(** The steps of a log set while edits are applied. *)
Inductive wal_step : relation WalSet :=
  | step_add w s : wal_step s (AddWal w s).1
  | step_delete n s : wal_step s (DeleteWalsBefore n s)
  | step_reset s : wal_step s (ResetWals s).

Lemma new_wals_ok : wal_set_ok NewWalSet.
Proof. intros n size H. simpl in H. by rewrite lookup_empty in H. Qed.

Lemma wal_step_ok s s' : wal_step s s' → wal_set_ok s → wal_set_ok s'.
Proof.
  destruct 1; intros Hok; [by apply add_wal_ok|by apply delete_wals_ok|].
  apply new_wals_ok.
Qed.

Lemma ordered_wals_elem m n size : (n, size) ∈ ordered_wals m ↔ m !! n = Some size.
Proof.
  unfold ordered_wals. by rewrite insertion_sort_perm, elem_of_map_to_list.
Qed.

Lemma check_loop_ok get logs ws :
  check_loop get logs ws = WalsOk ↔
  ∀ n size, (n, size) ∈ ws → HasSyncedSize size = true →
    ∃ name disk, logs !! n = Some name ∧ get name = Some disk ∧ size <= disk.
Proof.
  induction ws as [|[n size] ws IH]; simpl.
  { split; [|done]. intros _ n size ?%not_elem_of_nil. done. }
  assert (Hc : ∀ P : Z → Z → Prop, (∀ m sz, (m, sz) ∈ (n, size) :: ws → P m sz) ↔
    P n size ∧ ∀ m sz, (m, sz) ∈ ws → P m sz).
  { intros P. split; [intros H; split; [apply H; left|intros; apply H; by right]|].
    intros [H1 H2] m sz [[= -> ->]|H]%elem_of_cons; auto. }
  rewrite Hc. destruct (HasSyncedSize size) eqn:Es; simpl.
  2: { rewrite IH. split; [intros H; split; [done|exact H]|by intros [_ H]]. }
  destruct (logs !! n) as [name|] eqn:E1; [destruct (get name) as [disk|] eqn:E2|].
  - destruct (Z.ltb_spec disk size) as [Hlt|Hle].
    + split; [done|]. intros [H _]. destruct (H eq_refl) as (? & ? & [= <-] & E & ?).
      rewrite E2 in E. injection E as <-. lia.
    + rewrite IH. split; [|by intros [_ H]]. intros H. split; [eauto|exact H].
  - split; [done|]. intros [H _]. destruct (H eq_refl) as (? & ? & [= <-] & E & ?). congruence.
  - split; [done|]. intros [H _]. destruct (H eq_refl) as (? & ? & E & _). congruence.
Qed.

(** ** The properties *)

(** No operation leaves a log below the minimum to keep in the set, and
    deletion removes exactly the logs before its number; additions that carry
    synced sizes all succeed and end in the same set whatever the order in
    which their edits are applied. *)
Theorem wal_set_correct s ws ws' :
  rtc wal_step NewWalSet s → ws ≡ₚ ws' → Forall synced ws →
  wal_set_ok s ∧
  (∀ n number, wals_ (DeleteWalsBefore number s) !! n = if n <? number then None else wals_ s !! n) ∧
  AddWals ws s = AddWals ws' s ∧ (AddWals ws s).2 = true.
Proof.
  intros Hr Hp Hs. assert (Hok : wal_set_ok s).
  { apply (rtc_invariant _ _ _ _ wal_step_ok Hr), new_wals_ok. }
  split; [done|]. split; [|by apply add_synced_perm].
  intros n number. by apply delete_wals_ok.
Qed.

(** [CheckWals] succeeds exactly when every synced log of the set is on
    disk with at least its synced size. *)
Theorem check_wals_correct get logs s :
  CheckWals get logs s = WalsOk ↔
  ∀ n size, wals_ s !! n = Some size → HasSyncedSize size = true →
    ∃ name disk, logs !! n = Some name ∧ get name = Some disk ∧ size <= disk.
Proof.
  unfold CheckWals. rewrite check_loop_ok.
  by setoid_rewrite ordered_wals_elem.
Qed.

(** ** Witnesses *)

Lemma wal_set_correct_witness :
  AddWals [mkWalAddition 7 100; mkWalAddition 7 40; mkWalAddition 8 5] NewWalSet =
  AddWals [mkWalAddition 8 5; mkWalAddition 7 40; mkWalAddition 7 100] NewWalSet ∧
  wals_ (AddWals [mkWalAddition 7 100; mkWalAddition 7 40; mkWalAddition 8 5] NewWalSet).1 !! 7 = Some 100.
Proof.
  split; [|vm_compute; reflexivity].
  refine (proj1 (proj2 (proj2 (wal_set_correct NewWalSet _
    [mkWalAddition 8 5; mkWalAddition 7 40; mkWalAddition 7 100] (rtc_refl _ _) _ _)))).
  - apply (Permutation_rev [mkWalAddition 7 100; mkWalAddition 7 40; mkWalAddition 8 5]).
  - repeat constructor.
Defined.
