(* ===== verification/FileMeta.v ===== *)
(** * Metadata of table files

    Models [FileDescriptor] and [FileMetaData] of [src/db/version_edit.h]: the
    fields the modelled components read or write.  Pointers to metadata are
    modelled by the metadata; where an operation mutates a shared file (the
    [being_compacted] mark), the component's model says so. *)

From S2P Require Import Prelude Coding BlobIndex Comparator DbFormat.

Definition kFileNumberMask : Z := 4611686018427387903. (* 0x3FFFFFFFFFFFFFFF *)

Definition PackFileNumberAndPathId (number path_id : Z) : Z :=
  Z.lor number (path_id *64 (kFileNumberMask + 1)).

Record FileMetaData := mkFile {
  packed_number_and_path_id : Z;
  file_size : Z;
  smallest_seqno : Z;
  largest_seqno : Z;
  smallest : key;  (* encoded internal keys *)
  largest : key;
  compensated_file_size : Z;
  num_entries : Z;
  num_deletions : Z;
  raw_key_size : Z;
  raw_value_size : Z;
  num_range_deletions : Z;
  compensated_range_deletion_size : Z;
  being_compacted : bool;
  marked_for_compaction : bool;
  oldest_ancester_time : Z;
  file_creation_time : Z;
  epoch_number : Z;
  temperature : Z;
  oldest_blob_file_number : Z;
  file_checksum : list byte;
  file_checksum_func_name : list byte;
  unique_id : Z * Z;
  tail_size : Z;
  user_defined_timestamps_persisted : bool;
}.

#[export] Instance file_eta : Eta FileMetaData := λ f,
  mkFile (packed_number_and_path_id f) (file_size f) (smallest_seqno f) (largest_seqno f)
    (smallest f) (largest f) (compensated_file_size f) (num_entries f) (num_deletions f)
    (raw_key_size f) (raw_value_size f) (num_range_deletions f)
    (compensated_range_deletion_size f) (being_compacted f) (marked_for_compaction f)
    (oldest_ancester_time f) (file_creation_time f) (epoch_number f) (temperature f)
    (oldest_blob_file_number f) (file_checksum f) (file_checksum_func_name f) (unique_id f)
    (tail_size f) (user_defined_timestamps_persisted f).

Definition GetNumber (f : FileMetaData) : Z := Z.land (packed_number_and_path_id f) kFileNumberMask.
Definition GetPathId (f : FileMetaData) : Z :=
  packed_number_and_path_id f / (kFileNumberMask + 1).
Definition GetFileSize (f : FileMetaData) : Z := file_size f.

(** [kUnknownFileChecksumFuncName], the string Unknown. *)
Definition kUnknownFileChecksumFuncName : list byte := [x55; x6e; x6b; x6e; x6f; x77; x6e].
Definition kUnknownEpochNumber : Z := 0.
Definition kInvalidBlobFileNumber : Z := 0.

(** A file as a fresh [FileDescriptor(number, 0, size)] with the given bounds
    and default metadata. *)
Definition new_file (number size : Z) (lo hi : key) : FileMetaData :=
  mkFile (PackFileNumberAndPathId number 0) size kMaxSequenceNumber 0 lo hi
    0 0 0 0 0 0 0 false false 0 0 0 0 0 [] kUnknownFileChecksumFuncName (0, 0) 0 true.

Definition set_being_compacted (b : bool) (f : FileMetaData) : FileMetaData :=
  f <| being_compacted := b |>.

Definition set_bounds (lo hi : key) (sseq lseq : Z) (f : FileMetaData) : FileMetaData :=
  mkFile (packed_number_and_path_id f) (file_size f) sseq lseq lo hi
    (compensated_file_size f) (num_entries f) (num_deletions f)
    (raw_key_size f) (raw_value_size f) (num_range_deletions f)
    (compensated_range_deletion_size f) (being_compacted f) (marked_for_compaction f)
    (oldest_ancester_time f) (file_creation_time f) (epoch_number f) (temperature f)
    (oldest_blob_file_number f) (file_checksum f) (file_checksum_func_name f) (unique_id f)
    (tail_size f) (user_defined_timestamps_persisted f).

Definition UpdateBoundariesForRange `{Comparator} (start fin : key) (seqno : Z)
    (f : FileMetaData) : FileMetaData :=
  let lo := if (length (smallest f) =? 0)%nat ||
               match InternalKeyCompare start (smallest f) with Lt => true | _ => false end
            then start else smallest f in
  let hi := if (length (largest f) =? 0)%nat ||
               match InternalKeyCompare (largest f) fin with Lt => true | _ => false end
            then fin else largest f in
  set_bounds lo hi (Z.min (smallest_seqno f) seqno) (Z.max (largest_seqno f) seqno) f.

(** The oldest blob file a blob reference leaves a file with; [None] is the
    corruption error. *)
Definition note_blob (value : list byte) (f : FileMetaData) : option FileMetaData :=
  match DecodeBlobIndex value with
  | None => None
  | Some b =>
      if negb (IsInlined b) && negb (HasTTL b) then
        if blob_file_number b =? kInvalidBlobFileNumber then None
        else if (oldest_blob_file_number f =? kInvalidBlobFileNumber) ||
                (blob_file_number b <? oldest_blob_file_number f)
        then Some (f <| oldest_blob_file_number := blob_file_number b |>) else Some f
      else Some f
  end.

(** The bounds of a file grown key by key, in order. *)
Definition UpdateBoundaries (k value : list byte) (seqno value_type : Z) (f : FileMetaData)
    : option FileMetaData :=
  f' ← (if value_type =? kTypeBlobIndex then note_blob value f else Some f);
  Some (set_bounds (if (length (smallest f') =? 0)%nat then k else smallest f') k
    (Z.min (smallest_seqno f') seqno) (Z.max (largest_seqno f') seqno) f').

Definition smallest_ukey (f : FileMetaData) : key := ExtractUserKey (smallest f).
Definition largest_ukey (f : FileMetaData) : key := ExtractUserKey (largest f).

Lemma pack_number number path_id f :
  0 <= number <= kFileNumberMask → 0 <= path_id < 4 →
  packed_number_and_path_id f = PackFileNumberAndPathId number path_id →
  GetNumber f = number ∧ GetPathId f = path_id.
Proof.
  intros Hn Hp Hf. unfold GetNumber, GetPathId. rewrite Hf. unfold PackFileNumberAndPathId.
  change kFileNumberMask with (Z.ones 62) in *. change (Z.ones 62 + 1) with (2 ^ 62) in *.
  assert (Hm : Z.ones 62 = 2 ^ 62 - 1) by done.
  rewrite u64_id by (unfold u64_ok; lia). rewrite lor_mul_add by lia.
  rewrite Z.land_ones by lia. split.
  - rewrite Z.mod_add by lia. apply Z.mod_small. lia.
  - rewrite Z.div_add, Z.div_small by lia. lia.
Qed.
