(* ===== verification/VersionEdit.v ===== *)
(** * Version edits

    Models [VersionEdit] of [src/db/version_edit.h] and [.cc]: the record of
    changes between two versions and its manifest encoding.  A field with its
    [has_] flag is an option; [deleted_files_], a [std::set], is the list of its
    elements in ascending order. *)

From S2P Require Import Prelude Coding BlobIndex Comparator DbFormat ManifestRecords FileMeta.

(** ** Tags *)

Definition kComparator : Z := 1.
Definition kLogNumber : Z := 2.
Definition kNextFileNumber : Z := 3.
Definition kLastSequence : Z := 4.
Definition kCompactCursor : Z := 5.
Definition kDeletedFile : Z := 6.
Definition kNewFile : Z := 7.
Definition kPrevLogNumber : Z := 9.
Definition kMinLogNumberToKeep : Z := 10.
Definition kNewFile2 : Z := 100.
Definition kNewFile3 : Z := 102.
Definition kNewFile4 : Z := 103.
Definition kColumnFamily : Z := 200.
Definition kColumnFamilyAdd : Z := 201.
Definition kColumnFamilyDrop : Z := 202.
Definition kMaxColumnFamily : Z := 203.
Definition kInAtomicGroup : Z := 300.
Definition kBlobFileAddition : Z := 400.
Definition kBlobFileGarbage : Z := 401.
Definition kTagSafeIgnoreMask : Z := 8192.
Definition kDbId : Z := 8193.
Definition kBlobFileAddition_DEPRECATED : Z := 8194.
Definition kBlobFileGarbage_DEPRECATED : Z := 8195.
Definition kWalAddition : Z := 8196.
Definition kWalDeletion : Z := 8197.
Definition kFullHistoryTsLow : Z := 8198.
Definition kWalAddition2 : Z := 8199.
Definition kWalDeletion2 : Z := 8200.
Definition kPersistUserDefinedTimestamps : Z := 8201.

Definition kTerminate : Z := 1.
Definition kNeedCompaction : Z := 2.
Definition kMinLogNumberToKeepHack : Z := 3.
Definition kOldestBlobFileNumber : Z := 4.
Definition kOldestAncesterTime : Z := 5.
Definition kFileCreationTime : Z := 6.
Definition kFileChecksum : Z := 7.
Definition kFileChecksumFuncName : Z := 8.
Definition kTemperature : Z := 9.
Definition kUniqueId : Z := 12.
Definition kEpochNumber : Z := 13.
Definition kCompensatedRangeDeletionSize : Z := 14.
Definition kTailSize : Z := 15.
Definition kUserDefinedTimestampsPersisted : Z := 16.
Definition kCustomTagNonSafeIgnoreMask : Z := 64.
Definition kPathId : Z := 65.

Definition kTemperatureUnknown : Z := 0.
Definition kTemperatureCold : Z := 12.

(** ** The edit *)

Record VersionEdit := mkEdit {
  max_level_ : Z;
  db_id_ : option (list byte);
  comparator_ : option (list byte);
  log_number_ : option Z;
  prev_log_number_ : option Z;
  next_file_number_ : option Z;
  max_column_family_ : option Z;
  min_log_number_to_keep_ : option Z;
  last_sequence_ : option Z;
  compact_cursors_ : list (Z * key);
  deleted_files_ : list (Z * Z);
  new_files_ : list (Z * FileMetaData);
  blob_file_additions_ : list BlobFileAddition;
  blob_file_garbages_ : list BlobFileGarbage;
  wal_additions_ : list WalAddition;
  wal_deletion_ : Z;
  column_family_ : Z;
  is_column_family_drop_ : bool;
  is_column_family_add_ : bool;
  column_family_name_ : list byte;
  remaining_entries_ : Z;
  is_in_atomic_group_ : bool;
  full_history_ts_low_ : list byte;
  persist_user_defined_timestamps_ : option bool;
  files_to_quarantine_ : list Z;
}.

#[export] Instance edit_eta : Eta VersionEdit := λ e,
  mkEdit (max_level_ e) (db_id_ e) (comparator_ e) (log_number_ e) (prev_log_number_ e)
    (next_file_number_ e) (max_column_family_ e) (min_log_number_to_keep_ e) (last_sequence_ e)
    (compact_cursors_ e) (deleted_files_ e) (new_files_ e) (blob_file_additions_ e)
    (blob_file_garbages_ e) (wal_additions_ e) (wal_deletion_ e) (column_family_ e)
    (is_column_family_drop_ e) (is_column_family_add_ e) (column_family_name_ e)
    (remaining_entries_ e) (is_in_atomic_group_ e) (full_history_ts_low_ e)
    (persist_user_defined_timestamps_ e) (files_to_quarantine_ e).

Definition NewVersionEdit : VersionEdit :=
  mkEdit 0 None None None None None None None None [] [] [] [] [] [] 0 0 false false [] 0 false []
    None [].

(** [std::set] insertion. *)
Definition pair_compare (a b : Z * Z) : comparison :=
  match a.1 ?= b.1 with Eq => a.2 ?= b.2 | c => c end.

Fixpoint set_insert (x : Z * Z) (l : list (Z * Z)) : list (Z * Z) :=
  match l with
  | [] => [x]
  | y :: l' =>
      match pair_compare x y with
      | Lt => x :: l
      | Eq => l
      | Gt => y :: set_insert x l'
      end
  end.

Definition DeleteFile (level file : Z) (e : VersionEdit) : VersionEdit :=
  e <| deleted_files_ := set_insert (level, file) (deleted_files_ e) |>.

Definition SetLastSequence (seq : Z) (e : VersionEdit) : VersionEdit :=
  e <| last_sequence_ := Some seq |>.

(** [AddFile(level, f)] *)
Definition EditAddFile (level : Z) (f : FileMetaData) (e : VersionEdit) : VersionEdit :=
  let e1 := e <| new_files_ := new_files_ e ++ [(level, f)] |> in
  let e2 := e1 <| files_to_quarantine_ := files_to_quarantine_ e1 ++ [GetNumber f] |> in
  match last_sequence_ e with
  | Some s => if s <? largest_seqno f then SetLastSequence (largest_seqno f) e2 else e2
  | None => SetLastSequence (largest_seqno f) e2
  end.

Definition AddBlobFile (b : BlobFileAddition) (e : VersionEdit) : VersionEdit :=
  let e1 := e <| blob_file_additions_ := blob_file_additions_ e ++ [b] |> in
  e1 <| files_to_quarantine_ := files_to_quarantine_ e1 ++ [bfa_blob_file_number b] |>.

Definition AddBlobFileGarbage (b : BlobFileGarbage) (e : VersionEdit) : VersionEdit :=
  e <| blob_file_garbages_ := blob_file_garbages_ e ++ [b] |>.

Definition SetCompactCursors (by_level : list key) (e : VersionEdit) : VersionEdit :=
  e <| compact_cursors_ :=
    filter (λ c, Valid c.2 = true) (imap (λ i k, (Z.of_nat i, k)) by_level) |>.

Definition NumEntries (e : VersionEdit) : nat :=
  (length (new_files_ e) + length (deleted_files_ e) + length (blob_file_additions_ e) +
   length (blob_file_garbages_ e) + length (wal_additions_ e) +
   (if (wal_deletion_ e =? 0)%Z then 0 else 1))%nat.

(** ** Encoding *)

Definition put_tag (tag : Z) : list byte := EncodeVarint32 tag.
Definition put_slice (s : list byte) : list byte := PutLengthPrefixedSlice [] s.

(** A field written only when it is present. *)
Definition when_some {A} (o : option A) (f : A → list byte) : list byte :=
  match o with Some a => f a | None => [] end.
Definition when (b : bool) (bs : list byte) : list byte := if b then bs else [].

Definition EncodeFileBoundaries (f : FileMetaData) (ts_sz : nat) : list byte :=
  if (ts_sz =? 0)%nat || user_defined_timestamps_persisted f
  then put_slice (smallest f) ++ put_slice (largest f)
  else put_slice (StripTimestampFromInternalKey [] (smallest f) ts_sz) ++
       put_slice (StripTimestampFromInternalKey [] (largest f) ts_sz).

(** A customized field of a new file: tag, length and bytes. *)
Definition custom (tag : Z) (payload : list byte) : list byte := put_tag tag ++ put_slice payload.

(** The fields written only when they differ from their defaults. *)
Definition encode_optional_fields (min_log : option Z) (f : FileMetaData) : list byte :=
  when (negb (GetPathId f =? 0)) (custom kPathId [byte_of (GetPathId f)]) ++
  when (negb (temperature f =? kTemperatureUnknown)) (custom kTemperature [byte_of (temperature f)]) ++
  when (marked_for_compaction f) (custom kNeedCompaction [x01]) ++
  when_some min_log (λ n, custom kMinLogNumberToKeepHack (EncodeFixed64 n)) ++
  when (negb (oldest_blob_file_number f =? kInvalidBlobFileNumber))
    (custom kOldestBlobFileNumber (EncodeVarint64 (oldest_blob_file_number f))) ++
  when (bool_decide (unique_id f ≠ kNullUniqueId64x2))
    (custom kUniqueId (EncodeUniqueIdBytes (unique_id f))) ++
  when (negb (compensated_range_deletion_size f =? 0))
    (custom kCompensatedRangeDeletionSize (EncodeVarint64 (compensated_range_deletion_size f))) ++
  when (negb (tail_size f =? 0)) (custom kTailSize (EncodeVarint64 (tail_size f))) ++
  when (negb (user_defined_timestamps_persisted f)) (custom kUserDefinedTimestampsPersisted [x00]) ++
  put_tag kTerminate.

Definition encode_custom_fields (min_log : option Z) (f : FileMetaData) : list byte :=
  custom kOldestAncesterTime (EncodeVarint64 (oldest_ancester_time f)) ++
  custom kFileCreationTime (EncodeVarint64 (file_creation_time f)) ++
  custom kEpochNumber (EncodeVarint64 (epoch_number f)) ++
  when (bool_decide (file_checksum_func_name f ≠ kUnknownFileChecksumFuncName))
    (custom kFileChecksum (file_checksum f) ++
     custom kFileChecksumFuncName (file_checksum_func_name f)) ++
  encode_optional_fields min_log f.

(** One entry of [new_files_]; the minimum log number goes with the first. *)
Definition encode_new_file (ts_sz : nat) (min_log : option Z) (level : Z) (f : FileMetaData)
    : list byte :=
  put_tag kNewFile4 ++ EncodeVarint32 (u32 level) ++ EncodeVarint64 (GetNumber f) ++
  EncodeVarint64 (GetFileSize f) ++ EncodeFileBoundaries f ts_sz ++
  EncodeVarint64 (smallest_seqno f) ++ EncodeVarint64 (largest_seqno f) ++
  encode_custom_fields min_log f.

Definition encodable_file (f : FileMetaData) : bool :=
  Valid (smallest f) && Valid (largest f) && negb (epoch_number f =? kUnknownEpochNumber).

Fixpoint encode_new_files (ts_sz : nat) (min_log : option Z) (fs : list (Z * FileMetaData))
    : option (list byte) :=
  match fs with
  | [] => Some []
  | (level, f) :: fs' =>
      if encodable_file f
      then app (encode_new_file ts_sz min_log level f) <$> encode_new_files ts_sz None fs'
      else None
  end.

Definition encode_header (e : VersionEdit) : list byte :=
  when_some (db_id_ e) (λ s, put_tag kDbId ++ put_slice s) ++
  when_some (comparator_ e) (λ s, put_tag kComparator ++ put_slice s) ++
  when_some (log_number_ e) (λ n, put_tag kLogNumber ++ EncodeVarint64 n) ++
  when_some (prev_log_number_ e) (λ n, put_tag kPrevLogNumber ++ EncodeVarint64 n) ++
  when_some (next_file_number_ e) (λ n, put_tag kNextFileNumber ++ EncodeVarint64 n) ++
  when_some (max_column_family_ e) (λ n, put_tag kMaxColumnFamily ++ EncodeVarint32 n) ++
  when_some (min_log_number_to_keep_ e) (λ n, put_tag kMinLogNumberToKeep ++ EncodeVarint64 n) ++
  when_some (last_sequence_ e) (λ n, put_tag kLastSequence ++ EncodeVarint64 n).

Definition encode_trailer (e : VersionEdit) : list byte :=
  when (negb (wal_deletion_ e =? 0))
    (put_tag kWalDeletion2 ++ put_slice (EncodeWalDeletion (wal_deletion_ e))) ++
  when (negb (column_family_ e =? 0)) (put_tag kColumnFamily ++ EncodeVarint32 (column_family_ e)) ++
  when (is_column_family_add_ e) (put_tag kColumnFamilyAdd ++ put_slice (column_family_name_ e)) ++
  when (is_column_family_drop_ e) (put_tag kColumnFamilyDrop) ++
  when (is_in_atomic_group_ e) (put_tag kInAtomicGroup ++ EncodeVarint32 (remaining_entries_ e)) ++
  when (bool_decide (full_history_ts_low_ e ≠ []))
    (put_tag kFullHistoryTsLow ++ put_slice (full_history_ts_low_ e)) ++
  when_some (persist_user_defined_timestamps_ e)
    (λ b, put_tag kPersistUserDefinedTimestamps ++ put_slice [if b then x01 else x00]).

(** The bytes [EncodeTo] appends; [None] is its result [false]. *)
Definition EncodeTo (ts_sz : nat) (e : VersionEdit) : option (list byte) :=
  files ← encode_new_files ts_sz (min_log_number_to_keep_ e) (new_files_ e);
  Some (
    encode_header e ++
    concat ((λ c, when (Valid c.2) (put_tag kCompactCursor ++ EncodeVarint32 (u32 c.1) ++ put_slice c.2))
              <$> compact_cursors_ e) ++
    concat ((λ d, put_tag kDeletedFile ++ EncodeVarint32 (u32 d.1) ++ EncodeVarint64 d.2)
              <$> deleted_files_ e) ++
    files ++
    concat ((λ b, put_tag kBlobFileAddition ++ EncodeBlobFileAddition b) <$> blob_file_additions_ e) ++
    concat ((λ b, put_tag kBlobFileGarbage ++ EncodeBlobFileGarbage b) <$> blob_file_garbages_ e) ++
    concat ((λ w, put_tag kWalAddition2 ++ put_slice (EncodeWalAddition w)) <$> wal_additions_ e) ++
    encode_trailer e).

(** ** Decoding *)

(** A length-prefixed internal key that parses; the message is the caller's. *)
Definition GetInternalKey (msg : string) : decoder key :=
  let! str := read GetLengthPrefixedSlice msg in
  if Valid str then dret str else dfail msg.

(** The conversion of a [uint32_t] to [int]. *)
Definition s32 (v : Z) : Z := if v <? 2 ^ 31 then v else v - 2 ^ 32.

Definition GetLevel (msg : string) : decoder Z :=
  let! v := read GetVarint32 msg in dret (s32 v).

Definition note_level (level : Z) (e : VersionEdit) : VersionEdit :=
  e <| max_level_ := Z.max (max_level_ e) level |>.

(** What the loop over customized fields changes: the file, its path and the
    minimum log number of the edit. *)
Record CustomState := mkCustom {
  cs_file : FileMetaData;
  cs_path_id : Z;
  cs_min_log : option Z;
}.

#[export] Instance custom_eta : Eta CustomState := λ s, mkCustom (cs_file s) (cs_path_id s) (cs_min_log s).

(** A field that holds one varint. *)
Definition varint_field (field : list byte) (msg : string) (k : Z → CustomState) : Status CustomState :=
  match GetVarint64 field with Some (v, _) => Ok (k v) | None => Corruption msg end.

(** A field that holds one byte. *)
Definition byte_field (field : list byte) (msg : string) (k : Z → Status CustomState) : Status CustomState :=
  match field with [c] => k (byte_val c) | _ => Corruption msg end.

Definition apply_custom (tag : Z) (field : list byte) (s : CustomState) : Status CustomState :=
  let f := cs_file s in
  if tag =? kPathId then
    byte_field field "path_id field wrong size" (λ c,
      if 3 <? c then Corruption "path_id wrong vaue" else Ok (s <| cs_path_id := c |>))
  else if tag =? kOldestAncesterTime then
    varint_field field "invalid oldest ancester time" (λ v,
      s <| cs_file := f <| oldest_ancester_time := v |> |>)
  else if tag =? kFileCreationTime then
    varint_field field "invalid file creation time" (λ v,
      s <| cs_file := f <| file_creation_time := v |> |>)
  else if tag =? kEpochNumber then
    varint_field field "invalid epoch number" (λ v, s <| cs_file := f <| epoch_number := v |> |>)
  else if tag =? kFileChecksum then Ok (s <| cs_file := f <| file_checksum := field |> |>)
  else if tag =? kFileChecksumFuncName then
    Ok (s <| cs_file := f <| file_checksum_func_name := field |> |>)
  else if tag =? kNeedCompaction then
    byte_field field "need_compaction field wrong size" (λ c,
      Ok (s <| cs_file := f <| marked_for_compaction := c =? 1 |> |>))
  else if tag =? kMinLogNumberToKeepHack then
    match GetFixed64 field with
    | Some (v, _) => Ok (s <| cs_min_log := Some v |>)
    | None => Corruption "deleted log number malformatted"
    end
  else if tag =? kOldestBlobFileNumber then
    varint_field field "invalid oldest blob file number" (λ v,
      s <| cs_file := f <| oldest_blob_file_number := v |> |>)
  else if tag =? kTemperature then
    byte_field field "temperature field wrong size" (λ c,
      Ok (if c <=? kTemperatureCold then s <| cs_file := f <| temperature := c |> |> else s))
  else if tag =? kUniqueId then
    match DecodeUniqueIdBytes field with
    | Some id => Ok (s <| cs_file := f <| unique_id := id |> |>)
    | None => Corruption "invalid unique id"
    end
  else if tag =? kCompensatedRangeDeletionSize then
    varint_field field "Invalid compensated range deletion size" (λ v,
      s <| cs_file := f <| compensated_range_deletion_size := v |> |>)
  else if tag =? kTailSize then
    varint_field field "invalid tail start offset" (λ v, s <| cs_file := f <| tail_size := v |> |>)
  else if tag =? kUserDefinedTimestampsPersisted then
    byte_field field "user-defined timestamps persisted field wrong size" (λ c,
      Ok (s <| cs_file := f <| user_defined_timestamps_persisted := c =? 1 |> |>))
  else if negb (Z.land tag kCustomTagNonSafeIgnoreMask =? 0)
  then Corruption "new-file4 custom field not supported"
  else Ok s.

Definition custom_step (s : CustomState) : decoder (CustomState * bool) :=
  let! tag := read GetVarint32 "new-file4 custom field" in
  if tag =? kTerminate then dret (s, false)
  else
    let! field := read GetLengthPrefixedSlice "new-file4 custom field length prefixed slice error" in
    match apply_custom tag field s with
    | Ok s' => dret (s', true)
    | Corruption msg => dfail msg
    end.

Definition set_fd (number path_id size sseq lseq : Z) (f : FileMetaData) : FileMetaData :=
  mkFile (PackFileNumberAndPathId number path_id) size sseq lseq (smallest f) (largest f)
    (compensated_file_size f) (num_entries f) (num_deletions f) (raw_key_size f) (raw_value_size f)
    (num_range_deletions f) (compensated_range_deletion_size f) (being_compacted f)
    (marked_for_compaction f) (oldest_ancester_time f) (file_creation_time f) (epoch_number f)
    (temperature f) (oldest_blob_file_number f) (file_checksum f) (file_checksum_func_name f)
    (unique_id f) (tail_size f) (user_defined_timestamps_persisted f).

Definition push_file (level : Z) (f : FileMetaData) (e : VersionEdit) : VersionEdit :=
  e <| new_files_ := new_files_ e ++ [(level, f)] |>.

(** The minimum log number read by the customized fields, if any. *)
Definition note_min_log (o : option Z) (e : VersionEdit) : VersionEdit :=
  match o with Some n => e <| min_log_number_to_keep_ := Some n |> | None => e end.

Definition DecodeNewFile4From (e : VersionEdit) : decoder VersionEdit :=
  let msg := "new-file4 entry"%string in
  let! level := GetLevel msg in
  let! number := read GetVarint64 msg in
  let! size := read GetVarint64 msg in
  let! lo := GetInternalKey msg in
  let! hi := GetInternalKey msg in
  let! sseq := read GetVarint64 msg in
  let! lseq := read GetVarint64 msg in
  let! s := iterate custom_step (mkCustom (new_file 0 0 lo hi) 0 None) in
  dret (push_file level (set_fd number (cs_path_id s) size sseq lseq (cs_file s))
          (note_min_log (cs_min_log s) (note_level level e))).

(** The file entries of the older formats. *)
Definition decode_new_file (e : VersionEdit) : decoder VersionEdit :=
  let msg := "new-file entry"%string in
  let! level := GetLevel msg in
  let! number := read GetVarint64 msg in
  let! size := read GetVarint64 msg in
  let! lo := GetInternalKey msg in
  let! hi := GetInternalKey msg in
  dret (push_file level (set_fd number 0 size kMaxSequenceNumber 0 (new_file 0 0 lo hi)) (note_level level e)).

Definition decode_new_file2 (e : VersionEdit) : decoder VersionEdit :=
  let msg := "new-file2 entry"%string in
  let! level := GetLevel msg in
  let! number := read GetVarint64 msg in
  let! size := read GetVarint64 msg in
  let! lo := GetInternalKey msg in
  let! hi := GetInternalKey msg in
  let! sseq := read GetVarint64 msg in
  let! lseq := read GetVarint64 msg in
  dret (push_file level (set_fd number 0 size sseq lseq (new_file 0 0 lo hi)) (note_level level e)).

Definition decode_new_file3 (e : VersionEdit) : decoder VersionEdit :=
  let msg := "new-file3 entry"%string in
  let! level := GetLevel msg in
  let! number := read GetVarint64 msg in
  let! path_id := read GetVarint32 msg in
  let! size := read GetVarint64 msg in
  let! lo := GetInternalKey msg in
  let! hi := GetInternalKey msg in
  let! sseq := read GetVarint64 msg in
  let! lseq := read GetVarint64 msg in
  dret (push_file level (set_fd number path_id size sseq lseq (new_file 0 0 lo hi)) (note_level level e)).

(** An entry inside a length-prefixed slice; bytes after it are ignored. *)
Definition decode_nested {A} (msg : string) (d : decoder A) : decoder A :=
  let! encoded := read GetLengthPrefixedSlice msg in
  match d encoded with
  | Ok (a, _) => dret a
  | Corruption msg' => dfail msg'
  end.

Definition set_wal_deletion (number : Z) (e : VersionEdit) : VersionEdit := e <| wal_deletion_ := number |>.
Definition add_wal_addition (w : WalAddition) (e : VersionEdit) : VersionEdit :=
  e <| wal_additions_ := wal_additions_ e ++ [w] |>.

(** A tag from the future with the ignorable bit: skip its field. *)
Definition skip_field {A} (a : A) : decoder A :=
  let msg := "safely ignoreable tag length error"%string in
  let! len := read GetVarint32 msg in
  λ input, if Z.of_nat (length input) <? len then Corruption msg else Ok (a, drop (Z.to_nat len) input).

(** The [switch] on the tag. *)
Definition decode_entry (e : VersionEdit) (tag : Z) : decoder VersionEdit :=
  if tag =? kDbId then
    let! s := read GetLengthPrefixedSlice "db id" in dret (e <| db_id_ := Some s |>)
  else if tag =? kComparator then
    let! s := read GetLengthPrefixedSlice "comparator name" in dret (e <| comparator_ := Some s |>)
  else if tag =? kLogNumber then
    let! n := read GetVarint64 "log number" in dret (e <| log_number_ := Some n |>)
  else if tag =? kPrevLogNumber then
    let! n := read GetVarint64 "previous log number" in dret (e <| prev_log_number_ := Some n |>)
  else if tag =? kNextFileNumber then
    let! n := read GetVarint64 "next file number" in dret (e <| next_file_number_ := Some n |>)
  else if tag =? kMaxColumnFamily then
    let! n := read GetVarint32 "max column family" in dret (e <| max_column_family_ := Some n |>)
  else if tag =? kMinLogNumberToKeep then
    let! n := read GetVarint64 "min log number to kee" in dret (e <| min_log_number_to_keep_ := Some n |>)
  else if tag =? kLastSequence then
    let! n := read GetVarint64 "last sequence number" in dret (e <| last_sequence_ := Some n |>)
  else if tag =? kCompactCursor then
    let! level := GetLevel "compaction cursor" in
    let! k := GetInternalKey "compaction cursor" in
    let e' := note_level level e in
    dret (e' <| compact_cursors_ := compact_cursors_ e' ++ [(level, k)] |>)
  else if tag =? kDeletedFile then
    let! level := GetLevel "deleted file" in
    let! number := read GetVarint64 "deleted file" in
    dret (DeleteFile level number (note_level level e))
  else if tag =? kNewFile then decode_new_file e
  else if tag =? kNewFile2 then decode_new_file2 e
  else if tag =? kNewFile3 then decode_new_file3 e
  else if tag =? kNewFile4 then DecodeNewFile4From e
  else if (tag =? kBlobFileAddition) || (tag =? kBlobFileAddition_DEPRECATED) then
    let! b := DecodeBlobFileAddition in dret (AddBlobFile b e)
  else if (tag =? kBlobFileGarbage) || (tag =? kBlobFileGarbage_DEPRECATED) then
    let! b := DecodeBlobFileGarbage in dret (AddBlobFileGarbage b e)
  else if tag =? kWalAddition then
    let! w := DecodeWalAddition in dret (add_wal_addition w e)
  else if tag =? kWalAddition2 then
    let! w := decode_nested "WalAddition not prefixed by length" DecodeWalAddition in
    dret (add_wal_addition w e)
  else if tag =? kWalDeletion then
    let! n := DecodeWalDeletion in dret (set_wal_deletion n e)
  else if tag =? kWalDeletion2 then
    let! n := decode_nested "WalDeletion not prefixed by length" DecodeWalDeletion in
    dret (set_wal_deletion n e)
  else if tag =? kColumnFamily then
    let! n := read GetVarint32 "set column family id" in dret (e <| column_family_ := n |>)
  else if tag =? kColumnFamilyAdd then
    let! s := read GetLengthPrefixedSlice "column family add" in
    let e' := e <| is_column_family_add_ := true |> in
    dret (e' <| column_family_name_ := s |>)
  else if tag =? kColumnFamilyDrop then dret (e <| is_column_family_drop_ := true |>)
  else if tag =? kInAtomicGroup then
    let! n := read GetVarint32 "remaining entries" in
    let e' := e <| is_in_atomic_group_ := true |> in
    dret (e' <| remaining_entries_ := n |>)
  else if tag =? kFullHistoryTsLow then
    let! s := read GetLengthPrefixedSlice "full_history_ts_low" in
    if bool_decide (s = []) then dfail "full_history_ts_low: empty"
    else dret (e <| full_history_ts_low_ := s |>)
  else if tag =? kPersistUserDefinedTimestamps then
    let! s := read GetLengthPrefixedSlice "persist_user_defined_timestamps" in
    match s with
    | [c] => dret (e <| persist_user_defined_timestamps_ := Some (byte_val c =? 1) |>)
    | _ => dfail "persist_user_defined_timestamps field wrong size"
    end
  else if negb (Z.land tag kTagSafeIgnoreMask =? 0) then skip_field e
  else dfail "unknown tag".

(** One iteration of the loop; it ends when no tag can be read. *)
Definition edit_step (e : VersionEdit) : decoder (VersionEdit * bool) := λ input,
  match GetVarint32 input with
  | Some (tag, rest) => (let! e' := decode_entry e tag in dret (e', true)) rest
  | None => match input with [] => Ok ((e, false), []) | _ => Corruption "invalid tag" end
  end.

Definition DecodeFrom (src : list byte) : Status VersionEdit :=
  match iterate edit_step NewVersionEdit src with
  | Ok (e, _) => Ok e
  | Corruption msg => Corruption msg
  end.

(** ** Progress of the decoders *)

#[export] Instance consumes_internal_key msg : Consumes (GetInternalKey msg).
Proof. unfold GetInternalKey. apply _. Qed.
#[export] Instance consumes_level msg : Consumes (GetLevel msg).
Proof. unfold GetLevel. apply _. Qed.
#[export] Instance consumes_custom_step s : Consumes (custom_step s).
Proof.
  unfold custom_step. apply consumes_bind; [apply _|]. intros tag. apply keeps_if; [apply _|].
  apply keeps_bind; [apply _|]. intros field. destruct (apply_custom tag field s); apply _.
Qed.
#[export] Instance keeps_new_file4 e : Keeps (DecodeNewFile4From e).
Proof. unfold DecodeNewFile4From. apply _. Qed.
#[export] Instance keeps_nested {A} msg (d : decoder A) : Keeps (decode_nested msg d).
Proof.
  unfold decode_nested. apply keeps_bind; [apply _|]. intros encoded.
  destruct (d encoded) as [[a rest]|]; apply _.
Qed.
#[export] Instance keeps_skip {A} (a : A) : Keeps (skip_field a).
Proof.
  unfold skip_field. apply keeps_bind; [apply _|]. intros len input b rest.
  destruct (Z.of_nat (length input) <? len); [done|]. intros [= _ <-]. rewrite length_drop. lia.
Qed.

#[export] Instance keeps_entry e tag : Keeps (decode_entry e tag).
Proof.
  unfold decode_entry, decode_new_file, decode_new_file2, decode_new_file3. cbv zeta.
  repeat (apply keeps_if; [try apply _|]); try apply _.
  apply keeps_bind; [apply _|]. intros [|c [|]]; apply _.
Qed.

#[export] Instance advances_edit : Advances edit_step.
Proof.
  intros e input e' rest. unfold edit_step. destruct (GetVarint32 input) as [[tag q]|] eqn:E.
  - intros (x & r & H1 & H2)%dbind_inv. apply varint32_shrinks in E.
    apply keeps in H1. unfold dret in H2. injection H2 as _ <-. lia.
  - by destruct input.
Qed.

(** ** Entries *)

(** Reading [bs] takes the edit from [e] to [e']. *)
Definition reads (e : VersionEdit) (bs : list byte) (e' : VersionEdit) : Prop :=
  ∀ rest, iterate edit_step e (bs ++ rest) = iterate edit_step e' rest.

Lemma reads_nil e : reads e [] e.
Proof. done. Qed.

Lemma reads_app e bs e' bs' e'' : reads e bs e' → reads e' bs' e'' → reads e (bs ++ bs') e''.
Proof. intros H1 H2 rest. by rewrite <- app_assoc, H1. Qed.

Lemma reads_entry e tag bs e' :
  0 <= tag < 2 ^ 32 → decodes (decode_entry e tag) bs e' → reads e (put_tag tag ++ bs) e'.
Proof.
  intros Ht Hd rest. rewrite (iterate_unfold edit_step). unfold edit_step at 1, put_tag.
  rewrite <- app_assoc, get_encode_varint32 by done. unfold dbind. by rewrite Hd.
Qed.

Lemma reads_when (b : bool) e bs e' : (b = true → reads e bs e') → (b = false → e' = e) → reads e (when b bs) e'.
Proof. destruct b; simpl; [auto|]. intros _ Hf. rewrite Hf by done. apply reads_nil. Qed.

(** ** Customized fields of a new file *)

Lemma decodes_custom (c : bool) tag payload s s' rest s'' :
  0 <= tag < 2 ^ 32 → (tag =? kTerminate) = false →
  (c = true → slice_ok payload ∧ apply_custom tag payload s = Ok s') → (c = false → s' = s) →
  decodes (iterate custom_step s') rest s'' →
  decodes (iterate custom_step s) (when c (custom tag payload) ++ rest) s''.
Proof.
  intros Ht Hn Happ Hdef Hrest. destruct c; simpl.
  - destruct (Happ eq_refl) as [Hs Ha]. eapply (decodes_iterate_more custom_step); [|exact Hrest].
    unfold custom. eapply decodes_bind; [by apply decodes_varint32|]. cbv beta. rewrite Hn.
    eapply decodes_last; [by apply decodes_slice|]. cbv beta. rewrite Ha. apply decodes_ret.
  - by rewrite <- Hdef.
Qed.

Lemma varint_slice_ok v : u64_ok v → slice_ok (EncodeVarint64 v).
Proof.
  intros Hv. unfold slice_ok. pose proof (length_encode_varint64_bound v Hv) as Hl.
  unfold kMaxVarint64Length in Hl. lia.
Qed.

Lemma varint_field_ok v msg k : u64_ok v →
  slice_ok (EncodeVarint64 v) ∧ varint_field (EncodeVarint64 v) msg k = Ok (k v).
Proof.
  intros Hv. split; [by apply varint_slice_ok|].
  unfold varint_field. pose proof (get_encode_varint64 v [] Hv) as Hg.
  rewrite app_nil_r in Hg. by rewrite Hg.
Qed.


(** The metadata of a file whose persisted fields fit their encodings. *)
Record meta_ok (f : FileMetaData) : Prop := {
  packed_ok : u64_ok (packed_number_and_path_id f);
  size_ok : u64_ok (file_size f);
  seqnos_ok : u64_ok (smallest_seqno f) ∧ u64_ok (largest_seqno f);
  times_ok : u64_ok (oldest_ancester_time f) ∧ u64_ok (file_creation_time f);
  epoch_ok : u64_ok (epoch_number f);
  checksum_ok : slice_ok (file_checksum f) ∧ slice_ok (file_checksum_func_name f);
  temperature_ok : 0 <= temperature f <= kTemperatureCold;
  blob_ok : u64_ok (oldest_blob_file_number f);
  id_ok : u64_ok (unique_id f).1 ∧ u64_ok (unique_id f).2;
  compensated_ok : u64_ok (compensated_range_deletion_size f);
  tail_ok : u64_ok (tail_size f);
}.

(** The customized fields read back, on a file with bounds [lo] and [hi]: what
    is not persisted has its default, and so has a checksum whose function is
    unknown. *)
Definition persisted_meta (lo hi : key) (f : FileMetaData) : FileMetaData :=
  let known := bool_decide (file_checksum_func_name f ≠ kUnknownFileChecksumFuncName) in
  mkFile 0 0 kMaxSequenceNumber 0 lo hi 0 0 0 0 0 0 (compensated_range_deletion_size f) false
    (marked_for_compaction f) (oldest_ancester_time f) (file_creation_time f) (epoch_number f)
    (temperature f) (oldest_blob_file_number f) (if known then file_checksum f else [])
    (if known then file_checksum_func_name f else kUnknownFileChecksumFuncName) (unique_id f)
    (tail_size f) (user_defined_timestamps_persisted f).

Lemma path_id_range f : u64_ok (packed_number_and_path_id f) → 0 <= GetPathId f < 4.
Proof.
  unfold u64_ok, GetPathId, kFileNumberMask. intros H. split; [apply Z.div_pos; lia|].
  apply Z.div_lt_upper_bound; lia.
Qed.

Lemma when_app c a b : when c (a ++ b) = when c a ++ when c b.
Proof. by destruct c. Qed.

Lemma fixed64_field n :
  u64_ok n → slice_ok (EncodeFixed64 n) ∧ GetFixed64 (EncodeFixed64 n) = Some (n, []).
Proof.
  intros Hn. split; [done|]. unfold GetFixed64. rewrite <- (app_nil_r (EncodeFixed64 n)) at 2.
  rewrite decode_fixed64, u64_id by done. done.
Qed.

(** The next customized field: its tag is known, its payload is read back, and
    where it was not written its value is the default. *)
Ltac norm_custom :=
  cbn [cs_file cs_path_id cs_min_log packed_number_and_path_id file_size smallest_seqno
       largest_seqno smallest largest compensated_file_size num_entries num_deletions raw_key_size
       raw_value_size num_range_deletions compensated_range_deletion_size being_compacted
       marked_for_compaction oldest_ancester_time file_creation_time epoch_number temperature
       oldest_blob_file_number file_checksum file_checksum_func_name unique_id tail_size
       user_defined_timestamps_persisted].
Ltac custom_next written default :=
  lazymatch goal with
  | |- decodes _ (when ?c _ ++ _) _ => eapply (decodes_custom c)
  | |- decodes _ (custom _ _ ++ _) _ => eapply (decodes_custom true)
  end; [done|done|written ()|norm_custom; default ()|norm_custom].

Lemma negb_eqb_false a b : negb (a =? b) = false → a = b.
Proof. destruct (Z.eqb_spec a b); done. Qed.

Lemma apply_min_log n s :
  u64_ok n → slice_ok (EncodeFixed64 n) ∧
    apply_custom kMinLogNumberToKeepHack (EncodeFixed64 n) s = Ok (s <| cs_min_log := Some n |>).
Proof.
  intros Hn. destruct (fixed64_field n Hn) as [H1 H2]. split; [done|].
  change (apply_custom kMinLogNumberToKeepHack (EncodeFixed64 n) s) with
    (match GetFixed64 (EncodeFixed64 n) with
     | Some (v, _) => Ok (s <| cs_min_log := Some v |>)
     | None => Corruption "deleted log number malformatted" end).
  by rewrite H2.
Qed.

Lemma apply_unique_id id s :
  u64_ok id.1 → u64_ok id.2 → slice_ok (EncodeUniqueIdBytes id) ∧
    apply_custom kUniqueId (EncodeUniqueIdBytes id) s =
      Ok (s <| cs_file := (cs_file s) <| unique_id := id |> |>).
Proof.
  intros H1 H2. destruct (decode_unique_id id H1 H2) as [Hl Hd]. split; [by unfold slice_ok; rewrite Hl|].
  change (apply_custom kUniqueId (EncodeUniqueIdBytes id) s) with
    (match DecodeUniqueIdBytes (EncodeUniqueIdBytes id) with
     | Some id => Ok (s <| cs_file := (cs_file s) <| unique_id := id |> |>)
     | None => Corruption "invalid unique id" end).
  by rewrite Hd.
Qed.

(** A field of one byte. *)
Lemma byte_field_ok c msg k : 0 <= c < 256 → byte_field [byte_of c] msg k = k c.
Proof. intros Hc. unfold byte_field. by rewrite byte_val_of, Z.mod_small. Qed.

Lemma apply_temperature c s :
  0 <= c <= kTemperatureCold →
  apply_custom kTemperature [byte_of c] s = Ok (s <| cs_file := (cs_file s) <| temperature := c |> |>).
Proof.
  unfold kTemperatureCold. intros Hc.
  transitivity (byte_field [byte_of c] "temperature field wrong size" (λ c,
    Ok (if c <=? kTemperatureCold then s <| cs_file := (cs_file s) <| temperature := c |> |> else s)));
    [reflexivity|].
  rewrite byte_field_ok by lia. by rewrite (proj2 (Z.leb_le _ _)) by (unfold kTemperatureCold; lia).
Qed.

Lemma apply_path_id c s :
  0 <= c < 4 → apply_custom kPathId [byte_of c] s = Ok (s <| cs_path_id := c |>).
Proof.
  intros Hc. unfold apply_custom. rewrite Z.eqb_refl, byte_field_ok by lia.
  by rewrite (proj2 (Z.ltb_ge _ _)) by lia.
Qed.

Lemma apply_need_compaction b s :
  b = true → slice_ok [x01] ∧ apply_custom kNeedCompaction [x01] s =
    Ok (s <| cs_file := (cs_file s) <| marked_for_compaction := b |> |>).
Proof. by intros ->. Qed.

Lemma apply_timestamps_persisted b s :
  negb b = true → slice_ok [x00] ∧ apply_custom kUserDefinedTimestampsPersisted [x00] s =
    Ok (s <| cs_file := (cs_file s) <| user_defined_timestamps_persisted := b |> |>).
Proof. by destruct b. Qed.

Lemma decodes_optional_fields f min_log lo hi t c e ck fn :
  meta_ok f → (∀ n, min_log = Some n → u64_ok n) →
  decodes (iterate custom_step (mkCustom
      (mkFile 0 0 kMaxSequenceNumber 0 lo hi 0 0 0 0 0 0 0 false false t c e 0 0 ck fn (0, 0) 0 true) 0 None))
    (encode_optional_fields min_log f)
    (mkCustom
      (mkFile 0 0 kMaxSequenceNumber 0 lo hi 0 0 0 0 0 0 (compensated_range_deletion_size f) false
        (marked_for_compaction f) t c e (temperature f) (oldest_blob_file_number f) ck fn (unique_id f)
        (tail_size f) (user_defined_timestamps_persisted f)) (GetPathId f) min_log).
Proof.
  intros Hm Hml. pose proof (path_id_range f (packed_ok f Hm)) as Hpath.
  unfold encode_optional_fields.
  custom_next ltac:(fun _ => intros _; split; [done|by apply apply_path_id])
    ltac:(fun _ => by intros ->%negb_eqb_false).
  custom_next ltac:(fun _ => intros _; split; [done|by apply apply_temperature, temperature_ok])
    ltac:(fun _ => by intros ->%negb_eqb_false).
  custom_next ltac:(fun _ => apply apply_need_compaction) ltac:(fun _ => by intros ->).
  assert (Hmin : when_some min_log (λ n, custom kMinLogNumberToKeepHack (EncodeFixed64 n)) =
    when (bool_decide (is_Some min_log)) (custom kMinLogNumberToKeepHack (EncodeFixed64 (default 0 min_log))))
    by by destruct min_log.
  rewrite Hmin. eapply (decodes_custom _) with (s' := mkCustom _ _ min_log); [done|done| | |].
  { intros Hs%bool_decide_eq_true. destruct min_log as [n|]; [|by destruct Hs]. apply apply_min_log. auto. }
  { intros Hs%bool_decide_eq_false. destruct min_log; [|done]. destruct Hs. done. }
  custom_next ltac:(fun _ => intros _; apply varint_field_ok, Hm) ltac:(fun _ => by intros ->%negb_eqb_false).
  custom_next ltac:(fun _ => intros _; apply apply_unique_id; apply Hm)
    ltac:(fun _ => intros Hs%bool_decide_eq_false%dec_stable; by rewrite Hs).
  custom_next ltac:(fun _ => intros _; apply varint_field_ok, Hm) ltac:(fun _ => by intros ->%negb_eqb_false).
  custom_next ltac:(fun _ => intros _; apply varint_field_ok, Hm) ltac:(fun _ => by intros ->%negb_eqb_false).
  custom_next ltac:(fun _ => apply apply_timestamps_persisted)
    ltac:(fun _ => by destruct (user_defined_timestamps_persisted f)).
  apply (decodes_iterate_end custom_step). eapply decodes_last; [by apply decodes_varint32|].
  apply decodes_ret.
Qed.

Lemma decodes_custom_fields f min_log lo hi :
  meta_ok f → (∀ n, min_log = Some n → u64_ok n) →
  decodes (iterate custom_step (mkCustom (new_file 0 0 lo hi) 0 None)) (encode_custom_fields min_log f)
    (mkCustom (persisted_meta lo hi f) (GetPathId f) min_log).
Proof.
  intros Hm Hml. unfold encode_custom_fields, new_file, persisted_meta.
  change (PackFileNumberAndPathId 0 0) with 0.
  do 3 custom_next ltac:(fun _ => intros _; apply varint_field_ok, Hm) ltac:(fun _ => done).
  rewrite when_app, <- app_assoc. case_bool_decide as Hk.
  - do 2 custom_next ltac:(fun _ => intros _; split; [apply Hm|reflexivity]) ltac:(fun _ => done).
    by apply decodes_optional_fields.
  - by apply decodes_optional_fields.
Qed.

(** ** Files *)

Lemma valid_iff k :
  Valid k = true ↔
  (8 <= length k)%nat ∧ IsExtendedValueType (Z.land (DecodeFixed64 (footer_bytes k)) 255) = true.
Proof.
  unfold Valid, ParseInternalKey, kNumInternalBytes.
  destruct (Nat.ltb_spec (length k) 8); [split; [done|lia]|].
  destruct (IsExtendedValueType _); split; try done. by intros [_ ?].
Qed.

(** Without its timestamp a valid internal key is still valid. *)
Lemma valid_strip k ts_sz : Valid k = true → Valid (StripTimestampFromInternalKey [] k ts_sz) = true.
Proof.
  rewrite !valid_iff. unfold StripTimestampFromInternalKey, kNumInternalBytes. simpl. intros [Hl Ht].
  assert (Hd : length (drop (length k - 8) k) = 8%nat) by (rewrite length_drop; lia).
  rewrite footer_bytes_app, length_app by done. split; [lia|exact Ht].
Qed.

Definition stored_key (ts_sz : nat) (f : FileMetaData) (k : key) : key :=
  if (ts_sz =? 0)%nat || user_defined_timestamps_persisted f then k
  else StripTimestampFromInternalKey [] k ts_sz.

(** The file as the manifest keeps it. *)
Definition persisted_file (ts_sz : nat) (f : FileMetaData) : FileMetaData :=
  set_fd (GetNumber f) (GetPathId f) (file_size f) (smallest_seqno f) (largest_seqno f)
    (persisted_meta (stored_key ts_sz f (smallest f)) (stored_key ts_sz f (largest f)) f).

Definition level_ok (level : Z) : Prop := 0 <= level < 2 ^ 31.

(** A file [EncodeTo] accepts and whose fields fit their encodings. *)
Definition edit_file_ok (lf : Z * FileMetaData) : Prop :=
  level_ok lf.1 ∧ meta_ok lf.2 ∧ epoch_number lf.2 ≠ kUnknownEpochNumber ∧
  Valid (smallest lf.2) = true ∧ Valid (largest lf.2) = true ∧
  slice_ok (smallest lf.2) ∧ slice_ok (largest lf.2).

Lemma stored_key_ok ts_sz f k :
  Valid k = true → slice_ok k → Valid (stored_key ts_sz f k) = true ∧ slice_ok (stored_key ts_sz f k).
Proof.
  intros Hv Hs. unfold stored_key. destruct (_ || _); [done|]. split; [by apply valid_strip|].
  unfold slice_ok, StripTimestampFromInternalKey, kNumInternalBytes in *. simpl.
  rewrite length_app, length_take, length_drop. lia.
Qed.

Lemma level_roundtrip level : level_ok level → 0 <= u32 level < 2 ^ 32 ∧ s32 (u32 level) = level.
Proof.
  unfold level_ok. intros Hl. assert (u32 level = level) as -> by (apply Z.mod_small; lia).
  split; [lia|]. unfold s32. destruct (Z.ltb_spec level (2 ^ 31)); lia.
Qed.

Lemma decodes_level level msg :
  level_ok level → decodes (GetLevel msg) (EncodeVarint32 (u32 level)) level.
Proof.
  intros Hl. destruct (level_roundtrip level Hl) as [H1 H2]. unfold GetLevel.
  eapply decodes_last; [by apply decodes_varint32|]. rewrite H2. apply decodes_ret.
Qed.

Lemma decodes_internal_key k msg :
  Valid k = true → slice_ok k → decodes (GetInternalKey msg) (put_slice k) k.
Proof.
  intros Hv Hs. unfold GetInternalKey. eapply decodes_last; [by apply decodes_slice|].
  cbv beta. rewrite Hv. apply decodes_ret.
Qed.

Lemma number_range f : u64_ok (GetNumber f).
Proof.
  unfold GetNumber. change kFileNumberMask with (Z.ones 62). rewrite Z.land_ones by lia.
  pose proof (Z.mod_pos_bound (packed_number_and_path_id f) (2 ^ 62)). unfold u64_ok. lia.
Qed.

Lemma reads_new_file ts_sz min_log level f e :
  edit_file_ok (level, f) → (∀ n, min_log = Some n → u64_ok n) →
  reads e (encode_new_file ts_sz min_log level f)
    (push_file level (persisted_file ts_sz f) (note_min_log min_log (note_level level e))).
Proof.
  intros (Hl & Hm & _ & Hv1 & Hv2 & Hs1 & Hs2) Hml. unfold encode_new_file.
  apply reads_entry; [done|]. change (decode_entry e kNewFile4) with (DecodeNewFile4From e).
  destruct (stored_key_ok ts_sz f _ Hv1 Hs1) as [Hv1' Hs1'].
  destruct (stored_key_ok ts_sz f _ Hv2 Hs2) as [Hv2' Hs2'].
  assert (Hb : EncodeFileBoundaries f ts_sz =
    put_slice (stored_key ts_sz f (smallest f)) ++ put_slice (stored_key ts_sz f (largest f))).
  { unfold EncodeFileBoundaries, stored_key. by destruct (_ || _). }
  rewrite Hb, <- app_assoc. unfold DecodeNewFile4From. cbv zeta.
  eapply decodes_bind; [by apply decodes_level|].
  eapply decodes_bind; [apply decodes_varint64, number_range|].
  eapply decodes_bind; [apply decodes_varint64, Hm|].
  eapply decodes_bind; [by apply decodes_internal_key|].
  eapply decodes_bind; [by apply decodes_internal_key|].
  eapply decodes_bind; [apply decodes_varint64, Hm|].
  eapply decodes_bind; [apply decodes_varint64, Hm|].
  eapply decodes_last; [by apply decodes_custom_fields|]. apply decodes_ret.
Qed.

(** ** Lists of entries *)

Definition max_levels (m : Z) (ls : list Z) : Z := foldl Z.max m ls.

(** A list of entries, each of which records its level and appends to a field of
    the edit.  [put l ls e] is [e] with [l] appended and the levels noted. *)
Lemma reads_list {A B} (enc : A → list byte) (P : A → Prop) (out : A → list B) (lev : A → list Z)
    (put : list B → list Z → VersionEdit → VersionEdit) (l : list A) e :
  Forall P l →
  (∀ e, put [] [] e = e) →
  (∀ e l1 l2 m1 m2, put l2 m2 (put l1 m1 e) = put (l1 ++ l2) (m1 ++ m2) e) →
  (∀ e a, P a → reads e (enc a) (put (out a) (lev a) e)) →
  reads e (concat (enc <$> l)) (put (concat (out <$> l)) (concat (lev <$> l)) e).
Proof.
  intros Hl Hnil Happ Hone. revert e. induction Hl as [|a l Ha Hl IH]; intros e; cbn [fmap list_fmap concat].
  - rewrite Hnil. apply reads_nil.
  - rewrite <- Happ. eapply reads_app; [by apply Hone|]. apply IH.
Qed.

Lemma max_levels_app m l1 l2 : max_levels m (l1 ++ l2) = max_levels (max_levels m l1) l2.
Proof. apply foldl_app. Qed.

(** The edit with levels noted and entries appended. *)
Definition put_entries (ls : list Z) (cs : list (Z * key)) (fs : list (Z * FileMetaData))
    (bas : list BlobFileAddition) (bgs : list BlobFileGarbage) (ws : list WalAddition)
    (e : VersionEdit) : VersionEdit :=
  mkEdit (max_levels (max_level_ e) ls) (db_id_ e) (comparator_ e) (log_number_ e) (prev_log_number_ e)
    (next_file_number_ e) (max_column_family_ e) (min_log_number_to_keep_ e) (last_sequence_ e)
    (compact_cursors_ e ++ cs) (deleted_files_ e) (new_files_ e ++ fs)
    (blob_file_additions_ e ++ bas) (blob_file_garbages_ e ++ bgs) (wal_additions_ e ++ ws)
    (wal_deletion_ e) (column_family_ e) (is_column_family_drop_ e) (is_column_family_add_ e)
    (column_family_name_ e) (remaining_entries_ e) (is_in_atomic_group_ e) (full_history_ts_low_ e)
    (persist_user_defined_timestamps_ e)
    (files_to_quarantine_ e ++ (bfa_blob_file_number <$> bas)).

Lemma put_nothing e : put_entries [] [] [] [] [] [] e = e.
Proof. destruct e. unfold put_entries. cbn. by rewrite !app_nil_r. Qed.

Lemma put_put e ls cs fs bas bgs ws ls' cs' fs' bas' bgs' ws' :
  put_entries ls' cs' fs' bas' bgs' ws' (put_entries ls cs fs bas bgs ws e) =
  put_entries (ls ++ ls') (cs ++ cs') (fs ++ fs') (bas ++ bas') (bgs ++ bgs') (ws ++ ws') e.
Proof. unfold put_entries. cbn. by rewrite max_levels_app, fmap_app, !app_assoc. Qed.

Ltac put_laws := intros; rewrite ?put_nothing, ?put_put, ?app_nil_r; done.

Ltac put_one e := destruct e; unfold put_entries; cbn; rewrite ?app_nil_r; done.

Lemma reads_cursors cs e :
  Forall (λ c, Valid c.2 = true → level_ok c.1 ∧ slice_ok c.2) cs →
  reads e
    (concat ((λ c, when (Valid c.2) (put_tag kCompactCursor ++ EncodeVarint32 (u32 c.1) ++ put_slice c.2)) <$> cs))
    (put_entries (concat ((λ c, if Valid c.2 then [c.1] else []) <$> cs))
      (concat ((λ c, if Valid c.2 then [c] else []) <$> cs)) [] [] [] [] e).
Proof.
  intros Hcs. apply (reads_list _ _ _ _ (λ l ls, put_entries ls l [] [] [] []) _ _ Hcs); [put_laws|put_laws|].
  intros e' [level k] Hc. apply reads_when; cbn [fst snd] in *.
  - intros Hv. rewrite Hv. destruct (Hc Hv) as [Hl Hs]. apply reads_entry; [done|].
    change (decode_entry e' kCompactCursor) with
      (let! level := GetLevel "compaction cursor" in
       let! k := GetInternalKey "compaction cursor" in
       let e1 := note_level level e' in dret (e1 <| compact_cursors_ := compact_cursors_ e1 ++ [(level, k)] |>)).
    eapply decodes_bind; [by apply decodes_level|].
    eapply decodes_last; [by apply decodes_internal_key|].
    replace (put_entries _ _ _ _ _ _ e') with
      (let e1 := note_level level e' in e1 <| compact_cursors_ := compact_cursors_ e1 ++ [(level, k)] |>)
      by put_one e'.
    apply decodes_ret.
  - intros Hv. rewrite Hv. by rewrite put_nothing.
Qed.

Lemma reads_blob_additions bs e :
  Forall blob_addition_ok bs →
  reads e (concat ((λ b, put_tag kBlobFileAddition ++ EncodeBlobFileAddition b) <$> bs))
    (put_entries [] [] [] (concat ((λ b, [b]) <$> bs)) [] [] e).
Proof.
  intros Hbs.
  apply (reads_list _ _ _ (λ _, []) (λ l _, put_entries [] [] [] l [] []) _ _ Hbs); [put_laws|put_laws|].
  intros e' b Hb. apply reads_entry; [done|].
  change (decode_entry e' kBlobFileAddition) with
    (let! b := DecodeBlobFileAddition in dret (AddBlobFile b e')).
  eapply decodes_last; [by apply decodes_blob_addition|].
  replace (put_entries _ _ _ _ _ _ e') with (AddBlobFile b e') by put_one e'. apply decodes_ret.
Qed.

Lemma reads_blob_garbages bs e :
  Forall blob_garbage_ok bs →
  reads e (concat ((λ b, put_tag kBlobFileGarbage ++ EncodeBlobFileGarbage b) <$> bs))
    (put_entries [] [] [] [] (concat ((λ b, [b]) <$> bs)) [] e).
Proof.
  intros Hbs.
  apply (reads_list _ _ _ (λ _, []) (λ l _, put_entries [] [] [] [] l []) _ _ Hbs); [put_laws|put_laws|].
  intros e' b Hb. apply reads_entry; [done|].
  change (decode_entry e' kBlobFileGarbage) with
    (let! b := DecodeBlobFileGarbage in dret (AddBlobFileGarbage b e')).
  eapply decodes_last; [by apply decodes_blob_garbage|].
  replace (put_entries _ _ _ _ _ _ e') with (AddBlobFileGarbage b e') by put_one e'. apply decodes_ret.
Qed.

Lemma decodes_nested {A} msg (d : decoder A) bs a :
  slice_ok bs → decodes d bs a → decodes (decode_nested msg d) (put_slice bs) a.
Proof.
  intros Hs Hd. unfold decode_nested. eapply decodes_last; [by apply decodes_slice|]. cbv beta.
  rewrite <- (app_nil_r bs), Hd. apply decodes_ret.
Qed.

Lemma wal_slice_ok w : wal_addition_ok w → slice_ok (EncodeWalAddition w).
Proof.
  intros [H1 H2]. pose proof (length_encode_varint64_bound _ H1) as L1.
  pose proof (length_encode_varint64_bound _ H2) as L2. unfold kMaxVarint64Length in *.
  unfold slice_ok, EncodeWalAddition. change (EncodeVarint32 kWalTerminate) with [x01].
  change (EncodeVarint32 kWalSyncedSize) with [x02].
  destruct (HasSyncedSize _); rewrite !length_app; cbn [length]; lia.
Qed.

Lemma reads_wal_additions ws e :
  Forall wal_addition_ok ws →
  reads e (concat ((λ w, put_tag kWalAddition2 ++ put_slice (EncodeWalAddition w)) <$> ws))
    (put_entries [] [] [] [] [] (concat ((λ w, [w]) <$> ws)) e).
Proof.
  intros Hws. apply (reads_list _ _ _ (λ _, []) (λ l _, put_entries [] [] [] [] [] l) _ _ Hws); [put_laws|put_laws|].
  intros e' w Hw. apply reads_entry; [done|].
  change (decode_entry e' kWalAddition2) with
    (let! w := decode_nested "WalAddition not prefixed by length" DecodeWalAddition in dret (add_wal_addition w e')).
  eapply decodes_last; [apply decodes_nested; [by apply wal_slice_ok|by apply decodes_wal_addition]|].
  replace (put_entries _ _ _ _ _ _ e') with (add_wal_addition w e') by put_one e'. apply decodes_ret.
Qed.

(** Deleted files come back in the order of the set. *)
Definition pair_lt (a b : Z * Z) : Prop := pair_compare a b = Lt.

Lemma pair_compare_opp a b : pair_compare b a = CompOpp (pair_compare a b).
Proof.
  unfold pair_compare. rewrite (Z.compare_antisym a.1 b.1), (Z.compare_antisym a.2 b.2).
  by destruct (a.1 ?= b.1).
Qed.

Lemma set_insert_last x l : Forall (λ y, pair_lt y x) l → set_insert x l = l ++ [x].
Proof.
  induction 1 as [|y l Hy _ IH]; [done|]. cbn [set_insert]. unfold pair_lt in Hy.
  rewrite pair_compare_opp, Hy. cbn [CompOpp app]. by rewrite IH.
Qed.

Definition put_deleted (ds : list (Z * Z)) (e : VersionEdit) : VersionEdit :=
  let e' := e <| max_level_ := max_levels (max_level_ e) ds.*1 |> in
  e' <| deleted_files_ := deleted_files_ e' ++ ds |>.

Lemma reads_deleted ds e :
  Forall (λ d, level_ok d.1 ∧ u64_ok d.2) ds → StronglySorted pair_lt (deleted_files_ e ++ ds) →
  reads e (concat ((λ d, put_tag kDeletedFile ++ EncodeVarint32 (u32 d.1) ++ EncodeVarint64 d.2) <$> ds))
    (put_deleted ds e).
Proof.
  intros Hds. revert e. induction Hds as [|[level number] ds [Hl Hn] _ IH]; intros e Hs; cbn [fmap list_fmap concat].
  { replace (put_deleted [] e) with e; [apply reads_nil|]. destruct e. unfold put_deleted. cbn.
    by rewrite app_nil_r. }
  assert (Hd : DeleteFile level number (note_level level e) = put_deleted [(level, number)] e).
  { unfold DeleteFile, put_deleted, note_level. cbn. rewrite set_insert_last; [done|].
    clear -Hs. induction (deleted_files_ e) as [|y l IHl]; [constructor|].
    cbn [app] in Hs. apply StronglySorted_inv in Hs as [Hs Hy]. constructor; [|by apply IHl].
    rewrite Forall_forall in Hy. apply Hy. rewrite elem_of_app. right. left. }
  eapply reads_app.
  - apply reads_entry; [done|].
    change (decode_entry e kDeletedFile) with
      (let! level := GetLevel "deleted file" in
       let! number := read GetVarint64 "deleted file" in dret (DeleteFile level number (note_level level e))).
    cbn [fst snd] in *. eapply decodes_bind; [by apply decodes_level|].
    eapply decodes_last; [by apply decodes_varint64|]. cbv beta. rewrite Hd. apply decodes_ret.
  - replace (put_deleted ((level, number) :: ds) e) with (put_deleted ds (put_deleted [(level, number)] e)).
    + apply IH. unfold put_deleted. cbn. by rewrite <- app_assoc.
    + unfold put_deleted. cbn. by rewrite <- app_assoc.
Qed.

(** New files; the minimum log number that goes with the first is the one the
    edit already has. *)
Lemma reads_new_files ts_sz min_log fs e :
  Forall edit_file_ok fs → (∀ n, min_log = Some n → u64_ok n ∧ min_log_number_to_keep_ e = Some n) →
  ∃ bs, encode_new_files ts_sz min_log fs = Some bs ∧
    reads e bs (put_entries fs.*1 [] (prod_map id (persisted_file ts_sz) <$> fs) [] [] [] e).
Proof.
  intros Hfs. revert min_log e. induction Hfs as [|[level f] fs Hf _ IH]; intros min_log e Hml.
  { exists []. split; [done|]. rewrite put_nothing. apply reads_nil. }
  destruct (IH None (put_entries [level] [] [(level, persisted_file ts_sz f)] [] [] [] e)) as (bs & Hbs & Hr); [done|].
  exists (encode_new_file ts_sz min_log level f ++ bs). split.
  - cbn [encode_new_files]. rewrite Hbs. pose proof Hf as (_ & _ & He & Hv1 & Hv2 & _).
    unfold encodable_file. cbn [fst snd] in *. rewrite Hv1, Hv2. apply Z.eqb_neq in He. by rewrite He.
  - eapply reads_app; [apply reads_new_file; [done|intros n Hn; apply (proj1 (Hml n Hn))]|].
    replace (push_file _ _ _) with (put_entries [level] [] [(level, persisted_file ts_sz f)] [] [] [] e).
    + rewrite put_put in Hr. exact Hr.
    + destruct min_log as [n|]; [destruct (Hml n eq_refl) as [_ E]|]; destruct e;
        unfold put_entries, note_min_log, note_level, push_file; cbn in *; rewrite ?app_nil_r; congruence.
Qed.

(** ** The whole edit *)

Record edit_ok (e : VersionEdit) : Prop := {
  db_id_ok : ∀ s, db_id_ e = Some s → slice_ok s;
  comparator_ok : ∀ s, comparator_ e = Some s → slice_ok s;
  log_number_ok : ∀ n, log_number_ e = Some n → u64_ok n;
  prev_log_number_ok : ∀ n, prev_log_number_ e = Some n → u64_ok n;
  next_file_number_ok : ∀ n, next_file_number_ e = Some n → u64_ok n;
  max_column_family_ok : ∀ n, max_column_family_ e = Some n → 0 <= n < 2 ^ 32;
  min_log_ok : ∀ n, min_log_number_to_keep_ e = Some n → u64_ok n;
  last_sequence_ok : ∀ n, last_sequence_ e = Some n → u64_ok n;
  cursors_ok : Forall (λ c, Valid c.2 = true → level_ok c.1 ∧ slice_ok c.2) (compact_cursors_ e);
  deleted_ok : Forall (λ d, level_ok d.1 ∧ u64_ok d.2) (deleted_files_ e);
  deleted_sorted : StronglySorted pair_lt (deleted_files_ e);
  new_files_ok : Forall edit_file_ok (new_files_ e);
  blob_additions_ok : Forall blob_addition_ok (blob_file_additions_ e);
  blob_garbages_ok : Forall blob_garbage_ok (blob_file_garbages_ e);
  wal_additions_ok : Forall wal_addition_ok (wal_additions_ e);
  wal_deletion_ok : u64_ok (wal_deletion_ e);
  column_family_ok : 0 <= column_family_ e < 2 ^ 32;
  column_family_name_ok : slice_ok (column_family_name_ e);
  remaining_entries_ok : 0 <= remaining_entries_ e < 2 ^ 32;
  full_history_ok : slice_ok (full_history_ts_low_ e);
}.

(** The edit as it comes back from the manifest. *)
Definition persisted_edit (ts_sz : nat) (e : VersionEdit) : VersionEdit :=
  let cursors := filter (λ c, Valid c.2 = true) (compact_cursors_ e) in
  mkEdit (max_levels 0 (cursors.*1 ++ (deleted_files_ e).*1 ++ (new_files_ e).*1))
    (db_id_ e) (comparator_ e) (log_number_ e) (prev_log_number_ e)
    (next_file_number_ e) (max_column_family_ e) (min_log_number_to_keep_ e) (last_sequence_ e)
    cursors (deleted_files_ e) (prod_map id (persisted_file ts_sz) <$> new_files_ e)
    (blob_file_additions_ e) (blob_file_garbages_ e) (wal_additions_ e) (wal_deletion_ e)
    (column_family_ e) (is_column_family_drop_ e) (is_column_family_add_ e)
    (if is_column_family_add_ e then column_family_name_ e else [])
    (if is_in_atomic_group_ e then remaining_entries_ e else 0) (is_in_atomic_group_ e)
    (full_history_ts_low_ e) (persist_user_defined_timestamps_ e)
    (bfa_blob_file_number <$> blob_file_additions_ e).

Lemma reads_some {A} (o : option A) (enc : A → list byte) (set : option A → VersionEdit) :
  (∀ a, o = Some a → reads (set None) (enc a) (set (Some a))) → reads (set None) (when_some o enc) (set o).
Proof. destruct o; simpl; [auto|]. intros _. apply reads_nil. Qed.

(** One optional field: the entry with the tag, read by the given lemma. *)
Ltac reads_field lemma :=
  let a := fresh in let Ha := fresh in
  intros a Ha; apply reads_entry; [done|]; eapply decodes_last; [apply lemma|apply decodes_ret].

Lemma reads_header e :
  edit_ok e →
  reads NewVersionEdit (encode_header e)
    (mkEdit 0 (db_id_ e) (comparator_ e) (log_number_ e) (prev_log_number_ e) (next_file_number_ e)
       (max_column_family_ e) (min_log_number_to_keep_ e) (last_sequence_ e)
       [] [] [] [] [] [] 0 0 false false [] 0 false [] None []).
Proof.
  intros Hok.
  set (E := λ a b c d e f g h, mkEdit 0 a b c d e f g h [] [] [] [] [] [] 0 0 false false [] 0 false [] None []).
  change NewVersionEdit with (E None None None None None None None None).
  eapply reads_app;
    [apply (reads_some _ _ (λ o, E o None None None None None None None)); reads_field decodes_slice; by eapply db_id_ok|].
  eapply reads_app;
    [apply (reads_some _ _ (λ o, E (db_id_ e) o None None None None None None)); reads_field decodes_slice; by eapply comparator_ok|].
  eapply reads_app;
    [apply (reads_some _ _ (λ o, E (db_id_ e) (comparator_ e) o None None None None None)); reads_field decodes_varint64; by eapply log_number_ok|].
  eapply reads_app;
    [apply (reads_some _ _ (λ o, E (db_id_ e) (comparator_ e) (log_number_ e) o None None None None)); reads_field decodes_varint64; by eapply prev_log_number_ok|].
  eapply reads_app;
    [apply (reads_some _ _ (λ o, E (db_id_ e) (comparator_ e) (log_number_ e) (prev_log_number_ e) o None None None)); reads_field decodes_varint64; by eapply next_file_number_ok|].
  eapply reads_app;
    [apply (reads_some _ _ (λ o, E (db_id_ e) (comparator_ e) (log_number_ e) (prev_log_number_ e) (next_file_number_ e) o None None)); reads_field decodes_varint32; by eapply max_column_family_ok|].
  eapply reads_app;
    [apply (reads_some _ _ (λ o, E (db_id_ e) (comparator_ e) (log_number_ e) (prev_log_number_ e) (next_file_number_ e) (max_column_family_ e) o None)); reads_field decodes_varint64; by eapply min_log_ok|].
  apply (reads_some _ _ (λ o, E (db_id_ e) (comparator_ e) (log_number_ e) (prev_log_number_ e) (next_file_number_ e) (max_column_family_ e) (min_log_number_to_keep_ e) o)); reads_field decodes_varint64; by eapply last_sequence_ok.
Qed.

Lemma reads_trailer e m a b c d f g h i cs ds fs bas bgs ws q :
  edit_ok e →
  let E := λ wd cf drop add name rem atomic low persist,
    mkEdit m a b c d f g h i cs ds fs bas bgs ws wd cf drop add name rem atomic low persist q in
  reads (E 0 0 false false [] 0 false [] None) (encode_trailer e)
    (E (wal_deletion_ e) (column_family_ e) (is_column_family_drop_ e) (is_column_family_add_ e)
       (if is_column_family_add_ e then column_family_name_ e else [])
       (if is_in_atomic_group_ e then remaining_entries_ e else 0) (is_in_atomic_group_ e)
       (full_history_ts_low_ e) (persist_user_defined_timestamps_ e)).
Proof.
  intros Hok E. eapply reads_app with (e' := E (wal_deletion_ e) 0 false false [] 0 false [] None).
  { apply reads_when; [|by intros ->%negb_eqb_false]. intros _. apply reads_entry; [done|].
    eapply decodes_last; [apply decodes_nested|apply decodes_ret].
    - by apply varint_slice_ok, wal_deletion_ok.
    - by apply decodes_varint64, wal_deletion_ok. }
  eapply reads_app with (e' := E (wal_deletion_ e) (column_family_ e) false false [] 0 false [] None).
  { apply reads_when; [|by intros ->%negb_eqb_false]. intros _. apply reads_entry; [done|].
    eapply decodes_last; [by apply decodes_varint32, column_family_ok|apply decodes_ret]. }
  eapply reads_app with (e' := E (wal_deletion_ e) (column_family_ e) false (is_column_family_add_ e)
    (if is_column_family_add_ e then column_family_name_ e else []) 0 false [] None).
  { apply reads_when; [|by intros ->]. intros ->. apply reads_entry; [done|].
    eapply decodes_last; [by apply decodes_slice, column_family_name_ok|apply decodes_ret]. }
  eapply reads_app with (e' := E (wal_deletion_ e) (column_family_ e) (is_column_family_drop_ e)
    (is_column_family_add_ e) (if is_column_family_add_ e then column_family_name_ e else []) 0 false [] None).
  { apply reads_when; [|by intros ->]. intros ->. rewrite <- (app_nil_r (put_tag _)).
    apply reads_entry; [done|]. apply decodes_ret. }
  eapply reads_app with (e' := E (wal_deletion_ e) (column_family_ e) (is_column_family_drop_ e)
    (is_column_family_add_ e) (if is_column_family_add_ e then column_family_name_ e else [])
    (if is_in_atomic_group_ e then remaining_entries_ e else 0) (is_in_atomic_group_ e) [] None).
  { apply reads_when; [|by intros ->]. intros ->. apply reads_entry; [done|].
    eapply decodes_last; [by apply decodes_varint32, remaining_entries_ok|apply decodes_ret]. }
  eapply reads_app.
  { apply reads_when; [intros Hne%bool_decide_eq_true|intros Hne%bool_decide_eq_false%dec_stable].
    - apply reads_entry; [done|]. eapply decodes_last; [by apply decodes_slice, full_history_ok|].
      cbv beta. rewrite bool_decide_eq_false_2 by done. apply decodes_ret.
    - by rewrite Hne. }
  apply (reads_some _ _ (λ o, E (wal_deletion_ e) (column_family_ e) (is_column_family_drop_ e)
    (is_column_family_add_ e) _ _ (is_in_atomic_group_ e) (full_history_ts_low_ e) o)).
  intros p _. apply reads_entry; [done|]. eapply decodes_last; [by apply decodes_slice|].
  destruct p; apply decodes_ret.
Qed.

Lemma concat_singletons {A} (l : list A) : concat ((λ x, [x]) <$> l) = l.
Proof. induction l; simpl; [done|]. by f_equal. Qed.

Lemma concat_when {A B} (P : A → Prop) `{!∀ x, Decision (P x)} (b : A → bool) (f : A → B) (l : list A) :
  (∀ x, P x ↔ b x = true) → concat ((λ x, if b x then [f x] else []) <$> l) = f <$> filter P l.
Proof.
  intros Hb. induction l as [|x l IH]; [done|]. cbn [fmap list_fmap concat]. rewrite filter_cons.
  destruct (decide (P x)) as [Hx|Hx].
  - apply Hb in Hx. rewrite Hx. cbn. f_equal. exact IH.
  - destruct (b x) eqn:E; [by destruct Hx; apply Hb|]. exact IH.
Qed.

Lemma reads_edit ts_sz e :
  edit_ok e → ∃ bs, EncodeTo ts_sz e = Some bs ∧ reads NewVersionEdit bs (persisted_edit ts_sz e).
Proof.
  intros Hok. unfold EncodeTo.
  set (E1 := mkEdit 0 (db_id_ e) (comparator_ e) (log_number_ e) (prev_log_number_ e) (next_file_number_ e)
       (max_column_family_ e) (min_log_number_to_keep_ e) (last_sequence_ e)
       [] [] [] [] [] [] 0 0 false false [] 0 false [] None []).
  set (cursors := filter (λ c : Z * key, Valid c.2 = true) (compact_cursors_ e)).
  set (E2 := put_deleted (deleted_files_ e) (put_entries cursors.*1 cursors [] [] [] [] E1)).
  destruct (reads_new_files ts_sz (min_log_number_to_keep_ e) (new_files_ e) E2) as (files & Hf & Hr).
  { by apply new_files_ok. }
  { intros n Hn. split; [by apply (min_log_ok e Hok)|exact Hn]. }
  rewrite Hf. eexists. split; [reflexivity|].
  eapply reads_app; [by apply reads_header|].
  eapply reads_app; [by apply reads_cursors, cursors_ok|].
  rewrite (concat_when (λ c : Z * key, Valid c.2 = true) (λ c, Valid c.2) fst) by done.
  rewrite (concat_when (λ c : Z * key, Valid c.2 = true) (λ c, Valid c.2) id), list_fmap_id by done.
  eapply reads_app; [apply reads_deleted; [by apply deleted_ok|by apply deleted_sorted]|].
  eapply reads_app; [exact Hr|].
  eapply reads_app; [by apply reads_blob_additions, blob_additions_ok|].
  eapply reads_app; [by apply reads_blob_garbages, blob_garbages_ok|].
  eapply reads_app; [by apply reads_wal_additions, wal_additions_ok|].
  rewrite !concat_singletons, !put_put. unfold persisted_edit. fold cursors. cbv zeta.
  rewrite !max_levels_app, !app_nil_r. cbn [app]. unfold E2, put_deleted, put_entries, E1.
  cbn [max_level_ db_id_ comparator_ log_number_ prev_log_number_ next_file_number_ max_column_family_
       min_log_number_to_keep_ last_sequence_ compact_cursors_ deleted_files_ new_files_
       blob_file_additions_ blob_file_garbages_ wal_additions_ wal_deletion_ column_family_
       is_column_family_drop_ is_column_family_add_ column_family_name_ remaining_entries_
       is_in_atomic_group_ full_history_ts_low_ persist_user_defined_timestamps_
       files_to_quarantine_ app fmap list_fmap].
  rewrite !app_nil_r.
  apply (reads_trailer e _ _ _ _ _ _ _ _ _ _ _ _ _ _ _ _ Hok).
Qed.

(** ** Tags from the future *)

Definition known_tags : list Z :=
  [kComparator; kLogNumber; kNextFileNumber; kLastSequence; kCompactCursor; kDeletedFile; kNewFile;
   kPrevLogNumber; kMinLogNumberToKeep; kNewFile2; kNewFile3; kNewFile4; kColumnFamily; kColumnFamilyAdd;
   kColumnFamilyDrop; kMaxColumnFamily; kInAtomicGroup; kBlobFileAddition; kBlobFileGarbage; kDbId;
   kBlobFileAddition_DEPRECATED; kBlobFileGarbage_DEPRECATED; kWalAddition; kWalDeletion;
   kFullHistoryTsLow; kWalAddition2; kWalDeletion2; kPersistUserDefinedTimestamps].

Lemma unknown_entry e tag :
  tag ∉ known_tags →
  decode_entry e tag =
  if negb (Z.land tag kTagSafeIgnoreMask =? 0) then skip_field e else dfail "unknown tag".
Proof.
  intros Hn. unfold decode_entry.
  repeat match goal with
  | |- context [tag =? ?k] =>
      rewrite (proj2 (Z.eqb_neq tag k)) by (intros ->; apply Hn; unfold known_tags; set_solver); cbn [orb]
  end. done.
Qed.

Lemma decodes_skip {A} (a : A) payload : slice_ok payload → decodes (skip_field a) (put_slice payload) a.
Proof.
  intros Hs rest. unfold skip_field, dbind, put_slice, PutLengthPrefixedSlice, PutVarint32.
  assert (Hu : u32 (Z.of_nat (length payload)) = Z.of_nat (length payload))
    by (apply Z.mod_small; unfold slice_ok in Hs; lia).
  rewrite Hu. cbn [app]. rewrite <- app_assoc, (decodes_varint32 (Z.of_nat (length payload)))
    by (unfold slice_ok in Hs; lia).
  rewrite length_app, (proj2 (Z.ltb_ge _ _)) by lia. by rewrite Nat2Z.id, drop_app_length.
Qed.

(** ** The properties *)

(** C10. Every encodable edit is written, and what is written is read back as
    the same edit, up to what the manifest does not keep: invalid cursors,
    in-memory statistics of files, checksums of unknown functions, timestamps
    stripped from file bounds. *)
Theorem version_edit_roundtrip ts_sz e :
  edit_ok e → ∃ bs, EncodeTo ts_sz e = Some bs ∧ DecodeFrom bs = Ok (persisted_edit ts_sz e).
Proof.
  intros Hok. destruct (reads_edit ts_sz e Hok) as (bs & Hbs & Hr). exists bs. split; [done|].
  unfold DecodeFrom. specialize (Hr []). rewrite app_nil_r in Hr. by rewrite Hr.
Qed.

(** An entry with an unknown tag is skipped when its tag has the ignorable
    bit, wherever it stands before encoded entries, and is an error when it
    has not. *)
Theorem version_edit_unknown_tag tag payload ts_sz e rest :
  0 <= tag < 2 ^ 32 → tag ∉ known_tags → slice_ok payload → edit_ok e →
  if negb (Z.land tag kTagSafeIgnoreMask =? 0)
  then ∃ bs, EncodeTo ts_sz e = Some bs ∧
       DecodeFrom (put_tag tag ++ put_slice payload ++ bs) = Ok (persisted_edit ts_sz e) ∧
       DecodeFrom (bs ++ put_tag tag ++ put_slice payload) = Ok (persisted_edit ts_sz e)
  else DecodeFrom (put_tag tag ++ rest) = Corruption "unknown tag".
Proof.
  intros Ht Hn Hs Hok. destruct (negb (Z.land tag kTagSafeIgnoreMask =? 0)) eqn:Hm.
  - destruct (reads_edit ts_sz e Hok) as (bs & Hbs & Hr). exists bs. split; [done|].
    assert (Hskip : ∀ e, reads e (put_tag tag ++ put_slice payload) e).
    { intros e'. apply reads_entry; [done|]. rewrite unknown_entry, Hm by done. by apply decodes_skip. }
    unfold DecodeFrom. split.
    + rewrite app_assoc, (Hskip NewVersionEdit). specialize (Hr []). rewrite app_nil_r in Hr. by rewrite Hr.
    + rewrite (Hr (put_tag tag ++ put_slice payload)).
      pose proof (Hskip (persisted_edit ts_sz e) []) as He. rewrite app_nil_r in He. by rewrite He.
  - unfold DecodeFrom. rewrite (iterate_unfold edit_step). unfold edit_step at 1, put_tag.
    rewrite get_encode_varint32 by done. unfold dbind. by rewrite unknown_entry, Hm.
Qed.

(** ** Witnesses *)

Definition sample_new_file : FileMetaData :=
  mkFile (PackFileNumberAndPathId 12 1) 4096 3 9 (InternalKey [x61] 9 1) (InternalKey [x7a] 3 1)
    0 0 0 0 0 0 0 false true 1000 1001 5 0 0 [] kUnknownFileChecksumFuncName (7, 8) 0 true.

Definition sample_edit : VersionEdit :=
  mkEdit 0 None (Some [x63]) (Some 11) None (Some 13) None (Some 10) (Some 9)
    [(1, InternalKey [x6d] 2 1)] [(0, 3); (0, 4); (1, 2)] [(0, sample_new_file)] [] []
    [mkWalAddition 11 77] 0 0 false false [] 0 false [] (Some true) [].

Lemma sample_edit_ok : edit_ok sample_edit.
Proof.
  split; cbn; try (intros ? [= <-]); try done; try (repeat constructor; done).
Qed.

Lemma version_edit_roundtrip_witness :
  ∃ bs, EncodeTo 0 sample_edit = Some bs ∧ DecodeFrom bs = Ok (persisted_edit 0 sample_edit) ∧
    max_level_ (persisted_edit 0 sample_edit) = 1.
Proof.
  destruct (version_edit_roundtrip 0 sample_edit sample_edit_ok) as (bs & H1 & H2).
  exists bs. split_and!; [exact H1|exact H2|vm_compute; reflexivity].
Defined.

Lemma version_edit_unknown_tag_witness :
  DecodeFrom (put_tag 99 ++ [x00]) = Corruption "unknown tag" ∧
  ∃ bs, EncodeTo 0 sample_edit = Some bs ∧
    DecodeFrom (put_tag 9000 ++ put_slice [x01; x02] ++ bs) = Ok (persisted_edit 0 sample_edit).
Proof.
  split.
  - refine (version_edit_unknown_tag 99 [] 0 sample_edit [x00] _ _ _ sample_edit_ok);
      [lia|apply (bool_decide_unpack _); vm_compute; exact I|done].
  - destruct (version_edit_unknown_tag 9000 [x01; x02] 0 sample_edit []) as (bs & H1 & H2 & _);
      [lia|apply (bool_decide_unpack _); vm_compute; exact I|done|exact sample_edit_ok|].
    exists bs. split; [exact H1|exact H2].
Defined.
