(* ===== verification/UnionFind.v ===== *)
(** * Union-find

    The union-find with path compression and union by rank that
    [GetLargestOverlappingGroup] and [FindL0OverlappingGroups]
    ([src/db/version_set.cc]) and [PickFileToCompact]
    ([src/db/compaction/compaction_picker_level.cc]) each define as local
    lambdas [find] and [unite] over the vectors [parent] and [rank].  The
    structure implements the equivalence relation generated by the united
    pairs. *)

From S2P Require Import Prelude.

Record uf := mkUF {
  parent : list nat;
  urank : list Z;
}.

(** [parent[i] = i], [rank(n, 0)] *)
Definition uf_init (n : nat) : uf := mkUF (seq 0 n) (replicate n 0).

(** [parent[x]]; the callers stay in range. *)
Definition parent_of (p : list nat) (x : nat) : nat := default x (p !! x).

(** [find]; the recursion follows parent links, so that [fuel] of the number
    of elements is enough (see [find_spec]). *)
Fixpoint uf_find (fuel : nat) (p : list nat) (x : nat) : list nat * nat :=
  match fuel with
  | O => (p, parent_of p x)
  | S n =>
      if (parent_of p x =? x)%nat then (p, x)
      else
        let '(p', r) := uf_find n p (parent_of p x) in
        (<[x := r]> p', r)
  end.

Definition find (u : uf) (x : nat) : uf * nat :=
  let '(p, r) := uf_find (length (parent u)) (parent u) x in (mkUF p (urank u), r).

Definition unite (u : uf) (x y : nat) : uf :=
  let '(u1, px) := find u x in
  let '(u2, py) := find u1 y in
  if (px =? py)%nat then u2
  else
    let rx := default 0 (urank u2 !! px) in
    let ry := default 0 (urank u2 !! py) in
    if rx <? ry then mkUF (<[px := py]> (parent u2)) (urank u2)
    else if ry <? rx then mkUF (<[py := px]> (parent u2)) (urank u2)
    else mkUF (<[py := px]> (parent u2)) (<[px := rx + 1]> (urank u2)).

(** ** Roots *)

(** [root p x k r]: following [k] proper parent links from [x] leads to the
    root [r]. *)
Inductive root (p : list nat) : nat → nat → nat → Prop :=
  | root_here x : p !! x = Some x → root p x 0 x
  | root_step x y k r : p !! x = Some y → y ≠ x → root p y k r → root p x (S k) r.

Lemma root_det p x k r k' r' : root p x k r → root p x k' r' → k = k' ∧ r = r'.
Proof.
  intros H. revert k' r'. induction H as [x Hx|x y k r Hx Hne H IH]; intros k' r' H';
    destruct H' as [x' Hx'|x' y' k' r' Hx' Hne' H']; simplify_eq; try done.
  destruct (IH _ _ H'). by subst.
Qed.

Lemma root_root p x k r : root p x k r → p !! r = Some r.
Proof. by induction 1. Qed.

Lemma root_lt p x k r : root p x k r → (x < length p)%nat ∧ (r < length p)%nat.
Proof.
  induction 1 as [x Hx|x y k r Hx Hne H IH]; apply lookup_lt_Some in Hx; tauto.
Qed.

(** The nodes of the way to the root are distinct, so it is shorter than the
    number of elements. *)
Lemma root_path p x k r :
  root p x k r →
  ∃ l, length l = k ∧ NoDup l ∧ Forall (λ z, ∃ j, (1 <= j <= k)%nat ∧ root p z j r) l.
Proof.
  induction 1 as [x Hx|x y k r Hx Hne H IH]; [exists []; by repeat constructor|].
  destruct IH as (l & Hl & Hnd & Hall). exists (x :: l).
  assert (Hr : root p x (S k) r) by (by eapply root_step).
  split_and!; [simpl; lia| |].
  - constructor; [|done]. intros Hin. rewrite Forall_forall in Hall.
    destruct (Hall _ Hin) as (j & Hj & Hrj). destruct (root_det _ _ _ _ _ _ Hr Hrj). lia.
  - constructor; [exists (S k); split; [lia|done]|].
    eapply Forall_impl; [exact Hall|]. simpl. intros z (j & Hj & Hz). exists j. split; [lia|done].
Qed.

Lemma root_depth p x k r : root p x k r → (k < length p)%nat.
Proof.
  intros H. destruct (root_path p x k r H) as (l & Hl & Hnd & Hall).
  assert (Hd : NoDup (r :: l)).
  { constructor; [|done]. intros Hin. rewrite Forall_forall in Hall.
    destruct (Hall _ Hin) as (j & Hj & Hrj).
    pose proof (root_here p r (root_root _ _ _ _ H)) as H0.
    destruct (root_det _ _ _ _ _ _ H0 Hrj). lia. }
  assert (Hsub : r :: l ⊆ seq 0 (length p)).
  { intros z Hz. apply elem_of_seq. split; [lia|].
    apply elem_of_cons in Hz as [->|Hz]; [apply root_lt in H; lia|].
    rewrite Forall_forall in Hall. destruct (Hall _ Hz) as (j & _ & Hrj).
    apply root_lt in Hrj. lia. }
  apply NoDup_submseteq, submseteq_length in Hsub; [|done].
  rewrite length_seq in Hsub. simpl in Hsub. lia.
Qed.

(** ** [rooted p x r]: [r] is the representative of [x] *)

Definition rooted (p : list nat) (x r : nat) : Prop := ∃ k, root p x k r.

Lemma rooted_det p x r r' : rooted p x r → rooted p x r' → r = r'.
Proof. intros [k H] [k' H']. by destruct (root_det _ _ _ _ _ _ H H'). Qed.

Lemma rooted_self p r : p !! r = Some r → rooted p r r.
Proof. intros H. exists 0%nat. by constructor. Qed.

Lemma rooted_step p x y r : p !! x = Some y → y ≠ x → rooted p y r → rooted p x r.
Proof. intros Hx Hne [k H]. exists (S k). by eapply root_step. Qed.

(** Pointing a node at its root does not change any representative. *)
Lemma rooted_compress p x r y s :
  rooted p x r → x ≠ r → rooted (<[x := r]> p) y s ↔ rooted p y s.
Proof.
  intros Hxr Hne. assert (Hr : p !! r = Some r) by (destruct Hxr as [k H]; by apply root_root in H).
  assert (Hx : (x < length p)%nat) by (destruct Hxr as [k H]; apply root_lt in H; tauto).
  split; intros [k H].
  - induction H as [z Hz|z z' k s Hz Hn H IH].
    + destruct (decide (z = x)) as [->|].
      * rewrite list_lookup_insert_eq in Hz by done. congruence.
      * rewrite list_lookup_insert_ne in Hz by done. by apply rooted_self.
    + destruct (decide (z = x)) as [->|].
      * rewrite list_lookup_insert_eq in Hz by done. injection Hz as <-.
        by rewrite (rooted_det _ _ _ _ IH (rooted_self _ _ Hr)).
      * rewrite list_lookup_insert_ne in Hz by done. by eapply rooted_step.
  - induction H as [z Hz|z z' k s Hz Hn H IH].
    + apply rooted_self. rewrite list_lookup_insert_ne; [done|]. intros ->.
      apply Hne. apply (rooted_det p z); [by apply rooted_self|done].
    + destruct (decide (z = x)) as [->|].
      * assert (s = r) as ->.
        { apply (rooted_det p x); [|done]. eapply rooted_step; [done..|]. by exists k. }
        eapply rooted_step; [by apply list_lookup_insert_eq|done|].
        apply rooted_self. by rewrite list_lookup_insert_ne.
      * eapply rooted_step; [by rewrite list_lookup_insert_ne|done|done].
Qed.

(** ** [find] returns the representative and keeps all representatives *)

Lemma uf_find_spec fuel p x k r :
  root p x k r → (k <= fuel)%nat →
  (uf_find fuel p x).2 = r ∧ length (uf_find fuel p x).1 = length p ∧
  ∀ y s, rooted (uf_find fuel p x).1 y s ↔ rooted p y s.
Proof.
  revert x k. induction fuel as [|n IH]; intros x k H Hk.
  - assert (k = 0%nat) as -> by lia. inversion H; subst. simpl.
    unfold parent_of. rewrite H0. done.
  - simpl. destruct H as [x Hx|x y k r Hx Hne H].
    + unfold parent_of. rewrite Hx. simpl. by rewrite Nat.eqb_refl.
    + assert (parent_of p x = y) as -> by (unfold parent_of; by rewrite Hx).
      rewrite (proj2 (Nat.eqb_neq _ _) Hne).
      destruct (IH y k H) as (Hr & Hl & Hroot); [lia|].
      destruct (uf_find n p y) as [p' r'] eqn:E. simpl in *. subst r'.
      split_and!; [done | by rewrite length_insert |].
      intros z s. rewrite <- Hroot. apply rooted_compress.
      * apply Hroot. eapply rooted_step; [done..|]. by exists k.
      * intros ->. apply root_root in H. congruence.
Qed.

Lemma find_spec u x r :
  rooted (parent u) x r →
  (find u x).2 = r ∧ length (parent (find u x).1) = length (parent u) ∧
  urank (find u x).1 = urank u ∧
  ∀ y s, rooted (parent (find u x).1) y s ↔ rooted (parent u) y s.
Proof.
  intros [k H]. unfold find.
  destruct (uf_find_spec (length (parent u)) (parent u) x k r H) as (Hr & Hl & Hroot).
  { apply root_depth in H. lia. }
  destruct (uf_find _ _ _) as [p r'] eqn:E. simpl in *. by split_and!.
Qed.

(** ** [unite] merges two classes *)

Definition uf_ok (n : nat) (u : uf) : Prop :=
  length (parent u) = n ∧ ∀ x, (x < n)%nat → ∃ r, rooted (parent u) x r.

Definition same (u : uf) (x y : nat) : Prop :=
  ∃ r, rooted (parent u) x r ∧ rooted (parent u) y r.

Lemma uf_init_ok n : uf_ok n (uf_init n).
Proof.
  split; simpl; [apply length_seq|]. intros x Hx. exists x. apply rooted_self.
  by rewrite lookup_seq_lt.
Qed.

Lemma same_init n x y : (x < n)%nat → same (uf_init n) x y ↔ x = y.
Proof.
  intros Hx. assert (Hr : ∀ z s, rooted (seq 0 n) z s → s = z).
  { intros z s [k H]. destruct H as [|z y' k s Hz Hne _]; [done|].
    apply lookup_seq in Hz as [-> _]. simpl in Hne. done. }
  split.
  - intros (r & H1%Hr & H2%Hr). congruence.
  - intros <-. destruct (uf_init_ok n) as [_ H]. destruct (H x Hx) as [r Hxr]. by exists r.
Qed.

(** Linking the root [a] under the root [b]. *)
Lemma rooted_link p a b y s :
  p !! a = Some a → p !! b = Some b → a ≠ b →
  rooted (<[a := b]> p) y s ↔ (rooted p y a ∧ s = b) ∨ (rooted p y s ∧ s ≠ a).
Proof.
  intros Ha Hb Hne. assert (Hlt : (a < length p)%nat) by (by apply lookup_lt_Some in Ha).
  assert (Hb' : rooted (<[a := b]> p) b b) by (apply rooted_self; by rewrite list_lookup_insert_ne).
  split.
  - intros [k H]. induction H as [z Hz|z z' k s Hz Hn H IH].
    + right. destruct (decide (z = a)) as [->|Hza].
      * rewrite list_lookup_insert_eq in Hz by done. congruence.
      * rewrite list_lookup_insert_ne in Hz by done. split; [by apply rooted_self|done].
    + destruct (decide (z = a)) as [->|Hza].
      * rewrite list_lookup_insert_eq in Hz by done. injection Hz as <-. left.
        split; [by apply rooted_self|]. symmetry. eapply rooted_det; [exact Hb'|]. by exists k.
      * rewrite list_lookup_insert_ne in Hz by done.
        destruct IH as [[H1 ->]|[H1 H2]]; [left|right]; (split; [|done]); by eapply rooted_step.
  - intros [[[k H] ->]|[[k H] Hs]].
    + remember a as a' eqn:Ea in H. induction H as [z Hz|z z' k r Hz Hn H IH]; subst.
      * eapply rooted_step; [by apply list_lookup_insert_eq|done|done].
      * destruct (decide (z = a)) as [->|Hza]; [congruence|].
        eapply rooted_step; [by rewrite list_lookup_insert_ne|done|by apply IH].
    + induction H as [z Hz|z z' k r Hz Hn H IH].
      * apply rooted_self. by rewrite list_lookup_insert_ne.
      * destruct (decide (z = a)) as [->|Hza]; [congruence|].
        eapply rooted_step; [by rewrite list_lookup_insert_ne|done|by apply IH].
Qed.

Lemma same_refl n u x : uf_ok n u → (x < n)%nat → same u x x.
Proof. intros [_ H] Hx. destruct (H x Hx) as [r Hr]. by exists r. Qed.

Lemma same_sym u x y : same u x y → same u y x.
Proof. intros (r & ? & ?). by exists r. Qed.

Lemma same_trans u x y z : same u x y → same u y z → same u x z.
Proof.
  intros (r & H1 & H2) (s & H3 & H4). rewrite (rooted_det _ _ _ _ H2 H3) in H1. by exists s.
Qed.

(** The effect of linking the roots of two different classes. *)
Lemma same_link n u p' x y px py :
  uf_ok n u → rooted (parent u) x px → rooted (parent u) y py → px ≠ py →
  parent p' = <[px := py]> (parent u) →
  uf_ok n p' ∧ ∀ a b, same p' a b ↔
    same u a b ∨ (same u a x ∧ same u b y) ∨ (same u a y ∧ same u b x).
Proof.
  intros [Hl Hok] Hx Hy Hne Hp.
  assert (Hpx : parent u !! px = Some px) by (destruct Hx as [k H]; by apply root_root in H).
  assert (Hpy : parent u !! py = Some py) by (destruct Hy as [k H]; by apply root_root in H).
  assert (Hlink : ∀ z s, rooted (parent p') z s ↔
    (rooted (parent u) z px ∧ s = py) ∨ (rooted (parent u) z s ∧ s ≠ px)).
  { intros z s. rewrite Hp. by apply rooted_link. }
  assert (Hsx : ∀ a, same u a x ↔ rooted (parent u) a px).
  { intros a. split; [|by exists px]. intros (r & Ha & Hr). by rewrite (rooted_det _ _ _ _ Hx Hr). }
  assert (Hsy : ∀ a, same u a y ↔ rooted (parent u) a py).
  { intros a. split; [|by exists py]. intros (r & Ha & Hr). by rewrite (rooted_det _ _ _ _ Hy Hr). }
  split.
  - split; [by rewrite Hp, length_insert|]. intros z Hz. destruct (Hok z Hz) as [r Hr].
    destruct (decide (r = px)) as [->|]; [exists py|exists r]; rewrite Hlink; auto.
  - intros a b. rewrite !Hsx, !Hsy. unfold same. setoid_rewrite Hlink. split.
    + intros (r & [[Ha ->]|[Ha Hr]] & [[Hb E]|[Hb Hr']]); subst; eauto.
    + intros [(r & Ha & Hb)|[[Ha Hb]|[Ha Hb]]].
      * destruct (decide (r = px)) as [->|]; [exists py|exists r]; auto.
      * exists py. auto.
      * exists py. auto.
Qed.

(** Two finds leave the classes alone. *)
Lemma find_twice n u x y :
  uf_ok n u → (x < n)%nat → (y < n)%nat →
  let '(u1, px) := find u x in
  let '(u2, py) := find u1 y in
  uf_ok n u2 ∧ rooted (parent u2) x px ∧ rooted (parent u2) y py ∧
  ∀ a b, same u2 a b ↔ same u a b.
Proof.
  intros [Hl Hok] Hx Hy. destruct (Hok x Hx) as [px Hpx]. destruct (Hok y Hy) as [py Hpy].
  destruct (find_spec u x px Hpx) as (Ex & Hl1 & _ & H1).
  destruct (find u x) as [u1 px'] eqn:E1. simpl in *. subst px'.
  assert (Hpy1 : rooted (parent u1) y py) by (by apply H1).
  destruct (find_spec u1 y py Hpy1) as (Ey & Hl2 & _ & H2).
  destruct (find u1 y) as [u2 py'] eqn:E2. simpl in *. subst py'.
  assert (H12 : ∀ z s, rooted (parent u2) z s ↔ rooted (parent u) z s)
    by (intros; by rewrite H2, H1).
  split_and!; [split; [congruence|]| by apply H12 | by apply H12 |].
  - intros z Hz. destruct (Hok z Hz) as [r Hr]. exists r. by apply H12.
  - intros a b. unfold same. by setoid_rewrite H12.
Qed.

(** Uniting two elements of one class changes nothing. *)
Lemma same_already u x y a b :
  same u x y →
  same u a b ↔ same u a b ∨ (same u a x ∧ same u b y) ∨ (same u a y ∧ same u b x).
Proof.
  intros Hxy. split; [auto|].
  intros [H|[[Ha Hb]|[Ha Hb]]]; [done| |]; eapply same_trans; eauto using same_trans, same_sym.
Qed.

Lemma unite_spec n u x y :
  uf_ok n u → (x < n)%nat → (y < n)%nat →
  uf_ok n (unite u x y) ∧ ∀ a b, same (unite u x y) a b ↔
    same u a b ∨ (same u a x ∧ same u b y) ∨ (same u a y ∧ same u b x).
Proof.
  intros Hu Hx Hy. unfold unite. pose proof (find_twice n u x y Hu Hx Hy) as Hf.
  destruct (find u x) as [u1 px]. destruct (find u1 y) as [u2 py].
  destruct Hf as (Hok & Hpx & Hpy & Hs). setoid_rewrite <- Hs.
  destruct (Nat.eqb_spec px py) as [<-|Hne].
  - split; [done|]. intros a b. apply same_already. by exists px.
  - assert (Hyx : ∀ rk, let u' := mkUF (<[py := px]> (parent u2)) rk in
      uf_ok n u' ∧ ∀ a b, same u' a b ↔
        same u2 a b ∨ (same u2 a x ∧ same u2 b y) ∨ (same u2 a y ∧ same u2 b x)).
    { intros rk u'. destruct (same_link n u2 u' y x py px) as [Hok' Hs']; [done..|].
      split; [done|]. intros a b. rewrite Hs'. tauto. }
    repeat case_match; [|apply Hyx..]. by eapply same_link.
Qed.

(** ** The generated equivalence *)

Definition edge (es : list (nat * nat)) (a b : nat) : Prop := (a, b) ∈ es.

Lemma rtsc_edge_snoc es x y a b :
  rtsc (edge (es ++ [(x, y)])) a b ↔
  rtsc (edge es) a b ∨ (rtsc (edge es) a x ∧ rtsc (edge es) b y)
                     ∨ (rtsc (edge es) a y ∧ rtsc (edge es) b x).
Proof.
  assert (Hsub : ∀ c d, rtsc (edge es) c d → rtsc (edge (es ++ [(x, y)])) c d).
  { intros c d. induction 1 as [|c e d Hce _ IH]; [done|].
    eapply rtc_l; [|exact IH]. destruct Hce as [H|H]; [left|right];
      unfold edge in *; set_solver. }
  assert (Hxy : rtsc (edge (es ++ [(x, y)])) x y).
  { apply rtc_once. left. unfold edge. set_solver. }
  split.
  - induction 1 as [a|a c b Hac _ IH]; [by left|].
    assert (Hac' : rtsc (edge es) a c ∨ (a = x ∧ c = y) ∨ (a = y ∧ c = x)).
    { unfold sc, edge in Hac. rewrite !elem_of_app, !list_elem_of_singleton in Hac.
      destruct Hac as [[H|H]|[H|H]]; simplify_eq; auto.
      - left. apply rtc_once. by left.
      - left. apply rtc_once. by right. }
    destruct Hac' as [Hac'|[[-> ->]|[-> ->]]].
    + destruct IH as [IH|[[H1 H2]|[H1 H2]]]; [left|right; left|right; right];
        [by etransitivity|split; [by etransitivity|done]..].
    + destruct IH as [IH|[[H1 H2]|[H1 H2]]].
      * right. left. split; [done|]. by symmetry.
      * right. left. split; [done|done].
      * left. by symmetry.
    + destruct IH as [IH|[[H1 H2]|[H1 H2]]].
      * right. right. split; [done|]. by symmetry.
      * left. by symmetry.
      * right. right. done.
  - intros [H|[[H1 H2]|[H1 H2]]]; [auto| |].
    + etransitivity; [apply Hsub, H1|]. etransitivity; [exact Hxy|]. symmetry. auto.
    + etransitivity; [apply Hsub, H1|]. etransitivity; [symmetry; exact Hxy|]. symmetry. auto.
Qed.

(** ** What the grouping code relies on

    Both union operations of the source merge the classes of their arguments
    and nothing else; the grouping theorems are proved from this alone. *)

Definition union_sets (u : uf) (x y : nat) : uf :=
  let '(u1, px) := find u x in
  let '(u2, py) := find u1 y in
  if negb (px =? py)%nat then mkUF (<[px := py]> (parent u2)) (urank u2) else u2.

Class UnionOp (op : uf → nat → nat → uf) : Prop :=
  union_op_spec : ∀ n u x y,
    uf_ok n u → (x < n)%nat → (y < n)%nat →
    uf_ok n (op u x y) ∧ ∀ a b, same (op u x y) a b ↔
      same u a b ∨ (same u a x ∧ same u b y) ∨ (same u a y ∧ same u b x).

#[export] Instance unite_op : UnionOp unite := unite_spec.

#[export] Instance union_sets_op : UnionOp union_sets.
Proof.
  intros n u x y Hu Hx Hy. unfold union_sets. pose proof (find_twice n u x y Hu Hx Hy) as Hf.
  destruct (find u x) as [u1 px]. destruct (find u1 y) as [u2 py].
  destruct Hf as (Hok & Hpx & Hpy & Hs). setoid_rewrite <- Hs.
  destruct (Nat.eqb_spec px py) as [<-|Hne]; simpl.
  - split; [done|]. intros a b. apply same_already. by exists px.
  - by eapply same_link.
Qed.

Section union_all.
Context (op : uf → nat → nat → uf) `{!UnionOp op} (n : nat).

Definition union_all (u : uf) (es : list (nat * nat)) : uf :=
  foldl (λ u e, op u e.1 e.2) u es.

(** Uniting the pairs [es] leaves the equivalence they generate. *)
Lemma union_all_spec es :
  Forall (λ e, (e.1 < n)%nat ∧ (e.2 < n)%nat) es →
  uf_ok n (union_all (uf_init n) es) ∧
  ∀ a b, (a < n)%nat → (b < n)%nat →
    same (union_all (uf_init n) es) a b ↔ rtsc (edge es) a b.
Proof using UnionOp0.
  induction es as [|[x y] es IH] using rev_ind; intros Hes.
  - split; [apply uf_init_ok|]. intros a b Ha Hb.
    change (union_all (uf_init n) []) with (uf_init n). rewrite same_init by done. split.
    + by intros <-.
    + induction 1 as [|a c b Hac _ _]; [done|]. unfold sc, edge in Hac.
      destruct Hac as [H|H]; by apply not_elem_of_nil in H.
  - apply Forall_app in Hes as [Hes [Hxy _]%Forall_cons]. simpl in Hxy.
    destruct (IH Hes) as [Hok Hs]. unfold union_all in *. rewrite foldl_app. simpl.
    destruct (union_op_spec n _ x y Hok) as [Hok' Hs']; [tauto..|].
    split; [done|]. intros a b Ha Hb. rewrite Hs', rtsc_edge_snoc, !Hs by tauto. done.
Qed.
End union_all.
