(* ===== verification/Grouping.v ===== *)
(** * Grouping elements by the classes of a union-find

    The loops shared by the grouping functions of the source: unite all
    overlapping pairs of indices, then distribute the indices over a map keyed
    by their representative. *)

From S2P Require Import Prelude UnionFind.

(** [for i in 0..n-1: if (skip i) continue; for j in i+1..n-1: if (skip j)
    continue; if (overlap i j) op(i, j)] *)
Definition unite_overlapping (op : uf → nat → nat → uf) (skip : nat → bool)
    (overlap : nat → nat → bool) (n : nat) (u : uf) : uf :=
  foldl (λ u i,
    if skip i then u
    else foldl (λ u j, if skip j then u else if overlap i j then op u i j else u)
           u (seq (S i) (n - S i))) u (seq 0 n).

(** [groups[r].push_back(i)]: the entries in the order their keys were first
    inserted. *)
Fixpoint map_push (r i : nat) (m : list (nat * list nat)) : list (nat * list nat) :=
  match m with
  | [] => [(r, [i])]
  | (r', l) :: m' => if (r' =? r)%nat then (r', l ++ [i]) :: m' else (r', l) :: map_push r i m'
  end.

(** [for i in idxs: groups[find(i)].push_back(i)] *)
Definition collect_groups (u : uf) (idxs : list nat) : uf * list (nat * list nat) :=
  foldl (λ st i, let '(u', r) := find st.1 i in (u', map_push r i st.2)) (u, []) idxs.

(** ** The united pairs *)

(** The pairs [i < j < n] in the order of the loops that are united. *)
Definition united_pairs (skip : nat → bool) (overlap : nat → nat → bool) (n : nat)
    : list (nat * nat) :=
  concat ((λ i, if skip i then []
    else (λ j, (i, j)) <$>
           filter (λ j, negb (skip j) && overlap i j = true) (seq (S i) (n - S i))) <$> seq 0 n).

Lemma unite_overlapping_all op skip overlap n u :
  unite_overlapping op skip overlap n u = union_all op u (united_pairs skip overlap n).
Proof.
  unfold unite_overlapping, united_pairs, union_all.
  generalize (seq 0 n) as is0. intros is0.
  revert u. induction is0 as [|i is0 IH]; intros u; simpl; [done|].
  rewrite foldl_app, IH. f_equal. destruct (skip i); [done|].
  generalize (seq (S i) (n - S i)) as js. intros js. revert u.
  induction js as [|j js IHj]; intros u; simpl; [done|].
  rewrite filter_cons. destruct (skip j); simpl; [apply IHj|].
  destruct (overlap i j); simpl; apply IHj.
Qed.

Lemma elem_of_united_pairs skip overlap n a b :
  (a, b) ∈ united_pairs skip overlap n ↔
  (a < b < n)%nat ∧ skip a = false ∧ skip b = false ∧ overlap a b = true.
Proof.
  unfold united_pairs. rewrite elem_of_concat.
  split.
  - intros (l & Hl & (i & -> & Hi%elem_of_seq)%list_elem_of_fmap).
    destruct (skip i) eqn:Hs; [by apply not_elem_of_nil in Hl|].
    apply list_elem_of_fmap in Hl as (j & [= -> ->] & [Hj Hj2%elem_of_seq]%list_elem_of_filter).
    apply andb_true_iff in Hj as [Hj%negb_true_iff Ho]. split_and!; [lia..|done|done|done].
  - intros (Hab & Ha & Hb & Ho).
    eexists. split; [|apply list_elem_of_fmap; exists a; split; [done|apply elem_of_seq; lia]].
    simpl. rewrite Ha. apply list_elem_of_fmap. exists b. split; [done|].
    apply list_elem_of_filter. rewrite Hb, Ho. split; [done|]. apply elem_of_seq. lia.
Qed.

(** ** Collecting *)

Lemma map_push_concat r i m : concat (map_push r i m).*2 ≡ₚ concat m.*2 ++ [i].
Proof.
  induction m as [|[r' l] m IH]; simpl; [done|].
  destruct (r' =? r)%nat; simpl.
  - rewrite <- !app_assoc. apply Permutation_app_head. by rewrite Permutation_app_comm.
  - by rewrite IH, app_assoc.
Qed.

Lemma map_push_keys r i m k : k ∈ (map_push r i m).*1 ↔ k = r ∨ k ∈ m.*1.
Proof.
  induction m as [|[r' l] m IH]; simpl; [by rewrite list_elem_of_singleton, elem_of_nil; tauto|].
  destruct (Nat.eqb_spec r' r) as [->|]; simpl; rewrite ?elem_of_cons, ?IH; tauto.
Qed.

Lemma map_push_NoDup r i m : NoDup m.*1 → NoDup (map_push r i m).*1.
Proof.
  induction m as [|[r' l] m IH]; simpl; intros Hnd; [constructor; [set_solver|constructor]|].
  apply NoDup_cons in Hnd as [Hn Hnd]. destruct (Nat.eqb_spec r' r); simpl.
  - by constructor.
  - constructor; [|auto]. rewrite map_push_keys. intros [->|?]; done.
Qed.

Lemma elem_of_map_push r i m k l :
  NoDup m.*1 → (k, l) ∈ map_push r i m →
  (k ≠ r ∧ (k, l) ∈ m) ∨
  (k = r ∧ ((∃ l0, (r, l0) ∈ m ∧ l = l0 ++ [i]) ∨ (¬ (r ∈ m.*1) ∧ l = [i]))).
Proof.
  induction m as [|[r' l'] m IH]; simpl; intros Hnd Hin.
  - apply list_elem_of_singleton in Hin. simplify_eq. right. split; [done|]. right. set_solver.
  - apply NoDup_cons in Hnd as [Hn Hnd].
    destruct (Nat.eqb_spec r' r) as [->|Hne].
    + apply elem_of_cons in Hin as [[= -> ->]|Hin].
      * right. split; [done|]. left. exists l'. split; [left|done].
      * left. split; [|by right]. intros ->. apply Hn.
        apply list_elem_of_fmap. by exists (r, l).
    + apply elem_of_cons in Hin as [[= -> ->]|Hin]; [left; split; [done|left]|].
      destruct (IH Hnd Hin) as [[H1 H2]|[-> [(l0 & H1 & ->)|[H1 ->]]]].
      * left. split; [done|by right].
      * right. split; [done|]. left. exists l0. split; [by right|done].
      * right. split; [done|]. right. split; [|done]. simpl. set_solver.
Qed.

(** What the collected map holds for the indices seen so far: every entry is
    the nonempty list of the indices with that representative. *)
Record groups_of (u : uf) (idxs : list nat) (m : list (nat * list nat)) : Prop := {
  go_perm : concat m.*2 ≡ₚ idxs;
  go_keys : NoDup m.*1;
  go_entry : ∀ r l, (r, l) ∈ m → l ≠ [] ∧ ∀ i, i ∈ l → rooted (parent u) i r;
}.

Lemma collect_spec n u idxs :
  uf_ok n u → Forall (λ i, (i < n)%nat) idxs →
  groups_of u idxs (collect_groups u idxs).2 ∧
  (∀ y s, rooted (parent (collect_groups u idxs).1) y s ↔ rooted (parent u) y s).
Proof.
  intros Hu. unfold collect_groups.
  induction idxs as [|i idxs IH] using rev_ind; intros Hidx.
  - split; [|done]. simpl. split; [done|constructor|]. intros r l Hin. by apply not_elem_of_nil in Hin.
  - apply Forall_app in Hidx as [Hidx [Hi _]%Forall_cons].
    destruct (IH Hidx) as [[Hp Hk He] Hroot]. rewrite foldl_app. simpl.
    destruct (foldl _ _ idxs) as [u' m] eqn:E. simpl in *.
    destruct Hu as [Hl Hok]. destruct (Hok i Hi) as [r Hr].
    destruct (find_spec u' i r) as (Er & _ & _ & Hroot'); [by apply Hroot|].
    destruct (find u' i) as [u2 r2]. simpl in *. subst r2. split.
    + split.
      * by rewrite map_push_concat, Hp.
      * by apply map_push_NoDup.
      * intros k l Hin. apply elem_of_map_push in Hin; [|done].
        destruct Hin as [[_ Hin]|[-> [(l0 & Hin & ->)|[_ ->]]]]; [by apply He| |].
        -- destruct (He _ _ Hin) as [_ Hall]. split; [by destruct l0|].
           intros j [Hj|Hj%list_elem_of_singleton]%elem_of_app; [by apply Hall|by subst].
        -- split; [done|]. intros j Hj%list_elem_of_singleton. by subst.
    + intros y s. by rewrite Hroot'.
Qed.

(** ** The groups are the connected components *)

Section grouping.
Context (op : uf → nat → nat → uf) `{!UnionOp op}.
Context (skip : nat → bool) (overlap : nat → nat → bool) (n : nat).

Definition active : list nat := filter (λ i, skip i = false) (seq 0 n).

Definition grouped : list (nat * list nat) :=
  (collect_groups (unite_overlapping op skip overlap n (uf_init n)) active).2.

(** Indices linked by a chain of overlapping pairs. *)
Definition linked : relation nat := rtsc (edge (united_pairs skip overlap n)).

Lemma elem_of_active i : i ∈ active ↔ (i < n)%nat ∧ skip i = false.
Proof. unfold active. rewrite list_elem_of_filter, elem_of_seq. split; intros []; split; (done || lia). Qed.

Lemma grouped_spec :
  concat grouped.*2 ≡ₚ active ∧
  (∀ g, g ∈ grouped → g.2 ≠ [] ∧ ∀ i j, i ∈ g.2 → j ∈ g.2 → linked i j) ∧
  (∀ p q g h i j, grouped !! p = Some g → grouped !! q = Some h → p ≠ q →
     i ∈ g.2 → j ∈ h.2 → ¬ linked i j).
Proof using UnionOp0.
  assert (Hes : Forall (λ e, (e.1 < n)%nat ∧ (e.2 < n)%nat) (united_pairs skip overlap n)).
  { apply Forall_forall. intros [a b] Hab%elem_of_united_pairs. simpl. lia. }
  destruct (union_all_spec op n (united_pairs skip overlap n) Hes) as [Hok Hsame].
  rewrite <- unite_overlapping_all in Hok, Hsame.
  assert (Hact : Forall (λ i, (i < n)%nat) active).
  { apply Forall_forall. intros i Hi%elem_of_active. tauto. }
  destruct (collect_spec n _ active Hok Hact) as [[Hp Hk He] _]. fold grouped in Hp, Hk, He.
  assert (Hlt : ∀ g i, g ∈ grouped → i ∈ g.2 → (i < n)%nat).
  { intros [r l] i Hg Hi. eapply Forall_forall in Hact; [exact Hact|]. rewrite <- Hp.
    apply elem_of_concat. exists l. split; [done|]. apply list_elem_of_fmap. by exists (r, l). }
  split_and!; [done| |].
  - intros [r l] Hg. destruct (He r l Hg) as [Hne Hr]. split; [done|]. intros i j Hi Hj.
    apply Hsame; [by apply (Hlt (r, l))|by apply (Hlt (r, l))|]. exists r. auto.
  - intros p q [r l] [r' l'] i j Hgp Hgq Hpq Hi Hj Hl.
    apply list_elem_of_lookup_2 in Hgp as Hg. apply list_elem_of_lookup_2 in Hgq as Hh.
    apply Hsame in Hl; [|by apply (Hlt (r, l))|by apply (Hlt (r', l'))].
    destruct Hl as (s & Hs1 & Hs2). destruct (He r l Hg) as [_ Hr]. destruct (He r' l' Hh) as [_ Hr'].
    assert (r = r') as <-.
    { rewrite (rooted_det _ _ _ _ (Hr i Hi) Hs1). by rewrite (rooted_det _ _ _ _ (Hr' j Hj) Hs2). }
    apply Hpq. eapply NoDup_lookup; [exact Hk| |];
      rewrite list_lookup_fmap, ?Hgp, ?Hgq; done.
Qed.

Lemma grouped_act e i : e ∈ grouped → i ∈ e.2 → (i < n)%nat ∧ skip i = false.
Proof using UnionOp0.
  intros He Hi. destruct grouped_spec as (Hp & _ & _). apply elem_of_active. rewrite <- Hp.
  apply elem_of_concat. exists e.2. split; [done|]. apply list_elem_of_fmap. by exists e.
Qed.

Lemma linked_active i j : linked i j → i ∈ active → j ∈ active.
Proof using Type.
  induction 1 as [|i c j Hic _ IH]; [done|]. intros _. apply IH, elem_of_active.
  destruct Hic as [H|H]; apply elem_of_united_pairs in H as (? & ? & ? & _); (split; [lia|done]).
Qed.

(** Groups are closed under links. *)
Lemma grouped_closed e i j : e ∈ grouped → i ∈ e.2 → linked i j → j ∈ e.2.
Proof using UnionOp0.
  intros He Hi Hij. pose proof (grouped_act e i He Hi) as Hai%elem_of_active.
  pose proof (linked_active i j Hij Hai) as Haj. destruct grouped_spec as (Hp & _ & Hd).
  rewrite <- Hp in Haj. apply elem_of_concat in Haj as (l & Hl & (e' & -> & He')%list_elem_of_fmap).
  apply list_elem_of_lookup in He as [p Hep]. apply list_elem_of_lookup in He' as [q Heq].
  destruct (decide (p = q)) as [->|Hpq]; [by simplify_eq|].
  by destruct (Hd p q e e' i j Hep Heq Hpq Hi Hl).
Qed.
End grouping.

(** ** Components of overlapping intervals are disjoint intervals *)

Section intervals.
Context {K : Type} (cmp : K → K → comparison) `{!CompareOk cmp}.
Context (skip : nat → bool) (overlap : nat → nat → bool) (n : nat) (lo hi : nat → K).
Hypothesis overlap_spec : ∀ i j, (i < n)%nat → (j < n)%nat → skip i = false → skip j = false →
  overlap i j = true ↔ cmp_le cmp (lo j) (hi i) ∧ cmp_le cmp (lo i) (hi j).
Hypothesis interval_ok : ∀ i, (i < n)%nat → skip i = false → cmp_le cmp (lo i) (hi i).

Local Notation "i ∼ j" := (linked skip overlap n i j) (at level 70).
Abbreviation act i := ((i < n)%nat ∧ skip i = false).

Lemma edge_act i j : sc (edge (united_pairs skip overlap n)) i j →
  act i ∧ act j ∧ cmp_le cmp (lo j) (hi i) ∧ cmp_le cmp (lo i) (hi j).
Proof using overlap_spec.
  intros [H|H]; apply elem_of_united_pairs in H as (? & ? & ? & Ho);
    apply overlap_spec in Ho; try done; try lia; split_and!; (done || lia || tauto).
Qed.

Lemma linked_act i j : i ∼ j → act i → act j.
Proof using overlap_spec.
  induction 1 as [|i c j Hic _ IH]; [done|]. intros _. apply IH. apply edge_act in Hic. tauto.
Qed.

Lemma overlapping_linked i j :
  act i → act j → cmp_le cmp (lo j) (hi i) → cmp_le cmp (lo i) (hi j) → i ∼ j.
Proof using overlap_spec.
  intros Hi Hj H1 H2. destruct (lt_eq_lt_dec i j) as [[Hlt|<-]|Hlt]; [|done|].
  - apply rtc_once. left. apply elem_of_united_pairs. rewrite overlap_spec by tauto. tauto.
  - apply rtc_once. right. apply elem_of_united_pairs. rewrite overlap_spec by tauto. tauto.
Qed.

(** Between the start of one interval and the end of a linked one, every
    point is covered by the component. *)
Lemma linked_covered i j k :
  i ∼ j → act i → cmp_le cmp (lo i) k → cmp_le cmp k (hi j) →
  ∃ f, i ∼ f ∧ act f ∧ cmp_le cmp (lo f) k ∧ cmp_le cmp k (hi f).
Proof using overlap_spec CompareOk0.
  induction 1 as [i|i c j Hic Hcj IH]; intros Hi Hlo Hhi; [by exists i|].
  destruct (decide (cmp_le cmp k (hi i))) as [Hk|Hk]; [by exists i|].
  destruct (edge_act _ _ Hic) as (_ & Hc & H1 & _).
  destruct IH as (f & Hf & Hfa & H2 & H3); [done|by order (cmp_le cmp)|done|].
  exists f. split_and!; [|tauto|tauto|done|done]. by eapply rtc_l.
Qed.

(** [is_hull l a b]: [a, b] is the smallest interval around the intervals [l]. *)
Definition is_hull (l : list nat) (a b : K) : Prop :=
  (∃ i, i ∈ l ∧ lo i = a) ∧ (∀ i, i ∈ l → cmp_le cmp a (lo i)) ∧
  (∃ i, i ∈ l ∧ hi i = b) ∧ (∀ i, i ∈ l → cmp_le cmp (hi i) b).

Lemma component_overlap l l' a b a' b' :
  (∀ i j, i ∈ l → j ∈ l → i ∼ j) → (∀ i, i ∈ l → act i) → (∀ i, i ∈ l' → act i) →
  is_hull l a b → is_hull l' a' b' → cmp_le cmp a a' → cmp_le cmp a' b →
  ∃ i j, i ∈ l ∧ j ∈ l' ∧ i ∼ j.
Proof using overlap_spec interval_ok CompareOk0.
  intros Hlink Hl Hl' ((i0 & Hi0 & <-) & _ & (j0 & Hj0 & <-) & _) ((i1 & Hi1 & <-) & _) Haa Hab.
  destruct (linked_covered i0 j0 (lo i1)) as (f & Hf & Hfa & H1 & H2); auto.
  exists i0, i1. split_and!; [done..|]. etransitivity; [exact Hf|].
  apply overlapping_linked; auto. pose proof (interval_ok i1). destruct (Hl' i1 Hi1).
  assert (cmp_le cmp (lo i1) (hi i1)) by auto. by order (cmp_le cmp).
Qed.

Lemma components_disjoint l l' a b a' b' :
  (∀ i j, i ∈ l → j ∈ l → i ∼ j) → (∀ i j, i ∈ l' → j ∈ l' → i ∼ j) →
  (∀ i, i ∈ l → act i) → (∀ i, i ∈ l' → act i) →
  is_hull l a b → is_hull l' a' b' →
  (∀ i j, i ∈ l → j ∈ l' → ¬ i ∼ j) → ¬ cmp_le cmp a' b ∨ ¬ cmp_le cmp a b'.
Proof using overlap_spec interval_ok CompareOk0.
  intros Hk Hk' Hl Hl' Hh Hh' Hno.
  destruct (decide (cmp_le cmp a' b)) as [H1|]; [|auto].
  destruct (decide (cmp_le cmp a b')) as [H2|]; [|auto]. exfalso.
  destruct (total (cmp_le cmp) a a') as [H|H].
  - destruct (component_overlap l l' a b a' b') as (i & j & Hi & Hj & Hij); auto.
    by apply (Hno i j).
  - destruct (component_overlap l' l a' b' a b) as (i & j & Hi & Hj & Hij); auto.
    apply (Hno j i); [done..|]. by symmetry.
Qed.
End intervals.
