(* ===== verification/L0Groups.v ===== *)
(** * Overlapping groups of level-0 files

    Models [VersionStorageInfo::CalculateMaxOverlappingGroupSize],
    [GetLargestOverlappingGroup] and [FindL0OverlappingGroups]
    ([src/db/version_set.cc]) over the list [files_[0]]. *)

From S2P Require Import Prelude Coding Comparator DbFormat FileMeta UnionFind Grouping.

Definition skip_at (files : list FileMetaData) (i : nat) : bool :=
  match files !! i with Some f => being_compacted f | None => false end.

(** [cmp >= 0] *)
Definition is_ge (c : comparison) : bool := match c with Lt => false | _ => true end.

(** The pairwise test on internal keys. *)
Definition internal_overlap `{Comparator} (f g : FileMetaData) : bool :=
  is_ge (InternalKeyCompare (largest f) (smallest g)) &&
  is_ge (InternalKeyCompare (largest g) (smallest f)).

Definition internal_overlap_at `{Comparator} (files : list FileMetaData) (i j : nat) : bool :=
  match files !! i, files !! j with
  | Some f, Some g => internal_overlap f g
  | _, _ => false
  end.

(** ** GetLargestOverlappingGroup *)

(** The first entry, in iteration order, with the most members. *)
Fixpoint largest_entry (max_root : option nat) (max_size : nat) (es : list (nat * list nat))
    : option nat :=
  match es with
  | [] => max_root
  | (r, l) :: es' =>
      if (max_size <? length l)%nat then largest_entry (Some r) (length l) es'
      else largest_entry max_root max_size es'
  end.

Definition map_find (m : list (nat * list nat)) (r : nat) : list nat :=
  match list_find (λ e : nat * list nat, e.1 = r) m with Some (_, e) => e.2 | None => [] end.

Definition GetLargestOverlappingGroup `{Comparator, StdChoices} (files : list FileMetaData)
    : list FileMetaData :=
  let num_files := length files in
  if (num_files =? 0)%nat then []
  else if (num_files =? 1)%nat then files
  else
    let u := unite_overlapping unite (λ _, false) (internal_overlap_at files) num_files
               (uf_init num_files) in
    let groups := (collect_groups u (seq 0 num_files)).2 in
    match largest_entry None 0 (unordered_iter groups) with
    | Some r => omap (λ i, files !! i) (map_find groups r)
    | None => []
    end.

(** ** FindL0OverlappingGroups *)

Record L0OverlappingGroup := mkGroup {
  group_files : list FileMetaData;
  group_smallest : key;
  group_largest : key;
}.

(** Extending the group's bounds by one file. *)
Definition extend_bounds `{Comparator} (b : key * key) (f : FileMetaData) : key * key :=
  (match InternalKeyCompare (smallest f) b.1 with Lt => smallest f | _ => b.1 end,
   match InternalKeyCompare (largest f) b.2 with Gt => largest f | _ => b.2 end).

Definition make_group `{Comparator} (fs : list FileMetaData) : option L0OverlappingGroup :=
  match fs with
  | [] => None
  | f :: _ =>
      let '(s, l) := foldl extend_bounds (smallest f, largest f) fs in
      Some (mkGroup fs s l)
  end.

Definition total_file_size (fs : list FileMetaData) : Z := sum64 (GetFileSize <$> fs).

Definition larger_group (a b : L0OverlappingGroup) : bool :=
  total_file_size (group_files b) <? total_file_size (group_files a).

Definition FindL0OverlappingGroups `{Comparator, StdChoices} (files : list FileMetaData)
    : list L0OverlappingGroup :=
  let num_files := length files in
  if (num_files =? 0)%nat then []
  else
    let u := unite_overlapping unite (skip_at files) (internal_overlap_at files) num_files
               (uf_init num_files) in
    let active := filter (λ i, skip_at files i = false) (seq 0 num_files) in
    let group_map := (collect_groups u active).2 in
    let groups := omap (λ e : nat * list nat, make_group (omap (λ i, files !! i) e.2))
                    (unordered_iter group_map) in
    std_sort larger_group groups.

(** ** CalculateMaxOverlappingGroupSize *)

Record Event := mkEvent { ev_key : key; ev_type : Z (* 0 = START, 1 = END *); ev_file : nat }.

Definition event_lt `{Comparator} (a b : Event) : bool :=
  match Compare (ev_key a) (ev_key b) with
  | Lt => true
  | Gt => false
  | Eq => ev_type a <? ev_type b
  end.

Definition file_events (i : nat) (f : FileMetaData) : list Event :=
  if being_compacted f then []
  else [mkEvent (ExtractUserKey (smallest f)) 0 i; mkEvent (ExtractUserKey (largest f)) 1 i].

Fixpoint sweep (current_depth max_depth : Z) (events : list Event) : Z :=
  match events with
  | [] => max_depth
  | e :: es =>
      if ev_type e =? 0 then sweep (current_depth + 1) (Z.max max_depth (current_depth + 1)) es
      else sweep (current_depth - 1) max_depth es
  end.

Definition CalculateMaxOverlappingGroupSize `{Comparator, StdChoices}
    (files : list FileMetaData) : Z :=
  match files with
  | [] => 0
  | [f] => if being_compacted f then 0 else 1
  | _ =>
      let events := concat (imap file_events files) in
      if (length events =? 0)%nat then 0
      else sweep 0 0 (std_sort event_lt events)
  end.

(** ** Bounds of a group *)

Section bounds.
Context (C : Comparator) (HC : ComparatorOk C).

Abbreviation ikey_le := (cmp_le InternalKeyCompare).

Lemma extend_bounds_le s l f :
  let b := extend_bounds (s, l) f in
  ikey_le b.1 s ∧ ikey_le b.1 (smallest f) ∧ (b.1 = s ∨ b.1 = smallest f) ∧
  ikey_le l b.2 ∧ ikey_le (largest f) b.2 ∧ (b.2 = l ∨ b.2 = largest f).
Proof using HC.
  unfold extend_bounds. simpl.
  cmp_case InternalKeyCompare (smallest f) s; cmp_case InternalKeyCompare (largest f) l;
    split_and!; auto; order (cmp_le (@InternalKeyCompare C)).
Qed.

Lemma fold_bounds fs s l :
  let b := foldl extend_bounds (s, l) fs in
  ikey_le b.1 s ∧ (∀ f, f ∈ fs → ikey_le b.1 (smallest f)) ∧
  (b.1 = s ∨ ∃ f, f ∈ fs ∧ smallest f = b.1) ∧
  ikey_le l b.2 ∧ (∀ f, f ∈ fs → ikey_le (largest f) b.2) ∧
  (b.2 = l ∨ ∃ f, f ∈ fs ∧ largest f = b.2).
Proof using HC.
  revert s l. induction fs as [|f fs IH]; intros s l.
  { simpl. split_and!; auto; try done; by intros ? ?%not_elem_of_nil. }
  pose proof (extend_bounds_le s l f) as He. cbn [foldl].
  destruct (extend_bounds (s, l) f) as [s1 l1]. simpl in He.
  destruct He as (H1 & H2 & H3 & H4 & H5 & H6).
  destruct (IH s1 l1) as (I1 & I2 & I3 & I4 & I5 & I6).
  destruct (foldl extend_bounds (s1, l1) fs) as [s2 l2]. simpl in *. split_and!.
  - order (cmp_le (@InternalKeyCompare C)).
  - intros g [->|Hg]%elem_of_cons; [order (cmp_le (@InternalKeyCompare C))|auto].
  - destruct I3 as [->|(g & Hg & <-)]; [|right; exists g; split; [by right|done]].
    destruct H3 as [-> | ->]; [auto|]. right. exists f. split; [left|done].
  - order (cmp_le (@InternalKeyCompare C)).
  - intros g [->|Hg]%elem_of_cons; [order (cmp_le (@InternalKeyCompare C))|auto].
  - destruct I6 as [->|(g & Hg & <-)]; [|right; exists g; split; [by right|done]].
    destruct H6 as [-> | ->]; [auto|]. right. exists f. split; [left|done].
Qed.

(** A group covers its files exactly. *)
Definition covers (g : L0OverlappingGroup) : Prop :=
  (∃ f, f ∈ group_files g ∧ smallest f = group_smallest g) ∧
  (∀ f, f ∈ group_files g → ikey_le (group_smallest g) (smallest f)) ∧
  (∃ f, f ∈ group_files g ∧ largest f = group_largest g) ∧
  (∀ f, f ∈ group_files g → ikey_le (largest f) (group_largest g)).

Lemma make_group_spec fs :
  fs ≠ [] → ∃ g, make_group fs = Some g ∧ group_files g = fs ∧ covers g.
Proof using HC.
  destruct fs as [|f fs]; [done|]. intros _. unfold make_group.
  pose proof (fold_bounds (f :: fs) (smallest f) (largest f)) as Hb.
  destruct (foldl extend_bounds _ (f :: fs)) as [s l]. simpl in Hb.
  destruct Hb as (_ & H2 & H3 & _ & H5 & H6). exists (mkGroup (f :: fs) s l).
  split_and!; [done..|]. unfold covers. cbn [group_files group_smallest group_largest].
  split_and!; [|done| |done].
  - destruct H3 as [->|H3]; [exists f; split; [left|done]|done].
  - destruct H6 as [->|H6]; [exists f; split; [left|done]|done].
Qed.
End bounds.

(** ** Groups of files *)

Section groups.
Context (C : Comparator) (HC : ComparatorOk C) (SC : StdChoices).
Context (files : list FileMetaData).

Abbreviation ikey_le := (cmp_le InternalKeyCompare).
Abbreviation n := (length files).

Definition file_ok (f : FileMetaData) : Prop := ikey_le (smallest f) (largest f).
Definition lo_at (i : nat) : key := match files !! i with Some f => smallest f | None => [] end.
Definition hi_at (i : nat) : key := match files !! i with Some f => largest f | None => [] end.
Definition files_at (l : list nat) : list FileMetaData := omap (λ i, files !! i) l.

Lemma is_ge_le a b : is_ge (InternalKeyCompare a b) = true ↔ ikey_le b a.
Proof using HC.
  unfold cmp_le. rewrite (compare_opp InternalKeyCompare a b).
  by destruct (InternalKeyCompare a b).
Qed.

Lemma overlap_at_spec i j :
  (i < n)%nat → (j < n)%nat →
  internal_overlap_at files i j = true ↔ ikey_le (lo_at j) (hi_at i) ∧ ikey_le (lo_at i) (hi_at j).
Proof using HC.
  intros [f Hf]%lookup_lt_is_Some [g Hg]%lookup_lt_is_Some.
  unfold internal_overlap_at, lo_at, hi_at, internal_overlap. rewrite Hf, Hg.
  by rewrite andb_true_iff, !is_ge_le.
Qed.

Lemma elem_of_files_at f l : f ∈ files_at l ↔ ∃ i, i ∈ l ∧ files !! i = Some f.
Proof. unfold files_at. by rewrite list_elem_of_omap. Qed.

(** Any way of grouping the files that skips some of them: [entries] are the
    connected components of the others. *)
Section components.
Context (op : uf → nat → nat → uf) `{!UnionOp op} (skip : nat → bool).
Hypothesis files_wf : ∀ i f, files !! i = Some f → skip i = false → file_ok f.

Abbreviation entries := (grouped op skip (internal_overlap_at files) n).
Abbreviation link := (linked skip (internal_overlap_at files) n).

Lemma entry_act e i : e ∈ entries → i ∈ e.2 → (i < n)%nat ∧ skip i = false.
Proof using UnionOp0. apply grouped_act, UnionOp0. Qed.

(** Entries are closed under links. *)
Lemma entry_closed e i j : e ∈ entries → i ∈ e.2 → link i j → j ∈ e.2.
Proof using UnionOp0. apply grouped_closed, UnionOp0. Qed.

(** Two files of an entry are joined by a chain of overlapping files of it. *)
Definition chain (fs : list FileMetaData) : relation FileMetaData :=
  rtsc (λ f g, f ∈ fs ∧ g ∈ fs ∧ internal_overlap f g = true).

Lemma entry_chain e f g :
  e ∈ entries → f ∈ files_at e.2 → g ∈ files_at e.2 → chain (files_at e.2) f g.
Proof using UnionOp0 HC.
  intros He (i & Hi & Hf)%elem_of_files_at (j & Hj & Hg)%elem_of_files_at.
  destruct (grouped_spec op skip (internal_overlap_at files) n) as (_ & Hl & _).
  destruct (Hl e He) as [_ Hlink]. pose proof (Hlink i j Hi Hj) as Hij. clear Hlink.
  revert f Hi Hf. induction Hij as [i|i c j Hic Hcj IH]; intros f Hi Hf; [by simplify_eq|].
  assert (Hc : c ∈ e.2) by (apply (entry_closed e i); [done..|]; by apply rtc_once).
  destruct (entry_act e c He Hc) as [[h Hh]%lookup_lt_is_Some _].
  specialize (IH Hj Hg h Hc Hh). eapply rtc_l; [|exact IH].
  assert (Hfin : f ∈ files_at e.2) by (apply elem_of_files_at; eauto).
  assert (Hhin : h ∈ files_at e.2) by (apply elem_of_files_at; eauto).
  destruct Hic as [H|H]; apply elem_of_united_pairs in H as (_ & _ & _ & Ho);
    unfold internal_overlap_at in Ho; rewrite Hf, Hh in Ho; [left|right]; done.
Qed.

Lemma entry_nonempty e : e ∈ entries → files_at e.2 ≠ [].
Proof using UnionOp0.
  intros He. destruct (grouped_spec op skip (internal_overlap_at files) n) as (_ & Hl & _).
  destruct (Hl e He) as [Hne _]. destruct e as [r l]. simpl in *. destruct l as [|i l]; [done|].
  destruct (entry_act (r, i :: l) i He) as [[f Hf]%lookup_lt_is_Some _]; [left|].
  unfold files_at. simpl. by rewrite Hf.
Qed.

Lemma covers_hull e g :
  e ∈ entries → group_files g = files_at e.2 → covers C g →
  is_hull InternalKeyCompare lo_at hi_at e.2 (group_smallest g) (group_largest g).
Proof using UnionOp0.
  intros He Hg ((f & Hf & Ef) & Hlo & (h & Hh & Eh) & Hhi). rewrite Hg in *.
  apply elem_of_files_at in Hf as (i & Hi & Hfi). apply elem_of_files_at in Hh as (j & Hj & Hhj).
  assert (Hin : ∀ k, k ∈ e.2 → ∃ f, files !! k = Some f ∧ f ∈ files_at e.2).
  { intros k Hk. destruct (entry_act e k He Hk) as [[f' Hf']%lookup_lt_is_Some _].
    exists f'. split; [done|]. apply elem_of_files_at. eauto. }
  split_and!.
  - exists i. split; [done|]. unfold lo_at. by rewrite Hfi.
  - intros k Hk. destruct (Hin k Hk) as (f' & Hf' & Hel). unfold lo_at. rewrite Hf'. auto.
  - exists j. split; [done|]. unfold hi_at. by rewrite Hhj.
  - intros k Hk. destruct (Hin k Hk) as (f' & Hf' & Hel). unfold hi_at. rewrite Hf'. auto.
Qed.

(** The hulls of two different entries do not meet. *)
Lemma entries_disjoint p q e e' g g' :
  entries !! p = Some e → entries !! q = Some e' → p ≠ q →
  group_files g = files_at e.2 → covers C g → group_files g' = files_at e'.2 → covers C g' →
  InternalKeyCompare (group_largest g) (group_smallest g') = Lt ∨
  InternalKeyCompare (group_largest g') (group_smallest g) = Lt.
Proof using UnionOp0 HC files_wf.
  intros Hp Hq Hpq Hg Hcg Hg' Hcg'.
  apply list_elem_of_lookup_2 in Hp as He. apply list_elem_of_lookup_2 in Hq as He'.
  destruct (grouped_spec op skip (internal_overlap_at files) n) as (_ & Hl & Hd).
  rewrite !(cmp_lt_iff InternalKeyCompare).
  apply (components_disjoint InternalKeyCompare skip (internal_overlap_at files) n lo_at hi_at)
    with (l := e.2) (l' := e'.2).
  - intros. by apply overlap_at_spec.
  - intros i [f Hf]%lookup_lt_is_Some Hs. unfold lo_at, hi_at. rewrite Hf.
    by apply (files_wf i f).
  - apply Hl, He.
  - apply Hl, He'.
  - intros i. by apply entry_act.
  - intros i. by apply entry_act.
  - by apply covers_hull.
  - by apply covers_hull.
  - intros i j Hi Hj. by apply (Hd p q e e').
Qed.
End components.

(** ** The result of [FindL0OverlappingGroups] *)

Abbreviation found := (grouped unite (skip_at files) (internal_overlap_at files) n).

Definition unsorted_groups : list L0OverlappingGroup :=
  omap (λ e : nat * list nat, make_group (files_at e.2)) found.

Lemma find_groups_perm : FindL0OverlappingGroups files ≡ₚ unsorted_groups.
Proof.
  unfold FindL0OverlappingGroups, unsorted_groups.
  destruct (Nat.eqb_spec n 0) as [Hn|_].
  { unfold grouped, active, collect_groups. by rewrite Hn. }
  rewrite std_sort_perm by apply swo_by_desc. by rewrite unordered_iter_perm.
Qed.

Lemma found_groups :
  Forall (λ e, is_Some (make_group (files_at e.2))) found.
Proof using HC.
  apply Forall_forall. intros e He.
  destruct (make_group_spec C HC (files_at e.2)) as (g & Hg & _); [by apply (entry_nonempty unite (skip_at files))|].
  by exists g.
Qed.

Lemma unsorted_lookup i g :
  unsorted_groups !! i = Some g →
  ∃ e, found !! i = Some e ∧ group_files g = files_at e.2 ∧ covers C g.
Proof using HC.
  unfold unsorted_groups. rewrite lookup_omap_all by apply found_groups.
  destruct (found !! i) as [e|] eqn:He; [|done]. simpl. intros Hg. exists e. split; [done|].
  apply list_elem_of_lookup_2 in He.
  destruct (make_group_spec C HC (files_at e.2)) as (g' & Hg' & H); [by apply (entry_nonempty unite (skip_at files))|].
  simplify_eq. done.
Qed.

Lemma unsorted_files :
  concat (group_files <$> unsorted_groups) ≡ₚ filter (λ f, being_compacted f = false) files.
Proof using HC.
  assert (Hf : group_files <$> unsorted_groups = (λ e : nat * list nat, files_at e.2) <$> found).
  { unfold unsorted_groups. pose proof found_groups as Hall. induction Hall as [|e l [g Hg] Hl IH];
      [done|]. simpl. rewrite Hg. cbn [fmap list_fmap]. f_equal; [|exact IH].
    destruct (decide (files_at e.2 = [])) as [E|E]; [by rewrite E in Hg|].
    destruct (make_group_spec C HC (files_at e.2) E) as (g' & Hg' & H & _). congruence. }
  rewrite Hf. destruct (grouped_spec unite (skip_at files) (internal_overlap_at files) n) as (Hp & _ & _).
  rewrite <- (omap_lookup_filter (λ f, being_compacted f = false) (λ i, skip_at files i = false)).
  - fold (active (skip_at files) n). rewrite <- Hp. rewrite omap_concat, <- list_fmap_compose. done.
  - intros i f Hi. unfold skip_at. by rewrite Hi.
Qed.
End groups.

(** ** The sweep line computes the maximal depth *)

Section sweep_line.
Context (C : Comparator) (HC : ComparatorOk C) (SC : StdChoices).

Abbreviation ukey_le := (cmp_le Compare).

(** The file's range of user keys contains [k]. *)
Definition contains (k : key) (f : FileMetaData) : Prop :=
  ukey_le (smallest_ukey f) k ∧ ukey_le k (largest_ukey f).

#[export] Instance contains_dec k f : Decision (contains k f).
Proof. unfold contains. apply _. Defined.

(** The number of files a read of [k] may have to look into. *)
Definition depth_at (files : list FileMetaData) (k : key) : nat :=
  length (filter (λ f, being_compacted f = false ∧ contains k f) files).

Definition count (P : Event → Prop) `{!∀ e, Decision (P e)} (es : list Event) : Z :=
  Z.of_nat (length (filter P es)).

Lemma count_app P `{!∀ e, Decision (P e)} es es' : count P (es ++ es') = count P es + count P es'.
Proof. unfold count. rewrite filter_app, length_app. lia. Qed.

Lemma count_perm P `{!∀ e, Decision (P e)} es es' : es ≡ₚ es' → count P es = count P es'.
Proof. intros Hp. unfold count. by rewrite Hp. Qed.

Lemma count_none P `{!∀ e, Decision (P e)} es : (∀ e, e ∈ es → ¬ P e) → count P es = 0.
Proof. intros Hn. unfold count. rewrite filter_none; [done|]. by apply Forall_forall. Qed.

Lemma count_eq P Q `{!∀ e, Decision (P e), !∀ e, Decision (Q e)} es :
  (∀ e, e ∈ es → P e ↔ Q e) → count P es = count Q es.
Proof.
  intros He. unfold count. f_equal.
  apply Nat.le_antisymm; apply filter_length_mono; intros e Hin; apply He, Hin.
Qed.

Lemma count_nonneg P `{!∀ e, Decision (P e)} es : 0 <= count P es.
Proof. unfold count. lia. Qed.

Definition is_start (e : Event) : Prop := ev_type e = 0.
Definition is_end (e : Event) : Prop := ev_type e ≠ 0.
Definition start_le (k : key) (e : Event) : Prop := ev_type e = 0 ∧ ukey_le (ev_key e) k.
Definition end_lt (k : key) (e : Event) : Prop := ev_type e ≠ 0 ∧ ¬ ukey_le k (ev_key e).

#[export] Instance is_start_dec e : Decision (is_start e).
Proof. unfold is_start. apply _. Defined.
#[export] Instance is_end_dec e : Decision (is_end e).
Proof. unfold is_end. apply _. Defined.
#[export] Instance start_le_dec k e : Decision (start_le k e).
Proof. unfold start_le. apply _. Defined.
#[export] Instance end_lt_dec k e : Decision (end_lt k e).
Proof. unfold end_lt. apply _. Defined.

(** The depth of the sweep after the events [es]. *)
Definition sweep_depth (es : list Event) : Z := count is_start es - count is_end es.

Lemma sweep_depth_cons e es :
  sweep_depth (e :: es) = (if ev_type e =? 0 then 1 else -1) + sweep_depth es.
Proof.
  unfold sweep_depth, count. rewrite !filter_cons.
  destruct (Z.eqb_spec (ev_type e) 0), (decide (is_start e)), (decide (is_end e));
    unfold is_start, is_end in *; try done; simpl length; lia.
Qed.

Lemma sweep_lower c m A e B :
  ev_type e = 0 → c + sweep_depth A + 1 <= sweep c m (A ++ e :: B).
Proof.
  assert (Hm : ∀ es c m, m <= sweep c m es).
  { induction es as [|x es IH]; intros c' m'; simpl; [done|].
    destruct (ev_type x =? 0); [|apply IH]. etransitivity; [|apply IH]. lia. }
  intros He. revert c m. induction A as [|x A IH]; intros c m.
  - cbn [app sweep]. rewrite He. simpl. etransitivity; [|apply Hm].
    unfold sweep_depth, count. simpl. lia.
  - cbn [app sweep]. rewrite sweep_depth_cons. destruct (ev_type x =? 0);
      (etransitivity; [|apply IH]); lia.
Qed.

Lemma sweep_upper c m M L :
  m <= M → (∀ A e B, L = A ++ e :: B → ev_type e = 0 → c + sweep_depth A + 1 <= M) →
  sweep c m L <= M.
Proof.
  revert c m. induction L as [|x L IH]; intros c m Hm HL; simpl; [done|].
  assert (H0 : ev_type x = 0 → c + 1 <= M).
  { intros Hx. pose proof (HL [] x L eq_refl Hx) as H. unfold sweep_depth, count in H. simpl in H. lia. }
  assert (Hrec : ∀ A e B, L = A ++ e :: B → ev_type e = 0 →
    c + (if ev_type x =? 0 then 1 else -1) + sweep_depth A + 1 <= M).
  { intros A e B -> He. pose proof (HL (x :: A) e B eq_refl He) as H. rewrite sweep_depth_cons in H. lia. }
  destruct (Z.eqb_spec (ev_type x) 0) as [Hx|Hx]; apply IH; try lia; done.
Qed.

(** ** Events and files *)

Lemma file_events_count k i f :
  ukey_le (smallest_ukey f) (largest_ukey f) →
  count (start_le k) (file_events i f) - count (end_lt k) (file_events i f) =
  if decide (being_compacted f = false ∧ contains k f) then 1 else 0.
Proof using HC.
  intros Hf. unfold file_events. destruct (being_compacted f).
  { rewrite decide_False by (intros [? _]; done). done. }
  assert (H1 : count (start_le k) [mkEvent (ExtractUserKey (smallest f)) 0 i;
      mkEvent (ExtractUserKey (largest f)) 1 i] = if decide (ukey_le (smallest_ukey f) k) then 1 else 0).
  { unfold count. rewrite !filter_cons, filter_nil.
    rewrite (decide_False (P := start_le k (mkEvent (ExtractUserKey (largest f)) 1 i)))
      by (by intros [? _]).
    destruct (decide (start_le _ _)) as [[_ Hs]|Hs], (decide (ukey_le _ _)) as [Hu|Hu];
      try done; exfalso; first [by apply Hu | by apply Hs | by apply Hs; split]. }
  assert (H2 : count (end_lt k) [mkEvent (ExtractUserKey (smallest f)) 0 i;
      mkEvent (ExtractUserKey (largest f)) 1 i] = if decide (ukey_le k (largest_ukey f)) then 0 else 1).
  { unfold count. rewrite !filter_cons, filter_nil.
    rewrite (decide_False (P := end_lt k (mkEvent (ExtractUserKey (smallest f)) 0 i)))
      by (by intros [? _]).
    destruct (decide (end_lt _ _)) as [[_ Hs]|Hs],
        (decide (ukey_le k (largest_ukey f))) as [Hu|Hu];
      try done; exfalso; first [by apply Hu | by apply Hs | by apply Hs; split]. }
  rewrite H1, H2. unfold contains.
  destruct (decide (ukey_le (smallest_ukey f) k)), (decide (ukey_le k (largest_ukey f))),
    (decide (_ ∧ _)); try tauto; exfalso; order (cmp_le (@Compare C)).
Qed.

Lemma events_depth k files (h : nat → nat) :
  Forall (λ f, ukey_le (smallest_ukey f) (largest_ukey f)) files →
  let es := concat (imap (λ i f, file_events (h i) f) files) in
  count (start_le k) es - count (end_lt k) es = Z.of_nat (depth_at files k).
Proof using HC.
  intros Hall. revert h. induction Hall as [|f files Hf Hall IH]; intros h; [done|].
  cbn [imap concat]. cbn zeta. rewrite !count_app. specialize (IH (h ∘ S)). cbn zeta in IH.
  change ((λ (i : nat) (f0 : FileMetaData), file_events (h i) f0) ∘ S)
    with (λ (i : nat) (f0 : FileMetaData), file_events ((h ∘ S) i) f0).
  pose proof (file_events_count k (h 0%nat) f Hf) as Hf1.
  unfold depth_at. rewrite filter_cons.
  destruct (decide _); cbn [length]; unfold depth_at in IH; lia.
Qed.

(** ** Sorted events *)

Lemma event_lt_spec a b :
  event_lt a b = true ↔ lex_compare (cmp_on ev_key Compare) (cmp_on ev_type Z.compare) a b = Lt.
Proof.
  unfold event_lt, lex_compare, cmp_on. destruct (Compare _ _); try done.
  by rewrite Z.ltb_compare; destruct (ev_type a ?= ev_type b).
Qed.

Lemma event_lt_swo : StrictWeakOrder event_lt.
Proof using HC. exact (swo_of_compare _ _ _ event_lt_spec). Qed.

(** What [event_lt x e = false] says when [e] or [x] is a start event. *)
Lemma not_before_start e x :
  ev_type e = 0 → event_lt e x = false →
  (ev_type x = 0 ∨ ev_type x = 1) → ukey_le (ev_key x) (ev_key e) ∧ (ev_type x = 1 → ¬ ukey_le (ev_key e) (ev_key x)).
Proof using HC.
  intros He Hlt Hx. unfold event_lt in Hlt. rewrite He in Hlt.
  cmp_case (@Compare C) (ev_key e) (ev_key x); try done; (split; [order (cmp_le (@Compare C))|]).
  - intros E. rewrite E in Hlt. done.
  - intros _. done.
Qed.

Lemma start_not_after e x :
  ev_type e = 0 → event_lt x e = false → ukey_le (ev_key e) (ev_key x).
Proof using HC.
  intros He Hlt. unfold event_lt in Hlt. cmp_case (@Compare C) (ev_key x) (ev_key e); try done.
  order (cmp_le (@Compare C)).
Qed.

Section sorted_events.
Context (L A B : list Event) (e : Event).
Hypothesis L_split : L = A ++ e :: B.
Hypothesis L_sorted : StronglySorted (λ x y, event_lt y x = false) L.
Hypothesis L_types : ∀ x, x ∈ L → ev_type x = 0 ∨ ev_type x = 1.
Hypothesis e_start : ev_type e = 0.

Lemma sorted_before x : x ∈ A → event_lt e x = false.
Proof using L_split L_sorted.
  intros Hx. rewrite L_split in L_sorted. clear L_split.
  induction A as [|y A' IH]; [by apply not_elem_of_nil in Hx|].
  simpl in L_sorted. apply StronglySorted_inv in L_sorted as [Hs Hall].
  apply elem_of_cons in Hx as [->|Hx]; [|by apply IH].
  rewrite Forall_forall in Hall. apply Hall. rewrite elem_of_app. right. left.
Qed.

Lemma sorted_after x : x ∈ B → event_lt x e = false.
Proof using L_split L_sorted.
  intros Hx. rewrite L_split in L_sorted. clear L_split.
  induction A as [|y A' IH]; simpl in L_sorted; apply StronglySorted_inv in L_sorted as [Hs Hall].
  - rewrite Forall_forall in Hall. by apply Hall.
  - by apply IH.
Qed.

Lemma ends_before : count is_end A = count (end_lt (ev_key e)) L.
Proof using L_split L_sorted L_types e_start HC.
  rewrite L_split, count_app. change (e :: B) with ([e] ++ B). rewrite count_app.
  rewrite (count_none (end_lt (ev_key e)) [e]), (count_none (end_lt (ev_key e)) B).
  - rewrite !Z.add_0_r. apply count_eq. intros x Hx. unfold is_end, end_lt.
    destruct (not_before_start e x e_start (sorted_before x Hx)) as [Hle Hlt].
    { apply L_types. rewrite L_split, elem_of_app. by left. }
    split; [|tauto]. intros Hne. split; [done|]. apply Hlt.
    destruct (L_types x); [rewrite L_split, elem_of_app; by left|done|done].
  - intros x Hx [_ Hk]. apply Hk. apply start_not_after; [done|]. by apply sorted_after.
  - intros x ->%list_elem_of_singleton [Hne _]. done.
Qed.

Lemma starts_before : count is_start A + 1 + count (start_le (ev_key e)) B = count (start_le (ev_key e)) L.
Proof using L_split L_sorted L_types e_start HC.
  rewrite L_split, count_app. change (e :: B) with ([e] ++ B). rewrite count_app.
  assert (He : count (start_le (ev_key e)) [e] = 1).
  { unfold count. rewrite filter_cons, decide_True by (split; [done|]; done). done. }
  rewrite He, (count_eq is_start (start_le (ev_key e)) A); [lia|].
  intros x Hx. unfold is_start, start_le. split; [|tauto]. intros Hs. split; [done|].
  apply (not_before_start e x e_start (sorted_before x Hx)). by left.
Qed.
End sorted_events.

(** ** The maximal depth *)

Definition max_depth_is (files : list FileMetaData) (M : Z) : Prop :=
  (∀ k, Z.of_nat (depth_at files k) <= M) ∧
  ((M = 0 ∧ ∀ f, f ∈ files → being_compacted f = true) ∨
   ∃ f, f ∈ files ∧ being_compacted f = false ∧
     Z.of_nat (depth_at files (smallest_ukey f)) = M).

(** Depth is maximal at the start of some file. *)
Lemma depth_at_start files k :
  (0 < depth_at files k)%nat →
  ∃ f, f ∈ files ∧ being_compacted f = false ∧
    (depth_at files k <= depth_at files (smallest_ukey f))%nat.
Proof using HC.
  unfold depth_at. set (P := λ f, being_compacted f = false ∧ contains k f). intros Hpos.
  destruct (list_max (cmp_le (cmp_on smallest_ukey (@Compare C))) (filter P files))
    as (f & Hf & Hmax).
  { intros E. rewrite E in Hpos. simpl in Hpos. lia. }
  apply list_elem_of_filter in Hf as [[Hbc Hc] Hf]. exists f. split_and!; [done..|].
  apply filter_length_mono. intros g Hg [Hb [Hg1 Hg2]]. split; [done|]. split.
  - apply Hmax. apply list_elem_of_filter. split; [|done]. split; [done|]. split; done.
  - destruct Hc as [Hc1 Hc2]. order (cmp_le (@Compare C)).
Qed.

Lemma file_events_types i f x : x ∈ file_events i f → ev_type x = 0 ∨ ev_type x = 1.
Proof.
  unfold file_events. destruct (being_compacted f); [by intros ?%not_elem_of_nil|].
  intros [->|[->|[]%not_elem_of_nil]%elem_of_cons]%elem_of_cons; auto.
Qed.

Lemma elem_of_events files x :
  x ∈ concat (imap file_events files) ↔ ∃ i f, files !! i = Some f ∧ x ∈ file_events i f.
Proof.
  rewrite elem_of_concat. split.
  - intros (l & Hx & Hl). apply list_elem_of_lookup in Hl as [i Hi].
    rewrite list_lookup_imap in Hi. destruct (files !! i) as [f|] eqn:Hf; [|done].
    simpl in Hi. injection Hi as <-. eauto.
  - intros (i & f & Hf & Hx). exists (file_events i f). split; [done|].
    apply list_elem_of_lookup. exists i. by rewrite list_lookup_imap, Hf.
Qed.

Lemma sweep_mono c m es : m <= sweep c m es.
Proof.
  revert c m. induction es as [|x es IH]; intros c m; simpl; [done|].
  destruct (ev_type x =? 0); [|apply IH]. etransitivity; [|apply IH]. lia.
Qed.

(** The sweep over the sorted events of a list of files. *)
Section sweep_events.
Context (files : list FileMetaData).
Hypothesis files_wf : Forall (λ f, ukey_le (smallest_ukey f) (largest_ukey f)) files.

Definition sorted_events : list Event := std_sort event_lt (concat (imap file_events files)).

Lemma sorted_events_perm : sorted_events ≡ₚ concat (imap file_events files).
Proof using HC. apply std_sort_perm, event_lt_swo. Qed.

Lemma sorted_events_sorted : StronglySorted (λ x y, event_lt y x = false) sorted_events.
Proof using HC. apply std_sort_sorted, event_lt_swo. Qed.

Lemma sorted_events_types x : x ∈ sorted_events → ev_type x = 0 ∨ ev_type x = 1.
Proof using HC.
  rewrite sorted_events_perm. intros (i & f & _ & Hx)%elem_of_events.
  by apply file_events_types in Hx.
Qed.

Lemma sorted_events_count k :
  count (start_le k) sorted_events - count (end_lt k) sorted_events = Z.of_nat (depth_at files k).
Proof using HC files_wf.
  rewrite !(count_perm _ _ _ sorted_events_perm). apply (events_depth k files (λ i, i) files_wf).
Qed.

Lemma start_event_file e :
  e ∈ sorted_events → ev_type e = 0 →
  ∃ f, f ∈ files ∧ being_compacted f = false ∧ ev_key e = smallest_ukey f.
Proof using HC.
  rewrite sorted_events_perm. intros (i & f & Hf & Hin)%elem_of_events He.
  unfold file_events in Hin. destruct (being_compacted f) eqn:Hb; [by apply not_elem_of_nil in Hin|].
  apply elem_of_cons in Hin as [->|Hin]; [|apply list_elem_of_singleton in Hin; by subst].
  exists f. split_and!; [by apply list_elem_of_lookup_2 in Hf|done..].
Qed.

Lemma depth_at_equiv k k' :
  Compare k k' = Eq → depth_at files k = depth_at files k'.
Proof using HC.
  intros [H1 H2]%(cmp_eq_iff Compare).
  unfold depth_at. apply Nat.le_antisymm; apply filter_length_mono;
    intros g _ [Hb [Hg1 Hg2]]; (split; [done|]); split; order (cmp_le (@Compare C)).
Qed.

(** At the last start event of a key the sweep has the depth of that key. *)
Lemma sweep_reaches f :
  f ∈ files → being_compacted f = false →
  Z.of_nat (depth_at files (smallest_ukey f)) <= sweep 0 0 sorted_events.
Proof using HC files_wf.
  intros Hf Hbc. set (k := smallest_ukey f).
  destruct (last_split (λ e, ev_type e = 0 ∧ Compare (ev_key e) k = Eq) sorted_events)
    as (A & e & B & HL & [He Hk] & HB).
  { apply list_elem_of_lookup in Hf as [i Hi]. exists (mkEvent k 0 i).
    split; [|split; [done|]; simpl; apply (compare_refl Compare)]. rewrite sorted_events_perm.
    apply elem_of_events. exists i, f. split; [done|]. unfold file_events. rewrite Hbc. left. }
  pose proof (ends_before _ A B e HL sorted_events_sorted sorted_events_types He) as H1.
  pose proof (starts_before _ A B e HL sorted_events_sorted sorted_events_types He) as H2.
  rewrite (count_none (start_le (ev_key e)) B) in H2.
  2:{ intros x Hx [Hs Hle]. rewrite Forall_forall in HB. apply (HB x Hx). split; [done|].
      apply (cmp_eq_iff Compare) in Hk. apply (cmp_eq_iff Compare).
      pose proof (start_not_after e x He (sorted_after _ A B e HL sorted_events_sorted x Hx)).
      destruct Hk. split; order (cmp_le (@Compare C)). }
  rewrite <- (depth_at_equiv _ _ Hk), <- sorted_events_count, <- H1, <- H2.
  pose proof (sweep_lower 0 0 A e B He) as Hs. rewrite <- HL in Hs. unfold sweep_depth in Hs. lia.
Qed.

(** The sweep is never deeper than the depth at some start. *)
Lemma sweep_bounded M :
  0 <= M → (∀ f, f ∈ files → being_compacted f = false →
              Z.of_nat (depth_at files (smallest_ukey f)) <= M) →
  sweep 0 0 sorted_events <= M.
Proof using HC files_wf.
  intros HM Hmax. apply sweep_upper; [done|]. intros A e B HL He.
  pose proof (ends_before _ A B e HL sorted_events_sorted sorted_events_types He) as H1.
  pose proof (starts_before _ A B e HL sorted_events_sorted sorted_events_types He) as H2.
  pose proof (count_nonneg (start_le (ev_key e)) B).
  pose proof (sorted_events_count (ev_key e)).
  destruct (start_event_file e) as (f & Hf & Hb & E); [|done|].
  { rewrite HL, elem_of_app. right. left. }
  pose proof (Hmax f Hf Hb). rewrite E in *. unfold sweep_depth. lia.
Qed.

Lemma sweep_max_depth : max_depth_is files (sweep 0 0 sorted_events).
Proof using HC files_wf.
  split.
  - intros k. destruct (decide (0 < depth_at files k)%nat) as [Hpos|Hz].
    + destruct (depth_at_start files k Hpos) as (f & Hf & Hbc & Hle).
      pose proof (sweep_reaches f Hf Hbc). lia.
    + pose proof (sweep_mono 0 0 sorted_events). lia.
  - destruct (decide (Exists (λ f, being_compacted f = false) files)) as [Hex|Hno].
    + right. apply Exists_exists in Hex as (f0 & Hf0 & Hb0).
      destruct (list_max (cmp_le (cmp_on (λ f, Z.of_nat (depth_at files (smallest_ukey f))) Z.compare))
        (filter (λ f, being_compacted f = false) files)) as (f & Hf & Hmax).
      { intros En. apply (not_elem_of_nil f0). rewrite <- En. by apply list_elem_of_filter. }
      apply list_elem_of_filter in Hf as [Hbc Hf]. exists f. split_and!; [done..|].
      apply Z.le_antisymm; [by apply sweep_reaches|]. apply sweep_bounded; [lia|].
      intros g Hg Hbg. apply Z.compare_le_iff, (Hmax g). by apply list_elem_of_filter.
    + left. assert (Hbc : ∀ f, f ∈ files → being_compacted f = true).
      { intros f Hf. destruct (being_compacted f) eqn:Eb; [done|]. destruct Hno.
        apply Exists_exists. eauto. }
      split; [|done]. apply Z.le_antisymm; [|apply sweep_mono]. apply sweep_bounded; [done|].
      intros f Hf Hb. rewrite (Hbc f Hf) in Hb. done.
Qed.
End sweep_events.

(** The special cases for one file agree with the sweep. *)
Lemma single_max_depth f :
  ukey_le (smallest_ukey f) (largest_ukey f) →
  max_depth_is [f] (if being_compacted f then 0 else 1).
Proof using HC.
  intros Hf. assert (Hd : ∀ k, depth_at [f] k =
    if decide (being_compacted f = false ∧ contains k f) then 1%nat else 0%nat).
  { intros k. unfold depth_at. rewrite filter_cons, filter_nil. by destruct (decide _). }
  split.
  - intros k. rewrite Hd. destruct (decide _) as [[-> _]|]; [done|]. by destruct (being_compacted f).
  - destruct (being_compacted f) eqn:Hb; [left|right].
    + split; [done|]. by intros g ->%list_elem_of_singleton.
    + exists f. split_and!; [left|done|]. rewrite Hd, decide_True; [done|].
      split; [done|]. split; done.
Qed.

Lemma calculate_max_depth files :
  Forall (λ f, ukey_le (smallest_ukey f) (largest_ukey f)) files →
  max_depth_is files (CalculateMaxOverlappingGroupSize files).
Proof using HC.
  intros Hwf. destruct files as [|f [|g files]].
  - split; [done|]. left. split; [done|]. by intros f ?%not_elem_of_nil.
  - apply Forall_cons in Hwf as [Hf _]. by apply single_max_depth.
  - pose proof (sweep_max_depth _ Hwf) as H. unfold CalculateMaxOverlappingGroupSize.
    destruct (Nat.eqb_spec (length (concat (imap file_events (f :: g :: files)))) 0) as [E|_];
      [|exact H].
    apply nil_length_inv in E. unfold sorted_events in H. rewrite E in H.
    assert (Hs : std_sort event_lt [] = []) by (apply Permutation_nil_r, std_sort_perm, event_lt_swo).
    by rewrite Hs in H.
Qed.
End sweep_line.

(** ** The result of [GetLargestOverlappingGroup] *)

Lemma largest_entry_spec mr ms es :
  match largest_entry mr ms es with
  | Some r => (mr = Some r ∧ Forall (λ e, (length e.2 <= ms)%nat) es) ∨
              ∃ l, (r, l) ∈ es ∧ (ms < length l)%nat ∧ Forall (λ e, (length e.2 <= length l)%nat) es
  | None => mr = None ∧ Forall (λ e, (length e.2 <= ms)%nat) es
  end.
Proof.
  revert mr ms. induction es as [|[r l] es IH]; intros mr ms; simpl.
  { destruct mr; [left|]; split; done || constructor. }
  destruct (Nat.ltb_spec ms (length l)) as [Hlt|Hge].
  - specialize (IH (Some r) (length l)). destruct (largest_entry _ _ _) as [r'|].
    + right. destruct IH as [[[= ->] Hall]|(l' & Hin & Hl & Hall)].
      * exists l. split_and!; [left|done|]. constructor; [done|]. exact Hall.
      * exists l'. split_and!; [by right|lia|]. constructor; [simpl; lia|]. exact Hall.
    + by destruct IH.
  - specialize (IH mr ms). destruct (largest_entry _ _ _) as [r'|].
    + destruct IH as [[-> Hall]|(l' & Hin & Hl & Hall)].
      * left. split; [done|]. by constructor.
      * right. exists l'. split_and!; [by right|lia|]. constructor; [simpl; lia|]. exact Hall.
    + destruct IH as [-> Hall]. split; [done|]. by constructor.
Qed.

Lemma map_find_spec m r l : NoDup m.*1 → (r, l) ∈ m → map_find m r = l.
Proof.
  intros Hnd Hin. unfold map_find.
  destruct (list_find (λ e : nat * list nat, e.1 = r) m) as [[i [r' l']]|] eqn:E.
  - apply list_find_Some in E as (Hi & Hr & _). simpl in Hr. subst r'. simpl.
    apply list_elem_of_lookup in Hin as [j Hj].
    assert (i = j) as <-.
    { eapply NoDup_lookup; [exact Hnd| |]; rewrite list_lookup_fmap, ?Hi, ?Hj; done. }
    congruence.
  - apply list_find_None in E. rewrite Forall_forall in E. by destruct (E _ Hin).
Qed.

Section largest.
Context (C : Comparator) (HC : ComparatorOk C) (SC : StdChoices) (files : list FileMetaData).

Abbreviation n := (length files).
Abbreviation all_linked := (linked (λ _, false) (internal_overlap_at files) n).
Abbreviation all_groups := (grouped unite (λ _, false) (internal_overlap_at files) n).

Lemma active_all : active (λ _, false) n = seq 0 n.
Proof. unfold active. apply filter_all. by apply Forall_forall. Qed.

Lemma all_groups_keys : NoDup all_groups.*1.
Proof.
  assert (Hes : Forall (λ e, (e.1 < n)%nat ∧ (e.2 < n)%nat)
    (united_pairs (λ _, false) (internal_overlap_at files) n)).
  { apply Forall_forall. intros [a b] Hab%elem_of_united_pairs. simpl. lia. }
  destruct (union_all_spec unite n _ Hes) as [Hok _]. rewrite <- unite_overlapping_all in Hok.
  assert (Hact : Forall (λ i, (i < n)%nat) (active (λ _, false) n)).
  { apply Forall_forall. intros i Hi%elem_of_active. tauto. }
  by destruct (collect_spec n _ _ Hok Hact) as [[_ Hk _] _].
Qed.

Lemma largest_is_entry :
  (2 <= n)%nat →
  ∃ e, e ∈ all_groups ∧ GetLargestOverlappingGroup files = files_at files e.2 ∧
    ∀ e', e' ∈ all_groups → (length e'.2 <= length e.2)%nat.
Proof.
  intros Hn. unfold GetLargestOverlappingGroup.
  rewrite (proj2 (Nat.eqb_neq n 0)), (proj2 (Nat.eqb_neq n 1)) by lia.
  rewrite <- active_all. fold all_groups.
  pose proof (largest_entry_spec None 0 (unordered_iter all_groups)) as Hl.
  destruct (largest_entry _ _ _) as [r|].
  - destruct Hl as [[? _]|(l & Hin & _ & Hall)]; [done|].
    rewrite unordered_iter_perm in Hin, Hall. exists (r, l). split_and!; [done| |].
    + by rewrite (map_find_spec all_groups r l all_groups_keys Hin).
    + rewrite Forall_forall in Hall. exact Hall.
  - destruct Hl as [_ Hall]. rewrite unordered_iter_perm in Hall.
    destruct (grouped_spec unite (λ _, false) (internal_overlap_at files) n) as (Hp & He & _).
    destruct all_groups as [|e es] eqn:E.
    + simpl in Hp. rewrite active_all in Hp. apply Permutation_length in Hp.
      rewrite length_seq in Hp. simpl in Hp. lia.
    + apply Forall_cons in Hall as [H0 _]. destruct (He e) as [Hne _]; [left|].
      destruct e.2; [done|simpl in H0; lia].
Qed.
End largest.

(** ** Theorems *)


(** Different groups occupy disjoint key ranges: one group's largest key
    is before the other's smallest, so compactions of different groups cannot
    touch the same keys. *)
Theorem l0_groups_disjoint (C : Comparator) (SC : StdChoices) files p q g h :
  ComparatorOk C → Forall (file_ok C) files →
  FindL0OverlappingGroups files !! p = Some g → FindL0OverlappingGroups files !! q = Some h →
  p ≠ q →
  InternalKeyCompare (group_largest g) (group_smallest h) = Lt ∨
  InternalKeyCompare (group_largest h) (group_smallest g) = Lt.
Proof.
  intros HC Hwf Hg Hh Hpq.
  destruct (Permutation_lookup_2 _ _ p q g h (find_groups_perm C SC files) Hg Hh Hpq)
    as (p' & q' & Hp' & Hq' & Hne).
  destruct (unsorted_lookup C HC files p' g Hp') as (e & He & Hfg & Hcg).
  destruct (unsorted_lookup C HC files q' h Hq') as (e' & He' & Hfh & Hch).
  apply (entries_disjoint C HC files unite (skip_at files)) with (p := p') (q := q') (e := e) (e' := e');
    try done.
  intros i f Hi _. rewrite Forall_forall in Hwf. apply Hwf. by apply list_elem_of_lookup_2 in Hi.
Qed.

(** [GetLargestOverlappingGroup] returns a connected group of files that
    no file outside it overlaps, and no set of files connected by overlaps is
    larger. *)
Theorem largest_group_correct (C : Comparator) (SC : StdChoices) files :
  ComparatorOk C → (2 <= length files)%nat →
  let group := GetLargestOverlappingGroup files in
  (∀ f h, f ∈ group → h ∈ group → chain C group f h) ∧
  (∀ f h, f ∈ group → h ∈ files → internal_overlap f h = true → h ∈ group) ∧
  ∀ l, NoDup l → (∀ i, i ∈ l → (i < length files)%nat) →
    (∀ i j, i ∈ l → j ∈ l → linked (λ _, false) (internal_overlap_at files) (length files) i j) →
    (length l <= length group)%nat.
Proof.
  intros HC Hn group. unfold group.
  destruct (largest_is_entry C SC files Hn) as (e & He & -> & Hmax). split_and!.
  - intros f h. by apply (entry_chain C HC files unite (λ _, false)).
  - intros f h (i & Hi & Hf)%elem_of_files_at Hh Ho. apply list_elem_of_lookup in Hh as [j Hj].
    apply elem_of_files_at. exists j. split; [|done].
    apply (entry_closed C files unite (λ _, false) e i j He Hi).
    apply lookup_lt_Some in Hf as Hlf. apply lookup_lt_Some in Hj as Hlj.
    assert (Hat : internal_overlap_at files i j = true)
      by (unfold internal_overlap_at; by rewrite Hf, Hj).
    apply (overlap_at_spec C HC files i j Hlf Hlj) in Hat as [H1 H2].
    apply (overlapping_linked InternalKeyCompare _ _ _ (lo_at files) (hi_at files)); auto.
    intros. by apply overlap_at_spec.
  - intros l Hnd Hlt Hlink. destruct l as [|i l]; [simpl; lia|].
    assert (Hin : i ∈ active (λ _, false) (length files)).
    { apply elem_of_active. split; [|done]. apply Hlt. left. }
    destruct (grouped_spec unite (λ _, false) (internal_overlap_at files) (length files)) as (Hp & _ & _).
    rewrite <- Hp in Hin. apply elem_of_concat in Hin as (l' & Hi & (e' & -> & He')%list_elem_of_fmap).
    transitivity (length e'.2).
    + apply submseteq_length, NoDup_submseteq; [done|]. intros j Hj.
      apply (entry_closed C files unite (λ _, false) e' i j He' Hi). apply Hlink; [left|done].
    + etransitivity; [by apply Hmax|]. unfold files_at.
      assert (Hall : Forall (λ k, is_Some (files !! k)) e.2).
      { apply Forall_forall. intros k Hk. apply lookup_lt_is_Some.
        by apply (entry_act C files unite (λ _, false) e k He Hk). }
      clear -Hall. induction Hall as [|k l [f Hf] _ IH]; simpl; [done|]. rewrite Hf. by apply le_n_S.
Qed.

(** C8. [CalculateMaxOverlappingGroupSize] is the largest number of files not
    being compacted whose user-key ranges share a key: no key lies in more,
    and some file's smallest key lies in that many. *)
Theorem max_overlap_is_depth (C : Comparator) (SC : StdChoices) files :
  ComparatorOk C →
  Forall (λ f, cmp_le Compare (smallest_ukey f) (largest_ukey f)) files →
  max_depth_is C files (CalculateMaxOverlappingGroupSize files).
Proof. intros HC. by apply calculate_max_depth. Qed.

(** ** Witnesses

    Four level-0 files: two that overlap, one apart, and one that is being
    compacted. *)

Definition sample_files : list FileMetaData :=
  [new_file 1 100 (InternalKey [x61] 9 1) (InternalKey [x64] 8 1);
   new_file 2 50 (InternalKey [x63] 7 1) (InternalKey [x66] 6 1);
   new_file 3 300 (InternalKey [x6d] 5 1) (InternalKey [x70] 4 1);
   set_being_compacted true (new_file 4 10 (InternalKey [x61] 3 1) (InternalKey [x7a] 2 1))].

Lemma sample_files_ok : Forall (file_ok BytewiseComparator) sample_files.
Proof. apply (bool_decide_unpack _). vm_compute. exact I. Qed.


Lemma l0_groups_disjoint_witness :
  let groups := @FindL0OverlappingGroups BytewiseComparator simple_choices sample_files in
  ∃ g h, groups !! 0%nat = Some g ∧ groups !! 1%nat = Some h ∧
    (@InternalKeyCompare BytewiseComparator (group_largest g) (group_smallest h) = Lt ∨
     @InternalKeyCompare BytewiseComparator (group_largest h) (group_smallest g) = Lt).
Proof.
  intros groups. do 2 eexists. split; [vm_compute; reflexivity|]. split; [vm_compute; reflexivity|].
  refine (l0_groups_disjoint BytewiseComparator simple_choices sample_files 0 1 _ _ bytewise_ok
    sample_files_ok _ _ _).
  - vm_compute. reflexivity.
  - vm_compute. reflexivity.
  - discriminate.
Defined.

Lemma largest_group_correct_witness :
  ∃ f h, f ∈ @GetLargestOverlappingGroup BytewiseComparator simple_choices sample_files ∧
    chain BytewiseComparator
      (@GetLargestOverlappingGroup BytewiseComparator simple_choices sample_files) f h.
Proof.
  destruct (largest_group_correct BytewiseComparator simple_choices sample_files bytewise_ok)
    as (Hc & _).
  - apply (bool_decide_unpack _). vm_compute. exact I.
  - exists (new_file 1 100 (InternalKey [x61] 9 1) (InternalKey [x64] 8 1)),
      (new_file 2 50 (InternalKey [x63] 7 1) (InternalKey [x66] 6 1)).
    assert (Hf : new_file 1 100 (InternalKey [x61] 9 1) (InternalKey [x64] 8 1)
      ∈ @GetLargestOverlappingGroup BytewiseComparator simple_choices sample_files)
      by (vm_compute; left).
    split; [exact Hf|]. apply Hc; [exact Hf|]. vm_compute. right. left.
Defined.

Lemma max_overlap_is_depth_witness :
  max_depth_is BytewiseComparator sample_files
    (@CalculateMaxOverlappingGroupSize BytewiseComparator simple_choices sample_files) ∧
  @CalculateMaxOverlappingGroupSize BytewiseComparator simple_choices sample_files = 2.
Proof.
  split.
  - refine (max_overlap_is_depth BytewiseComparator simple_choices sample_files bytewise_ok _).
    apply (bool_decide_unpack _). vm_compute. exact I.
  - vm_compute. reflexivity.
Defined.
