(* ===== verification/L0Tracking.v ===== *)
(** * Bookkeeping of level-0 files

    Models [L0GroupTracker] ([src/db/l0_group_tracker.h], [.cc]),
    [L0RangeIndex] ([src/db/db_l0_range_index.h], [.cc]) and
    [GetMaxL0GroupFileCount] ([src/db/l0_group_helper.cc]).  Each public method
    runs under the object's mutex and is one step on its state. *)

From S2P Require Import Prelude Coding Comparator DbFormat FileMeta L0Groups.

(** ** L0GroupTracker *)

Record L0Group := mkL0Group {
  group_id : Z;
  file_numbers : list Z;
  l0g_smallest : key;
  l0g_largest : key;
  total_size : Z;
  creation_time : Z;
}.

Record L0GroupTracker := mkTracker {
  groups_ : list L0Group;
  next_group_id_ : Z;
}.

Definition NewL0GroupTracker : L0GroupTracker := mkTracker [] 1.

Definition ShouldCompact (g : L0Group) : bool := (4 <=? length (file_numbers g))%nat.
Definition Empty (g : L0Group) : bool := match file_numbers g with [] => true | _ => false end.

Definition AddFile `{Comparator} (file_number : Z) (file_smallest file_largest : key)
    (fsize : Z) (g : L0Group) : L0Group :=
  let numbers := file_numbers g ++ [file_number] in
  let total := total_size g +64 fsize in
  if (length numbers =? 1)%nat then
    mkL0Group (group_id g) numbers file_smallest file_largest total (creation_time g)
  else
    mkL0Group (group_id g) numbers
      (match InternalKeyCompare file_smallest (l0g_smallest g) with
       | Lt => file_smallest | _ => l0g_smallest g end)
      (match InternalKeyCompare file_largest (l0g_largest g) with
       | Gt => file_largest | _ => l0g_largest g end)
      total (creation_time g).

(** [cmp <= 0] *)
Definition is_le (c : comparison) : bool := match c with Gt => false | _ => true end.

Definition has_overlap `{Comparator} (f : FileMetaData) (g : L0Group) : bool :=
  is_le (InternalKeyCompare (smallest f) (l0g_largest g)) &&
  is_le (InternalKeyCompare (l0g_smallest g) (largest f)).

Definition CalculateOverlap `{Comparator} (f : FileMetaData) (g : L0Group) : double :=
  if Empty g then dbl_of_Z 0
  else if negb (has_overlap f g) then dbl_of_Z 0
  else dlit 7 10.

(** The loop that looks for the group with the maximum overlap; [best] is the
    index of the group found so far. *)
Fixpoint best_group_loop `{Comparator} (f : FileMetaData) (i : nat) (gs : list L0Group)
    (best : option nat) (max_overlap : double) : option nat * double :=
  match gs with
  | [] => (best, max_overlap)
  | g :: gs' =>
      if Empty g then best_group_loop f (S i) gs' best max_overlap
      else
        let overlap := CalculateOverlap f g in
        if dgtb overlap max_overlap then best_group_loop f (S i) gs' (Some i) overlap
        else best_group_loop f (S i) gs' best max_overlap
  end.

(** Returns the index of the group the file is assigned to; [now] is the
    reading of the steady clock. *)
Definition AssignFileToGroup `{Comparator} (now : Z) (f : FileMetaData) (t : L0GroupTracker)
    : L0GroupTracker * option nat :=
  let '(best, max_overlap) := best_group_loop f 0 (groups_ t) None (dbl_of_Z 0) in
  if dgtb max_overlap (dlit 1 2) then (t, best)
  else
    (mkTracker
       (groups_ t ++ [mkL0Group (next_group_id_ t) [] (smallest f) (largest f) 0 now])
       (next_group_id_ t + 1),
     Some (length (groups_ t))).

Definition CleanupEmptyGroups (t : L0GroupTracker) : L0GroupTracker :=
  mkTracker (filter (λ g, Empty g = false) (groups_ t)) (next_group_id_ t).

Definition register_file `{Comparator} (now : Z) (t : L0GroupTracker) (file : option FileMetaData)
    : L0GroupTracker :=
  match file with
  | None => t
  | Some f =>
      match AssignFileToGroup now f t with
      | (t', Some i) =>
          mkTracker (alter (AddFile (GetNumber f) (smallest f) (largest f) (GetFileSize f)) i (groups_ t'))
            (next_group_id_ t')
      | (t', None) => t'
      end
  end.

Definition RegisterFlushResult `{Comparator} (now : Z) (flushed_files : list (option FileMetaData))
    (t : L0GroupTracker) : L0GroupTracker :=
  CleanupEmptyGroups (foldl (register_file now) t flushed_files).

(** [std::find] and [erase] in one group. *)
Fixpoint erase_first (x : Z) (l : list Z) : option (list Z) :=
  match l with
  | [] => None
  | y :: l' => if y =? x then Some l' else cons y <$> erase_first x l'
  end.

Definition set_file_numbers (ns : list Z) (g : L0Group) : L0Group :=
  mkL0Group (group_id g) ns (l0g_smallest g) (l0g_largest g) (total_size g) (creation_time g).

(** Remove one file number from the first group that holds it. *)
Fixpoint remove_file (x : Z) (gs : list L0Group) : list L0Group :=
  match gs with
  | [] => []
  | g :: gs' =>
      match erase_first x (file_numbers g) with
      | Some ns => set_file_numbers ns g :: gs'
      | None => g :: remove_file x gs'
      end
  end.

Definition RemoveFiles (numbers : list Z) (t : L0GroupTracker) : L0GroupTracker :=
  CleanupEmptyGroups
    (mkTracker (foldl (λ gs x, remove_file x gs) (groups_ t) numbers) (next_group_id_ t)).

Definition GetGroupForCompaction (t : L0GroupTracker) : option nat :=
  fst <$> list_find (λ g, ShouldCompact g = true) (groups_ t).

Definition GetAllGroups (t : L0GroupTracker) : list L0Group := groups_ t.
Definition Clear (t : L0GroupTracker) : L0GroupTracker := mkTracker [] 1.

(** ** L0RangeIndex *)

Record L0FileRange := mkRange {
  range_smallest : key;
  range_largest : key;
  range_file_number : Z;
}.

Record L0RangeIndex := mkIndex {
  map_ : gmap Z L0FileRange;
  sorted_cache_ : list L0FileRange;
  cache_dirty_ : bool;
}.

Definition NewL0RangeIndex : L0RangeIndex := mkIndex ∅ [] true.

Definition range_of_file (f : FileMetaData) : L0FileRange :=
  mkRange (smallest_ukey f) (largest_ukey f) (GetNumber f).

Definition file_ranges (l0_files : list FileMetaData) : gmap Z L0FileRange :=
  foldl (λ m f, <[GetNumber f := range_of_file f]> m) ∅ l0_files.

Definition RefreshFrom (l0_files : list FileMetaData) (ix : L0RangeIndex) : L0RangeIndex :=
  mkIndex (file_ranges l0_files) (sorted_cache_ ix) true.

Definition range_lt (a b : L0FileRange) : bool := key_ltb (range_smallest a) (range_smallest b).

Definition SnapshotRanges `{StdChoices} (ix : L0RangeIndex) : L0RangeIndex * list L0FileRange :=
  let cache :=
    if cache_dirty_ ix
    then std_sort range_lt (unordered_iter (map_to_list (map_ ix)).*2)
    else sorted_cache_ ix in
  (mkIndex (map_ ix) cache false, cache).

(** ** GetMaxL0GroupFileCount *)

(** The file overlaps the range, on user keys. *)
Definition in_group_range `{Comparator} (f : FileMetaData) (g : key * key) : bool :=
  is_le (Compare (smallest_ukey f) g.2) && is_ge (Compare (largest_ukey f) g.1).

Definition expand_range `{Comparator} (f : FileMetaData) (g : key * key) : key * key :=
  (match Compare (smallest_ukey f) g.1 with Lt => smallest_ukey f | _ => g.1 end,
   match Compare (largest_ukey f) g.2 with Gt => largest_ukey f | _ => g.2 end).

(** Merge a file into the first range it overlaps, or add a range for it. *)
Fixpoint merge_range `{Comparator} (f : FileMetaData) (gs : list (key * key)) : list (key * key) :=
  match gs with
  | [] => [(smallest_ukey f, largest_ukey f)]
  | g :: gs' => if in_group_range f g then expand_range f g :: gs' else g :: merge_range f gs'
  end.

Definition GetMaxL0GroupFileCount `{Comparator} (l0_files : list FileMetaData) : Z :=
  match l0_files with
  | [] => 0
  | _ =>
      let groups := foldl (λ gs f, merge_range f gs) [] l0_files in
      foldl (λ max_count g,
        Z.max max_count (Z.of_nat (length (filter (λ f, in_group_range f g = true) l0_files))))
        0 groups
  end.

(** ** Assignment of a file to a group

    The overlap ratios are 0.7 and 0, and the threshold is 0.5: a file joins
    the first group whose range it overlaps, or founds a new group. *)

Section tracker.
Context (C : Comparator) (HC : ComparatorOk C).

Abbreviation ikey_le := (cmp_le (@InternalKeyCompare C)).

Lemma is_le_le a b : is_le (InternalKeyCompare a b) = true ↔ ikey_le a b.
Proof. unfold is_le, cmp_le. by destruct (InternalKeyCompare a b). Qed.

Definition joins (f : FileMetaData) (g : L0Group) : Prop := Empty g = false ∧ has_overlap f g = true.

#[export] Instance joins_dec f g : Decision (joins f g).
Proof. unfold joins. apply _. Defined.

Lemma best_group_found f i gs b : best_group_loop f i gs (Some b) (dlit 7 10) = (Some b, dlit 7 10).
Proof.
  revert i. induction gs as [|g gs IH]; intros i; simpl; [done|].
  destruct (Empty g) eqn:E; [apply IH|]. unfold CalculateOverlap. rewrite E.
  destruct (has_overlap f g); apply IH.
Qed.

Lemma best_group_spec f i gs :
  best_group_loop f i gs None (dbl_of_Z 0) =
  match list_find (joins f) gs with
  | Some (j, _) => (Some (i + j)%nat, dlit 7 10)
  | None => (None, dbl_of_Z 0)
  end.
Proof.
  revert i. induction gs as [|g gs IH]; intros i; [done|]. cbn [best_group_loop list_find].
  unfold CalculateOverlap. destruct (Empty g) eqn:E; [|destruct (has_overlap f g) eqn:Ho].
  - rewrite decide_False by (intros [? _]; congruence). rewrite IH.
    destruct (list_find (joins f) gs) as [[j g']|]; simpl; [|done].
    by rewrite Nat.add_succ_r.
  - rewrite decide_True by done. simpl. rewrite Nat.add_0_r. apply best_group_found.
  - rewrite decide_False by (intros [_ ?]; congruence). simpl. rewrite IH.
    destruct (list_find (joins f) gs) as [[j g']|]; simpl; [|done].
    by rewrite Nat.add_succ_r.
Qed.

Definition add_file (f : FileMetaData) : L0Group → L0Group :=
  AddFile (GetNumber f) (smallest f) (largest f) (GetFileSize f).

Definition new_group (id now : Z) (f : FileMetaData) : L0Group :=
  mkL0Group id [GetNumber f] (smallest f) (largest f) (u64 (GetFileSize f)) now.

Lemma register_file_spec now t f :
  register_file now t (Some f) =
  match list_find (joins f) (groups_ t) with
  | Some (j, _) => mkTracker (alter (add_file f) j (groups_ t)) (next_group_id_ t)
  | None => mkTracker (groups_ t ++ [new_group (next_group_id_ t) now f]) (next_group_id_ t + 1)
  end.
Proof.
  unfold register_file, AssignFileToGroup. rewrite best_group_spec.
  destruct (list_find (joins f) (groups_ t)) as [[j g]|]; [done|].
  simpl. f_equal. rewrite alter_app_r_alt by lia. rewrite Nat.sub_diag. simpl.
  unfold AddFile, new_group. simpl. by rewrite Z.add_0_l.
Qed.

(** ** The invariant *)

Section invariant.
Context (meta : Z → FileMetaData).

Definition group_ok (g : L0Group) : Prop :=
  file_numbers g ≠ [] ∧
  ∀ x, x ∈ file_numbers g →
    ikey_le (l0g_smallest g) (smallest (meta x)) ∧ ikey_le (largest (meta x)) (l0g_largest g).

Definition tracker_ok (t : L0GroupTracker) : Prop :=
  Forall group_ok (groups_ t) ∧ NoDup (group_id <$> groups_ t) ∧
  Forall (λ g, group_id g < next_group_id_ t) (groups_ t).

Definition all_numbers (gs : list L0Group) : list Z := concat (file_numbers <$> gs).

Lemma add_file_ok f g : meta (GetNumber f) = f → group_ok g → group_ok (add_file f g).
Proof using HC.
  intros Hm [Hne Hcov]. unfold add_file, AddFile.
  destruct (Nat.eqb_spec (length (file_numbers g ++ [GetNumber f])) 1) as [E|_].
  { rewrite length_app in E. simpl in E. destruct (file_numbers g); simpl in *; [done|lia]. }
  split; simpl; [by destruct (file_numbers g)|].
  intros x [Hx| ->%list_elem_of_singleton]%elem_of_app.
  - destruct (Hcov x Hx) as [H1 H2].
    cmp_case (@InternalKeyCompare C) (smallest f) (l0g_smallest g);
      cmp_case (@InternalKeyCompare C) (largest f) (l0g_largest g); split; try done; order (cmp_le (@InternalKeyCompare C)).
  - rewrite Hm. cmp_case (@InternalKeyCompare C) (smallest f) (l0g_smallest g);
      cmp_case (@InternalKeyCompare C) (largest f) (l0g_largest g); split; try done; order (cmp_le (@InternalKeyCompare C)).
Qed.

Lemma add_file_fields f g :
  group_id (add_file f g) = group_id g ∧
  file_numbers (add_file f g) = file_numbers g ++ [GetNumber f].
Proof. unfold add_file, AddFile. by destruct (_ =? 1)%nat. Qed.

Lemma register_file_ok now t f :
  meta (GetNumber f) = f → tracker_ok t →
  tracker_ok (register_file now t (Some f)) ∧
  all_numbers (groups_ (register_file now t (Some f))) ≡ₚ all_numbers (groups_ t) ++ [GetNumber f].
Proof using HC.
  intros Hm (Hok & Hnd & Hid). rewrite register_file_spec.
  destruct (list_find (joins f) (groups_ t)) as [[j g]|] eqn:E.
  - apply list_find_Some in E as (Hj & _ & _).
    destruct (alter_middle (add_file f) _ j g Hj) as (l1 & l2 & El & Ea).
    destruct (add_file_fields f g) as [Hgid Hgnum].
    unfold tracker_ok, all_numbers. cbn [groups_ next_group_id_]. rewrite Ea, El in *.
    rewrite !fmap_app, !concat_app in *. cbn [fmap list_fmap concat] in *. rewrite Hgid, Hgnum.
    apply Forall_app in Hok as [H1 [Hg H2]%Forall_cons].
    apply Forall_app in Hid as [I1 [Ig I2]%Forall_cons]. split; [split_and!|].
    + apply Forall_app; split; [done|]. constructor; [by apply add_file_ok|done].
    + done.
    + apply Forall_app; split; [done|]. constructor; [by rewrite Hgid|done].
    + rewrite <- !app_assoc. do 2 apply Permutation_app_head. apply Permutation_app_comm.
  - unfold tracker_ok, all_numbers. cbn [groups_ next_group_id_]. split; [split_and!|].
    + apply Forall_app; split; [done|]. constructor; [|constructor]. split; [done|].
      intros x ->%list_elem_of_singleton. simpl. by rewrite Hm.
    + rewrite fmap_app. apply NoDup_app. split_and!; [done| |by apply NoDup_singleton].
      intros i (g & -> & Hg)%list_elem_of_fmap Hi%list_elem_of_singleton.
      rewrite Forall_forall in Hid. pose proof (Hid g Hg). simpl in Hi. lia.
    + apply Forall_app; split; [|constructor; [simpl; lia|constructor]].
      eapply Forall_impl; [exact Hid|]. simpl. lia.
    + rewrite fmap_app, concat_app. done.
Qed.

Lemma cleanup_ok t : tracker_ok t → CleanupEmptyGroups t = t.
Proof.
  intros [Hok _]. unfold CleanupEmptyGroups. rewrite filter_all; [by destruct t|].
  eapply Forall_impl; [exact Hok|]. intros g [Hne _]. unfold Empty. by destruct (file_numbers g).
Qed.

Lemma register_ok now fs t :
  Forall (λ f, meta (GetNumber f) = f) (omap id fs) → tracker_ok t →
  tracker_ok (RegisterFlushResult now fs t) ∧
  all_numbers (groups_ (RegisterFlushResult now fs t)) ≡ₚ
    all_numbers (groups_ t) ++ (GetNumber <$> omap id fs).
Proof using HC.
  intros Hm Hok. unfold RegisterFlushResult.
  assert (Hf : tracker_ok (foldl (register_file now) t fs) ∧
    all_numbers (groups_ (foldl (register_file now) t fs)) ≡ₚ
    all_numbers (groups_ t) ++ (GetNumber <$> omap id fs)).
  { revert t Hok. induction fs as [|[f|] fs IH]; intros t Hok; simpl in *.
    - by rewrite app_nil_r.
    - apply Forall_cons in Hm as [Hf Hm].
      destruct (register_file_ok now t f Hf Hok) as [Hok' Hp].
      destruct (IH Hm _ Hok') as [Hok'' Hp'].
      split; [exact Hok''|]. etransitivity; [exact Hp'|]. rewrite Hp, <- app_assoc. done.
    - by apply IH. }
  destruct Hf as [Hok' Hp]. rewrite cleanup_ok by done. done.
Qed.

(** ** Removal *)

Lemma erase_first_spec x l :
  match erase_first x l with Some l' => l ≡ₚ x :: l' ∧ ∀ y, y ∈ l' → y ∈ l | None => x ∉ l end.
Proof.
  induction l as [|y l IH]; simpl; [by apply not_elem_of_nil|].
  destruct (Z.eqb_spec y x) as [->|Hne]; [split; [done|]; by right|].
  destruct (erase_first x l) as [l'|]; simpl.
  - destruct IH as [Hp Hs]. split; [rewrite Hp; apply Permutation_swap|].
    intros z [->|Hz]%elem_of_cons; [left|right; auto].
  - intros [->|?]%elem_of_cons; done.
Qed.

Lemma remove_file_numbers x gs :
  (x ∈ all_numbers gs → all_numbers gs ≡ₚ x :: all_numbers (remove_file x gs)) ∧
  (x ∉ all_numbers gs → remove_file x gs = gs).
Proof.
  unfold all_numbers. induction gs as [|g gs [IH1 IH2]]; simpl; [split; [by intros ?%not_elem_of_nil|done]|].
  pose proof (erase_first_spec x (file_numbers g)) as He.
  destruct (erase_first x (file_numbers g)) as [ns|]; cbn [fmap list_fmap concat].
  - destruct He as [Hp _]. split.
    + intros _. simpl. rewrite Hp. done.
    + intros Hn. destruct Hn. rewrite elem_of_app. left. rewrite Hp. left.
  - split.
    + intros [Hx|Hx]%elem_of_app; [done|]. rewrite (IH1 Hx) at 1. by rewrite Permutation_middle.
    + intros Hn. f_equal. apply IH2. intros Hx. apply Hn. rewrite elem_of_app. by right.
Qed.

Lemma remove_file_filter x gs :
  NoDup (all_numbers gs) →
  all_numbers (remove_file x gs) ≡ₚ filter (λ y, y ≠ x) (all_numbers gs).
Proof.
  intros Hnd. destruct (remove_file_numbers x gs) as [H1 H2].
  destruct (decide (x ∈ all_numbers gs)) as [Hx|Hx].
  - specialize (H1 Hx). rewrite H1. rewrite H1 in Hnd. apply NoDup_cons in Hnd as [Hn _].
    rewrite filter_cons_False by tauto. rewrite filter_all; [done|].
    apply Forall_forall. intros y Hy ->. done.
  - rewrite (H2 Hx), filter_all; [done|]. apply Forall_forall. intros y Hy ->. done.
Qed.

Lemma remove_files_numbers ns gs :
  NoDup (all_numbers gs) →
  all_numbers (foldl (λ gs x, remove_file x gs) gs ns) ≡ₚ filter (λ y, y ∉ ns) (all_numbers gs).
Proof.
  revert gs. induction ns as [|n ns IH]; intros gs Hnd; simpl.
  { rewrite filter_all; [done|]. apply Forall_forall. intros y _. apply not_elem_of_nil. }
  pose proof (remove_file_filter n gs Hnd) as Hp. rewrite IH, Hp.
  - rewrite list_filter_filter. erewrite list_filter_iff; [done|].
    intros y. simpl. rewrite not_elem_of_cons. tauto.
  - rewrite Hp. by apply NoDup_filter.
Qed.

(** What removal keeps of every group: its identifier, its bounds, and no
    file number that it did not have. *)
Definition shrinks (g g' : L0Group) : Prop :=
  group_id g' = group_id g ∧ l0g_smallest g' = l0g_smallest g ∧ l0g_largest g' = l0g_largest g ∧
  total_size g' = total_size g ∧ ∀ x, x ∈ file_numbers g' → x ∈ file_numbers g.

#[local] Instance shrinks_refl : Reflexive shrinks.
Proof. intros g. by split_and!. Qed.
#[local] Instance shrinks_trans : Transitive shrinks.
Proof.
  intros g1 g2 g3 (H1 & H2 & H3 & H4 & H5) (K1 & K2 & K3 & K4 & K5). split_and!; try congruence. auto.
Qed.

Lemma remove_files_shrinks ns gs :
  Forall2 shrinks gs (foldl (λ gs x, remove_file x gs) gs ns).
Proof.
  revert gs. induction ns as [|n ns IH]; intros gs; simpl; [reflexivity|].
  etransitivity; [|apply IH]. clear IH. induction gs as [|g gs IH]; simpl; [constructor|].
  pose proof (erase_first_spec n (file_numbers g)) as He.
  destruct (erase_first n (file_numbers g)) as [l|]; constructor; try reflexivity; [|exact IH].
  destruct He as [_ Hs]. by split_and!.
Qed.

Lemma cleanup_numbers t : all_numbers (groups_ (CleanupEmptyGroups t)) = all_numbers (groups_ t).
Proof.
  unfold CleanupEmptyGroups, all_numbers. simpl. induction (groups_ t) as [|g gs IH]; [done|].
  rewrite filter_cons. case_decide as E; cbn [fmap list_fmap concat]; [f_equal; exact IH|].
  unfold Empty in E. destruct (file_numbers g); [exact IH|done].
Qed.

Lemma remove_ok ns t :
  NoDup (all_numbers (groups_ t)) → tracker_ok t →
  tracker_ok (RemoveFiles ns t) ∧
  all_numbers (groups_ (RemoveFiles ns t)) ≡ₚ filter (λ y, y ∉ ns) (all_numbers (groups_ t)).
Proof.
  intros Hnum (Hok & Hnd & Hid). unfold RemoveFiles.
  split; [|rewrite cleanup_numbers; by apply remove_files_numbers].
  pose proof (remove_files_shrinks ns (groups_ t)) as Hs.
  set (gs := foldl _ _ ns) in *. clearbody gs. unfold CleanupEmptyGroups, tracker_ok. simpl.
  assert (Hids : group_id <$> gs = group_id <$> groups_ t).
  { clear -Hs. induction Hs as [|g g' gs1 gs2 (E & _) _ IH]; [done|]. cbn. by rewrite E, IH. }
  split_and!.
  - clear -Hs Hok. induction Hs as [|g g' gs1 gs2 (_ & E1 & E2 & _ & Hn) _ IH]; [constructor|].
    apply Forall_cons in Hok as [[_ Hg] Hok]. specialize (IH Hok). rewrite filter_cons.
    case_decide as E; [|done]. constructor; [|done]. split; [by intros E'; unfold Empty in E; rewrite E' in E|].
    rewrite E1, E2. auto.
  - rewrite <- Hids in Hnd. eapply sublist_NoDup; [exact Hnd|]. apply fmap_sublist, sublist_filter.
  - apply Forall_forall. intros g [_ Hg]%list_elem_of_filter. apply (list_elem_of_fmap_2 group_id) in Hg.
    rewrite Hids in Hg. apply list_elem_of_fmap in Hg as (g' & -> & Hg').
    rewrite Forall_forall in Hid. by apply Hid.
Qed.

(** ** Runs of the tracker *)

(** The operations of the tracker next to the list of file numbers that are
    alive at level 0. *)
Inductive tracker_step : relation (L0GroupTracker * list Z) :=
  | step_register now fs t live :
      Forall (λ f, meta (GetNumber f) = f) (omap id fs) →
      NoDup (live ++ (GetNumber <$> omap id fs)) →
      tracker_step (t, live)
        (RegisterFlushResult now fs t, live ++ (GetNumber <$> omap id fs))
  | step_remove ns t live :
      tracker_step (t, live) (RemoveFiles ns t, filter (λ x, x ∉ ns) live)
  | step_clear t live : tracker_step (t, live) (Clear t, []).

Definition tracks (s : L0GroupTracker * list Z) : Prop :=
  tracker_ok s.1 ∧ NoDup s.2 ∧ all_numbers (groups_ s.1) ≡ₚ s.2.

Lemma new_tracks : tracks (NewL0GroupTracker, []).
Proof. split_and!; simpl; repeat constructor. Qed.

Lemma tracker_step_ok s s' : tracker_step s s' → tracks s → tracks s'.
Proof using HC.
  destruct 1 as [now fs t live Hm Hnd|ns t live|t live]; intros (Hok & Hl & Hp); simpl in *.
  - destruct (register_ok now fs t Hm Hok) as [H1 H2]. split_and!; simpl; try done. by rewrite H2, Hp.
  - destruct (remove_ok ns t) as [H1 H2]; [by rewrite Hp|done|].
    split_and!; simpl; [done|by apply NoDup_filter|]. by rewrite H2, Hp.
  - apply new_tracks.
Qed.
End invariant.
End tracker.

(** ** Snapshots of the range index *)

Section range_index.
Context (SC : StdChoices).

Definition map_ranges (ix : L0RangeIndex) : list L0FileRange := (map_to_list (map_ ix)).*2.

(** A clean cache is the sorted list of the ranges of the map. *)
Definition is_snapshot (ix : L0RangeIndex) (out : list L0FileRange) : Prop :=
  out ≡ₚ map_ranges ix ∧
  StronglySorted (cmp_le (cmp_on range_smallest slice_compare)) out.

Definition index_ok (ix : L0RangeIndex) : Prop :=
  cache_dirty_ ix = false → is_snapshot ix (sorted_cache_ ix).

Lemma snapshot_ok ix :
  index_ok ix → is_snapshot ix (SnapshotRanges ix).2 ∧ index_ok (SnapshotRanges ix).1.
Proof.
  intros Hok. assert (Hs : is_snapshot ix (SnapshotRanges ix).2).
  { unfold SnapshotRanges. simpl. destruct (cache_dirty_ ix) eqn:E; [|by apply Hok].
    destruct (std_sort_compare (cmp_on range_smallest slice_compare) range_lt
      (unordered_iter (map_ranges ix))) as [Hp Hs]; [apply _|intros a b; apply key_ltb_compare|].
    split; [|exact Hs]. etransitivity; [exact Hp|]. apply unordered_iter_perm. }
  split; [exact Hs|]. intros _. exact Hs.
Qed.

Lemma refresh_map files :
  NoDup (GetNumber <$> files) →
  (map_to_list (file_ranges files)).*2 ≡ₚ range_of_file <$> files.
Proof.
  induction files as [|f files IH] using rev_ind; intros Hnd; [done|].
  unfold file_ranges in *. rewrite foldl_app, fmap_app. cbn [foldl fmap list_fmap]. rewrite fmap_app in Hnd.
  apply NoDup_app in Hnd as (Hnd & Hdis & _). specialize (IH Hnd).
  rewrite map_to_list_insert; [cbn; rewrite IH; apply Permutation_cons_append|].
  assert (Hk : ∀ k fs, k ∉ GetNumber <$> fs →
    file_ranges fs !! k = None).
  { intros k fs. unfold file_ranges. induction fs as [|g fs IHf] using rev_ind; intros Hk; [done|].
    rewrite fmap_app, elem_of_app in Hk. rewrite foldl_app. simpl.
    rewrite lookup_insert_ne; [apply IHf; tauto|]. intros <-. apply Hk. right. left. }
  apply Hk. intros Hin. by apply (Hdis _ Hin), list_elem_of_singleton.
Qed.

Inductive index_step : relation L0RangeIndex :=
  | step_refresh files ix : index_step ix (RefreshFrom files ix)
  | step_snapshot ix : index_step ix (SnapshotRanges ix).1.

Lemma index_step_ok ix ix' : index_step ix ix' → index_ok ix → index_ok ix'.
Proof. destruct 1; intros Hok; [done|by apply snapshot_ok]. Qed.
End range_index.

(** ** The largest group by single-pass merging *)

Section max_group.
Context (C : Comparator) (HC : ComparatorOk C).

(** The range of the file lies within the range of the group. *)
Definition within (f : FileMetaData) (g : key * key) : Prop :=
  cmp_le Compare g.1 (smallest_ukey f) ∧ cmp_le Compare (largest_ukey f) g.2.

Lemma is_le_ukey a b : is_le (Compare a b) = true ↔ cmp_le Compare a b.
Proof. unfold is_le, cmp_le. by destruct (Compare a b). Qed.

Lemma is_ge_ukey a b : is_ge (Compare a b) = true ↔ cmp_le Compare b a.
Proof using HC.
  unfold is_ge. rewrite <- not_false_iff_true. cmp_case (@Compare C) a b; split; try done;
    intros; order (cmp_le (@Compare C)).
Qed.

Lemma within_expand f g : within f (expand_range f g).
Proof using HC.
  unfold within, expand_range. simpl.
  cmp_case (@Compare C) (smallest_ukey f) g.1; cmp_case (@Compare C) (largest_ukey f) g.2;
    split; try order (cmp_le (@Compare C)).
Qed.

Lemma expand_mono f f' g : within f g → within f (expand_range f' g).
Proof using HC.
  unfold within, expand_range. simpl. intros [H1 H2].
  cmp_case (@Compare C) (smallest_ukey f') g.1; cmp_case (@Compare C) (largest_ukey f') g.2;
    split; try order (cmp_le (@Compare C)).
Qed.

Lemma merge_range_within f gs :
  Exists (within f) (merge_range f gs) ∧
  ∀ f', Exists (within f') gs → Exists (within f') (merge_range f gs).
Proof using HC.
  induction gs as [|g gs [IH1 IH2]]; simpl.
  - split; [|by intros f' ?%Exists_nil]. left. split; simpl; order (cmp_le (@Compare C)).
  - destruct (in_group_range f g).
    + split; [left; apply within_expand|]. intros f' [Hg|Hg]%Exists_cons; [left; by apply expand_mono|by right].
    + split; [by right|]. intros f' [Hg|Hg]%Exists_cons; [by left|right; auto].
Qed.

Lemma groups_within files f :
  f ∈ files → Exists (within f) (foldl (λ gs f, merge_range f gs) [] files).
Proof using HC.
  induction files as [|f' files IH] using rev_ind; [by intros ?%not_elem_of_nil|].
  rewrite foldl_app. simpl. intros [Hf | ->%list_elem_of_singleton]%elem_of_app.
  - apply (proj2 (merge_range_within _ _)). auto.
  - apply (proj1 (merge_range_within _ _)).
Qed.

Lemma foldl_max {A} (w : A → Z) l acc :
  acc <= foldl (λ m x, Z.max m (w x)) acc l ∧
  (∀ x, x ∈ l → w x <= foldl (λ m x, Z.max m (w x)) acc l) ∧
  (foldl (λ m x, Z.max m (w x)) acc l = acc ∨ ∃ x, x ∈ l ∧ foldl (λ m x, Z.max m (w x)) acc l = w x).
Proof.
  revert acc. induction l as [|y l IH]; intros acc; simpl.
  { split_and!; [lia|by intros ? ?%not_elem_of_nil|by left]. }
  destruct (IH (Z.max acc (w y))) as (H1 & H2 & H3). split_and!; [lia| |].
  - intros x [-> | Hx]%elem_of_cons; [lia|auto].
  - destruct H3 as [H3|(x & Hx & H3)]; [|right; exists x; split; [by right|done]].
    destruct (Z.max_spec acc (w y)) as [[_ E]|[_ E]]; rewrite H3, E; [|by left].
    right. exists y. split; [left|done].
Qed.

Lemma max_group_depth files k :
  Z.of_nat (length (filter (contains C k) files)) <= GetMaxL0GroupFileCount files <= Z.of_nat (length files).
Proof using HC.
  destruct files as [|f0 fs] eqn:Ef; [done|]. rewrite <- Ef.
  assert (GetMaxL0GroupFileCount files = foldl (λ max_count g,
    Z.max max_count (Z.of_nat (length (filter (λ f, in_group_range f g = true) files)))) 0
    (foldl (λ gs f, merge_range f gs) [] files)) as -> by (by subst files).
  clear Ef f0 fs.
  destruct (foldl_max (λ g, Z.of_nat (length (filter (λ f, in_group_range f g = true) files)))
    (foldl (λ gs f, merge_range f gs) [] files) 0) as (H0 & Hle & Heq). split.
  - destruct (filter (contains C k) files) as [|f1 l] eqn:E; [exact H0|]. rewrite <- E.
    assert (Hk : contains C k f1 ∧ f1 ∈ files).
    { apply (list_elem_of_filter (contains C k)). rewrite E. left. }
    destruct Hk as [[Hk1 Hk2] Hf1]. pose proof (groups_within files f1 Hf1) as Hg.
    apply Exists_exists in Hg as (g & Hg & Hg1 & Hg2).
    etransitivity; [|exact (Hle g Hg)]. apply Nat2Z.inj_le, filter_length_mono.
    intros f _ [Hf2 Hf3]. unfold in_group_range. apply andb_true_iff.
    rewrite is_le_ukey, is_ge_ukey. split; order (cmp_le (@Compare C)).
  - destruct Heq as [->|(g & _ & ->)]; [lia|]. apply Nat2Z.inj_le, length_filter.
Qed.
End max_group.

(** ** The properties *)

(** C9. Whatever sequence of flush registrations, file removals and resets a
    tracker goes through, its groups hold exactly the live level-0 file
    numbers, each once; no group is empty, the bounds of a group cover every
    file in it, and group identifiers are distinct and below the next one. *)
Theorem tracker_reachable (C : Comparator) (meta : Z → FileMetaData) t live :
  ComparatorOk C →
  rtc (tracker_step C meta) (NewL0GroupTracker, []) (t, live) →
  tracker_ok C meta t ∧ NoDup live ∧ all_numbers (groups_ t) ≡ₚ live.
Proof.
  intros HC Hr. apply (rtc_invariant _ (tracks C meta) _ _ (tracker_step_ok C HC meta) Hr).
  apply new_tracks.
Qed.

(** After any history of the index, a refresh from files with distinct
    numbers followed by a snapshot returns exactly their user-key ranges,
    sorted by smallest key, and a second snapshot returns the same list. *)
Theorem range_snapshot_correct (SC : StdChoices) ix files :
  rtc (index_step SC) NewL0RangeIndex ix →
  NoDup (GetNumber <$> files) →
  let '(ix1, out1) := SnapshotRanges (RefreshFrom files ix) in
  out1 ≡ₚ range_of_file <$> files ∧
  StronglySorted (cmp_le (cmp_on range_smallest slice_compare)) out1 ∧
  (SnapshotRanges ix1).2 = out1 ∧
  is_snapshot ix (SnapshotRanges ix).2.
Proof.
  intros Hr Hnd. destruct (SnapshotRanges (RefreshFrom files ix)) as [ix1 out1] eqn:E.
  assert (Hix : index_ok ix).
  { apply (rtc_invariant _ _ _ _ (index_step_ok SC) Hr). done. }
  destruct (snapshot_ok SC (RefreshFrom files ix)) as [[Hp Hs] _]; [done|].
  rewrite E in Hp, Hs. split_and!; [|done| |by apply snapshot_ok].
  - rewrite Hp. by apply refresh_map.
  - unfold SnapshotRanges in E. by injection E as <- <-.
Qed.

(** The group size of the single-pass merge is never below the number of
    files that share a user key, never above the number of level-0 files,
    and so bounds [CalculateMaxOverlappingGroupSize] from above. *)
Theorem max_group_bounds (C : Comparator) (SC : StdChoices) files :
  ComparatorOk C →
  Forall (λ f, cmp_le Compare (smallest_ukey f) (largest_ukey f)) files →
  (∀ k, Z.of_nat (length (filter (contains C k) files)) <= GetMaxL0GroupFileCount files) ∧
  CalculateMaxOverlappingGroupSize files <= GetMaxL0GroupFileCount files <= Z.of_nat (length files).
Proof.
  intros HC Hf. assert (Hk := max_group_depth C HC files).
  split_and!; [intros k; apply Hk| |apply (Hk [])].
  destruct (calculate_max_depth C HC SC files Hf) as [_ [[-> _]|(f & _ & _ & <-)]].
  - specialize (Hk []). lia.
  - etransitivity; [|apply (Hk (smallest_ukey f))]. apply Nat2Z.inj_le, filter_length_mono.
    intros g _ [_ ?]. done.
Qed.

(** ** Witnesses *)

Definition sample_meta (n : Z) : FileMetaData :=
  default (new_file n 0 [] []) (snd <$> list_find (λ f, GetNumber f = n) sample_files).

Lemma tracker_reachable_witness :
  let t1 := @RegisterFlushResult BytewiseComparator 0 (Some <$> sample_files) NewL0GroupTracker in
  let t2 := RemoveFiles [1; 3] t1 in
  (file_numbers <$> groups_ t1) = [[1; 2; 4]; [3]] ∧
  (file_numbers <$> groups_ t2) = [[2; 4]] ∧
  tracker_ok BytewiseComparator sample_meta t2 ∧ all_numbers (groups_ t2) ≡ₚ [2; 4].
Proof.
  split_and!; [vm_compute; reflexivity|vm_compute; reflexivity| |].
  all: eapply (tracker_reachable BytewiseComparator sample_meta _ [2; 4] bytewise_ok).
  all: eapply rtc_l; [|eapply rtc_l; [|apply rtc_refl]].
  all: first [apply (step_register BytewiseComparator sample_meta 0 (Some <$> sample_files));
                [repeat constructor|apply (bool_decide_unpack _); vm_compute; exact I]
             |apply (step_remove BytewiseComparator sample_meta [1; 3] _ [1; 2; 3; 4])].
Defined.

Lemma range_snapshot_correct_witness :
  (@SnapshotRanges simple_choices (RefreshFrom (reverse sample_files) NewL0RangeIndex)).2 ≡ₚ
    range_of_file <$> reverse sample_files ∧
  length (range_of_file <$> reverse sample_files) = 4%nat.
Proof.
  split; [|reflexivity].
  refine (proj1 (range_snapshot_correct simple_choices NewL0RangeIndex (reverse sample_files)
    (rtc_refl _ _) _)).
  apply (bool_decide_unpack _). vm_compute. exact I.
Defined.

Lemma max_group_bounds_witness :
  @CalculateMaxOverlappingGroupSize BytewiseComparator simple_choices sample_files <=
    @GetMaxL0GroupFileCount BytewiseComparator sample_files ∧
  @GetMaxL0GroupFileCount BytewiseComparator sample_files = 4.
Proof.
  split; [|vm_compute; reflexivity].
  refine (proj1 (proj2 (max_group_bounds BytewiseComparator simple_choices sample_files bytewise_ok _))).
  apply (bool_decide_unpack _). vm_compute. exact I.
Defined.
