(* ===== verification/TableIterator.v ===== *)
(** * Iterators over sorted entries

    Models the contract of [InternalIterator] of
    [src/table/internal_iterator.h] for an iterator over a sorted sequence of
    entries: a table of level 0, or the merged contents of memtables.  A cursor
    is at an entry or invalid.  Reads are assumed to succeed. *)

From S2P Require Import Prelude Coding Comparator DbFormat.

(** ** Operations *)

(** An entry: its internal key and its value. *)
Abbreviation entry := (key * list byte)%type.

Record Cursor := mkCursor {
  table : list entry;
  position : option nat;
}.

Definition cursor_entry (c : Cursor) : option entry := position c ≫= λ i, table c !! i.
Definition cursor_key (c : Cursor) : option key := fst <$> cursor_entry c.

Definition cursor_seek `{Comparator} (target : key) (c : Cursor) : Cursor :=
  mkCursor (table c)
    (fst <$> list_find (λ e, InternalKeyCompare e.1 target ≠ Lt) (table c)).

Definition cursor_seek_for_prev `{Comparator} (target : key) (c : Cursor) : Cursor :=
  let n := length (filter (λ e, InternalKeyCompare e.1 target ≠ Gt) (table c)) in
  mkCursor (table c) (match n with O => None | S m => Some m end).

Definition cursor_first (c : Cursor) : Cursor :=
  mkCursor (table c) (match table c with [] => None | _ => Some 0%nat end).
Definition cursor_last (c : Cursor) : Cursor :=
  mkCursor (table c) (match length (table c) with O => None | S m => Some m end).

Definition cursor_next (c : Cursor) : Cursor :=
  mkCursor (table c)
    (i ← position c; if (S i <? length (table c))%nat then Some (S i) else None).
Definition cursor_prev (c : Cursor) : Cursor :=
  mkCursor (table c) (i ← position c; match i with O => None | S m => Some m end).

(** ** What a cursor has ahead of it and behind it *)

Definition entry_le (c : key → key → comparison) (a b : entry) : Prop := cmp_le c a.1 b.1.

Section cursors.
Context (C : Comparator) (HC : ComparatorOk C).

Abbreviation icmp := (@InternalKeyCompare C).
Abbreviation ascending := (entry_le icmp).
Abbreviation descending := (entry_le (cmp_flip icmp)).

(** A cursor at one of its entries, over a sorted table. *)
Definition cursor_ok (x : Cursor) : Prop :=
  StronglySorted ascending (table x) ∧ ∀ i, position x = Some i → (i < length (table x))%nat.

Definition ahead (x : Cursor) : list entry :=
  match position x with Some i => drop i (table x) | None => [] end.
Definition behind (x : Cursor) : list entry :=
  match position x with Some i => reverse (take (S i) (table x)) | None => [] end.

Lemma ahead_head x : cursor_ok x → cursor_entry x = head (ahead x).
Proof.
  intros [_ Hp]. unfold cursor_entry, ahead. destruct (position x) as [i|]; [|done]. cbn.
  rewrite <- (Nat.add_0_r i), <- lookup_drop at 1. by destruct (drop i (table x)).
Qed.

Lemma ahead_next x : cursor_ok x → cursor_ok (cursor_next x) ∧ ahead (cursor_next x) = tail (ahead x).
Proof.
  intros [Hs Hp]. unfold cursor_next, cursor_ok, ahead. cbn [table position].
  destruct (position x) as [i|]; [|done]. cbn [mbind option_bind]. destruct (Nat.ltb_spec (S i) (length (table x))) as [Hlt|Hge].
  - split; [split; [done|intros j Hj; by simplify_eq]|].
    rewrite <- Nat.add_1_r, <- drop_drop. by destruct (drop i (table x)).
  - split; [done|]. assert (Hl : (length (drop i (table x)) <= 1)%nat) by (rewrite length_drop; lia).
    destruct (drop i (table x)) as [|? [|]]; [done|done|cbn in Hl; lia].
Qed.

Lemma ahead_sorted x : cursor_ok x → StronglySorted ascending (ahead x).
Proof.
  intros [Hs _]. unfold ahead. destruct (position x) as [i|]; [|constructor].
  rewrite <- (take_drop i (table x)) in Hs. by apply StronglySorted_app_1_r in Hs.
Qed.

Lemma behind_head x : cursor_ok x → cursor_entry x = head (behind x).
Proof.
  intros [_ Hp]. unfold cursor_entry, behind. destruct (position x) as [i|]; [|done]. cbn [mbind option_bind].
  destruct (lookup_lt_is_Some_2 (table x) i (Hp i eq_refl)) as [e He].
  by rewrite (take_S_r _ _ _ He), reverse_snoc, He.
Qed.

Lemma behind_prev x : cursor_ok x → cursor_ok (cursor_prev x) ∧ behind (cursor_prev x) = tail (behind x).
Proof.
  intros [Hs Hp]. unfold cursor_prev, cursor_ok, behind. cbn. destruct (position x) as [i|]; [|done].
  destruct (lookup_lt_is_Some_2 (table x) i (Hp i eq_refl)) as [e He].
  cbn. rewrite (take_S_r _ _ _ He), reverse_snoc. destruct i as [|i]; [done|].
  split; [|done]. split; [done|]. intros j Hj. simplify_eq. specialize (Hp (S j) eq_refl). lia.
Qed.

Lemma behind_sorted x : cursor_ok x → StronglySorted descending (behind x).
Proof.
  intros [Hs _]. unfold behind. destruct (position x) as [i|]; [|constructor].
  rewrite <- (take_drop (S i) (table x)) in Hs. apply StronglySorted_app_1_l in Hs.
  induction Hs as [|e l _ IH He]; [constructor|]. rewrite reverse_cons. apply StronglySorted_app_2;
    [|done|repeat constructor]. intros a b Ha ->%list_elem_of_singleton.
  rewrite elem_of_reverse in Ha. rewrite Forall_forall in He. specialize (He a Ha).
  unfold entry_le, cmp_le, cmp_flip in *. done.
Qed.

Definition at_or_after (target : key) (e : entry) : Prop := cmp_le icmp target e.1.

Lemma not_lt_le_iff a b : icmp a b ≠ Lt ↔ cmp_le icmp b a.
Proof using HC. rewrite (cmp_lt_iff icmp). destruct (decide (cmp_le icmp b a)); tauto. Qed.

Lemma ahead_seek target l :
  StronglySorted ascending l →
  ahead (cursor_seek target (mkCursor l None)) = filter (at_or_after target) l ∧
  cursor_ok (cursor_seek target (mkCursor l None)).
Proof using HC.
  intros Hs. unfold cursor_seek, cursor_ok, ahead. cbn [table position]. split.
  - induction Hs as [|e l Hs IH He]; [done|]. cbn [list_find]. rewrite filter_cons.
    destruct (decide (icmp e.1 target ≠ Lt)) as [Hge|Hlt].
    + cbn. apply not_lt_le_iff in Hge. rewrite decide_True by done. f_equal. symmetry. apply filter_all.
      eapply Forall_impl; [exact He|]. unfold at_or_after, entry_le. intros x Hx.
      order (cmp_le (@InternalKeyCompare C)).
    + rewrite not_lt_le_iff in Hlt. rewrite decide_False by done. rewrite <- IH.
      destruct (list_find _ l) as [[i x]|]; done.
  - split; [done|]. intros i Hi. destruct (list_find _ l) as [[j x]|] eqn:E; [|done].
    cbn in Hi. injection Hi as <-. apply list_find_Some in E as (E & _). by apply lookup_lt_Some in E.
Qed.

Lemma ahead_first l : ahead (cursor_first (mkCursor l None)) = l ∧
  (StronglySorted ascending l → cursor_ok (cursor_first (mkCursor l None))).
Proof.
  unfold ahead, cursor_ok, cursor_first. cbn [table position]. destruct l as [|e l]; [done|].
  split; [done|]. intros Hs. split; [done|]. intros i [= <-]. cbn. lia.
Qed.

Lemma behind_last l : behind (cursor_last (mkCursor l None)) = reverse l ∧
  (StronglySorted ascending l → cursor_ok (cursor_last (mkCursor l None))).
Proof.
  unfold behind, cursor_ok, cursor_last. cbn [table position].
  destruct (length l) as [|m] eqn:E; [by apply nil_length_inv in E as ->|].
  split; [by rewrite take_ge by lia|]. intros Hs. split; [done|]. intros i [= <-]. lia.
Qed.

End cursors.
