(* ===== verification/RangeScan.v ===== *)
(** * Lazy scans of level 0

    Models [L0RangeScanIterator] of [src/db/version_set.cc].  The iterator that
    the table cache opens for a file is modelled by the contract of
    [InternalIterator] over the sorted entries of its table: a cursor that is
    at an entry or invalid (see [TableIterator]).  Reads are assumed to
    succeed. *)

From S2P Require Import Prelude Coding Comparator DbFormat TableIterator.

(** ** The iterator *)

Record L0FileInfo := mkInfo {
  file_entries : list entry;  (* the table of [file_metadata] *)
  info_smallest : key;
  info_largest : key;
  iterator_active : bool;
}.

Record ActiveIterator := mkActive {
  iter : Cursor;
  file_index : nat;
}.

Record Scan := mkScan {
  l0_files_ : list L0FileInfo;
  active_iterators_ : list ActiveIterator;
  current_index_ : nat;
}.

Definition NewScan (files : list (list entry * (key * key))) : Scan :=
  mkScan ((λ f, mkInfo f.1 f.2.1 f.2.2 false) <$> files) [] 0.

Definition current (s : Scan) : option entry :=
  active_iterators_ s !! current_index_ s ≫= λ a, cursor_entry (iter a).
Definition scan_valid (s : Scan) : bool := match current s with Some _ => true | None => false end.
Definition scan_key (s : Scan) : option key := fst <$> current s.
Definition scan_value (s : Scan) : option (list byte) := snd <$> current s.

Definition set_active (b : bool) (f : L0FileInfo) : L0FileInfo :=
  mkInfo (file_entries f) (info_smallest f) (info_largest f) b.

Definition ClearAllIterators (s : Scan) : Scan := mkScan (set_active false <$> l0_files_ s) [] 0.

Definition ActivateFile (i : nat) (s : Scan) : Scan :=
  match l0_files_ s !! i with
  | Some f =>
      if iterator_active f then s
      else mkScan (alter (set_active true) i (l0_files_ s))
             (active_iterators_ s ++ [mkActive (mkCursor (file_entries f) None) i]) (current_index_ s)
  | None => s
  end.

Definition map_iters (f : Cursor → Cursor) (s : Scan) : Scan :=
  mkScan (l0_files_ s) ((λ a, mkActive (f (iter a)) (file_index a)) <$> active_iterators_ s) (current_index_ s).

(** The loop of [FindSmallest] and [FindLargest]; [better] is the comparison
    with the key of the iterator found so far. *)
Fixpoint find_loop (better : key → key → bool) (all : list ActiveIterator) (i : nat)
    (its : list ActiveIterator) (cur : nat) : nat :=
  match its with
  | [] => cur
  | it :: its' =>
      match cursor_key (iter it) with
      | Some k =>
          if (length all <=? cur)%nat ||
             better k (default [] (all !! cur ≫= λ a, cursor_key (iter a)))
          then find_loop better all (S i) its' i
          else find_loop better all (S i) its' cur
      | None => find_loop better all (S i) its' cur
      end
  end.

Definition find_best (better : key → key → bool) (s : Scan) : Scan :=
  mkScan (l0_files_ s) (active_iterators_ s)
    (find_loop better (active_iterators_ s) 0 (active_iterators_ s) (length (active_iterators_ s))).

Definition key_less `{Comparator} (a b : key) : bool :=
  match InternalKeyCompare a b with Lt => true | _ => false end.
Definition key_greater `{Comparator} (a b : key) : bool :=
  match InternalKeyCompare a b with Gt => true | _ => false end.

Definition FindSmallest `{Comparator} : Scan → Scan := find_best key_less.
Definition FindLargest `{Comparator} : Scan → Scan := find_best key_greater.

(** [smallest_key <= k <= largest_key] *)
Definition in_file_range `{Comparator} (k : key) (f : L0FileInfo) : bool :=
  negb (key_greater (info_smallest f) k) && negb (key_less (info_largest f) k).

Definition AddOverlappingFiles `{Comparator} (target : key) (s : Scan) : Scan :=
  foldl (λ s i,
    match l0_files_ s !! i with
    | Some f => if in_file_range target f then ActivateFile i s else s
    | None => s
    end) s (seq 0 (length (l0_files_ s))).

Definition AddOverlappingFilesForPrev `{Comparator} (target : key) (s : Scan) : Scan :=
  AddOverlappingFiles target s.

Definition activate_all (s : Scan) : Scan :=
  foldl (λ s i, ActivateFile i s) s (seq 0 (length (l0_files_ s))).

Definition Seek `{Comparator} (target : key) (s : Scan) : Scan :=
  FindSmallest (map_iters (cursor_seek target) (AddOverlappingFiles target (ClearAllIterators s))).

Definition SeekForPrev `{Comparator} (target : key) (s : Scan) : Scan :=
  FindLargest (map_iters (cursor_seek_for_prev target) (AddOverlappingFilesForPrev target (ClearAllIterators s))).

Definition SeekToFirst `{Comparator} (s : Scan) : Scan :=
  FindSmallest (map_iters cursor_first (activate_all (ClearAllIterators s))).

Definition SeekToLast `{Comparator} (s : Scan) : Scan :=
  FindLargest (map_iters cursor_last (activate_all (ClearAllIterators s))).

(** [active_iterators_.back().iter->f()] *)
Definition map_last_iter (f : Cursor → Cursor) (s : Scan) : Scan :=
  mkScan (l0_files_ s)
    (alter (λ a, mkActive (f (iter a)) (file_index a)) (length (active_iterators_ s) - 1)%nat
       (active_iterators_ s)) (current_index_ s).

(** One file of [MaybeAddMoreFilesForward]. *)
Definition maybe_add `{Comparator} (k : key) (st : Scan * bool) (i : nat) : Scan * bool :=
  match l0_files_ st.1 !! i with
  | Some f =>
      if iterator_active f then st
      else if in_file_range k f
      then (map_last_iter (cursor_seek k) (ActivateFile i st.1), true)
      else st
  | None => st
  end.

Definition MaybeAddMoreFilesForward `{Comparator} (k : key) (s : Scan) : Scan :=
  let '(s', added) := foldl (maybe_add k) (s, false) (seq 0 (length (l0_files_ s))) in
  if added then FindSmallest s' else s'.

(** The file to continue with: among those not active that start after
    [last_key], the first with the smallest start. *)
Fixpoint next_file `{Comparator} (last_key : key) (i : nat) (fs : list L0FileInfo)
    (best : option (nat * key)) : option (nat * key) :=
  match fs with
  | [] => best
  | f :: fs' =>
      if iterator_active f then next_file last_key (S i) fs' best
      else if key_greater (info_smallest f) last_key &&
              match best with
              | None => true
              | Some (_, k) => key_less (info_smallest f) k
              end
      then next_file last_key (S i) fs' (Some (i, info_smallest f))
      else next_file last_key (S i) fs' best
  end.

Definition TryActivateNextFile `{Comparator} (last_key : key) (s : Scan) : Scan :=
  match next_file last_key 0 (l0_files_ s) None with
  | None => s
  | Some (i, _) =>
      let s1 := FindSmallest (map_last_iter cursor_first (ActivateFile i s)) in
      match scan_key s1 with
      | Some k => MaybeAddMoreFilesForward k s1
      | None => s1
      end
  end.

Definition advance (f : Cursor → Cursor) (s : Scan) : Scan :=
  mkScan (l0_files_ s)
    (alter (λ a, mkActive (f (iter a)) (file_index a)) (current_index_ s) (active_iterators_ s))
    (current_index_ s).

(** [Next] and [Prev] on a valid iterator. *)
Definition Next `{Comparator} (s : Scan) : Scan :=
  let last_key := default [] (scan_key s) in
  let s1 := FindSmallest (advance cursor_next s) in
  match scan_key s1 with
  | Some k => MaybeAddMoreFilesForward k s1
  | None => TryActivateNextFile last_key s1
  end.

Definition Prev `{Comparator} (s : Scan) : Scan := FindLargest (advance cursor_prev s).

(** ** Scanning to the end *)

(** The entries a client reads by stepping until the iterator is invalid, at
    most [fuel] of them. *)
Fixpoint collect (step : Scan → Scan) (fuel : nat) (s : Scan) : list entry :=
  match fuel, current s with
  | S fuel', Some e => e :: collect step fuel' (step s)
  | _, _ => []
  end.

(** ** Merging by repeated selection

    A direction of the scan is a comparison [c], the step of a cursor and the
    list of entries it has still to visit. *)

Section merge.
Context (c : key → key → comparison) `{!CompareOk c}.
Context (better : key → key → bool) (Hbetter : ∀ a b, better a b = true ↔ c a b = Lt).

Abbreviation le := (cmp_le c).

(** The best index among a prefix of the iterators, as the loop keeps it. *)
Definition best_of (all : list ActiveIterator) (n cur : nat) : Prop :=
  (cur = length all ∧ ∀ j, (j < n)%nat → ∀ a, all !! j = Some a → cursor_key (iter a) = None) ∨
  ∃ a k, all !! cur = Some a ∧ (cur < n)%nat ∧ cursor_key (iter a) = Some k ∧
    ∀ j, (j < n)%nat → ∀ b k', all !! j = Some b → cursor_key (iter b) = Some k' → le k k'.

Lemma best_of_step all n cur :
  best_of all n cur → (n <= length all)%nat →
  ∀ it its, drop n all = it :: its →
  best_of all (S n)
    (match cursor_key (iter it) with
     | Some k =>
         if (length all <=? cur)%nat || better k (default [] (all !! cur ≫= λ a, cursor_key (iter a)))
         then n else cur
     | None => cur
     end).
Proof using Hbetter CompareOk0.
  intros Hb Hn it its Hd. assert (Hit : all !! n = Some it).
  { rewrite <- (Nat.add_0_r n), <- lookup_drop, Hd. done. }
  assert (Hlast : ∀ (P : nat → Prop), (∀ j, (j < n)%nat → P j) → P n → ∀ j, (j < S n)%nat → P j).
  { intros P H1 H2 j Hj. destruct (decide (j = n)) as [->|]; [done|]. apply H1. lia. }
  destruct Hb as [[-> Hnone]|(a & k & Ha & Hc & Hk & Hmin)].
  - destruct (cursor_key (iter it)) as [k|] eqn:Ek.
    + rewrite Nat.leb_refl. cbn [orb]. right. exists it, k. split_and!; [done|lia|done|].
      apply (Hlast (λ j, ∀ b k', all !! j = Some b → cursor_key (iter b) = Some k' → le k k')).
      * intros j Hj b k' Hb Hk'. rewrite (Hnone j Hj b Hb) in Hk'. done.
      * intros b k' Hb Hk'. rewrite Hit in Hb. injection Hb as <-. rewrite Ek in Hk'. injection Hk' as <-.
        order (cmp_le c).
    + left. split; [done|].
      apply (Hlast (λ j, ∀ a, all !! j = Some a → cursor_key (iter a) = None)); [eauto|].
      intros a Ha. rewrite Hit in Ha. by injection Ha as <-.
  - rewrite (proj2 (Nat.leb_gt (length all) cur)) by (apply lookup_lt_Some in Ha; lia). cbn [orb].
    rewrite Ha. cbn [mbind option_bind]. rewrite Hk. change (default [] (Some k)) with k.
    destruct (cursor_key (iter it)) as [k'|] eqn:Ek.
    + destruct (better k' k) eqn:E; right.
      * apply Hbetter, (cmp_lt_iff c) in E. exists it, k'. split_and!; [done|lia|done|].
        apply (Hlast (λ j, ∀ b k0, all !! j = Some b → cursor_key (iter b) = Some k0 → le k' k0)).
        -- intros j Hj b k0 Hb Hk0. pose proof (Hmin j Hj b k0 Hb Hk0). order (cmp_le c).
        -- intros b k0 Hb Hk0. rewrite Hit in Hb. injection Hb as <-. rewrite Ek in Hk0.
           injection Hk0 as <-. order (cmp_le c).
      * rewrite <- not_true_iff_false, Hbetter, (cmp_lt_iff c) in E. exists a, k. split_and!; [done|lia|done|].
        apply (Hlast (λ j, ∀ b k0, all !! j = Some b → cursor_key (iter b) = Some k0 → le k k0)); [eauto|].
        intros b k0 Hb Hk0. rewrite Hit in Hb. injection Hb as <-. rewrite Ek in Hk0.
        injection Hk0 as <-. order (cmp_le c).
    + right. exists a, k. split_and!; [done|lia|done|].
      apply (Hlast (λ j, ∀ b k0, all !! j = Some b → cursor_key (iter b) = Some k0 → le k k0)); [eauto|].
      intros b k0 Hb Hk0. rewrite Hit in Hb. injection Hb as <-. congruence.
Qed.

Lemma find_loop_best all n its cur :
  drop n all = its → (n <= length all)%nat → best_of all n cur →
  best_of all (length all) (find_loop better all n its cur).
Proof using Hbetter CompareOk0.
  revert n cur. induction its as [|it its IH]; intros n cur Hd Hn Hb.
  - cbn [find_loop]. assert (n = length all) as <-; [|done].
    assert (length (drop n all) = 0%nat) as Hl by (by rewrite Hd). rewrite length_drop in Hl. lia.
  - assert (Hlt : (n < length all)%nat).
    { assert (length (drop n all) = S (length its)) as Hl by (by rewrite Hd). rewrite length_drop in Hl. lia. }
    pose proof (best_of_step all n cur Hb Hn it its Hd) as Hs.
    assert (Hd' : drop (S n) all = its).
    { rewrite <- Nat.add_1_r, <- drop_drop, Hd. done. }
    cbn [find_loop]. destruct (cursor_key (iter it)); [destruct (_ || _)|]; apply IH; done || lia.
Qed.

Context (view : Cursor → list entry) (step : Cursor → Cursor) (ok : Cursor → Prop).
Context (Hhead : ∀ x, ok x → cursor_entry x = head (view x)).
Context (Hstep : ∀ x, ok x → ok (step x) ∧ view (step x) = tail (view x)).
Context (Hsorted : ∀ x, ok x → StronglySorted (entry_le c) (view x)).

Definition iter_views (its : list ActiveIterator) : list entry := concat ((λ a, view (iter a)) <$> its).
Definition views (s : Scan) : list entry := iter_views (active_iterators_ s).
Definition iters_ok (s : Scan) : Prop := Forall (λ a, ok (iter a)) (active_iterators_ s).

Lemma view_key x : ok x → cursor_key x = fst <$> head (view x).
Proof using Hhead. intros Hx. unfold cursor_key. by rewrite Hhead. Qed.

Lemma view_head_le x e k :
  ok x → e ∈ view x → cursor_key x = Some k → cmp_le c k e.1.
Proof using Hhead Hsorted CompareOk0.
  intros Hx He. rewrite view_key by done. pose proof (Hsorted x Hx) as Hs.
  destruct (view x) as [|h l]; [by apply not_elem_of_nil in He|]. intros [= <-].
  apply elem_of_cons in He as [->|He]; [order (cmp_le c)|].
  apply StronglySorted_inv in Hs as [_ Hs]. rewrite Forall_forall in Hs. by apply Hs.
Qed.

Lemma find_best_spec s :
  iters_ok s →
  match current (find_best better s) with
  | None => views s = []
  | Some e => Forall (entry_le c e) (views s) ∧ views s ≡ₚ e :: views (advance step (find_best better s))
  end.
Proof using Hbetter Hhead Hstep Hsorted CompareOk0.
  intros Hok. unfold iters_ok in Hok. pose proof Hok as Hok'. rewrite Forall_forall in Hok'.
  destruct (find_loop_best (active_iterators_ s) 0 (active_iterators_ s) (length (active_iterators_ s)))
    as [[Hc Hnone]|(a & k & Ha & _ & Hk & Hmin)]; [done|lia|left; split; [done|intros; lia]| |].
  - assert (Hcur : current (find_best better s) = None).
    { unfold current. cbn [find_best active_iterators_ current_index_]. rewrite Hc, lookup_ge_None_2; done. }
    rewrite Hcur.
    cbn. unfold views, iter_views. apply concat_nil_Forall, Forall_fmap, Forall_forall. intros b Hb.
    apply list_elem_of_lookup in Hb as [j Hj]. pose proof (lookup_lt_Some _ _ _ Hj) as Hlt.
    specialize (Hnone j Hlt b Hj). rewrite view_key in Hnone
      by (apply Hok', list_elem_of_lookup; eauto). cbn. by destruct (view (iter b)).
  - assert (Hin : ok (iter a)) by (apply Hok', list_elem_of_lookup; eauto).
    set (i := find_loop _ _ _ _ _) in *. destruct (Hstep (iter a) Hin) as [_ Hv].
    assert (He : current (find_best better s) = head (view (iter a))).
    { unfold current. cbn [find_best active_iterators_ current_index_]. fold i. rewrite Ha. cbn. by apply Hhead. }
    rewrite view_key in Hk by done. rewrite He. destruct (view (iter a)) as [|e tl] eqn:Ev; [done|].
    cbn in Hk |- *. injection Hk as <-. split.
    + apply Forall_forall. intros e' He'. unfold views, iter_views in He'.
      apply elem_of_concat in He' as (l & Hl & (b & -> & Hb)%list_elem_of_fmap).
      pose proof Hb as Hob. apply Hok' in Hob. apply list_elem_of_lookup in Hb as [j Hj].
      destruct (cursor_key (iter b)) as [k'|] eqn:Ek.
      * pose proof (Hmin j (lookup_lt_Some _ _ _ Hj) b k' Hj Ek) as H1.
        pose proof (view_head_le _ e' k' Hob Hl Ek) as H2. unfold entry_le. order (cmp_le c).
      * rewrite view_key in Ek by done. destruct (view (iter b)); [by apply not_elem_of_nil in Hl|done].
    + destruct (alter_middle (λ a, mkActive (step (iter a)) (file_index a)) _ i a Ha) as (l1 & l2 & El & Ea).
      unfold views. cbn [advance active_iterators_ find_best current_index_]. fold i. rewrite Ea.
      unfold iter_views. rewrite El, !fmap_app, !concat_app. cbn [fmap list_fmap concat iter].
      rewrite Hv, Ev. cbn [tail app]. symmetry. apply Permutation_middle.
Qed.

Lemma advance_ok s : iters_ok s → iters_ok (advance step s).
Proof using Hstep.
  unfold iters_ok, advance. cbn. intros Hok. apply Forall_alter; [done|]. intros a _ Ha. by apply Hstep.
Qed.

Lemma find_best_idem s : find_best better (find_best better s) = find_best better s.
Proof. done. Qed.

(** Stepping to the end visits every remaining entry once, in order. *)
Lemma collect_merge fuel s :
  iters_ok s → find_best better s = s → (length (views s) <= fuel)%nat →
  collect (λ s, find_best better (advance step s)) fuel s ≡ₚ views s ∧
  StronglySorted (entry_le c) (collect (λ s, find_best better (advance step s)) fuel s).
Proof using Hbetter Hhead Hstep Hsorted CompareOk0.
  revert s. induction fuel as [|fuel IH]; intros s Hok Hsel Hf; pose proof (find_best_spec s Hok) as Hs;
    rewrite Hsel in Hs.
  { cbn. destruct (views s); [split; [done|constructor]|cbn in Hf; lia]. }
  cbn [collect]. destruct (current s) as [e|]; [|rewrite Hs; split; [done|constructor]].
  destruct Hs as [Hmin Hp]. destruct (IH (find_best better (advance step s))) as [IHp IHs].
  { apply (advance_ok s Hok). }
  { done. }
  { apply Permutation_length in Hp. cbn [length] in Hp. change (views (find_best better ?x)) with (views x). lia. }
  change (views (find_best better ?x)) with (views x) in IHp. split.
  - rewrite IHp. by rewrite Hp.
  - constructor; [done|]. rewrite IHp. rewrite Hp in Hmin. by apply Forall_cons in Hmin as [_ Hmin].
Qed.
End merge.

(** ** Activation *)

(** Activate, in order, the files that satisfy [P]. *)
Definition activate_where (P : L0FileInfo → bool) (idxs : list nat) (s : Scan) : Scan :=
  foldl (λ s i,
    match l0_files_ s !! i with
    | Some f => if P f then ActivateFile i s else s
    | None => s
    end) s idxs.

Definition opened (i : nat) (f : L0FileInfo) : ActiveIterator :=
  mkActive (mkCursor (file_entries f) None) i.

(** The iterators opened for the files from index [n] on. *)
Fixpoint opened_where (P : L0FileInfo → bool) (n : nat) (fs : list L0FileInfo) : list ActiveIterator :=
  match fs with
  | [] => []
  | f :: fs' => (if P f then [opened n f] else []) ++ opened_where P (S n) fs'
  end.

Lemma set_active_same f b : iterator_active f = b → set_active b f = f.
Proof. intros <-. by destruct f. Qed.

Lemma activate_where_spec P pre post acts cur :
  Forall (λ f, iterator_active f = false) post →
  activate_where P (seq (length pre) (length post)) (mkScan (pre ++ post) acts cur) =
  mkScan (pre ++ ((λ f, set_active (P f) f) <$> post)) (acts ++ opened_where P (length pre) post) cur.
Proof.
  intros Hp. revert pre acts. induction Hp as [|f post Hf _ IH]; intros pre acts.
  { cbn. by rewrite !app_nil_r. }
  cbn [length seq]. unfold activate_where. cbn [foldl l0_files_].
  rewrite (list_lookup_middle pre post f (length pre)) by done.
  assert (Hstep : (if P f then ActivateFile (length pre) (mkScan (pre ++ f :: post) acts cur)
                   else mkScan (pre ++ f :: post) acts cur) =
    mkScan ((pre ++ [set_active (P f) f]) ++ post)
      (acts ++ (if P f then [opened (length pre) f] else [])) cur).
  { rewrite <- app_assoc. destruct (P f).
    - unfold ActivateFile. cbn [l0_files_ active_iterators_ current_index_].
      rewrite (list_lookup_middle pre post f (length pre)), Hf by done.
      rewrite alter_app_r_alt, Nat.sub_diag by lia. done.
    - rewrite app_nil_r. cbn [app]. by rewrite (set_active_same f false). }
  rewrite Hstep. specialize (IH (pre ++ [set_active (P f) f]) (acts ++ (if P f then [opened (length pre) f] else []))).
  rewrite length_app, Nat.add_1_r in IH. unfold activate_where in IH. rewrite IH.
  cbn [fmap list_fmap opened_where]. by rewrite <- !app_assoc.
Qed.

Lemma activate_cleared P fs :
  let s0 := ClearAllIterators fs in
  activate_where P (seq 0 (length (l0_files_ s0))) s0 =
  mkScan ((λ f, set_active (P f) f) <$> l0_files_ s0) (opened_where P 0 (l0_files_ s0)) 0.
Proof.
  intros s0. subst s0. unfold ClearAllIterators. cbn [l0_files_].
  set (post := set_active false <$> l0_files_ fs).
  pose proof (activate_where_spec P [] post [] 0) as H. cbn [app length] in H. apply H.
  apply Forall_fmap, Forall_forall. done.
Qed.

Lemma activate_all_where s : activate_all s = activate_where (λ _, true) (seq 0 (length (l0_files_ s))) s.
Proof.
  unfold activate_all, activate_where. generalize (seq 0 (length (l0_files_ s))). intros idxs.
  revert s. induction idxs as [|i idxs IH]; intros s; cbn [foldl]; [done|]. rewrite IH. f_equal.
  unfold ActivateFile. by destruct (l0_files_ s !! i).
Qed.

Lemma opened_where_tables (f : Cursor → Cursor) (view : Cursor → list entry) P n fs :
  (∀ x, table (f x) = table x) →
  iter_views view ((λ a, mkActive (f (iter a)) (file_index a)) <$> opened_where P n fs) =
  concat ((λ x, if P x then view (f (mkCursor (file_entries x) None)) else []) <$> fs).
Proof.
  intros Hf. unfold iter_views. revert n. induction fs as [|x fs IH]; intros n; [done|].
  cbn [opened_where]. rewrite !fmap_app, concat_app. cbn [fmap list_fmap concat].
  f_equal; [|apply IH]. destruct (P x); cbn; [by rewrite app_nil_r|done].
Qed.

(** ** The two directions *)

Section directions.
Context (C : Comparator) (HC : ComparatorOk C).

Abbreviation icmp := (@InternalKeyCompare C).
Abbreviation ascending := (entry_le icmp).
Abbreviation descending := (entry_le (cmp_flip icmp)).

Lemma key_less_Lt a b : key_less a b = true ↔ icmp a b = Lt.
Proof. unfold key_less. by destruct (icmp a b). Qed.
Lemma key_greater_Gt a b : key_greater a b = true ↔ cmp_flip icmp a b = Lt.
Proof using HC.
  unfold key_greater, cmp_flip. rewrite (cmp_lt_iff icmp). cmp_case (@InternalKeyCompare C) a b; split; try done; intros; order (cmp_le (@InternalKeyCompare C)).
Qed.

(** ** Steps that open no file *)

(** Every file is open, or lies before all keys that satisfy [K]. *)
Definition quiet (K : key → Prop) (s : Scan) : Prop :=
  Forall (λ f, iterator_active f = true ∨
    ∀ k, K k → in_file_range k f = false ∧ key_greater (info_smallest f) k = false) (l0_files_ s).

Lemma maybe_add_quiet K k s : quiet K s → K k → MaybeAddMoreFilesForward k s = s.
Proof.
  intros Hq Hk. unfold MaybeAddMoreFilesForward.
  assert (H : ∀ idxs, foldl (maybe_add k) (s, false) idxs = (s, false)).
  { induction idxs as [|i idxs IH]; cbn [foldl]; [done|]. unfold maybe_add at 2. cbn [fst].
    destruct (l0_files_ s !! i) as [f|] eqn:Ef; [|done].
    apply (Forall_lookup_1 _ _ _ _ Hq) in Ef. destruct (iterator_active f); [done|].
    destruct Ef as [|Ef]; [done|]. by rewrite (proj1 (Ef k Hk)). }
  by rewrite H.
Qed.

Lemma next_file_quiet K k s : quiet K s → K k → next_file k 0 (l0_files_ s) None = None.
Proof.
  unfold quiet. intros Hq Hk. generalize 0%nat. induction Hq as [|f fs Hf _ IH]; intros n; [done|].
  cbn [next_file]. destruct (iterator_active f); [apply IH|]. destruct Hf as [|Hf]; [done|].
  rewrite (proj2 (Hf k Hk)). apply IH.
Qed.

Abbreviation forward := (λ s, FindSmallest (advance cursor_next s)).

Lemma smallest_spec s :
  iters_ok (cursor_ok C) s →
  match current (FindSmallest s) with
  | None => views ahead s = []
  | Some e => Forall (entry_le icmp e) (views ahead s) ∧
      views ahead s ≡ₚ e :: views ahead (advance cursor_next (FindSmallest s))
  end.
Proof using HC.
  apply (find_best_spec icmp key_less key_less_Lt ahead cursor_next (cursor_ok C) (ahead_head C) (ahead_next C) (ahead_sorted C)).
Qed.

Lemma largest_spec s :
  iters_ok (cursor_ok C) s →
  match current (FindLargest s) with
  | None => views behind s = []
  | Some e => Forall (entry_le (cmp_flip icmp) e) (views behind s) ∧
      views behind s ≡ₚ e :: views behind (advance cursor_prev (FindLargest s))
  end.
Proof using HC.
  apply (find_best_spec (cmp_flip icmp) key_greater key_greater_Gt behind cursor_prev (cursor_ok C) (behind_head C)
    (behind_prev C) (behind_sorted C)).
Qed.

Lemma advance_next_ok s : iters_ok (cursor_ok C) s → iters_ok (cursor_ok C) (advance cursor_next s).
Proof. apply (advance_ok ahead cursor_next (cursor_ok C) (ahead_next C)). Qed.

Lemma next_quiet K s e :
  quiet K s → iters_ok (cursor_ok C) s → FindSmallest s = s → current s = Some e →
  Forall (λ e, K e.1) (views ahead s) → Next s = FindSmallest (advance cursor_next s).
Proof using HC.
  intros Hq Hok Hsel He Hv. unfold Next, scan_key. rewrite He. cbn [fmap option_fmap option_map].
  change (default [] (Some e.1)) with e.1.
  pose proof (smallest_spec s Hok) as Hs. rewrite Hsel, He in Hs. destruct Hs as [_ Hp].
  rewrite Hp in Hv. apply Forall_cons in Hv as [Hke Hv].
  pose proof (smallest_spec (advance cursor_next s) (advance_next_ok s Hok)) as Hs1.
  destruct (current (FindSmallest (advance cursor_next s))) as [e1|] eqn:E1.
  - destruct Hs1 as [_ Hp1]. rewrite Hp1 in Hv. apply Forall_cons in Hv as [Hk1 _]. cbn.
    by apply (maybe_add_quiet K).
  - cbn. unfold TryActivateNextFile.
    change (l0_files_ (FindSmallest (advance cursor_next s))) with (l0_files_ s).
    by rewrite (next_file_quiet K).
Qed.

(** A scan that opens no more files visits exactly what its iterators have
    ahead. *)
Lemma collect_quiet K fuel s :
  quiet K s → iters_ok (cursor_ok C) s → FindSmallest s = s → Forall (λ e, K e.1) (views ahead s) →
  (length (views ahead s) <= fuel)%nat →
  collect Next fuel s ≡ₚ views ahead s ∧ StronglySorted ascending (collect Next fuel s).
Proof using HC.
  intros Hq Hok Hsel Hv Hf.
  assert (Heq : collect Next fuel s = collect forward fuel s).
  { clear Hf. revert s Hq Hok Hsel Hv. induction fuel as [|fuel IH]; intros s Hq Hok Hsel Hv; [done|].
    cbn [collect]. destruct (current s) as [e|] eqn:He; [|done]. f_equal.
    rewrite (next_quiet K s e) by done. apply IH; [done|by apply advance_next_ok|done|].
    pose proof (smallest_spec s Hok) as Hs. rewrite Hsel, He in Hs. destruct Hs as [_ Hp].
    rewrite Hp in Hv. by apply Forall_cons in Hv as [_ Hv]. }
  rewrite Heq.
  apply (collect_merge icmp key_less key_less_Lt ahead cursor_next (cursor_ok C) (ahead_head C) (ahead_next C) (ahead_sorted C)
    fuel s Hok Hsel Hf).
Qed.

Lemma collect_backward fuel s :
  iters_ok (cursor_ok C) s → FindLargest s = s → (length (views behind s) <= fuel)%nat →
  collect Prev fuel s ≡ₚ views behind s ∧ StronglySorted descending (collect Prev fuel s).
Proof using HC.
  apply (collect_merge (cmp_flip icmp) key_greater key_greater_Gt behind cursor_prev (cursor_ok C) (behind_head C)
    (behind_prev C) (behind_sorted C)).
Qed.

(** ** Positioning *)

(** A file of the scan: a sorted table within its bounds. *)
Definition info_ok (f : L0FileInfo) : Prop :=
  StronglySorted ascending (file_entries f) ∧ cmp_le icmp (info_smallest f) (info_largest f) ∧
  Forall (λ e, cmp_le icmp (info_smallest f) e.1 ∧ cmp_le icmp e.1 (info_largest f)) (file_entries f).

(** ** Whole scans *)

Definition all_entries (s : Scan) : list entry := concat (file_entries <$> l0_files_ s).

(** The state reached by opening the files that satisfy [P] and positioning
    each iterator with [f]. *)
Definition opened_at (P : L0FileInfo → bool) (f : Cursor → Cursor) (s : Scan) : Scan :=
  map_iters f (mkScan ((λ x, set_active (P x) x) <$> l0_files_ (ClearAllIterators s))
                 (opened_where P 0 (l0_files_ (ClearAllIterators s))) 0).

Lemma seek_opened t s : Seek t s = FindSmallest (opened_at (in_file_range t) (cursor_seek t) s).
Proof.
  unfold Seek, opened_at. change (AddOverlappingFiles t ?x) with
    (activate_where (in_file_range t) (seq 0 (length (l0_files_ x))) x). by rewrite activate_cleared.
Qed.
Lemma first_opened s : SeekToFirst s = FindSmallest (opened_at (λ _, true) cursor_first s).
Proof. unfold SeekToFirst, opened_at. by rewrite activate_all_where, activate_cleared. Qed.
Lemma last_opened s : SeekToLast s = FindLargest (opened_at (λ _, true) cursor_last s).
Proof. unfold SeekToLast, opened_at. by rewrite activate_all_where, activate_cleared. Qed.

Lemma opened_at_views view P f s :
  (∀ x, table (f x) = table x) → (∀ x, P (set_active false x) = P x) →
  views view (opened_at P f s) =
  concat ((λ x, if P x then view (f (mkCursor (file_entries x) None)) else []) <$> l0_files_ s).
Proof.
  intros Hf HP. unfold views, opened_at. cbn [map_iters active_iterators_].
  rewrite opened_where_tables by done. cbn [ClearAllIterators l0_files_]. rewrite <- list_fmap_compose.
  f_equal. apply list_fmap_ext. intros _ x _. cbn. by rewrite HP.
Qed.

Lemma opened_where_ok (Q : Cursor → Prop) P f n fs :
  Forall (λ x, Q (f (mkCursor (file_entries x) None))) fs →
  Forall (λ a, Q (iter a)) ((λ a, mkActive (f (iter a)) (file_index a)) <$> opened_where P n fs).
Proof.
  intros Hfs. revert n. induction Hfs as [|x fs Hx _ IH]; intros n; [constructor|].
  cbn [opened_where]. rewrite fmap_app. apply Forall_app. split; [|apply IH].
  destruct (P x); repeat constructor. done.
Qed.

Lemma opened_at_ok P f s :
  (∀ l, StronglySorted ascending l → cursor_ok C (f (mkCursor l None))) →
  Forall info_ok (l0_files_ s) → iters_ok (cursor_ok C) (opened_at P f s).
Proof.
  intros Hf Hs. unfold iters_ok, opened_at. cbn [map_iters active_iterators_].
  apply opened_where_ok. cbn [ClearAllIterators l0_files_]. apply Forall_fmap.
  eapply Forall_impl; [exact Hs|]. intros x [Hx _]. cbn. by apply Hf.
Qed.

(** A scan from the first key, or from the last one backwards, visits every
    entry of every file once, in order. *)
Lemma full_scan s :
  Forall info_ok (l0_files_ s) →
  let n := length (all_entries s) in
  (collect Next n (SeekToFirst s) ≡ₚ all_entries s ∧
   StronglySorted ascending (collect Next n (SeekToFirst s))) ∧
  (collect Prev n (SeekToLast s) ≡ₚ all_entries s ∧
   StronglySorted descending (collect Prev n (SeekToLast s))).
Proof using HC.
  intros Hs n. rewrite first_opened, last_opened. split.
  - assert (Hv : views ahead (opened_at (λ _, true) cursor_first s) = all_entries s).
    { rewrite opened_at_views by done. unfold all_entries. f_equal. apply list_fmap_ext. intros _ x _.
      apply (ahead_first C). }
    rewrite <- Hv. apply (collect_quiet (λ _, True) n (FindSmallest (opened_at (λ _, true) cursor_first s))); [|apply opened_at_ok; [apply (ahead_first C)|done]|done|by apply Forall_true|
      change (views ahead (FindSmallest ?x)) with (views ahead x); by rewrite Hv].
    unfold quiet. cbn. apply Forall_fmap, Forall_true. by left.
  - assert (Hv : views behind (opened_at (λ _, true) cursor_last s) ≡ₚ all_entries s).
    { rewrite opened_at_views by done. unfold all_entries. induction (l0_files_ s) as [|x fs IH]; [done|].
      cbn [fmap list_fmap concat]. rewrite (proj1 (behind_last C _)), reverse_Permutation.
      f_equiv. apply IH. by apply Forall_cons in Hs as [_ Hs]. }
    rewrite <- Hv. apply (collect_backward n (FindLargest (opened_at (λ _, true) cursor_last s)));
      [apply opened_at_ok; [apply (behind_last C)|done]|done|].
    apply Permutation_length in Hv. change (views behind (FindLargest ?x)) with (views behind x). lia.
Qed.

(** No file starts after the target. *)
Definition covering (t : key) (s : Scan) : Prop :=
  Forall (λ f, cmp_le icmp t (info_largest f) → cmp_le icmp (info_smallest f) t) (l0_files_ s).

Lemma in_file_range_iff k f :
  in_file_range k f = true ↔ cmp_le icmp (info_smallest f) k ∧ cmp_le icmp k (info_largest f).
Proof using HC.
  unfold in_file_range. rewrite andb_true_iff, !negb_true_iff, <- !not_true_iff_false, key_less_Lt, key_greater_Gt.
  unfold cmp_flip. rewrite !(cmp_lt_iff icmp). destruct (decide (cmp_le icmp k (info_largest f))), (decide (cmp_le icmp (info_smallest f) k)); tauto.
Qed.

Lemma seek_scan t s :
  Forall info_ok (l0_files_ s) → covering t s →
  let n := length (all_entries s) in
  collect Next n (Seek t s) ≡ₚ filter (at_or_after C t) (all_entries s) ∧
  StronglySorted ascending (collect Next n (Seek t s)).
Proof using HC.
  intros Hs Hc n. rewrite seek_opened.
  assert (Hv : views ahead (opened_at (in_file_range t) (cursor_seek t) s) = filter (at_or_after C t) (all_entries s)).
  { rewrite opened_at_views by done. unfold all_entries. clear n. unfold covering in Hc.
    induction Hs as [|x fs (Hx & _ & Hb) _ IH]; [done|]. apply Forall_cons in Hc as [Hcx Hc].
    cbn [fmap list_fmap concat]. rewrite filter_app. f_equal; [|by apply IH].
    destruct (in_file_range t x) eqn:E; [by apply (ahead_seek C HC)|].
    rewrite <- not_true_iff_false, in_file_range_iff in E. symmetry. apply filter_none.
    eapply Forall_impl; [exact Hb|]. unfold at_or_after. intros e [H1 H2] H3. apply E.
    assert (cmp_le icmp t (info_largest x)) by order (cmp_le (@InternalKeyCompare C)). auto. }
  rewrite <- Hv. apply (collect_quiet (cmp_le icmp t) n
    (FindSmallest (opened_at (in_file_range t) (cursor_seek t) s))); [|apply opened_at_ok; [apply (ahead_seek C HC)|done]|done| |].
  - unfold quiet. cbn. rewrite !Forall_fmap. eapply Forall_impl; [apply Forall_and; exact (conj Hs Hc)|].
    intros x [(_ & Hle & _) Hcx]. cbn. destruct (in_file_range t x) eqn:E; [by left|right].
    rewrite <- not_true_iff_false, in_file_range_iff in E. intros k Hk.
    assert (Hlt : ¬ cmp_le icmp t (info_largest x)) by tauto.
    split; apply not_true_iff_false.
    + rewrite in_file_range_iff. cbn. intros [H1 H2]. order (cmp_le (@InternalKeyCompare C)).
    + rewrite key_greater_Gt. unfold cmp_flip. rewrite (cmp_lt_iff icmp). cbn. intros Hx.
      order (cmp_le (@InternalKeyCompare C)).
  - change (views ahead (FindSmallest ?x)) with (views ahead x). rewrite Hv.
    apply Forall_forall. intros e He. by apply list_elem_of_filter in He as [He _].
  - change (views ahead (FindSmallest ?x)) with (views ahead x). rewrite Hv. apply length_filter.
Qed.

(** ** Scans that open files on the way *)

(** Every iterator is at keys not smaller than [k]. *)
Definition lower (k : key) (s : Scan) : Prop := Forall (at_or_after C k) (views ahead s).

(** What a scan can still visit: the entries ahead of its iterators, and the
    files it has not opened. *)
Definition unopened (s : Scan) : list entry :=
  concat (file_entries <$> filter (λ f, iterator_active f = false) (l0_files_ s)).
Definition pending (s : Scan) : list entry := views ahead s ++ unopened s.

Record scan_inv (s : Scan) : Prop := {
  si_iters : iters_ok (cursor_ok C) s;
  si_files : Forall info_ok (l0_files_ s);
}.

(** Opening one more file and positioning its iterator: the views gain the
    view of that iterator. *)
Lemma activate_views f i x s :
  l0_files_ s !! i = Some x → iterator_active x = false →
  let s' := map_last_iter f (ActivateFile i s) in
  active_iterators_ s' = active_iterators_ s ++ [mkActive (f (mkCursor (file_entries x) None)) i] ∧
  l0_files_ s' = alter (set_active true) i (l0_files_ s).
Proof.
  intros Hi Hx. unfold ActivateFile. rewrite Hi, Hx. cbn. split; [|done].
  rewrite length_app, Nat.add_1_r. cbn. rewrite Nat.sub_0_r. rewrite alter_app_r_alt, Nat.sub_diag by lia. done.
Qed.

Lemma open_ok f i x k s :
  l0_files_ s !! i = Some x → iterator_active x = false →
  let c := f (mkCursor (file_entries x) None) in
  cursor_ok C c → ahead c ⊆+ file_entries x → Forall (at_or_after C k) (ahead c) →
  scan_inv s → lower k s →
  scan_inv (map_last_iter f (ActivateFile i s)) ∧ lower k (map_last_iter f (ActivateFile i s)) ∧
  pending (map_last_iter f (ActivateFile i s)) ⊆+ pending s.
Proof.
  intros Hi Hx c Hc Hsub Hk [H1 H2] Hlow. destruct (activate_views f i x s Hi Hx) as [Ha Hf].
  assert (Hv : views ahead (map_last_iter f (ActivateFile i s)) = views ahead s ++ ahead c).
  { unfold views, iter_views. rewrite Ha, fmap_app, concat_app. cbn. by rewrite app_nil_r. }
  split; [constructor|split].
  - unfold iters_ok. rewrite Ha. apply Forall_app. split; [done|]. by apply Forall_singleton.
  - rewrite Hf. apply Forall_alter; [done|]. intros y _ Hy. exact Hy.
  - unfold lower. rewrite Hv. by apply Forall_app.
  - unfold pending. rewrite Hv, <- app_assoc. apply submseteq_skips_l. unfold unopened. rewrite Hf.
    destruct (alter_middle (set_active true) _ i x Hi) as (l1 & l2 & -> & ->).
    rewrite !filter_app, !fmap_app, !concat_app.
    rewrite (filter_cons_False _ (set_active true x)), (filter_cons_True _ x) by done.
    cbn [fmap list_fmap concat]. rewrite (Permutation_app_comm _ (file_entries x ++ _)), <- app_assoc.
    apply submseteq_app; [done|]. by rewrite Permutation_app_comm.
Qed.

Lemma seek_open_ok k l :
  StronglySorted ascending l →
  cursor_ok C (cursor_seek k (mkCursor l None)) ∧ ahead (cursor_seek k (mkCursor l None)) ⊆+ l ∧
  Forall (at_or_after C k) (ahead (cursor_seek k (mkCursor l None))).
Proof using HC.
  intros Hl. destruct (ahead_seek C HC k l Hl) as [-> Hok]. split; [done|]. split.
  - apply sublist_submseteq, sublist_filter.
  - apply Forall_forall. intros e He. by apply list_elem_of_filter in He as [He _].
Qed.

Lemma find_smallest_inv k s :
  scan_inv s → lower k s →
  scan_inv (FindSmallest s) ∧ lower k (FindSmallest s) ∧ pending (FindSmallest s) = pending s.
Proof. intros [H1 H2] Hl. by split_and!. Qed.

Lemma more_files_inv k s :
  scan_inv s → lower k s → FindSmallest s = s →
  let s' := MaybeAddMoreFilesForward k s in
  scan_inv s' ∧ lower k s' ∧ pending s' ⊆+ pending s ∧ FindSmallest s' = s'.
Proof using HC.
  intros Hs Hl Hsel. unfold MaybeAddMoreFilesForward.
  assert (H : ∀ idxs s b, scan_inv s → lower k s →
    let r := foldl (maybe_add k) (s, b) idxs in
    scan_inv r.1 ∧ lower k r.1 ∧ pending r.1 ⊆+ pending s ∧ (r.2 = true ∨ r = (s, b))).
  { clear s Hs Hl Hsel. induction idxs as [|i idxs IH]; intros s b Hs Hl; cbn [foldl]; [by auto|].
    unfold maybe_add at 2 4 6 8 10. cbn [fst].
    destruct (l0_files_ s !! i) as [x|] eqn:Ei; [|by apply IH].
    destruct (iterator_active x) eqn:Ex; [by apply IH|]. destruct (in_file_range k x); [|by apply IH].
    pose proof (Forall_lookup_1 _ _ _ _ (si_files s Hs) Ei) as (Hx & _).
    destruct (seek_open_ok k _ Hx) as (S1 & S2 & S3).
    destruct (open_ok (cursor_seek k) i x k s Ei Ex S1 S2 S3 Hs Hl) as (O1 & O2 & O3).
    destruct (IH _ true O1 O2) as (I1 & I2 & I3 & I4). split_and!; [done|done|by etrans|].
    left. destruct I4 as [I4|I4]; [done|]. by rewrite I4. }
  specialize (H (seq 0 (length (l0_files_ s))) s false Hs Hl).
  destruct (foldl _ _ _) as [s' b]. cbn in H. destruct H as (H1 & H2 & H3 & H4).
  destruct b; [destruct (find_smallest_inv k s' H1 H2) as (? & ? & E); by rewrite E|].
  destruct H4 as [|[= ->]]; done.
Qed.

Lemma next_file_spec last_key n fs best i k :
  next_file last_key n fs best = Some (i, k) →
  best = Some (i, k) ∨
  ∃ x, fs !! (i - n)%nat = Some x ∧ (n <= i)%nat ∧ iterator_active x = false ∧
    key_greater (info_smallest x) last_key = true.
Proof.
  revert n best. induction fs as [|f fs IH]; intros n best; cbn [next_file]; [by left|].
  assert (Hrest : ∀ b, next_file last_key (S n) fs b = Some (i, k) →
    b = Some (i, k) ∨ ∃ x, (f :: fs) !! (i - n)%nat = Some x ∧ (n <= i)%nat ∧ iterator_active x = false ∧
      key_greater (info_smallest x) last_key = true).
  { intros b [Hb|(x & Hx & Hn & Hr)]%IH; [by left|]. right. exists x.
    replace (i - n)%nat with (S (i - S n)) by lia. split_and!; [done|lia|apply Hr..]. }
  destruct (iterator_active f) eqn:Ef; [apply Hrest|]. destruct (_ && _) eqn:E; [|apply Hrest].
  intros [[= <- _]|H]%Hrest; right; [|done]. apply andb_true_iff in E as [E _].
  exists f. rewrite Nat.sub_diag. done.
Qed.

Lemma lower_weaken k k' s : cmp_le icmp k k' → lower k' s → lower k s.
Proof using HC.
  intros Hk Hl. eapply Forall_impl; [exact Hl|]. unfold at_or_after. intros e He. order (cmp_le (@InternalKeyCompare C)).
Qed.

(** From a selected state, a file entered at [k]: nothing before [k] is read. *)
Lemma enter_inv k s :
  scan_inv s → lower k s → FindSmallest s = s →
  let s' := match scan_key s with Some k' => MaybeAddMoreFilesForward k' s | None => s end in
  scan_inv s' ∧ lower k s' ∧ pending s' ⊆+ pending s ∧ FindSmallest s' = s'.
Proof using HC.
  intros Hs Hl Hsel. unfold scan_key. pose proof (smallest_spec s (si_iters s Hs)) as Hmin.
  rewrite Hsel in Hmin. destruct (current s) as [e|]; cbn; [|done]. destruct Hmin as [Hmin Hp].
  destruct (more_files_inv e.1 s Hs Hmin Hsel) as (M1 & M2 & M3 & M4). split_and!; [done| |done..].
  apply (lower_weaken k e.1); [|done]. unfold lower in Hl. rewrite Hp in Hl. by apply Forall_cons in Hl as [Hl _].
Qed.

Lemma try_next_inv k s :
  scan_inv s → lower k s → FindSmallest s = s →
  let s' := TryActivateNextFile k s in
  scan_inv s' ∧ lower k s' ∧ pending s' ⊆+ pending s ∧ FindSmallest s' = s'.
Proof using HC.
  intros Hs Hl Hsel. unfold TryActivateNextFile.
  destruct (next_file k 0 (l0_files_ s) None) as [[i k']|] eqn:En; [|done].
  apply next_file_spec in En as [|(x & Hx & _ & Ha & Hg)]; [done|]. rewrite Nat.sub_0_r in Hx.
  apply key_greater_Gt in Hg. unfold cmp_flip in Hg. rewrite (cmp_lt_iff icmp) in Hg.
  pose proof (Forall_lookup_1 _ _ _ _ (si_files s Hs) Hx) as (Hxs & _ & Hxb).
  destruct (ahead_first C (file_entries x)) as [Hv Hok].
  destruct (open_ok cursor_first i x k s Hx Ha) as (O1 & O2 & O3); [by apply Hok|by rewrite Hv| |done|done|].
  { rewrite Hv. eapply Forall_impl; [exact Hxb|]. unfold at_or_after. intros y [Hy _].
    order (cmp_le (@InternalKeyCompare C)). }
  destruct (find_smallest_inv _ _ O1 O2) as (F1 & F2 & F3). rewrite <- F3 in O3.
  destruct (enter_inv k _ F1 F2 eq_refl) as (G1 & G2 & G3 & G4).
  split_and!; [done|done|by etrans|done].
Qed.

Lemma next_inv s e :
  scan_inv s → FindSmallest s = s → current s = Some e →
  scan_inv (Next s) ∧ lower e.1 (Next s) ∧ e :: pending (Next s) ⊆+ pending s ∧
  FindSmallest (Next s) = Next s.
Proof using HC.
  intros Hs Hsel He. pose proof (smallest_spec s (si_iters s Hs)) as Hmin. rewrite Hsel, He in Hmin.
  destruct Hmin as [Hmin Hp]. rewrite Hp in Hmin. apply Forall_cons in Hmin as [_ Hmin].
  set (s1 := FindSmallest (advance cursor_next s)).
  assert (H1 : scan_inv s1).
  { destruct Hs as [I1 I2]. constructor; [by apply advance_next_ok|done]. }
  assert (E1 : pending s ≡ₚ e :: pending s1) by (unfold pending; by rewrite Hp).
  assert (EN : Next s = match scan_key s1 with
    | Some k => MaybeAddMoreFilesForward k s1 | None => TryActivateNextFile e.1 s1 end).
  { unfold Next. fold s1. unfold scan_key at 2. by rewrite He. }
  assert (H : scan_inv (Next s) ∧ lower e.1 (Next s) ∧ pending (Next s) ⊆+ pending s1 ∧
    FindSmallest (Next s) = Next s).
  { rewrite EN. pose proof (enter_inv e.1 s1 H1 Hmin eq_refl) as Hen.
    destruct (scan_key s1); [done|]. by apply try_next_inv. }
  destruct H as (N1 & N2 & N3 & N4). split_and!; [done|done| |done].
  rewrite E1. by apply submseteq_skip.
Qed.

Lemma current_pending s e :
  scan_inv s → FindSmallest s = s → current s = Some e → e ∈ views ahead s.
Proof using HC.
  intros Hs Hsel He. pose proof (smallest_spec s (si_iters s Hs)) as Hmin. rewrite Hsel, He in Hmin.
  destruct Hmin as [_ ->]. apply list_elem_of_here.
Qed.

Lemma collect_sound fuel k s :
  scan_inv s → FindSmallest s = s → lower k s →
  collect Next fuel s ⊆+ pending s ∧ StronglySorted ascending (collect Next fuel s) ∧
  Forall (at_or_after C k) (collect Next fuel s).
Proof using HC.
  revert k s. induction fuel as [|fuel IH]; intros k s Hs Hsel Hl; cbn [collect].
  { split_and!; [apply submseteq_nil_l|constructor..]. }
  destruct (current s) as [e|] eqn:He; [|split_and!; [apply submseteq_nil_l|constructor..]].
  destruct (next_inv s e Hs Hsel He) as (N1 & N2 & N3 & N4).
  destruct (IH e.1 _ N1 N4 N2) as (IHp & IHs & IHf).
  assert (Hke : at_or_after C k e).
  { unfold lower in Hl. rewrite Forall_forall in Hl. by apply Hl, current_pending. }
  split_and!.
  - etrans; [|exact N3]. by apply submseteq_skip.
  - by constructor.
  - constructor; [done|]. eapply Forall_impl; [exact IHf|]. unfold at_or_after in *. intros y Hy.
    order (cmp_le (@InternalKeyCompare C)).
Qed.

(** The scan ends: more fuel than there are pending entries adds nothing. *)
Lemma collect_ends n m s :
  scan_inv s → FindSmallest s = s → (length (pending s) <= n)%nat →
  collect Next (n + m) s = collect Next n s.
Proof using HC.
  revert s. induction n as [|n IH]; intros s Hs Hsel Hn.
  - destruct m as [|m]; [done|]. cbn [collect Nat.add]. destruct (current s) as [e|] eqn:He; [|done].
    apply current_pending in He; [|done..]. unfold pending in Hn. rewrite length_app in Hn.
    destruct (views ahead s); [by apply not_elem_of_nil in He|cbn in Hn; lia].
  - cbn [collect Nat.add]. destruct (current s) as [e|] eqn:He; [|done]. f_equal.
    destruct (next_inv s e Hs Hsel He) as (N1 & _ & N3 & N4). apply IH; [done|done|].
    apply submseteq_length in N3. cbn in N3. lia.
Qed.

Lemma seek_inv t s :
  Forall info_ok (l0_files_ s) →
  scan_inv (Seek t s) ∧ lower t (Seek t s) ∧ pending (Seek t s) ⊆+ all_entries s.
Proof using HC.
  intros Hs. rewrite seek_opened. set (s1 := opened_at (in_file_range t) (cursor_seek t) s).
  assert (Hv : views ahead s1 =
    concat ((λ x, if in_file_range t x then filter (at_or_after C t) (file_entries x) else []) <$> l0_files_ s)).
  { unfold s1. rewrite opened_at_views by done. f_equal. apply list_fmap_ext. intros i x Hx.
    apply (Forall_lookup_1 _ _ _ _ Hs) in Hx as [Hx _]. destruct (in_file_range t x); [|done].
    by apply (ahead_seek C HC). }
  assert (H1 : scan_inv s1).
  { split; [apply opened_at_ok; [apply (ahead_seek C HC)|done]|]. unfold s1, opened_at. cbn.
    rewrite !Forall_fmap. exact Hs. }
  assert (Hl : lower t s1).
  { unfold lower. rewrite Hv. apply Forall_concat, Forall_fmap, Forall_true. intros x. cbn.
    destruct (in_file_range t x); [|constructor]. apply Forall_forall. intros e He.
    by apply list_elem_of_filter in He as [He _]. }
  destruct (find_smallest_inv t s1 H1 Hl) as (F1 & F2 & F3). split_and!; [done|done|]. rewrite F3.
  unfold pending. rewrite Hv. clear. unfold unopened, s1, opened_at, all_entries, ClearAllIterators. cbn [map_iters l0_files_].
  induction (l0_files_ s) as [|x fs IH]; [done|]. cbn [fmap list_fmap concat].
  rewrite filter_cons. cbn. change (in_file_range t (set_active false x)) with (in_file_range t x).
  destruct (in_file_range t x); cbn [fmap list_fmap concat].
  - rewrite decide_False by done. rewrite <- app_assoc. apply submseteq_app; [|done].
    apply sublist_submseteq, sublist_filter.
  - rewrite decide_True by done. cbn [fmap list_fmap concat app set_active file_entries].
    rewrite app_assoc, (Permutation_app_comm _ (file_entries x)), <- app_assoc. by apply submseteq_app.
Qed.
End directions.

(** ** Properties *)

(** C11. A scan started with [SeekToFirst] and moved with [Next] until it is
    invalid reads every entry of every level-0 file exactly once, in
    ascending internal-key order; started with [SeekToLast] and moved with
    [Prev] it reads them all in descending order. *)
Theorem range_scan_full (C : Comparator) (s : Scan) :
  ComparatorOk C → Forall (info_ok C) (l0_files_ s) →
  let n := length (all_entries s) in
  (collect Next n (SeekToFirst s) ≡ₚ all_entries s ∧
   StronglySorted (entry_le InternalKeyCompare) (collect Next n (SeekToFirst s))) ∧
  (collect Prev n (SeekToLast s) ≡ₚ all_entries s ∧
   StronglySorted (entry_le (cmp_flip InternalKeyCompare)) (collect Prev n (SeekToLast s))).
Proof. intros HC. by apply full_scan. Qed.

(** A scan started with [Seek] at a target that no file lies entirely
    after reads exactly the entries at or after the target, in order: the
    files that end before the target are never opened and nothing is lost. *)
Theorem range_scan_seek (C : Comparator) (t : key) (s : Scan) :
  ComparatorOk C → Forall (info_ok C) (l0_files_ s) → covering C t s →
  let n := length (all_entries s) in
  collect Next n (Seek t s) ≡ₚ filter (at_or_after C t) (all_entries s) ∧
  StronglySorted (entry_le InternalKeyCompare) (collect Next n (Seek t s)).
Proof. intros HC. by apply seek_scan. Qed.

(** Whatever the layout of the files, a scan started with [Seek] ends
    after at most as many steps as there are entries, and what it reads,
    through all the files it opens on the way, is in ascending order, not
    before the target, and reads no entry more often than the files hold it. *)
Theorem range_scan_sound (C : Comparator) (t : key) (s : Scan) (more : nat) :
  ComparatorOk C → Forall (info_ok C) (l0_files_ s) →
  let n := length (all_entries s) in
  collect Next (n + more) (Seek t s) = collect Next n (Seek t s) ∧
  collect Next n (Seek t s) ⊆+ all_entries s ∧
  StronglySorted (entry_le InternalKeyCompare) (collect Next n (Seek t s)) ∧
  Forall (at_or_after C t) (collect Next n (Seek t s)).
Proof.
  intros HC Hs n. destruct (seek_inv C HC t s Hs) as (H1 & H2 & H3).
  destruct (collect_sound C HC n t (Seek t s) H1 eq_refl H2) as (S1 & S2 & S3). split_and!; [|by etrans|done..].
  apply (collect_ends C HC); [done|done|by apply submseteq_length].
Qed.

(** ** Concrete scans *)

#[local] Existing Instance BytewiseComparator.

Definition ikey_at (b : byte) : key := InternalKey [b] 5 kTypeValue.
Definition ientry (b : byte) : entry := (ikey_at b, [b]).
Definition ifile (bs : list byte) : L0FileInfo :=
  mkInfo (ientry <$> bs) (ikey_at (hd x00 bs)) (ikey_at (List.last bs x00)) false.

(** [ab], [ad] and [ac]: all files reach back to the first key of the scan. *)
Definition sample_scan : Scan := mkScan [ifile [x61; x62]; ifile [x61; x64]; ifile [x61; x63]] [] 0.

(** [az] with [m] in between: the scan passes over the second file. *)
Definition gap_scan : Scan := mkScan [ifile [x61; x7a]; ifile [x6d]] [] 0.

Ltac concrete_order := repeat constructor; vm_compute; congruence.

Lemma sample_scan_ok : Forall (info_ok BytewiseComparator) (l0_files_ sample_scan).
Proof. concrete_order. Qed.
Lemma gap_scan_ok : Forall (info_ok BytewiseComparator) (l0_files_ gap_scan).
Proof. concrete_order. Qed.

Lemma range_scan_full_witness :
  collect Next 6 (SeekToFirst sample_scan) ≡ₚ all_entries sample_scan.
Proof. apply (range_scan_full BytewiseComparator sample_scan bytewise_ok sample_scan_ok). Defined.

Lemma range_scan_seek_witness :
  collect Next 6 (Seek (ikey_at x61) sample_scan) ≡ₚ
  filter (at_or_after BytewiseComparator (ikey_at x61)) (all_entries sample_scan).
Proof.
  apply (range_scan_seek BytewiseComparator (ikey_at x61) sample_scan bytewise_ok sample_scan_ok).
  unfold covering. concrete_order.
Defined.

Lemma range_scan_sound_witness :
  collect Next (3 + 4) (Seek (ikey_at x61) gap_scan) = collect Next 3 (Seek (ikey_at x61) gap_scan).
Proof. apply (range_scan_sound BytewiseComparator (ikey_at x61) gap_scan 4 bytewise_ok gap_scan_ok). Defined.

