(* ===== verification/BuildTable.v ===== *)
(** * Writing one table file

    Models [BuildTable] of [src/db/builder.cc], with [OutputValidator] of
    [src/db/output_validator.cc] and the packed values of
    [src/db/seqno_to_time_mapping.cc].  The compaction iterator that drops
    shadowed entries, the table builder, the blob file builder and the file
    system are parameters, the fields of [BuildEnv]. *)

From S2P Require Import Prelude Coding BlobIndex Comparator DbFormat ManifestRecords FileMeta TableIterator.

(** ** Values packed with a write time or a sequence number *)

Definition PackValueAndWriteTime (value : list byte) (unix_write_time : Z) : list byte :=
  PutFixed64 value unix_write_time.
Definition PackValueAndSeqno (value : list byte) (seqno : Z) : list byte := PutFixed64 value seqno.

Definition packed_number (value : list byte) : Z :=
  DecodeFixed64 (drop (length value - 8) value).
Definition ParsePackedValueForValue (value : list byte) : list byte := take (length value - 8) value.
Definition ParsePackedValueForWriteTime (value : list byte) : Z := packed_number value.
Definition ParsePackedValueWithWriteTime (value : list byte) : list byte * Z :=
  (ParsePackedValueForValue value, ParsePackedValueForWriteTime value).
Definition ParsePackedValueForSeqno (value : list byte) : Z := packed_number value.
Definition ParsePackedValueWithSeqno (value : list byte) : list byte * Z :=
  (ParsePackedValueForValue value, ParsePackedValueForSeqno value).

(** ** Validation of the output *)

(** [OutputValidator::Add] as a step on [prev_key_]; [None] is the corruption
    error.  The hash is only compared with the file read back. *)
Definition OutputValidator_Add `{Comparator} (k prev_key : key) : option key :=
  if (length k <? kNumInternalBytes)%nat then None
  else if negb (length prev_key =? 0)%nat &&
          match InternalKeyCompare k prev_key with Lt => true | _ => false end
  then None else Some k.

(** ** Range tombstones *)

Record RangeTombstone := mkTombstone {
  start_key_ : key;
  end_key_ : key;
  seq_ : Z;
}.

Definition SerializeTombstone (t : RangeTombstone) : entry :=
  (InternalKey (start_key_ t) (seq_ t) kTypeRangeDeletion, end_key_ t).
Definition SerializeEndKey (t : RangeTombstone) : key :=
  InternalKey (end_key_ t) kMaxSequenceNumber kTypeRangeDeletion.

(** ** The table builder and its environment *)

Record TableInfo := mkTableInfo {
  ti_FileSize : Z;
  ti_GetTailSize : Z;
  ti_NeedCompact : bool;
}.

Class BuildEnv := {
  (* false for a compaction filter that does not ignore snapshots *)
  compaction_filter_supported : bool;
  (* what the compaction iterator yields for its input, and its final status *)
  compaction_iterator : list entry → list entry * bool;
  (* [seqno_to_time_mapping->GetProximalSeqnoBeforeTime], when there is a mapping *)
  GetProximalSeqnoBeforeTime : option (Z → Z);
  (* file operations, by file number *)
  NewWritableFile_ok : Z → bool;
  Close_ok : Z → bool;
  GetFileChecksum : Z → list byte;
  GetFileChecksumFuncName : Z → list byte;
  (* [builder->Finish()] after adding these records *)
  builder_Finish : list entry → option TableInfo;
  (* [None] without a database id or session id *)
  GetSstInternalUniqueId : option (Z → option (Z * Z));
  (* the blob files written for the input; [None] when that fails *)
  blob_file_builder : list entry → option (list BlobFileAddition);
  (* the file opened, and read back under [paranoid_file_checks] *)
  output_validation_ok : Z → bool;
  ApproximateSize : key → key → Z;
  persist_user_defined_timestamps : bool;
}.

(** ** BuildTable *)

Record BuildResult := mkBuilt {
  built_meta : FileMetaData;
  built_records : list entry;  (* the contents of the table *)
  built_blobs : list BlobFileAddition;
  built_to_sync : list Z;  (* the files left to the caller to sync *)
}.

Section build.
Context `{Comparator} {E : BuildEnv}.

(** The record written for an output of the compaction iterator, with its
    value type. *)
Definition after_flush (e : entry) : entry * Z :=
  let '(k, v) := e in
  let t := ExtractValueType k in
  let seq := GetInternalKeySeqno k in
  if t =? kTypeValuePreferredSeqno then
    let '(unpacked_value, unix_write_time) := ParsePackedValueWithWriteTime v in
    let preferred_seqno :=
      match GetProximalSeqnoBeforeTime with
      | Some f => f unix_write_time
      | None => kMaxSequenceNumber
      end in
    if preferred_seqno <? seq then ((k, PackValueAndSeqno unpacked_value preferred_seqno), t)
    else ((UpdateInternalKey k seq kTypeValue, ParsePackedValueForValue v), kTypeValue)
  else (e, t).

(** The loop over the compaction iterator. *)
Fixpoint build_loop (outputs : list entry) (prev_key : key) (meta : FileMetaData)
    (records : list entry) : option (list entry * FileMetaData) :=
  match outputs with
  | [] => Some (records, meta)
  | o :: outputs' =>
      let '(r, t) := after_flush o in
      prev ← OutputValidator_Add r.1 prev_key;
      meta' ← UpdateBoundaries r.1 r.2 (GetInternalKeySeqno o.1) t meta;
      build_loop outputs' prev meta' (records ++ [r])
  end.

(** The loop over the range tombstones; [last] is the start of the previous
    one. *)
Definition tombstone_step (st : list entry * FileMetaData * key) (t : RangeTombstone)
    : list entry * FileMetaData * key :=
  let '(records, meta, last) := st in
  let kv := SerializeTombstone t in
  let tombstone_end := SerializeEndKey t in
  let meta' := UpdateBoundariesForRange kv.1 tombstone_end (seq_ t) meta in
  let meta'' :=
    if (length last =? 0)%nat ||
       match CompareWithoutTimestamp last true (start_key_ t) true with Lt => true | _ => false end
    then meta' <| compensated_range_deletion_size :=
           compensated_range_deletion_size meta' +64 ApproximateSize kv.1 tombstone_end |>
    else meta' in
  (records ++ [kv], meta'', start_key_ t).

(** What is known of a finished, non-empty file. *)
Definition finish_meta (info : TableInfo) (meta : FileMetaData) : FileMetaData :=
  let m1 := meta <| file_size := ti_FileSize info |> in
  let m2 := m1 <| tail_size := ti_GetTailSize info |> in
  let m3 := m2 <| marked_for_compaction := ti_NeedCompact info |> in
  m3 <| user_defined_timestamps_persisted := persist_user_defined_timestamps |>.

Definition close_meta (meta : FileMetaData) : FileMetaData :=
  let m1 := meta <| file_checksum := GetFileChecksum (GetNumber meta) |> in
  let m2 := m1 <| file_checksum_func_name := GetFileChecksumFuncName (GetNumber meta) |> in
  match GetSstInternalUniqueId with
  | Some f => m2 <| unique_id := default kNullUniqueId64x2 (f (GetNumber meta)) |>
  | None => m2
  end.

(** The file written when there is anything to write; [None] is an error
    status, and the file is then deleted. *)
Definition write_table (input : list entry) (tombstones : list RangeTombstone) (meta : FileMetaData)
    (skip_sync : bool) : option BuildResult :=
  let number := GetNumber meta in
  if negb compaction_filter_supported then None else
  if negb (NewWritableFile_ok number) then None else
  let '(outputs, c_iter_ok) := compaction_iterator input in
  '(records, meta1) ← build_loop outputs [] meta [];
  if negb c_iter_ok then None else
  let '(records2, meta2, _) := foldl tombstone_step (records, meta1, []) tombstones in
  if (length records2 =? 0)%nat then
    blobs ← blob_file_builder input;
    Some (mkBuilt meta2 [] blobs [])
  else
    info ← builder_Finish records2;
    if negb (Close_ok number) then None else
    blobs ← blob_file_builder input;
    if negb (output_validation_ok number) then None else
    Some (mkBuilt (close_meta (finish_meta info meta2)) records2 blobs
            (if skip_sync then [number] else [])).

Definition BuildTable (input : list entry) (tombstones : list RangeTombstone) (meta0 : FileMetaData)
    (skip_sync : bool) : option BuildResult :=
  let meta := meta0 <| file_size := 0 |> in
  match input, tombstones with
  | [], [] => Some (mkBuilt meta [] [] [])
  | _, _ => write_table input tombstones meta skip_sync
  end.
End build.

(** ** Lemmas *)

Lemma update_boundaries_spec k v seq t f f' :
  UpdateBoundaries k v seq t f = Some f' →
  smallest f' = (if decide (smallest f = []) then k else smallest f) ∧ largest f' = k ∧
  smallest_seqno f' = Z.min (smallest_seqno f) seq ∧ largest_seqno f' = Z.max (largest_seqno f) seq ∧
  packed_number_and_path_id f' = packed_number_and_path_id f.
Proof.
  unfold UpdateBoundaries. intros H.
  assert (Hb : ∀ g, (if t =? kTypeBlobIndex then note_blob v f else Some f) = Some g →
    smallest g = smallest f ∧ smallest_seqno g = smallest_seqno f ∧ largest_seqno g = largest_seqno f ∧
    packed_number_and_path_id g = packed_number_and_path_id f).
  { intros g. destruct (t =? _); [|by intros [= ->]]. unfold note_blob.
    destruct (DecodeBlobIndex v); [|done]. repeat case_match; intros [= <-]; done. }
  destruct (if t =? _ then _ else _) as [g|]; [|done]. destruct (Hb g eq_refl) as (E1 & E2 & E3 & E4).
  cbn in H. injection H as <-. cbn. rewrite E1, E2, E3, E4. split_and!; [|done..].
  destruct (smallest f); [by rewrite decide_True|by rewrite decide_False].
Qed.

Section correctness.
Context (C : Comparator) (HC : ComparatorOk C) (E : BuildEnv).

Abbreviation icmp := (@InternalKeyCompare C).
Abbreviation ascending := (entry_le icmp).

(** The records written for the outputs of the compaction iterator. *)
Definition records_of (outputs : list entry) : list entry := (λ o, (after_flush o).1) <$> outputs.

Lemma validator_spec k prev p :
  OutputValidator_Add k prev = Some p →
  p = k ∧ (8 <= length k)%nat ∧ (prev ≠ [] → cmp_le icmp prev k).
Proof using HC.
  unfold OutputValidator_Add. destruct (Nat.ltb_spec (length k) kNumInternalBytes) as [|Hl]; [done|].
  destruct (negb _ && _) eqn:Ev; [done|]. intros [= <-]. split_and!; [done|exact Hl|].
  intros Hp. apply andb_false_iff in Ev as [Ev|Ev].
  { apply negb_false_iff, Nat.eqb_eq in Ev. by apply nil_length_inv in Ev. }
  cmp_case (@InternalKeyCompare C) k prev; [|done|]; order (cmp_le (@InternalKeyCompare C)).
Qed.

(** The first key, if the file has none yet, and the last one. *)
Definition first_key (k : key) (rs : list entry) : key := if decide (k = []) then default [] (fst <$> head rs) else k.
Definition last_key (k : key) (rs : list entry) : key := default k (fst <$> last rs).

Lemma build_loop_spec outputs prev meta recs recs' meta' :
  build_loop outputs prev meta recs = Some (recs', meta') →
  let rs := records_of outputs in
  recs' = recs ++ rs ∧ StronglySorted ascending rs ∧
  (prev ≠ [] → Forall (λ r, cmp_le icmp prev r.1) rs) ∧
  Forall (λ r, (8 <= length r.1)%nat) rs ∧
  smallest meta' = first_key (smallest meta) rs ∧ largest meta' = last_key (largest meta) rs ∧
  Forall (λ o, smallest_seqno meta' <= GetInternalKeySeqno o.1 <= largest_seqno meta') outputs ∧
  smallest_seqno meta' <= smallest_seqno meta ∧ largest_seqno meta <= largest_seqno meta' ∧
  packed_number_and_path_id meta' = packed_number_and_path_id meta.
Proof using HC.
  revert prev meta recs. induction outputs as [|o outputs IH]; intros prev meta recs; cbn [build_loop].
  { intros [= <- <-]. unfold first_key, last_key. cbn. rewrite app_nil_r.
    split_and!; try done; try constructor. by destruct (smallest meta). }
  destruct (after_flush o) as [r t] eqn:Er. cbn [fst snd].
  destruct (OutputValidator_Add r.1 prev) as [p|] eqn:Ep; [|done].
  apply validator_spec in Ep as (-> & Hl & Hp). cbn [mbind option_bind].
  destruct (UpdateBoundaries _ _ _ _ meta) as [meta1|] eqn:Eu; [|done].
  apply update_boundaries_spec in Eu as (U1 & U2 & U3 & U4 & U5). cbn [mbind option_bind].
  intros H. apply IH in H as (-> & I2 & I3 & I4 & I5 & I6 & I7 & I8 & I9 & I10).
  change (records_of (o :: outputs)) with ((after_flush o).1 :: records_of outputs). rewrite Er. cbn [fst].
  assert (Hne : r.1 ≠ []) by (intros Hr; rewrite Hr in Hl; cbn in Hl; lia).
  specialize (I3 Hne).
  split_and!; try congruence; try lia.
  - by rewrite <- app_assoc.
  - by constructor.
  - intros Hpr. constructor; [by apply Hp|]. eapply Forall_impl; [exact I3|]. intros x Hx.
    specialize (Hp Hpr). cbn in Hx. order (cmp_le (@InternalKeyCompare C)).
  - by constructor.
  - rewrite I5, U1. unfold first_key. cbn. by repeat case_decide.
  - rewrite I6, U2. unfold last_key. rewrite last_cons. by destruct (last (records_of outputs)).
  - constructor; [lia|done].
Qed.

(** The metadata covers keys from [lo] to [hi] written at [seq]. *)
Definition covers (f : FileMetaData) (lo hi : key) (seq : Z) : Prop :=
  smallest f ≠ [] ∧ largest f ≠ [] ∧ cmp_le icmp (smallest f) lo ∧ cmp_le icmp hi (largest f) ∧
  smallest_seqno f <= seq <= largest_seqno f.

Lemma update_for_range_covers start fin seq f :
  start ≠ [] → fin ≠ [] →
  let f' := UpdateBoundariesForRange start fin seq f in
  covers f' start fin seq ∧ (∀ lo hi s, covers f lo hi s → covers f' lo hi s) ∧
  packed_number_and_path_id f' = packed_number_and_path_id f.
Proof using HC.
  intros Hs Hf. unfold UpdateBoundariesForRange, covers. cbn [set_bounds smallest largest smallest_seqno largest_seqno packed_number_and_path_id].
  set (lo' := if _ || _ then start else smallest f). set (hi' := if _ || _ then fin else largest f).
  assert (Hlo : lo' ≠ [] ∧ cmp_le icmp lo' start ∧ (smallest f ≠ [] → cmp_le icmp lo' (smallest f))).
  { subst lo'. destruct (Nat.eqb_spec (length (smallest f)) 0) as [E0|E0]; cbn [orb].
    { apply nil_length_inv in E0. split_and!; [done|order (cmp_le (@InternalKeyCompare C))|done]. }
    assert (smallest f ≠ []) by (intros E1; by rewrite E1 in E0).
    cmp_case (@InternalKeyCompare C) start (smallest f); split_and!; try done; intros; order (cmp_le (@InternalKeyCompare C)). }
  assert (Hhi : hi' ≠ [] ∧ cmp_le icmp fin hi' ∧ (largest f ≠ [] → cmp_le icmp (largest f) hi')).
  { subst hi'. destruct (Nat.eqb_spec (length (largest f)) 0) as [E0|E0]; cbn [orb].
    { apply nil_length_inv in E0. split_and!; [done|order (cmp_le (@InternalKeyCompare C))|done]. }
    assert (largest f ≠ []) by (intros E1; by rewrite E1 in E0).
    cmp_case (@InternalKeyCompare C) (largest f) fin; split_and!; try done; intros; order (cmp_le (@InternalKeyCompare C)). }
  destruct Hlo as (L1 & L2 & L3), Hhi as (H1 & H2 & H3). split_and!; try done; try lia.
  intros lo hi s (C1 & C2 & C3 & C4 & C5). specialize (L3 C1). specialize (H3 C2).
  split_and!; try done; try lia; order (cmp_le (@InternalKeyCompare C)).
Qed.

Lemma tombstone_keys t : (SerializeTombstone t).1 ≠ [] ∧ SerializeEndKey t ≠ [].
Proof.
  unfold SerializeTombstone, SerializeEndKey, InternalKey, AppendInternalKey. cbn.
  split; intros H%(f_equal length); rewrite length_app in H; unfold PutFixed64 in H;
    rewrite ?length_app, length_encode_fixed64 in H; cbn in H; lia.
Qed.

Lemma tombstones_spec ts recs meta last0 :
  let '(recs', meta', _) := foldl tombstone_step (recs, meta, last0) ts in
  recs' = recs ++ (SerializeTombstone <$> ts) ∧
  (∀ lo hi s, covers meta lo hi s → covers meta' lo hi s) ∧
  Forall (λ t, covers meta' (SerializeTombstone t).1 (SerializeEndKey t) (seq_ t)) ts ∧
  packed_number_and_path_id meta' = packed_number_and_path_id meta.
Proof using HC.
  revert recs meta last0. induction ts as [|t ts IH]; intros recs meta last0; cbn [foldl].
  { cbn. rewrite app_nil_r. split_and!; [done|done|constructor|done]. }
  destruct (tombstone_keys t) as [K1 K2].
  destruct (update_for_range_covers _ _ (seq_ t) meta K1 K2) as (U1 & U2 & U3).
  unfold tombstone_step at 2. cbv beta iota zeta.
  set (meta1 := if _ || _ then _ else _).
  assert (E1 : ∀ lo hi s, covers meta1 lo hi s ↔
    covers (UpdateBoundariesForRange (SerializeTombstone t).1 (SerializeEndKey t) (seq_ t) meta) lo hi s)
    by (intros; subst meta1; by destruct (_ || _)).
  assert (E2 : packed_number_and_path_id meta1 = packed_number_and_path_id meta)
    by (subst meta1; by destruct (_ || _)).
  specialize (IH (recs ++ [SerializeTombstone t]) meta1 (start_key_ t)).
  destruct (foldl _ _ _) as [[recs' meta'] last']. destruct IH as (-> & I2 & I3 & I4). split_and!.
  - by rewrite <- app_assoc.
  - intros lo hi s Hc. by apply I2, E1, U2.
  - constructor; [|done]. by apply I2, E1.
  - by rewrite I4, E2.
Qed.

Lemma sorted_first_last rs r :
  StronglySorted ascending rs → r ∈ rs →
  cmp_le icmp (default [] (fst <$> head rs)) r.1 ∧ cmp_le icmp r.1 (default [] (fst <$> last rs)).
Proof using HC.
  intros Hs Hr. split.
  - destruct Hs as [|h rs Hs Hh]; [by apply not_elem_of_nil in Hr|]. cbn. rewrite Forall_forall in Hh.
    apply elem_of_cons in Hr as [->|Hr]; [order (cmp_le (@InternalKeyCompare C))|by apply Hh].
  - destruct rs as [|l rs _] using rev_ind; [by apply not_elem_of_nil in Hr|]. rewrite last_snoc. cbn.
    apply elem_of_app in Hr as [Hr | ->%list_elem_of_singleton]; [|order (cmp_le (@InternalKeyCompare C))].
    apply (StronglySorted_app_1_elem_of _ _ _ _ _ Hs Hr). apply list_elem_of_here.
Qed.

(** What a successful call has written. *)
Record table_ok (input : list entry) (ts : list RangeTombstone) (packed : Z) (r : BuildResult)
    (outputs : list entry) : Prop := {
  to_records : built_records r = records_of outputs ++ (SerializeTombstone <$> ts);
  to_sorted : StronglySorted ascending (records_of outputs);
  to_points : Forall (λ o, covers (built_meta r) (after_flush o).1.1 (after_flush o).1.1
    (GetInternalKeySeqno o.1)) outputs;
  to_ranges : Forall (λ t, covers (built_meta r) (SerializeTombstone t).1 (SerializeEndKey t) (seq_ t)) ts;
  to_bounds : ts = [] → smallest (built_meta r) = default [] (fst <$> head (records_of outputs)) ∧
    largest (built_meta r) = default [] (fst <$> last (records_of outputs));
  to_number : packed_number_and_path_id (built_meta r) = packed;
  to_outputs : outputs = (compaction_iterator input).1 ∨ (input = [] ∧ outputs = []);
  to_size :
    match built_records r with
    | [] => file_size (built_meta r) = 0
    | rs => ∃ info, builder_Finish rs = Some info ∧ file_size (built_meta r) = ti_FileSize info
    end;
}.

Lemma loop_covers outputs meta recs meta1 :
  build_loop outputs [] meta [] = Some (recs, meta1) → smallest meta = [] → largest meta = [] →
  Forall (λ o, covers meta1 (after_flush o).1.1 (after_flush o).1.1 (GetInternalKeySeqno o.1)) outputs ∧
  smallest meta1 = default [] (fst <$> head (records_of outputs)) ∧
  largest meta1 = default [] (fst <$> last (records_of outputs)).
Proof using HC.
  intros H Hs Hl. apply build_loop_spec in H as (_ & B2 & _ & B4 & B5 & B6 & B7 & _).
  unfold first_key in B5. unfold last_key in B6. rewrite Hs, decide_True in B5 by done. rewrite Hl in B6.
  split; [|done]. rewrite Forall_forall in B4, B7. apply Forall_forall. intros o Ho. specialize (B7 o Ho).
  assert (Hr : (after_flush o).1 ∈ records_of outputs) by (apply list_elem_of_fmap; eauto).
  destruct (sorted_first_last _ _ B2 Hr) as [S1 S2]. rewrite <- B5 in S1. rewrite <- B6 in S2.
  assert (Hne : ∀ r, r ∈ records_of outputs → r.1 ≠ []).
  { intros r Hin E0. apply B4 in Hin. rewrite E0 in Hin. cbn in Hin. lia. }
  split_and!; try done; try lia.
  - rewrite B5. destruct (records_of outputs) as [|r0 rs]; [by apply not_elem_of_nil in Hr|].
    cbn. apply Hne, list_elem_of_here.
  - rewrite B6. destruct (records_of outputs) as [|r0 rs _] using rev_ind; [by apply not_elem_of_nil in Hr|].
    rewrite last_snoc. cbn. apply Hne, elem_of_app. right. apply list_elem_of_here.
Qed.

Lemma close_meta_same f :
  smallest (close_meta f) = smallest f ∧ largest (close_meta f) = largest f ∧
  smallest_seqno (close_meta f) = smallest_seqno f ∧ largest_seqno (close_meta f) = largest_seqno f ∧
  packed_number_and_path_id (close_meta f) = packed_number_and_path_id f ∧ file_size (close_meta f) = file_size f.
Proof. unfold close_meta. by destruct GetSstInternalUniqueId. Qed.

Lemma covers_meta f g lo hi s :
  smallest f = smallest g → largest f = largest g → smallest_seqno f = smallest_seqno g →
  largest_seqno f = largest_seqno g → covers f lo hi s → covers g lo hi s.
Proof. unfold covers. by intros -> -> -> ->. Qed.

Lemma write_table_spec input ts meta skip_sync r :
  smallest meta = [] → largest meta = [] → file_size meta = 0 →
  write_table input ts meta skip_sync = Some r →
  table_ok input ts (packed_number_and_path_id meta) r (compaction_iterator input).1 ∧
  (built_records r = [] → built_to_sync r = []).
Proof using HC.
  intros Hs Hl Hz. unfold write_table. destruct (negb _); [done|]. destruct (negb _); [done|].
  destruct (compaction_iterator input) as [outputs ok] eqn:Eo. cbn [fst].
  destruct (build_loop outputs [] meta []) as [[recs meta1]|] eqn:Eb; [|done]. cbn [mbind option_bind].
  destruct (loop_covers _ _ _ _ Eb Hs Hl) as (L1 & L2 & L3).
  pose proof (build_loop_spec _ _ _ _ _ _ Eb) as (-> & B2 & _ & _ & _ & _ & _ & _ & _ & B10). cbn [app] in *.
  destruct (negb ok); [done|]. pose proof (tombstones_spec ts (records_of outputs) meta1 []) as Ht.
  destruct (foldl _ _ _) as [[recs2 meta2] last2] eqn:Ef. destruct Ht as (-> & T2 & T3 & T4).
  assert (Hb : ts = [] → smallest meta2 = smallest meta1 ∧ largest meta2 = largest meta1).
  { intros ->. cbn in Ef. by assert (meta1 = meta2) as -> by congruence. }
  assert (Hall : ∀ m rs bl sy, smallest m = smallest meta2 → largest m = largest meta2 →
    smallest_seqno m = smallest_seqno meta2 → largest_seqno m = largest_seqno meta2 →
    packed_number_and_path_id m = packed_number_and_path_id meta2 →
    rs = records_of outputs ++ (SerializeTombstone <$> ts) →
    match rs with
    | [] => file_size m = 0
    | _ => ∃ info, builder_Finish rs = Some info ∧ file_size m = ti_FileSize info
    end →
    table_ok input ts (packed_number_and_path_id meta) (mkBuilt m rs bl sy) outputs).
  { intros m rs bl sy M1 M2 M3 M4 M5 -> M6. split; cbn [built_records built_meta]; try done.
    - eapply Forall_impl; [exact L1|]. intros o Ho. by eapply covers_meta; [..|by apply T2].
    - eapply Forall_impl; [exact T3|]. intros o Ho. by eapply covers_meta; [..|exact Ho].
    - intros Hts. destruct (Hb Hts). by rewrite M1, M2, <- L2, <- L3.
    - by rewrite M5, T4, B10.
    - left. by rewrite Eo.
    - by destruct (records_of outputs ++ _). }
  destruct (Nat.eqb_spec (length (records_of outputs ++ (SerializeTombstone <$> ts))) 0) as [E0|E0].
  { destruct (blob_file_builder input); [|done]. intros [= <-]. split; [|done].
    apply nil_length_inv in E0. apply Hall; try done. apply app_eq_nil in E0 as [E1 E2].
    apply fmap_nil_inv in E1, E2. subst. cbn in Ef, Eb. by simplify_eq. }
  destruct (builder_Finish _) as [info|] eqn:Efin; [|done]. cbn [mbind option_bind]. destruct (negb _); [done|].
  destruct (blob_file_builder input); [|done]. cbn [mbind option_bind]. destruct (negb _); [done|].
  intros [= <-]. destruct (close_meta_same (finish_meta info meta2)) as (C1 & C2 & C3 & C4 & C5 & C6).
  split; [apply Hall; try done|].
  { rewrite C6. destruct (records_of outputs ++ _); [done|]. by exists info. }
  cbn [built_records]. intros E1. by rewrite E1 in E0.
Qed.

Lemma build_table_spec input ts meta skip_sync r :
  smallest meta = [] → largest meta = [] → BuildTable input ts meta skip_sync = Some r →
  ∃ outputs, table_ok input ts (packed_number_and_path_id meta) r outputs ∧ (built_records r = [] → built_to_sync r = []).
Proof using HC.
  intros Hs Hl. unfold BuildTable.
  destruct input as [|e input], ts as [|t ts]; [|intros H; eexists; exact (write_table_spec _ _ (meta <| file_size := 0 |>) _ _ Hs Hl eq_refl H)..].
  intros [= <-]. exists []. split; [|done].
  split; [done|constructor|constructor|constructor|done|done|by right|done].
Qed.
End correctness.

(** ** What the flush relies on *)

(** A finished file is not empty, and the compaction iterator yields entries of
    keys it has read. *)
Class BuildEnvOk (E : BuildEnv) : Prop := {
  finish_positive : ∀ records info, builder_Finish records = Some info → 0 < ti_FileSize info;
  compaction_iterator_keys : ∀ input o, o ∈ (compaction_iterator input).1 →
    ∃ e, e ∈ input ∧ ExtractUserKey o.1 = ExtractUserKey e.1;
}.

Lemma after_flush_user_key `{BuildEnv} o : ExtractUserKey (after_flush o).1.1 = ExtractUserKey o.1.
Proof.
  unfold after_flush. destruct o as [k v]. destruct (_ =? _); [|done].
  unfold ParsePackedValueWithWriteTime. cbv beta iota zeta. destruct (_ <? _); [done|]. cbn [fst].
  unfold UpdateInternalKey. by rewrite extract_user_key by apply length_encode_fixed64.
Qed.

Lemma build_table_positive (C : Comparator) (HC : ComparatorOk C) (E : BuildEnv) (HE : BuildEnvOk E)
    input ts meta skip_sync r :
  smallest meta = [] → largest meta = [] → BuildTable input ts meta skip_sync = Some r →
  0 <= file_size (built_meta r) ∧ (file_size (built_meta r) = 0 ↔ built_records r = []).
Proof.
  intros Hs Hl Hb. pose proof (build_table_spec C HC E _ _ _ _ _ Hs Hl Hb) as (outputs & Hok & _).
  pose proof (to_size _ _ _ _ _ _ _ Hok) as Hz. destruct (built_records r) as [|e rs] eqn:Er; [by rewrite Hz|].
  destruct Hz as (info & Hi & ->). pose proof (finish_positive _ _ Hi). split; [lia|].
  split; [lia|done].
Qed.

(** ** Properties *)

(** C13. A table that [BuildTable] reports as written holds the outputs of the
    compaction iterator in ascending order followed by the range tombstones; its
    metadata covers every key and range with their sequence numbers, and
    without tombstones its bounds are exactly the first and the last key.  Its
    file size is zero exactly when nothing was written. *)
Theorem build_table_correct (C : Comparator) (E : BuildEnv) input ts meta skip_sync r :
  ComparatorOk C → BuildEnvOk E → smallest meta = [] → largest meta = [] →
  BuildTable input ts meta skip_sync = Some r →
  (∃ outputs, table_ok C E input ts (packed_number_and_path_id meta) r outputs) ∧
  (file_size (built_meta r) = 0 ↔ built_records r = []) ∧
  (built_records r = [] → built_to_sync r = []).
Proof.
  intros HC HE Hs Hl Hb. pose proof (build_table_positive C HC E HE _ _ _ _ _ Hs Hl Hb) as [_ Hz].
  destruct (build_table_spec C HC E _ _ _ _ _ Hs Hl Hb) as (outputs & Hok & Hsync). by split_and!; eauto.
Qed.

(** ** A concrete environment *)

(** Every entry is kept, and tables take 100 bytes. *)
Definition plain_env : BuildEnv := {|
  compaction_filter_supported := true;
  compaction_iterator := λ l, (l, true);
  GetProximalSeqnoBeforeTime := None;
  NewWritableFile_ok := λ _, true;
  Close_ok := λ _, true;
  GetFileChecksum := λ _, [];
  GetFileChecksumFuncName := λ _, kUnknownFileChecksumFuncName;
  builder_Finish := λ _, Some (mkTableInfo 100 10 false);
  GetSstInternalUniqueId := None;
  blob_file_builder := λ _, Some [];
  output_validation_ok := λ _, true;
  ApproximateSize := λ _ _, 0;
  persist_user_defined_timestamps := true;
|}.

#[export] Instance plain_env_ok : BuildEnvOk plain_env.
Proof. split; [intros records info [= <-]; done|]. intros input o Ho. by exists o. Qed.

Definition sample_entry (b : byte) : entry := (InternalKey [b] 5 kTypeValue, [b]).

Lemma build_table_correct_witness :
  ∃ r, @BuildTable BytewiseComparator plain_env [sample_entry x61; sample_entry x62]
         [mkTombstone [x60] [x63] 7] (new_file 9 0 [] []) true = Some r ∧
    (file_size (built_meta r) = 0 ↔ built_records r = []).
Proof.
  destruct (@BuildTable BytewiseComparator plain_env [sample_entry x61; sample_entry x62]
         [mkTombstone [x60] [x63] 7] (new_file 9 0 [] []) true) as [r|] eqn:E.
  - exists r. split; [reflexivity|].
    apply (build_table_correct BytewiseComparator plain_env _ _ (new_file 9 0 [] []) _ r bytewise_ok plain_env_ok eq_refl eq_refl E).
  - exfalso. vm_compute in E. discriminate E.
Defined.
