(* ===== verification/BucketFlush.v ===== *)
(** * Flushing memtables bucket by bucket

    Models [FlushJob::WriteBucketLevel0Table] of [src/db/flush_job.cc] with its
    [BucketBoundedIterator], and the pending-file registry of
    [ColumnFamilyData] in [src/db/column_family.cc].  The merging iterator over
    the memtables is a cursor over their merged entries.  The threads of the
    parallel path are a transition system over a schedule.  Logging, timing and
    statistics counters are left out. *)

From S2P Require Import Prelude Coding Comparator DbFormat ManifestRecords FileMeta VersionEdit.
From S2P Require Import Bucket BucketManager BucketPartition TableIterator BuildTable.

(** ** Files announced by running jobs *)

Record PendingSplitFile := mkPending {
  ps_job_id : Z;
  ps_file_index : Z;
  ps_smallest_key : key;
  ps_largest_key : key;
}.

Definition RegisterPendingSplitFiles (job_id : Z) (file_ranges : list (key * key))
    (m : gmap Z (list PendingSplitFile)) : gmap Z (list PendingSplitFile) :=
  <[job_id := imap (λ i r, mkPending job_id (Z.of_nat i) r.1 r.2) file_ranges]> m.

Definition UnregisterPendingSplitFiles (job_id : Z) (m : gmap Z (list PendingSplitFile))
    : gmap Z (list PendingSplitFile) :=
  delete job_id m.

(** Job by job, the way [std::map] iterates. *)
Definition GetAllPendingSplitFileRanges (m : gmap Z (list PendingSplitFile)) : list (key * key) :=
  (λ f, (ps_smallest_key f, ps_largest_key f)) <$>
    concat (snd <$> insertion_sort (λ a b, a.1 <? b.1) (map_to_list m)).

(** ** BucketBoundedIterator *)

Record BucketBoundedIterator := mkBounded {
  iter_ : Cursor;
  min_key_ : key;
  max_key_ : key;
}.

Definition bounded_seek_key (lo : key) : key :=
  PutFixed64 lo (PackSequenceAndType kMaxSequenceNumber kValueTypeForSeek).

Definition bounded_SeekToFirst `{Comparator} (b : BucketBoundedIterator) : BucketBoundedIterator :=
  mkBounded
    (if bool_decide (min_key_ b = []) then cursor_first (iter_ b)
     else cursor_seek (bounded_seek_key (min_key_ b)) (iter_ b))
    (min_key_ b) (max_key_ b).

Definition bounded_Next (b : BucketBoundedIterator) : BucketBoundedIterator :=
  mkBounded (cursor_next (iter_ b)) (min_key_ b) (max_key_ b).

(** The entry the iterator is at, [None] when it is not valid. *)
Definition bounded_entry (b : BucketBoundedIterator) : option entry :=
  e ← cursor_entry (iter_ b);
  let user_key := ExtractUserKey e.1 in
  if negb (bool_decide (max_key_ b = [])) && key_leb (max_key_ b) user_key then None
  else if negb (bool_decide (min_key_ b = [])) && key_ltb user_key (min_key_ b) then None
  else Some e.

Fixpoint drain (fuel : nat) (b : BucketBoundedIterator) : list entry :=
  match fuel, bounded_entry b with
  | S fuel', Some e => e :: drain fuel' (bounded_Next b)
  | _, _ => []
  end.

(** The entries [BuildTable] reads through the iterator of a bucket: one per
    step, and there are no more steps than entries. *)
Definition bucket_input `{Comparator} (merged : list entry) (lo hi : key) : list entry :=
  drain (length merged) (bounded_SeekToFirst (mkBounded (mkCursor merged None) lo hi)).

(** ** Split points from the first flush *)

(** [while (iter->Valid() && count < target_count) { count++; iter->Next(); }];
    every step moves the cursor, so [fuel] of the size of its table is
    enough. *)
Fixpoint advance_to (fuel : nat) (c : Cursor) (count target_count : Z) : Cursor * Z :=
  match fuel, cursor_entry c with
  | S fuel', Some _ =>
      if count <? target_count then advance_to fuel' (cursor_next c) (count +64 1) target_count
      else (c, count)
  | _, _ => (c, count)
  end.

Fixpoint split_points_loop (entries_per_bucket : Z) (idxs : list nat) (c : Cursor) (count : Z)
    : list key :=
  match idxs, cursor_entry c with
  | i :: idxs', Some _ =>
      let '(c', count') :=
        advance_to (length (table c)) c count (Z.of_nat i *64 entries_per_bucket) in
      match cursor_entry c' with
      | Some e => ExtractUserKey e.1 :: split_points_loop entries_per_bucket idxs' c' count'
      | None => []
      end
  | _, _ => []
  end.

Definition SampleSplitPoints (merged : list entry) (total_num_input_entries : Z)
    (target_bucket_count : nat) : list key :=
  let entries_per_bucket := total_num_input_entries / Z.of_nat target_bucket_count in
  if 0 <? entries_per_bucket
  then split_points_loop entries_per_bucket (seq 1 (target_bucket_count - 1))
         (cursor_first (mkCursor merged None)) 0
  else [].

(** ** Entries per bucket *)

(** One entry of the counting scan: [bucket_entry_counts] and [bucket_keys]. *)
Definition count_entry (snap : BucketSnapshot) (st : list (Z * list key)) (e : entry)
    : list (Z * list key) :=
  let user_key := ExtractUserKey e.1 in
  let idx := FindBucketInSnapshot snap user_key in
  if (0 <=? idx) && (idx <? Z.of_nat (length st))
  then alter (λ c, (c.1 +64 1, c.2 ++ [user_key])) (Z.to_nat idx) st
  else st.

Definition count_entries (snap : BucketSnapshot) (merged : list entry) : list (Z * list key) :=
  foldl (count_entry snap) (replicate (length (ranges snap)) (0, [])) merged.

Definition median_of (keys : list key) : key := default [] (sort_keys keys !! (length keys / 2)%nat).

(** ** The job and its surroundings *)

Record BucketContext := mkContext {
  bucket_idx : nat;
  entry_count : Z;
  median_key : key;
  ctx_min_key : key;
  ctx_max_key : key;
}.

Class FlushEnv := {
  flush_job_id : Z;
  flush_meta : FileMetaData;  (* [meta_] *)
  total_num_input_entries : Z;
  initial_split_count : nat;
  parallel_split_flush : bool;
  enable_adjustment : option bool;  (* of the column family *)
  (* the numbers and times drawn for the file of a bucket *)
  NewFileNumber : nat → Z;
  NewEpochNumber : nat → Z;
  GetCurrentTime : nat → Z;
  ApproximateOldestKeyTime : Z;
  (* what other threads do to the bucket manager while the files are built *)
  meanwhile : BucketManager → BucketManager;
  (* reopening and syncing a file, by number; syncing the directory *)
  sync_file_ok : Z → bool;
  sync_directory_ok : bool;
}.

Record FlushState := mkFlushState {
  fs_manager : option BucketManager;  (* [cfd_->bucket_manager_] *)
  fs_pending : gmap Z (list PendingSplitFile);
  fs_edit : VersionEdit;
  fs_synced : list Z;  (* files known to be on disk *)
}.

Inductive FlushOutcome :=
  | Flushed
  | FlushFailed
  | FellBack.  (* [return WriteLevel0Table()] *)

Section flush.
Context `{Comparator} {E : BuildEnv} {F : FlushEnv} `{CharSign}.
Context (merged : list entry).

Definition contexts (snap : BucketSnapshot) : list BucketContext :=
  omap (λ x, x)
    (imap (λ i rc,
       let '((lo, hi), (n, keys)) := rc in
       if n =? 0 then None else Some (mkContext i n (median_of keys) lo hi))
     (zip (ranges snap) (count_entries snap merged))).

(** [bucket_meta = meta_] with a new descriptor, epoch number and times. *)
Definition bucket_meta (i : nat) : FileMetaData :=
  let m := flush_meta in
  mkFile (PackFileNumberAndPathId (NewFileNumber i) 0) 0 kMaxSequenceNumber 0
    (smallest m) (largest m) (compensated_file_size m) (num_entries m) (num_deletions m)
    (raw_key_size m) (raw_value_size m) (num_range_deletions m)
    (compensated_range_deletion_size m) (being_compacted m) (marked_for_compaction m)
    (Z.min (GetCurrentTime i) ApproximateOldestKeyTime) (GetCurrentTime i) (NewEpochNumber i)
    (temperature m) (oldest_blob_file_number m) (file_checksum m) (file_checksum_func_name m)
    (unique_id m) (tail_size m) (user_defined_timestamps_persisted m).

(** The table of one bucket: no range tombstones, syncing left to the job. *)
Definition build_bucket (ctx : BucketContext) : option BuildResult :=
  BuildTable (bucket_input merged (ctx_min_key ctx) (ctx_max_key ctx)) []
    (bucket_meta (bucket_idx ctx)) true.

(** What a build phase leaves: [bucket_metas], the buckets whose
    [bucket_file_counts] it increments, [files_to_sync] and
    [blob_file_additions]. *)
Record Built := mkPhase {
  ph_metas : list FileMetaData;
  ph_files : list nat;
  ph_to_sync : list Z;
  ph_blobs : list BlobFileAddition;
}.

Definition no_files : Built := mkPhase [] [] [] [].

(** ** The sequential path *)

Definition add_built (idx : nat) (r : BuildResult) (p : Built) : Built :=
  if 0 <? file_size (built_meta r)
  then mkPhase (ph_metas p ++ [built_meta r]) (ph_files p ++ [idx])
         (ph_to_sync p ++ built_to_sync r) (ph_blobs p ++ built_blobs r)
  else mkPhase (ph_metas p) (ph_files p) (ph_to_sync p ++ built_to_sync r) (ph_blobs p ++ built_blobs r).

(** [None] when a bucket failed. *)
Fixpoint sequential (ctxs : list BucketContext) (p : Built) : option Built :=
  match ctxs with
  | [] => Some p
  | ctx :: ctxs' =>
      match build_bucket ctx with
      | Some r => sequential ctxs' (add_built (bucket_idx ctx) r p)
      | None => None
      end
  end.

(** ** The parallel path *)

Inductive ThreadState :=
  | NotStarted
  | Building
  | Done (status : option BuildResult).  (* [None]: failed or aborted *)

(** One step of the thread of a context: the load of [has_error] with the early
    exit, or the rest of [build_bucket] with the store to [has_error]. *)
Definition thread_step (ctxs : list BucketContext) (st : list ThreadState * bool) (i : nat)
    : list ThreadState * bool :=
  let '(threads, has_error) := st in
  match threads !! i, ctxs !! i with
  | Some NotStarted, Some _ =>
      (<[i := if has_error then Done None else Building]> threads, has_error)
  | Some Building, Some ctx =>
      let r := build_bucket ctx in
      (<[i := Done r]> threads, has_error || negb (bool_decide (is_Some r)))
  | _, _ => st
  end.

(** The threads under a schedule, then joined: each takes the steps it has
    left. *)
Definition run_threads (ctxs : list BucketContext) (schedule : list nat) : list ThreadState :=
  (foldl (thread_step ctxs) (replicate (length ctxs) NotStarted, false)
     (schedule ++ concat ((λ i, [i; i]) <$> seq 0 (length ctxs)))).1.

(** The blob files of a bucket stay in the thread's own
    [bucket_blob_additions]. *)
Definition add_context (idx : nat) (r : BuildResult) (p : Built) : Built :=
  if 0 <? file_size (built_meta r)
  then mkPhase (ph_metas p ++ [built_meta r]) (ph_files p ++ [idx])
         (ph_to_sync p ++ built_to_sync r) (ph_blobs p)
  else p.

Fixpoint collect_contexts (ctxs : list BucketContext) (threads : list ThreadState) (p : Built)
    : option Built :=
  match ctxs, threads with
  | ctx :: ctxs', Done (Some r) :: threads' =>
      collect_contexts ctxs' threads' (add_context (bucket_idx ctx) r p)
  | [], _ => Some p
  | _, _ => None
  end.

Definition parallel (ctxs : list BucketContext) (schedule : list nat) : option Built :=
  collect_contexts ctxs (run_threads ctxs schedule) no_files.

Definition build_phase (ctxs : list BucketContext) (schedule : list nat) : option Built :=
  if parallel_split_flush && (1 <? length ctxs)%nat then parallel ctxs schedule
  else sequential ctxs no_files.

(** ** Statistics of the flush *)

Definition count_files (i : nat) (files : list nat) : Z := Z.of_nat (length (filter (eq i) files)).

Definition add_data_bytes (snap : BucketSnapshot) (results : list BucketFlushResult)
    (meta : FileMetaData) : list BucketFlushResult :=
  let idx := FindBucketInSnapshot snap (smallest_ukey meta) in
  if (0 <=? idx) && (idx <? Z.of_nat (length results))
  then alter (λ r, mkBucketFlushResult (bfr_file_count r) (bfr_entry_count r)
                     (bfr_data_bytes r +64 GetFileSize meta) (bfr_median_key r) (bfr_min_key r)
                     (bfr_max_key r)) (Z.to_nat idx) results
  else results.

Definition flush_results (snap : BucketSnapshot) (p : Built) : list BucketFlushResult :=
  foldl (add_data_bytes snap)
    (imap (λ i rc,
       let '((lo, hi), (n, keys)) := rc in
       mkBucketFlushResult (count_files i (ph_files p)) n 0 (median_of keys) lo hi)
     (zip (ranges snap) (count_entries snap merged)))
    (ph_metas p).

(** ** The job *)

(** The metadata [AddFile] makes of its arguments. *)
Definition added_file (f : FileMetaData) : FileMetaData :=
  mkFile (PackFileNumberAndPathId (GetNumber f) (GetPathId f)) (file_size f) (smallest_seqno f)
    (largest_seqno f) (smallest f) (largest f) 0 0 0 0 0 0 (compensated_range_deletion_size f) false
    (marked_for_compaction f) (oldest_ancester_time f) (file_creation_time f) (epoch_number f)
    (temperature f) (oldest_blob_file_number f) (file_checksum f) (file_checksum_func_name f)
    (unique_id f) (tail_size f) (user_defined_timestamps_persisted f).

Definition apply_files (p : Built) (e : VersionEdit) : VersionEdit :=
  foldl (λ e b, AddBlobFile b e)
    (foldl (λ e f, EditAddFile 0 (added_file f) e) e (ph_metas p)) (ph_blobs p).

(** [GetBucketManager], and the buckets laid out when level 0 is empty. *)
Definition prepare_manager (l0_empty : bool) (st : FlushState) : BucketManager :=
  let m := default (NewBucketManager (Z.of_nat initial_split_count) enable_adjustment) (fs_manager st) in
  if l0_empty && negb (initialized_ m)
  then InitializeFromFirstFlush
         (SampleSplitPoints merged total_num_input_entries initial_split_count) m
  else m.

Definition announced (ctxs : list BucketContext) : list (key * key) :=
  (λ c, (ctx_min_key c, ctx_max_key c)) <$> ctxs.

Definition WriteBucketLevel0Table (l0_empty : bool) (schedule : list nat) (st : FlushState)
    : FlushOutcome * FlushState :=
  let mgr := prepare_manager l0_empty st in
  if negb (initialized_ mgr)
  then (FellBack, mkFlushState (Some mgr) (fs_pending st) (fs_edit st) (fs_synced st)) else
  let snap := GetSnapshot mgr in
  let ctxs := contexts snap in
  let pending := RegisterPendingSplitFiles flush_job_id (announced ctxs) (fs_pending st) in
  let mgr' := meanwhile mgr in
  let pending' := UnregisterPendingSplitFiles flush_job_id pending in
  match build_phase ctxs schedule with
  | None => (FlushFailed, mkFlushState (Some mgr') pending' (fs_edit st) (fs_synced st))
  | Some p =>
      let mgr'' := OnFlushCompleted (epoch snap) (flush_results snap p) mgr' in
      (* a failed sync is only logged *)
      let synced := fs_synced st ++ filter (λ n, sync_file_ok n = true) (ph_to_sync p) in
      if negb sync_directory_ok
      then (FlushFailed, mkFlushState (Some mgr'') pending' (fs_edit st) synced)
      else if (length (ph_metas p) =? 0)%nat
      then (FellBack, mkFlushState (Some mgr'') pending' (fs_edit st) synced)
      else (Flushed, mkFlushState (Some mgr'') pending' (apply_files p (fs_edit st)) synced)
  end.
End flush.

(** ** What the iterator of a bucket reads *)

Section input.
#[local] Existing Instance BytewiseComparator.

Abbreviation ukey e := (ExtractUserKey (fst e)).
Abbreviation ascending := (entry_le (@InternalKeyCompare BytewiseComparator)).
Abbreviation in_bucket r := (λ e, in_range r (ukey e)).

(** An entry of a memtable: its sequence number is below the largest one. *)
Definition fresh (e : entry) : Prop := GetInternalKeySeqno e.1 < kMaxSequenceNumber.

Lemma ascending_user a b : ascending a b → key_le (ukey a) (ukey b).
Proof.
  unfold entry_le, cmp_le, InternalKeyCompare. cbn. by destruct (slice_compare _ _).
Qed.

Lemma seek_key_before lo e :
  fresh e → at_or_after BytewiseComparator (bounded_seek_key lo) e ↔ key_le lo (ukey e).
Proof.
  unfold fresh, at_or_after, cmp_le, InternalKeyCompare, GetInternalKeySeqno, bounded_seek_key, PutFixed64.
  intros Hf. rewrite extract_user_key, footer_bytes_app by apply length_encode_fixed64.
  cbn [Compare BytewiseComparator]. destruct (slice_compare lo (ukey e)); [|done..].
  split; [done|]. intros _. rewrite compare_desc_Z.
  assert (Hd : DecodeFixed64 (EncodeFixed64 (PackSequenceAndType kMaxSequenceNumber kValueTypeForSeek)) =
    2 ^ 64 - 256 + 24) by (vm_compute; reflexivity).
  rewrite Hd. unfold kMaxSequenceNumber in Hf. unfold ExtractInternalKeyFooter in Hf.
  rewrite Z.shiftr_div_pow2 in Hf by lia. intros Hc%Z.compare_gt_iff.
  assert (2 ^ 56 - 1 <= DecodeFixed64 (footer_bytes e.1) / 2 ^ 8) by (apply Z.div_le_lower_bound; lia). lia.
Qed.

Lemma bounded_entry_spec c lo hi :
  bounded_entry (mkBounded c lo hi) =
  e ← cursor_entry c; if decide (in_range (lo, hi) (ukey e)) then Some e else None.
Proof.
  unfold bounded_entry. cbn [iter_ min_key_ max_key_]. destruct (cursor_entry c) as [e|]; [|done].
  cbn [mbind option_bind]. unfold in_range. cbn [fst snd].
  assert (Hhi : negb (bool_decide (hi = [])) && key_leb hi (ukey e) = false ↔ hi = [] ∨ ¬ key_le hi (ukey e)).
  { rewrite andb_false_iff, negb_false_iff, bool_decide_eq_true, key_leb_false. done. }
  assert (Hlo : negb (bool_decide (lo = [])) && key_ltb (ukey e) lo = false ↔ key_le lo (ukey e)).
  { rewrite andb_false_iff, negb_false_iff, bool_decide_eq_true, key_ltb_false.
    split; [intros [->|]; [apply key_le_nil|done]|auto]. }
  destruct (negb _ && key_leb _ _).
  { rewrite decide_False; [done|]. intros [_ H]. by apply Hhi in H. }
  destruct (negb _ && key_ltb _ _); [rewrite decide_False|rewrite decide_True]; try done.
  - intros [H _]. by apply Hlo in H.
  - split; [by apply Hlo|by apply Hhi].
Qed.

Lemma drain_filter n c lo hi :
  cursor_ok BytewiseComparator c → (length (ahead c) <= n)%nat →
  Forall (λ e, key_le lo (ukey e)) (ahead c) →
  drain n (mkBounded c lo hi) = filter (in_bucket (lo, hi)) (ahead c).
Proof.
  revert c. induction n as [|n IH]; intros c Hok Hn Hlo.
  { destruct (ahead c); [done|cbn in Hn; lia]. }
  cbn [drain]. rewrite bounded_entry_spec, (ahead_head BytewiseComparator c Hok).
  destruct (ahead_next BytewiseComparator c Hok) as [Hok' Hnext].
  pose proof (ahead_sorted BytewiseComparator c Hok) as Hs.
  specialize (IH (cursor_next c) Hok'). rewrite Hnext in IH.
  destruct (ahead c) as [|e l]; [done|]. cbn [head mbind option_bind tail length] in *.
  apply StronglySorted_inv in Hs as [_ Hs]. apply Forall_cons in Hlo as [Hle Hlo].
  rewrite filter_cons. destruct (decide _) as [Hin|Hout].
  - unfold bounded_Next. cbn [iter_ min_key_ max_key_]. f_equal. apply IH; [lia|done].
  - symmetry. apply filter_none. rewrite Forall_forall in Hs |- *. intros x Hx [_ Hx2]. apply Hout.
    apply Hs, ascending_user in Hx. split; [done|]. cbn in *. destruct Hx2 as [|Hx2]; [by left|right]. key_order.
Qed.

Lemma bucket_input_filter merged lo hi :
  StronglySorted ascending merged → Forall fresh merged →
  bucket_input merged lo hi = filter (in_bucket (lo, hi)) merged.
Proof.
  intros Hs Hf. unfold bucket_input, bounded_SeekToFirst. cbn [iter_ min_key_ max_key_].
  case_bool_decide as Hlo.
  - subst lo. destruct (ahead_first BytewiseComparator merged) as [Ha Hok].
    rewrite drain_filter; rewrite ?Ha; [done|by apply Hok|done|].
    apply Forall_true. intros. apply key_le_nil.
  - destruct (ahead_seek BytewiseComparator bytewise_ok (bounded_seek_key lo) merged Hs) as [Ha Hok].
    rewrite drain_filter; rewrite ?Ha; [|done|apply length_filter|].
    + rewrite (filter_iff_Forall (at_or_after _ (bounded_seek_key lo)) (λ e, key_le lo (ukey e))), list_filter_filter_l; [done| |].
      { intros e [He _]. exact He. }
      eapply Forall_impl; [exact Hf|]. intros e. apply seek_key_before.
    + rewrite Forall_forall in Hf |- *. intros e [He Hin]%list_elem_of_filter.
      by apply (seek_key_before lo e (Hf e Hin)).
Qed.

(** A list sorted by user key is cut at a boundary. *)
Lemma sorted_cut b l :
  StronglySorted ascending l →
  l = filter (λ e, ¬ key_le b (ukey e)) l ++ filter (λ e, key_le b (ukey e)) l.
Proof.
  induction 1 as [|e l Hs IH He]; [done|]. rewrite !filter_cons.
  destruct (decide (key_le b (ukey e))) as [Hb|Hb].
  - rewrite decide_False by tauto. rewrite Forall_forall in He.
    assert (Hall : Forall (λ x, key_le b (ukey x)) l).
    { apply Forall_forall. intros x Hx. apply He, ascending_user in Hx. cbn in Hx. key_order. }
    rewrite filter_none, filter_all; [done|done|]. eapply Forall_impl; [exact Hall|]. tauto.
  - rewrite decide_True by done. cbn. by rewrite <- IH.
Qed.

Lemma ranges_from_above lo bs i r :
  increasing lo bs → ranges_from lo bs !! i = Some r → key_le lo r.1.
Proof.
  revert lo i. induction bs as [|b bs IH]; intros lo [|i] Hi Hr; cbn in *; simplify_eq/=; try key_order.
  destruct Hi as [Hb Hi]. pose proof (IH b i Hi Hr). key_order.
Qed.

Lemma concat_ranges lo bs l :
  StronglySorted ascending l → increasing lo bs → Forall (λ e, key_le lo (ukey e)) l →
  concat ((λ r, filter (in_bucket r) l) <$> ranges_from lo bs) = l.
Proof.
  revert lo l. induction bs as [|b bs IH]; intros lo l Hs Hi Hl; cbn [ranges_from fmap list_fmap concat].
  { rewrite app_nil_r. apply filter_all. eapply Forall_impl; [exact Hl|]. intros e He. by split; [|left]. }
  destruct Hi as [Hb Hi]. pose proof (sorted_cut b l Hs) as Hcut.
  assert (Hge : Forall (λ e, key_le b (ukey e)) (filter (λ e, key_le b (ukey e)) l)).
  { apply Forall_forall. by intros e [He _]%list_elem_of_filter. }
  etrans; [|symmetry; exact Hcut]. f_equal.
  - apply filter_iff_Forall. eapply Forall_impl; [exact Hl|]. unfold in_range. cbn. intros e He.
    split; [|tauto]. intros [_ [->|H]]; [|done]. destruct Hb. apply key_le_nil.
  - rewrite <- (IH b (filter (λ e, key_le b (ukey e)) l)); [|rewrite Hcut in Hs;
      by apply StronglySorted_app_1_r in Hs|done|done].
    f_equal. apply list_fmap_ext. intros i r Hr. symmetry. apply list_filter_filter_l.
    intros e [He _]. pose proof (ranges_from_above b bs i r Hi Hr). cbn in *. key_order.
Qed.

(** ** The counting scan and the contexts *)

Definition tally (merged : list entry) (r : key * key) : Z * list key :=
  let es := filter (in_bucket r) merged in (Z.of_nat (length es), ExtractUserKey ∘ fst <$> es).

Lemma snapshot_ranges m bs : partitioned m bs → ranges (GetSnapshot m) = ranges_from [] bs.
Proof. by intros [H _]. Qed.

Lemma snapshot_find m bs k :
  partitioned m bs → FindBucketInSnapshot (GetSnapshot m) k = Z.of_nat (rank bs k).
Proof. intros Hp. by rewrite <- find_internal_snapshot, <- (find_bucket_rank m bs k Hp). Qed.

Lemma rank_le bs k : (rank bs k <= length bs)%nat.
Proof. apply length_filter. Qed.

Lemma count_entries_spec m bs merged :
  partitioned m bs → Z.of_nat (length merged) < 2 ^ 64 →
  count_entries (GetSnapshot m) merged = tally merged <$> ranges_from [] bs.
Proof.
  intros Hp. pose proof Hp as [_ Hinc]. unfold count_entries. rewrite (snapshot_ranges m bs Hp).
  induction merged as [|e merged IH] using rev_ind; intros Hn.
  { cbn. rewrite length_ranges_from. apply list_eq. intros i. rewrite list_lookup_fmap.
    destruct (decide (i < S (length bs))%nat) as [Hi|Hi].
    - rewrite lookup_replicate_2 by done. by rewrite lookup_ranges_from by lia.
    - rewrite !lookup_ge_None_2; [done|rewrite length_ranges_from; lia|rewrite length_replicate; lia]. }
  rewrite length_app in Hn. cbn in Hn. rewrite foldl_app, IH by lia. cbn [foldl].
  unfold count_entry. rewrite (snapshot_find m bs _ Hp), length_fmap, length_ranges_from.
  pose proof (rank_le bs (ukey e)) as Hr.
  rewrite (proj2 (Z.leb_le 0 _)), (proj2 (Z.ltb_lt _ _)) by lia. cbn [andb]. rewrite Nat2Z.id.
  apply list_eq. intros i. rewrite list_lookup_alter, !list_lookup_fmap.
  destruct (ranges_from [] bs !! i) as [r|] eqn:Er; [|destruct (decide (_ = i)) as [->|]; by rewrite ?Er].
  pose proof (in_range_rank [] bs (ukey e) i r Hinc (key_le_nil _) Er) as Hiff.
  assert (Ht : tally (merged ++ [e]) r = if decide (in_range r (ukey e))
    then (Z.of_nat (length (filter (in_bucket r) merged)) + 1, (tally merged r).2 ++ [ukey e])
    else tally merged r).
  { unfold tally. rewrite filter_app, filter_cons, filter_nil. case_decide; [|by rewrite app_nil_r].
    rewrite length_app, fmap_app. cbn. f_equal. lia. }
  cbn [fmap option_fmap option_map]. rewrite Ht. destruct (decide (rank bs (ukey e) = i)) as [Hi|Hi].
  - rewrite Hi, Er, decide_True by (by apply Hiff). cbn.
    do 2 f_equal. cbn. rewrite u64_id; [lia|]. unfold u64_ok.
    pose proof (length_filter (λ e, in_range r (ukey e)) merged). lia.
  - rewrite decide_False by (rewrite Hiff; congruence). done.
Qed.

(** The contexts of the buckets that have entries. *)
Definition context_of (merged : list entry) (i : nat) (r : key * key) : BucketContext :=
  mkContext i (tally merged r).1 (median_of (tally merged r).2) r.1 r.2.

Lemma contexts_spec m bs merged :
  partitioned m bs → Z.of_nat (length merged) < 2 ^ 64 →
  contexts merged (GetSnapshot m) =
  omap (λ x, x) (imap (λ i r, if decide (filter (in_bucket r) merged = []) then None
                             else Some (context_of merged i r)) (ranges_from [] bs)).
Proof.
  intros Hp Hn. unfold contexts. rewrite (count_entries_spec m bs merged Hp Hn), (snapshot_ranges m bs Hp).
  f_equal. apply list_eq. intros i. rewrite !list_lookup_imap, lookup_zip_with, list_lookup_fmap.
  destruct (ranges_from [] bs !! i) as [[lo hi]|]; [|done]. cbn. unfold context_of, tally. cbn.
  destruct (decide (filter _ merged = [])) as [->|Hne]; [done|].
  destruct (Z.eqb_spec (Z.of_nat (length (filter (in_bucket (lo, hi)) merged))) 0) as [E0|]; [|done].
  destruct Hne. apply nil_length_inv. lia.
Qed.
End input.

(** ** Threads *)

Section threads.
Context (C : Comparator) (E : BuildEnv) (F : FlushEnv) (merged : list entry) (ctxs : list BucketContext).

Abbreviation build := (@build_bucket C E F merged).

Definition some_failure : Prop := ∃ i ctx, ctxs !! i = Some ctx ∧ build ctx = None.

(** Threads that are done have built their table, or gave up because another
    one failed. *)
Record threads_inv (st : list ThreadState * bool) : Prop := {
  tv_length : length st.1 = length ctxs;
  tv_done : ∀ i ctx r, ctxs !! i = Some ctx → st.1 !! i = Some (Done r) →
    r = build ctx ∨ (r = None ∧ some_failure);
  tv_error : st.2 = true → some_failure;
}.

Lemma thread_step_inv st i : threads_inv st → threads_inv (@thread_step C E F merged ctxs st i).
Proof.
  destruct st as [threads err]. intros [H1 H2 H3]. cbn in *. unfold thread_step.
  destruct (threads !! i) as [[| |r]|] eqn:Et; try done; (destruct (ctxs !! i) as [ctx|] eqn:Ec; [|done]).
  - split; cbn; [by rewrite length_insert| |done]. intros j ctx' r Hj Hd.
    destruct (decide (i = j)) as [<-|Hne]; [|rewrite list_lookup_insert_ne in Hd by done; eauto].
    rewrite list_lookup_insert_eq in Hd by (by apply lookup_lt_Some in Et).
    destruct err; simplify_eq. right. auto.
  - split; cbn; [by rewrite length_insert| |].
    + intros j ctx' r Hj Hd. destruct (decide (i = j)) as [<-|Hne];
        [|rewrite list_lookup_insert_ne in Hd by done; eauto].
      rewrite list_lookup_insert_eq in Hd by (by apply lookup_lt_Some in Et). simplify_eq. by left.
    + intros [He|He]%orb_true_iff; [auto|]. apply negb_true_iff, bool_decide_eq_false in He.
      exists i, ctx. split; [done|]. by apply eq_None_not_Some.
Qed.

Lemma threads_run_inv l st :
  threads_inv st → threads_inv (foldl (@thread_step C E F merged ctxs) st l).
Proof. revert st. induction l as [|i l IH]; intros st Hst; [done|]. cbn. by apply IH, thread_step_inv. Qed.

Definition is_done (t : ThreadState) : Prop := ∃ r, t = Done r.

Lemma thread_step_done st i j t :
  st.1 !! j = Some t → is_done t → (@thread_step C E F merged ctxs st i).1 !! j = Some t.
Proof.
  intros Hj [r ->]. destruct st as [threads err]. cbn in *. unfold thread_step.
  destruct (decide (i = j)) as [->|Hne]; [by rewrite Hj|].
  destruct (threads !! i) as [[| |]|]; try done; destruct (ctxs !! i); try done; cbn;
    by rewrite list_lookup_insert_ne.
Qed.

Lemma threads_run_done l st j t :
  st.1 !! j = Some t → is_done t → (foldl (@thread_step C E F merged ctxs) st l).1 !! j = Some t.
Proof.
  revert st. induction l as [|i l IH]; intros st Hj Ht; [done|]. cbn. apply IH; [|done]. by apply thread_step_done.
Qed.

(** Two steps finish a thread. *)
Lemma thread_two_steps st i :
  length st.1 = length ctxs → (i < length ctxs)%nat →
  ∃ r, (foldl (@thread_step C E F merged ctxs) st [i; i]).1 !! i = Some (Done r).
Proof.
  destruct st as [threads err]. cbn [fst foldl]. intros Hl Hi.
  destruct (lookup_lt_is_Some_2 threads i) as [t Ht]; [lia|].
  destruct (lookup_lt_is_Some_2 ctxs i Hi) as [ctx Hc].
  assert (Hfin : ∀ st r, st.1 !! i = Some (Done r) → (@thread_step C E F merged ctxs st i).1 !! i = Some (Done r)).
  { intros st r H. apply thread_step_done; [done|]. by exists r. }
  destruct t as [| |r]; [|eexists; apply Hfin|eexists; by apply Hfin, Hfin].
  - unfold thread_step at 2. rewrite Ht, Hc. destruct err.
    + eexists. apply Hfin. cbn. rewrite list_lookup_insert_eq; [done|lia].
    + unfold thread_step. rewrite list_lookup_insert_eq, Hc by lia. cbn.
      eexists. rewrite list_lookup_insert_eq; [done|]. rewrite length_insert. lia.
  - unfold thread_step. rewrite Ht, Hc. cbn. rewrite list_lookup_insert_eq; [done|lia].
Qed.

Lemma threads_init_inv : threads_inv (replicate (length ctxs) NotStarted, false).
Proof.
  split; cbn; [by rewrite length_replicate| |done]. intros i ctx r _ Hi.
  by apply lookup_replicate in Hi as [? _].
Qed.

Lemma run_threads_spec schedule i ctx :
  ctxs !! i = Some ctx →
  ∃ r, @run_threads C E F merged ctxs schedule !! i = Some (Done r) ∧
    (r = build ctx ∨ (r = None ∧ some_failure)).
Proof.
  intros Hc. pose proof (lookup_lt_Some _ _ _ Hc) as Hi. unfold run_threads.
  pose proof (threads_run_inv (schedule ++ concat ((λ i, [i; i]) <$> seq 0 (length ctxs))) _ threads_init_inv) as Hinv.
  assert (Hd : ∃ r, (foldl (@thread_step C E F merged ctxs) (replicate (length ctxs) NotStarted, false)
    (schedule ++ concat ((λ i, [i; i]) <$> seq 0 (length ctxs)))).1 !! i = Some (Done r)).
  { assert (Hseq : seq 0 (length ctxs) = seq 0 i ++ i :: seq (S i) (length ctxs - S i)).
    { rewrite <- (take_drop i (seq 0 (length ctxs))), take_seq, Nat.min_l by lia. f_equal.
      rewrite drop_seq. by replace (length ctxs - i)%nat with (S (length ctxs - S i)) by lia. }
    rewrite Hseq, fmap_app, concat_app. cbn [fmap list_fmap concat].
    rewrite !foldl_app. set (st := foldl _ (foldl _ _ schedule) _).
    assert (Hst : threads_inv st) by apply threads_run_inv, threads_run_inv, threads_init_inv.
    destruct (thread_two_steps st i (tv_length st Hst) Hi) as [r Hr]. exists r.
    apply threads_run_done; [done|]. by exists r. }
  destruct Hd as [r Hr]. exists r. split; [done|]. by apply (tv_done _ Hinv i ctx r).
Qed.

(** ** The two paths agree *)

(** The same files; the blob files are left out. *)
Definition same_files (p q : Built) : Prop :=
  ph_metas p = ph_metas q ∧ ph_files p = ph_files q ∧ ph_to_sync p = ph_to_sync q.

(** A bucket whose table is empty leaves nothing to sync. *)
Definition syncs_files : Prop :=
  ∀ ctx r, build ctx = Some r → file_size (built_meta r) <= 0 → built_to_sync r = [].

Lemma add_same idx r p q :
  (file_size (built_meta r) <= 0 → built_to_sync r = []) → same_files p q →
  same_files (add_context idx r p) (add_built idx r q).
Proof.
  intros Hr (H1 & H2 & H3). unfold same_files, add_context, add_built.
  destruct (Z.ltb_spec 0 (file_size (built_meta r))) as [|Hle]; cbn; [by rewrite H1, H2, H3|].
  by rewrite (Hr Hle), app_nil_r.
Qed.

Lemma collect_same cs threads p q :
  syncs_files → same_files p q →
  Forall2 (λ ctx t, ∃ r, t = Done r ∧ (r = build ctx ∨ r = None ∧ some_failure)) cs threads →
  match collect_contexts cs threads p, @sequential C E F merged cs q with
  | Some p', Some q' => same_files p' q'
  | None, None => True
  | Some _, None => False
  | None, Some _ => some_failure
  end.
Proof.
  intros Hsync Hpq Hcs. revert p q Hpq. induction Hcs as [|ctx t cs threads (r & -> & Hr) _ IH]; intros p q Hpq;
    [done|]. cbn [collect_contexts sequential]. destruct Hr as [->|[-> Hf]].
  - destruct (build ctx) as [r|] eqn:Eb; [|done]. apply IH, add_same; [|done]. by apply Hsync with ctx.
  - destruct (build ctx); [|done]. by destruct (sequential _ _).
Qed.

Lemma sequential_failure cs i ctx q :
  cs !! i = Some ctx → build ctx = None → @sequential C E F merged cs q = None.
Proof.
  revert i q. induction cs as [|c cs IH]; intros [|i] q Hi Hb; cbn in *; simplify_eq; [by rewrite Hb|].
  destruct (build c); [|done]. by eapply IH.
Qed.

Lemma parallel_sequential schedule :
  syncs_files →
  match @parallel C E F merged ctxs schedule, @sequential C E F merged ctxs no_files with
  | Some p, Some q => same_files p q
  | None, None => True
  | _, _ => False
  end.
Proof.
  intros Hsync.
  assert (Hall : Forall2 (λ ctx t, ∃ r, t = Done r ∧ (r = build ctx ∨ r = None ∧ some_failure)) ctxs
    (@run_threads C E F merged ctxs schedule)).
  { apply Forall2_same_length_lookup_2.
    - unfold run_threads.
      pose proof (threads_run_inv (schedule ++ concat ((λ i, [i; i]) <$> seq 0 (length ctxs))) _ threads_init_inv) as Hinv.
      by rewrite (tv_length _ Hinv).
    - intros i ctx t Hc Ht. destruct (run_threads_spec schedule i ctx Hc) as (r & Hr & Hd).
      exists r. split; [congruence|done]. }
  pose proof (collect_same ctxs _ no_files no_files Hsync ltac:(done) Hall) as H. unfold parallel.
  destruct (collect_contexts _ _ _), (sequential _ _ _) eqn:Es; try done.
  destruct H as (i & ctx & Hc & Hb). by rewrite (sequential_failure _ _ _ _ Hc Hb) in Es.
Qed.
End threads.

Lemma build_syncs_files (C : Comparator) (E : BuildEnv) (F : FlushEnv) merged :
  ComparatorOk C → BuildEnvOk E → smallest flush_meta = [] ∧ largest flush_meta = [] →
  syncs_files C E F merged.
Proof.
  intros HC HE [Hs Hl] c r Hb Hle.
  pose proof (build_table_positive C HC E HE _ _ (bucket_meta (bucket_idx c)) _ _ Hs Hl Hb) as [Hz1 Hz2].
  destruct (build_table_spec C HC E _ _ (bucket_meta (bucket_idx c)) _ _ Hs Hl Hb) as (_ & _ & Hsync).
  apply Hsync, Hz2. lia.
Qed.

Lemma collect_blobs cs threads p q : collect_contexts cs threads p = Some q → ph_blobs q = ph_blobs p.
Proof.
  revert threads p. induction cs as [|c cs IH]; intros threads p; cbn [collect_contexts].
  { by intros [= <-]. }
  destruct threads as [|[| |[r|]] threads]; try done. intros ->%IH. unfold add_context. by destruct (_ <? _).
Qed.

(** The result of the parallel path does not depend on the interleaving. *)
Lemma parallel_unique (C : Comparator) (E : BuildEnv) (F : FlushEnv) merged ctxs s1 s2 :
  syncs_files C E F merged →
  @parallel C E F merged ctxs s1 = @parallel C E F merged ctxs s2.
Proof.
  intros Hsync. pose proof (parallel_sequential C E F merged ctxs s1 Hsync) as H1.
  pose proof (parallel_sequential C E F merged ctxs s2 Hsync) as H2.
  destruct (parallel merged ctxs s1) as [p1|] eqn:E1, (parallel merged ctxs s2) as [p2|] eqn:E2;
    destruct (sequential merged ctxs no_files) as [q|]; try done.
  apply collect_blobs in E1, E2. destruct H1 as (A1 & A2 & A3), H2 as (B1 & B2 & B3).
  destruct p1, p2. cbn in *. congruence.
Qed.

(** ** The files of a flush *)

Section files.
#[local] Existing Instance BytewiseComparator.
Context (E : BuildEnv) (HE : BuildEnvOk E) (F : FlushEnv) (merged : list entry).
Context (Hsorted : StronglySorted (entry_le (@InternalKeyCompare BytewiseComparator)) merged).
Context (Hfresh : Forall fresh merged) (Hsize : Z.of_nat (length merged) < 2 ^ 64).
Context (Hmeta : smallest flush_meta = [] ∧ largest flush_meta = []).

Abbreviation build := (@build_bucket BytewiseComparator E F merged).
Abbreviation input c := (bucket_input merged (ctx_min_key c) (ctx_max_key c)).

Lemma announced_contexts m bs :
  partitioned m bs →
  announced (contexts merged (GetSnapshot m)) =
  filter (λ r, filter (λ e, in_range r (ExtractUserKey e.1)) merged ≠ []) (ranges_from [] bs).
Proof using Hsize.
  intros Hp. rewrite (contexts_spec m bs merged Hp Hsize). clear Hp.
  assert (Hgen : ∀ (h : nat → nat) l, announced (omap (λ x, x) (imap (λ i r,
      if decide (filter (λ e, in_range r (ExtractUserKey e.1)) merged = []) then None
      else Some (context_of merged (h i) r)) l)) =
    filter (λ r, filter (λ e, in_range r (ExtractUserKey e.1)) merged ≠ []) l).
  { intros h l. revert h. induction l as [|r l IH]; intros h; [done|]. rewrite imap_cons, filter_cons.
    cbn [omap list_omap]. specialize (IH (h ∘ S)). unfold compose in *. cbn.
    destruct (decide (filter _ merged = [])) as [E0|E0].
    - rewrite decide_False by (intros H; exact (H E0)). apply IH.
    - rewrite decide_True by exact E0. cbn. destruct r. cbn. by rewrite <- IH. }
  apply (Hgen (λ i, i)).
Qed.

Lemma inputs_partition m bs :
  partitioned m bs → concat ((λ c, input c) <$> contexts merged (GetSnapshot m)) = merged.
Proof using Hsorted Hfresh Hsize.
  intros Hp. pose proof Hp as [_ Hinc].
  assert (Ha : concat ((λ c, input c) <$> contexts merged (GetSnapshot m)) =
    concat ((λ r, filter (λ e, in_range r (ExtractUserKey e.1)) merged) <$> announced (contexts merged (GetSnapshot m)))).
  { unfold announced. rewrite <- list_fmap_compose. f_equal. apply list_fmap_ext. intros i c _.
    by apply bucket_input_filter. }
  rewrite Ha, (announced_contexts m bs Hp). clear Ha Hp.
  etrans; [|apply (concat_ranges [] bs merged Hsorted Hinc), Forall_true; intros; apply key_le_nil].
  induction (ranges_from [] bs) as [|r l IH]; [done|]. rewrite filter_cons. cbn [fmap list_fmap concat].
  case_decide as E0; cbn [fmap list_fmap concat]; [by rewrite IH|]. rewrite IH.
  by rewrite E0.
Qed.

(** Consecutive buckets do not touch: what one ends before, the next starts at. *)
Definition before (r r' : key * key) : Prop := r.2 ≠ [] ∧ key_le r.2 r'.1.

Lemma ranges_from_sorted lo bs : increasing lo bs → StronglySorted before (ranges_from lo bs).
Proof.
  revert lo. induction bs as [|b bs IH]; intros lo Hi; cbn [ranges_from]; [repeat constructor|].
  destruct Hi as [Hb Hi]. constructor; [by apply IH|]. apply Forall_lookup_2. intros i r Hr.
  split; cbn; [intros ->; destruct Hb; apply key_le_nil|]. by eapply ranges_from_above.
Qed.

(** The files that are kept. *)
Definition kept (rs : list BuildResult) : list FileMetaData :=
  built_meta <$> filter (λ r, 0 < file_size (built_meta r)) rs.

Definition file_before (f g : FileMetaData) : Prop := ¬ key_le (smallest_ukey g) (largest_ukey f).

Definition inside (r : key * key) (f : FileMetaData) : Prop :=
  in_range r (smallest_ukey f) ∧ in_range r (largest_ukey f).

Lemma kept_sorted rgs rs :
  StronglySorted before rgs →
  Forall2 (λ rg r, 0 < file_size (built_meta r) → inside rg (built_meta r)) rgs rs →
  StronglySorted file_before (kept rs).
Proof.
  intros Hs H2. induction H2 as [|rg r rgs rs Hr H2 IH]; [constructor|].
  apply StronglySorted_inv in Hs as [Hs Hrg]. specialize (IH Hs). unfold kept. rewrite filter_cons.
  case_decide as Hpos; [|done]. cbn [fmap list_fmap]. constructor; [done|].
  apply Forall_fmap, Forall_forall. intros r' [Hpos' Hin]%list_elem_of_filter.
  apply list_elem_of_lookup in Hin as [i Hi]. destruct (Forall2_lookup_r _ _ _ _ _ H2 Hi) as (rg' & Hg & Hr').
  pose proof (Forall_lookup_1 _ _ _ _ Hrg Hg) as [Hne Hle].
  destruct (Hr Hpos) as [_ [_ [|H1]]]; [done|]. destruct (Hr' Hpos') as [[H3 _] _].
  unfold file_before. cbn in *. key_order.
Qed.

(** The table of a bucket stays within the bucket. *)
Lemma build_inside c r :
  build c = Some r → 0 < file_size (built_meta r) → inside (ctx_min_key c, ctx_max_key c) (built_meta r).
Proof using HE Hsorted Hfresh Hmeta.
  intros Hb Hpos. destruct Hmeta as [Hs Hl]. unfold build_bucket in Hb.
  pose proof (build_table_positive _ bytewise_ok E HE _ _ (bucket_meta (bucket_idx c)) _ _ Hs Hl Hb) as [_ Hz].
  destruct (build_table_spec _ bytewise_ok E _ _ (bucket_meta (bucket_idx c)) _ _ Hs Hl Hb) as (outputs & Hok & _).
  destruct (to_bounds _ _ _ _ _ _ _ Hok eq_refl) as [Hlo Hhi].
  pose proof (to_records _ _ _ _ _ _ _ Hok) as Hrec. cbn in Hrec. rewrite app_nil_r in Hrec.
  assert (Hkeys : ∀ x, x ∈ records_of E outputs → in_range (ctx_min_key c, ctx_max_key c) (ExtractUserKey x.1)).
  { intros x (o & -> & Ho)%list_elem_of_fmap. rewrite after_flush_user_key.
    destruct (to_outputs _ _ _ _ _ _ _ Hok) as [->|[_ ->]]; [|by apply not_elem_of_nil in Ho].
    apply compaction_iterator_keys in Ho as (e & He & ->).
    rewrite bucket_input_filter in He by done. by apply list_elem_of_filter in He as [He _]. }
  unfold inside, smallest_ukey, largest_ukey. rewrite Hlo, Hhi.
  destruct (records_of E outputs) as [|x xs]; [rewrite (proj2 Hz) in Hpos by done; lia|].
  split; [apply Hkeys; apply list_elem_of_here|].
  destruct (last (x :: xs)) as [y|] eqn:Ey; [|by apply last_None in Ey].
  apply Hkeys. apply last_Some_elem_of in Ey. done.
Qed.

Definition kept_buckets (cs : list BucketContext) (rs : list BuildResult) : list nat :=
  (bucket_idx ∘ fst) <$> filter (λ cr, 0 < file_size (built_meta cr.2)) (zip cs rs).

Lemma sequential_spec cs q p :
  @sequential _ E F merged cs q = Some p →
  ∃ rs, Forall2 (λ c r, build c = Some r) cs rs ∧ ph_metas p = ph_metas q ++ kept rs ∧
    ph_files p = ph_files q ++ kept_buckets cs rs ∧ ph_blobs p = ph_blobs q ++ concat (built_blobs <$> rs).
Proof.
  revert q. induction cs as [|c cs IH]; intros q; cbn [sequential].
  { intros [= <-]. exists []. unfold kept, kept_buckets. cbn. rewrite !app_nil_r. by split_and!. }
  destruct (build c) as [r|] eqn:Eb; [|done]. intros (rs & H1 & H2 & H3 & H4)%IH. exists (r :: rs).
  split; [by constructor|]. unfold kept, kept_buckets in *. cbn [zip zip_with fmap list_fmap concat].
  rewrite !filter_cons. cbn [snd]. unfold add_built in H2, H3, H4.
  destruct (Z.ltb_spec 0 (file_size (built_meta r))); [rewrite !decide_True by done|rewrite !decide_False by lia];
    cbn in *; by rewrite H2, H3, H4, <- ?app_assoc.
Qed.

(** Whichever path is taken, the files are those of the contexts. *)
Lemma build_phase_spec cs schedule p :
  @build_phase _ E F merged cs schedule = Some p →
  ∃ rs, Forall2 (λ c r, build c = Some r) cs rs ∧ ph_metas p = kept rs ∧ ph_files p = kept_buckets cs rs.
Proof using HE Hmeta.
  unfold build_phase. destruct (_ && _).
  - intros Hp. pose proof (parallel_sequential _ E F merged cs schedule
      (build_syncs_files _ E F merged bytewise_ok HE Hmeta)) as H. rewrite Hp in H.
    destruct (sequential _ cs no_files) as [q|] eqn:Eq; [|done]. destruct H as (H1 & H2 & _).
    apply sequential_spec in Eq as (rs & R1 & R2 & R3 & _). exists rs. rewrite H1, H2, R2, R3. by split_and!.
  - intros (rs & R1 & R2 & R3 & _)%sequential_spec. by exists rs.
Qed.

Lemma add_files_edit fs e :
  new_files_ (foldl (λ e f, EditAddFile 0 (added_file f) e) e fs) =
  new_files_ e ++ ((λ f, (0, added_file f)) <$> fs).
Proof.
  revert e. induction fs as [|f fs IH]; intros e; cbn [foldl fmap list_fmap]; [by rewrite app_nil_r|].
  rewrite IH. change ((0, added_file f) :: ?l) with ([(0, added_file f)] ++ l). rewrite app_assoc. f_equal.
  unfold EditAddFile. destruct (last_sequence_ e) as [q|]; [destruct (q <? _)|]; done.
Qed.

Lemma apply_files_edit p e :
  new_files_ (apply_files p e) = new_files_ e ++ ((λ f, (0, added_file f)) <$> ph_metas p).
Proof.
  unfold apply_files. rewrite <- add_files_edit.
  generalize (foldl (λ e f, EditAddFile 0 (added_file f) e) e (ph_metas p)). intros e1.
  revert e1. induction (ph_blobs p) as [|b l IH]; intros e1; [done|]. cbn [foldl]. by rewrite IH.
Qed.

(** What a successful flush has written. *)
Record flush_ok (snap : BucketSnapshot) (rs : list BuildResult) (p : Built) : Prop := {
  fo_tables : Forall2 (λ c r, ∃ outputs,
    table_ok BytewiseComparator E (input c) [] (PackFileNumberAndPathId (NewFileNumber (bucket_idx c)) 0) r outputs)
    (contexts merged snap) rs;
  fo_inside : Forall2 (λ c r, 0 < file_size (built_meta r) →
    inside (ctx_min_key c, ctx_max_key c) (built_meta r)) (contexts merged snap) rs;
  fo_disjoint : StronglySorted file_before (kept rs);
  fo_metas : ph_metas p = kept rs;
  fo_files : ph_files p = kept_buckets (contexts merged snap) rs;
}.

Lemma build_phase_ok m bs schedule p :
  partitioned m bs →
  @build_phase _ E F merged (contexts merged (GetSnapshot m)) schedule = Some p →
  ∃ rs, flush_ok (GetSnapshot m) rs p.
Proof using HE Hsorted Hfresh Hsize Hmeta.
  intros Hp (rs & R1 & R2 & R3)%build_phase_spec. exists rs.
  assert (Hin : Forall2 (λ c r, 0 < file_size (built_meta r) →
    inside (ctx_min_key c, ctx_max_key c) (built_meta r)) (contexts merged (GetSnapshot m)) rs).
  { eapply Forall2_impl; [exact R1|]. intros c r. apply build_inside. }
  split; [|done| |done|done].
  - eapply Forall2_impl; [exact R1|]. intros c r Hb. destruct Hmeta as [Hs Hl].
    destruct (build_table_spec _ bytewise_ok E _ _ (bucket_meta (bucket_idx c)) _ _ Hs Hl Hb)
      as (outputs & Hok & _). by exists outputs.
  - apply (kept_sorted (announced (contexts merged (GetSnapshot m)))).
    + rewrite (announced_contexts m bs Hp). apply StronglySorted_filter, ranges_from_sorted, Hp.
    + unfold announced. by apply Forall2_fmap_l.
Qed.
End files.

(** ** The statistics of a flush *)

#[export] Instance inside_dec r f : Decision (inside r f).
Proof. unfold inside. apply _. Defined.

(** Every kept file lies inside one of the buckets. *)
Definition bucketed (rgs : list (key * key)) (f : FileMetaData) : Prop :=
  ∃ i r, rgs !! i = Some r ∧ inside r f.

Lemma inside_rank m bs f i r :
  partitioned m bs → bucketed (ranges_from [] bs) f → ranges_from [] bs !! i = Some r →
  inside r f ↔ rank bs (smallest_ukey f) = i.
Proof.
  intros [_ Hinc] (j & r' & Hj & Hin) Hi. pose proof (in_range_rank [] bs (smallest_ukey f)) as Hr. split.
  - intros [H _]. symmetry. by apply (Hr i r Hinc (key_le_nil _) Hi).
  - intros Hk. destruct Hin as [H1 H2]. apply (Hr j r' Hinc (key_le_nil _) Hj) in H1 as Hj'.
    assert (i = j) as -> by congruence. rewrite Hi in Hj. injection Hj as ->. done.
Qed.

Definition with_bytes (n : Z) (r : BucketFlushResult) : BucketFlushResult :=
  mkBucketFlushResult (bfr_file_count r) (bfr_entry_count r) n (bfr_median_key r) (bfr_min_key r) (bfr_max_key r).

Lemma add_data_bytes_spec m bs metas res i r x :
  partitioned m bs → Forall (bucketed (ranges_from [] bs)) metas → length res = S (length bs) →
  ranges_from [] bs !! i = Some r → res !! i = Some x →
  foldl (add_data_bytes (GetSnapshot m)) res metas !! i =
  Some (with_bytes (foldl (λ n f, n +64 file_size f) (bfr_data_bytes x) (filter (inside r) metas)) x).
Proof.
  intros Hp Hm Hl Hi. revert res x Hl. induction Hm as [|f metas Hf _ IH]; intros res x Hl Hx; cbn [foldl].
  { rewrite Hx, filter_nil. by destruct x. }
  pose proof (inside_rank m bs f i r Hp Hf Hi) as Hin.
  set (x' := if decide (inside r f) then with_bytes (bfr_data_bytes x +64 file_size f) x else x).
  rewrite (IH _ x').
  - rewrite filter_cons. subst x'. by case_decide.
  - unfold add_data_bytes. destruct (_ && _); by rewrite ?length_alter.
  - unfold add_data_bytes. rewrite (snapshot_find m bs _ Hp). pose proof (rank_le bs (smallest_ukey f)).
    rewrite (proj2 (Z.leb_le 0 _)), (proj2 (Z.ltb_lt _ _)) by lia. cbn [andb]. rewrite Nat2Z.id, list_lookup_alter.
    subst x'. destruct (decide (rank bs (smallest_ukey f) = i)) as [Hk|Hk].
    + rewrite decide_True by (by apply Hin). by rewrite Hk, Hx.
    + rewrite decide_False by (by rewrite Hin). done.
Qed.

Lemma contexts_idx m bs merged c :
  partitioned m bs → Z.of_nat (length merged) < 2 ^ 64 → c ∈ contexts merged (GetSnapshot m) →
  ranges_from [] bs !! bucket_idx c = Some (ctx_min_key c, ctx_max_key c).
Proof.
  intros Hp Hn. rewrite (contexts_spec m bs merged Hp Hn). intros (x & Hx & Hc)%list_elem_of_omap. subst x.
  apply list_elem_of_lookup in Hx as [i Hi]. rewrite list_lookup_imap in Hi.
  destruct (ranges_from [] bs !! i) as [r|] eqn:Er; [|done]. cbn in Hi. destruct (decide _); [done|].
  injection Hi as Hi. subst c. cbn. rewrite Er. by destruct r.
Qed.

Lemma count_files_spec m bs i r cs rs :
  partitioned m bs → ranges_from [] bs !! i = Some r →
  Forall (λ c, ranges_from [] bs !! bucket_idx c = Some (ctx_min_key c, ctx_max_key c)) cs →
  Forall2 (λ c x, 0 < file_size (built_meta x) → inside (ctx_min_key c, ctx_max_key c) (built_meta x)) cs rs →
  count_files i (kept_buckets cs rs) = Z.of_nat (length (filter (inside r) (kept rs))).
Proof.
  intros Hp Hi Hidx H2. unfold count_files. f_equal.
  induction H2 as [|c x cs rs Hx _ IH]; [done|]. apply Forall_cons in Hidx as [Hc Hidx]. specialize (IH Hidx).
  unfold kept_buckets, kept in *. cbn [zip zip_with]. rewrite !filter_cons. cbn [snd].
  destruct (decide (0 < file_size (built_meta x))) as [Hpos|]; [|done]. specialize (Hx Hpos).
  cbn [fmap list_fmap compose fst]. rewrite !filter_cons.
  assert (Hin : inside r (built_meta x) ↔ i = bucket_idx c).
  { assert (Hb : bucketed (ranges_from [] bs) (built_meta x)) by (by exists (bucket_idx c), (ctx_min_key c, ctx_max_key c)).
    rewrite (inside_rank m bs _ i r Hp Hb Hi). apply (inside_rank m bs _ _ _ Hp Hb Hc) in Hx. naive_solver. }
  destruct (decide (i = bucket_idx c)) as [Ei|Ei].
  - rewrite decide_True by (by apply Hin). cbn. by rewrite <- IH.
  - rewrite decide_False by (by rewrite Hin). done.
Qed.

Lemma kept_bucketed bs cs rs :
  Forall (λ c, ranges_from [] bs !! bucket_idx c = Some (ctx_min_key c, ctx_max_key c)) cs →
  Forall2 (λ c x, 0 < file_size (built_meta x) → inside (ctx_min_key c, ctx_max_key c) (built_meta x)) cs rs →
  Forall (bucketed (ranges_from [] bs)) (kept rs).
Proof.
  intros Hidx H2. induction H2 as [|c x cs rs Hx _ IH]; [constructor|].
  apply Forall_cons in Hidx as [Hc Hidx]. unfold kept in *. rewrite filter_cons.
  destruct (decide _) as [Hpos|]; [|by apply IH]. cbn [fmap list_fmap]. constructor; [|by apply IH].
  exists (bucket_idx c), (ctx_min_key c, ctx_max_key c). auto.
Qed.

(** ** The split points of the first flush *)

Lemma advance_to_spec fuel l n t :
  (n < length l)%nat → (n <= t)%nat → (length l - n <= fuel)%nat → Z.of_nat (length l) < 2 ^ 64 →
  advance_to fuel (mkCursor l (Some n)) (Z.of_nat n) (Z.of_nat t) =
  if (t <? length l)%nat then (mkCursor l (Some t), Z.of_nat t) else (mkCursor l None, Z.of_nat (length l)).
Proof.
  intros Hn Ht Hf Hl. revert n Hn Ht Hf. induction fuel as [|fuel IH]; intros n Hn Ht Hf; [lia|].
  cbn [advance_to]. unfold cursor_entry. cbn [position table mbind option_bind].
  destruct (lookup_lt_is_Some_2 l n Hn) as [e He]. rewrite He.
  destruct (Z.ltb_spec (Z.of_nat n) (Z.of_nat t)) as [Hlt|Hge].
  - unfold cursor_next. cbn [position table mbind option_bind].
    assert (Hc : Z.of_nat n +64 1 = Z.of_nat (S n)) by (rewrite u64_id; unfold u64_ok; lia). rewrite Hc.
    destruct (Nat.ltb_spec (S n) (length l)) as [Hs|Hs]; [apply IH; lia|].
    rewrite (proj2 (Nat.ltb_ge t (length l))) by lia. replace (S n) with (length l) by lia. by destruct fuel.
  - assert (t = n) as -> by lia. by rewrite (proj2 (Nat.ltb_lt _ _)) by done.
Qed.

Lemma split_points_loop_spec e l idxs j n :
  (n < length l)%nat → (n <= j * e)%nat → Z.of_nat (length l) < 2 ^ 64 →
  Z.of_nat ((j + idxs) * e) < 2 ^ 64 →
  split_points_loop (Z.of_nat e) (seq j idxs) (mkCursor l (Some n)) (Z.of_nat n) =
  omap (λ i, ExtractUserKey ∘ fst <$> l !! (i * e)%nat) (seq j idxs).
Proof.
  intros Hn Hj Hl. revert j n Hn Hj. induction idxs as [|m IH]; intros j n Hn Hj Hb; [done|].
  cbn [seq split_points_loop]. unfold cursor_entry at 1. cbn [position table mbind option_bind].
  destruct (lookup_lt_is_Some_2 l n Hn) as [x Hx]. rewrite Hx.
  assert (Hm : Z.of_nat j *64 Z.of_nat e = Z.of_nat (j * e)) by (rewrite u64_id; unfold u64_ok; nia).
  rewrite Hm, advance_to_spec by lia. cbn [omap list_omap].
  destruct (Nat.ltb_spec (j * e) (length l)) as [Hlt|Hge].
  - unfold cursor_entry. cbn [position table mbind option_bind].
    destruct (lookup_lt_is_Some_2 l (j * e) Hlt) as [y Hy]. rewrite Hy. cbn. f_equal. apply IH; nia.
  - rewrite (lookup_ge_None_2 l (j * e)) by lia. cbn. symmetry.
    apply elem_of_nil_inv. intros k (i & Hi & Hk)%list_elem_of_omap.
    apply elem_of_seq in Hi. by rewrite lookup_ge_None_2 in Hk by nia.
Qed.

(** The sampled keys are those at the multiples of the bucket size. *)
Lemma sample_split_points_spec merged k e :
  Z.of_nat (length merged) < 2 ^ 64 → (0 < k)%nat → (0 < e)%nat →
  Z.of_nat (length merged) / Z.of_nat k = Z.of_nat e →
  SampleSplitPoints merged (Z.of_nat (length merged)) k =
  omap (λ i, ExtractUserKey ∘ fst <$> merged !! (i * e)%nat) (seq 1 (k - 1)).
Proof.
  intros Hl Hk He Hd. unfold SampleSplitPoints. rewrite Hd, (proj2 (Z.ltb_lt 0 _)) by lia.
  destruct merged as [|x l]; [rewrite Z.div_0_l in Hd by lia; lia|]. unfold cursor_first. cbn [table].
  assert ((k * e <= length (x :: l))%nat).
  { pose proof (Z.mul_div_le (Z.of_nat (length (x :: l))) (Z.of_nat k) ltac:(lia)). lia. }
  apply (split_points_loop_spec e (x :: l) (k - 1) 1 0); [cbn; lia|lia|done|].
  replace (1 + (k - 1))%nat with k by lia. lia.
Qed.

Definition distinct_keys (l : list entry) : Prop :=
  StronglySorted (λ a b, ¬ key_le (ExtractUserKey b.1) (ExtractUserKey a.1)) l.

Lemma distinct_cut l a x :
  distinct_keys l → l !! a = Some x →
  filter (λ e, key_le (ExtractUserKey x.1) (ExtractUserKey e.1)) l = drop a l ∧
  filter (λ e, ¬ key_le (ExtractUserKey x.1) (ExtractUserKey e.1)) l = take a l.
Proof.
  intros Hd. revert a. induction Hd as [|y l _ IH Hy]; intros a Ha; [done|]. rewrite !filter_cons.
  destruct a as [|a]; cbn in Ha |- *.
  - injection Ha as ->. rewrite decide_True by key_order. rewrite decide_False by (intros H; apply H; key_order).
    assert (Hall : Forall (λ e, key_le (ExtractUserKey x.1) (ExtractUserKey e.1)) l).
    { eapply Forall_impl; [exact Hy|]. cbn. intros e He. key_order. }
    rewrite filter_all, filter_none by (done || (eapply Forall_impl; [exact Hall|]; tauto)). done.
  - assert (Hlt : ¬ key_le (ExtractUserKey x.1) (ExtractUserKey y.1)).
    { apply (Forall_lookup_1 _ _ _ _ Hy Ha). }
    destruct (IH a Ha) as [IH1 IH2]. rewrite decide_False, decide_True by done. by rewrite IH1, IH2.
Qed.

(** A bound at a position of the list, or at its end. *)
Definition lower_at (l : list entry) (a : nat) (lo : key) : Prop :=
  (a = 0%nat ∧ lo = []) ∨ ∃ x, l !! a = Some x ∧ lo = ExtractUserKey x.1.
Definition upper_at (l : list entry) (b : nat) (hi : key) : Prop :=
  (b = length l ∧ hi = []) ∨ (hi ≠ [] ∧ ∃ y, l !! b = Some y ∧ hi = ExtractUserKey y.1).

Lemma distinct_range l a b lo hi :
  distinct_keys l → (a < b)%nat → (b <= length l)%nat → lower_at l a lo → upper_at l b hi →
  length (filter (λ e, in_range (lo, hi) (ExtractUserKey e.1)) l) = (b - a)%nat.
Proof.
  intros Hd Hab Hbl Hlo Hhi.
  assert (Hup : filter (λ e, hi = [] ∨ ¬ key_le hi (ExtractUserKey e.1)) l = take b l).
  { destruct Hhi as [[-> ->]|(Hne & y & Hy & ->)].
    - rewrite take_ge by done. apply filter_all, Forall_true. by left.
    - rewrite <- (proj2 (distinct_cut l b y Hd Hy)). apply list_filter_iff. intros e. naive_solver. }
  assert (Hd' : distinct_keys (take b l)).
  { unfold distinct_keys in *. rewrite <- (take_drop b l) in Hd. by apply StronglySorted_app_1_l in Hd. }
  assert (Hdown : filter (λ e, key_le lo (ExtractUserKey e.1)) (take b l) = drop a (take b l)).
  { destruct Hlo as [[-> ->]|(x & Hx & ->)].
    - apply filter_all, Forall_true. intros. apply key_le_nil.
    - apply (distinct_cut (take b l) a x Hd'). by rewrite lookup_take_lt. }
  rewrite (list_filter_iff _ (λ e : entry, key_le lo (ExtractUserKey e.1) ∧
    (hi = [] ∨ ¬ key_le hi (ExtractUserKey e.1))) l) by done.
  rewrite <- (list_filter_filter (λ e : entry, key_le lo (ExtractUserKey e.1))
    (λ e : entry, hi = [] ∨ ¬ key_le hi (ExtractUserKey e.1))).
  rewrite Hup, Hdown, length_drop, length_take. lia.
Qed.

Lemma multiples_increasing lo (g : nat → key) j m :
  (m ≠ 0%nat → ¬ key_le (g j) lo) → (∀ i, (j <= i)%nat → (S i < j + m)%nat → ¬ key_le (g (S i)) (g i)) →
  increasing lo (g <$> seq j m).
Proof.
  revert lo j. induction m as [|m IH]; intros lo j Hlo Hg; [done|]. cbn. split; [by apply Hlo|]. apply IH.
  - intros Hm. apply Hg; lia.
  - intros i H1 H2. apply Hg; lia.
Qed.

Section balanced.
Context (merged : list entry) (k e : nat) (Hd : distinct_keys merged) (Hk : (0 < k)%nat) (He : (0 < e)%nat).
Context (Hl : Z.of_nat (length merged) < 2 ^ 64) (Hdiv : Z.of_nat (length merged) / Z.of_nat k = Z.of_nat e).

Definition key_at (n : nat) : key := default [] (ExtractUserKey ∘ fst <$> merged !! n).

Lemma buckets_fit : (k * e <= length merged)%nat.
Proof using Hk He Hdiv. pose proof (Z.mul_div_le (Z.of_nat (length merged)) (Z.of_nat k) ltac:(lia)). lia. Qed.

Lemma key_at_lookup n : (n < length merged)%nat → ∃ x, merged !! n = Some x ∧ key_at n = ExtractUserKey x.1.
Proof. intros [x Hx]%lookup_lt_is_Some_2. exists x. unfold key_at. by rewrite Hx. Qed.

Lemma key_at_lt n m : (n < m)%nat → (m < length merged)%nat → ¬ key_le (key_at m) (key_at n).
Proof using Hd Hk He.
  intros Hnm Hm. destruct (key_at_lookup n ltac:(lia)) as (x & Hx & ->), (key_at_lookup m Hm) as (y & Hy & ->).
  exact (StronglySorted_lookup _ _ n m x y Hd Hnm Hx Hy).
Qed.

Lemma samples : SampleSplitPoints merged (Z.of_nat (length merged)) k = (λ i, key_at (i * e)) <$> seq 1 (k - 1).
Proof using Hk He Hl Hdiv.
  rewrite (sample_split_points_spec merged k e) by done. apply omap_all_Some, Forall_forall.
  intros i Hi%elem_of_seq. pose proof buckets_fit. destruct (key_at_lookup (i * e)) as (x & Hx & ->); [nia|].
  by rewrite Hx.
Qed.

Lemma samples_increasing : increasing [] (SampleSplitPoints merged (Z.of_nat (length merged)) k).
Proof using Hd Hk He Hl Hdiv.
  rewrite samples. pose proof buckets_fit. apply multiples_increasing.
  - intros Hne Hle. destruct (key_at_lt 0 (1 * e)); [lia|nia|].
    pose proof (key_le_nil (key_at 0)). key_order.
  - intros i H1 H2. apply key_at_lt; nia.
Qed.

Lemma samples_count i r :
  ranges_from [] (SampleSplitPoints merged (Z.of_nat (length merged)) k) !! i = Some r →
  length (filter (λ x, in_range r (ExtractUserKey x.1)) merged) =
  if (i =? k - 1)%nat then (length merged - (k - 1) * e)%nat else e.
Proof using Hd Hk He Hl Hdiv.
  rewrite samples. pose proof buckets_fit as Hf. intros Hr.
  assert (Hi : (i < k)%nat).
  { apply lookup_lt_Some in Hr. rewrite length_ranges_from, length_fmap, length_seq in Hr. lia. }
  rewrite lookup_ranges_from in Hr by (rewrite length_fmap, length_seq; lia). injection Hr as <-.
  rewrite !list_lookup_fmap.
  assert (Hlo : lower_at merged (i * e) (if (i =? 0)%nat then [] else default [] ((λ i, key_at (i * e)) <$> seq 1 (k - 1) !! (i - 1)%nat))).
  { destruct (Nat.eqb_spec i 0) as [->|Hi0]; [by left|]. right. rewrite lookup_seq_lt by lia. cbn [fmap option_fmap option_map default].
    replace (1 + (i - 1))%nat with i by lia. apply key_at_lookup. nia. }
  destruct (Nat.eqb_spec i (k - 1)) as [->|Hlast].
  - rewrite (lookup_seq_ge _ _ (k - 1)) by lia. cbn [fmap option_fmap option_map default].
    apply (distinct_range merged ((k - 1) * e) (length merged)); [done|nia|done|done|by left].
  - rewrite (lookup_seq_lt 1 (k - 1) i) by lia. cbn [fmap option_fmap option_map default].
    rewrite (distinct_range merged (i * e) (S i * e)); [nia|done|nia|nia|done|]. right. split.
    + intros H0. destruct (key_at_lt 0 (S i * e)); [nia|nia|]. change (key_at (S i * e) = []) in H0. rewrite H0. apply key_le_nil.
    + apply key_at_lookup. nia.
Qed.
End balanced.

(** ** Properties *)



(** The statistics a successful build reports to the bucket manager are
    exact: for every bucket, the number of its entries, the number of files
    inside it and the sum of their sizes (at 64 bits). *)
Theorem flush_statistics_exact (E : BuildEnv) (F : FlushEnv) merged m bs rs p i r :
  Z.of_nat (length merged) < 2 ^ 64 → partitioned m bs → flush_ok E F merged (GetSnapshot m) rs p →
  bucket_ranges m !! i = Some r →
  let files := filter (inside r) (ph_metas p) in
  let es := filter (λ e, in_range r (ExtractUserKey e.1)) merged in
  flush_results merged (GetSnapshot m) p !! i =
  Some (mkBucketFlushResult (Z.of_nat (length files)) (Z.of_nat (length es)) (sum64 (file_size <$> files))
    (median_of ((λ e, ExtractUserKey e.1) <$> es)) r.1 r.2).
Proof.
  intros Hn Hp Hok Hi files es. pose proof Hp as [Hr _]. rewrite Hr in Hi.
  assert (Hidx : Forall (λ c, ranges_from [] bs !! bucket_idx c = Some (ctx_min_key c, ctx_max_key c))
    (contexts merged (GetSnapshot m))) by (apply Forall_forall; intros c; by apply contexts_idx).
  pose proof (kept_bucketed bs _ _ Hidx (fo_inside _ _ _ _ _ _ Hok)) as Hb.
  unfold flush_results, files. rewrite (fo_metas _ _ _ _ _ _ Hok), (fo_files _ _ _ _ _ _ Hok).
  rewrite (count_entries_spec m bs merged Hp Hn), (snapshot_ranges m bs Hp).
  rewrite (add_data_bytes_spec m bs _ _ i r (mkBucketFlushResult
    (count_files i (kept_buckets (contexts merged (GetSnapshot m)) rs)) (Z.of_nat (length es)) 0
    (median_of ((λ e, ExtractUserKey e.1) <$> es)) r.1 r.2) Hp Hb); [|
    rewrite length_imap, length_zip_with, length_fmap, length_ranges_from; lia|done|
    rewrite list_lookup_imap, lookup_zip_with, list_lookup_fmap, Hi; by destruct r].
  unfold with_bytes. cbn. do 2 f_equal.
  - by apply (count_files_spec m bs i r _ _ Hp Hi Hidx (fo_inside _ _ _ _ _ _ Hok)).
  - unfold sum64. by rewrite foldl_fmap.
Qed.

(** The first flush cuts the key space evenly: with one version per key,
    the keys sampled every [entries / target] entries become the boundaries of
    a partition into the target number of buckets, every bucket but the last
    receives exactly that many entries and the last one the rest. *)
Theorem first_flush_balanced (F : FlushEnv) merged st e :
  fs_manager st = None → total_num_input_entries = Z.of_nat (length merged) →
  Z.of_nat (length merged) < 2 ^ 64 → distinct_keys merged →
  (0 < initial_split_count)%nat → (0 < e)%nat →
  Z.of_nat (length merged) / Z.of_nat initial_split_count = Z.of_nat e →
  let m := prepare_manager merged true st in
  partitioned m (SampleSplitPoints merged (Z.of_nat (length merged)) initial_split_count) ∧
  length (buckets_ m) = initial_split_count ∧
  ∀ i, (i < initial_split_count)%nat →
    fst <$> count_entries (GetSnapshot m) merged !! i =
    Some (if (i =? initial_split_count - 1)%nat
          then Z.of_nat (length merged) - (Z.of_nat initial_split_count - 1) * Z.of_nat e else Z.of_nat e).
Proof.
  intros Hst Htot Hl Hd Hk He Hdiv m.
  set (bs := SampleSplitPoints merged (Z.of_nat (length merged)) initial_split_count).
  assert (Hp : partitioned m bs).
  { unfold m, prepare_manager. rewrite Hst, Htot. apply initialize_partitioned; [done|].
    exact (samples_increasing merged _ e Hd Hk He Hl Hdiv). }
  assert (Hn : length bs = (initial_split_count - 1)%nat).
  { unfold bs. by rewrite (samples merged _ e Hk He Hl Hdiv), length_fmap, length_seq. }
  split_and!; [done|rewrite (partitioned_length m bs Hp); lia|]. intros i Hi.
  rewrite (count_entries_spec m bs merged Hp Hl), list_lookup_fmap.
  destruct (lookup_lt_is_Some_2 (ranges_from [] bs) i) as [r Hr]; [rewrite length_ranges_from; lia|].
  rewrite Hr. cbn. f_equal. rewrite (samples_count merged _ e Hd Hk He Hl Hdiv i r Hr).
  pose proof (buckets_fit merged _ e Hk He Hdiv). destruct (_ =? _)%nat; [nia|done].
Qed.

(** ** Concrete flushes *)

#[local] Instance sample_char : CharSign := true.

Definition flush_env (parallel : bool) (sync : Z → bool) : FlushEnv := {|
  flush_job_id := 7;
  flush_meta := new_file 1 0 [] [];
  total_num_input_entries := 4;
  initial_split_count := 2;
  parallel_split_flush := parallel;
  enable_adjustment := Some true;
  NewFileNumber := λ i, 10 + Z.of_nat i;
  NewEpochNumber := λ i, 20 + Z.of_nat i;
  GetCurrentTime := λ _, 1000;
  ApproximateOldestKeyTime := 900;
  meanwhile := λ m, m;
  sync_file_ok := sync;
  sync_directory_ok := true;
|}.

Definition sample_state : FlushState := mkFlushState None ∅ NewVersionEdit [].
Definition sample_merged : list entry := sample_entry <$> [x61; x62; x63; x64].

(** Threads that take turns. *)
Definition sample_schedule : list nat := [1; 0; 1; 0]%nat.

Abbreviation flush_with C E F merged :=
  (@WriteBucketLevel0Table C E F sample_char merged true sample_schedule sample_state).

Lemma sample_sorted : StronglySorted (entry_le (@InternalKeyCompare BytewiseComparator)) sample_merged.
Proof. repeat constructor; vm_compute; congruence. Qed.
Lemma sample_distinct : distinct_keys sample_merged.
Proof. repeat constructor; vm_compute; congruence. Qed.
Lemma sample_fresh : Forall fresh sample_merged.
Proof. repeat constructor; vm_compute; congruence. Qed.

Abbreviation sample_flush := (flush_with BytewiseComparator plain_env (flush_env true (λ _, true)) sample_merged).

Lemma sample_flushed : sample_flush = (Flushed, sample_flush.2).
Proof. vm_compute. reflexivity. Qed.



Lemma first_flush_balanced_witness :
  let F := flush_env true (λ _, true) in
  fst <$> count_entries (GetSnapshot (@prepare_manager F sample_merged true sample_state)) sample_merged !! 0%nat =
  Some 2.
Proof.
  refine (proj2 (proj2 (first_flush_balanced (flush_env true (λ _, true)) sample_merged sample_state 2
    eq_refl eq_refl _ sample_distinct _ _ _)) 0%nat _); try reflexivity; cbn; lia.
Defined.

Lemma flush_statistics_exact_witness :
  ∃ p, flush_results sample_merged
      (GetSnapshot (@prepare_manager (flush_env true (λ _, true)) sample_merged true sample_state)) p !! 1%nat =
    Some (mkBucketFlushResult (Z.of_nat (length (filter (inside ([x63], [])) (ph_metas p)))) 2
      (sum64 (file_size <$> filter (inside ([x63], [])) (ph_metas p))) [x64] [x63] []).
Proof.
  destruct (build_phase_ok plain_env plain_env_ok (flush_env true (λ _, true)) sample_merged sample_sorted
    sample_fresh eq_refl (conj eq_refl eq_refl)
    (@prepare_manager (flush_env true (λ _, true)) sample_merged true sample_state) [[x63]] sample_schedule
    (default no_files (@build_phase BytewiseComparator plain_env (flush_env true (λ _, true)) sample_merged
       (contexts sample_merged (GetSnapshot
         (@prepare_manager (flush_env true (λ _, true)) sample_merged true sample_state))) sample_schedule)))
    as [rs Hok].
  - apply (bool_decide_unpack _). vm_compute. exact I.
  - vm_compute. reflexivity.
  - eexists. refine (flush_statistics_exact plain_env (flush_env true (λ _, true)) sample_merged _ [[x63]] rs _ 1%nat
      ([x63], []) eq_refl _ Hok eq_refl). apply (bool_decide_unpack _). vm_compute. exact I.
Defined.

(** The same environment with a blob file written per table. *)
Definition blob_env : BuildEnv := {|
  compaction_filter_supported := true;
  compaction_iterator := λ l, (l, true);
  GetProximalSeqnoBeforeTime := None;
  NewWritableFile_ok := λ _, true;
  Close_ok := λ _, true;
  GetFileChecksum := λ _, [];
  GetFileChecksumFuncName := λ _, kUnknownFileChecksumFuncName;
  builder_Finish := λ _, Some (mkTableInfo 100 10 false);
  GetSstInternalUniqueId := None;
  blob_file_builder := λ l, Some [mkBlobFileAddition 30 (Z.of_nat (length l)) 50 [] []];
  output_validation_ok := λ _, true;
  ApproximateSize := λ _ _, 0;
  persist_user_defined_timestamps := true;
|}.

