(* ===== verification/VersionStorage.v ===== *)
(** * The files of a version, by level

    Models the part of [VersionStorageInfo] in [src/db/version_set.cc] that
    answers which files of a level meet a key range: the array of levels and
    what [PrepareForVersionAppend] derives from it, the searches over a level,
    and [GetOverlappingInputs] in its three forms (the expanding loop of level
    0, the binary search of the sorted levels, the clean cut inside an
    interval).  [sstableKeyCompare] is from [src/db/compaction/compaction.cc].

    Level 0 lists files in any order; in the levels below it files are sorted
    and meet at most at a common boundary key ([level_sorted]). *)

From S2P Require Import Prelude Comparator DbFormat FileMeta.

(** ** Comparing the bounds of files *)

(** Ignores sequence numbers; an exclusive bound, the sentinel of a range
    tombstone, is before the key itself. *)
Definition sstableKeyCompare `{Comparator} (a b : key) : comparison :=
  match CompareUser (ExtractUserKey a) (ExtractUserKey b) with
  | Eq =>
      let a_footer := ExtractInternalKeyFooter a in
      let b_footer := ExtractInternalKeyFooter b in
      if a_footer =? kRangeTombstoneSentinel
      then if negb (b_footer =? kRangeTombstoneSentinel) then Lt else Eq
      else if b_footer =? kRangeTombstoneSentinel then Gt else Eq
  | c => c
  end.

Definition sst_ltb `{Comparator} (a b : key) : bool :=
  match sstableKeyCompare a b with Lt => true | _ => false end.
Definition sst_eqb `{Comparator} (a b : key) : bool :=
  match sstableKeyCompare a b with Eq => true | _ => false end.

Definition user_ltb `{Comparator} (a b : key) : bool :=
  match CompareUser a b with Lt => true | _ => false end.

(** The loop stops at a null pointer; the lists of files have none. *)
Definition TotalFileSize (files : list FileMetaData) : Z := sum64 (GetFileSize <$> files).

(** ** The levels *)

Record FdWithKeyRange := mkBrief {
  file_metadata : FileMetaData;
  smallest_key : key;
  largest_key : key;
}.

(** [num_levels_] is the length of [files_]. *)
Record VersionStorageInfo := mkStorage {
  files_ : list (list FileMetaData);
  num_non_empty_levels_ : nat;
  level_files_brief_ : list (list FdWithKeyRange);
  level0_non_overlapping_ : bool;
  bottommost_files_ : list (nat * FileMetaData);
  file_locations_ : gmap Z (nat * nat);
}.

#[export] Instance storage_eta : Eta VersionStorageInfo := λ v,
  mkStorage (files_ v) (num_non_empty_levels_ v) (level_files_brief_ v)
    (level0_non_overlapping_ v) (bottommost_files_ v) (file_locations_ v).

Definition num_levels (v : VersionStorageInfo) : nat := length (files_ v).
Definition LevelFiles (v : VersionStorageInfo) (level : nat) : list FileMetaData :=
  default [] (files_ v !! level).
Definition LevelFilesBrief (v : VersionStorageInfo) (level : nat) : list FdWithKeyRange :=
  default [] (level_files_brief_ v !! level).
Definition NumLevelFiles (v : VersionStorageInfo) (level : nat) : nat := length (LevelFiles v level).
Definition NumLevelBytes (v : VersionStorageInfo) (level : nat) : Z := TotalFileSize (LevelFiles v level).

Definition NewVersionStorageInfo (levels : nat) : VersionStorageInfo :=
  mkStorage (replicate levels []) 0 [] false [] ∅.

Definition AddFile (level : nat) (f : FileMetaData) (v : VersionStorageInfo) : VersionStorageInfo :=
  v <| files_ := alter (λ fs, fs ++ [f]) level (files_ v) |>.

(** The loop from the last level down to the first that has a file. *)
Fixpoint non_empty_loop (files : list (list FileMetaData)) (i : nat) : nat :=
  match i with
  | O => O
  | S j => match files !! j with Some (_ :: _) => i | _ => non_empty_loop files j end
  end.

Definition UpdateNumNonEmptyLevels (v : VersionStorageInfo) : VersionStorageInfo :=
  v <| num_non_empty_levels_ := non_empty_loop (files_ v) (num_levels v) |>.

Definition DoGenerateLevelFilesBrief (files : list FileMetaData) : list FdWithKeyRange :=
  (λ f, mkBrief f (smallest f) (largest f)) <$> files.

Definition GenerateLevelFilesBrief (v : VersionStorageInfo) : VersionStorageInfo :=
  v <| level_files_brief_ := DoGenerateLevelFilesBrief <$> take (num_non_empty_levels_ v) (files_ v) |>.

(** ** Searching a level *)

Definition FindFileInRange `{Comparator} (file_level : list FdWithKeyRange) (k : key)
    (left right : nat) : nat :=
  std_bound (λ f, match InternalKeyCompare (largest_key f) k with Lt => true | _ => false end)
    file_level left right.

Definition FindFile `{Comparator} (file_level : list FdWithKeyRange) (k : key) : nat :=
  FindFileInRange file_level k 0 (length file_level).

(** A null user key is before, respectively after, all keys. *)
Definition AfterFile `{Comparator} (user_key : option key) (f : FdWithKeyRange) : bool :=
  match user_key with
  | Some k => match CompareUser k (ExtractUserKey (largest_key f)) with Gt => true | _ => false end
  | None => false
  end.

Definition BeforeFile `{Comparator} (user_key : option key) (f : FdWithKeyRange) : bool :=
  match user_key with
  | Some k => user_ltb k (ExtractUserKey (smallest_key f))
  | None => false
  end.

Definition SomeFileOverlapsRange `{Comparator} (disjoint_sorted_files : bool)
    (file_level : list FdWithKeyRange) (smallest_user_key largest_user_key : option key) : bool :=
  if negb disjoint_sorted_files then
    existsb (λ f, negb (AfterFile smallest_user_key f || BeforeFile largest_user_key f)) file_level
  else
    let index :=
      match smallest_user_key with
      | Some k => FindFile file_level (MinPossibleForUserKey k)
      | None => O
      end in
    match file_level !! index with
    | None => false
    | Some f => negb (BeforeFile largest_user_key f)
    end.

Definition OverlapInLevel `{Comparator} (v : VersionStorageInfo) (level : nat)
    (smallest_user_key largest_user_key : option key) : bool :=
  if (num_non_empty_levels_ v <=? level)%nat then false
  else SomeFileOverlapsRange (0 <? level)%nat (LevelFilesBrief v level)
         smallest_user_key largest_user_key.

(** The loop over the levels below [last_level]; [last_l0_idx] is the position
    of the file in level 0, where it is one. *)
Definition RangeMightExistAfterSortedRun `{Comparator} (v : VersionStorageInfo)
    (smallest_user_key largest_user_key : key) (last_level : nat) (last_l0_idx : Z) : bool :=
  if (last_level =? 0)%nat && negb (last_l0_idx =? Z.of_nat (NumLevelFiles v 0) - 1) then true
  else
    existsb (λ level,
      match LevelFiles v level with
      | [] => false
      | _ => (last_level =? 0)%nat ||
             OverlapInLevel v level (Some smallest_user_key) (Some largest_user_key)
      end) (seq (S last_level) (num_levels v - S last_level)).

(** ** The rest of [PrepareForVersionAppend] *)

Definition adjacent_disjoint `{Comparator} (fs : list FdWithKeyRange) : bool :=
  forallb (λ pf : FdWithKeyRange * FdWithKeyRange,
    match InternalKeyCompare (largest_key pf.1) (smallest_key pf.2) with Lt => true | _ => false end)
    (zip fs (tail fs)).

Definition GenerateLevel0NonOverlapping `{Comparator, StdChoices} (v : VersionStorageInfo)
    : VersionStorageInfo :=
  v <| level0_non_overlapping_ :=
    match level_files_brief_ v with
    | [] => true
    | level0 :: _ =>
        adjacent_disjoint (std_sort (λ f1 f2,
          match InternalKeyCompare (smallest_key f1) (smallest_key f2) with Lt => true | _ => false end)
          level0)
    end |>.

Definition bottommost_of_level `{Comparator} (v : VersionStorageInfo) (level : nat)
    (fs : list FdWithKeyRange) : list (nat * FileMetaData) :=
  omap (λ p : nat * FdWithKeyRange,
    let f := p.2 in
    let l0_file_idx := if (level =? 0)%nat then Z.of_nat p.1 else -1 in
    if negb (RangeMightExistAfterSortedRun v (ExtractUserKey (smallest_key f))
               (ExtractUserKey (largest_key f)) level l0_file_idx)
    then Some (level, file_metadata f) else None) (imap pair fs).

Definition GenerateBottommostFiles `{Comparator} (v : VersionStorageInfo) : VersionStorageInfo :=
  v <| bottommost_files_ := concat (imap (bottommost_of_level v) (level_files_brief_ v)) |>.

Definition GenerateFileLocationIndex (v : VersionStorageInfo) : VersionStorageInfo :=
  v <| file_locations_ :=
    (list_to_map (concat (imap (λ level fs, imap (λ pos f, (GetNumber f, (level, pos))) fs)
       (files_ v))) : gmap Z (nat * nat)) |>.

(** The steps of [PrepareForVersionAppend] that fill the fields above. *)
Definition PrepareForVersionAppend `{Comparator, StdChoices} (v : VersionStorageInfo)
    : VersionStorageInfo :=
  GenerateFileLocationIndex (GenerateBottommostFiles (GenerateLevel0NonOverlapping
    (GenerateLevelFilesBrief (UpdateNumNonEmptyLevels v)))).

(** ** Overlapping files *)

(** The three output arguments. *)
Record OverlapOut := mkOverlap {
  ov_inputs : list FileMetaData;
  ov_file_index : Z;
  ov_next_smallest : option key;
}.

Fixpoint clean_start `{Comparator} (files : list FdWithKeyRange) (fuel start_index : nat) : nat :=
  match fuel, files !! (start_index - 1)%nat, files !! start_index with
  | S fuel', Some pre, Some cur =>
      if sst_eqb (largest (file_metadata pre)) (smallest (file_metadata cur))
      then clean_start files fuel' (S start_index) else start_index
  | _, _, _ => start_index
  end.

Fixpoint clean_end `{Comparator} (files : list FdWithKeyRange) (start_index fuel end_index : nat) : nat :=
  if (start_index <? end_index)%nat then
    match fuel, files !! end_index, files !! (end_index - 1)%nat with
    | S fuel', Some next, Some cur =>
        if sst_eqb (largest (file_metadata cur)) (smallest (file_metadata next))
        then clean_end files start_index fuel' (end_index - 1) else end_index
    | _, _, _ => end_index
    end
  else end_index.

(** The first index of the result. *)
Definition search_start `{Comparator} (files : list FdWithKeyRange) (begin_ : option key)
    (hint_index : Z) (within_interval : bool) : nat :=
  match begin_ with
  | None => O
  | Some k =>
      let start_index :=
        std_bound (λ f, sst_ltb (if within_interval then smallest (file_metadata f)
                                 else largest (file_metadata f)) k)
          files 0 (if hint_index =? -1 then length files else Z.to_nat hint_index) in
      if (0 <? start_index)%nat && within_interval
      then clean_start files (length files) start_index else start_index
  end.

(** The index after the last of the result. *)
Definition search_end `{Comparator} (files : list FdWithKeyRange) (end_ : option key)
    (start_index : nat) (within_interval : bool) : nat :=
  match end_ with
  | None => length files
  | Some k =>
      let end_index :=
        std_bound (λ f, negb (sst_ltb k (if within_interval then largest (file_metadata f)
                                         else smallest (file_metadata f))))
          files start_index (length files) in
      if (end_index <? length files)%nat && within_interval
      then clean_end files start_index (length files) end_index else end_index
  end.

Definition GetOverlappingInputsRangeBinarySearch `{Comparator} (v : VersionStorageInfo)
    (level : nat) (begin_ end_ : option key) (hint_index file_index0 : Z)
    (within_interval : bool) : OverlapOut :=
  let files := LevelFilesBrief v level in
  let start_index := search_start files begin_ hint_index within_interval in
  let end_index := search_end files end_ start_index within_interval in
  if (start_index =? end_index)%nat then mkOverlap [] file_index0 None
  else
    mkOverlap (take (end_index - start_index) (drop start_index (LevelFiles v level)))
      (Z.of_nat start_index)
      (smallest <$> LevelFiles v level !! end_index).

(** Level 0: one pass over the files not taken yet.  The state holds the range
    ([None] where the caller's bound is null), the files taken and the index of
    the first. *)
Record PassState := mkPass {
  ps_begin : option key;
  ps_end : option key;
  ps_inputs : list FileMetaData;
  ps_first : Z;
}.

Definition before_range `{Comparator} (f : FdWithKeyRange) (user_begin : option key) : bool :=
  match user_begin with
  | Some k => user_ltb (ExtractUserKey (largest_key f)) k
  | None => false
  end.

Definition after_range `{Comparator} (f : FdWithKeyRange) (user_end : option key) : bool :=
  match user_end with
  | Some k => user_ltb k (ExtractUserKey (smallest_key f))
  | None => false
  end.

Definition widen_begin `{Comparator} (f : FdWithKeyRange) (user_begin : option key) : option key :=
  (λ k, let s := ExtractUserKey (smallest_key f) in if user_ltb s k then s else k) <$> user_begin.
Definition widen_end `{Comparator} (f : FdWithKeyRange) (user_end : option key) : option key :=
  (λ k, let l := ExtractUserKey (largest_key f) in if user_ltb k l then l else k) <$> user_end.

Definition take_file `{Comparator} (expand_range : bool) (i : nat) (f : FdWithKeyRange)
    (file : FileMetaData) (st : PassState) : PassState :=
  mkPass (if expand_range then widen_begin f (ps_begin st) else ps_begin st)
    (if expand_range then widen_end f (ps_end st) else ps_end st)
    (ps_inputs st ++ [file]) (if ps_first st =? -1 then Z.of_nat i else ps_first st).

Fixpoint overlap_pass `{Comparator} (brief : list FdWithKeyRange) (files : list FileMetaData)
    (expand_range : bool) (index : list nat) (st : PassState) : list nat * PassState :=
  match index with
  | [] => ([], st)
  | i :: index' =>
      match brief !! i, files !! i with
      | Some f, Some file =>
          if before_range f (ps_begin st) || after_range f (ps_end st) then
            let '(rest, st') := overlap_pass brief files expand_range index' st in (i :: rest, st')
          else overlap_pass brief files expand_range index' (take_file expand_range i f file st)
      | _, _ => let '(rest, st') := overlap_pass brief files expand_range index' st in (i :: rest, st')
      end
  end.

(** Passes until one takes no file. *)
Fixpoint overlap_loop `{Comparator} (brief : list FdWithKeyRange) (files : list FileMetaData)
    (expand_range : bool) (fuel : nat) (index : list nat) (st : PassState) : list nat * PassState :=
  match fuel, index with
  | S fuel', _ :: _ =>
      let '(rest, st') := overlap_pass brief files expand_range index st in
      if (length rest <? length index)%nat
      then overlap_loop brief files expand_range fuel' rest st' else (rest, st')
  | _, _ => (index, st)
  end.

(** [inputs0], [file_index0] and [next0] are what the output arguments hold
    before the call. *)
Definition GetOverlappingInputs `{Comparator} (v : VersionStorageInfo) (level : nat)
    (begin_ end_ : option key) (inputs0 : list FileMetaData) (hint_index file_index0 : Z)
    (expand_range : bool) (next0 : option key) : OverlapOut :=
  if (num_non_empty_levels_ v <=? level)%nat then mkOverlap inputs0 file_index0 next0
  else if (0 <? level)%nat then
    GetOverlappingInputsRangeBinarySearch v level begin_ end_ hint_index (-1) false
  else
    let brief := LevelFilesBrief v level in
    let '(_, st) := overlap_loop brief (LevelFiles v level) expand_range (S (length brief))
      (seq 0 (length brief))
      (mkPass (ExtractUserKey <$> begin_) (ExtractUserKey <$> end_) [] (-1)) in
    mkOverlap (ps_inputs st) (ps_first st) None.

Definition GetCleanInputsWithinInterval `{Comparator} (v : VersionStorageInfo) (level : nat)
    (begin_ end_ : option key) (hint_index : Z) : OverlapOut :=
  if (num_non_empty_levels_ v <=? level)%nat || (level =? 0)%nat ||
     (length (LevelFilesBrief v level) =? 0)%nat
  then mkOverlap [] (-1) None
  else GetOverlappingInputsRangeBinarySearch v level begin_ end_ hint_index (-1) true.

(** ** Lists cut at two positions *)

Lemma filter_segment {A} (P : A → Prop) `{!∀ x, Decision (P x)} (l : list A) s e :
  (s <= e)%nat →
  (∀ i x, l !! i = Some x → P x ↔ (s <= i < e)%nat) →
  filter P l = take (e - s) (drop s l).
Proof.
  intros Hse HP.
  rewrite <- (take_drop s l) at 1. rewrite <- (take_drop (e - s) (drop s l)) at 1.
  rewrite !filter_app, drop_drop. replace (s + (e - s))%nat with e by lia.
  rewrite (filter_none P (take s l)), (filter_all P (take (e - s) (drop s l))),
    (filter_none P (drop e l)); [by rewrite app_nil_r| | |]; apply Forall_lookup; intros i x.
  - rewrite lookup_drop. intros Hx. rewrite (HP _ _ Hx). lia.
  - rewrite lookup_take_Some, lookup_drop. intros [Hx ?]. rewrite (HP _ _ Hx). lia.
  - rewrite lookup_take_Some. intros [Hx ?]. rewrite (HP _ _ Hx). lia.
Qed.

(** ** The order on bounds *)

Section order.
Context (C : Comparator) (HC : ComparatorOk C).

Abbreviation sst_le := (cmp_le sstableKeyCompare).
Abbreviation user_le := (cmp_le CompareUser).

Definition bound_rank (k : key) : Z :=
  if ExtractInternalKeyFooter k =? kRangeTombstoneSentinel then 0 else 1.

Lemma sst_compare_lex a b :
  sstableKeyCompare a b =
  lex_compare (cmp_on ExtractUserKey CompareUser) (cmp_on bound_rank Z.compare) a b.
Proof using Type.
  unfold sstableKeyCompare, lex_compare, cmp_on, bound_rank.
  destruct (CompareUser _ _); [|done..].
  by destruct (ExtractInternalKeyFooter a =? _), (ExtractInternalKeyFooter b =? _).
Qed.

#[export] Instance sst_compare_ok : CompareOk sstableKeyCompare.
Proof using HC. exact (compare_ok_ext _ _ sst_compare_lex _). Qed.

Lemma sst_ltb_true a b : sst_ltb a b = true ↔ ¬ sst_le b a.
Proof using HC. rewrite <- (cmp_lt_iff sstableKeyCompare). unfold sst_ltb. by destruct (sstableKeyCompare a b). Qed.

Lemma sst_ltb_false a b : sst_ltb a b = false ↔ sst_le b a.
Proof using HC.
  rewrite <- not_true_iff_false, sst_ltb_true. destruct (decide (sst_le b a)); tauto.
Qed.

Lemma sst_eqb_true a b : sst_eqb a b = true ↔ sst_le a b ∧ sst_le b a.
Proof using HC. rewrite <- (cmp_eq_iff sstableKeyCompare). unfold sst_eqb. by destruct (sstableKeyCompare a b). Qed.

Lemma user_ltb_true a b : user_ltb a b = true ↔ ¬ user_le b a.
Proof using HC. rewrite <- (cmp_lt_iff CompareUser). unfold user_ltb. by destruct (CompareUser a b). Qed.

Lemma user_ltb_false a b : user_ltb a b = false ↔ user_le b a.
Proof using HC.
  rewrite <- not_true_iff_false, user_ltb_true. destruct (decide (user_le b a)); tauto.
Qed.

(** Bounds in this order have their user keys in order. *)
Lemma sst_le_user a b : sst_le a b → user_le (ExtractUserKey a) (ExtractUserKey b).
Proof using HC.
  unfold cmp_le. rewrite sst_compare_lex. unfold lex_compare, cmp_on. by destruct (CompareUser _ _).
Qed.

(** ** Sorted levels *)

Definition level_sorted (fs : list FileMetaData) : Prop :=
  Forall (λ f, sst_le (smallest f) (largest f)) fs ∧
  StronglySorted (λ f g, sst_le (largest f) (smallest g)) fs.

(** File [f] meets the range from [begin_] to [end_], null bounds being open. *)
Definition from_begin (begin_ : option key) (f : FileMetaData) : Prop :=
  match begin_ with Some k => sst_le k (largest f) | None => True end.
Definition to_end (end_ : option key) (f : FileMetaData) : Prop :=
  match end_ with Some k => sst_le (smallest f) k | None => True end.
Definition overlaps (begin_ end_ : option key) (f : FileMetaData) : Prop :=
  from_begin begin_ f ∧ to_end end_ f.

#[export] Instance from_begin_dec b f : Decision (from_begin b f).
Proof. unfold from_begin. destruct b; apply _. Defined.
#[export] Instance to_end_dec b f : Decision (to_end b f).
Proof. unfold to_end. destruct b; apply _. Defined.
#[export] Instance overlaps_dec b e f : Decision (overlaps b e f).
Proof. unfold overlaps. apply _. Defined.

Lemma brief_lookup fs i b :
  DoGenerateLevelFilesBrief fs !! i = Some b ↔
  ∃ f, fs !! i = Some f ∧ b = mkBrief f (smallest f) (largest f).
Proof using Type.
  unfold DoGenerateLevelFilesBrief. rewrite list_lookup_fmap_Some.
  split; intros (f & H1 & H2); exists f; done.
Qed.

Lemma length_brief fs : length (DoGenerateLevelFilesBrief fs) = length fs.
Proof using Type. apply length_fmap. Qed.

Section sorted.
Context (fs : list FileMetaData) (Hfs : level_sorted fs).

Lemma sorted_bounds i f : fs !! i = Some f → sst_le (smallest f) (largest f).
Proof using Hfs. exact (Forall_lookup_1 _ _ _ _ (proj1 Hfs)). Qed.

Lemma sorted_apart i j f g :
  fs !! i = Some f → fs !! j = Some g → (i < j)%nat → sst_le (largest f) (smallest g).
Proof using Hfs. intros Hi Hj Hij. exact (StronglySorted_lookup _ _ _ _ _ _ (proj2 Hfs) Hij Hi Hj). Qed.

Lemma sorted_largest i j f g :
  fs !! i = Some f → fs !! j = Some g → (i <= j)%nat → sst_le (largest f) (largest g).
Proof using HC Hfs.
  intros Hi Hj Hij. destruct (decide (i = j)) as [->|]; [by simplify_eq|].
  pose proof (sorted_apart i j f g Hi Hj ltac:(lia)). pose proof (sorted_bounds j g Hj).
  order (cmp_le sstableKeyCompare).
Qed.

Lemma sorted_smallest i j f g :
  fs !! i = Some f → fs !! j = Some g → (i <= j)%nat → sst_le (smallest f) (smallest g).
Proof using HC Hfs.
  intros Hi Hj Hij. destruct (decide (i = j)) as [->|]; [by simplify_eq|].
  pose proof (sorted_apart i j f g Hi Hj ltac:(lia)). pose proof (sorted_bounds i f Hi).
  order (cmp_le sstableKeyCompare).
Qed.

(** The two binary searches, for a bound [g] of the files that grows along the
    level. *)
Section bounds.
Context (g : FileMetaData → key).
Context (Hg : ∀ i j f f', fs !! i = Some f → fs !! j = Some f' → (i <= j)%nat → sst_le (g f) (g f')).

(** A hint is the position of a file whose bound is not before the key. *)
Definition good_hint (k : key) (hint_index : Z) : Prop :=
  hint_index = -1 ∨ 0 <= hint_index ∧ ∃ f, fs !! Z.to_nat hint_index = Some f ∧ sst_le k (g f).

Lemma lower_bound_spec k hint_index :
  good_hint k hint_index →
  let s := std_bound (λ f, sst_ltb (g (file_metadata f)) k) (DoGenerateLevelFilesBrief fs) 0
    (if hint_index =? -1 then length fs else Z.to_nat hint_index) in
  (s <= length fs)%nat ∧ ∀ i f, fs !! i = Some f → sst_le k (g f) ↔ (s <= i)%nat.
Proof using HC Hg.
  intros Hhint. set (p := λ f : FdWithKeyRange, sst_ltb (g (file_metadata f)) k).
  set (n := if hint_index =? -1 then _ else _). cbn zeta.
  assert (Hn : (n <= length fs)%nat ∧ ∀ i f, fs !! i = Some f → (n <= i)%nat → sst_le k (g f)).
  { unfold n. destruct (Z.eqb_spec hint_index (-1)).
    { split; [lia|]. intros i f Hf%lookup_lt_Some. lia. }
    destruct Hhint as [|(? & h & Hh & Hk)]; [lia|].
    split; [apply lookup_lt_Some in Hh; lia|]. intros i f Hf Hi.
    pose proof (Hg _ i h f Hh Hf Hi). order (cmp_le sstableKeyCompare). }
  destruct Hn as [Hn Hbig].
  destruct (std_bound_spec p (DoGenerateLevelFilesBrief fs) 0 n) as (H1 & H2 & H3).
  { rewrite length_brief. lia. }
  { intros i j x y _ Hij _ (f & Hf & ->)%brief_lookup (f' & Hf' & ->)%brief_lookup.
    unfold p. cbn. rewrite !sst_ltb_true.
    pose proof (Hg i j f f' Hf Hf' Hij). order (cmp_le sstableKeyCompare). }
  set (s := std_bound _ _ 0 n) in *. split; [lia|]. intros i f Hf.
  assert (Hb : DoGenerateLevelFilesBrief fs !! i = Some (mkBrief f (smallest f) (largest f)))
    by (apply brief_lookup; eauto).
  split.
  - intros Hk. destruct (decide (i < s)%nat) as [Hi|]; [|lia].
    specialize (H2 i _ ltac:(lia) Hb). unfold p in H2. by apply sst_ltb_true in H2.
  - intros Hi. destruct (decide (i < n)%nat); [|apply (Hbig i f Hf); lia].
    specialize (H3 i _ ltac:(lia) Hb). unfold p in H3. by apply sst_ltb_false in H3.
Qed.

Lemma upper_bound_spec k s :
  (s <= length fs)%nat →
  let e := std_bound (λ f, negb (sst_ltb k (g (file_metadata f)))) (DoGenerateLevelFilesBrief fs)
    s (length fs) in
  (s <= e <= length fs)%nat ∧
  ∀ i f, (s <= i)%nat → fs !! i = Some f → sst_le (g f) k ↔ (i < e)%nat.
Proof using HC Hg.
  intros Hs. set (p := λ f : FdWithKeyRange, negb (sst_ltb k (g (file_metadata f)))). cbn zeta.
  destruct (std_bound_spec p (DoGenerateLevelFilesBrief fs) s (length fs)) as (H1 & H2 & H3).
  { rewrite length_brief. lia. }
  { intros i j x y _ Hij _ (f & Hf & ->)%brief_lookup (f' & Hf' & ->)%brief_lookup.
    unfold p. cbn. rewrite !negb_true_iff, !sst_ltb_false.
    pose proof (Hg i j f f' Hf Hf' Hij). order (cmp_le sstableKeyCompare). }
  set (e := std_bound _ _ _ _) in *. split; [lia|]. intros i f Hi Hf.
  assert (Hb : DoGenerateLevelFilesBrief fs !! i = Some (mkBrief f (smallest f) (largest f)))
    by (apply brief_lookup; eauto).
  pose proof (lookup_lt_Some _ _ _ Hf). split.
  - intros Hk. destruct (decide (i < e)%nat); [done|]. specialize (H3 i _ ltac:(lia) Hb).
    unfold p in H3. cbn in H3. by apply negb_false_iff, sst_ltb_true in H3.
  - intros Hi'. specialize (H2 i _ ltac:(lia) Hb). unfold p in H2. cbn in H2.
    by apply negb_true_iff, sst_ltb_false in H2.
Qed.
End bounds.

(** A hint for the overlapping files: null, or a file not before the range. *)
Definition hint_ok (begin_ : option key) (hint_index : Z) : Prop :=
  match begin_ with Some k => good_hint largest k hint_index | None => True end.

Lemma search_start_spec begin_ hint_index :
  hint_ok begin_ hint_index →
  let s := search_start (DoGenerateLevelFilesBrief fs) begin_ hint_index false in
  (s <= length fs)%nat ∧ ∀ i f, fs !! i = Some f → from_begin begin_ f ↔ (s <= i)%nat.
Proof using HC Hfs.
  unfold search_start. destruct begin_ as [k|]; [|split; [lia|intros; cbn; intuition lia]].
  cbn zeta. rewrite andb_false_r, length_brief. apply (lower_bound_spec largest sorted_largest).
Qed.

Lemma search_end_spec end_ s :
  (s <= length fs)%nat →
  let e := search_end (DoGenerateLevelFilesBrief fs) end_ s false in
  (s <= e <= length fs)%nat ∧
  ∀ i f, (s <= i)%nat → fs !! i = Some f → to_end end_ f ↔ (i < e)%nat.
Proof using HC Hfs.
  intros Hs. unfold search_end. rewrite length_brief. destruct end_ as [k|].
  - cbn zeta. rewrite andb_false_r. by apply (upper_bound_spec smallest sorted_smallest).
  - split; [lia|]. intros i f _ Hf%lookup_lt_Some. cbn. intuition lia.
Qed.
End sorted.

(** ** The storage of a version and its derived fields *)

Record indexed (v : VersionStorageInfo) : Prop := {
  ix_empty : ∀ l, (num_non_empty_levels_ v <= l)%nat → LevelFiles v l = [];
  ix_brief : ∀ l, LevelFilesBrief v l = DoGenerateLevelFilesBrief (LevelFiles v l);
}.

Lemma non_empty_loop_spec files i :
  (non_empty_loop files i <= i)%nat ∧
  ∀ l, (non_empty_loop files i <= l < i)%nat → default [] (files !! l) = [].
Proof using Type.
  induction i as [|i [IH1 IH2]]; cbn [non_empty_loop]; [split; intros; lia|].
  destruct (files !! i) as [[|f fs]|] eqn:E.
  - split; [lia|]. intros l Hl. destruct (decide (l = i)) as [->|]; [by rewrite E|apply IH2; lia].
  - split; intros; lia.
  - split; [lia|]. intros l Hl. destruct (decide (l = i)) as [->|]; [by rewrite E|apply IH2; lia].
Qed.

Lemma brief_indexed v : indexed (GenerateLevelFilesBrief (UpdateNumNonEmptyLevels v)).
Proof using Type.
  destruct (non_empty_loop_spec (files_ v) (num_levels v)) as [Hle Hempty].
  assert (He : ∀ l, (non_empty_loop (files_ v) (num_levels v) <= l)%nat → LevelFiles v l = []).
  { intros l Hl. destruct (decide (l < num_levels v)%nat); [apply Hempty; lia|].
    unfold LevelFiles. rewrite lookup_ge_None_2; [done|]. unfold num_levels in *. lia. }
  split; [exact He|]. intros l. unfold LevelFilesBrief. cbn.
  rewrite list_lookup_fmap. destruct (decide (l < non_empty_loop (files_ v) (num_levels v))%nat).
  - rewrite lookup_take_lt by lia. unfold LevelFiles. cbn. by destruct (files_ v !! l).
  - rewrite lookup_take_ge by lia. unfold LevelFiles. cbn. unfold LevelFiles in He. by rewrite He by lia.
Qed.

Lemma prepare_indexed `{StdChoices} v : indexed (PrepareForVersionAppend v).
Proof using Type. destruct (brief_indexed v) as [H1 H2]. split; [exact H1|exact H2]. Qed.

(** ** Files of a sorted level that meet a range *)

Definition block (fs : list FileMetaData) (s e : nat) : list FileMetaData := take (e - s) (drop s fs).

Lemma overlapping_block v level begin_ end_ inputs0 hint fi0 expand next0 :
  indexed v → (0 < level < num_non_empty_levels_ v)%nat →
  level_sorted (LevelFiles v level) → hint_ok (LevelFiles v level) begin_ hint →
  ∃ s e, (s <= e <= length (LevelFiles v level))%nat ∧
    (∀ i f, LevelFiles v level !! i = Some f → overlaps begin_ end_ f ↔ (s <= i < e)%nat) ∧
    GetOverlappingInputs v level begin_ end_ inputs0 hint fi0 expand next0 =
      if (s =? e)%nat then mkOverlap [] (-1) None
      else mkOverlap (block (LevelFiles v level) s e) (Z.of_nat s)
             (smallest <$> LevelFiles v level !! e).
Proof using HC.
  intros Hv Hl Hs Hh. unfold GetOverlappingInputs.
  destruct (Nat.leb_spec (num_non_empty_levels_ v) level); [lia|].
  destruct (Nat.ltb_spec 0 level); [|lia].
  unfold GetOverlappingInputsRangeBinarySearch. rewrite (ix_brief v Hv).
  destruct (search_start_spec _ Hs begin_ hint Hh) as [H1 H2].
  set (s := search_start _ _ _ _) in *.
  destruct (search_end_spec _ Hs end_ s H1) as [H3 H4].
  set (e := search_end _ _ _ _) in *. exists s, e.
  split_and!; [lia|lia| |done]. intros i f Hf. unfold overlaps. rewrite (H2 i f Hf). split.
  - intros [Hi He]. by rewrite (H4 i f Hi Hf) in He.
  - intros [Hi He]. by rewrite (H4 i f Hi Hf).
Qed.

Lemma overlapping_filter v level begin_ end_ hint fi0 expand next0 :
  indexed v → (0 < level)%nat →
  level_sorted (LevelFiles v level) → hint_ok (LevelFiles v level) begin_ hint →
  ov_inputs (GetOverlappingInputs v level begin_ end_ [] hint fi0 expand next0) =
  filter (overlaps begin_ end_) (LevelFiles v level).
Proof using HC.
  intros Hv Hl Hs Hh. destruct (decide (level < num_non_empty_levels_ v)%nat).
  - destruct (overlapping_block v level begin_ end_ [] hint fi0 expand next0) as (s & e & Hse & Ho & ->);
      [done|lia|done|done|].
    rewrite (filter_segment (overlaps begin_ end_) _ s e) by (done || lia).
    destruct (Nat.eqb_spec s e) as [->|]; cbn; [|done]. by rewrite Nat.sub_diag.
  - unfold GetOverlappingInputs. destruct (Nat.leb_spec (num_non_empty_levels_ v) level); [|lia].
    by rewrite (ix_empty v Hv level) by lia.
Qed.

(** ** Files of level 0 that meet a range

    Ranges of user keys; [None] is an open side. *)

Definition urange : Type := option key * option key.

Definition starts_by (lo : option key) (k : key) : Prop :=
  match lo with Some b => user_le b k | None => True end.
Definition ends_by (hi : option key) (k : key) : Prop :=
  match hi with Some e => user_le k e | None => True end.

(** [f] meets [r]; [f] lies in [r]; [r'] is part of [r]. *)
Definition meets (r : urange) (f : FileMetaData) : Prop :=
  starts_by r.1 (largest_ukey f) ∧ ends_by r.2 (smallest_ukey f).
Definition inside (r : urange) (f : FileMetaData) : Prop :=
  starts_by r.1 (smallest_ukey f) ∧ ends_by r.2 (largest_ukey f).
Definition subrange (r' r : urange) : Prop :=
  match r.1 with Some b => ∃ b', r'.1 = Some b' ∧ user_le b b' | None => True end ∧
  match r.2 with Some e => ∃ e', r'.2 = Some e' ∧ user_le e' e | None => True end.

#[export] Instance meets_dec r f : Decision (meets r f).
Proof. unfold meets, starts_by, ends_by. destruct (r.1), (r.2); apply _. Defined.

Lemma meets_mono r r' f : subrange r' r → meets r' f → meets r f.
Proof using HC.
  destruct r as [[b|] [e|]], r' as [b' e']; unfold subrange, meets, starts_by, ends_by; cbn;
    intros [H1 H2] [H3 H4]; split; try done;
    (destruct H1 as (? & -> & ?) || idtac); (destruct H2 as (? & -> & ?) || idtac);
    order (cmp_le CompareUser).
Qed.

Abbreviation brief_of f := (mkBrief f (smallest f) (largest f)).
Definition pass_range (st : PassState) : urange := (ps_begin st, ps_end st).

Lemma skips_file st f :
  before_range (brief_of f) (ps_begin st) || after_range (brief_of f) (ps_end st) = false ↔
  meets (pass_range st) f.
Proof using HC.
  unfold before_range, after_range, meets, starts_by, ends_by. cbn.
  rewrite orb_false_iff. destruct (ps_begin st), (ps_end st); rewrite ?user_ltb_false; intuition.
Qed.

Lemma widened_range f r :
  inside (widen_begin (brief_of f) r.1, widen_end (brief_of f) r.2) f ∧
  subrange r (widen_begin (brief_of f) r.1, widen_end (brief_of f) r.2) ∧
  (∀ r', subrange r r' → inside r' f →
     subrange (widen_begin (brief_of f) r.1, widen_end (brief_of f) r.2) r').
Proof using HC.
  unfold widen_begin, widen_end, inside, subrange, starts_by, ends_by, smallest_ukey, largest_ukey.
  destruct r as [lo hi]. cbn. split_and!.
  - destruct lo as [b|]; cbn; [|done]. destruct (user_ltb _ b) eqn:E; [done|]. by apply user_ltb_false.
  - destruct hi as [e|]; cbn; [|done]. destruct (user_ltb e _) eqn:E; [done|]. by apply user_ltb_false.
  - destruct lo as [b|]; cbn; [|done]. eexists. split; [done|].
    destruct (user_ltb _ b) eqn:E; [|done]. apply user_ltb_true in E. order (cmp_le CompareUser).
  - destruct hi as [e|]; cbn; [|done]. eexists. split; [done|].
    destruct (user_ltb e _) eqn:E; [|done]. apply user_ltb_true in E. order (cmp_le CompareUser).
  - intros [lo' hi']. cbn. intros [H1 H2] [H3 H4]. split.
    + destruct lo' as [b'|]; [|done]. destruct H1 as (b & -> & Hb). cbn.
      eexists. split; [done|]. by destruct (user_ltb _ b).
    + destruct hi' as [e'|]; [|done]. destruct H2 as (e & -> & He). cbn.
      eexists. split; [done|]. by destruct (user_ltb e _).
Qed.

Section level0.
Context (fs : list FileMetaData) (expand : bool).
Abbreviation pass := (overlap_pass (DoGenerateLevelFilesBrief fs) fs expand).
Abbreviation loop := (overlap_loop (DoGenerateLevelFilesBrief fs) fs expand).

Lemma pass_cons i f index st :
  fs !! i = Some f →
  pass (i :: index) st =
    if decide (meets (pass_range st) f) then pass index (take_file expand i (brief_of f) f st)
    else let '(rest, st') := pass index st in (i :: rest, st').
Proof using HC.
  intros Hf. cbn [overlap_pass].
  assert (DoGenerateLevelFilesBrief fs !! i = Some (brief_of f)) as -> by (apply brief_lookup; eauto).
  rewrite Hf. case_decide as Hm.
  - by apply skips_file in Hm as ->.
  - destruct (before_range _ _ || after_range _ _) eqn:E; [done|]. by apply skips_file in E.
Qed.

(** What holds before a pass and is kept by taking a file that meets the range
    holds after it. *)
Lemma pass_invariant (Q : PassState → Prop) index st :
  Forall (λ i, i < length fs)%nat index →
  (∀ i f st, fs !! i = Some f → Q st → meets (pass_range st) f →
     Q (take_file expand i (brief_of f) f st)) →
  Q st → Q (pass index st).2.
Proof using HC.
  intros Hidx HQ. revert st. induction Hidx as [|i index Hi _ IH]; intros st Hst; [done|].
  destruct (lookup_lt_is_Some_2 fs i Hi) as [f Hf]. rewrite (pass_cons i f) by done.
  case_decide; [by apply IH, HQ|]. specialize (IH st Hst). by destruct (pass index st).
Qed.

Lemma pass_picks index st :
  Forall (λ i, i < length fs)%nat index →
  ∃ picked, (pass index st).1 ++ picked ≡ₚ index ∧
    ps_inputs (pass index st).2 = ps_inputs st ++ omap (λ i, fs !! i) picked ∧
    (picked = [] → (pass index st).2 = st ∧
       ∀ i f, i ∈ index → fs !! i = Some f → ¬ meets (pass_range st) f).
Proof using HC.
  intros Hidx. revert st. induction Hidx as [|i index Hi _ IH]; intros st.
  { exists []. cbn. rewrite app_nil_r. split_and!; [done..|]. split; [done|]. set_solver. }
  destruct (lookup_lt_is_Some_2 fs i Hi) as [f Hf]. rewrite (pass_cons i f) by done.
  case_decide as Hm.
  - destruct (IH (take_file expand i (brief_of f) f st)) as (picked & H1 & H2 & _).
    exists (i :: picked). split_and!; [rewrite <- Permutation_middle; by constructor| |done].
    rewrite H2. cbn. by rewrite Hf, <- app_assoc.
  - destruct (IH st) as (picked & H1 & H2 & H3). exists picked.
    destruct (pass index st) as [rest st']. cbn in *. split_and!; [by constructor|done|].
    intros Hp. destruct (H3 Hp) as [-> Hno]. split; [done|].
    intros j g [->|Hj]%elem_of_cons Hg; [by simplify_eq|by apply (Hno j g)].
Qed.

(** The loop ends because every pass but the last takes a file. *)
Lemma loop_spec (Q : PassState → Prop) fuel index st :
  (length index < fuel)%nat → Forall (λ i, i < length fs)%nat index →
  (∀ i f st, fs !! i = Some f → Q st → meets (pass_range st) f →
     Q (take_file expand i (brief_of f) f st)) →
  Q st →
  Q (loop fuel index st).2 ∧
  ∃ picked, (loop fuel index st).1 ++ picked ≡ₚ index ∧
    ps_inputs (loop fuel index st).2 = ps_inputs st ++ omap (λ i, fs !! i) picked ∧
    ∀ i f, i ∈ (loop fuel index st).1 → fs !! i = Some f →
      ¬ meets (pass_range (loop fuel index st).2) f.
Proof using HC.
  intros Hfuel Hidx HQ. revert index st Hfuel Hidx. induction fuel as [|fuel IH]; [lia|].
  intros [|i index] st Hfuel Hidx Hst.
  { split; [done|]. exists []. cbn. rewrite app_nil_r. split_and!; [done..|]. set_solver. }
  set (idx := i :: index) in *. cbn [overlap_loop]. change (match idx with [] => _ | _ :: _ => ?e end) with e.
  pose proof (pass_invariant Q idx st Hidx HQ Hst) as Hq.
  destruct (pass_picks idx st Hidx) as (picked & Hp & Hin & Hnone).
  destruct (pass idx st) as [rest st'] eqn:E. cbn [fst snd] in *.
  assert (Hlen : (length rest + length picked = length idx)%nat) by (by rewrite <- Hp, length_app).
  destruct (Nat.ltb_spec (length rest) (length idx)).
  - destruct (IH rest st') as (Hq' & picked' & Hp' & Hin' & Hno); [lia| |done|].
    { rewrite <- Hp in Hidx. by apply Forall_app in Hidx as [? _]. }
    split; [done|]. exists (picked ++ picked'). split_and!; [| |done].
    + etrans; [|exact Hp]. rewrite (Permutation_app_comm picked picked'), app_assoc.
      by apply Permutation_app_tail.
    + by rewrite Hin', Hin, omap_app, app_assoc.
  - destruct picked; [|cbn in *; lia]. destruct (Hnone eq_refl) as [-> Hno].
    split; [done|]. exists []. cbn. split_and!; [done..|]. intros j f Hj. apply Hno.
    rewrite <- Hp, app_nil_r. exact Hj.
Qed.
End level0.

Lemma subrange_refl r : subrange r r.
Proof using HC. 
  destruct r as [[b|] [e|]]; unfold subrange; cbn; split; try done;
    eexists; (split; [done|]); order (cmp_le CompareUser).
Qed.

Lemma subrange_trans r1 r2 r3 : subrange r1 r2 → subrange r2 r3 → subrange r1 r3.
Proof using HC.
  destruct r2 as [lo2 hi2], r3 as [lo3 hi3]. unfold subrange. cbn. intros [H1 H2] [H3 H4]. split.
  - destruct lo3 as [b|]; [|done]. destruct H3 as (b2 & -> & ?). destruct H1 as (b1 & -> & ?).
    eexists. split; [done|]. order (cmp_le CompareUser).
  - destruct hi3 as [e|]; [|done]. destruct H4 as (e2 & -> & ?). destruct H2 as (e1 & -> & ?).
    eexists. split; [done|]. order (cmp_le CompareUser).
Qed.

Lemma inside_mono r r' f : subrange r' r → inside r' f → inside r f.
Proof using HC.
  destruct r as [lo hi], r' as [lo' hi']. unfold subrange, inside, starts_by, ends_by. cbn.
  intros [H1 H2] [H3 H4]. split.
  - destruct lo as [b|]; [|done]. destruct H1 as (? & -> & ?). order (cmp_le CompareUser).
  - destruct hi as [e|]; [|done]. destruct H2 as (? & -> & ?). order (cmp_le CompareUser).
Qed.

(** A range that contains every file it meets. *)
Definition closed_range (fs : list FileMetaData) (r : urange) : Prop :=
  ∀ f, f ∈ fs → meets r f → inside r f.

Lemma omap_lookup_seq {A} (l : list A) : omap (λ i, l !! i) (seq 0 (length l)) = l.
Proof using Type.
  rewrite <- (filter_all (λ _, True) (seq 0 (length l))) by (by apply Forall_true).
  rewrite (omap_lookup_filter (λ _, True)) by done. apply filter_all. by apply Forall_true.
Qed.

(** The files taken from level 0 are those that meet [r], which is the given
    range or, when the range expands, the least closed one around it. *)
Definition level0_range (expand : bool) (fs : list FileMetaData) (r0 r : urange) : Prop :=
  if expand
  then subrange r0 r ∧ closed_range fs r ∧
       ∀ r', subrange r0 r' → closed_range fs r' → subrange r r'
  else r = r0.

Lemma overlapping_level0 v begin_ end_ inputs0 hint fi0 expand next0 :
  indexed v → (0 < num_non_empty_levels_ v)%nat →
  ∃ r, level0_range expand (LevelFiles v 0) (ExtractUserKey <$> begin_, ExtractUserKey <$> end_) r ∧
    ov_inputs (GetOverlappingInputs v 0 begin_ end_ inputs0 hint fi0 expand next0)
    ≡ₚ filter (meets r) (LevelFiles v 0).
Proof using HC.
  intros Hv Hn. unfold GetOverlappingInputs.
  destruct (Nat.leb_spec (num_non_empty_levels_ v) 0); [lia|].
  destruct (Nat.ltb_spec 0 0); [lia|]. rewrite (ix_brief v Hv), length_brief.
  set (fs := LevelFiles v 0). set (r0 := (ExtractUserKey <$> begin_, ExtractUserKey <$> end_)).
  set (Q := λ st, Forall (meets (pass_range st)) (ps_inputs st) ∧
    if expand then Forall (inside (pass_range st)) (ps_inputs st) ∧ subrange r0 (pass_range st) ∧
      ∀ r', subrange r0 r' → closed_range fs r' → subrange (pass_range st) r'
    else pass_range st = r0).
  destruct (loop_spec fs expand Q (S (length fs)) (seq 0 (length fs))
    (mkPass r0.1 r0.2 [] (-1))) as ([Hm Hq] & picked & Hp & Hin & Hno).
  - rewrite length_seq. lia.
  - apply Forall_forall. intros i [_ Hi]%elem_of_seq. lia.
  - intros i f st Hf [Hm Hq] Hmf. destruct (widened_range f (pass_range st)) as (Hw1 & Hw2 & Hw3).
    unfold Q. destruct expand; cbn -[meets inside subrange]; [|by rewrite Forall_app, Forall_singleton].
    change (pass_range (mkPass ?b ?e _ _)) with (b, e). rewrite !Forall_app, !Forall_singleton.
    destruct Hq as (Hq1 & Hq2 & Hq3). split_and!.
    + eapply Forall_impl; [exact Hm|]. intros g. by apply meets_mono.
    + by apply (meets_mono _ (pass_range st)).
    + eapply Forall_impl; [exact Hq1|]. intros g. by apply inside_mono.
    + done.
    + by apply (subrange_trans _ (pass_range st)).
    + intros r' Hr' Hcl. apply Hw3; [by apply Hq3|]. apply Hcl; [by apply list_elem_of_lookup_2 in Hf|].
      apply (meets_mono _ (pass_range st)); [by apply Hq3|done].
  - split; [by constructor|]. destruct expand; [|done]. split_and!; [by constructor|apply subrange_refl|done].
  - destruct (overlap_loop _ _ _ _ _ _) as [rest st]. cbn [fst snd ov_inputs ps_inputs app] in *.
    assert (Hfs : omap (λ i, fs !! i) rest ++ ps_inputs st ≡ₚ fs).
    { rewrite Hin, <- omap_app, Hp. by rewrite omap_lookup_seq. }
    assert (Hrest : Forall (λ f, ¬ meets (pass_range st) f) (omap (λ i, fs !! i) rest)).
    { apply Forall_forall. intros f (i & Hi & Hf)%list_elem_of_omap. by apply (Hno i f). }
    exists (pass_range st). split.
    + destruct expand; [|done]. destruct Hq as (Hq1 & Hq2 & Hq3). split_and!; [done| |done].
      intros f Hf Hmf. rewrite <- Hfs in Hf. apply elem_of_app in Hf as [Hf|Hf].
      * rewrite Forall_forall in Hrest. by apply Hrest in Hf.
      * rewrite Forall_forall in Hq1. by apply Hq1.
    + rewrite <- Hfs, filter_app, filter_none, filter_all by done. done.
Qed.

(** ** Clean cuts

    Position [i] cuts a level cleanly when the files on its two sides share no
    key. *)
Definition clean_at (fs : list FileMetaData) (i : nat) : Prop :=
  ∀ p c, (0 < i)%nat → fs !! (i - 1)%nat = Some p → fs !! i = Some c →
    ¬ sst_le (smallest c) (largest p).

Lemma clean_at_end fs i : (length fs <= i)%nat → clean_at fs i.
Proof using Type. intros Hi p c _ _ Hc%lookup_lt_Some. lia. Qed.

Section clean.
Context (fs : list FileMetaData) (Hfs : level_sorted fs).

Lemma clean_at_spec i p c :
  (0 < i)%nat → fs !! (i - 1)%nat = Some p → fs !! i = Some c →
  sst_eqb (largest p) (smallest c) = false ↔ clean_at fs i.
Proof using HC Hfs.
  intros Hi Hp Hc. pose proof (sorted_apart fs Hfs _ _ p c Hp Hc ltac:(lia)).
  rewrite <- not_true_iff_false, sst_eqb_true. split.
  - intros Hn p' c' _ Hp' Hc'. simplify_eq. tauto.
  - intros Hcl [_ Hle]. by apply (Hcl p c).
Qed.

Lemma clean_start_spec fuel s :
  (0 < s <= length fs)%nat → (length fs - s <= fuel)%nat →
  let r := clean_start (DoGenerateLevelFilesBrief fs) fuel s in
  (s <= r <= length fs)%nat ∧ clean_at fs r ∧ ∀ j, (s <= j < r)%nat → ¬ clean_at fs j.
Proof using HC Hfs.
  revert s. induction fuel as [|fuel IH]; intros s Hs Hf; cbn [clean_start].
  { split_and!; [lia|lia|apply clean_at_end; lia|intros; lia]. }
  destruct (DoGenerateLevelFilesBrief fs !! s) as [bc|] eqn:Ec.
  2:{ apply lookup_ge_None in Ec. rewrite length_brief in Ec.
      destruct (DoGenerateLevelFilesBrief fs !! (s - 1)%nat);
        (split_and!; [lia|lia|by apply clean_at_end|intros; lia]). }
  destruct (DoGenerateLevelFilesBrief fs !! (s - 1)%nat) as [bp|] eqn:Ep.
  2:{ apply lookup_ge_None in Ep. rewrite length_brief in Ep. lia. }
  apply brief_lookup in Ep as (p & Hp & ->), Ec as (c & Hc & ->). cbn [file_metadata].
  pose proof (lookup_lt_Some _ _ _ Hc).
  destruct (sst_eqb (largest p) (smallest c)) eqn:E.
  - destruct (IH (S s)) as (H1 & H2 & H3); [lia|lia|]. split_and!; [lia|lia|done|].
    intros j Hj. destruct (decide (j = s)) as [->|]; [|apply H3; lia].
    rewrite <- (clean_at_spec s p c) by (done || lia). congruence.
  - split_and!; [lia|lia| |intros; lia]. apply (clean_at_spec s p c); (done || lia).
Qed.

Lemma clean_end_spec s fuel e :
  (s <= e < length fs)%nat → (e - s <= fuel)%nat →
  let r := clean_end (DoGenerateLevelFilesBrief fs) s fuel e in
  (s <= r <= e)%nat ∧ (r = s ∨ clean_at fs r) ∧ ∀ j, (r < j <= e)%nat → ¬ clean_at fs j.
Proof using HC Hfs.
  revert e. induction fuel as [|fuel IH]; intros e He Hf; cbn [clean_end];
    destruct (Nat.ltb_spec s e); try (split_and!; [lia|lia|left; lia|intros; lia]).
  destruct (DoGenerateLevelFilesBrief fs !! e) as [bc|] eqn:Ec.
  2:{ apply lookup_ge_None in Ec. rewrite length_brief in Ec. lia. }
  destruct (DoGenerateLevelFilesBrief fs !! (e - 1)%nat) as [bp|] eqn:Ep.
  2:{ apply lookup_ge_None in Ep. rewrite length_brief in Ep. lia. }
  apply brief_lookup in Ep as (p & Hp & ->), Ec as (c & Hc & ->). cbn [file_metadata].
  destruct (sst_eqb (largest p) (smallest c)) eqn:E.
  - destruct (IH (e - 1)%nat) as (H1 & H2 & H3); [lia|lia|]. split_and!; [lia|lia|done|].
    intros j Hj. destruct (decide (j = e)) as [->|]; [|apply H3; lia].
    rewrite <- (clean_at_spec e p c) by (done || lia). congruence.
  - split_and!; [lia|lia| |intros; lia]. right. apply (clean_at_spec e p c); (done || lia).
Qed.

(** ** The largest clean block inside an interval *)

Definition not_before (begin_ : option key) (f : FileMetaData) : Prop :=
  match begin_ with Some k => sst_le k (smallest f) | None => True end.
Definition not_after (end_ : option key) (f : FileMetaData) : Prop :=
  match end_ with Some k => sst_le (largest f) k | None => True end.

Definition within_hint (begin_ : option key) (hint_index : Z) : Prop :=
  match begin_ with Some k => good_hint fs smallest k hint_index | None => True end.

(** The start is a clean cut, and the first one at which the rest of the level
    is not before the interval. *)
Lemma within_start_spec begin_ hint_index :
  within_hint begin_ hint_index →
  let s := search_start (DoGenerateLevelFilesBrief fs) begin_ hint_index true in
  (s <= length fs)%nat ∧ clean_at fs s ∧
  (∀ i f, (s <= i)%nat → fs !! i = Some f → not_before begin_ f) ∧
  (∀ j f, fs !! j = Some f → not_before begin_ f → clean_at fs j → (s <= j)%nat).
Proof using HC Hfs.
  intros Hh. unfold search_start. rewrite length_brief.
  assert (H0 : clean_at fs 0) by (intros ???; lia).
  destruct begin_ as [k|]; [|cbn; split_and!; [lia|done|done|lia]].
  cbn zeta. rewrite andb_true_r.
  destruct (lower_bound_spec fs smallest (sorted_smallest fs Hfs) k hint_index Hh) as [H1 H2].
  set (s := std_bound _ _ _ _) in *. destruct (Nat.ltb_spec 0 s).
  - destruct (clean_start_spec (length fs) s) as (H3 & H4 & H5); [lia|lia|].
    split_and!; [lia|done| |].
    + intros i f Hi Hf. apply (H2 i f Hf). lia.
    + intros j f Hf Hj%(H2 j f Hf) Hcl. destruct (decide (j < clean_start (DoGenerateLevelFilesBrief fs) (length fs) s)%nat) as [Hlt|]; [|lia].
      by destruct (H5 j ltac:(lia)).
  - assert (s = 0%nat) as -> by lia. split_and!; [lia|done| |].
    + intros i f Hi Hf. by apply (H2 i f Hf).
    + intros. lia.
Qed.

(** The end is a clean cut or closes an empty block, and the last one up to
    which the level is not after the interval. *)
Lemma within_end_spec end_ s :
  (s <= length fs)%nat →
  let e := search_end (DoGenerateLevelFilesBrief fs) end_ s true in
  (s <= e <= length fs)%nat ∧ (e = s ∨ clean_at fs e) ∧
  (∀ i f, (s <= i < e)%nat → fs !! i = Some f → not_after end_ f) ∧
  (∀ j f, (s <= j)%nat → fs !! j = Some f → not_after end_ f → clean_at fs (S j) → (S j <= e)%nat).
Proof using HC Hfs.
  intros Hs. unfold search_end. rewrite length_brief. destruct end_ as [k|].
  2:{ cbn. split_and!; [lia|lia|right; by apply clean_at_end|done|].
      intros j f _ Hf%lookup_lt_Some. lia. }
  cbn zeta. rewrite andb_true_r.
  destruct (upper_bound_spec fs largest (sorted_largest fs Hfs) k s Hs) as [H1 H2].
  set (e := std_bound _ _ _ _) in *. destruct (Nat.ltb_spec e (length fs)).
  - destruct (clean_end_spec s (length fs) e) as (H3 & H4 & H5); [lia|lia|].
    set (r := clean_end _ _ _ _) in *. split_and!; [lia|lia|done| |].
    + intros i f Hi Hf. apply (H2 i f); [lia|done|lia].
    + intros j f Hj Hf Hk%(H2 j f Hj Hf) Hcl.
      destruct (decide (S j <= r)%nat); [done|]. by destruct (H5 (S j) ltac:(lia)).
  - split_and!; [lia|lia|right; by apply clean_at_end| |].
    + intros i f Hi Hf. by apply (H2 i f); [lia|done|lia].
    + intros j f Hj Hf Hk%(H2 j f Hj Hf) _. lia.
Qed.
End clean.

Lemma block_elem fs s e f : f ∈ block fs s e ↔ ∃ i, (s <= i < e)%nat ∧ fs !! i = Some f.
Proof using Type.
  unfold block. rewrite list_elem_of_lookup. split.
  - intros (i & Hi). apply lookup_take_Some in Hi as [Hi ?]. rewrite lookup_drop in Hi.
    exists (s + i)%nat. split; [lia|done].
  - intros (i & Hi & Hf). exists (i - s)%nat. apply lookup_take_Some.
    rewrite lookup_drop. replace (s + (i - s))%nat with i by lia. split; [done|lia].
Qed.

Lemma block_length fs s e : (s <= e <= length fs)%nat → length (block fs s e) = (e - s)%nat.
Proof using Type. intros ?. unfold block. rewrite length_take, length_drop. lia. Qed.

Lemma block_ends fs s e :
  (s < e <= length fs)%nat →
  head (block fs s e) = fs !! s ∧ last (block fs s e) = fs !! (e - 1)%nat.
Proof using Type.
  intros ?. rewrite head_lookup, last_lookup, block_length by lia. unfold block.
  rewrite !lookup_take_lt, !lookup_drop by lia. split; f_equal; lia.
Qed.

(** [s, e) is a clean block of files inside the interval. *)
Definition clean_block (fs : list FileMetaData) (begin_ end_ : option key) (s e : nat) : Prop :=
  clean_at fs s ∧ clean_at fs e ∧
  Forall (λ f, not_before begin_ f ∧ not_after end_ f) (block fs s e).

Lemma clean_inputs_block v level begin_ end_ hint :
  indexed v → (0 < level)%nat → level_sorted (LevelFiles v level) →
  within_hint (LevelFiles v level) begin_ hint →
  ∃ s e, (s <= e <= length (LevelFiles v level))%nat ∧
    ov_inputs (GetCleanInputsWithinInterval v level begin_ end_ hint) = block (LevelFiles v level) s e ∧
    ((s < e)%nat → clean_block (LevelFiles v level) begin_ end_ s e) ∧
    ∀ s' e', (s' < e' <= length (LevelFiles v level))%nat →
      clean_block (LevelFiles v level) begin_ end_ s' e' → (s <= s')%nat ∧ (e' <= e)%nat.
Proof using HC.
  intros Hv Hl Hs Hh. unfold GetCleanInputsWithinInterval. rewrite (ix_brief v Hv), length_brief.
  destruct (_ || _ || _) eqn:E.
  { assert (LevelFiles v level = []) as ->.
    { rewrite !orb_true_iff, Nat.leb_le, !Nat.eqb_eq in E. destruct E as [[?|?]|?]; [|lia|by apply length_zero_iff_nil].
      by apply (ix_empty v Hv). }
    exists 0%nat, 0%nat. cbn. split_and!; [lia|lia|done|intros; lia|intros; lia]. }
  unfold GetOverlappingInputsRangeBinarySearch. rewrite (ix_brief v Hv).
  set (fs := LevelFiles v level) in *.
  destruct (within_start_spec fs Hs begin_ hint Hh) as (H1 & H2 & H3 & H4).
  set (s := search_start _ _ _ _) in *.
  destruct (within_end_spec fs Hs end_ s H1) as (H5 & H6 & H7 & H8).
  set (e := search_end _ _ _ _) in *. exists s, e. split_and!; [lia|lia| | |].
  - destruct (Nat.eqb_spec s e) as [<-|]; [|done]. unfold block. by rewrite Nat.sub_diag.
  - intros Hse. split_and!; [done|destruct H6; [lia|done]|]. apply Forall_forall.
    intros f (i & Hi & Hf)%block_elem. split; [by apply (H3 i f); [lia|]|by apply (H7 i f); [lia|]].
  - intros s' e' He' (Hc1 & Hc2 & Hin). rewrite Forall_forall in Hin.
    destruct (lookup_lt_is_Some_2 fs s') as [f Hf]; [lia|].
    destruct (lookup_lt_is_Some_2 fs (e' - 1)) as [g Hg]; [lia|].
    assert (Hs' : (s <= s')%nat).
    { apply (H4 s' f); [done| |done]. apply Hin, block_elem. exists s'. split; [lia|done]. }
    split; [done|]. replace e' with (S (e' - 1)) by lia. apply (H8 _ g); [lia|done| |].
    + apply Hin, block_elem. exists (e' - 1)%nat. split; [lia|done].
    + by replace (S (e' - 1)) with e' by lia.
Qed.

(** ** Comparators without timestamps

    The order on bounds then follows from the order on internal keys, and the
    search for a user key is exact. *)
Definition no_timestamps : Prop := ∀ a b, CompareUser a b = Compare a b.

(** What is stored as a bound: at most the sentinel. *)
Definition bound_ok (k : key) : Prop := ExtractInternalKeyFooter k <= kRangeTombstoneSentinel.

Abbreviation ikey_le := (cmp_le InternalKeyCompare).

Lemma internal_sst a b :
  no_timestamps → bound_ok a → bound_ok b → ikey_le a b → sst_le a b.
Proof using HC.
  unfold bound_ok. intros Hts Ha Hb. unfold cmp_le. rewrite internal_compare_lex, sst_compare_lex.
  unfold lex_compare, cmp_flip, cmp_on, bound_rank. rewrite Hts. destruct (Compare _ _); [|done..].
  fold (ExtractInternalKeyFooter a) (ExtractInternalKeyFooter b).
  intros Hf. destruct (Z.eqb_spec (ExtractInternalKeyFooter a) kRangeTombstoneSentinel),
    (Z.eqb_spec (ExtractInternalKeyFooter b) kRangeTombstoneSentinel); try done.
  destruct (Z.compare_spec (ExtractInternalKeyFooter b) (ExtractInternalKeyFooter a)); try done; lia.
Qed.

Definition level_ordered (fs : list FileMetaData) : Prop :=
  Forall (λ f, bound_ok (smallest f) ∧ bound_ok (largest f) ∧ ikey_le (smallest f) (largest f)) fs ∧
  StronglySorted (λ f g, ikey_le (largest f) (smallest g)) fs.

Lemma ordered_sorted fs : no_timestamps → level_ordered fs → level_sorted fs.
Proof using HC.
  intros Hts [Hb Hs]. split.
  - eapply Forall_impl; [exact Hb|]. intros f (? & ? & ?). by apply internal_sst.
  - induction Hs as [|f fs Hs IH Hf]; [constructor|].
    apply Forall_cons in Hb as [(_ & ? & _) Hb]. constructor; [by apply IH|].
    rewrite Forall_forall in Hb, Hf. apply Forall_forall. intros g Hg.
    destruct (Hb g Hg) as (? & _ & _). by apply internal_sst, Hf.
Qed.

Lemma ordered_largest fs i j f g :
  level_ordered fs → fs !! i = Some f → fs !! j = Some g → (i <= j)%nat → ikey_le (largest f) (largest g).
Proof using HC.
  intros [Hb Hs] Hf Hg Hij. destruct (decide (i = j)) as [->|]; [by simplify_eq|].
  pose proof (StronglySorted_lookup _ _ i j f g Hs ltac:(lia) Hf Hg) as H1. cbn in H1.
  destruct (Forall_lookup_1 _ _ _ _ Hb Hg) as (_ & _ & H2). order (cmp_le InternalKeyCompare).
Qed.

(** [FindFile] returns the first file that does not end before the key. *)
Lemma find_file_spec fs k :
  level_ordered fs →
  (FindFile (DoGenerateLevelFilesBrief fs) k <= length fs)%nat ∧
  ∀ i f, fs !! i = Some f → ikey_le k (largest f) ↔ (FindFile (DoGenerateLevelFilesBrief fs) k <= i)%nat.
Proof using HC.
  intros Hfs. unfold FindFile, FindFileInRange. rewrite length_brief.
  set (p := λ f : FdWithKeyRange, match InternalKeyCompare (largest_key f) k with Lt => true | _ => false end).
  assert (Hp : ∀ f, p (brief_of f) = true ↔ ¬ ikey_le k (largest f)).
  { intros f. rewrite <- (cmp_lt_iff InternalKeyCompare). unfold p. cbn.
    by destruct (InternalKeyCompare (largest f) k). }
  destruct (std_bound_spec p (DoGenerateLevelFilesBrief fs) 0 (length fs)) as (H1 & H2 & H3).
  { rewrite length_brief. lia. }
  { intros i j x y _ Hij _ (f & Hf & ->)%brief_lookup (g & Hg & ->)%brief_lookup.
    rewrite !Hp. pose proof (ordered_largest fs i j f g Hfs Hf Hg Hij). order (cmp_le InternalKeyCompare). }
  split; [lia|]. intros i f Hf. pose proof (lookup_lt_Some _ _ _ Hf).
  assert (Hb : DoGenerateLevelFilesBrief fs !! i = Some (brief_of f)) by (apply brief_lookup; eauto).
  split.
  - intros Hk. destruct (decide (i < std_bound p (DoGenerateLevelFilesBrief fs) 0 (length fs))%nat) as [Hi|]; [|lia].
    by apply (H2 i _) in Hb; [apply Hp in Hb|lia].
  - intros Hi. apply (H3 i _) in Hb; [|lia]. destruct (decide (ikey_le k (largest f))) as [|Hn]; [done|].
    apply Hp in Hn. congruence.
Qed.

Lemma min_possible_le uk k :
  bound_ok k → ikey_le (MinPossibleForUserKey uk) k ↔ cmp_le Compare uk (ExtractUserKey k).
Proof using HC.
  intros Hk. unfold MinPossibleForUserKey, cmp_le, InternalKeyCompare.
  rewrite encoded_user_key, encoded_footer, compare_desc_Z by done. cbn [user_key sequence type].
  fold (ExtractInternalKeyFooter k). unfold bound_ok in Hk.
  destruct (Compare uk (ExtractUserKey k)); [|done..]. split; [done|]. intros _.
  assert (kRangeTombstoneSentinel <= PackSequenceAndType kMaxSequenceNumber kValueTypeForSeek) by done.
  destruct (Z.compare_spec (ExtractInternalKeyFooter k)
    (PackSequenceAndType kMaxSequenceNumber kValueTypeForSeek)); try done. lia.
Qed.

Lemma outside_file lo hi f :
  AfterFile lo (brief_of f) || BeforeFile hi (brief_of f) = false ↔ meets (lo, hi) f.
Proof using HC.
  unfold AfterFile, BeforeFile, meets, starts_by, ends_by, smallest_ukey, largest_ukey. cbn.
  rewrite orb_false_iff. f_equiv.
  - destruct lo as [k|]; [|done]. unfold cmp_le. by destruct (CompareUser k _).
  - destruct hi as [k|]; [|done]. apply user_ltb_false.
Qed.

Lemma some_file_overlaps fs disjoint lo hi :
  (disjoint = true → no_timestamps ∧ level_ordered fs) →
  SomeFileOverlapsRange disjoint (DoGenerateLevelFilesBrief fs) lo hi = true ↔
  ∃ f, f ∈ fs ∧ meets (lo, hi) f.
Proof using HC.
  intros Hd. unfold SomeFileOverlapsRange. destruct disjoint; cbn [negb].
  2:{ rewrite existsb_exists. split.
      - intros (x & Hx & Hm). rewrite <- list_elem_of_In in Hx.
        apply list_elem_of_fmap in Hx as (f & -> & Hf). exists f. split; [done|].
        by apply outside_file, negb_true_iff.
      - intros (f & Hf & Hm). exists (brief_of f). rewrite <- list_elem_of_In. split.
        + apply list_elem_of_fmap. eauto.
        + by apply negb_true_iff, outside_file. }
  destruct (Hd eq_refl) as [Hts Hfs]. pose proof (ordered_sorted fs Hts Hfs) as Hs.
  set (index := match lo with Some _ => _ | None => _ end).
  assert (Hi : ∀ i f, fs !! i = Some f → starts_by lo (largest_ukey f) ↔ (index <= i)%nat).
  { intros i f Hf. unfold index. destruct lo as [k|]; cbn; [|intuition lia].
    destruct (find_file_spec fs (MinPossibleForUserKey k) Hfs) as [_ Hff].
    rewrite <- (Hff i f Hf). destruct (Forall_lookup_1 _ _ _ _ (proj1 Hfs) Hf) as (_ & Hb & _).
    rewrite min_possible_le by done. unfold cmp_le, largest_ukey. by rewrite Hts. }
  destruct (DoGenerateLevelFilesBrief fs !! index) as [b|] eqn:E.
  - apply brief_lookup in E as (f & Hf & ->). rewrite negb_true_iff. split.
    + intros Hb. exists f. split; [by apply list_elem_of_lookup_2 in Hf|]. split; [by apply (Hi index)|].
      destruct hi as [k|]; [|done]. by apply user_ltb_false.
    + intros (g & (j & Hg)%list_elem_of_lookup_1 & Hm1 & Hm2). apply (Hi j g Hg) in Hm1.
      pose proof (sorted_smallest fs Hs index j f g Hf Hg Hm1) as Hle%sst_le_user.
      destruct hi as [k|]; [|done]. cbn in Hm2 |- *. apply user_ltb_false.
      unfold smallest_ukey in Hm2. order (cmp_le CompareUser).
  - apply lookup_ge_None in E. rewrite length_brief in E. split; [done|].
    intros (g & (j & Hg)%list_elem_of_lookup_1 & Hm1 & _). apply (Hi j g Hg) in Hm1.
    apply lookup_lt_Some in Hg. lia.
Qed.

(** ** The files no older data lies below *)

(** The levels below the first are ordered. *)
Definition levels_ordered (v : VersionStorageInfo) : Prop :=
  ∀ l, (0 < l)%nat → level_ordered (LevelFiles v l).

Lemma overlap_in_level v l lo hi :
  no_timestamps → levels_ordered v → indexed v → (0 < l)%nat →
  OverlapInLevel v l lo hi = true ↔ ∃ f, f ∈ LevelFiles v l ∧ meets (lo, hi) f.
Proof using HC.
  intros Hts Hlv Hv Hl. unfold OverlapInLevel.
  destruct (Nat.leb_spec (num_non_empty_levels_ v) l).
  { rewrite (ix_empty v Hv l) by lia. split; [done|]. intros (f & Hf%not_elem_of_nil & _). done. }
  rewrite (ix_brief v Hv). apply some_file_overlaps. intros _. split; [done|]. by apply Hlv.
Qed.

(** Nothing older than file [f], at position [i] of level [l], can meet it. *)
Definition bottommost (v : VersionStorageInfo) (l i : nat) (f : FileMetaData) : Prop :=
  LevelFiles v l !! i = Some f ∧
  if decide (l = 0%nat)
  then i = (length (LevelFiles v 0) - 1)%nat ∧ ∀ l', (0 < l')%nat → LevelFiles v l' = []
  else ∀ l' g, (l < l')%nat → g ∈ LevelFiles v l' →
         ¬ meets (Some (smallest_ukey f), Some (largest_ukey f)) g.

(** The loop over the levels below [l]. *)
Lemma below_loop v l (P : nat → bool) :
  existsb (λ l', match LevelFiles v l' with [] => false | _ => P l' end)
    (seq (S l) (num_levels v - S l)) = false ↔
  ∀ l', (l < l')%nat → LevelFiles v l' = [] ∨ P l' = false.
Proof using Type.
  rewrite <- not_true_iff_false, existsb_exists. split.
  - intros Hn l' Hl'. destruct (LevelFiles v l') as [|g gs] eqn:E; [by left|]. right.
    destruct (P l') eqn:EP; [|done]. destruct Hn. exists l'. rewrite E. split; [|done].
    apply in_seq. destruct (decide (l' < num_levels v)%nat); [lia|].
    unfold LevelFiles in E. rewrite lookup_ge_None_2 in E; [done|]. unfold num_levels in *. lia.
  - intros Hn (l' & Hl'%in_seq & HP). destruct (Hn l' ltac:(lia)) as [E|E]; [by rewrite E in HP|].
    destruct (LevelFiles v l'); congruence.
Qed.

Lemma range_below v l lo hi idx :
  no_timestamps → levels_ordered v → indexed v → (0 < l)%nat →
  RangeMightExistAfterSortedRun v lo hi l idx = false ↔
  ∀ l' g, (l < l')%nat → g ∈ LevelFiles v l' → ¬ meets (Some lo, Some hi) g.
Proof using HC.
  intros Hts Hlv Hv Hl. unfold RangeMightExistAfterSortedRun.
  destruct (Nat.eqb_spec l 0); [lia|]. cbn [andb orb].
  rewrite (below_loop v l (λ l', OverlapInLevel v l' _ _)). split.
  - intros Hn l' g Hl' Hg Hm.
    destruct (Hn l' Hl') as [E|E]; [by rewrite E in Hg; apply not_elem_of_nil in Hg|].
    apply not_true_iff_false in E. apply E, overlap_in_level; [done..|lia|]. eauto.
  - intros Hn l' Hl'. right. apply not_true_iff_false. rewrite overlap_in_level by (done || lia).
    intros (g & Hg & Hm). by apply (Hn l' g).
Qed.

Lemma range_might_exist v l i f :
  no_timestamps → levels_ordered v → indexed v → LevelFiles v l !! i = Some f →
  RangeMightExistAfterSortedRun v (smallest_ukey f) (largest_ukey f) l
    (if (l =? 0)%nat then Z.of_nat i else -1) = false ↔ bottommost v l i f.
Proof using HC.
  intros Hts Hlv Hv Hf. unfold bottommost. pose proof (lookup_lt_Some _ _ _ Hf).
  destruct (Nat.eqb_spec l 0) as [->|Hl].
  - unfold RangeMightExistAfterSortedRun, NumLevelFiles. rewrite decide_True by done. cbn [andb Nat.eqb].
    destruct (Z.eqb_spec (Z.of_nat i) (Z.of_nat (length (LevelFiles v 0)) - 1)); cbn [negb].
    + rewrite (below_loop v 0 (λ _, true)). split; [intros Hn|intros (_ & _ & Hn)].
      * split_and!; [done|lia|]. intros l' Hl'. by destruct (Hn l' Hl').
      * intros l' Hl'. left. by apply Hn.
    + split; [done|]. intros (_ & ? & _). lia.
  - rewrite decide_False, range_below by (done || lia). tauto.
Qed.

Lemma bottommost_spec v l f :
  no_timestamps → levels_ordered v → indexed v →
  (length (level_files_brief_ v) = num_non_empty_levels_ v) →
  (l, f) ∈ bottommost_files_ (GenerateBottommostFiles v) ↔ ∃ i, bottommost v l i f.
Proof using HC.
  intros Hts Hlv Hv Hlen. cbn. rewrite elem_of_concat. split.
  - intros (x & Hx & (l' & Hl')%list_elem_of_lookup_1). rewrite list_lookup_imap in Hl'.
    destruct (level_files_brief_ v !! l') as [bs|] eqn:Ebs; [|done]. cbn in Hl'. injection Hl' as <-.
    assert (bs = DoGenerateLevelFilesBrief (LevelFiles v l')) as ->.
    { rewrite <- (ix_brief v Hv). unfold LevelFilesBrief. by rewrite Ebs. }
    unfold bottommost_of_level in Hx. apply list_elem_of_omap in Hx as ([i b] & Hb & Hif).
    apply list_elem_of_lookup_1 in Hb as (i' & Hi'). rewrite list_lookup_imap in Hi'.
    destruct (DoGenerateLevelFilesBrief _ !! i') as [b'|] eqn:E; [|done]. cbn in Hi'. injection Hi' as <- <-.
    apply brief_lookup in E as (f' & Hf' & ->). cbn [fst snd smallest_key largest_key file_metadata] in Hif.
    destruct (RangeMightExistAfterSortedRun _ _ _ _ _) eqn:Er; [done|]. cbn in Hif. injection Hif as -> ->.
    exists i'. by apply range_might_exist.
  - intros (i & Hb). pose proof (proj1 Hb) as Hf.
    exists (bottommost_of_level v l (DoGenerateLevelFilesBrief (LevelFiles v l))). split.
    + unfold bottommost_of_level. apply list_elem_of_omap. exists (i, brief_of f). split.
      * apply (list_elem_of_lookup_2 _ i). rewrite list_lookup_imap.
        assert (DoGenerateLevelFilesBrief (LevelFiles v l) !! i = Some (brief_of f)) as -> by (apply brief_lookup; eauto).
        done.
      * cbn [fst snd smallest_key largest_key file_metadata]. fold (smallest_ukey f) (largest_ukey f).
        by rewrite (proj2 (range_might_exist v l i f Hts Hlv Hv Hf) Hb).
    + apply (list_elem_of_lookup_2 _ l). rewrite list_lookup_imap, <- (ix_brief v Hv).
      unfold LevelFilesBrief. destruct (level_files_brief_ v !! l) as [bs|] eqn:Ebs; [done|].
      apply lookup_ge_None in Ebs. rewrite (ix_empty v Hv l) in Hf by lia. done.
Qed.

(** ** Positions of files, and overlap inside level 0 *)

Lemma location_keys fss n :
  (concat (imap (λ l fs, imap (λ pos f, (GetNumber f, ((n + l)%nat, pos))) fs) fss)).*1
  = GetNumber <$> concat fss.
Proof using Type.
  revert n. induction fss as [|fs fss IH]; intros n; [done|]. cbn [imap concat].
  rewrite !fmap_app. f_equal.
  - apply list_eq. intros i. rewrite !list_lookup_fmap, list_lookup_imap. by destruct (fs !! i).
  - rewrite <- (IH (S n)). do 2 f_equal. apply imap_ext. intros l gs _. cbn.
    apply imap_ext. intros. by rewrite Nat.add_succ_r.
Qed.

Lemma file_locations_spec v n l pos :
  NoDup (GetNumber <$> concat (files_ v)) →
  file_locations_ (GenerateFileLocationIndex v) !! n = Some (l, pos) ↔
  ∃ f, LevelFiles v l !! pos = Some f ∧ GetNumber f = n.
Proof using Type.
  intros Hnd. pose proof (location_keys (files_ v) 0) as Hk. cbn in Hk |- *.
  rewrite <- elem_of_list_to_map by (by rewrite Hk).
  rewrite elem_of_concat. unfold LevelFiles. split.
  - intros (x & Hx & (l' & Hl')%list_elem_of_lookup_1). rewrite list_lookup_imap in Hl'.
    destruct (files_ v !! l') as [fs|] eqn:E; [|done]. cbn in Hl'. injection Hl' as <-.
    apply list_elem_of_lookup_1 in Hx as (i & Hi). rewrite list_lookup_imap in Hi.
    destruct (fs !! i) as [f|] eqn:Ef; [|done]. cbn in Hi. injection Hi as <- <- <-.
    exists f. by rewrite E.
  - intros (f & Hf & <-). destruct (files_ v !! l) as [fs|] eqn:E; [|done]. cbn in Hf.
    eexists. split; [|apply (list_elem_of_lookup_2 _ l); rewrite list_lookup_imap, E; done].
    apply (list_elem_of_lookup_2 _ pos). by rewrite list_lookup_imap, Hf.
Qed.

(** Two files whose ranges of internal keys do not meet. *)
Definition ranges_apart (f g : FileMetaData) : Prop :=
  ¬ ikey_le (smallest g) (largest f) ∨ ¬ ikey_le (smallest f) (largest g).
Definition pairwise_apart (fs : list FileMetaData) : Prop :=
  ∀ i j f g, i ≠ j → fs !! i = Some f → fs !! j = Some g → ranges_apart f g.

Lemma adjacent_disjoint_spec (l : list FileMetaData) :
  Forall (λ f, ikey_le (smallest f) (largest f)) l →
  StronglySorted (λ f g, ikey_le (smallest f) (smallest g)) l →
  adjacent_disjoint (DoGenerateLevelFilesBrief l) = true ↔ pairwise_apart l.
Proof using HC.
  assert (Hlt : ∀ f g, match InternalKeyCompare (largest f) (smallest g) with Lt => true | _ => false end = true
    ↔ ¬ ikey_le (smallest g) (largest f)).
  { intros f g. rewrite <- (cmp_lt_iff InternalKeyCompare). by destruct (InternalKeyCompare _ _). }
  intros Hb Hs. unfold adjacent_disjoint. rewrite forallb_forall. split.
  - intros Hadj. assert (Hss : StronglySorted (λ f g, ¬ ikey_le (smallest g) (largest f)) l).
    { clear Hs. induction l as [|f l IH]; [constructor|]. apply Forall_cons in Hb as [Hf Hb].
      destruct l as [|g l]; [repeat constructor|].
      assert (Hfg : ¬ ikey_le (smallest g) (largest f)) by (apply Hlt, (Hadj (brief_of f, brief_of g)); by left).
      assert (IH' : StronglySorted (λ f g, ¬ ikey_le (smallest g) (largest f)) (g :: l)).
      { apply IH; [done|]. intros x Hx. apply Hadj. by right. }
      constructor; [done|]. constructor; [done|]. apply StronglySorted_inv in IH' as [_ IH'].
      apply Forall_cons in Hb as [Hg _]. eapply Forall_impl; [exact IH'|]. cbn. intros h Hh.
      order (cmp_le InternalKeyCompare). }
    intros i j f g Hij Hf Hg. destruct (decide (i < j)%nat).
    + left. by apply (StronglySorted_lookup _ _ i j f g Hss).
    + right. by apply (StronglySorted_lookup _ _ j i g f Hss); [lia|..].
  - intros Hp [x y] Hxy. rewrite <- list_elem_of_In in Hxy. apply list_elem_of_lookup_1 in Hxy as (i & Hi).
    apply lookup_zip_Some in Hi as [(f & Hf & ->)%brief_lookup Hy].
    rewrite lookup_tail in Hy. apply brief_lookup in Hy as (g & Hg & ->). cbn. apply Hlt.
    pose proof (StronglySorted_lookup _ _ i (S i) f g Hs ltac:(lia) Hf Hg) as Hfg. cbn in Hfg.
    pose proof (Forall_lookup_1 _ _ _ _ Hb Hg) as Hgb. cbn in Hgb.
    destruct (Hp i (S i) f g ltac:(lia) Hf Hg); [done|]. order (cmp_le InternalKeyCompare).
Qed.

Lemma pairwise_apart_perm fs fs' : fs ≡ₚ fs' → pairwise_apart fs → pairwise_apart fs'.
Proof using Type.
  intros Hp H i j f g Hij Hf Hg.
  destruct (Permutation_lookup_2 fs' fs i j f g) as (i' & j' & Hf' & Hg' & Hne); [by symmetry|done..|].
  by apply (H i' j').
Qed.

Lemma level0_non_overlapping_spec `{StdChoices} v :
  indexed v → Forall (λ f, ikey_le (smallest f) (largest f)) (LevelFiles v 0) →
  level0_non_overlapping_ (GenerateLevel0NonOverlapping v) = true ↔ pairwise_apart (LevelFiles v 0).
Proof using HC.
  intros Hv Hb. cbn. destruct (level_files_brief_ v) as [|l0 ls] eqn:E.
  { assert (LevelFiles v 0 = []) as ->.
    { pose proof (ix_brief v Hv 0) as H0. unfold LevelFilesBrief in H0. rewrite E in H0. cbn in H0.
      symmetry in H0. by apply fmap_nil_inv in H0. }
    split; [|done]. intros _ i j f g _ Hf. done. }
  assert (l0 = DoGenerateLevelFilesBrief (LevelFiles v 0)) as ->.
  { rewrite <- (ix_brief v Hv). unfold LevelFilesBrief. by rewrite E. }
  set (lt := λ f1 f2 : FdWithKeyRange, _).
  destruct (std_sort_compare (cmp_on smallest_key InternalKeyCompare) lt
    (DoGenerateLevelFilesBrief (LevelFiles v 0))) as [Hperm Hsort]; [apply _| |].
  { intros a b. unfold lt, cmp_on. by destruct (InternalKeyCompare _ _). }
  apply Permutation_map_inv in Hperm as (fs & Hfs & Hp). rewrite Hfs in *.
  change (adjacent_disjoint (DoGenerateLevelFilesBrief fs) = true ↔ pairwise_apart (LevelFiles v 0)).
  rewrite adjacent_disjoint_spec.
  - split; apply pairwise_apart_perm; [by symmetry|done].
  - by rewrite <- Hp.
  - clear -Hsort. revert Hsort. induction fs as [|f fs IH]; [constructor|]. cbn. intros [Hs Hf]%StronglySorted_inv.
    constructor; [by apply IH|]. rewrite Forall_fmap in Hf. exact Hf.
Qed.
End order.

(** ** Theorems *)

(** C17. [GetOverlappingInputs] on a prepared version.  On a sorted level the
    two binary searches return exactly the files that meet the range, the
    position of the first and the smallest key of the file after the last.  On
    level 0 the loop returns exactly the files that meet a range of user keys:
    the given one, or, when the range expands, the least range around it that
    contains every file it meets; the loop's passes suffice to reach it. *)
Theorem overlapping_inputs_exact (C : Comparator) (SC : StdChoices) w begin_ end_ hint fi0 expand next0 :
  ComparatorOk C →
  let v := PrepareForVersionAppend w in
  (∀ level, (0 < level)%nat → level_sorted C (LevelFiles w level) →
     hint_ok C (LevelFiles w level) begin_ hint →
     let out := GetOverlappingInputs v level begin_ end_ [] hint fi0 expand next0 in
     ov_inputs out = filter (overlaps C begin_ end_) (LevelFiles w level) ∧
     (ov_inputs out ≠ [] → ∃ s, ov_file_index out = Z.of_nat s ∧
        LevelFiles w level !! s = head (ov_inputs out) ∧
        ov_next_smallest out = smallest <$> LevelFiles w level !! (s + length (ov_inputs out))%nat)) ∧
  ∃ r, level0_range C expand (LevelFiles w 0) (ExtractUserKey <$> begin_, ExtractUserKey <$> end_) r ∧
    ov_inputs (GetOverlappingInputs v 0 begin_ end_ [] hint fi0 expand next0)
    ≡ₚ filter (meets C r) (LevelFiles w 0).
Proof.
  intros HC v. assert (Hv : indexed v) by apply prepare_indexed. split.
  - intros level Hl Hs Hh out. pose proof (overlapping_filter C HC v level begin_ end_ hint fi0 expand next0 Hv Hl Hs Hh) as Hin.
    split; [exact Hin|]. intros Hne. destruct (decide (level < num_non_empty_levels_ v)%nat).
    2:{ destruct Hne. unfold out. rewrite Hin, (ix_empty v Hv level) by lia. done. }
    unfold out in *. destruct (overlapping_block C HC v level begin_ end_ [] hint fi0 expand next0) as (s & e & Hse & _ & Ho);
      [done|lia|done|done|]. rewrite Ho in Hne |- *.
    destruct (Nat.eqb_spec s e); [done|]. cbn. exists s.
    change (LevelFiles w level) with (LevelFiles v level). unfold block.
    rewrite length_take, length_drop. split_and!; [done| |by do 2 f_equal; lia].
    rewrite head_lookup, lookup_take_lt, lookup_drop by lia. by rewrite Nat.add_0_r.
  - destruct (decide (0 < num_non_empty_levels_ v)%nat) as [Hn|Hn].
    { destruct (overlapping_level0 C HC v begin_ end_ [] hint fi0 expand next0 Hv Hn) as (r & Hr). by exists r. }
    assert (He : LevelFiles w 0 = []) by (apply (ix_empty v Hv 0); lia). rewrite He.
    set (r0 := (ExtractUserKey <$> begin_, ExtractUserKey <$> end_)). exists r0. split.
    { destruct expand; [|done]. split_and!; [by apply subrange_refl| |done]. intros f Hf%not_elem_of_nil. done. }
    unfold GetOverlappingInputs. destruct (Nat.leb_spec (num_non_empty_levels_ v) 0); [done|lia].
Qed.

(** [GetCleanInputsWithinInterval] returns the largest block of files of
    a sorted level that lies inside the interval and shares no key with the
    files around it: the block is clean and every clean block inside the
    interval is part of it. *)
Theorem clean_inputs_maximal (C : Comparator) (SC : StdChoices) w level begin_ end_ hint :
  ComparatorOk C → (0 < level)%nat → level_sorted C (LevelFiles w level) →
  within_hint C (LevelFiles w level) begin_ hint →
  ∃ s e, (s <= e <= length (LevelFiles w level))%nat ∧
    ov_inputs (GetCleanInputsWithinInterval (PrepareForVersionAppend w) level begin_ end_ hint)
      = block (LevelFiles w level) s e ∧
    ((s < e)%nat → clean_block C (LevelFiles w level) begin_ end_ s e) ∧
    ∀ s' e', (s' < e' <= length (LevelFiles w level))%nat →
      clean_block C (LevelFiles w level) begin_ end_ s' e' → (s <= s')%nat ∧ (e' <= e)%nat.
Proof.
  intros HC Hl Hs Hh.
  exact (clean_inputs_block C HC (PrepareForVersionAppend w) level begin_ end_ hint (prepare_indexed C w) Hl Hs Hh).
Qed.

(** What [PrepareForVersionAppend] derives is exact: a file is listed as
    bottommost precisely when no older data can lie under its range, the
    location index finds every file, and level 0 is flagged as free of overlap
    precisely when its files are pairwise apart. *)
Theorem version_index_exact (C : Comparator) (SC : StdChoices) w :
  ComparatorOk C → no_timestamps C → levels_ordered C w →
  Forall (λ f, cmp_le InternalKeyCompare (smallest f) (largest f)) (LevelFiles w 0) →
  NoDup (GetNumber <$> concat (files_ w)) →
  let v := PrepareForVersionAppend w in
  (∀ l f, (l, f) ∈ bottommost_files_ v ↔ ∃ i, bottommost C w l i f) ∧
  (∀ n l pos, file_locations_ v !! n = Some (l, pos) ↔
     ∃ f, LevelFiles w l !! pos = Some f ∧ GetNumber f = n) ∧
  (level0_non_overlapping_ v = true ↔ pairwise_apart C (LevelFiles w 0)).
Proof.
  intros HC Hts Hlv H0 Hnd v. split_and!.
  - intros l f. set (u := GenerateLevel0NonOverlapping (GenerateLevelFilesBrief (UpdateNumNonEmptyLevels w))).
    assert (Hu : indexed u) by (destruct (brief_indexed w) as [? ?]; by split).
    change (bottommost_files_ v) with (bottommost_files_ (GenerateBottommostFiles u)).
    rewrite (bottommost_spec C HC u l f Hts Hlv Hu); [done|]. cbn. rewrite length_fmap, length_take.
    pose proof (non_empty_loop_spec (files_ w) (num_levels w)) as [? _]. unfold num_levels in *. lia.
  - intros n l pos. by apply (file_locations_spec (GenerateBottommostFiles (GenerateLevel0NonOverlapping
      (GenerateLevelFilesBrief (UpdateNumNonEmptyLevels w)))) n l pos).
  - exact (level0_non_overlapping_spec C HC (GenerateLevelFilesBrief (UpdateNumNonEmptyLevels w))
      (brief_indexed w) H0).
Qed.

(** ** Witnesses *)

Definition sample_file (n : Z) (lo hi : byte) : FileMetaData :=
  new_file n 100 (InternalKey [lo] 3 kTypeValue) (InternalKey [hi] 9 kTypeValue).

(** Level 0: a-c, b-d, x-z; level 1: a-c, c-e, g-h; level 2: b-d. *)
Definition sample_storage : VersionStorageInfo :=
  mkStorage
    [[sample_file 1 x61 x63; sample_file 2 x78 x7a; sample_file 3 x62 x64];
     [sample_file 4 x61 x63; sample_file 5 x63 x65; sample_file 6 x67 x68];
     [sample_file 7 x62 x64]] 0 [] false [] ∅.

#[local] Existing Instance BytewiseComparator.
#[local] Existing Instance simple_choices.

Lemma sample_ordered : levels_ordered BytewiseComparator sample_storage.
Proof.
  intros [|[|[|l]]] Hl; [lia| | |split; [apply Forall_nil_2|apply SSorted_nil]].
  all: split; repeat first [apply SSorted_nil | apply Forall_nil_2 | apply SSorted_cons | apply Forall_cons_2 | split];
    intros Hgt; vm_compute in Hgt; discriminate Hgt.
Qed.

Lemma overlapping_inputs_exact_witness :
  ov_inputs (GetOverlappingInputs (PrepareForVersionAppend sample_storage) 1
    (Some (InternalKey [x64] 5 1)) (Some (InternalKey [x66] 5 1)) [] (-1) (-1) true None)
  = [sample_file 5 x63 x65].
Proof.
  destruct (overlapping_inputs_exact BytewiseComparator simple_choices sample_storage
    (Some (InternalKey [x64] 5 1)) (Some (InternalKey [x66] 5 1)) (-1) (-1) true None bytewise_ok) as [H _].
  destruct (H 1%nat) as [-> _].
  - lia.
  - apply ordered_sorted; [apply bytewise_ok|done|]. apply sample_ordered. lia.
  - left. reflexivity.
  - vm_compute. reflexivity.
Defined.

Lemma clean_inputs_maximal_witness :
  ∃ s e, ov_inputs (GetCleanInputsWithinInterval (PrepareForVersionAppend sample_storage) 1
    (Some (InternalKey [x62] 5 1)) None (-1)) = block (LevelFiles sample_storage 1) s e ∧
    (s <= e <= 3)%nat.
Proof.
  destruct (clean_inputs_maximal BytewiseComparator simple_choices sample_storage 1
    (Some (InternalKey [x62] 5 1)) None (-1)) as (s & e & Hse & H & _).
  - apply bytewise_ok.
  - lia.
  - apply ordered_sorted; [apply bytewise_ok|done|]. apply sample_ordered. lia.
  - left. reflexivity.
  - exists s, e. split; [exact H|exact Hse].
Defined.

Lemma version_index_exact_witness :
  ∃ i, bottommost BytewiseComparator sample_storage 1 i (sample_file 6 x67 x68).
Proof.
  destruct (version_index_exact BytewiseComparator simple_choices sample_storage) as (H & _).
  - apply bytewise_ok.
  - intros a b. reflexivity.
  - apply sample_ordered.
  - apply (bool_decide_unpack _). vm_compute. exact I.
  - apply (bool_decide_unpack _). vm_compute. exact I.
  - apply H. vm_compute. set_solver.
Defined.
