(* ===== verification/Compaction.v ===== *)
(** * Compactions

    Models [src/db/compaction/compaction.cc]: the description of a compaction
    that the pickers build and the compaction job reads.  Levels are natural
    numbers and [kInvalidLevel] is [None].  A file is identified by its number;
    the mark [being_compacted], which the source sets through shared pointers,
    is set in the storage of the version ([map_files]). *)

From S2P Require Import Prelude Comparator DbFormat FileMeta VersionEdit VersionStorage.

(** ** Options the modelled code reads *)

Inductive CompactionStyle :=
  | kCompactionStyleLevel | kCompactionStyleUniversal | kCompactionStyleFIFO | kCompactionStyleNone.

Inductive CompactionPri :=
  | kByCompensatedSize | kOldestLargestSeqFirst | kOldestSmallestSeqFirst | kMinOverlappingRatio
  | kRoundRobin.

Inductive CompactionReason :=
  | kUnknown | kLevelL0FilesNum | kLevelMaxLevelSize | kUniversalSizeAmplification
  | kUniversalSizeRatio | kUniversalSortedRunNum | kFIFOMaxSize | kFIFOReduceNumFiles | kFIFOTtl
  | kManualCompaction | kFilesMarkedForCompaction | kBottommostFiles | kTtl | kFlush
  | kExternalSstIngestion | kPeriodicCompaction | kChangeTemperature | kForcedBlobGC
  | kRoundRobinTtl | kRefitLevel.

#[export] Instance CompactionStyle_eq : EqDecision CompactionStyle.
Proof. solve_decision. Defined.
#[export] Instance CompactionPri_eq : EqDecision CompactionPri.
Proof. solve_decision. Defined.
#[export] Instance CompactionReason_eq : EqDecision CompactionReason.
Proof. solve_decision. Defined.

(** The fields of [ImmutableOptions] and [MutableCFOptions]; compression types
    are their numbers, [kDisableCompressionOption] being 255. *)
Record CompactOptions := mkOptions {
  compaction_style : CompactionStyle;
  compaction_pri : CompactionPri;
  num_levels_option : nat;
  use_new_flush : Z;
  enable_intra_l0_compaction : bool;
  l0_weight_compaction : bool;
  l0_file_count_weight : double;
  db_paths_size : nat;
  has_compaction_filter : bool;
  max_subcompactions_option : Z;
  max_compaction_bytes : Z;
  level0_file_num_compaction_trigger : Z;
  max_bytes_for_level_multiplier : double;
  level_compaction_dynamic_level_bytes : bool;
  preclude_last_level_data_seconds : Z;
  compression : Z;
  bottommost_compression : Z;
  compression_per_level : list Z;
  universal_allow_trivial_move : bool;
}.

Definition kDisableCompressionOption : Z := 255.
Definition kNoCompression : Z := 0.

(** ** Input files *)

(** [atomic_units] holds, per file, the bounds of the unit it belongs to. *)
Record CompactionInputFiles := mkInputs {
  in_level : nat;
  in_files : list FileMetaData;
  atomic_units : list (key * key);
}.

Definition inputs_of (level : nat) (files : list FileMetaData) : CompactionInputFiles :=
  mkInputs level files [].
Definition in_empty (i : CompactionInputFiles) : bool :=
  match in_files i with [] => true | _ => false end.

(** Levels taken into account by the functions that exclude one. *)
Definition considered (exclude_level : option nat) (i : CompactionInputFiles) : bool :=
  negb (in_empty i) && negb (bool_decide (exclude_level = Some (in_level i))).

(** One step of the loops that keep the smallest and the largest key;
    [None] is the state before the first file. *)
Definition grow (cmp : key → key → comparison) (acc : option (key * key)) (b : key * key)
    : option (key * key) :=
  match acc with
  | None => Some b
  | Some (lo, hi) =>
      Some (match cmp b.1 lo with Lt => b.1 | _ => lo end,
            match cmp b.2 hi with Gt => b.2 | _ => hi end)
  end.

(** The bounds the loops look at: every file of level 0, the first and the last
    of another level. *)
Definition level_bounds (get : FileMetaData → key * key) (i : CompactionInputFiles) : list (key * key) :=
  if (in_level i =? 0)%nat then get <$> in_files i
  else match head (in_files i), last (in_files i) with
       | Some f, Some g => [((get f).1, (get g).2)]
       | _, _ => []
       end.

Definition GetBoundaryKeys `{Comparator} (inputs : list CompactionInputFiles)
    (exclude_level : option nat) : option (key * key) :=
  foldl (grow Compare) None
    (concat (level_bounds (λ f, (smallest_ukey f, largest_ukey f)) <$>
       filter (λ i, considered exclude_level i = true) inputs)).

Definition GetBoundaryInternalKeys `{Comparator} (inputs : list CompactionInputFiles)
    (exclude_level : option nat) : option (key * key) :=
  foldl (grow InternalKeyCompare) None
    (concat (level_bounds (λ f, (smallest f, largest f)) <$>
       filter (λ i, considered exclude_level i = true) inputs)).

(** ** Atomic units

    Files that share a boundary key are one unit.  [cur] are the bounds of the
    unit being built and [pending] the number of its files. *)
Fixpoint atomic_loop `{Comparator} (files : list FileMetaData) (cur : key * key) (pending : nat)
    : list (key * key) :=
  match files with
  | [] => replicate pending cur
  | f :: files' =>
      if sst_eqb cur.2 (smallest f) then atomic_loop files' (cur.1, largest f) (S pending)
      else replicate pending cur ++ atomic_loop files' (smallest f, largest f) 1
  end.

Definition PopulateWithAtomicBoundaries `{Comparator} (inputs : list CompactionInputFiles)
    : list CompactionInputFiles :=
  (λ i, match in_level i, in_files i with
        | S _, f :: fs => mkInputs (in_level i) (in_files i) (atomic_loop fs (smallest f, largest f) 1)
        | _, _ => i
        end) <$> inputs.

(** ** What a compaction is relative to its version *)

(** The position in level 0 of the last input file. *)
Fixpoint file_position (n : Z) (files : list FileMetaData) : Z :=
  match files with
  | [] => 0
  | f :: files' => if GetNumber f =? n then 0 else 1 + file_position n files'
  end.

Definition IsBottommostLevel `{Comparator} (output_level : nat) (v : VersionStorageInfo)
    (inputs : list CompactionInputFiles) : bool :=
  let output_l0_idx :=
    if (output_level =? 0)%nat then
      match i ← head inputs; last (in_files i) with
      | Some f => file_position (GetNumber f) (LevelFiles v 0)
      | None => 0
      end
    else -1 in
  let '(lo, hi) := default ([], []) (GetBoundaryKeys inputs None) in
  negb (RangeMightExistAfterSortedRun v lo hi output_level output_l0_idx).

Definition IsFullCompaction (v : VersionStorageInfo) (inputs : list CompactionInputFiles) : bool :=
  (sum_list ((λ i, length (in_files i)) <$> inputs) =? sum_list (length <$> files_ v))%nat.

Definition EvaluateProximalLevel (v : VersionStorageInfo) (o : CompactOptions)
    (start_level output_level : nat) : option nat :=
  if negb (bool_decide (compaction_style o = kCompactionStyleLevel)) &&
     negb (bool_decide (compaction_style o = kCompactionStyleUniversal)) then None
  else if negb (output_level =? num_levels_option o - 1)%nat then None
  else if (output_level <=? 1)%nat then None
  else if (start_level =? num_levels_option o - 1)%nat &&
          (negb (bool_decide (compaction_style o = kCompactionStyleUniversal)) ||
           negb (length (LevelFiles v (output_level - 1)) =? 0)%nat) then None
  else if preclude_last_level_data_seconds o <=? 0 then None
  else Some (output_level - 1)%nat.

(** ** Compactions *)

Record Compaction := mkCompaction {
  c_id : nat;  (* stands for the address *)
  c_start_level : nat;
  c_output_level : nat;
  c_target_output_file_size : Z;
  c_max_output_file_size : Z;
  c_max_compaction_bytes : Z;
  c_number_levels : nat;
  c_output_path_id : Z;
  c_output_compression : Z;
  c_l0_files_might_overlap : bool;
  c_inputs : list CompactionInputFiles;
  c_grandparents : list FileMetaData;
  c_bottommost_level : bool;
  c_is_full_compaction : bool;
  c_compaction_reason : CompactionReason;
  c_smallest_user_key : key;
  c_largest_user_key : key;
  c_proximal_level : option nat;
  c_proximal_range : option (key * key);
  c_keep_in_last_level_through_seqno : Z;
  c_l0_group_boundaries : list (key * key);
}.

#[export] Instance compaction_eta : Eta Compaction := λ c,
  mkCompaction (c_id c) (c_start_level c) (c_output_level c) (c_target_output_file_size c)
    (c_max_output_file_size c) (c_max_compaction_bytes c) (c_number_levels c) (c_output_path_id c) (c_output_compression c)
    (c_l0_files_might_overlap c) (c_inputs c) (c_grandparents c) (c_bottommost_level c)
    (c_is_full_compaction c) (c_compaction_reason c) (c_smallest_user_key c)
    (c_largest_user_key c) (c_proximal_level c) (c_proximal_range c)
    (c_keep_in_last_level_through_seqno c) (c_l0_group_boundaries c).

Definition c_files (c : Compaction) : list FileMetaData := concat (in_files <$> c_inputs c).
Definition c_numbers (c : Compaction) : list Z := GetNumber <$> c_files c.

(** Changing the metadata of files of a version, wherever it is referred to. *)
Definition map_files (g : FileMetaData → FileMetaData) (v : VersionStorageInfo) : VersionStorageInfo :=
  mkStorage ((λ fs : list FileMetaData, g <$> fs) <$> files_ v) (num_non_empty_levels_ v)
    ((λ bs : list FdWithKeyRange, (λ b, mkBrief (g (file_metadata b)) (smallest_key b) (largest_key b)) <$> bs)
       <$> level_files_brief_ v)
    (level0_non_overlapping_ v) ((λ p : nat * FileMetaData, (p.1, g p.2)) <$> bottommost_files_ v) (file_locations_ v).

Definition mark_number (ns : list Z) (b : bool) (f : FileMetaData) : FileMetaData :=
  if bool_decide (GetNumber f ∈ ns) then set_being_compacted b f else f.

Definition MarkFilesBeingCompacted (c : Compaction) (b : bool) (v : VersionStorageInfo)
    : VersionStorageInfo :=
  map_files (mark_number (c_numbers c) b) v.

(** Every file of the proximal level is an input, so that the whole level may
    receive output. *)
Definition proximal_all_inputs (v : VersionStorageInfo) (inputs : list CompactionInputFiles)
    (proximal_level : nat) : bool :=
  let proximal_inputs :=
    GetNumber <$> concat (in_files <$> filter (λ i, in_level i = proximal_level) inputs) in
  forallb (λ f, bool_decide (GetNumber f ∈ proximal_inputs)) (LevelFiles v proximal_level).

(** The range output to the proximal level is safe in, and the sequence number
    up to which data stays in the last level. *)
Definition PopulateProximalLevelOutputRange `{Comparator} (v : VersionStorageInfo)
    (o : CompactOptions) (inputs : list CompactionInputFiles) (output_level : nat)
    (proximal_level : option nat) : option (key * key) * Z :=
  match proximal_level with
  | None => (None, kMaxSequenceNumber)
  | Some p =>
      let full_range :=
        bool_decide (compaction_style o = kCompactionStyleUniversal) && proximal_all_inputs v inputs p in
      let exclude_level := if full_range then None else Some (num_levels v - 1)%nat in
      (GetBoundaryInternalKeys inputs exclude_level,
       if full_range then 0
       else foldl Z.max 0 (largest_seqno <$> concat (in_files <$>
              filter (λ i, in_level i = output_level) inputs)))
  end.

Definition placeholder_reason (r : CompactionReason) : bool :=
  bool_decide (r = kExternalSstIngestion) || bool_decide (r = kRefitLevel).

(** The constructor.  The split key of round-robin compactions and the
    filtering of inputs covered by a range deletion, which only universal
    compactions ask for, are left out. *)
Definition NewCompaction `{Comparator} (id : nat) (v : VersionStorageInfo) (o : CompactOptions)
    (inputs0 : list CompactionInputFiles) (output_level : nat) (target_file_size max_bytes path_id
    compression_type : Z) (grandparents : list FileMetaData) (reason : CompactionReason)
    (l0_files_might_overlap : bool) : Compaction * VersionStorageInfo :=
  let inputs := PopulateWithAtomicBoundaries inputs0 in
  let start_level := match inputs0 with i :: _ => in_level i | [] => O end in
  let bottommost_level :=
    if placeholder_reason reason then false else IsBottommostLevel output_level v inputs in
  let proximal_level :=
    if placeholder_reason reason then None else EvaluateProximalLevel v o start_level output_level in
  let '(lo, hi) := default ([], []) (GetBoundaryKeys inputs None) in
  let '(range, seqno) := PopulateProximalLevelOutputRange v o inputs output_level proximal_level in
  let c := mkCompaction id start_level output_level target_file_size
    (if bottommost_level || (length grandparents =? 0)%nat then target_file_size
     else 2 *64 target_file_size)
    max_bytes (num_levels v) path_id compression_type l0_files_might_overlap inputs grandparents
    bottommost_level (IsFullCompaction v inputs) reason lo hi proximal_level range seqno [] in
  (c, MarkFilesBeingCompacted c true v).

Definition SupportsPerKeyPlacement (c : Compaction) : bool :=
  match c_proximal_level c with Some _ => true | None => false end.

(** [a <= b] and [a >= b] for user keys without timestamps. *)
Definition user_leb `{Comparator} (a b : key) : bool :=
  match CompareUser a b with Gt => false | _ => true end.
Definition user_geb `{Comparator} (a b : key) : bool :=
  match CompareUser a b with Lt => false | _ => true end.

(** A proximal range with an empty key never overlaps. *)
Definition OverlapProximalLevelOutputRange `{Comparator} (c : Compaction) (lo hi : key) : bool :=
  match c_proximal_level c, c_proximal_range c with
  | Some _, Some (plo, phi) =>
      if (length plo =? 0)%nat || (length phi =? 0)%nat then false
      else user_leb lo (ExtractUserKey phi) && user_geb hi (ExtractUserKey plo)
  | _, _ => false
  end.

(** ** Compression and trivial moves *)

Definition GetCompressionType (v : VersionStorageInfo) (o : CompactOptions) (level base_level : Z)
    (enable_compression : bool) : Z :=
  if negb enable_compression then kNoCompression
  else if negb (bottommost_compression o =? kDisableCompressionOption) &&
          (Z.of_nat (num_non_empty_levels_ v) - 1 <=? level)
  then bottommost_compression o
  else match compression_per_level o with
       | [] => compression o
       | per_level =>
           let idx := if level =? 0 then 0 else level - base_level + 1 in
           let n := Z.of_nat (length per_level) - 1 in
           default 0 (per_level !! Z.to_nat (Z.max 0 (Z.min idx n)))
       end.

Definition InputCompressionMatchesOutput (c : Compaction) (v : VersionStorageInfo)
    (o : CompactOptions) (base_level : Z) : bool :=
  GetCompressionType v o (Z.of_nat (c_start_level c)) base_level true =? c_output_compression c.

(** The loop over the input files against the next level; [can_move] is the
    partitioner of the user, if there is one. *)
Definition small_grandparents `{Comparator} (c : Compaction) (v : VersionStorageInfo)
    (can_move : option (key → key → bool)) : bool :=
  forallb (λ f,
    let file_grand_parents :=
      ov_inputs (GetOverlappingInputs v (S (c_output_level c)) (Some (smallest f)) (Some (largest f))
                   [] (-1) (-1) true None) in
    (GetFileSize f +64 TotalFileSize file_grand_parents <=? c_max_compaction_bytes c) &&
    match can_move with Some p => p (smallest_ukey f) (largest_ukey f) | None => true end)
    (match c_inputs c with i :: _ => in_files i | [] => [] end).

(** [is_trivial_move] is the flag that universal compactions set. *)
Definition IsTrivialMove `{Comparator} (c : Compaction) (v : VersionStorageInfo) (o : CompactOptions)
    (base_level : Z) (is_trivial_move : bool) (can_move : option (key → key → bool)) : bool :=
  if (c_start_level c =? 0)%nat && negb (level0_non_overlapping_ v) && c_l0_files_might_overlap c
  then false
  else if bool_decide (c_compaction_reason c = kManualCompaction) && has_compaction_filter o then false
  else if (c_start_level c =? c_output_level c)%nat then false
  else if bool_decide (c_compaction_reason c = kChangeTemperature) then false
  else if universal_allow_trivial_move o && negb (c_output_level c =? 0)%nat &&
          bool_decide (compaction_style o = kCompactionStyleUniversal) then is_trivial_move
  else if negb (negb (c_start_level c =? c_output_level c)%nat && (length (c_inputs c) =? 1)%nat &&
                match i ← head (c_inputs c); head (in_files i) with
                | Some f => GetPathId f =? c_output_path_id c
                | None => false
                end && InputCompressionMatchesOutput c v o base_level) then false
  else if (S (c_output_level c) <? c_number_levels c)%nat && negb (small_grandparents c v can_move)
  then false
  else negb (SupportsPerKeyPlacement c).

Definition AddInputDeletions (c : Compaction) (e : VersionEdit) : VersionEdit :=
  foldl (λ e i, foldl (λ e f, DeleteFile (Z.of_nat (in_level i)) (GetNumber f) e) e (in_files i))
    e (c_inputs c).

(** ** Keys below the output level

    [level_ptrs] remembers, per level, the files already passed; the compaction
    asks for keys in increasing order. *)

(** The loop over the files of a level from position [ptr]: files that are
    [past] are skipped, the first other one decides. *)
Fixpoint scan_level (past hit : FileMetaData → bool) (files : list FileMetaData) (ptr : nat)
    : nat * bool :=
  match files with
  | [] => (ptr, false)
  | f :: files' => if past f then scan_level past hit files' (S ptr) else (ptr, hit f)
  end.

Fixpoint scan_levels (v : VersionStorageInfo) (past hit : FileMetaData → bool) (levels : list nat)
    (level_ptrs : list nat) : list nat * bool :=
  match levels with
  | [] => (level_ptrs, true)
  | lvl :: levels' =>
      let ptr := default O (level_ptrs !! lvl) in
      let '(ptr', found) := scan_level past hit (drop ptr (LevelFiles v lvl)) ptr in
      let level_ptrs' := <[lvl := ptr']> level_ptrs in
      if found then (level_ptrs', false) else scan_levels v past hit levels' level_ptrs'
  end.

Definition levels_below (c : Compaction) : list nat :=
  seq (S (c_output_level c)) (c_number_levels c - S (c_output_level c)).

Definition KeyNotExistsBeyondOutputLevel `{Comparator} (c : Compaction) (v : VersionStorageInfo)
    (o : CompactOptions) (user_key : key) (level_ptrs : list nat) : list nat * bool :=
  if c_bottommost_level c then (level_ptrs, true)
  else if negb (c_output_level c =? 0)%nat && bool_decide (compaction_style o = kCompactionStyleLevel)
  then scan_levels v
         (λ f, match Compare user_key (largest_ukey f) with Gt => true | _ => false end)
         (λ f, user_geb user_key (smallest_ukey f)) (levels_below c) level_ptrs
  else (level_ptrs, false).

Definition KeyRangeNotExistsBeyondOutputLevel `{Comparator} (c : Compaction) (v : VersionStorageInfo)
    (o : CompactOptions) (begin_key end_key : key) (level_ptrs : list nat) : list nat * bool :=
  if c_bottommost_level c then (level_ptrs, true)
  else if negb (c_output_level c =? 0)%nat && bool_decide (compaction_style o = kCompactionStyleLevel)
  then scan_levels v (λ f, negb (user_leb begin_key (largest_ukey f)))
         (λ f, negb (user_leb end_key (smallest_ukey f))) (levels_below c) level_ptrs
  else (level_ptrs, false).

(** ** Sizes and other summaries *)

Definition CalculateTotalInputSize (c : Compaction) : Z := sum64 (GetFileSize <$> c_files c).

Definition OutputFilePreallocationSize (c : Compaction) (o : CompactOptions) : Z :=
  let total := sum64 (GetFileSize <$> c_files c) in
  let size :=
    if negb (c_max_output_file_size c =? 2 ^ 64 - 1) &&
       (bool_decide (compaction_style o = kCompactionStyleLevel) || (0 <? c_output_level c)%nat)
    then Z.min (c_max_output_file_size c) total else total in
  Z.min 1073741824 (size +64 size / 10).

Definition MinInputFileEpochNumber (c : Compaction) : Z :=
  foldl Z.min (2 ^ 64 - 1) (epoch_number <$> c_files c).

Definition IsOutputLevelEmpty (c : Compaction) : bool :=
  match last (c_inputs c) with
  | Some i => negb (in_level i =? c_output_level c)%nat || in_empty i
  | None => true
  end.

(** [plain_table]: the table factory is the one of plain tables. *)
Definition ShouldFormSubcompactions (c : Compaction) (o : CompactOptions) (plain_table : bool)
    (max_subcompactions : Z) : bool :=
  if plain_table then false
  else if bool_decide (compaction_pri o = kRoundRobin) &&
          bool_decide (compaction_style o = kCompactionStyleLevel) then (0 <? c_output_level c)%nat
  else if max_subcompactions <=? 1 then false
  else match compaction_style o with
       | kCompactionStyleLevel =>
           ((c_start_level c =? 0)%nat || bool_decide (c_compaction_reason c = kManualCompaction)) &&
           (0 <? c_output_level c)%nat
       | kCompactionStyleUniversal => (1 <? c_number_levels c)%nat && (0 <? c_output_level c)%nat
       | _ => false
       end.

Definition DoesInputReferenceBlobFiles (c : Compaction) (no_blob_files : bool) : bool :=
  if no_blob_files then false
  else existsb (λ f, negb (oldest_blob_file_number f =? kInvalidBlobFileNumber)) (c_files c).

(** ** The hull of bounds *)

Section hull.
Context (cmp : key → key → comparison) `{!CompareOk cmp}.

Definition hull_of (b : key * key) (bs : list (key * key)) : Prop :=
  (∃ x, x ∈ bs ∧ x.1 = b.1) ∧ (∃ x, x ∈ bs ∧ x.2 = b.2) ∧
  ∀ x, x ∈ bs → cmp_le cmp b.1 x.1 ∧ cmp_le cmp x.2 b.2.

Lemma grow_hull b bs x :
  hull_of b bs → ∃ b', grow cmp (Some b) x = Some b' ∧ hull_of b' (bs ++ [x]).
Proof using Type*.
  intros ((y & Hy & Ey) & (z & Hz & Ez) & Hall). destruct b as [lo hi]. cbn [grow fst snd] in *.
  eexists. split; [done|]. unfold hull_of. cbn [fst snd]. split_and!.
  - destruct (cmp x.1 lo); [exists y|exists x|exists y]; set_solver.
  - destruct (cmp x.2 hi); [exists z|exists z|exists x]; set_solver.
  - intros w [Hw| ->%list_elem_of_singleton]%elem_of_app.
    + destruct (Hall w Hw). cmp_case cmp x.1 lo; cmp_case cmp x.2 hi; split; order (cmp_le cmp).
    + cmp_case cmp x.1 lo; cmp_case cmp x.2 hi; split; order (cmp_le cmp).
Qed.

Lemma foldl_grow_hull bs0 b bs :
  hull_of b bs0 → ∃ b', foldl (grow cmp) (Some b) bs = Some b' ∧ hull_of b' (bs0 ++ bs).
Proof using Type*.
  revert bs0 b. induction bs as [|x bs IH]; intros bs0 b Hb; cbn [foldl].
  - exists b. by rewrite app_nil_r.
  - destruct (grow_hull b bs0 x Hb) as (b1 & E & Hb1). rewrite E.
    destruct (IH _ _ Hb1) as (b' & E' & Hb'). exists b'. by rewrite <- app_assoc in Hb'.
Qed.

Lemma grow_all bs :
  match foldl (grow cmp) None bs with Some b => hull_of b bs | None => bs = [] end.
Proof using Type*.
  destruct bs as [|x bs]; [done|]. cbn [foldl grow].
  destruct (foldl_grow_hull [x] x bs) as (b & -> & Hb); [|done].
  split_and!; [exists x; set_solver..|]. intros y ->%list_elem_of_singleton. split; order (cmp_le cmp).
Qed.
End hull.

(** ** The user keys of a compaction *)

Section boundary.
Context (C : Comparator) (HC : ComparatorOk C).

Abbreviation full_le := (cmp_le Compare).

(** Files of one input level: any order in level 0, sorted below. *)
Definition input_sorted (i : CompactionInputFiles) : Prop :=
  in_level i = 0%nat ∨
  Forall (λ f, full_le (smallest_ukey f) (largest_ukey f)) (in_files i) ∧
  StronglySorted (λ f g, full_le (largest_ukey f) (smallest_ukey g)) (in_files i).

Lemma starts_sorted_ends fs f g h :
  Forall (λ f, full_le (smallest_ukey f) (largest_ukey f)) fs →
  StronglySorted (λ f g, full_le (largest_ukey f) (smallest_ukey g)) fs →
  head fs = Some f → last fs = Some g → h ∈ fs →
  full_le (smallest_ukey f) (smallest_ukey h) ∧ full_le (largest_ukey h) (largest_ukey g).
Proof using HC.
  intros Hb Hs Hf Hg (i & Hh)%list_elem_of_lookup_1. rewrite head_lookup in Hf.
  rewrite last_lookup in Hg.
  pose proof (Forall_lookup_1 _ _ _ _ Hb Hf) as Bf. pose proof (Forall_lookup_1 _ _ _ _ Hb Hg) as Bg.
  cbn in Bf, Bg. pose proof (lookup_lt_Some _ _ _ Hh). split.
  - destruct (decide (i = 0%nat)) as [->|]; [simplify_eq; by order (cmp_le Compare)|].
    pose proof (StronglySorted_lookup _ _ 0 i f h Hs ltac:(lia) Hf Hh) as H1. cbn in H1.
    order (cmp_le Compare).
  - destruct (decide (i = pred (length fs))) as [->|]; [simplify_eq; by order (cmp_le Compare)|].
    pose proof (StronglySorted_lookup _ _ i (pred (length fs)) h g Hs ltac:(lia) Hh Hg) as H1. cbn in H1.
    order (cmp_le Compare).
Qed.

Lemma boundary_keys_cover inputs i f :
  Forall input_sorted inputs → i ∈ inputs → f ∈ in_files i →
  ∃ b, GetBoundaryKeys inputs None = Some b ∧
    full_le b.1 (smallest_ukey f) ∧ full_le (largest_ukey f) b.2.
Proof using HC.
  intros Hs Hi Hf. unfold GetBoundaryKeys. set (get := λ f, (smallest_ukey f, largest_ukey f)).
  set (bs := concat _). pose proof (grow_all Compare bs) as Hh.
  assert (Hin : ∃ x, x ∈ bs ∧ full_le x.1 (smallest_ukey f) ∧ full_le (largest_ukey f) x.2).
  { assert (Hc : considered None i = true).
    { unfold considered, in_empty. destruct (in_files i); [by apply not_elem_of_nil in Hf|done]. }
    assert (Hsub : ∀ x, x ∈ level_bounds get i → x ∈ bs).
    { intros x Hx. apply elem_of_concat. exists (level_bounds get i). split; [done|].
      apply list_elem_of_fmap. exists i. split; [done|]. by apply list_elem_of_filter. }
    rewrite Forall_forall in Hs. unfold level_bounds in Hsub.
    destruct (Nat.eqb_spec (in_level i) 0) as [H0|H0].
    - exists (get f). split; [apply Hsub, list_elem_of_fmap; eauto|]. cbn. split; order (cmp_le Compare).
    - destruct (Hs i Hi) as [|[Hb Hss]]; [done|].
      destruct (head (in_files i)) as [g|] eqn:Eg; [|by destruct (in_files i); [apply not_elem_of_nil in Hf|]].
      destruct (last (in_files i)) as [h|] eqn:Eh; [|apply last_None in Eh; rewrite Eh in Hf; by apply not_elem_of_nil in Hf].
      exists ((get g).1, (get h).2). split; [apply Hsub; by apply list_elem_of_singleton|].
      exact (starts_sorted_ends (in_files i) g h f Hb Hss Eg Eh Hf). }
  destruct Hin as (x & Hx & H1 & H2). destruct (foldl _ _ _) as [b|].
  - exists b. split; [done|]. destruct Hh as (_ & _ & Hall). destruct (Hall x Hx). split; order (cmp_le Compare).
  - rewrite Hh in Hx. by apply not_elem_of_nil in Hx.
Qed.

(** ** Keys below the output level *)

Abbreviation user_le := (cmp_le CompareUser).

Lemma user_geb_true a b : user_geb a b = true ↔ user_le b a.
Proof using HC.
  unfold user_geb, cmp_le. rewrite (compare_opp CompareUser a b). by destruct (CompareUser a b).
Qed.

Lemma user_leb_true a b : user_leb a b = true ↔ user_le a b.
Proof using Type. unfold user_leb, cmp_le. by destruct (CompareUser a b). Qed.

(** A level whose files start in order. *)
Definition starts_sorted (fs : list FileMetaData) : Prop :=
  StronglySorted (λ f g, user_le (smallest_ukey f) (smallest_ukey g)) fs.

Section scan.
Context (past hit : FileMetaData → bool).
Hypothesis hit_first : ∀ f g, user_le (smallest_ukey f) (smallest_ukey g) → hit g = true → hit f = true.

Definition found (f : FileMetaData) : Prop := past f = false ∧ hit f = true.

(** The first [ptr] files of the level are past. *)
Definition ptr_ok (fs : list FileMetaData) (ptr : nat) : Prop :=
  (ptr <= length fs)%nat ∧ Forall (λ f, past f = true) (take ptr fs).

Lemma scan_level_gen pre rest :
  starts_sorted rest → Forall (λ f, past f = true) pre →
  let r := scan_level past hit rest (length pre) in
  ptr_ok (pre ++ rest) r.1 ∧ (r.2 = true ↔ ∃ f, f ∈ pre ++ rest ∧ found f).
Proof using HC hit_first.
  revert pre. induction rest as [|f rest IH]; intros pre Hs Hpre; cbn [scan_level].
  - cbn [fst snd]. rewrite app_nil_r. split; [split; [lia|by rewrite firstn_all]|].
    split; [done|]. intros (f & Hf & Hk & _). rewrite Forall_forall in Hpre. rewrite Hpre in Hk; done.
  - apply StronglySorted_inv in Hs as [Hs Hf]. destruct (past f) eqn:E.
    + specialize (IH (pre ++ [f]) Hs). rewrite length_app, Nat.add_1_r, <- app_assoc in IH. cbn in IH.
      apply IH. by rewrite Forall_app, Forall_singleton.
    + cbn [fst snd]. split; [split; [rewrite length_app; lia|by rewrite take_app_length]|].
      rewrite Forall_forall in Hpre, Hf. split.
      * intros Hg. exists f. split; [set_solver|]. by split.
      * intros (g & [Hg|[->|Hg]%elem_of_cons]%elem_of_app & Hk & Hu); [by rewrite Hpre in Hk|done|].
        apply (hit_first f g); [by apply Hf|done].
Qed.

Definition ptrs_ok (v : VersionStorageInfo) (ptrs : list nat) : Prop :=
  ∀ l, ptr_ok (LevelFiles v l) (default O (ptrs !! l)).

Lemma scan_levels_spec v levels ptrs :
  (∀ l, l ∈ levels → starts_sorted (LevelFiles v l)) → ptrs_ok v ptrs →
  let r := scan_levels v past hit levels ptrs in
  ptrs_ok v r.1 ∧ (r.2 = true ↔ ∀ l f, l ∈ levels → f ∈ LevelFiles v l → ¬ found f).
Proof using HC hit_first.
  revert ptrs. induction levels as [|l levels IH]; intros ptrs Hs Hp; cbn [scan_levels].
  { split; [done|]. split; [|done]. intros _ l f Hl%not_elem_of_nil. done. }
  set (ptr := default O (ptrs !! l)). set (fs := LevelFiles v l).
  destruct (Hp l) as [Hle Hpast]. fold ptr fs in Hle, Hpast.
  assert (Hlen : length (take ptr fs) = ptr) by (rewrite length_take; lia).
  destruct (scan_level_gen (take ptr fs) (drop ptr fs)) as [Hp' Hf].
  { unfold starts_sorted. assert (Hsl : starts_sorted fs) by (apply Hs; set_solver).
    rewrite <- (take_drop ptr fs) in Hsl. by apply StronglySorted_app_1_r in Hsl. }
  { done. }
  rewrite Hlen, take_drop in Hp', Hf.
  destruct (scan_level past hit (drop ptr fs) ptr) as [ptr' fnd]. cbn [fst snd] in Hp', Hf.
  assert (Hok : ptrs_ok v (<[l := ptr']> ptrs)).
  { intros l'. destruct (decide (l' = l)) as [->|Hne]; [|rewrite list_lookup_insert_ne by done; apply Hp].
    destruct (decide (l < length ptrs)%nat).
    - by rewrite list_lookup_insert_eq.
    - rewrite list_insert_ge by lia. apply Hp. }
  destruct fnd.
  - split; [done|]. split; [done|]. intros Hn. destruct (proj1 Hf eq_refl) as (f & Hfin & Hfd).
    destruct (Hn l f); [set_solver|done|done].
  - destruct (IH (<[l := ptr']> ptrs)) as [H1 H2]; [set_solver|done|]. split; [done|]. rewrite H2. split.
    + intros Hn l' f [->|Hl']%elem_of_cons Hfin; [|by apply (Hn l')].
      intros Hfd. destruct Hf as [_ Hf]. discriminate Hf. eauto.
    + intros Hn l' f Hl'. apply Hn. by right.
Qed.
End scan.

(** File [f] may hold the key, or data of the range. *)
Definition holds_key (k : key) (f : FileMetaData) : Prop :=
  full_le k (largest_ukey f) ∧ user_le (smallest_ukey f) k.
Definition holds_range (begin_key end_key : key) (f : FileMetaData) : Prop :=
  user_le begin_key (largest_ukey f) ∧ ¬ user_le end_key (smallest_ukey f).

Abbreviation key_past k := (λ f, match Compare k (largest_ukey f) with Gt => true | _ => false end).
Abbreviation key_hit k := (λ f, user_geb k (smallest_ukey f)).

Lemma key_past_true k f : key_past k f = true ↔ ¬ full_le k (largest_ukey f).
Proof using HC. rewrite <- (cmp_gt_iff Compare). by destruct (Compare k (largest_ukey f)). Qed.

Lemma found_key k f : found (key_past k) (key_hit k) f ↔ holds_key k f.
Proof using HC.
  unfold found, holds_key. rewrite user_geb_true, <- not_true_iff_false, key_past_true.
  f_equiv. destruct (decide (full_le k (largest_ukey f))); tauto.
Qed.

Lemma key_ptrs_mono v k k' ptrs :
  full_le k k' → ptrs_ok (key_past k) v ptrs → ptrs_ok (key_past k') v ptrs.
Proof using HC.
  intros Hk Hp l. destruct (Hp l) as [H1 H2]. split; [done|]. eapply Forall_impl; [exact H2|].
  intros f. rewrite !key_past_true. intros ? ?. order (cmp_le Compare).
Qed.

Lemma key_below_spec v k levels ptrs :
  (∀ l, l ∈ levels → starts_sorted (LevelFiles v l)) → ptrs_ok (key_past k) v ptrs →
  let r := scan_levels v (key_past k) (key_hit k) levels ptrs in
  ptrs_ok (key_past k) v r.1 ∧
  (r.2 = true ↔ ∀ l f, l ∈ levels → f ∈ LevelFiles v l → ¬ holds_key k f).
Proof using HC.
  intros Hs Hp. destruct (scan_levels_spec (key_past k) (key_hit k)) with v levels ptrs as [H1 H2]; [|done..|].
  - intros f g Hfg. rewrite !user_geb_true. intros ?. order (cmp_le CompareUser).
  - split; [done|]. rewrite H2. by setoid_rewrite found_key.
Qed.

Lemma range_below_spec v b e levels ptrs :
  (∀ l, l ∈ levels → starts_sorted (LevelFiles v l)) →
  ptrs_ok (λ f, negb (user_leb b (largest_ukey f))) v ptrs →
  let r := scan_levels v (λ f, negb (user_leb b (largest_ukey f)))
             (λ f, negb (user_leb e (smallest_ukey f))) levels ptrs in
  ptrs_ok (λ f, negb (user_leb b (largest_ukey f))) v r.1 ∧
  (r.2 = true ↔ ∀ l f, l ∈ levels → f ∈ LevelFiles v l → ¬ holds_range b e f).
Proof using HC.
  intros Hs Hp. assert (Hlf : ∀ a b, user_leb a b = false ↔ ¬ user_le a b).
  { intros x y. by rewrite <- user_leb_true, not_true_iff_false. }
  destruct (scan_levels_spec (λ f, negb (user_leb b (largest_ukey f)))
    (λ f, negb (user_leb e (smallest_ukey f)))) with v levels ptrs as [H1 H2]; [|done..|].
  - intros f g Hfg. rewrite !negb_true_iff, !Hlf. intros ??. order (cmp_le CompareUser).
  - split; [done|]. rewrite H2. unfold found, holds_range.
    by setoid_rewrite negb_false_iff; setoid_rewrite negb_true_iff; setoid_rewrite Hlf; setoid_rewrite user_leb_true.
Qed.

(** ** Atomic units *)

(** [u] are the bounds of the largest run of touching files around file [i]. *)
Definition unit_of (fs : list FileMetaData) (i : nat) (u : key * key) : Prop :=
  ∃ s e, (s <= i < e)%nat ∧ clean_at C fs s ∧ clean_at C fs e ∧
    (∀ j, (s < j < e)%nat → ¬ clean_at C fs j) ∧
    smallest <$> fs !! s = Some u.1 ∧ largest <$> fs !! (e - 1)%nat = Some u.2.

Lemma atomic_loop_spec fs rest s pending cur :
  level_sorted C fs → (0 < pending)%nat → rest = drop (s + pending) fs →
  (s + pending <= length fs)%nat → clean_at C fs s →
  (∀ j, (s < j < s + pending)%nat → ¬ clean_at C fs j) →
  smallest <$> fs !! s = Some cur.1 → largest <$> fs !! (s + pending - 1)%nat = Some cur.2 →
  length (atomic_loop rest cur pending) = (length fs - s)%nat ∧
  ∀ i u, atomic_loop rest cur pending !! i = Some u → unit_of fs (s + i) u.
Proof using HC.
  intros Hfs. revert s pending cur. induction rest as [|f rest IH];
    intros s pending cur Hp Hrest Hlen Hc Hin Hlo Hhi; cbn [atomic_loop].
  { assert (s + pending = length fs)%nat.
    { symmetry in Hrest. apply (f_equal length) in Hrest. rewrite length_drop in Hrest. cbn in Hrest. lia. }
    rewrite length_replicate. split; [lia|]. intros i u [-> Hi]%lookup_replicate.
    exists s, (s + pending)%nat. split_and!; [lia|lia|done|apply clean_at_end; lia|done|done|done]. }
  assert (Hf : fs !! (s + pending)%nat = Some f).
  { rewrite <- (Nat.add_0_r (s + pending)), <- lookup_drop, <- Hrest. done. }
  assert (Hrest' : rest = drop (S (s + pending)) fs).
  { rewrite <- Nat.add_1_r, <- drop_drop, <- Hrest. by rewrite skipn_cons, drop_0. }
  pose proof (lookup_lt_Some _ _ _ Hf).
  destruct (fs !! (s + pending - 1)%nat) as [p|] eqn:Ep; [|done]. cbn in Hhi. injection Hhi as Hhi.
  pose proof (clean_at_spec C HC fs Hfs (s + pending) p f ltac:(lia) Ep Hf) as Hcl. rewrite Hhi in Hcl.
  destruct (sst_eqb cur.2 (smallest f)) eqn:E.
  - replace (s + S pending)%nat with (S (s + pending)) in * by lia.
    apply (IH s (S pending) (cur.1, largest f)); cbn [fst snd]; try done; try lia.
    + by rewrite Nat.add_succ_r.
    + intros j Hj. destruct (decide (j = s + pending)%nat) as [->|]; [|apply Hin; lia].
      intros Hcj%Hcl. done.
    + replace (s + S pending - 1)%nat with (s + pending)%nat by lia. by rewrite Hf.
  - destruct (IH (s + pending)%nat 1%nat (smallest f, largest f)) as [IH1 IH2]; cbn [fst snd]; try done; try lia.
    + by rewrite Nat.add_1_r.
    + by apply Hcl.
    + by rewrite Hf.
    + replace (s + pending + 1 - 1)%nat with (s + pending)%nat by lia. by rewrite Hf.
    + rewrite length_app, length_replicate, IH1. split; [lia|]. intros i u Hu.
      apply lookup_app_Some in Hu as [[-> Hi]%lookup_replicate|[Hi Hu]].
      * exists s, (s + pending)%nat. split_and!; [lia|lia|done|by apply Hcl|done|done|].
        by rewrite Ep, <- Hhi.
      * rewrite length_replicate in Hi, Hu. specialize (IH2 _ _ Hu).
        by replace (s + i)%nat with (s + pending + (i - pending))%nat by lia.
Qed.

(** ** Marking files *)

Lemma level_files_map g v l : LevelFiles (map_files g v) l = g <$> LevelFiles v l.
Proof using Type. unfold LevelFiles. cbn. rewrite list_lookup_fmap. by destruct (files_ v !! l). Qed.

Definition keeps_bounds (g : FileMetaData → FileMetaData) : Prop :=
  ∀ f, smallest (g f) = smallest f ∧ largest (g f) = largest f ∧ GetNumber (g f) = GetNumber f.

Lemma indexed_map g v : keeps_bounds g → indexed v → indexed (map_files g v).
Proof using Type.
  intros Hg [H1 H2]. split.
  - intros l Hl. rewrite level_files_map, H1; done.
  - intros l. rewrite level_files_map. unfold LevelFilesBrief in *. cbn. specialize (H2 l).
    rewrite list_lookup_fmap. destruct (level_files_brief_ v !! l) as [bs|]; cbn in *; rewrite ?H2.
    + unfold DoGenerateLevelFilesBrief. rewrite <- !list_fmap_compose. apply list_fmap_ext.
      intros i f _. cbn. by destruct (Hg f) as (-> & -> & _).
    + symmetry in H2. apply fmap_nil_inv in H2. by rewrite H2.
Qed.

Lemma mark_keeps ns b : keeps_bounds (mark_number ns b).
Proof using Type. intros f. unfold mark_number. by case_bool_decide. Qed.

Lemma mark_being_compacted ns b f :
  being_compacted (mark_number ns b f) = if decide (GetNumber f ∈ ns) then b else being_compacted f.
Proof using Type. unfold mark_number. case_bool_decide; case_decide; done. Qed.

Lemma level_sorted_map g fs : keeps_bounds g → level_sorted C fs → level_sorted C (g <$> fs).
Proof using Type.
  intros Hg [H1 H2]. split.
  - rewrite Forall_fmap. eapply Forall_impl; [exact H1|]. intros f. cbn. by destruct (Hg f) as (-> & -> & _).
  - induction H2 as [|f fs _ IH Hf]; [constructor|]. apply Forall_cons in H1 as [_ H1].
    rewrite fmap_cons. constructor; [by apply IH|]. rewrite Forall_fmap. eapply Forall_impl; [exact Hf|].
    intros h. cbn.
    by destruct (Hg f) as (_ & -> & _), (Hg h) as (-> & _ & _).
Qed.
End boundary.

(** ** Theorems *)

(** The answers to a sequence of questions, the positions carried along. *)
Fixpoint ask_keys `{Comparator} (c : Compaction) (v : VersionStorageInfo) (o : CompactOptions)
    (ks : list key) (level_ptrs : list nat) : list bool :=
  match ks with
  | [] => []
  | k :: ks' =>
      let '(level_ptrs', b) := KeyNotExistsBeyondOutputLevel c v o k level_ptrs in
      b :: ask_keys c v o ks' level_ptrs'
  end.

(** No file below the output level may hold the key. *)
Definition not_below (C : Comparator) (c : Compaction) (v : VersionStorageInfo) (k : key) : Prop :=
  ∀ l f, (c_output_level c < l < c_number_levels c)%nat → f ∈ LevelFiles v l → ¬ holds_key C k f.

Lemma ask_keys_spec (C : Comparator) c v o ks ptrs :
  ComparatorOk C → c_bottommost_level c = false → (0 < c_output_level c)%nat →
  compaction_style o = kCompactionStyleLevel →
  (∀ l, (c_output_level c < l)%nat → starts_sorted C (LevelFiles v l)) →
  StronglySorted (cmp_le Compare) ks →
  (∀ k, k ∈ ks → ptrs_ok (λ f, match Compare k (largest_ukey f) with Gt => true | _ => false end) v ptrs) →
  Forall2 (λ k b, b = true ↔ not_below C c v k) ks (ask_keys c v o ks ptrs).
Proof.
  intros HC Hb Ho Hst Hs Hks. revert ptrs. induction Hks as [|k ks _ IH Hk]; intros ptrs Hp; [constructor|].
  cbn [ask_keys]. unfold KeyNotExistsBeyondOutputLevel. rewrite Hb, Hst, bool_decide_true by done.
  destruct (Nat.eqb_spec (c_output_level c) 0); [lia|]. cbn [negb andb].
  destruct (key_below_spec C HC v k (levels_below c) ptrs) as [H1 H2].
  { intros l Hl. apply Hs. apply elem_of_seq in Hl. lia. }
  { apply Hp. by left. }
  destruct (scan_levels _ _ _ _ _) as [ptrs' b]. cbn [fst snd] in *. constructor.
  - rewrite H2. unfold not_below, levels_below. split; intros Hn l f Hl; apply Hn.
    + apply elem_of_seq. lia.
    + apply elem_of_seq in Hl. lia.
  - apply IH. intros k' Hk'. rewrite Forall_forall in Hk. by apply (key_ptrs_mono C HC v k k'), H1; apply Hk.
Qed.

(** [KeyNotExistsBeyondOutputLevel], asked for keys in increasing order,
    answers exactly whether no file below the output level can hold the key,
    although it never looks again at the files it has passed. *)
Theorem key_not_exists_exact (C : Comparator) c v o ks n :
  ComparatorOk C → c_bottommost_level c = false → (0 < c_output_level c)%nat →
  compaction_style o = kCompactionStyleLevel →
  (∀ l, (c_output_level c < l)%nat → starts_sorted C (LevelFiles v l)) →
  StronglySorted (cmp_le Compare) ks →
  Forall2 (λ k b, b = true ↔ not_below C c v k) ks (ask_keys c v o ks (replicate n O)).
Proof.
  intros HC Hb Ho Hst Hs Hks. apply ask_keys_spec; [done..|]. intros k _ l.
  assert (default O (replicate n O !! l) = O) as ->.
  { destruct (replicate n O !! l) eqn:E; [|done]. by apply lookup_replicate in E as [-> _]. }
  split; [lia|constructor].
Qed.

Lemma boundary_keys_units `{Comparator} inputs ex :
  GetBoundaryKeys (PopulateWithAtomicBoundaries inputs) ex = GetBoundaryKeys inputs ex.
Proof.
  unfold GetBoundaryKeys, PopulateWithAtomicBoundaries. f_equal.
  set (u := λ i, match in_level i, in_files i with
    | S _, f :: fs => mkInputs (in_level i) (in_files i) (atomic_loop fs (smallest f, largest f) 1)
    | _, _ => i end).
  assert (Hu : ∀ i, in_level (u i) = in_level i ∧ in_files (u i) = in_files i).
  { intros i. unfold u. destruct (in_level i) eqn:E1, (in_files i) eqn:E2; cbn; by rewrite ?E1, ?E2. }
  induction inputs as [|i inputs IH]; [done|]. rewrite fmap_cons, !filter_cons.
  assert (considered ex (u i) = considered ex i) as ->.
  { unfold considered, in_empty. by destruct (Hu i) as [-> ->]. }
  destruct (decide _); [|exact IH]. rewrite !fmap_cons. cbn [concat]. rewrite IH. f_equal.
  unfold level_bounds. by destruct (Hu i) as [-> ->].
Qed.


(** The atomic units of the input files of a sorted level: every file gets
    the bounds of the largest run of files around it in which neighbours share
    a boundary key. *)
Theorem atomic_units_exact (C : Comparator) inputs i u :
  ComparatorOk C →
  inputs !! i = Some u → (0 < in_level u)%nat → level_sorted C (in_files u) → in_files u ≠ [] →
  ∃ u', PopulateWithAtomicBoundaries inputs !! i = Some u' ∧ in_files u' = in_files u ∧
    length (atomic_units u') = length (in_files u) ∧
    ∀ j b, atomic_units u' !! j = Some b → unit_of C (in_files u) j b.
Proof.
  intros HC Hu Hl Hs Hne. unfold PopulateWithAtomicBoundaries. rewrite list_lookup_fmap, Hu. cbn.
  destruct (in_level u) as [|l] eqn:El; [lia|]. destruct (in_files u) as [|f fs] eqn:Ef; [done|].
  eexists. split; [done|]. cbn [in_files atomic_units]. split; [done|].
  destruct (atomic_loop_spec C HC (f :: fs) fs 0 1 (smallest f, largest f) Hs) as [H1 H2];
    first [done | intros p c; lia | intros j; lia | cbn; lia].
Qed.

(** ** Witnesses *)

#[local] Existing Instance BytewiseComparator.

Definition sample_options : CompactOptions :=
  mkOptions kCompactionStyleLevel kMinOverlappingRatio 7 1 true true (dlit 1 2) 1 false 1
    10000 4 (dbl_of_Z 10) false 0 1 kDisableCompressionOption [] false.

Definition sample_inputs : list CompactionInputFiles :=
  [inputs_of 0 [sample_file 1 x61 x63]; inputs_of 1 [sample_file 4 x61 x63; sample_file 5 x63 x65]].

Definition sample_prepared : VersionStorageInfo :=
  @PrepareForVersionAppend BytewiseComparator simple_choices sample_storage.

Definition sample_compaction : Compaction :=
  (NewCompaction 0 sample_prepared sample_options sample_inputs 1 1000 10000 0 1 []
     kLevelL0FilesNum true).1.

Lemma key_not_exists_exact_witness :
  Forall2 (λ k b, b = true ↔ not_below BytewiseComparator sample_compaction sample_prepared k)
    [[x61]; [x63]; [x65]] [true; false; true].
Proof.
  apply (key_not_exists_exact BytewiseComparator sample_compaction sample_prepared sample_options
    [[x61]; [x63]; [x65]] 3).
  - apply bytewise_ok.
  - vm_compute. reflexivity.
  - vm_compute. lia.
  - reflexivity.
  - intros [|[|[|l]]] Hl; [vm_compute in Hl; lia..| |apply SSorted_nil].
    apply SSorted_cons; [apply SSorted_nil|apply Forall_nil_2].
  - repeat first [apply SSorted_nil | apply Forall_nil_2 | apply SSorted_cons | apply Forall_cons_2];
      vm_compute; discriminate.
Defined.


Lemma atomic_units_exact_witness :
  ∃ u, PopulateWithAtomicBoundaries sample_inputs !! 1%nat = Some u ∧
    length (atomic_units u) = 2%nat.
Proof.
  destruct (atomic_units_exact BytewiseComparator sample_inputs 1
    (inputs_of 1 [sample_file 4 x61 x63; sample_file 5 x63 x65])) as (u & H1 & _ & H2 & _).
  - apply bytewise_ok.
  - reflexivity.
  - cbn. lia.
  - split; repeat first [apply SSorted_nil | apply Forall_nil_2 | apply SSorted_cons | apply Forall_cons_2];
      vm_compute; discriminate.
  - discriminate.
  - exists u. split; [exact H1|exact H2].
Defined.
