(* ===== verification/CompactionPicker.v ===== *)
(** * Choosing the files of a compaction

    Models [src/db/compaction/compaction_picker.cc]: key ranges of input files,
    the expansion of the inputs of a sorted level to a clean cut, conflicts
    with running compactions, the files of the output level and the growth of
    the start level ([SetupOtherInputs]), grandparents, and the registration of
    compactions. *)

From S2P Require Import Prelude Comparator DbFormat FileMeta VersionEdit VersionStorage Compaction.

(** ** Arithmetic of options *)

(** The cast is undefined when the product rounds to 2^64; the model then
    yields 0. *)
Definition MultiplyCheckOverflow (op1 : Z) (op2 : double) : Z :=
  if (op1 =? 0) || dleb op2 (dbl_of_Z 0) then 0
  else if dltb (dbl_of_Z ((2 ^ 64 - 1) / op1)) op2 then op1
  else default 0 (u64_of_double (dmul (dbl_of_Z op1) op2)).

(** ** Ranges *)

Definition bounds_of (f : FileMetaData) : key * key := (smallest f, largest f).

Definition GetRange `{Comparator} (inputs : CompactionInputFiles) : key * key :=
  default ([], []) (foldl (grow InternalKeyCompare) None (level_bounds bounds_of inputs)).

Definition GetRange2 `{Comparator} (inputs1 inputs2 : CompactionInputFiles) : key * key :=
  if in_empty inputs1 then GetRange inputs2
  else if in_empty inputs2 then GetRange inputs1
  else
    let '(smallest1, largest1) := GetRange inputs1 in
    let '(smallest2, largest2) := GetRange inputs2 in
    (match InternalKeyCompare smallest1 smallest2 with Lt => smallest1 | _ => smallest2 end,
     match InternalKeyCompare largest1 largest2 with Lt => largest2 | _ => largest1 end).

(** [None] where the source asserts that some input is taken. *)
Definition GetRangeAll `{Comparator} (inputs : list CompactionInputFiles) (exclude_level : option nat)
    : option (key * key) :=
  foldl (grow InternalKeyCompare) None
    (GetRange <$> filter (λ i, considered exclude_level i = true) inputs).

Definition AreFilesInCompaction (files : list FileMetaData) : bool := existsb being_compacted files.

(** ** Clean cuts *)

Fixpoint clean_cut_loop `{Comparator} (v : VersionStorageInfo) (level fuel : nat)
    (files : list FileMetaData) (hint_index : Z) (next : option key) : list FileMetaData * option key :=
  match fuel with
  | O => (files, next)
  | S fuel' =>
      let '(lo, hi) := GetRange (inputs_of level files) in
      let out := GetOverlappingInputs v level (Some lo) (Some hi) [] hint_index hint_index true next in
      if (length files <? length (ov_inputs out))%nat
      then clean_cut_loop v level fuel' (ov_inputs out) (ov_file_index out) (ov_next_smallest out)
      else (ov_inputs out, ov_next_smallest out)
  end.

(** The inputs, the smallest key after them, and whether none is being
    compacted.  Every round but the last adds a file of the level. *)
Definition ExpandInputsToCleanCut `{Comparator} (v : VersionStorageInfo) (inputs : CompactionInputFiles)
    (next_smallest : option key) : CompactionInputFiles * option key * bool :=
  if (in_level inputs =? 0)%nat then (inputs, next_smallest, true)
  else
    let '(files, next) := clean_cut_loop v (in_level inputs) (S (NumLevelFiles v (in_level inputs)))
                            (in_files inputs) (-1) next_smallest in
    (inputs_of (in_level inputs) files, next, negb (AreFilesInCompaction files)).

(** ** Conflicts with running compactions *)

Definition RangeOverlapWithCompaction `{Comparator} (compactions_in_progress : list Compaction)
    (smallest_user_key largest_user_key : key) (level : nat) : bool :=
  existsb (λ c,
    ((c_output_level c =? level)%nat && user_leb smallest_user_key (c_largest_user_key c) &&
     user_geb largest_user_key (c_smallest_user_key c)) ||
    (SupportsPerKeyPlacement c && OverlapProximalLevelOutputRange c smallest_user_key largest_user_key))
    compactions_in_progress.

Definition FilesRangeOverlapWithCompaction `{Comparator} (compactions_in_progress : list Compaction)
    (o : CompactOptions) (inputs : list CompactionInputFiles) (level : nat)
    (proximal_level : option nat) : bool :=
  if forallb in_empty inputs then false
  else
    let '(lo, hi) := default ([], []) (GetRangeAll inputs None) in
    match proximal_level with
    | Some p =>
        let '(plo, phi) :=
          if bool_decide (compaction_style o = kCompactionStyleUniversal) then (lo, hi)
          else default ([], []) (GetRangeAll inputs (Some level)) in
        RangeOverlapWithCompaction compactions_in_progress (ExtractUserKey plo) (ExtractUserKey phi) p
    | None => false
    end ||
    RangeOverlapWithCompaction compactions_in_progress (ExtractUserKey lo) (ExtractUserKey hi) level.

(** The answer and the new [*level_index]. *)
Definition IsRangeInCompaction `{Comparator} (v : VersionStorageInfo) (lo hi : key) (level : nat)
    (level_index : Z) : bool * Z :=
  let out := GetOverlappingInputs v level (Some lo) (Some hi) [] level_index level_index true None in
  (AreFilesInCompaction (ov_inputs out), ov_file_index out).

(** ** The files of the output level *)

(** Whether growing the start level to [expanded] leaves the number of files of
    the output level as it is; also the new parent index. *)
Definition same_output_files `{Comparator} (v : VersionStorageInfo) (expanded : CompactionInputFiles)
    (output_level_inputs : CompactionInputFiles) (parent_index : Z) : bool * Z :=
  let '(new_start, new_limit) := GetRange expanded in
  let out := GetOverlappingInputs v (in_level output_level_inputs) (Some new_start) (Some new_limit)
               [] parent_index parent_index true None in
  (negb (AreFilesInCompaction (ov_inputs out)) &&
   (let '(i, _, ok) := ExpandInputsToCleanCut v (inputs_of (in_level output_level_inputs) (ov_inputs out)) None in
    ok && (length (in_files i) =? length (in_files output_level_inputs))%nat),
   ov_file_index out).

(** The start level grown where that pulls in no further files of the output
    level; [smallest] is the start of its range before. *)
Definition grow_start_level `{Comparator} (v : VersionStorageInfo) (o : CompactOptions)
    (inputs output_level_inputs : CompactionInputFiles) (smallest_in : key) (parent_index base_index : Z)
    (only_expand_towards_right : bool) : CompactionInputFiles * Z :=
  let output_size := TotalFileSize (in_files output_level_inputs) in
  let limit := MultiplyCheckOverflow (max_compaction_bytes o) (dbl_of_Z 2) in
  let '(all_start, all_limit) := GetRange2 inputs output_level_inputs in
  let expanded_files :=
    ov_inputs (GetOverlappingInputs v (in_level inputs)
                 (Some (if only_expand_towards_right then smallest_in else all_start)) (Some all_limit)
                 [] base_index (-1) true None) in
  let '(expanded, _, try_overlapping_inputs) :=
    ExpandInputsToCleanCut v (inputs_of (in_level inputs) expanded_files) None in
  let '(expand_inputs, parent_index') :=
    if try_overlapping_inputs && (length (in_files inputs) <? length (in_files expanded))%nat &&
       negb (AreFilesInCompaction (in_files expanded)) &&
       (output_size +64 TotalFileSize expanded_files <? limit)
    then same_output_files v expanded output_level_inputs parent_index
    else (false, parent_index) in
  if expand_inputs then (inputs_of (in_level inputs) (in_files expanded), parent_index')
  else
    let clean_files :=
      ov_inputs (GetCleanInputsWithinInterval v (in_level inputs) (Some all_start) (Some all_limit)
                   base_index) in
    if (length (in_files inputs) <? length clean_files)%nat && negb (AreFilesInCompaction clean_files) &&
       (output_size +64 TotalFileSize clean_files <? limit)
    then (inputs_of (in_level inputs) clean_files, parent_index')
    else (inputs, parent_index').

(** The result and the three arguments it updates. *)
Definition SetupOtherInputs `{Comparator} (v : VersionStorageInfo) (o : CompactOptions)
    (inputs output_level_inputs : CompactionInputFiles) (parent_index base_index : Z)
    (only_expand_towards_right : bool) : bool * CompactionInputFiles * CompactionInputFiles * Z :=
  if (in_level inputs =? in_level output_level_inputs)%nat
  then (true, inputs, output_level_inputs, parent_index)
  else
    let '(lo, hi) := GetRange inputs in
    let level := in_level output_level_inputs in
    let out := GetOverlappingInputs v level (Some lo) (Some hi) (in_files output_level_inputs)
                 parent_index parent_index true None in
    let outputs := inputs_of level (ov_inputs out) in
    let parent := ov_file_index out in
    if AreFilesInCompaction (ov_inputs out) then (false, inputs, outputs, parent)
    else
      let '(outputs', ok) :=
        if in_empty outputs then (outputs, true)
        else let '(i, _, ok) := ExpandInputsToCleanCut v outputs None in (i, ok) in
      if negb ok then (false, inputs, outputs', parent)
      else if (in_level inputs =? 0)%nat && negb (use_new_flush o =? 0)
      then (true, inputs, outputs', parent)
      else if in_empty outputs' then (true, inputs, outputs', parent)
      else
        let '(inputs', parent') :=
          grow_start_level v o inputs outputs' lo parent base_index only_expand_towards_right in
        (true, inputs', outputs', parent').

Fixpoint grandparents_loop `{Comparator} (v : VersionStorageInfo) (lo hi : key) (levels : list nat)
    (grandparents : list FileMetaData) : list FileMetaData :=
  match levels with
  | [] => grandparents
  | level :: levels' =>
      match ov_inputs (GetOverlappingInputs v level (Some lo) (Some hi) grandparents (-1) (-1) true None) with
      | [] => grandparents_loop v lo hi levels' []
      | gs => gs
      end
  end.

Definition GetGrandparents `{Comparator} (v : VersionStorageInfo) (o : CompactOptions)
    (inputs output_level_inputs : CompactionInputFiles) : list FileMetaData :=
  let '(lo, hi) := GetRange2 inputs output_level_inputs in
  grandparents_loop v lo hi
    (seq (S (in_level output_level_inputs)) (num_levels_option o - S (in_level output_level_inputs))) [].

(** ** Level 0 *)

Definition GetOverlappingL0Files `{Comparator} (v : VersionStorageInfo)
    (start_level_inputs : CompactionInputFiles) (output_level : nat) (parent_index : Z)
    : bool * CompactionInputFiles * Z :=
  let '(lo, hi) := GetRange start_level_inputs in
  let files := ov_inputs (GetOverlappingInputs v 0 (Some lo) (Some hi) [] (-1) (-1) true None) in
  let inputs := inputs_of (in_level start_level_inputs) files in
  let '(lo', hi') := GetRange inputs in
  let '(busy, parent') := IsRangeInCompaction v lo' hi' output_level parent_index in
  (negb busy, inputs, parent').

(** The loop of [FindIntraL0Compaction] from position [limit]; the counters are
    [size_t]. *)
Fixpoint intra_l0_loop (files : list FileMetaData) (limit compact_bytes per_del_file max_bytes : Z)
    : Z * Z :=
  match files with
  | [] => (limit, per_del_file)
  | f :: files' =>
      let bytes := compact_bytes +64 GetFileSize f in
      let per_file := bytes / limit in
      if being_compacted f || (per_del_file <? per_file) || (max_bytes <? bytes)
      then (limit, per_del_file)
      else intra_l0_loop files' (limit + 1) bytes per_file max_bytes
  end.

Definition FindIntraL0Compaction (level_files : list FileMetaData) (min_files_to_compact
    max_compact_bytes_per_del_file max_bytes : Z) : option CompactionInputFiles :=
  match level_files with
  | [] => None
  | f :: files =>
      if being_compacted f then None
      else
        let '(limit, per_del_file) := intra_l0_loop files 1 (GetFileSize f) (2 ^ 64 - 1) max_bytes in
        if (min_files_to_compact <=? limit) && (per_del_file <? max_compact_bytes_per_del_file)
        then Some (inputs_of 0 (take (Z.to_nat limit) level_files)) else None
  end.

(** ** Registration *)

Record Picker := mkPicker {
  compactions_in_progress_ : list Compaction;
  level0_compactions_in_progress_ : list Compaction;
}.

Definition RegisterCompaction (o : CompactOptions) (c : Compaction) (p : Picker) : Picker :=
  mkPicker (c :: compactions_in_progress_ p)
    (if ((c_start_level c =? 0)%nat && negb (bool_decide (c_compaction_reason c = kExternalSstIngestion))) ||
        bool_decide (compaction_style o = kCompactionStyleUniversal)
     then c :: level0_compactions_in_progress_ p else level0_compactions_in_progress_ p).

Definition UnregisterCompaction (o : CompactOptions) (c : Compaction) (p : Picker) : Picker :=
  mkPicker (filter (λ d, c_id d ≠ c_id c) (compactions_in_progress_ p))
    (if (c_start_level c =? 0)%nat || bool_decide (compaction_style o = kCompactionStyleUniversal)
     then filter (λ d, c_id d ≠ c_id c) (level0_compactions_in_progress_ p)
     else level0_compactions_in_progress_ p).

(** [ReleaseCompactionFiles] of the compaction and of the picker; the reset of
    the position after a failure is with the positions. *)
Definition ReleaseCompactionFiles (o : CompactOptions) (c : Compaction)
    (st : Picker * VersionStorageInfo) : Picker * VersionStorageInfo :=
  (UnregisterCompaction o c st.1, MarkFilesBeingCompacted c false st.2).

(** ** Clean cuts of a sorted level *)

Section clean_cut.
Context (C : Comparator) (HC : ComparatorOk C).
Context (v : VersionStorageInfo) (Hv : indexed v).
Context (level : nat) (Hlevel : (0 < level)%nat) (Hs : level_sorted C (LevelFiles v level)).

Abbreviation fs := (LevelFiles v level).
Abbreviation sst_le := (cmp_le sstableKeyCompare).

Lemma get_range_block s e f g :
  (s < e <= length fs)%nat → fs !! s = Some f → fs !! (e - 1)%nat = Some g →
  GetRange (inputs_of level (block fs s e)) = (smallest f, largest g).
Proof using Hlevel.
  intros Hse Hf Hg. unfold GetRange, level_bounds. cbn [in_level in_files inputs_of].
  destruct (Nat.eqb_spec level 0); [lia|]. destruct (block_ends fs s e Hse) as [-> ->].
  by rewrite Hf, Hg.
Qed.

(** One round from the block [s, e). *)
Lemma clean_round s e hint next :
  (s < e <= length fs)%nat → hint = -1 ∨ hint = Z.of_nat s →
  ∃ s' e', (s' <= s)%nat ∧ (e <= e' <= length fs)%nat ∧
    (let '(lo, hi) := GetRange (inputs_of level (block fs s e)) in
     GetOverlappingInputs v level (Some lo) (Some hi) [] hint hint true next) =
      mkOverlap (block fs s' e') (Z.of_nat s') (smallest <$> fs !! e') ∧
    (s' = s → clean_at C fs s) ∧ (e' = e → clean_at C fs e) ∧
    (∀ s2, (s2 <= s)%nat → clean_at C fs s2 → (s2 <= s')%nat) ∧
    (∀ e2, (e <= e2)%nat → clean_at C fs e2 → (e' <= e2)%nat).
Proof using HC Hv Hlevel Hs.
  intros Hse Hhint.
  destruct (lookup_lt_is_Some_2 fs s) as [f Hf]; [lia|].
  destruct (lookup_lt_is_Some_2 fs (e - 1)) as [g Hg]; [lia|].
  rewrite (get_range_block s e f g Hse Hf Hg).
  pose proof (sorted_bounds C fs Hs s f Hf) as Bf. pose proof (sorted_bounds C fs Hs _ g Hg) as Bg.
  destruct (decide (level < num_non_empty_levels_ v)%nat) as [Hn|Hn].
  2:{ rewrite (ix_empty v Hv level) in Hse by lia. cbn in Hse. lia. }
  destruct (overlapping_block C HC v level (Some (smallest f)) (Some (largest g)) [] hint hint true next)
    as (s' & e' & Hse' & Ho & ->); [done|lia|done| |].
  { destruct Hhint as [->| ->]; [by left|]. right. split; [lia|]. exists f.
    rewrite Nat2Z.id. done. }
  assert (Hin : ∀ i h, fs !! i = Some h → (s <= i < e)%nat → (s' <= i < e')%nat).
  { intros i h Hh Hi. apply (Ho i h Hh). split; cbn.
    - pose proof (sorted_largest C HC fs Hs s i f h Hf Hh ltac:(lia)). order (cmp_le sstableKeyCompare).
    - pose proof (sorted_smallest C HC fs Hs i (e - 1) h g Hh Hg ltac:(lia)). order (cmp_le sstableKeyCompare). }
  pose proof (Hin s f Hf ltac:(lia)). pose proof (Hin (e - 1)%nat g Hg ltac:(lia)).
  destruct (Nat.eqb_spec s' e'); [lia|]. exists s', e'. split_and!; [lia|lia|lia|done|..].
  - intros -> p c Hpos Hp Hc. simplify_eq. intros Hle.
    assert (Hov : overlaps C (Some (smallest f)) (Some (largest g)) p).
    { split; cbn; [done|]. pose proof (sorted_smallest C HC fs Hs _ s p f Hp Hf ltac:(lia)).
      pose proof (sorted_smallest C HC fs Hs s (e - 1) f g Hf Hg ltac:(lia)). order (cmp_le sstableKeyCompare). }
    apply (Ho _ p Hp) in Hov. lia.
  - intros -> p c Hpos Hp Hc. simplify_eq. intros Hle.
    assert (Hov : overlaps C (Some (smallest f)) (Some (largest g)) c).
    { split; cbn; [|done]. pose proof (sorted_largest C HC fs Hs s e f c Hf Hc ltac:(lia)).
      order (cmp_le sstableKeyCompare). }
    apply (Ho _ c Hc) in Hov. lia.
  - intros s2 Hs2 Hcl. destruct (decide (s2 <= s')%nat); [done|].
    destruct (lookup_lt_is_Some_2 fs s2) as [c Hc]; [lia|].
    destruct (lookup_lt_is_Some_2 fs (s2 - 1)) as [p Hp]; [lia|]. exfalso. apply (Hcl p c); [lia|done|done|].
    assert (overlaps C (Some (smallest f)) (Some (largest g)) p) as [Hov _] by (apply (Ho _ p Hp); lia).
    cbn in Hov. pose proof (sorted_smallest C HC fs Hs s2 s c f Hc Hf ltac:(lia)). order (cmp_le sstableKeyCompare).
  - intros e2 He2 Hcl. destruct (decide (e' <= e2)%nat); [done|].
    destruct (lookup_lt_is_Some_2 fs e2) as [c Hc]; [lia|].
    destruct (lookup_lt_is_Some_2 fs (e2 - 1)) as [p Hp]; [lia|]. exfalso. apply (Hcl p c); [lia|done|done|].
    assert (overlaps C (Some (smallest f)) (Some (largest g)) c) as [_ Hov] by (apply (Ho _ c Hc); lia).
    cbn in Hov. pose proof (sorted_largest C HC fs Hs (e - 1) (e2 - 1) g p Hg Hp ltac:(lia)). order (cmp_le sstableKeyCompare).
Qed.

(** The least clean block around [s, e). *)
Definition clean_hull (s e s' e' : nat) : Prop :=
  (s' <= s)%nat ∧ (e <= e' <= length fs)%nat ∧ clean_at C fs s' ∧ clean_at C fs e' ∧
  (∀ s2, (s2 <= s)%nat → clean_at C fs s2 → (s2 <= s')%nat) ∧
  (∀ e2, (e <= e2)%nat → clean_at C fs e2 → (e' <= e2)%nat).

Lemma clean_cut_loop_spec fuel s e hint next :
  (s < e <= length fs)%nat → hint = -1 ∨ hint = Z.of_nat s → (length fs - (e - s) < fuel)%nat →
  ∃ s' e', clean_hull s e s' e' ∧
    clean_cut_loop v level fuel (block fs s e) hint next = (block fs s' e', smallest <$> fs !! e').
Proof using HC Hv Hlevel Hs.
  revert s e hint next. induction fuel as [|fuel IH]; intros s e hint next Hse Hhint Hfuel; [lia|].
  destruct (clean_round s e hint next Hse Hhint) as (s1 & e1 & H1 & H2 & Hout & Hcs & Hce & Hms & Hme).
  cbn [clean_cut_loop]. destruct (GetRange (inputs_of level (block fs s e))) as [lo hi]. rewrite Hout.
  cbn [ov_inputs ov_file_index ov_next_smallest]. rewrite !block_length by lia.
  destruct (Nat.ltb_spec (e - s) (e1 - s1)).
  - destruct (IH s1 e1 (Z.of_nat s1) (smallest <$> fs !! e1)) as (s' & e' & (G1 & G2 & G3 & G4 & G5 & G6) & ->);
      [lia|by right|lia|]. exists s', e'. split; [|done]. split_and!; try lia; try done.
    + intros s2 Hs2 Hcl. apply G5; [|done]. by apply Hms.
    + intros e2 He2 Hcl. apply G6; [|done]. by apply Hme.
  - assert (s1 = s) as -> by lia. assert (e1 = e) as -> by lia. exists s, e. split; [|done].
    split_and!; try lia; auto.
Qed.

Lemma expand_clean_cut s e next :
  (s < e <= length fs)%nat →
  ∃ s' e', clean_hull s e s' e' ∧
    ExpandInputsToCleanCut v (inputs_of level (block fs s e)) next =
      (inputs_of level (block fs s' e'), smallest <$> fs !! e',
       negb (AreFilesInCompaction (block fs s' e'))).
Proof using HC Hv Hlevel Hs.
  intros Hse. unfold ExpandInputsToCleanCut, NumLevelFiles. cbn [in_level in_files inputs_of].
  destruct (Nat.eqb_spec level 0); [lia|].
  destruct (clean_cut_loop_spec (S (length fs)) s e (-1) next) as (s' & e' & Hh & ->);
    [lia|by left|lia|]. by exists s', e'.
Qed.
End clean_cut.

(** ** Completeness of the chosen files *)

Section setup.
Context (C : Comparator) (HC : ComparatorOk C) (Hts : no_timestamps C).
Context (v : VersionStorageInfo).

Abbreviation sst_le := (cmp_le sstableKeyCompare).
Abbreviation ikey_le := (cmp_le InternalKeyCompare).

Definition bounds_ok (f : FileMetaData) : Prop :=
  bound_ok (smallest f) ∧ bound_ok (largest f) ∧ ikey_le (smallest f) (largest f).

(** A version as the pickers find it. *)
Definition storage_ok : Prop :=
  indexed v ∧ levels_ordered C v ∧ Forall bounds_ok (LevelFiles v 0).

Context (Hok : storage_ok).

Lemma storage_bounds level f : f ∈ LevelFiles v level → bounds_ok f.
Proof using Hok.
  destruct Hok as (_ & Hlv & H0). intros Hf. rewrite Forall_forall in H0.
  destruct (decide (level = 0%nat)) as [->|]; [exact (H0 f Hf)|].
  destruct (Hlv level ltac:(lia)) as [Hb _]. rewrite Forall_forall in Hb. exact (Hb f Hf).
Qed.

Lemma storage_sorted level : (0 < level)%nat → level_sorted C (LevelFiles v level).
Proof using HC Hts Hok. intros Hl. destruct Hok as (_ & Hlv & _). by apply ordered_sorted, Hlv. Qed.

Lemma file_bounds_sst level f : f ∈ LevelFiles v level → sst_le (smallest f) (largest f).
Proof using HC Hts Hok. intros Hf. destruct (storage_bounds level f Hf) as (? & ? & ?). by apply internal_sst. Qed.

(** Files chosen from one level: any of level 0, a clean block of another. *)
Definition chosen (level : nat) (files : list FileMetaData) : Prop :=
  files ≠ [] ∧
  if decide (level = 0%nat) then files ⊆ LevelFiles v 0
  else ∃ s e, (s < e <= length (LevelFiles v level))%nat ∧ files = block (LevelFiles v level) s e ∧
         clean_at C (LevelFiles v level) s ∧ clean_at C (LevelFiles v level) e.

Lemma chosen_subset level files : chosen level files → files ⊆ LevelFiles v level.
Proof using Type.
  intros [_ H]. case_decide; [by subst|]. destruct H as (s & e & _ & -> & _). intros f.
  rewrite block_elem. intros (i & _ & Hi). by apply list_elem_of_lookup_2 in Hi.
Qed.

(** The range of chosen files is attained and covers them. *)
Definition range_of (files : list FileMetaData) (r : key * key) : Prop :=
  (∃ f, f ∈ files ∧ smallest f = r.1) ∧ (∃ f, f ∈ files ∧ largest f = r.2) ∧
  ∀ f, f ∈ files → sst_le r.1 (smallest f) ∧ sst_le (largest f) r.2.

Lemma block_range level s e :
  (0 < level)%nat → (s < e <= length (LevelFiles v level))%nat →
  range_of (block (LevelFiles v level) s e) (GetRange (inputs_of level (block (LevelFiles v level) s e))).
Proof using HC Hts Hok.
  intros Hl Hse. pose proof (storage_sorted level Hl) as Hs.
  destruct (lookup_lt_is_Some_2 (LevelFiles v level) s) as [f Hf]; [lia|].
  destruct (lookup_lt_is_Some_2 (LevelFiles v level) (e - 1)) as [g Hg]; [lia|].
  rewrite (get_range_block C v level Hl s e f g Hse Hf Hg). split_and!.
  - exists f. split; [|done]. apply block_elem. exists s. split; [lia|done].
  - exists g. split; [|done]. apply block_elem. exists (e - 1)%nat. split; [lia|done].
  - intros h (i & Hi & Hh)%block_elem. split; cbn.
    + exact (sorted_smallest C HC _ Hs s i f h Hf Hh ltac:(lia)).
    + exact (sorted_largest C HC _ Hs i (e - 1) h g Hh Hg ltac:(lia)).
Qed.

Lemma level0_range_of files :
  files ≠ [] → files ⊆ LevelFiles v 0 → range_of files (GetRange (inputs_of 0 files)).
Proof using HC Hts Hok.
  intros Hne Hsub. unfold GetRange, level_bounds. cbn [in_level in_files inputs_of Nat.eqb].
  pose proof (grow_all InternalKeyCompare (bounds_of <$> files)) as Hh.
  destruct (foldl _ _ _) as [b|]; [|by apply fmap_nil_inv in Hh].
  destruct Hh as ((x & (f & -> & Hf)%list_elem_of_fmap & Ex) &
    (y & (g & -> & Hg)%list_elem_of_fmap & Ey) & Hall). cbn in *.
  split_and!; [by exists f|by exists g|]. intros h Hh.
  destruct (Hall (bounds_of h)) as [H1 H2]; [apply list_elem_of_fmap; eauto|]. cbn in H1, H2.
  destruct (storage_bounds 0 h) as (B1 & B2 & _); [by apply Hsub|].
  destruct (storage_bounds 0 f) as (B3 & _ & _); [by apply Hsub|].
  destruct (storage_bounds 0 g) as (_ & B4 & _); [by apply Hsub|].
  rewrite <- Ex in *. rewrite <- Ey in *. split; by apply internal_sst.
Qed.

Lemma chosen_range level files : chosen level files → range_of files (GetRange (inputs_of level files)).
Proof using HC Hts Hok.
  intros [Hne H]. case_decide as Hl.
  - subst level. by apply level0_range_of.
  - destruct H as (s & e & Hse & -> & _). apply block_range; [lia|done].
Qed.

(** ** The output level *)

Section output.
Context (level : nat) (Hl : (0 < level)%nat).
Abbreviation gs := (LevelFiles v level).

Definition touches (r : key * key) (f : FileMetaData) : Prop := overlaps C (Some r.1) (Some r.2) f.

(** [s, e) is the least clean block around the files that meet the range. *)
Definition output_block (r : key * key) (s e : nat) : Prop :=
  ∃ a b, (a < b <= length gs)%nat ∧
    (∀ i f, gs !! i = Some f → touches r f ↔ (a <= i < b)%nat) ∧ clean_hull C v level a b s e.

Lemma output_block_touched r s e i f :
  output_block r s e → gs !! i = Some f → touches r f → (s <= i < e)%nat.
Proof using Hl.
  intros (a & b & _ & Ho & (? & ? & _)) Hf Ht. apply (Ho i f Hf) in Ht. lia.
Qed.

(** A file that touches the range widened to that of the block is in it. *)
Lemma output_block_widened r s e lo hi f g i h :
  output_block r s e → gs !! s = Some f → gs !! (e - 1)%nat = Some g →
  lo = r.1 ∨ lo = smallest f → hi = r.2 ∨ hi = largest g →
  gs !! i = Some h → touches (lo, hi) h → (s <= i < e)%nat.
Proof using HC Hts Hok Hl.
  intros (a & b & Hab & Ho & (Hsa & Hbe & Hcs & Hce & _)) Hf Hg Hlo Hhi Hh [Ht1 Ht2]. cbn in Ht1, Ht2.
  pose proof (storage_sorted level Hl) as Hs.
  destruct (lookup_lt_is_Some_2 gs a) as [fa Hfa]; [lia|].
  destruct (lookup_lt_is_Some_2 gs (b - 1)) as [fb Hfb]; [lia|].
  destruct (proj2 (Ho a fa Hfa)) as [Ha1 Ha2]; [lia|]. destruct (proj2 (Ho _ fb Hfb)) as [Hb1 Hb2]; [lia|].
  cbn in Ha1, Ha2, Hb1, Hb2. destruct (decide (i < s)%nat).
  - exfalso. pose proof (sorted_smallest C HC gs Hs i a h fa Hh Hfa ltac:(lia)).
    destruct Hlo as [->| ->].
    + assert (touches r h) as Ht%(Ho i h Hh); [|lia]. split; cbn; [done|]. order (cmp_le sstableKeyCompare).
    + destruct (lookup_lt_is_Some_2 gs (s - 1)) as [p Hp]; [lia|].
      pose proof (Hcs p f ltac:(lia) Hp Hf) as Hnot.
      pose proof (sorted_largest C HC gs Hs i (s - 1) h p Hh Hp ltac:(lia)). order (cmp_le sstableKeyCompare).
  - split; [lia|]. destruct (decide (i < e)%nat); [done|]. exfalso.
    pose proof (sorted_largest C HC gs Hs (b - 1) i fb h Hfb Hh ltac:(lia)).
    destruct Hhi as [->| ->].
    + assert (touches r h) as Ht%(Ho i h Hh); [|lia]. split; cbn; [|done]. order (cmp_le sstableKeyCompare).
    + pose proof (lookup_lt_Some _ _ _ Hh). destruct (lookup_lt_is_Some_2 gs e) as [c Hc]; [lia|].
      pose proof (Hce g c ltac:(lia) Hg Hc) as Hnot.
      pose proof (sorted_smallest C HC gs Hs e i c h Hc Hh ltac:(lia)). order (cmp_le sstableKeyCompare).
Qed.

(** The search for the files that touch a range, then the clean cut. *)
Lemma output_search r hint fi0 :
  hint_ok C gs (Some r.1) hint →
  let out := GetOverlappingInputs v level (Some r.1) (Some r.2) [] hint fi0 true None in
  (ov_inputs out = [] ∧ ∀ f, f ∈ gs → ¬ touches r f) ∨
  ∃ s e, output_block r s e ∧ ov_inputs out ≠ [] ∧
    (∃ i f, ov_file_index out = Z.of_nat i ∧ gs !! i = Some f ∧ touches r f) ∧
    ExpandInputsToCleanCut v (inputs_of level (ov_inputs out)) None =
      (inputs_of level (block gs s e), smallest <$> gs !! e, negb (AreFilesInCompaction (block gs s e))).
Proof using HC Hts Hok Hl.
  intros Hh. pose proof (storage_sorted level Hl) as Hs. destruct Hok as (Hv & _ & _).
  destruct (decide (level < num_non_empty_levels_ v)%nat) as [Hn|Hn].
  2:{ left. split; [|rewrite (ix_empty v Hv level) by lia; intros f Hf%not_elem_of_nil; done].
      unfold GetOverlappingInputs. destruct (Nat.leb_spec (num_non_empty_levels_ v) level); [done|lia]. }
  destruct (overlapping_block C HC v level (Some r.1) (Some r.2) [] hint fi0 true None)
    as (a & b & Hab & Ho & ->); [done|lia|done|done|].
  destruct (Nat.eqb_spec a b) as [->|Hne].
  - left. split; [done|]. intros f (i & Hf)%list_elem_of_lookup_1 Ht. apply (Ho i f Hf) in Ht. lia.
  - right. destruct (expand_clean_cut C HC v Hv level Hl Hs a b None ltac:(lia)) as (s & e & Hhull & He).
    exists s, e. cbn [ov_inputs ov_file_index]. split_and!; [|..|done].
    + exists a, b. split_and!; [lia|lia|done|done].
    + intros Hnil%(f_equal length). rewrite block_length in Hnil by lia. cbn in Hnil. lia.
    + destruct (lookup_lt_is_Some_2 gs a) as [f Hf]; [lia|]. exists a, f. split_and!; [done|done|].
      apply (Ho a f Hf). lia.
Qed.
End output.

(** ** Growing the start level *)

Lemma range2_parts i1 i2 :
  in_empty i1 = false → in_empty i2 = false →
  let r := GetRange2 i1 i2 in let r1 := GetRange i1 in let r2 := GetRange i2 in
  (r.1 = r1.1 ∨ r.1 = r2.1) ∧ (r.2 = r1.2 ∨ r.2 = r2.2) ∧
  ikey_le r.1 r1.1 ∧ ikey_le r1.2 r.2.
Proof using HC.
  intros H1 H2. unfold GetRange2. rewrite H1, H2.
  destruct (GetRange i1) as [s1 l1], (GetRange i2) as [s2 l2]. cbn.
  cmp_case (@InternalKeyCompare C) s1 s2; cmp_case (@InternalKeyCompare C) l1 l2; split_and!;
    first [by left | by right | order (cmp_le InternalKeyCompare)].
Qed.

(** The bounds of ranges are bounds of files. *)
Lemma range_bound_ok level files r :
  files ⊆ LevelFiles v level → range_of files r → bound_ok r.1 ∧ bound_ok r.2.
Proof using Hok.
  intros Hsub ((f & Hf & <-) & (g & Hg & <-) & _).
  destruct (storage_bounds level f (Hsub f Hf)) as (? & _ & _).
  destruct (storage_bounds level g (Hsub g Hg)) as (_ & ? & _). done.
Qed.

Lemma in_empty_false level files : files ≠ [] → in_empty (inputs_of level files) = false.
Proof using Type. by destruct files. Qed.

Lemma not_compacting files : AreFilesInCompaction files = false ↔ ∀ f, f ∈ files → being_compacted f = false.
Proof using Type.
  unfold AreFilesInCompaction. rewrite <- not_true_iff_false, existsb_exists. split.
  - intros Hn f Hf. destruct (being_compacted f) eqn:E; [|done]. destruct Hn. exists f.
    by rewrite <- list_elem_of_In.
  - intros Hn (f & Hf & E). rewrite <- list_elem_of_In in Hf. rewrite Hn in E; done.
Qed.

(** Files of the start level whose range covers that of [files] and that
    include them. *)
Definition extends (level : nat) (files files' : list FileMetaData) : Prop :=
  chosen level files' ∧ files ⊆ files'.

Lemma extends_range level files files' :
  chosen level files → extends level files files' →
  let r := GetRange (inputs_of level files) in let r' := GetRange (inputs_of level files') in
  sst_le r'.1 r.1 ∧ sst_le r.2 r'.2.
Proof using HC Hts Hok.
  intros Hc [Hc' Hsub]. cbn zeta.
  destruct (chosen_range level files Hc) as ((f & Hf & <-) & (g & Hg & <-) & _).
  destruct (chosen_range level files' Hc') as (_ & _ & Hall).
  split; apply Hall; by apply Hsub.
Qed.

(** The files of the start level that meet a range around [files], clean. *)
Lemma grow_overlapping level files lo hi base :
  chosen level files →
  let r := GetRange (inputs_of level files) in
  sst_le lo r.1 → sst_le r.2 hi →
  (∀ l, level = l → (0 < l)%nat → hint_ok C (LevelFiles v l) (Some lo) base) →
  let out := GetOverlappingInputs v level (Some lo) (Some hi) [] base (-1) true None in
  let '(i, _, _) := ExpandInputsToCleanCut v (inputs_of level (ov_inputs out)) None in
  extends level files (in_files i).
Proof using HC Hts Hok.
  intros Hc r Hlo Hhi Hhint. pose proof (chosen_range level files Hc) as (_ & _ & Hr).
  pose proof (chosen_subset level files Hc) as Hsub.
  assert (Hov : ∀ f, f ∈ files → overlaps C (Some lo) (Some hi) f).
  { intros f Hf. destruct (Hr f Hf). pose proof (file_bounds_sst level f (Hsub f Hf)).
    split; cbn; order (cmp_le sstableKeyCompare). }
  destruct (decide (level = 0%nat)) as [->|Hl].
  - destruct Hok as (Hv & _ & _). cbn [ExpandInputsToCleanCut in_level inputs_of Nat.eqb in_files].
    unfold ExpandInputsToCleanCut. cbn [in_level inputs_of Nat.eqb in_files].
    assert (Hne : files ≠ []) by apply Hc.
    destruct (decide (0 < num_non_empty_levels_ v)%nat) as [Hn|Hn].
    2:{ destruct files as [|f fs']; [done|]. assert (Hf : f ∈ LevelFiles v 0) by (apply Hsub; left).
        rewrite (ix_empty v Hv 0) in Hf by lia. by apply not_elem_of_nil in Hf. }
    destruct (overlapping_level0 C HC v (Some lo) (Some hi) [] base (-1) true None Hv Hn)
      as (u & (Hu1 & _ & _) & Hp).
    assert (Hsub' : files ⊆ ov_inputs (GetOverlappingInputs v 0 (Some lo) (Some hi) [] base (-1) true None)).
    { intros f Hf. rewrite Hp. apply list_elem_of_filter. split; [|by apply Hsub].
      apply (meets_mono C HC _ _ _ Hu1). destruct (Hov f Hf) as [O1 O2]. split; cbn; by apply sst_le_user. }
    split; [|done]. split.
    + intros E. rewrite E in Hsub'. destruct files as [|f fs']; [done|].
      assert (Hf : f ∈ ([] : list FileMetaData)) by (apply Hsub'; left). by apply not_elem_of_nil in Hf.
    + rewrite decide_True by done. intros f. rewrite Hp. by intros [_ ?]%list_elem_of_filter.
  - pose proof (storage_sorted level ltac:(lia)) as Hs. destruct Hc as [Hne Hb]. rewrite decide_False in Hb by done.
    destruct Hb as (s & e & Hse & -> & _ & _).
    destruct Hok as (Hv & _ & _). destruct (decide (level < num_non_empty_levels_ v)%nat) as [Hn|Hn].
    2:{ rewrite (ix_empty v Hv level) in Hse by lia. cbn in Hse. lia. }
    destruct (overlapping_block C HC v level (Some lo) (Some hi) [] base (-1) true None)
      as (a & b & Hab & Ho & ->); [done|lia|done|by apply Hhint; lia|].
    assert (Hin : ∀ i, (s <= i < e)%nat → (a <= i < b)%nat).
    { intros i Hi. destruct (lookup_lt_is_Some_2 (LevelFiles v level) i) as [f Hf]; [lia|]. apply (Ho i f Hf), Hov.
      apply block_elem. eauto. }
    pose proof (Hin s ltac:(lia)). pose proof (Hin (e - 1)%nat ltac:(lia)).
    destruct (Nat.eqb_spec a b); [lia|]. cbn [ov_inputs].
    destruct (expand_clean_cut C HC v Hv level ltac:(lia) Hs a b None ltac:(lia)) as (s' & e' & Hh & ->).
    destruct Hh as (Hs1 & He1 & Hcs & Hce & _). cbn [in_files inputs_of]. split.
    + split; [intros E%(f_equal length); rewrite block_length in E by lia; cbn in E; lia|].
      rewrite decide_False by done. exists s', e'. split_and!; [lia|lia|done|done|done].
    + intros f (i & Hi & Hf)%block_elem. apply block_elem. exists i. split; [lia|done].
Qed.

Section grow.
Context (start : nat) (files : list FileMetaData) (Hc : chosen start files).
Context (level : nat) (Hl : (0 < level)%nat) (s e : nat).
Abbreviation gs := (LevelFiles v level).
Abbreviation inputs := (inputs_of start files).
Abbreviation outputs := (inputs_of level (block gs s e)).
Abbreviation r := (GetRange inputs).
Context (Hblock : output_block level r s e).

(** Every file of the output level that touches the range of [files'] is in
    the block. *)
Definition complete_for (files' : list FileMetaData) : Prop :=
  ∀ i f, gs !! i = Some f → touches (GetRange (inputs_of start files')) f → (s <= i < e)%nat.

Context (parent : Z).
Context (Hparent : ∃ i f, parent = Z.of_nat i ∧ gs !! i = Some f ∧ touches r f).

Lemma block_size : (s < e <= length gs)%nat.
Proof using Hblock Hl. destruct Hblock as (a & b & ? & _ & ? & ? & _). lia. Qed.

Lemma touches_extended files' f : extends start files files' → touches r f → touches (GetRange (inputs_of start files')) f.
Proof using HC Hts Hok Hc.
  intros He [H1 H2]. destruct (extends_range start files files' Hc He) as [H3 H4].
  split; cbn in *; order (cmp_le sstableKeyCompare).
Qed.

Lemma same_output_complete files' p' :
  extends start files files' →
  same_output_files v (inputs_of start files') outputs parent = (true, p') → complete_for files'.
Proof using HC Hts Hok Hc Hl Hblock Hparent.
  intros He. unfold same_output_files. cbn [in_level in_files inputs_of].
  destruct (GetRange (inputs_of start files')) as [lo hi] eqn:Er.
  pose proof (λ f, touches_extended files' f He) as Htou. rewrite Er in Htou.
  assert (Hhint : hint_ok C gs (Some (lo, hi).1) parent).
  { destruct Hparent as (i & f & -> & Hf & Ht). right. split; [lia|]. exists f. rewrite Nat2Z.id.
    split; [done|]. apply (Htou f Ht). }
  destruct (output_search level Hl (lo, hi) parent parent Hhint) as [[E Hnone]|(s3 & e3 & Hb3 & _ & _ & Hex)].
  { destruct Hparent as (i & f & _ & Hf & Ht). destruct (Hnone f); [by apply list_elem_of_lookup_2 in Hf|by apply Htou]. }
  cbn [fst snd] in Hex. rewrite Hex. cbn [in_files inputs_of].
  intros Heq. injection Heq as Heq _. rewrite !andb_true_iff, Nat.eqb_eq in Heq. destruct Heq as (_ & _ & Hlen).
  destruct Hb3 as (a3 & b3 & Hab3 & Ho3 & Hs3 & He3 & Hcs3 & Hce3 & _).
  destruct Hblock as (a & b & Hab & Ho & Hs & Hee & Hcs & Hce & Hms & Hme).
  rewrite !block_length in Hlen by lia.
  assert (Hsub : ∀ i, (a <= i < b)%nat → (a3 <= i < b3)%nat).
  { intros i Hi. destruct (lookup_lt_is_Some_2 gs i) as [f Hf]; [lia|]. apply (Ho3 i f Hf), Htou.
    apply (Ho i f Hf). lia. }
  pose proof (Hsub a ltac:(lia)). pose proof (Hsub (b - 1)%nat ltac:(lia)).
  pose proof (Hms s3 ltac:(lia) Hcs3). pose proof (Hme e3 ltac:(lia) Hce3).
  unfold complete_for. rewrite Er. intros i f Hf Ht%(Ho3 i f Hf). lia.
Qed.

(** The range of the inputs and outputs together. *)
Lemma whole_range :
  let w := GetRange2 inputs outputs in
  sst_le w.1 r.1 ∧ sst_le r.2 w.2 ∧
  ∀ i h, gs !! i = Some h → touches w h → (s <= i < e)%nat.
Proof using HC Hts Hok Hc Hl Hblock.
  pose proof block_size as Hse. cbn zeta.
  destruct (lookup_lt_is_Some_2 gs s) as [f Hf]; [lia|].
  destruct (lookup_lt_is_Some_2 gs (e - 1)) as [g Hg]; [lia|].
  assert (Hne : block gs s e ≠ []) by (intros E%(f_equal length); rewrite block_length in E by lia; cbn in E; lia).
  assert (Hsub : block gs s e ⊆ gs).
  { intros h (i & _ & Hi)%block_elem. by apply list_elem_of_lookup_2 in Hi. }
  pose proof (get_range_block C v level Hl s e f g Hse Hf Hg) as Hr2.
  destruct (range2_parts inputs outputs) as (Hw1 & Hw2 & Hw3 & Hw4); [by apply in_empty_false, Hc|by apply in_empty_false|].
  rewrite Hr2 in Hw1, Hw2. cbn [fst snd] in Hw1, Hw2.
  destruct (range_bound_ok start files r (chosen_subset _ _ Hc) (chosen_range _ _ Hc)) as [B1 B2].
  destruct (storage_bounds level f ltac:(by apply list_elem_of_lookup_2 in Hf)) as (B3 & _ & _).
  destruct (storage_bounds level g ltac:(by apply list_elem_of_lookup_2 in Hg)) as (_ & B4 & _).
  set (w := GetRange2 inputs outputs) in *.
  assert (Bw : bound_ok w.1 ∧ bound_ok w.2).
  { destruct Hw1 as [->| ->], Hw2 as [->| ->]; split; assumption. }
  destruct Bw as [Bw1 Bw2].
  split_and!; [by apply internal_sst|by apply internal_sst|].
  intros i h Hh Ht. destruct w as [lo hi]. cbn in *.
  exact (output_block_widened level Hl r s e lo hi f g i h Hblock Hf Hg Hw1 Hw2 Hh Ht).
Qed.

(** The index of the file the selection began with. *)
Definition base_ok (base : Z) : Prop :=
  base = -1 ∨ 0 <= base ∧ ∃ f, LevelFiles v start !! Z.to_nat base = Some f ∧ f ∈ files.

Lemma base_hint base lo :
  base_ok base → sst_le lo r.1 →
  hint_ok C (LevelFiles v start) (Some lo) base ∧ within_hint C (LevelFiles v start) (Some lo) base.
Proof using HC Hts Hok Hc.
  intros [->|(H0 & f & Hf & Hin)] Hlo; [by split; left|].
  destruct (chosen_range start files Hc) as (_ & _ & Hall). destruct (Hall f Hin) as [H1 _].
  pose proof (file_bounds_sst start f (chosen_subset _ _ Hc f Hin)).
  split; right; (split; [done|]); exists f; (split; [done|]); order (cmp_le sstableKeyCompare).
Qed.

(** The clean block inside the whole range. *)
Lemma clean_within base lo hi clean :
  base_ok base → sst_le lo r.1 → sst_le r.2 hi →
  (∀ i h, gs !! i = Some h → touches (lo, hi) h → (s <= i < e)%nat) →
  clean = ov_inputs (GetCleanInputsWithinInterval v start (Some lo) (Some hi) base) →
  (length files < length clean)%nat → extends start files clean ∧ complete_for clean.
Proof using HC Hts Hok Hc Hl Hblock Hparent.
  intros Hbase Hlo Hhi Hw Hclean Hlen.
  destruct (decide (start = 0%nat)) as [->|Hst].
  { subst clean. unfold GetCleanInputsWithinInterval in Hlen. rewrite orb_true_r in Hlen. cbn in Hlen. lia. }
  pose proof (storage_sorted start ltac:(lia)) as Hs. pose proof (proj1 Hok) as Hv.
  destruct (base_hint base lo Hbase Hlo) as [_ Hwh].
  destruct (clean_inputs_block C HC v start (Some lo) (Some hi) base Hv ltac:(lia) Hs Hwh)
    as (s1 & e1 & Hse1 & E & Hcl & Hmax).
  rewrite E in Hclean. subst clean. rewrite block_length in Hlen by lia.
  destruct (Hcl ltac:(lia)) as (Hcs & Hce & Hin). rewrite Forall_forall in Hin.
  assert (Hchosen : chosen start (block (LevelFiles v start) s1 e1)).
  { split; [intros E2%(f_equal length); rewrite block_length in E2 by lia; cbn in E2; lia|].
    rewrite decide_False by done. exists s1, e1. split_and!; [lia|lia|done|done|done]. }
  split.
  - split; [done|]. pose proof (chosen_range start files Hc) as (_ & _ & Hall).
    destruct Hc as [Hne Hb]. rewrite decide_False in Hb by done. destruct Hb as (s0 & e0 & Hse0 & Ef & Hc0 & Hc1).
    destruct (Hmax s0 e0 ltac:(lia)) as [M1 M2].
    { split_and!; [done|done|]. apply Forall_forall. intros f Hf. rewrite <- Ef in Hf. destruct (Hall f Hf).
      split; cbn; order (cmp_le sstableKeyCompare). }
    intros f. rewrite Ef, !block_elem. intros (i & Hi & Hf). exists i. split; [lia|done].
  - destruct (chosen_range start _ Hchosen) as ((f & Hf & E1) & (g & Hg & E2) & _).
    intros i h Hh [T1 T2]. apply (Hw i h Hh). destruct (Hin f Hf) as [N1 _], (Hin g Hg) as [_ N2].
    rewrite <- E1 in T1. rewrite <- E2 in T2. split; cbn in *; order (cmp_le sstableKeyCompare).
Qed.

Lemma grow_start_level_spec o base right :
  base_ok base → complete_for files →
  let i' := (grow_start_level v o inputs outputs r.1 parent base right).1 in
  in_level i' = start ∧ extends start files (in_files i') ∧ complete_for (in_files i') ∧
  (AreFilesInCompaction files = false → AreFilesInCompaction (in_files i') = false).
Proof using HC Hts Hok Hc Hl Hblock Hparent.
  intros Hbase Hcomp. pose proof whole_range as (Hw1 & Hw2 & Hw3). unfold grow_start_level.
  destruct (GetRange2 inputs outputs) as [all_start all_limit]. cbn [fst snd] in Hw1, Hw2.
  cbn [in_level in_files inputs_of]. set (lo := if right then r.1 else all_start).
  assert (Hlo : sst_le lo r.1) by (unfold lo; destruct right; [order (cmp_le sstableKeyCompare)|done]).
  destruct (base_hint base lo Hbase Hlo) as [Hh _].
  pose proof (grow_overlapping start files lo all_limit base Hc Hlo Hw2) as Hgrow. cbn zeta in Hgrow.
  set (ov := ov_inputs _) in *.
  destruct (ExpandInputsToCleanCut v (inputs_of start ov) None) as [[expanded nx] try_ov] eqn:Eex.
  assert (Hext : extends start files (in_files expanded)) by (apply Hgrow; intros l <- _; exact Hh).
  assert (Hlev : expanded = inputs_of start (in_files expanded)).
  { unfold ExpandInputsToCleanCut in Eex. cbn [in_level inputs_of in_files] in Eex.
    destruct (start =? 0)%nat; [by injection Eex as <- _ _|].
    destruct (clean_cut_loop _ _ _ _ _ _). by injection Eex as <- _ _. }
  assert (Hself : extends start files files) by (by split).
  set (cond := _ && _ && _ && _). destruct (if cond then _ else _) as [ei p'] eqn:Eei.
  destruct ei.
  - destruct cond eqn:Econd; [|done]. unfold cond in Econd. rewrite !andb_true_iff, !negb_true_iff in Econd.
    destruct Econd as (((_ & _) & Hbusy) & _). cbn [fst in_level in_files inputs_of].
    rewrite Hlev in Eei. split_and!; [done|done|by apply (same_output_complete _ p')|done].
  - set (clean := ov_inputs _).
    destruct ((length files <? length clean)%nat && _ && _) eqn:Ec;
      cbn [fst in_level in_files inputs_of]; [|by split_and!].
    rewrite !andb_true_iff, Nat.ltb_lt, negb_true_iff in Ec. destruct Ec as ((Hlen & Hbusy) & _).
    destruct (clean_within base all_start all_limit clean Hbase Hw1 Hw2 Hw3 eq_refl Hlen) as [G1 G2]. by split_and!.
Qed.
End grow.

(** What a successful call leaves: start files that include the given ones, and
    all files of the output level that touch their range, cut cleanly and free. *)
Record setup_done (start level : nat) (files : list FileMetaData) (i o : CompactionInputFiles) : Prop := {
  sd_start : in_level i = start;
  sd_extends : extends start files (in_files i);
  sd_level : in_level o = level;
  sd_clean : in_files o = [] ∨ chosen level (in_files o);
  sd_complete : ∀ f, f ∈ LevelFiles v level →
    touches (GetRange (inputs_of start (in_files i))) f → f ∈ in_files o;
  sd_free : AreFilesInCompaction (in_files o) = false;
  sd_start_free : AreFilesInCompaction files = false → AreFilesInCompaction (in_files i) = false;
}.

Lemma setup_other_inputs_spec op start files level parent base right i o p :
  chosen start files → (0 < level)%nat → start ≠ level →
  hint_ok C (LevelFiles v level) (Some (GetRange (inputs_of start files)).1) parent →
  base_ok start files base →
  SetupOtherInputs v op (inputs_of start files) (inputs_of level []) parent base right = (true, i, o, p) →
  setup_done start level files i o.
Proof using HC Hts Hok.
  intros Hc Hl Hne Hh Hb. unfold SetupOtherInputs. cbn [in_level in_files inputs_of].
  destruct (Nat.eqb_spec start level); [done|].
  pose proof (output_search level Hl (GetRange (inputs_of start files)) parent parent Hh) as Hsearch.
  destruct (GetRange (inputs_of start files)) as [lo hi] eqn:Er. cbn [fst snd] in Hsearch.
  set (out := GetOverlappingInputs _ _ _ _ _ _ _ _ _) in *. cbn zeta in Hsearch.
  assert (Hself : extends start files files) by (by split).
  destruct Hsearch as [[Hnil Hnone]|(s & e & Hblock & Hnon & Hpar & Hex)].
  - rewrite Hnil. cbn. intros Heq.
    assert (i = inputs_of start files ∧ o = inputs_of level []) as [-> ->].
    { by destruct ((start =? 0)%nat && negb (use_new_flush op =? 0)); injection Heq. }
    split; cbn [in_level in_files inputs_of]; try done; [by left|].
    intros f Hf Ht. rewrite Er in Ht. by destruct (Hnone f Hf).
  - destruct (AreFilesInCompaction (ov_inputs out)); [done|].
    rewrite in_empty_false, Hex by done.
    destruct (AreFilesInCompaction (block (LevelFiles v level) s e)) eqn:Efree; cbn [negb]; [done|].
    rewrite <- Er in Hblock, Hpar.
    assert (Hcomp : complete_for start level s e files).
    { intros j f Hf Ht. by apply (output_block_touched level Hl (GetRange (inputs_of start files)) s e j f). }
    assert (Hout : ∀ files', complete_for start level s e files' → ∀ f, f ∈ LevelFiles v level →
      touches (GetRange (inputs_of start files')) f → f ∈ block (LevelFiles v level) s e).
    { intros files' Hcf f (j & Hf)%list_elem_of_lookup_1 Ht. apply block_elem. exists j. by split; [apply (Hcf j f)|]. }
    pose proof (block_size start files level Hl s e Hblock) as Hse.
    assert (Hchosen : chosen level (block (LevelFiles v level) s e)).
    { split; [intros E%(f_equal length); rewrite block_length in E by lia; cbn in E; lia|].
      rewrite decide_False by lia. destruct Hblock as (a & b & _ & _ & _ & _ & Hcs & Hce & _).
      exists s, e. split_and!; [lia|lia|done|done|done]. }
    destruct ((start =? 0)%nat && negb (use_new_flush op =? 0)).
    { intros Heq. injection Heq as <- <- _. split; cbn [in_level in_files inputs_of]; try done; [by right|by apply Hout]. }
    rewrite in_empty_false by apply Hchosen.
    destruct (grow_start_level_spec start files Hc level Hl s e Hblock (ov_file_index out) Hpar op base right Hb Hcomp)
      as (G1 & G2 & G3 & G4). rewrite Er in G1, G2, G3, G4. cbn [fst] in G1, G2, G3, G4.
    destruct (grow_start_level _ _ _ _ _ _ _ _) as [i' p']. cbn [fst] in *.
    intros Heq. injection Heq as <- <- _. split; cbn [in_level in_files inputs_of]; try done; [by right|by apply Hout].
Qed.
End setup.

(** ** Disjoint outputs *)

Section conflict.
Context (C : Comparator) (HC : ComparatorOk C).

Abbreviation ikey_le := (cmp_le InternalKeyCompare).
Abbreviation user_le := (cmp_le CompareUser).

Lemma ikey_le_user a b : ikey_le a b → user_le (ExtractUserKey a) (ExtractUserKey b).
Proof using HC.
  intros H. apply without_timestamp_ok. unfold cmp_le in H. rewrite internal_compare_lex in H.
  unfold lex_compare, cmp_on in H. by destruct (Compare _ _).
Qed.

(** Ranges of user keys with no key in common. *)
Definition ranges_disjoint (a b : key * key) : Prop := ¬ (user_le a.1 b.2 ∧ user_le b.1 a.2).
Definition output_range (c : Compaction) : key * key := (c_smallest_user_key c, c_largest_user_key c).

Lemma range_overlap_false cs lo hi level c :
  RangeOverlapWithCompaction cs lo hi level = false → c ∈ cs → c_output_level c = level →
  ranges_disjoint (lo, hi) (output_range c).
Proof using HC.
  intros H Hc Hl [H1 H2]. cbn in H1, H2. apply not_true_iff_false in H. apply H.
  apply existsb_exists. exists c. rewrite <- list_elem_of_In. split; [done|].
  rewrite (proj2 (Nat.eqb_eq _ _) Hl). cbn [andb].
  by rewrite (proj2 (user_leb_true C _ _) H1), (proj2 (user_geb_true C HC _ _) H2).
Qed.

(** The user keys of the inputs lie in their range of internal keys. *)
Lemma boundary_in_range inputs b :
  GetBoundaryKeys inputs None = Some b →
  ∃ r, GetRangeAll inputs None = Some r ∧
    user_le (ExtractUserKey r.1) b.1 ∧ user_le b.2 (ExtractUserKey r.2).
Proof using HC.
  intros Hb. unfold GetBoundaryKeys in Hb. set (taken := filter _ inputs) in *.
  set (get := λ f, (smallest_ukey f, largest_ukey f)) in *.
  pose proof (grow_all Compare (concat (level_bounds get <$> taken))) as Hh. rewrite Hb in Hh.
  destruct Hh as ((x & Hx & Ex) & (y & Hy & Ey) & _).
  unfold GetRangeAll. fold taken. pose proof (grow_all InternalKeyCompare (GetRange <$> taken)) as Hr.
  assert (Hin : ∀ z, z ∈ concat (level_bounds get <$> taken) →
    ∃ i w, i ∈ taken ∧ w ∈ level_bounds bounds_of i ∧ z = (ExtractUserKey w.1, ExtractUserKey w.2)).
  { intros z (l & Hz & Hl)%elem_of_concat. apply list_elem_of_fmap in Hl as (i & -> & Hi).
    exists i. unfold level_bounds in *. destruct (in_level i =? 0)%nat.
    - apply list_elem_of_fmap in Hz as (f & -> & Hf). exists (bounds_of f). split_and!; [done| |done].
      apply list_elem_of_fmap. eauto.
    - destruct (head (in_files i)) as [f|], (last (in_files i)) as [g|];
        try (by apply not_elem_of_nil in Hz). apply list_elem_of_singleton in Hz as ->.
      exists (smallest f, largest g). split_and!; [done|by apply list_elem_of_singleton|done]. }
  assert (Hget : ∀ i w, w ∈ level_bounds bounds_of i →
    ikey_le (GetRange i).1 w.1 ∧ ikey_le w.2 (GetRange i).2).
  { intros i w Hw. pose proof (grow_all InternalKeyCompare (level_bounds bounds_of i)) as Hg.
    unfold GetRange. destruct (foldl _ _ (level_bounds bounds_of i)) as [g|].
    - destruct Hg as (_ & _ & Hall). by apply Hall.
    - rewrite Hg in Hw. by apply not_elem_of_nil in Hw. }
  destruct (Hin x Hx) as (ix & wx & Hix & Hwx & ->). destruct (Hin y Hy) as (iy & wy & Hiy & Hwy & ->).
  destruct (foldl _ _ (GetRange <$> taken)) as [r|].
  2:{ apply fmap_nil_inv in Hr. rewrite Hr in Hix. by apply not_elem_of_nil in Hix. }
  destruct Hr as (_ & _ & Hall). exists r. split; [done|]. cbn in Ex, Ey. rewrite <- Ex, <- Ey.
  destruct (Hall (GetRange ix)) as [H1 _]; [apply list_elem_of_fmap; eauto|].
  destruct (Hall (GetRange iy)) as [_ H2]; [apply list_elem_of_fmap; eauto|].
  destruct (Hget ix wx Hwx) as [H3 _], (Hget iy wy Hwy) as [_ H4].
  split; apply ikey_le_user; order (cmp_le InternalKeyCompare).
Qed.

(** A compaction built from inputs that passed the check writes to no range of
    a running compaction with the same output level. *)
Lemma new_compaction_disjoint cs o cid v inputs level size max_bytes path comp grandparents reason overlap prox c :
  FilesRangeOverlapWithCompaction cs o inputs level prox = false →
  (∃ i, i ∈ inputs ∧ in_files i ≠ []) →
  c ∈ cs → c_output_level c = level →
  ranges_disjoint (output_range (NewCompaction cid v o inputs level size max_bytes path comp grandparents
    reason overlap).1) (output_range c).
Proof using HC.
  intros Hf (i & Hi & Hne) Hc Hl. unfold FilesRangeOverlapWithCompaction in Hf.
  destruct (forallb in_empty inputs) eqn:E.
  { rewrite forallb_forall in E. specialize (E i). rewrite <- list_elem_of_In in E. specialize (E Hi).
    unfold in_empty in E. by destruct (in_files i). }
  unfold NewCompaction. rewrite boundary_keys_units.
  assert (Hb : ∃ b, GetBoundaryKeys inputs None = Some b).
  { unfold GetBoundaryKeys. pose proof (grow_all Compare (concat (level_bounds (λ f, (smallest_ukey f, largest_ukey f))
      <$> filter (λ i, considered None i = true) inputs))) as Hh.
    destruct (foldl _ _ _) as [b|]; [by exists b|]. exfalso.
    assert (Hin : level_bounds (λ f, (smallest_ukey f, largest_ukey f)) i = []).
    { apply concat_nil_Forall in Hh. rewrite Forall_fmap, Forall_forall in Hh. apply Hh, list_elem_of_filter.
      split; [|done]. unfold considered, in_empty. by destruct (in_files i). }
    unfold level_bounds in Hin. destruct (in_level i =? 0)%nat; [by apply fmap_nil_inv in Hin|].
    destruct (in_files i) as [|f fs]; [done|]. cbn [head] in Hin.
    destruct (last (f :: fs)) eqn:El; [done|]. by apply last_None in El. }
  destruct Hb as (b & Eb). destruct (boundary_in_range inputs b Eb) as (r & Er & H1 & H2).
  rewrite Eb, Er in *. cbn [default from_option id] in *. destruct b as [lo hi], r as [rlo rhi].
  apply orb_false_iff in Hf as [_ Hf].
  pose proof (range_overlap_false cs _ _ level c Hf Hc Hl) as Hd.
  destruct (PopulateProximalLevelOutputRange _ _ _ _ _). cbn in *. intros [H3 H4]. apply Hd.
  split; cbn in *; order (cmp_le CompareUser).
Qed.
End conflict.

(** ** Theorems *)

(** C19. [ExpandInputsToCleanCut] on a block of a sorted level ends, and its
    result is the least block around the given one that shares no key with the
    files next to it; it reports whether none of these files is being
    compacted, and the smallest key after them. *)
Theorem clean_cut_expansion (C : Comparator) v level s e next :
  ComparatorOk C → indexed v → (0 < level)%nat → level_sorted C (LevelFiles v level) →
  (s < e <= length (LevelFiles v level))%nat →
  ∃ s' e', clean_hull C v level s e s' e' ∧
    ExpandInputsToCleanCut v (inputs_of level (block (LevelFiles v level) s e)) next =
      (inputs_of level (block (LevelFiles v level) s' e'), smallest <$> LevelFiles v level !! e',
       negb (AreFilesInCompaction (block (LevelFiles v level) s' e'))).
Proof. intros HC Hv Hl Hs Hse. exact (expand_clean_cut C HC v Hv level Hl Hs s e next Hse). Qed.

(** When [SetupOtherInputs] succeeds, the compaction is complete: the files
    of the start level include the given ones (a clean block, below level 0),
    every file of the output level that meets their final range is an input,
    these files are cut cleanly, and no input is being compacted by another
    compaction. *)
Theorem setup_other_inputs_complete (C : Comparator) v op start files level parent base right i o p :
  ComparatorOk C → no_timestamps C → storage_ok C v →
  chosen C v start files → (0 < level)%nat → start ≠ level →
  hint_ok C (LevelFiles v level) (Some (GetRange (inputs_of start files)).1) parent →
  base_ok v start files base →
  SetupOtherInputs v op (inputs_of start files) (inputs_of level []) parent base right = (true, i, o, p) →
  setup_done C v start level files i o.
Proof. intros HC Hts Hok. exact (setup_other_inputs_spec C HC Hts v Hok op start files level parent base right i o p). Qed.

(** ** Witnesses *)

#[local] Existing Instance BytewiseComparator.

Lemma sample_storage_ok : storage_ok BytewiseComparator sample_prepared.
Proof.
  split_and!; [apply prepare_indexed|exact sample_ordered|].
  repeat first [apply Forall_nil_2 | apply Forall_cons_2 | split]; vm_compute; discriminate.
Qed.

Lemma clean_cut_expansion_witness :
  ∃ s' e', clean_hull BytewiseComparator sample_prepared 1 0 1 s' e' ∧
    ExpandInputsToCleanCut sample_prepared (inputs_of 1 (block (LevelFiles sample_prepared 1) 0 1)) None =
      (inputs_of 1 (block (LevelFiles sample_prepared 1) s' e'), smallest <$> LevelFiles sample_prepared 1 !! e',
       negb (AreFilesInCompaction (block (LevelFiles sample_prepared 1) s' e'))).
Proof.
  apply clean_cut_expansion.
  - apply bytewise_ok.
  - apply prepare_indexed.
  - lia.
  - apply ordered_sorted; [apply bytewise_ok|intros a b; reflexivity|]. apply (sample_ordered 1%nat). lia.
  - vm_compute. lia.
Defined.

Lemma setup_other_inputs_complete_witness :
  ∃ i o p, SetupOtherInputs sample_prepared sample_options (inputs_of 0 [sample_file 1 x61 x63])
      (inputs_of 1 []) (-1) (-1) false = (true, i, o, p) ∧
    setup_done BytewiseComparator sample_prepared 0 1 [sample_file 1 x61 x63] i o.
Proof.
  eexists _, _, _. split; [vm_compute; reflexivity|].
  eapply (setup_other_inputs_complete BytewiseComparator sample_prepared sample_options 0
    [sample_file 1 x61 x63] 1 (-1) (-1) false).
  - apply bytewise_ok.
  - intros a b. reflexivity.
  - apply sample_storage_ok.
  - split; [discriminate|]. intros f ->%list_elem_of_singleton. left.
  - lia.
  - lia.
  - left. reflexivity.
  - left. reflexivity.
  - vm_compute. reflexivity.
Defined.
