(* ===== verification/CompactionScore.v ===== *)
(** * Compaction scores, file priorities and level targets

    Models the part of [VersionStorageInfo] in [src/db/version_set.cc] that
    decides which level needs a compaction: the base level and the target sizes
    ([CalculateBaseBytes]), the order of the files of a level
    ([UpdateFilesByCompactionPri], with [FileTtlBooster] of
    [src/db/compaction/file_pri.h]), the scores of the levels and the files
    marked for compaction ([ComputeCompactionScore]), and the estimate of the
    pending bytes.

    The clock, the table properties of open readers, the modification times of
    files and the off-peak hours are fields of [ScoreEnv]. *)

From S2P Require Import Prelude Coding Comparator DbFormat FileMeta Grouping L0Groups VersionStorage Compaction CompactionPicker.

(** ** Options and environment *)

(** Further fields of [ImmutableOptions] and [MutableCFOptions]. *)
Record ScoreOptions := mkScoreOptions {
  max_bytes_for_level_base : Z;
  max_bytes_for_level_multiplier_additional : list Z;
  level0_stop_writes_trigger : Z;
  hard_pending_compaction_bytes_limit : Z;
  allow_ingest_behind : bool;
  ttl : Z;
  periodic_compaction_seconds : Z;
  enable_blob_garbage_collection : bool;
  blob_garbage_collection_age_cutoff : double;
  blob_garbage_collection_force_threshold : double;
  bottommost_file_compaction_delay : Z;
  fifo_max_table_files_size : Z;
  fifo_allow_compaction : bool;
  file_temperature_age_thresholds : list (Z * Z);  (* age, temperature *)
  cf_paths : list Z;  (* target sizes *)
  max_file_size : list Z;
}.

Record ScoreEnv := mkScoreEnv {
  current_time : option Z;
  (* creation, file creation and newest key time, where the reader is pinned *)
  pinned_times : FileMetaData → option (Z * Z * Z);
  modification_time : FileMetaData → option Z;
  (* seconds until the next off-peak period starts if one is running, else 0 *)
  offpeak_seconds : Z → Z;
}.

Definition MaxBytesMultiplerAdditional (so : ScoreOptions) (level : nat) : Z :=
  default 1 (max_bytes_for_level_multiplier_additional so !! level).

Definition TryGetOldestAncesterTime (E : ScoreEnv) (f : FileMetaData) : Z :=
  if negb (oldest_ancester_time f =? 0) then oldest_ancester_time f
  else match pinned_times E f with Some (creation, _, _) => creation | None => 0 end.

Definition TryGetFileCreationTime (E : ScoreEnv) (f : FileMetaData) : Z :=
  if negb (file_creation_time f =? 0) then file_creation_time f
  else match pinned_times E f with Some (_, creation, _) => creation | None => 0 end.

Definition TryGetNewestKeyTime (E : ScoreEnv) (f : FileMetaData) (prev_file : option FileMetaData) : Z :=
  let own := match pinned_times E f with Some (_, _, newest) => newest | None => 0 end in
  if negb (own =? 0) then own
  else match prev_file with Some p => TryGetOldestAncesterTime E p | None => 0 end.

Definition FileIsStandAloneRangeTombstone (f : FileMetaData) : bool :=
  (num_range_deletions f =? 1) && (num_entries f =? num_range_deletions f).

(** ** State *)

Record BlobFileMeta := mkBlobMeta {
  total_blob_bytes : Z;
  garbage_blob_bytes : Z;
  linked_ssts : list Z;
}.

(** The fields of [VersionStorageInfo] beside the files.  The vectors
    [compaction_score_] and [compaction_level_], which always move together,
    are one list of pairs. *)
Record LevelView := mkView {
  vstorage : VersionStorageInfo;
  accumulated_file_size_ : Z;
  accumulated_raw_key_size_ : Z;
  accumulated_raw_value_size_ : Z;
  accumulated_num_non_deletions_ : Z;
  blob_files_ : list BlobFileMeta;
  compact_cursor_ : list key;
  oldest_snapshot_seqnum_ : Z;
  base_level_ : Z;
  lowest_unnecessary_level_ : Z;
  level_max_bytes_ : list Z;
  l0_delay_trigger_count_ : Z;
  files_by_compaction_pri_ : list (list nat);
  next_file_to_compact_by_size_ : list nat;
  compaction_order_ : list (double * nat);
  files_marked_for_compaction_ : list (nat * FileMetaData);
  standalone_range_tombstone_files_mark_threshold_ : Z;
  bottommost_files_marked_for_compaction_ : list (nat * FileMetaData);
  bottommost_files_mark_threshold_ : Z;
  expired_ttl_files_ : list (nat * FileMetaData);
  files_marked_for_periodic_compaction_ : list (nat * FileMetaData);
  files_marked_for_forced_blob_gc_ : list (nat * FileMetaData);
  estimated_compaction_needed_bytes_ : Z;
}.

#[export] Instance view_eta : Eta LevelView := λ w,
  mkView (vstorage w) (accumulated_file_size_ w) (accumulated_raw_key_size_ w)
    (accumulated_raw_value_size_ w) (accumulated_num_non_deletions_ w) (blob_files_ w)
    (compact_cursor_ w) (oldest_snapshot_seqnum_ w) (base_level_ w) (lowest_unnecessary_level_ w)
    (level_max_bytes_ w) (l0_delay_trigger_count_ w) (files_by_compaction_pri_ w)
    (next_file_to_compact_by_size_ w) (compaction_order_ w) (files_marked_for_compaction_ w)
    (standalone_range_tombstone_files_mark_threshold_ w) (bottommost_files_marked_for_compaction_ w)
    (bottommost_files_mark_threshold_ w) (expired_ttl_files_ w)
    (files_marked_for_periodic_compaction_ w) (files_marked_for_forced_blob_gc_ w)
    (estimated_compaction_needed_bytes_ w).

Abbreviation view_levels w := (num_levels (vstorage w)).
Abbreviation view_files w level := (LevelFiles (vstorage w) level).

Definition MaxBytesForLevel (w : LevelView) (level : nat) : Z := default 0 (level_max_bytes_ w !! level).

(** The number of levels up to [MaxInputLevel()]. *)
Definition input_levels (o : CompactOptions) (w : LevelView) : nat :=
  if bool_decide (compaction_style o = kCompactionStyleLevel) then (view_levels w - 1)%nat else 1%nat.

Definition MaxOutputLevel (so : ScoreOptions) (w : LevelView) : nat :=
  if allow_ingest_behind so then (view_levels w - 2)%nat else (view_levels w - 1)%nat.

Definition idle_files (fs : list FileMetaData) : list FileMetaData :=
  filter (λ f, being_compacted f = false) fs.

(** ** Compensated sizes *)

Definition GetAverageValueSize (w : LevelView) : Z :=
  if accumulated_num_non_deletions_ w =? 0 then 0
  else (accumulated_raw_value_size_ w / accumulated_num_non_deletions_ w *64 accumulated_file_size_ w) /
       (accumulated_raw_key_size_ w +64 accumulated_raw_value_size_ w).

Definition compensate (average_value_size : Z) (f : FileMetaData) : FileMetaData :=
  if negb (compensated_file_size f =? 0) then f
  else
    let point_deletions := (num_deletions f -64 num_range_deletions f) *64 2 in
    let boost := if num_entries f <=? point_deletions
                 then (point_deletions -64 num_entries f) *64 average_value_size *64 2 else 0 in
    f <| compensated_file_size :=
      GetFileSize f +64 boost +64 compensated_range_deletion_size f |>.

Definition ComputeCompensatedSizes (w : LevelView) : LevelView :=
  w <| vstorage := map_files (compensate (GetAverageValueSize w)) (vstorage w) |>.

(** ** The base level and the target sizes *)

Fixpoint static_max_bytes (o : CompactOptions) (so : ScoreOptions) (count i : nat) (prev : Z) : list Z :=
  match count with
  | O => []
  | S count' =>
      let bytes :=
        if (1 <? i)%nat then
          MultiplyCheckOverflow (MultiplyCheckOverflow prev (max_bytes_for_level_multiplier o))
            (dbl_of_Z (MaxBytesMultiplerAdditional so (i - 1)))
        else max_bytes_for_level_base so in
      bytes :: static_max_bytes o so count' (S i) bytes
  end.

(** Dividing a size by the multiplier. *)
Definition shrink (o : CompactOptions) (size : Z) : Z :=
  u64_cast (ddiv (dbl_of_Z size) (max_bytes_for_level_multiplier o)).

(** The loop from level [num_levels_ - 2] down to [first]; [count] levels are
    left, the next being [first + count - 1]. *)
Fixpoint target_loop (o : CompactOptions) (levels first count : nat) (base_bytes_min cur_level_size lowest : Z)
    : Z * Z :=
  match count with
  | O => (cur_level_size, lowest)
  | S count' =>
      let i := (first + count')%nat in
      let cur := shrink o cur_level_size in
      let lowest' :=
        if (lowest =? -1) && (cur <=? base_bytes_min) &&
           ((preclude_last_level_data_seconds o =? 0) || (i <? levels - 2)%nat)
        then Z.of_nat i else lowest in
      target_loop o levels first count' base_bytes_min cur lowest'
  end.

(** The loop that looks for a base level above the first level with data. *)
Fixpoint base_level_loop (o : CompactOptions) (base_bytes_max : Z) (level : nat) (cur_level_size : Z) : nat * Z :=
  match level with
  | S (S _ as level') =>
      if base_bytes_max <? cur_level_size
      then base_level_loop o base_bytes_max level' (shrink o cur_level_size)
      else (level, cur_level_size)
  | _ => (level, cur_level_size)
  end.

Fixpoint dynamic_max_bytes (o : CompactOptions) (base_bytes_max : Z) (count : nat) (level_size : Z) : list Z :=
  match count with
  | O => []
  | S count' =>
      Z.max level_size base_bytes_max ::
      dynamic_max_bytes o base_bytes_max count'
        (MultiplyCheckOverflow level_size (max_bytes_for_level_multiplier o))
  end.

(** The largest size of a level below level 0, and the first such level with
    data. *)
Definition level_sizes (w : LevelView) : list Z := TotalFileSize <$> tail (files_ (vstorage w)).
Definition max_level_size (w : LevelView) : Z :=
  foldl (λ m size, if m <? size then size else m) 0 (level_sizes w).
Definition first_non_empty_level (w : LevelView) : nat :=
  match list_find (λ size, 0 < size) (level_sizes w) with Some (i, _) => S i | None => O end.

(** The base level and its size when there is data below level 0, with
    [lowest_unnecessary_level_]. *)
Definition dynamic_base (o : CompactOptions) (so : ScoreOptions) (w : LevelView) : nat * Z * Z :=
  let first := first_non_empty_level w in
  let base_bytes_max := max_bytes_for_level_base so in
  let base_bytes_min := shrink o base_bytes_max in
  let '(cur, lowest) :=
    target_loop o (view_levels w) first (view_levels w - 1 - first) base_bytes_min (max_level_size w) (-1) in
  if cur <=? base_bytes_min then (first, base_bytes_min +64 1, lowest)
  else
    let '(base, cur') := base_level_loop o base_bytes_max first cur in
    (base, if base_bytes_max <? cur' then base_bytes_max else Z.max 1 cur', lowest).

Definition l0_trigger_count `{Comparator, StdChoices} (o : CompactOptions) (w : LevelView) : Z :=
  if negb (use_new_flush o =? 0) then CalculateMaxOverlappingGroupSize (view_files w 0)
  else
    Z.of_nat (length (view_files w 0)) +
    (if bool_decide (compaction_style o = kCompactionStyleUniversal)
     then Z.of_nat (length (filter (λ fs : list FileMetaData, fs ≠ []) (tail (files_ (vstorage w))))) else 0).

Definition CalculateBaseBytes `{Comparator, StdChoices} (o : CompactOptions) (so : ScoreOptions)
    (w0 : LevelView) : LevelView :=
  let w := w0 <| l0_delay_trigger_count_ := l0_trigger_count o w0 |> in
  let levels := view_levels w in
  if negb (level_compaction_dynamic_level_bytes o) then
    w <| base_level_ := if bool_decide (compaction_style o = kCompactionStyleLevel) then 1 else -1 |>
      <| level_max_bytes_ := static_max_bytes o so (num_levels_option o) 0 0 |>
  else if max_level_size w =? 0 then
    w <| lowest_unnecessary_level_ := -1 |> <| base_level_ := Z.of_nat levels - 1 |>
      <| level_max_bytes_ := replicate levels (2 ^ 64 - 1) |>
  else
    let '(base, size, lowest) := dynamic_base o so w in
    w <| lowest_unnecessary_level_ := lowest |> <| base_level_ := Z.of_nat base |>
      <| level_max_bytes_ := replicate base (2 ^ 64 - 1) ++
           dynamic_max_bytes o (max_bytes_for_level_base so) (levels - base) size |>.

(** ** The order of the files of a level *)

(** [FileTtlBooster] *)
Record FileTtlBooster := mkBooster {
  enabled_ : bool;
  booster_time_ : Z;
  boost_age_start_ : Z;
  boost_step_ : Z;
}.

Definition NewFileTtlBooster (now ttl : Z) (num_non_empty_levels level : nat) : FileTtlBooster :=
  if (ttl =? 0) || (level =? 0)%nat || (Z.of_nat num_non_empty_levels - 1 <=? Z.of_nat level)
  then mkBooster false now 0 1
  else
    let all_boost_start_age := ttl / 2 in
    let all_boost_age_range := (ttl / 32 *64 31) -64 all_boost_start_age in
    let boost_age_range :=
      Z.shiftr all_boost_age_range (Z.min 63 (Z.of_nat num_non_empty_levels - Z.of_nat level - 1)) in
    mkBooster true now (all_boost_start_age +64 boost_age_range) (Z.max (boost_age_range / 16) 1).

Definition GetBoostScore (E : ScoreEnv) (b : FileTtlBooster) (f : FileMetaData) : Z :=
  if negb (enabled_ b) then 1
  else
    let oldest := TryGetOldestAncesterTime E f in
    if booster_time_ b <=? oldest then 1
    else
      let age := booster_time_ b -64 oldest in
      if boost_age_start_ b <? age
      then (age -64 boost_age_start_ b) / boost_step_ b +64 1 else 1.

Definition kNumberFilesToSort : nat := 50.

(** [Fsize]: a file with its position in the level. *)
Abbreviation Fsize := (nat * FileMetaData)%type.

(** The two inner loops over the next level, which continue where the previous
    file left off. *)
Fixpoint skip_smaller `{Comparator} (next_files : list FileMetaData) (f : FileMetaData)
    : list FileMetaData :=
  match next_files with
  | [] => []
  | g :: next' => match InternalKeyCompare (largest g) (smallest f) with
                  | Lt => skip_smaller next' f | _ => next_files end
  end.

Fixpoint overlapping_bytes `{Comparator} (next_files : list FileMetaData) (f : FileMetaData) (bytes : Z)
    : Z * list FileMetaData :=
  match next_files with
  | [] => (bytes, [])
  | g :: next' =>
      match InternalKeyCompare (smallest g) (largest f) with
      | Lt =>
          let bytes' := bytes +64 GetFileSize g in
          match InternalKeyCompare (largest g) (largest f) with
          | Gt => (bytes', next_files)
          | _ => overlapping_bytes next' f bytes'
          end
      | _ => (bytes, next_files)
      end
  end.

(** The loop that fills [file_to_order]; the compensated size is not 0 (an
    assert of the source). *)
Fixpoint ratio_loop `{Comparator} (E : ScoreEnv) (ttl : Z) (b : FileTtlBooster)
    (files next_files : list FileMetaData) (order : gmap Z Z) : gmap Z Z :=
  match files with
  | [] => order
  | f :: files' =>
      let '(bytes, next') := overlapping_bytes (skip_smaller next_files f) f 0 in
      let boost := if 0 <? ttl then GetBoostScore E b f else 1 in
      ratio_loop E ttl b files' next'
        (<[GetNumber f := (bytes *64 1024) / compensated_file_size f / boost]> order)
  end.

Definition ratio_less `{Comparator} (order : gmap Z Z) (f1 f2 : Fsize) : bool :=
  let rank (f : Fsize) := default 0 (order !! GetNumber f.2) in
  if Bool.eqb (marked_for_compaction f1.2) (marked_for_compaction f2.2) then
    if rank f1 =? rank f2
    then match InternalKeyCompare (smallest f1.2) (smallest f2.2) with Lt => true | _ => false end
    else rank f1 <? rank f2
  else marked_for_compaction f1.2 && negb (marked_for_compaction f2.2).

(** The TTL in effect (0 if the clock fails) and its booster. *)
Definition ttl_booster (E : ScoreEnv) (ttl : Z) (num_non_empty_levels level : nat) : Z * FileTtlBooster :=
  match current_time E with
  | Some now => (ttl, NewFileTtlBooster (u64 now) ttl num_non_empty_levels level)
  | None => (0, NewFileTtlBooster 0 0 num_non_empty_levels level)
  end.

Definition SortFileByOverlappingRatio `{Comparator, StdChoices} (E : ScoreEnv) (level num_non_empty_levels : nat)
    (ttl0 : Z) (files next_files : list FileMetaData) (temp : list Fsize) : list Fsize :=
  let '(ttl, b) := ttl_booster E ttl0 num_non_empty_levels level in
  std_partial_sort (ratio_less (ratio_loop E ttl b files next_files ∅))
    (min kNumberFilesToSort (length temp)) temp.

Definition SortFileByRoundRobin `{Comparator, StdChoices} (cursor : key) (level0_non_overlapping : bool)
    (level : nat) (temp : list Fsize) : list Fsize :=
  if (level =? 0)%nat && negb level0_non_overlapping
  then std_sort (λ f1 f2 : Fsize, smallest_seqno f1.2 <? smallest_seqno f2.2) temp
  else if (0 <? length cursor)%nat && (1 <? length temp)%nat then
    let current := std_bound (λ f : Fsize,
      match InternalKeyCompare cursor (smallest f.2) with Gt => true | _ => false end) temp 0 (length temp) in
    drop current temp ++ take current temp
  else temp.

Definition files_by_pri `{Comparator, StdChoices} (E : ScoreEnv) (o : CompactOptions) (so : ScoreOptions)
    (w : LevelView) (level : nat) : list nat :=
  let files := view_files w level in
  let temp := imap pair files in
  fst <$>
  match compaction_pri o with
  | kByCompensatedSize =>
      std_partial_sort (λ f1 f2 : Fsize, compensated_file_size f2.2 <? compensated_file_size f1.2)
        (min kNumberFilesToSort (length temp)) temp
  | kOldestLargestSeqFirst => std_sort (λ f1 f2 : Fsize, largest_seqno f1.2 <? largest_seqno f2.2) temp
  | kOldestSmallestSeqFirst => std_sort (λ f1 f2 : Fsize, smallest_seqno f1.2 <? smallest_seqno f2.2) temp
  | kMinOverlappingRatio =>
      SortFileByOverlappingRatio E level (num_non_empty_levels_ (vstorage w)) (ttl so) files
        (view_files w (S level)) temp
  | kRoundRobin =>
      SortFileByRoundRobin (default [] (compact_cursor_ w !! level)) (level0_non_overlapping_ (vstorage w))
        level temp
  end.

(** The last level is never compacted and keeps an empty order. *)
Definition UpdateFilesByCompactionPri `{Comparator, StdChoices} (E : ScoreEnv) (o : CompactOptions)
    (so : ScoreOptions) (w : LevelView) : LevelView :=
  if negb (bool_decide (compaction_style o = kCompactionStyleLevel)) then w
  else
    let n := (view_levels w - 1)%nat in
    w <| files_by_compaction_pri_ := (files_by_pri E o so w <$> seq 0 n) ++ drop n (files_by_compaction_pri_ w) |>
      <| next_file_to_compact_by_size_ := replicate n 0%nat ++ drop n (next_file_to_compact_by_size_ w) |>.

(** ** Scores *)

Definition GetExpiredTtlFilesCount (E : ScoreEnv) (so : ScoreOptions) (files : list FileMetaData) : Z :=
  match current_time E with
  | None => 0
  | Some now =>
      Z.of_nat (length (filter (λ f,
        let oldest := TryGetOldestAncesterTime E f in
        negb (oldest =? 0) && (oldest <? u64 now -64 ttl so) = true) (idle_files files)))
  end.

(** The loop over the files from the last one; [rev_files] are those left, in
    reverse. *)
Fixpoint temperature_loop (E : ScoreEnv) (now age0 temperature0 : Z) (ages : list (Z * Z))
    (rev_files : list FileMetaData) : bool :=
  match rev_files with
  | [] => false
  | f :: rest =>
      if being_compacted f then temperature_loop E now age0 temperature0 ages rest
      else
        let newest := TryGetNewestKeyTime E f (head rest) in
        if newest =? 0 then temperature_loop E now age0 temperature0 ages rest
        else if now -64 age0 <? newest then false
        else
          let target := foldl (λ t at', if (at'.1 <=? now) && (newest <=? now -64 at'.1) then at'.2 else t)
                          temperature0 ages in
          if negb (temperature f =? target) then true
          else temperature_loop E now age0 temperature0 ages rest
  end.

Definition ShouldChangeFileTemperature (E : ScoreEnv) (so : ScoreOptions) (files : list FileMetaData) : bool :=
  match file_temperature_age_thresholds so, current_time E with
  | (age0, temperature0) :: ages, Some now =>
      if age0 <=? u64 now then temperature_loop E (u64 now) age0 temperature0 ages (reverse files) else false
  | _, _ => false
  end.

Definition kScoreScale : double := dbl_of_Z 10.

(** The count of sorted runs in level 0. *)
Definition num_sorted_runs (o : CompactOptions) (so : ScoreOptions) (w : LevelView) : Z :=
  Z.of_nat (length (idle_files (view_files w 0))) +
  (if bool_decide (compaction_style o = kCompactionStyleUniversal)
   then Z.of_nat (length (filter (λ level,
          match view_files w level with f :: _ => negb (being_compacted f) | [] => false end = true)
          (seq 1 (MaxOutputLevel so w))))
   else 0).

Definition effective_l0_count (o : CompactOptions) (so : ScoreOptions) (w : LevelView) : double :=
  dbl_of_Z (if negb (use_new_flush o =? 0) then l0_delay_trigger_count_ w else num_sorted_runs o so w).

Definition fifo_score (E : ScoreEnv) (o : CompactOptions) (so : ScoreOptions) (w : LevelView) : double :=
  let files := view_files w 0 in
  let total_size := sum64 (compensated_file_size <$> idle_files files) in
  let max_size := if fifo_max_table_files_size so =? 0 then 1 else fifo_max_table_files_size so in
  let one := dbl_of_Z 1 in
  let score := ddiv (dbl_of_Z total_size) (dbl_of_Z max_size) in
  let score := if dltb score one && fifo_allow_compaction so
               then dmax (ddiv (effective_l0_count o so w) (dbl_of_Z (level0_file_num_compaction_trigger o))) score
               else score in
  let score := if dltb score one && (0 <? ttl so)
               then dmax (dbl_of_Z (GetExpiredTtlFilesCount E so files)) score else score in
  if dltb score one && ShouldChangeFileTemperature E so files then dlit 11 10 else score.

Definition level0_score (E : ScoreEnv) (o : CompactOptions) (so : ScoreOptions) (w : LevelView) : double :=
  if bool_decide (compaction_style o = kCompactionStyleFIFO) then fifo_score E o so w
  else ddiv (effective_l0_count o so w) (dbl_of_Z (level0_file_num_compaction_trigger o)).

(** The score of a level below level 0, given the bytes that are going to be
    compacted into it. *)
Definition level_score (o : CompactOptions) (w : LevelView) (level : nat) (total_downcompact_bytes : double)
    : double :=
  let bytes := sum64 (compensated_file_size <$> idle_files (view_files w level)) in
  let max_bytes := MaxBytesForLevel w level in
  let ratio := ddiv (dbl_of_Z bytes) (dbl_of_Z max_bytes) in
  if negb (level_compaction_dynamic_level_bytes o) then ratio
  else
    let score :=
      if bytes <? max_bytes then ratio
      else dmul (ddiv (dbl_of_Z bytes) (dadd (dbl_of_Z max_bytes) total_downcompact_bytes)) kScoreScale in
    if (0 <? bytes) && (Z.of_nat level <=? lowest_unnecessary_level_ w)
    then dmax score (dmul kScoreScale (dadd (dlit 1001 1000)
           (dmul (dlit 1 1000) (dbl_of_Z (lowest_unnecessary_level_ w - Z.of_nat level)))))
    else score.

(** [total_downcompact_bytes] after a level. *)
Definition downcompact (w : LevelView) (level : nat) (total : double) : double :=
  let bytes := TotalFileSize (view_files w level) in
  let max_bytes := MaxBytesForLevel w level in
  if (level =? 0)%nat
  then foldl (λ t f, dadd t (dbl_of_Z (GetFileSize f))) total (view_files w level)
  else if Z.of_nat level <=? lowest_unnecessary_level_ w then dadd total (dbl_of_Z bytes)
  else if max_bytes <? bytes then dadd total (dbl_of_Z (bytes -64 max_bytes))
  else total.

Fixpoint score_loop (E : ScoreEnv) (o : CompactOptions) (so : ScoreOptions) (w : LevelView)
    (levels : list nat) (total_downcompact_bytes : double) : list (double * nat) :=
  match levels with
  | [] => []
  | level :: levels' =>
      (if (level =? 0)%nat then level0_score E o so w else level_score o w level total_downcompact_bytes, level) ::
      score_loop E o so w levels' (downcompact w level total_downcompact_bytes)
  end.

(** The score given to level 0 when only its file count stops writes. *)
Definition kStallScore : double := dbl_of_Z 20180546.

Definition boost_stalled (inputs : nat) (l0stall pendingstall : Z) (scores : list (double * nat)) : list (double * nat) :=
  if negb (l0stall =? 0) && (pendingstall =? 0) then alter (λ s, (kStallScore, s.2)) 0%nat scores
  else if (l0stall =? 0) && negb (pendingstall =? 0) then
    imap (λ level s, if (0 <? level)%nat && (level <? inputs)%nat && dgtb s.1 (dbl_of_Z 1)
                     then (dmul s.1 (dbl_of_Z (Z.of_nat level)), s.2) else s) scores
  else scores.

(** One pass of the exchange sort: [s] is the entry at position [i], compared
    with the entries behind it and exchanged with every larger one. *)
Fixpoint exchange_pass (s : double * nat) (l : list (double * nat)) : (double * nat) * list (double * nat) :=
  match l with
  | [] => (s, [])
  | t :: l' =>
      if dltb s.1 t.1
      then let '(m, r) := exchange_pass t l' in (m, s :: r)
      else let '(m, r) := exchange_pass s l' in (m, t :: r)
  end.

Fixpoint exchange_sort (fuel : nat) (l : list (double * nat)) : list (double * nat) :=
  match fuel, l with
  | S fuel', s :: l' => let '(m, r) := exchange_pass s l' in m :: exchange_sort fuel' r
  | _, _ => l
  end.

(** [static_cast<unsigned int>] of a double; undefined if it does not fit. *)
Definition u32_of_double (d : double) : option Z :=
  match dtrunc d with
  | Some z => if (0 <=? z) && (z <? 2 ^ 32) then Some z else None
  | None => None
  end.

(** ** Files marked for compaction *)

(** The files of the levels [0 .. n-1] with a property, with their levels. *)
Definition collect_files (w : LevelView) (p : FileMetaData → bool) (n : nat) : list (nat * FileMetaData) :=
  level ← seq 0 n; pair level <$> filter (λ f, p f = true) (view_files w level).

(** [last_qualify_level]: the level above the last one with files. *)
Fixpoint last_qualify_level (w : LevelView) (level : nat) : nat :=
  match level with
  | O => O
  | S level' => match view_files w level with [] => last_qualify_level w level' | _ => level' end
  end.

Definition ComputeFilesMarkedForCompaction (last_level : nat) (w : LevelView) : LevelView :=
  let marked := collect_files w (λ f, negb (being_compacted f) && marked_for_compaction f)
                  (S (last_qualify_level w last_level)) in
  w <| files_marked_for_compaction_ := marked |>
    <| standalone_range_tombstone_files_mark_threshold_ :=
         foldl Z.min kMaxSequenceNumber
           (smallest_seqno <$> filter (λ f, FileIsStandAloneRangeTombstone f = true) marked.*2) |>.

(** Whether a bottommost file is old enough for the delay, if there is one. *)
Definition delay_over (E : ScoreEnv) (so : ScoreOptions) (f : FileMetaData) : bool :=
  if bottommost_file_compaction_delay so <=? 0 then true
  else
    let creation_time_ub := default 0 (current_time E) - bottommost_file_compaction_delay so in
    let creation_time := s64 (TryGetFileCreationTime E f) in
    (0 <? creation_time_ub) && ((creation_time =? 0) || (creation_time <=? creation_time_ub)).

Definition ComputeBottommostFilesMarkedForCompaction (E : ScoreEnv) (so : ScoreOptions) (w : LevelView)
    : LevelView :=
  let candidates :=
    if allow_ingest_behind so then []
    else filter (λ lf : nat * FileMetaData, negb (being_compacted lf.2) && negb (largest_seqno lf.2 =? 0) = true)
           (bottommost_files_ (vstorage w)) in
  w <| bottommost_files_marked_for_compaction_ :=
         filter (λ lf : nat * FileMetaData,
           (largest_seqno lf.2 <? oldest_snapshot_seqnum_ w) && delay_over E so lf.2 = true) candidates |>
    <| bottommost_files_mark_threshold_ :=
         foldl Z.min kMaxSequenceNumber
           (largest_seqno ∘ snd <$> filter (λ lf : nat * FileMetaData,
              (largest_seqno lf.2 <? oldest_snapshot_seqnum_ w) = false) candidates) |>.

Definition UpdateOldestSnapshot (E : ScoreEnv) (so : ScoreOptions) (seqnum : Z) (w : LevelView) : LevelView :=
  let w' := w <| oldest_snapshot_seqnum_ := seqnum |> in
  if bottommost_files_mark_threshold_ w <? seqnum
  then ComputeBottommostFilesMarkedForCompaction E so w' else w'.

Definition ComputeExpiredTtlFiles (E : ScoreEnv) (o : CompactOptions) (so : ScoreOptions) (w : LevelView)
    : LevelView :=
  w <| expired_ttl_files_ :=
    match current_time E with
    | Some now =>
        if (ttl so =? 0) || negb (bool_decide (compaction_style o = kCompactionStyleLevel)) then []
        else collect_files w (λ f, negb (being_compacted f) &&
               let oldest := TryGetOldestAncesterTime E f in
               (0 <? oldest) && (oldest <? u64 now -64 ttl so)) (view_levels w - 1)
    | None => []
    end |>.

(** The time a file was last modified, from its metadata or the file system. *)
Definition file_modification_time (E : ScoreEnv) (f : FileMetaData) : option Z :=
  let t := TryGetFileCreationTime E f in
  let t := if t =? 0 then TryGetOldestAncesterTime E f else t in
  if t =? 0 then modification_time E f else Some t.

Definition ComputeFilesMarkedForPeriodicCompaction (E : ScoreEnv) (so : ScoreOptions) (last_level : nat)
    (w : LevelView) : LevelView :=
  w <| files_marked_for_periodic_compaction_ :=
    match current_time E with
    | Some now =>
        if (periodic_compaction_seconds so =? 0) || (u64 now <? periodic_compaction_seconds so) then []
        else
          let limit := u64 now -64 periodic_compaction_seconds so +64 offpeak_seconds E (u64 now) in
          collect_files w (λ f, negb (being_compacted f) &&
            match file_modification_time E f with
            | Some t => (0 <? t) && (t <? limit)
            | None => false
            end) (S last_level)
    | None => []
    end |>.

Definition ComputeFilesMarkedForForcedBlobGC `{StdChoices} (so : ScoreOptions) (w : LevelView) : LevelView :=
  let batch := take (Z.to_nat (u64_cast (dmul (blob_garbage_collection_age_cutoff so)
                 (dbl_of_Z (Z.of_nat (length (blob_files_ w))))))) (blob_files_ w) in
  let sum_total := sum64 (total_blob_bytes <$> batch) in
  let sum_garbage := sum64 (garbage_blob_bytes <$> batch) in
  w <| files_marked_for_forced_blob_gc_ :=
    if negb (enable_blob_garbage_collection so &&
             dgtb (blob_garbage_collection_age_cutoff so) (dbl_of_Z 0) &&
             dltb (blob_garbage_collection_force_threshold so) (dbl_of_Z 1)) then []
    else match batch with
    | [] => []
    | oldest_meta :: _ =>
        if dltb (dbl_of_Z sum_garbage)
             (dmul (blob_garbage_collection_force_threshold so) (dbl_of_Z sum_total)) then []
        else omap (λ number,
          '(level, pos) ← file_locations_ (vstorage w) !! number;
          f ← view_files w level !! pos;
          if being_compacted f then None else Some (level, f))
          (unordered_iter (linked_ssts oldest_meta))
    end |>.

(** ** Pending bytes *)

Definition kMinFilesPerGroup : nat := 4.

Definition EstimateL0CompactionBytesNeededByGroups `{Comparator, StdChoices} (w : LevelView) : Z :=
  let l0 := view_files w 0 in
  match FindL0OverlappingGroups l0 with
  | [] => TotalFileSize l0
  | groups =>
      let urgent := sum64 (GetFileSize <$> concat (group_files <$>
        filter (λ g, (kMinFilesPerGroup <= length (group_files g))%nat) groups)) in
      let effective := if urgent =? 0 then TotalFileSize l0 else urgent in
      let l1_size := if base_level_ w <? Z.of_nat (view_levels w)
                     then TotalFileSize (view_files w (Z.to_nat (base_level_ w))) else 0 in
      let total := TotalFileSize l0 in
      let l1_ratio := if (0 <? total) && (0 <? l1_size)
                      then ddiv (dbl_of_Z l1_size) (dbl_of_Z total) else dbl_of_Z 0 in
      u64_cast (dmul (dbl_of_Z effective) (dadd (dbl_of_Z 1) l1_ratio))
  end.

(** The loop over the levels from the base level; [incoming] are the bytes
    moved down from the level above. *)
Fixpoint estimate_loop (o : CompactOptions) (w : LevelView) (level0_triggered : bool) (levels : list nat)
    (incoming bytes_next_level estimated : Z) : Z :=
  match levels with
  | [] => estimated
  | level :: levels' =>
      let size := if 0 <? bytes_next_level then bytes_next_level else TotalFileSize (view_files w level) in
      let estimated :=
        if (Z.of_nat level =? base_level_ w) && level0_triggered && (use_new_flush o =? 0)
        then estimated +64 size else estimated in
      let level_size := size +64 incoming in
      let target := MaxBytesForLevel w level in
      if target <? level_size then
        let excess := level_size -64 target in
        let next := if (S level <? view_levels w)%nat then TotalFileSize (view_files w (S level)) else 0 in
        let contribution :=
          if 0 <? next
          then u64_cast (dmul (dbl_of_Z excess) (dadd (ddiv (dbl_of_Z next) (dbl_of_Z level_size)) (dbl_of_Z 1)))
          else 0 in
        estimate_loop o w level0_triggered levels' excess next (estimated +64 contribution)
      else estimate_loop o w level0_triggered levels' 0 0 estimated
  end.

Definition EstimateCompactionBytesNeeded `{Comparator, StdChoices} (o : CompactOptions) (so : ScoreOptions)
    (w : LevelView) : LevelView :=
  w <| estimated_compaction_needed_bytes_ :=
    if negb (bool_decide (compaction_style o = kCompactionStyleLevel)) then 0
    else
      let size := TotalFileSize (view_files w 0) in
      let triggered := (level0_file_num_compaction_trigger o <=? Z.of_nat (length (view_files w 0))) ||
                       (max_bytes_for_level_base so <=? size) in
      let estimated :=
        if negb triggered then 0
        else if negb (use_new_flush o =? 0) then EstimateL0CompactionBytesNeededByGroups w
        else size in
      let base := Z.to_nat (base_level_ w) in
      estimate_loop o w triggered (seq base (view_levels w - 1 - base)) (if triggered then size else 0) 0 estimated |>.

(** ** The whole computation *)

(** The lists recomputed after the scores. *)
Definition mark_files `{StdChoices} (E : ScoreEnv) (o : CompactOptions) (so : ScoreOptions) (w : LevelView)
    : LevelView :=
  let max_output_level := MaxOutputLevel so w in
  ComputeFilesMarkedForForcedBlobGC so
    (ComputeFilesMarkedForPeriodicCompaction E so max_output_level
    (ComputeExpiredTtlFiles E o so
    (ComputeBottommostFilesMarkedForCompaction E so
    (ComputeFilesMarkedForCompaction max_output_level w)))).

(** [None] where the source divides by zero or converts a double that does not
    fit. *)
Definition ComputeCompactionScore `{Comparator, StdChoices} (E : ScoreEnv) (o : CompactOptions)
    (so : ScoreOptions) (w : LevelView) : option LevelView :=
  pendingstall ← (if hard_pending_compaction_bytes_limit so =? 0 then None
                  else Some ((estimated_compaction_needed_bytes_ w / hard_pending_compaction_bytes_limit so)
                               mod 2 ^ 32));
  let n := input_levels o w in
  l0stall ← (if (n =? 0)%nat || bool_decide (compaction_style o = kCompactionStyleFIFO) then Some 0
             else u32_of_double (ddiv (effective_l0_count o so w) (dbl_of_Z (level0_stop_writes_trigger so))));
  let scores := score_loop E o so w (seq 0 n) (dbl_of_Z 0) ++ drop n (compaction_order_ w) in
  let scores := if negb (use_new_flush o =? 0) then boost_stalled n l0stall pendingstall scores else scores in
  let sorted := (view_levels w - 1)%nat in
  let w := w <| compaction_order_ := exchange_sort sorted (take sorted scores) ++ drop sorted scores |> in
  Some (EstimateCompactionBytesNeeded o so (mark_files E o so w)).

(** [PrepareForVersionAppend] on the whole state; the file indexer is left
    out. *)
Definition PrepareView `{Comparator, StdChoices} (E : ScoreEnv) (o : CompactOptions) (so : ScoreOptions)
    (w0 : LevelView) : LevelView :=
  let w := ComputeCompensatedSizes w0 in
  let w := w <| vstorage := UpdateNumNonEmptyLevels (vstorage w) |> in
  let w := UpdateFilesByCompactionPri E o so (CalculateBaseBytes o so w) in
  w <| vstorage := GenerateFileLocationIndex (GenerateBottommostFiles (GenerateLevel0NonOverlapping
         (GenerateLevelFilesBrief (vstorage w)))) |>.

(** ** The base level *)

Section base_level.
Context (o : CompactOptions) (so : ScoreOptions) (w : LevelView).

(** Files have a size and the sizes of a level add up without wrapping. *)
Definition sizes_ok : Prop :=
  ∀ level, Forall (λ f, 0 < GetFileSize f) (view_files w level) ∧
           foldr Z.add 0 (GetFileSize <$> view_files w level) < 2 ^ 64.

Lemma level_size_lookup i :
  level_sizes w !! i = TotalFileSize <$> files_ (vstorage w) !! S i.
Proof. unfold level_sizes. rewrite list_lookup_fmap. by destruct (files_ (vstorage w)). Qed.

Lemma max_size_ge sizes m :
  m <= foldl (λ m size, if m <? size then size else m) m sizes ∧
  Forall (λ size, size <= foldl (λ m size, if m <? size then size else m) m sizes) sizes.
Proof.
  revert m. induction sizes as [|x sizes IH]; intros m; cbn; [split; [lia|constructor]|].
  destruct (IH (if m <? x then x else m)) as [H1 H2]. destruct (Z.ltb_spec m x).
  - split; [lia|]. by constructor.
  - split; [lia|]. constructor; [lia|done].
Qed.

Lemma total_size_pos fs :
  Forall (λ f, 0 < GetFileSize f) fs → foldr Z.add 0 (GetFileSize <$> fs) < 2 ^ 64 → fs ≠ [] →
  0 < TotalFileSize fs.
Proof.
  intros Hpos Hsum Hne. assert (Hge : ∀ fs, Forall (λ f, 0 < GetFileSize f) fs → 0 <= foldr Z.add 0 (GetFileSize <$> fs)).
  { induction 1; cbn; lia. }
  unfold TotalFileSize. rewrite sum64_spec, u64_id.
  - destruct Hpos as [|f fs Hf Hfs]; [done|]. cbn. specialize (Hge fs Hfs). lia.
  - specialize (Hge fs Hpos). unfold u64_ok. lia.
Qed.

(** The first level with data: those above it are empty. *)
Lemma first_level_spec :
  sizes_ok → max_level_size w ≠ 0 →
  (1 <= first_non_empty_level w < view_levels w)%nat ∧
  ∀ level, (0 < level < first_non_empty_level w)%nat → view_files w level = [].
Proof.
  intros Hok Hmax. unfold first_non_empty_level.
  destruct (list_find (λ size, 0 < size) (level_sizes w)) as [[i size]|] eqn:E.
  - apply list_find_Some in E as (Hi & Hsize & Hbefore). rewrite level_size_lookup in Hi. split.
    + destruct (files_ (vstorage w) !! S i) eqn:Ef; [|done]. apply lookup_lt_Some in Ef.
      unfold num_levels. lia.
    + intros level Hl. destruct (view_files w level) as [|f fs] eqn:Ef; [done|]. exfalso.
      destruct (Hok level) as [Hpos Hsum].
      assert (0 < TotalFileSize (view_files w level)) by (apply total_size_pos; congruence).
      unfold LevelFiles in *. destruct (files_ (vstorage w) !! level) as [fs'|] eqn:El; [|done].
      destruct level as [|j]; [lia|]. apply (Hbefore j (TotalFileSize fs')); [|lia|done].
      by rewrite level_size_lookup, El.
  - apply list_find_None in E. exfalso. apply Hmax. unfold max_level_size.
    clear Hmax. generalize dependent (level_sizes w). induction l as [|x l IH]; intros H; [done|].
    apply Forall_cons in H as [Hx Hl]. cbn in *. destruct (Z.ltb_spec 0 x); [by destruct Hx|]. by apply IH.
Qed.

Lemma base_level_loop_range base_max level cur :
  (1 <= level)%nat → (1 <= (base_level_loop o base_max level cur).1 <= level)%nat.
Proof.
  revert cur. induction level as [|level IH]; intros cur Hl; [lia|].
  destruct level as [|level]; [cbn; lia|].
  change (base_level_loop o base_max (S (S level)) cur) with
    (if base_max <? cur then base_level_loop o base_max (S level) (shrink o cur) else (S (S level), cur)).
  destruct (base_max <? cur); [|cbn; lia]. specialize (IH (shrink o cur) ltac:(lia)). lia.
Qed.

Lemma dynamic_base_range base size lowest :
  (1 <= first_non_empty_level w)%nat → dynamic_base o so w = (base, size, lowest) →
  (1 <= base <= first_non_empty_level w)%nat.
Proof.
  intros Hf. unfold dynamic_base. destruct (target_loop _ _ _ _ _ _ _) as [cur lw].
  destruct (cur <=? _); [intros [= <- <- <-]; lia|].
  pose proof (base_level_loop_range (max_bytes_for_level_base so) _ cur Hf) as Hr.
  destruct (base_level_loop _ _ _ _) as [b c]. intros [= <- <- <-]. exact Hr.
Qed.

Lemma dynamic_max_bytes_lookup base_max count size i b :
  dynamic_max_bytes o base_max count size !! i = Some b → base_max <= b.
Proof.
  revert size i. induction count as [|count IH]; intros size [|i]; cbn; try done.
  - intros [= <-]. lia.
  - apply IH.
Qed.

Lemma dynamic_max_bytes_length base_max count size :
  length (dynamic_max_bytes o base_max count size) = count.
Proof. revert size. induction count as [|count IH]; intros size; cbn; [done|]. by rewrite IH. Qed.

Lemma static_max_bytes_length count i prev : length (static_max_bytes o so count i prev) = count.
Proof. revert i prev. induction count as [|count IH]; intros i prev; cbn; [done|]. by rewrite IH. Qed.
End base_level.

(** What the compaction code relies on: level 0 is compacted to a level below
    it, all levels in between are empty, and (with dynamic level sizes) no
    level above the base level can exceed its target while the others have at
    least the base target. *)
Record base_level_ok (o : CompactOptions) (so : ScoreOptions) (w : LevelView) : Prop := {
  base_in_range : 1 <= base_level_ w <= Z.of_nat (view_levels w) - 1;
  above_base_empty : ∀ level, (0 < level)%nat → Z.of_nat level < base_level_ w → view_files w level = [];
  targets_complete : length (level_max_bytes_ w) = view_levels w;
  above_base_target : level_compaction_dynamic_level_bytes o = true →
    ∀ level, Z.of_nat level < base_level_ w → MaxBytesForLevel w level = 2 ^ 64 - 1;
  below_base_target : level_compaction_dynamic_level_bytes o = true →
    ∀ level, (level < view_levels w)%nat → max_bytes_for_level_base so <= MaxBytesForLevel w level;
}.

Lemma calculate_base_ok `{Comparator, StdChoices} o so w :
  compaction_style o = kCompactionStyleLevel → (2 <= view_levels w)%nat → num_levels_option o = view_levels w →
  max_bytes_for_level_base so < 2 ^ 64 → sizes_ok w →
  base_level_ok o so (CalculateBaseBytes o so w).
Proof.
  intros Hstyle Hlv Hnum Hbase Hok. unfold CalculateBaseBytes.
  pose (w1 := w <| l0_delay_trigger_count_ := l0_trigger_count o w |>). fold w1. cbv zeta.
  change (view_levels w) with (view_levels w1) in *. change (sizes_ok w) with (sizes_ok w1) in *.
  clearbody w1. rewrite bool_decide_true by done.
  destruct (level_compaction_dynamic_level_bytes o) eqn:Hd; cbn [negb].
  2:{ split; cbn; try lia; try congruence. by rewrite static_max_bytes_length. }
  destruct (Z.eqb_spec (max_level_size w1) 0) as [Hmax|Hmax].
  - split; cbn; try lia.
    + intros level Hl Hlt. destruct (LevelFiles (vstorage w1) level) as [|f fs] eqn:Ef; [done|]. exfalso.
      destruct (Hok level) as [Hpos Hsum].
      assert (Ht : 0 < TotalFileSize (LevelFiles (vstorage w1) level)) by (apply total_size_pos; congruence).
      unfold LevelFiles in *. destruct (files_ (vstorage w1) !! level) as [fs'|] eqn:El; [|done].
      destruct (max_size_ge (level_sizes w1) 0) as [_ Hall]. fold (max_level_size w1) in Hall.
      destruct level as [|j]; [lia|].
      apply (Forall_lookup_1 _ _ j (TotalFileSize fs')) in Hall; [cbn [default from_option id] in *; lia|].
      by rewrite level_size_lookup, El.
    + by rewrite length_replicate.
    + intros _ level Hlt. unfold MaxBytesForLevel. cbn. by rewrite lookup_replicate_2 by lia.
    + intros _ level Hlt. unfold MaxBytesForLevel. cbn. rewrite lookup_replicate_2 by done. cbn. lia.
  - destruct (first_level_spec w1 Hok Hmax) as [Hf Hempty].
    destruct (dynamic_base o so w1) as [[base size] lowest] eqn:Eb.
    pose proof (dynamic_base_range o so w1 base size lowest (proj1 Hf) Eb) as Hr. split; cbn.
    + lia.
    + intros level Hl Hlt. apply Hempty. lia.
    + rewrite length_app, length_replicate, dynamic_max_bytes_length. lia.
    + intros _ level Hlt. unfold MaxBytesForLevel. cbn.
      rewrite lookup_app_l by (rewrite length_replicate; lia). by rewrite lookup_replicate_2 by lia.
    + intros _ level Hlt. unfold MaxBytesForLevel. cbn.
      destruct (decide (level < base)%nat) as [Hlb|Hlb].
      * rewrite lookup_app_l by (rewrite length_replicate; lia). rewrite lookup_replicate_2 by lia. cbn. lia.
      * rewrite lookup_app_r by (rewrite length_replicate; lia). rewrite length_replicate.
        destruct (dynamic_max_bytes _ _ _ _ !! _) as [b|] eqn:El; cbn; [by eapply dynamic_max_bytes_lookup|].
        apply lookup_ge_None in El. rewrite dynamic_max_bytes_length in El. lia.
Qed.

(** ** The order of the levels *)

Section exchange.
Implicit Types s t m : double * nat.

Lemma exchange_pass_perm s l m r : exchange_pass s l = (m, r) → m :: r ≡ₚ s :: l.
Proof.
  revert s m r. induction l as [|t l IH]; intros s m r; cbn; [by intros [= <- <-]|].
  destruct (dltb s.1 t.1).
  - destruct (exchange_pass t l) as [m' r'] eqn:E. intros [= <- <-]. by rewrite Permutation_swap, (IH _ _ _ E).
  - destruct (exchange_pass s l) as [m' r'] eqn:E. intros [= <- <-].
    by rewrite Permutation_swap, (IH _ _ _ E), Permutation_swap.
Qed.

Abbreviation proper := (Forall (λ s, is_nan s.1 = false)).
Abbreviation score_le := (λ s t, cmp_le dcompare s.1 t.1).

Lemma exchange_pass_max s l m r :
  exchange_pass s l = (m, r) → proper (s :: l) → Forall (λ x, score_le x m) (s :: l).
Proof.
  revert s m r. induction l as [|t l IH]; intros s m r; cbn.
  { intros [= <- <-] _. by repeat constructor. }
  rewrite !Forall_cons. destruct (dltb s.1 t.1) eqn:Elt.
  - destruct (exchange_pass t l) as [m' r'] eqn:E. intros [= <- <-] (Hs & Ht & Hl).
    specialize (IH _ _ _ E (Forall_cons_2 _ _ _ Ht Hl)). apply Forall_cons in IH as [H1 H2].
    apply dltb_dcompare in Elt; [|done..]. rewrite (cmp_lt_iff dcompare) in Elt.
    split_and!; [|done..]. order (cmp_le dcompare).
  - destruct (exchange_pass s l) as [m' r'] eqn:E. intros [= <- <-] (Hs & Ht & Hl).
    specialize (IH _ _ _ E (Forall_cons_2 _ _ _ Hs Hl)). apply Forall_cons in IH as [H1 H2].
    rewrite <- not_true_iff_false, (dltb_dcompare _ _ Hs Ht), (cmp_lt_iff dcompare) in Elt.
    split_and!; [done| |done]. destruct (decide (cmp_le dcompare t.1 s.1)); [|tauto].
    order (cmp_le dcompare).
Qed.

Lemma exchange_sort_perm fuel l : exchange_sort fuel l ≡ₚ l.
Proof.
  revert l. induction fuel as [|fuel IH]; intros [|s l]; [done..|]. cbn.
  destruct (exchange_pass s l) as [m r] eqn:E. rewrite IH. by apply exchange_pass_perm.
Qed.

Lemma exchange_sort_sorted fuel l :
  (length l <= fuel)%nat → proper l → StronglySorted (λ s t, score_le t s) (exchange_sort fuel l).
Proof.
  revert l. induction fuel as [|fuel IH]; intros [|s l] Hf Hl; try (cbn in Hf; lia); try constructor.
  cbn. destruct (exchange_pass s l) as [m r] eqn:E. pose proof (exchange_pass_perm _ _ _ _ E) as Hp.
  pose proof (exchange_pass_max _ _ _ _ E Hl) as Hm. rewrite <- Hp in Hl, Hm.
  apply Forall_cons in Hl as [_ Hr]. apply Forall_cons in Hm as [_ Hm].
  apply Permutation_length in Hp. cbn in Hp, Hf. constructor; [apply IH; [lia|done]|].
  by rewrite exchange_sort_perm.
Qed.
End exchange.

Lemma score_loop_levels E o so w levels total : (score_loop E o so w levels total).*2 = levels.
Proof. revert total. induction levels as [|l levels IH]; intros total; cbn; [done|]. by rewrite IH. Qed.

Lemma boost_stalled_levels n l0 pend scores : (boost_stalled n l0 pend scores).*2 = scores.*2.
Proof.
  unfold boost_stalled. destruct (_ && _); [|destruct (_ && _); [|done]].
  - by destruct scores.
  - apply list_eq. intros i. rewrite !list_lookup_fmap, list_lookup_imap.
    destruct (scores !! i); cbn; [by case_match|done].
Qed.

(** ** The order of the files of a level *)

Section priorities.
Context (C : Comparator) (HC : ComparatorOk C) (SC : StdChoices).
Abbreviation ikey_le := (cmp_le InternalKeyCompare).

Definition ratio_compare (order : gmap Z Z) : Fsize → Fsize → comparison :=
  lex_compare (cmp_on (λ f : Fsize, if marked_for_compaction f.2 then 0 else 1) Z.compare)
    (lex_compare (cmp_on (λ f : Fsize, default 0 (order !! GetNumber f.2)) Z.compare)
      (cmp_on (λ f : Fsize, smallest f.2) InternalKeyCompare)).

Lemma ratio_less_compare order f1 f2 : ratio_less order f1 f2 = true ↔ ratio_compare order f1 f2 = Lt.
Proof using Type.
  unfold ratio_less, ratio_compare, lex_compare, cmp_on.
  destruct (marked_for_compaction f1.2), (marked_for_compaction f2.2); cbn; try done;
    destruct (Z.eqb_spec (default 0 (order !! GetNumber f1.2)) (default 0 (order !! GetNumber f2.2))) as [->|Hne];
    rewrite ?Z.compare_refl; try (by destruct (InternalKeyCompare _ _));
    rewrite Z.ltb_lt; destruct (Z.compare_spec (default 0 (order !! GetNumber f1.2))
      (default 0 (order !! GetNumber f2.2))); split; (done || lia).
Qed.

Lemma ratio_less_swo order : StrictWeakOrder (ratio_less order).
Proof using HC. eapply swo_of_compare; [|apply ratio_less_compare]. apply _. Qed.

Lemma swo_seqno (get : FileMetaData → Z) : StrictWeakOrder (λ f1 f2 : Fsize, get f1.2 <? get f2.2).
Proof using Type. split; intros *; rewrite ?Z.ltb_lt, ?Z.ltb_ge; lia. Qed.

(** Whatever the priority, the order lists every position of the level once. *)
Lemma files_by_pri_perm E o so w level :
  files_by_pri E o so w level ≡ₚ seq 0 (length (view_files w level)).
Proof using HC.
  unfold files_by_pri. set (files := view_files w level). set (temp := imap pair files).
  assert (Ht : temp.*1 = seq 0 (length files)).
  { unfold temp. apply list_eq. intros i. rewrite list_lookup_fmap, list_lookup_imap.
    destruct (decide (i < length files)%nat) as [Hi|Hi].
    - rewrite lookup_seq_lt by done. destruct (lookup_lt_is_Some_2 _ _ Hi) as [f ->]. done.
    - rewrite lookup_seq_ge, (lookup_ge_None_2 files) by lia. done. }
  rewrite <- Ht. apply fmap_Permutation. destruct (compaction_pri o).
  - apply std_partial_sort_perm. exact (swo_by_desc (λ f : Fsize, compensated_file_size f.2)).
  - apply std_sort_perm, swo_seqno.
  - apply std_sort_perm, swo_seqno.
  - unfold SortFileByOverlappingRatio. destruct (ttl_booster _ _ _ _). apply std_partial_sort_perm, ratio_less_swo.
  - unfold SortFileByRoundRobin. case_match; [apply std_sort_perm, swo_seqno|].
    case_match; [|done]. rewrite Permutation_app_comm. by rewrite take_drop.
Qed.

(** A file of the next level that counts for the ratio of [f]. *)
Definition crosses (f g : FileMetaData) : Prop :=
  InternalKeyCompare (smallest g) (largest f) = Lt ∧ InternalKeyCompare (largest g) (smallest f) ≠ Lt.

#[local] Instance crosses_dec f g : Decision (crosses f g).
Proof. unfold crosses. apply _. Defined.

Definition next_ordered (fs : list FileMetaData) : Prop :=
  Forall (λ f, ikey_le (smallest f) (largest f)) fs ∧
  StronglySorted (λ f g, ikey_le (largest f) (smallest g)) fs.

Lemma next_ordered_app pre rest : next_ordered (pre ++ rest) → next_ordered rest.
Proof using Type.
  intros [H1 H2]. apply Forall_app in H1 as [_ H1]. split; [done|].
  clear -H2. induction pre as [|x pre IH]; [done|]. inversion H2; subst. auto.
Qed.

Lemma skip_smaller_spec next f :
  ∃ pre, next = pre ++ skip_smaller next f ∧
    Forall (λ g, InternalKeyCompare (largest g) (smallest f) = Lt) pre ∧
    (next_ordered next → Forall (λ g, InternalKeyCompare (largest g) (smallest f) ≠ Lt) (skip_smaller next f)).
Proof using HC.
  induction next as [|g next (pre & IH1 & IH2 & IH3)]; [by exists []|]. cbn.
  destruct (InternalKeyCompare (largest g) (smallest f)) eqn:E.
  2:{ exists (g :: pre). split_and!; [by rewrite IH1 at 1|by constructor|].
      intros [Hb Hs]. apply IH3. apply Forall_cons in Hb as [_ Hb]. by inversion Hs. }
  all: exists []; split_and!; [done|constructor|]; intros [Hb Hs]; apply Forall_cons in Hb as [_ Hb];
    inversion Hs as [|? ? _ Hall]; subst; constructor; [congruence|];
    rewrite Forall_forall in Hb, Hall; apply Forall_forall; intros h Hh;
    specialize (Hb h Hh); specialize (Hall h Hh);
    assert (¬ InternalKeyCompare (largest g) (smallest f) = Lt) as Hg by congruence;
    rewrite (cmp_lt_iff InternalKeyCompare) in Hg |- *;
    destruct (decide (ikey_le (smallest f) (largest g))); [|tauto];
    intros Hn; apply Hn; order (cmp_le InternalKeyCompare).
Qed.

Lemma overlapping_bytes_spec next f bytes :
  next_ordered next → Forall (λ g, InternalKeyCompare (largest g) (smallest f) ≠ Lt) next →
  ∃ pre rest, next = pre ++ rest ∧ Forall (λ g, ikey_le (largest g) (largest f)) pre ∧
    overlapping_bytes next f bytes =
      (foldl (λ acc x, acc +64 x) bytes (GetFileSize <$> filter (crosses f) next), rest).
Proof using HC.
  revert bytes. induction next as [|g next IH]; intros bytes [Hb Hs] Hn; [by exists [], []|].
  apply Forall_cons in Hb as [Hg Hb]. apply Forall_cons in Hn as [Hgf Hn].
  inversion Hs as [|? ? Hs' Hall]; subst.
  assert (Hnone : ikey_le (largest f) (largest g) → ¬ InternalKeyCompare (smallest g) (largest f) = Lt ∨
    InternalKeyCompare (largest g) (largest f) = Gt → filter (crosses f) next = []).
  { intros Hfg Hor. apply filter_none. rewrite Forall_forall in Hall |- *. intros h Hh [H1 _].
    specialize (Hall h Hh). rewrite (cmp_lt_iff InternalKeyCompare) in H1. apply H1. order (cmp_le InternalKeyCompare). }
  cbn [overlapping_bytes]. destruct (InternalKeyCompare (smallest g) (largest f)) eqn:E.
  2:{ assert (Hc : crosses f g) by done. rewrite filter_cons_True by done. cbn [fmap list_fmap foldl].
      destruct (InternalKeyCompare (largest g) (largest f)) eqn:E2.
      3:{ exists [], (g :: next). split_and!; [done|constructor|]. rewrite Hnone; [done| |by right].
          rewrite (cmp_gt_iff InternalKeyCompare) in E2. order (cmp_le InternalKeyCompare). }
      all: destruct (IH (bytes +64 GetFileSize g)) as (pre & rest & -> & Hpre & ->); [by split|done|];
        exists (g :: pre), rest; split_and!; [done| |done]; constructor; [|done];
        unfold cmp_le; congruence. }
  all: exists [], (g :: next); split_and!; [done|constructor|];
    rewrite filter_cons_False by (intros [H1 _]; congruence);
    assert (Hle : ikey_le (largest f) (smallest g)) by
      (unfold cmp_le; rewrite (compare_opp InternalKeyCompare (smallest g) (largest f)), E; done);
    rewrite Hnone; [done|order (cmp_le InternalKeyCompare)|left; congruence].
Qed.

(** The files of the level, strictly in order. *)
Definition strictly_ordered (fs : list FileMetaData) : Prop :=
  Forall (λ f, ikey_le (smallest f) (largest f)) fs ∧
  StronglySorted (λ f g, InternalKeyCompare (largest f) (smallest g) = Lt) fs.

Definition overlap_ratio (E : ScoreEnv) (ttl : Z) (b : FileTtlBooster) (next : list FileMetaData)
    (f : FileMetaData) : Z :=
  (sum64 (GetFileSize <$> filter (crosses f) next) *64 1024) / compensated_file_size f /
  (if 0 <? ttl then GetBoostScore E b f else 1).

Lemma ratio_loop_spec E ttl b files passed next order :
  strictly_ordered files → next_ordered next →
  (∀ f g, f ∈ files → g ∈ passed → InternalKeyCompare (largest g) (smallest f) = Lt) →
  NoDup (GetNumber <$> files) →
  (∀ n, n ∉ GetNumber <$> files → ratio_loop E ttl b files next order !! n = order !! n) ∧
  ∀ f, f ∈ files → ratio_loop E ttl b files next order !! GetNumber f =
    Some (overlap_ratio E ttl b (passed ++ next) f).
Proof using HC.
  revert passed next order. induction files as [|f files IH]; intros passed next order [Hb Hs] Hnext Hp Hnd.
  { split; [done|]. by intros f ?%not_elem_of_nil. }
  apply Forall_cons in Hb as [Hf Hb]. inversion Hs as [|? ? Hs' Hall]; subst.
  rewrite fmap_cons in Hnd. apply NoDup_cons in Hnd as [Hnin Hnd]. cbn [ratio_loop].
  destruct (skip_smaller_spec next f) as (pre1 & E1 & Hpre1 & Hskip). specialize (Hskip Hnext).
  set (kept := skip_smaller next f) in *. clearbody kept. subst next.
  pose proof (next_ordered_app _ _ Hnext) as Hkept.
  destruct (overlapping_bytes_spec kept f 0 Hkept Hskip) as (pre2 & rest & -> & Hpre2 & ->).
  pose proof (next_ordered_app _ _ Hkept) as Hrest.
  destruct (IH (passed ++ pre1 ++ pre2) rest
    (<[GetNumber f := overlap_ratio E ttl b (passed ++ pre1 ++ pre2 ++ rest) f]> order)) as [IH1 IH2];
    [by split|done| |done|].
  { intros f' g Hf' Hg. rewrite Forall_forall in Hall. specialize (Hall f' Hf').
    apply elem_of_app in Hg as [Hg|[Hg|Hg]%elem_of_app]; [by apply Hp; [right|]| |];
      rewrite Forall_forall in Hpre1, Hpre2;
      [specialize (Hpre1 g Hg)|specialize (Hpre2 g Hg)];
      rewrite (cmp_lt_iff InternalKeyCompare) in *; order (cmp_le InternalKeyCompare). }
  assert (Hval : (foldl (λ acc x, acc +64 x) 0 (GetFileSize <$> filter (crosses f) (pre2 ++ rest)) *64 1024) /
      compensated_file_size f / (if 0 <? ttl then GetBoostScore E b f else 1) =
    overlap_ratio E ttl b (passed ++ pre1 ++ pre2 ++ rest) f).
  { unfold overlap_ratio, sum64. rewrite (filter_app _ passed), (filter_app _ pre1), !(filter_none _ passed), !(filter_none _ pre1); [done|..].
    - eapply Forall_impl; [exact Hpre1|]. intros g Hg [_ H2]. congruence.
    - apply Forall_forall. intros g Hg [_ H2]. apply H2, Hp; [left|done]. }
  rewrite Hval. split.
  - intros n [Hn1 Hn2]%not_elem_of_cons. rewrite IH1 by done. by apply lookup_insert_ne.
  - intros f' [->|Hf']%elem_of_cons.
    + rewrite IH1 by done. apply lookup_insert_eq.
    + rewrite IH2 by done. by rewrite <- !app_assoc.
Qed.
(** In the sorted part, files with the same mark come by increasing ratio. *)
Lemma ratio_sorted E level nonempty ttl0 files next i j x y :
  strictly_ordered files → next_ordered next → NoDup (GetNumber <$> files) →
  let sorted := SortFileByOverlappingRatio E level nonempty ttl0 files next (imap pair files) in
  let '(ttl, b) := ttl_booster E ttl0 nonempty level in
  sorted !! i = Some x → sorted !! j = Some y → (i < kNumberFilesToSort)%nat → (i < j)%nat →
  marked_for_compaction x.2 = marked_for_compaction y.2 →
  overlap_ratio E ttl b next x.2 <= overlap_ratio E ttl b next y.2.
Proof using HC.
  intros Hs Hn Hnd. cbv zeta. unfold SortFileByOverlappingRatio.
  destruct (ttl_booster E ttl0 nonempty level) as [ttl b]. intros Hx Hy Hi Hij Hm.
  set (order := ratio_loop E ttl b files next ∅) in *.
  set (temp := imap pair files) in *. set (sorted := std_partial_sort _ _ temp) in *.
  assert (Hp : sorted ≡ₚ temp) by (apply std_partial_sort_perm, ratio_less_swo).
  assert (Hin : ∀ k z, sorted !! k = Some z → z.2 ∈ files).
  { intros k z Hz%list_elem_of_lookup_2. rewrite Hp in Hz. unfold temp in Hz.
    apply elem_of_lookup_imap in Hz as (p & f & -> & Hf). by apply list_elem_of_lookup_2 in Hf. }
  assert (Hl : (j < length temp)%nat).
  { rewrite <- (Permutation_length Hp). by apply lookup_lt_Some in Hy. }
  assert (Hlt : ratio_less order y x = false).
  { apply (std_partial_sort_sorted (ratio_less order) (ratio_less_swo order) (min kNumberFilesToSort (length temp)) temp i j);
      [lia|done..]. }
  destruct (ratio_loop_spec E ttl b files [] next ∅ Hs Hn) as [_ Hr];
    [by intros ? ? ? ?%not_elem_of_nil|done|]. fold order in Hr.
  pose proof (Hr x.2 (Hin i x Hx)) as Hrx. pose proof (Hr y.2 (Hin j y Hy)) as Hry.
  unfold ratio_less in Hlt. rewrite Hrx, Hry, Hm, Bool.eqb_reflx in Hlt. cbn in Hlt.
  destruct (Z.eqb_spec (overlap_ratio E ttl b next y.2) (overlap_ratio E ttl b next x.2)); [lia|].
  apply Z.ltb_ge in Hlt. lia.
Qed.
End priorities.

(** ** Files marked for compaction *)

Lemma elem_of_collect w p n l f :
  (l, f) ∈ collect_files w p n ↔ (l < n)%nat ∧ f ∈ view_files w l ∧ p f = true.
Proof.
  unfold collect_files. rewrite list_elem_of_bind. split.
  - intros (l' & (f' & [= <- <-] & Hf')%list_elem_of_fmap & Hl').
    apply elem_of_seq in Hl'. apply list_elem_of_filter in Hf' as [Hp Hf']. split_and!; [lia|done|done].
  - intros (Hl & Hf & Hp). exists l. split; [|apply elem_of_seq; lia].
    apply list_elem_of_fmap. exists f. split; [done|]. by apply list_elem_of_filter.
Qed.

Lemma last_qualify_spec w n l :
  (l <= last_qualify_level w n)%nat ↔
  l = 0%nat ∨ ∃ l', (l < l' <= n)%nat ∧ view_files w l' ≠ [].
Proof.
  induction n as [|n IH]; cbn [last_qualify_level].
  { split; [lia|]. intros [->|(l' & ? & _)]; lia. }
  destruct (view_files w (S n)) as [|f fs] eqn:E.
  - rewrite IH. split; (intros [->|(l' & Hl' & Hne)]; [by left|right]); exists l'; (split; [|done]); try lia.
    destruct (decide (l' = S n)) as [->|]; [by rewrite E in Hne|lia].
  - split.
    + intros Hl. right. exists (S n). split; [lia|congruence].
    + intros [->|(l' & Hl' & _)]; lia.
Qed.

(** The lists hold files of the version that no compaction has taken. *)
Definition marked_sound (w : LevelView) : Prop :=
  ∀ l f, (l, f) ∈ files_marked_for_compaction_ w ++ bottommost_files_marked_for_compaction_ w ++
           expired_ttl_files_ w ++ files_marked_for_periodic_compaction_ w ++
           files_marked_for_forced_blob_gc_ w →
    f ∈ view_files w l ∧ being_compacted f = false.

Lemma collected_idle w p n l f :
  (l, f) ∈ collect_files w (λ f, negb (being_compacted f) && p f) n → f ∈ view_files w l ∧ being_compacted f = false.
Proof. intros (_ & Hf & [Hb%negb_true_iff _]%andb_true_iff)%elem_of_collect. done. Qed.

Lemma forced_gc_sound `{StdChoices} so w l f :
  (l, f) ∈ files_marked_for_forced_blob_gc_ (ComputeFilesMarkedForForcedBlobGC so w) →
  f ∈ view_files w l ∧ being_compacted f = false.
Proof.
  unfold ComputeFilesMarkedForForcedBlobGC. cbn [files_marked_for_forced_blob_gc_].
  destruct (negb _); [by intros ?%not_elem_of_nil|]. case_match; [by intros ?%not_elem_of_nil|].
  destruct (dltb _ _); [by intros ?%not_elem_of_nil|].
  intros (number & _ & Hf)%list_elem_of_omap.
  apply bind_Some in Hf as ([level pos] & _ & Hf). apply bind_Some in Hf as (g & Hg & Hf).
  destruct (being_compacted g) eqn:Eb; [done|]. injection Hf as <- <-. split; [|done].
  by apply list_elem_of_lookup_2 in Hg.
Qed.

Lemma mark_files_sound `{StdChoices} E o so w :
  (∀ l f, (l, f) ∈ bottommost_files_ (vstorage w) → f ∈ view_files w l) → marked_sound (mark_files E o so w).
Proof.
  intros Hbot l f Hin. change (view_files (mark_files E o so w) l) with (view_files w l).
  apply elem_of_app in Hin as [Hin|[Hin|[Hin|[Hin|Hin]%elem_of_app]%elem_of_app]%elem_of_app].
  - by apply collected_idle in Hin.
  - change (bottommost_files_marked_for_compaction_ (mark_files E o so w)) with
      (bottommost_files_marked_for_compaction_ (ComputeBottommostFilesMarkedForCompaction E so w)) in Hin.
    unfold ComputeBottommostFilesMarkedForCompaction in Hin. cbn in Hin.
    apply list_elem_of_filter in Hin as [_ Hin]. destruct (allow_ingest_behind so); [by apply not_elem_of_nil in Hin|].
    apply list_elem_of_filter in Hin as [[Hb%negb_true_iff _]%andb_true_iff Hin]. split; [|done]. by apply Hbot.
  - change (expired_ttl_files_ (mark_files E o so w)) with
      (expired_ttl_files_ (ComputeExpiredTtlFiles E o so w)) in Hin.
    unfold ComputeExpiredTtlFiles in Hin. cbn [expired_ttl_files_] in Hin.
    destruct (current_time E); [|by apply not_elem_of_nil in Hin].
    destruct (_ || _); [by apply not_elem_of_nil in Hin|]. by apply collected_idle in Hin.
  - change (files_marked_for_periodic_compaction_ (mark_files E o so w)) with
      (files_marked_for_periodic_compaction_ (ComputeFilesMarkedForPeriodicCompaction E so (MaxOutputLevel so w) w)) in Hin.
    unfold ComputeFilesMarkedForPeriodicCompaction in Hin. cbn [files_marked_for_periodic_compaction_] in Hin.
    destruct (current_time E); [|by apply not_elem_of_nil in Hin].
    destruct (_ || _); [by apply not_elem_of_nil in Hin|]. by apply collected_idle in Hin.
  - by apply forced_gc_sound in Hin.
Qed.

Lemma estimate_marked `{Comparator, StdChoices} o so w :
  marked_sound w → marked_sound (EstimateCompactionBytesNeeded o so w).
Proof. intros Hw l f. exact (Hw l f). Qed.

(** The parts of the result of a score computation. *)
Lemma compute_score_parts `{Comparator, StdChoices} E o so w w' :
  ComputeCompactionScore E o so w = Some w' →
  ∃ scores w1, scores.*2 = seq 0 (input_levels o w) ++ (drop (input_levels o w) (compaction_order_ w)).*2 ∧
  let n := (view_levels w - 1)%nat in
  vstorage w1 = vstorage w ∧ compaction_order_ w1 = exchange_sort n (take n scores) ++ drop n scores ∧
  w' = EstimateCompactionBytesNeeded o so (mark_files E o so w1).
Proof.
  intros Hscore. unfold ComputeCompactionScore in Hscore.
  apply bind_Some in Hscore as (pending & _ & H1). apply bind_Some in H1 as (l0 & _ & H2).
  injection H2 as <-. eexists _, _. split; [|split_and!; [| |reflexivity]; reflexivity].
  destruct (negb _); rewrite ?boost_stalled_levels, fmap_app, score_loop_levels; done.
Qed.

Lemma compute_score_keeps `{Comparator, StdChoices} E o so w w' :
  ComputeCompactionScore E o so w = Some w' →
  vstorage w' = vstorage w ∧ base_level_ w' = base_level_ w ∧
  ((∀ l f, (l, f) ∈ bottommost_files_ (vstorage w) → f ∈ view_files w l) → marked_sound w').
Proof.
  intros Hscore. pose proof Hscore as Hs. unfold ComputeCompactionScore in Hs.
  apply bind_Some in Hs as (pending & _ & H1). apply bind_Some in H1 as (l0 & _ & H2).
  split_and!; [by injection H2 as <-|by injection H2 as <-|]. clear H2. intros Hbot.
  destruct (compute_score_parts E o so w w' Hscore) as (scores & w1 & _ & Hst & _ & ->).
  apply estimate_marked, mark_files_sound. by rewrite Hst.
Qed.

(** ** Theorems *)

(** [ComputeCompactionScore] leaves the files alone and orders the levels:
    every level but the last is listed once, and if no score is NaN the scores
    decrease, so that the picker may stop at the first score below 1. *)
Theorem score_order_correct (C : Comparator) (SC : StdChoices) E o so w w' :
  compaction_style o = kCompactionStyleLevel →
  ComputeCompactionScore E o so w = Some w' →
  let n := (view_levels w - 1)%nat in
  vstorage w' = vstorage w ∧
  (take n (compaction_order_ w')).*2 ≡ₚ seq 0 n ∧
  (Forall (λ s, is_nan s.1 = false) (take n (compaction_order_ w')) →
   StronglySorted (λ s t, cmp_le dcompare t.1 s.1) (take n (compaction_order_ w'))).
Proof.
  intros Hstyle Hscore n. destruct (compute_score_parts E o so w w' Hscore) as (scores & w1 & Hlv & Hst & Ho & ->).
  fold n in Ho. split; [done|].
  assert (Hn : input_levels o w = n) by (unfold input_levels; by rewrite bool_decide_true).
  rewrite Hn in Hlv.
  assert (Hlen : (n <= length scores)%nat).
  { rewrite <- (length_fmap snd), Hlv, length_app, length_seq. lia. }
  change (compaction_order_ (EstimateCompactionBytesNeeded o so (mark_files E o so w1))) with (compaction_order_ w1).
  rewrite Ho.
  assert (Hl : length (exchange_sort n (take n scores)) = n).
  { rewrite (Permutation_length (exchange_sort_perm n _)), length_take. lia. }
  rewrite take_app_length' by done. split.
  - rewrite exchange_sort_perm, fmap_take, Hlv. rewrite take_app_length'; [done|]. by rewrite length_seq.
  - intros Hnan. rewrite exchange_sort_perm in Hnan. apply exchange_sort_sorted; [rewrite length_take; lia|done].
Qed.

(** The lists of files marked for compaction hold files of the version that
    no running compaction has taken; the files marked by their tables are
    listed exactly where there is data below them to merge with, and with a
    TTL the files whose data is older than it are listed exactly. *)
Theorem marked_files_exact (C : Comparator) (SC : StdChoices) E o so w w' now :
  (∀ l f, (l, f) ∈ bottommost_files_ (vstorage w) → f ∈ view_files w l) →
  compaction_style o = kCompactionStyleLevel → current_time E = Some now → ttl so ≠ 0 →
  ComputeCompactionScore E o so w = Some w' →
  marked_sound w' ∧
  (∀ l f, (l, f) ∈ files_marked_for_compaction_ w' ↔
     f ∈ view_files w l ∧ being_compacted f = false ∧ marked_for_compaction f = true ∧
     (l = 0%nat ∨ ∃ l', (l < l' <= MaxOutputLevel so w)%nat ∧ view_files w l' ≠ [])) ∧
  (∀ l f, (l, f) ∈ expired_ttl_files_ w' ↔
     (l < view_levels w - 1)%nat ∧ f ∈ view_files w l ∧ being_compacted f = false ∧
     0 < TryGetOldestAncesterTime E f < u64 now -64 ttl so).
Proof.
  intros Hbot Hstyle Hnow Httl Hscore.
  destruct (compute_score_parts E o so w w' Hscore) as (scores & w1 & _ & Hst & _ & ->).
  assert (Hmax : MaxOutputLevel so w1 = MaxOutputLevel so w) by (unfold MaxOutputLevel; by rewrite Hst).
  split_and!.
  - apply estimate_marked, mark_files_sound. by rewrite Hst.
  - intros l f. etrans; [apply (elem_of_collect w1 _ (S (last_qualify_level w1 (MaxOutputLevel so w1))))|].
    rewrite Hmax, andb_true_iff, negb_true_iff, Nat.lt_succ_r, last_qualify_spec, Hst. tauto.
  - intros l f. change (expired_ttl_files_ _) with (expired_ttl_files_ (ComputeExpiredTtlFiles E o so w1)).
    unfold ComputeExpiredTtlFiles. cbn [expired_ttl_files_]. rewrite Hnow.
    rewrite (proj2 (Z.eqb_neq _ _) Httl), bool_decide_true by done. cbn [orb negb].
    rewrite elem_of_collect, !andb_true_iff, negb_true_iff, !Z.ltb_lt, Hst. tauto.
Qed.

(** [CalculateBaseBytes] chooses a base level that level 0 can be compacted
    into: it lies below level 0, every level in between is empty, and every
    level has a target size; with dynamic level sizes the levels above the base
    level never exceed theirs and no target is below the base target. *)
Theorem base_level_correct (C : Comparator) (SC : StdChoices) o so w :
  compaction_style o = kCompactionStyleLevel → (2 <= view_levels w)%nat →
  num_levels_option o = view_levels w → max_bytes_for_level_base so < 2 ^ 64 → sizes_ok w →
  base_level_ok o so (CalculateBaseBytes o so w).
Proof. exact (calculate_base_ok o so w). Qed.

(** [UpdateFilesByCompactionPri] lists every file of every level but the
    last once, and restarts the search at the first.  With the priority
    [kMinOverlappingRatio], the files of a sorted level come (up to the
    position where sorting stops, and among files with the same mark) by
    increasing ratio of the bytes they overlap in the next level, although
    these bytes are computed in one merge over the two levels. *)
Theorem file_priorities_exact (C : Comparator) (SC : StdChoices) E o so w level :
  ComparatorOk C → compaction_style o = kCompactionStyleLevel → (level < view_levels w - 1)%nat →
  let w' := UpdateFilesByCompactionPri E o so w in
  let files := view_files w level in
  let next := view_files w (S level) in
  ∃ order, files_by_compaction_pri_ w' !! level = Some order ∧
    order ≡ₚ seq 0 (length files) ∧ next_file_to_compact_by_size_ w' !! level = Some 0%nat ∧
    (compaction_pri o = kMinOverlappingRatio →
     strictly_ordered C files → next_ordered C next → NoDup (GetNumber <$> files) →
     let '(t, b) := ttl_booster E (ttl so) (num_non_empty_levels_ (vstorage w)) level in
     ∀ i j p q f g, order !! i = Some p → order !! j = Some q → (i < j)%nat → (i < kNumberFilesToSort)%nat →
       files !! p = Some f → files !! q = Some g → marked_for_compaction f = marked_for_compaction g →
       overlap_ratio C E t b next f <= overlap_ratio C E t b next g).
Proof.
  intros HC Hstyle Hl w' files next. exists (files_by_pri E o so w level).
  unfold w', UpdateFilesByCompactionPri. rewrite bool_decide_true by done. cbn [negb].
  cbn [files_by_compaction_pri_ next_file_to_compact_by_size_]. split_and!.
  - rewrite lookup_app_l by (rewrite length_fmap, length_seq; lia).
    rewrite list_lookup_fmap, lookup_seq_lt by done. done.
  - by apply files_by_pri_perm.
  - rewrite lookup_app_l by (rewrite length_replicate; lia). by apply lookup_replicate_2.
  - intros Hpri Hs Hn Hnd. unfold files_by_pri. rewrite Hpri.
    pose proof (ratio_sorted C HC SC E level (num_non_empty_levels_ (vstorage w)) (ttl so) files next) as Hr.
    assert (Hin : ∀ k x, SortFileByOverlappingRatio E level (num_non_empty_levels_ (vstorage w)) (ttl so)
      files next (imap pair files) !! k = Some x → files !! x.1 = Some x.2).
    { intros k x Hx%list_elem_of_lookup_2. unfold SortFileByOverlappingRatio in Hx.
      destruct (ttl_booster _ _ _ _). rewrite std_partial_sort_perm in Hx by by apply ratio_less_swo.
      by apply elem_of_lookup_imap in Hx as (? & ? & -> & ?). }
    destruct (ttl_booster E (ttl so) (num_non_empty_levels_ (vstorage w)) level) as [t b].
    intros i j p q f g Hp Hq Hij Hi Hf Hg Hm.
    rewrite list_lookup_fmap in Hp, Hq. apply fmap_Some in Hp as (x & Hx & ->), Hq as (y & Hy & ->).
    pose proof (Hin i x Hx) as Ex. pose proof (Hin j y Hy) as Ey. rewrite Ex in Hf. rewrite Ey in Hg.
    injection Hf as <-. injection Hg as <-. by apply (Hr i j x y).
Qed.

(** ** Witnesses *)

#[local] Existing Instance BytewiseComparator.
#[local] Existing Instance simple_choices.

Definition score_options : CompactOptions :=
  mkOptions kCompactionStyleLevel kMinOverlappingRatio 3 1 true true (dlit 1 2) 1 false 1
    10000 4 (dbl_of_Z 10) true 0 1 kDisableCompressionOption [] false.

Definition sample_score_options : ScoreOptions :=
  mkScoreOptions 1000 [] 20 100000 false 3600 0 false (dlit 1 4) (dbl_of_Z 1) 0 0 false [] [0] [100; 100; 100].

Definition sample_env : ScoreEnv := mkScoreEnv (Some 1000000) (λ _, None) (λ _, None) (λ _, 0).

(** The storage of [sample_storage], as read from the manifest. *)
Definition sample_view : LevelView :=
  mkView sample_storage 0 0 0 0 [] [[]; []; []] 0 1 (-1) [] 0 [[]; []; []] [0; 0; 0]%nat
    (replicate 3 (dbl_of_Z 0, 0%nat)) [] kMaxSequenceNumber [] kMaxSequenceNumber [] [] [] 0.

Definition prepared_view : LevelView := PrepareView sample_env score_options sample_score_options sample_view.

Lemma base_level_correct_witness :
  base_level_ok score_options sample_score_options
    (CalculateBaseBytes score_options sample_score_options sample_view).
Proof.
  apply base_level_correct.
  - reflexivity.
  - cbn. lia.
  - reflexivity.
  - cbn. lia.
  - intros [|[|[|l]]]; split; vm_compute; repeat constructor.
Defined.

Lemma score_order_correct_witness :
  ∃ w', ComputeCompactionScore sample_env score_options sample_score_options prepared_view = Some w' ∧
    (take 2 (compaction_order_ w')).*2 ≡ₚ [0; 1]%nat ∧
    StronglySorted (λ s t, cmp_le dcompare t.1 s.1) (take 2 (compaction_order_ w')).
Proof.
  destruct (ComputeCompactionScore sample_env score_options sample_score_options prepared_view) as [w'|] eqn:E;
    [|vm_compute in E; discriminate E].
  exists w'. split; [done|].
  destruct (score_order_correct BytewiseComparator simple_choices sample_env score_options sample_score_options
    prepared_view w' eq_refl E) as (_ & Hp & Hs). split; [exact Hp|]. apply Hs.
  assert (H : match ComputeCompactionScore sample_env score_options sample_score_options prepared_view with
              | Some w => forallb (λ s, negb (is_nan s.1)) (take 2 (compaction_order_ w)) | None => false end = true)
    by (vm_compute; reflexivity).
  rewrite E in H. rewrite forallb_forall in H. apply Forall_forall. intros s Hs'.
  apply negb_true_iff, H, list_elem_of_In. exact Hs'.
Defined.

Lemma marked_files_exact_witness :
  ∃ w', ComputeCompactionScore sample_env score_options sample_score_options prepared_view = Some w' ∧
    marked_sound w'.
Proof.
  destruct (ComputeCompactionScore sample_env score_options sample_score_options prepared_view) as [w'|] eqn:E;
    [|vm_compute in E; discriminate E].
  exists w'. split; [done|].
  refine (proj1 (marked_files_exact BytewiseComparator simple_choices sample_env score_options
    sample_score_options prepared_view w' 1000000 _ eq_refl eq_refl _ E)).
  - assert (H : Forall (λ lf, lf.2 ∈ view_files prepared_view lf.1) (bottommost_files_ (vstorage prepared_view))).
    { vm_compute. repeat apply Forall_cons_2; [..|apply Forall_nil_2];
        first [by left|right; by left|right; right; by left]. }
    rewrite Forall_forall in H. intros l f Hf. exact (H (l, f) Hf).
  - discriminate.
Defined.

Lemma file_priorities_exact_witness :
  ∃ order, files_by_compaction_pri_ (UpdateFilesByCompactionPri sample_env score_options sample_score_options
      prepared_view) !! 1%nat = Some order ∧ order ≡ₚ [0; 1; 2]%nat.
Proof.
  destruct (file_priorities_exact BytewiseComparator simple_choices sample_env score_options
    sample_score_options prepared_view 1 bytewise_ok eq_refl) as (order & Ho & Hp & _).
  - vm_compute. lia.
  - exists order. by split.
Defined.
