(* ===== verification/LevelPicker.v ===== *)
(** * The level compaction picker

    Models [LevelCompactionBuilder] of
    [src/db/compaction/compaction_picker_level.cc] and
    [PickFilesMarkedForCompaction] of [compaction_picker.cc]: how a compaction
    is chosen, from the level with the highest score to the registered
    [Compaction].  The members of the builder are the record [Builder]; the
    operations take it and return it with their result.

    Levels are natural numbers.  [base_level_] is -1 only in column families
    with a single level, where nothing compacts to it. *)

From S2P Require Import Prelude Comparator DbFormat FileMeta UnionFind Grouping L0Groups VersionStorage Compaction CompactionPicker CompactionScore.

(** ** The builder *)

Inductive CompactToNextLevel := kNo | kYes | kSkipLastLevel.

#[export] Instance CompactToNextLevel_eq : EqDecision CompactToNextLevel.
Proof. solve_decision. Defined.

Record Builder := mkBuilder {
  view : LevelView;  (* [*vstorage_] *)
  start_level_ : nat;
  output_level_ : nat;
  parent_index_ : Z;
  base_index_ : Z;
  is_l0_trivial_move_ : bool;
  start_level_inputs_ : CompactionInputFiles;
  compaction_inputs_ : list CompactionInputFiles;
  output_level_inputs_ : CompactionInputFiles;
  grandparents_ : list FileMetaData;
  compaction_reason_ : CompactionReason;
}.

#[export] Instance builder_eta : Eta Builder := λ b,
  mkBuilder (view b) (start_level_ b) (output_level_ b) (parent_index_ b) (base_index_ b)
    (is_l0_trivial_move_ b) (start_level_inputs_ b) (compaction_inputs_ b) (output_level_inputs_ b)
    (grandparents_ b) (compaction_reason_ b).

Definition NewBuilder (w : LevelView) : Builder :=
  mkBuilder w 0 0 (-1) (-1) false (inputs_of 0 []) [] (inputs_of 0 []) [] kUnknown.

Definition storage (b : Builder) : VersionStorageInfo := vstorage (view b).

Definition clear_inputs (i : CompactionInputFiles) : CompactionInputFiles := inputs_of (in_level i) [].

Definition clear_start (b : Builder) : Builder :=
  b <| start_level_inputs_ := clear_inputs (start_level_inputs_ b) |>.

(** The level that [level] is compacted to. *)
Definition next_output (w : LevelView) (level : nat) : nat :=
  if (level =? 0)%nat then Z.to_nat (base_level_ w) else S level.

(** All files of [level] that overlap the given range. *)
Definition overlapping `{Comparator} (v : VersionStorageInfo) (level : nat) (lo hi : key) : list FileMetaData :=
  ov_inputs (GetOverlappingInputs v level (Some lo) (Some hi) [] (-1) (-1) true None).

(** ** Groups of level-0 files by user key *)

Definition user_overlap `{Comparator} (f g : FileMetaData) : bool :=
  negb (match Compare (largest_ukey f) (smallest_ukey g) with Lt => true | _ => false end ||
        match Compare (largest_ukey g) (smallest_ukey f) with Lt => true | _ => false end).

Definition user_overlap_at `{Comparator} (files : list FileMetaData) (i j : nat) : bool :=
  match files !! i, files !! j with
  | Some f, Some g => user_overlap f g
  | _, _ => false
  end.

(** The groups of the files not being compacted, in the order of the [std::map]
    keyed by their representatives. *)
Definition user_groups `{Comparator} (files : list FileMetaData) : list (list FileMetaData) :=
  let n := length files in
  let u := unite_overlapping union_sets (skip_at files) (user_overlap_at files) n (uf_init n) in
  let active := filter (λ i, skip_at files i = false) (seq 0 n) in
  (λ e : nat * list nat, omap (λ i, files !! i) e.2) <$>
    insertion_sort (λ e e' : nat * list nat, (e.1 <? e'.1)%nat) (collect_groups u active).2.

Record GroupScore := mkScore {
  gs_files : list FileMetaData;
  gs_group_size : Z;
  gs_l1_overlap_size : Z;
  gs_overlap_ratio : double;
  gs_score : double;
}.

Definition gs_file_count (g : GroupScore) : nat := length (gs_files g).

Definition group_metrics `{Comparator} (v : VersionStorageInfo) (output_level : nat)
    (files : list FileMetaData) : GroupScore :=
  let '(lo, hi) := match files with
                   | f :: _ => foldl extend_bounds (smallest f, largest f) files
                   | [] => ([], [])
                   end in
  let size := TotalFileSize files in
  let l1_size := TotalFileSize (overlapping v output_level lo hi) in
  mkScore files size l1_size
    (if 0 <? size then ddiv (dbl_of_Z l1_size) (dbl_of_Z size) else dbl_of_Z 0) (dbl_of_Z 0).

(** The weighted score, normalised by the largest count and ratio. *)
Definition score_group (alpha : double) (n_max : nat) (r_max : double) (g : GroupScore) : GroupScore :=
  let count_norm := if (0 <? n_max)%nat
                    then ddiv (dbl_of_Z (Z.of_nat (gs_file_count g))) (dbl_of_Z (Z.of_nat n_max))
                    else dbl_of_Z 0 in
  let efficiency := if dgtb r_max (dbl_of_Z 0)
                    then dsub (dbl_of_Z 1) (ddiv (gs_overlap_ratio g) r_max) else dbl_of_Z 1 in
  mkScore (gs_files g) (gs_group_size g) (gs_l1_overlap_size g) (gs_overlap_ratio g)
    (dadd (dmul alpha count_norm) (dmul (dsub (dbl_of_Z 1) alpha) efficiency)).

Definition score_less (a b : GroupScore) : bool :=
  if dltb (dabs (dsub (gs_score a) (gs_score b))) (dlit 1 1000000000)
  then (gs_file_count b <? gs_file_count a)%nat
  else dgtb (gs_score a) (gs_score b).

Definition weighted_groups `{Comparator} (o : CompactOptions) (v : VersionStorageInfo) (output_level : nat)
    (groups : list (list FileMetaData)) : list GroupScore :=
  let metrics := group_metrics v output_level <$> groups in
  let n_max := foldl (λ m g, if (m <? gs_file_count g)%nat then gs_file_count g else m) 0%nat metrics in
  let r_max := foldl (λ m g, if dgtb (gs_overlap_ratio g) m then gs_overlap_ratio g else m) (dbl_of_Z 0) metrics in
  score_group (l0_file_count_weight o) n_max r_max <$> metrics.

(** The group picked from level 0. *)
Definition pick_l0_group `{Comparator, StdChoices} (o : CompactOptions) (v : VersionStorageInfo)
    (output_level : nat) : option (list FileMetaData) :=
  let groups := user_groups (LevelFiles v 0) in
  if l0_weight_compaction o
  then gs_files <$> head (std_sort score_less (weighted_groups o v output_level groups))
  else head (std_sort (λ a b : list FileMetaData, (length b <? length a)%nat) groups).

(** [DetectL0GroupBoundaries]: the user-key bounds of the groups, by their
    smallest internal key. *)
Definition DetectL0GroupBoundaries `{Comparator, StdChoices} (v : VersionStorageInfo) : list (key * key) :=
  let files := LevelFiles v 0 in
  if (length (idle_files files) <=? 1)%nat then []
  else
    let infos := omap make_group (user_groups files) in
    let sorted := std_sort (λ a b, match InternalKeyCompare (group_smallest a) (group_smallest b) with
                                   | Lt => true | _ => false end) infos in
    (λ g, (ExtractUserKey (group_smallest g), ExtractUserKey (group_largest g))) <$> sorted.

(** ** Compactions within level 0 *)

Definition kMinFilesForIntraL0Compaction : nat := 4.

(** The first group with enough files and at most [max_bytes] of them. *)
Definition suitable_group (min_files : nat) (get : FileMetaData → Z) (max_bytes : Z)
    (groups : list L0OverlappingGroup) : option L0OverlappingGroup :=
  List.find (λ g, negb (length (group_files g) <? min_files)%nat && (sum64 (get <$> group_files g) <=? max_bytes))
    groups.

Definition PickIntraL0Compaction `{Comparator, StdChoices} (o : CompactOptions) (b0 : Builder) : Builder * bool :=
  if negb (enable_intra_l0_compaction o) then (b0, false)
  else
    let b := clear_start b0 in
    let files := LevelFiles (storage b) 0 in
    if (Z.of_nat (length files) <? u64 (level0_file_num_compaction_trigger o + 2)) ||
       match files with f :: _ => being_compacted f | [] => false end then (b, false)
    else if negb (use_new_flush o =? 0) then
      match suitable_group kMinFilesForIntraL0Compaction GetFileSize (max_compaction_bytes o)
              (FindL0OverlappingGroups files) with
      | Some g => (b <| start_level_inputs_ := inputs_of 0 (group_files g) |>, true)
      | None => (b, false)
      end
    else (b, false).

(** The size of the base level, summed until it exceeds [limit]. *)
Fixpoint lbase_loop (files : list FileMetaData) (limit size : Z) : Z :=
  match files with
  | [] => size
  | f :: files' =>
      let size' := size +64 GetFileSize f in
      if limit <? size' then size' else lbase_loop files' limit size'
  end.

Definition PickSizeBasedIntraL0Compaction `{Comparator, StdChoices} (o : CompactOptions) (b : Builder)
    : Builder * bool :=
  if negb (enable_intra_l0_compaction o) then (b, false)
  else if base_level_ (view b) <=? 0 then (b, false)
  else
    let files := LevelFiles (storage b) 0 in
    let min_num_file := Z.to_nat (Z.max 2 (level0_file_num_compaction_trigger o)) in
    if (length files <? min_num_file)%nat then (b, false)
    else
      let l0_size := sum64 (compensated_file_size <$> files) in
      let multiplier := dmul (dmax (dbl_of_Z 10) (max_bytes_for_level_multiplier o)) (dbl_of_Z 2) in
      let min_lbase_size := MultiplyCheckOverflow l0_size multiplier in
      if lbase_loop (LevelFiles (storage b) (Z.to_nat (base_level_ (view b)))) min_lbase_size 0 <=? min_lbase_size
      then (b, false)
      else if negb (use_new_flush o =? 0) then
        match suitable_group min_num_file compensated_file_size (max_compaction_bytes o)
                (FindL0OverlappingGroups files) with
        | Some g => (b <| start_level_inputs_ := inputs_of 0 (group_files g) |> <| output_level_ := 0%nat |>, true)
        | None => (b, false)
        end
      else (b, false).

(** ** Trivial moves *)

(** The loop over level 0 from the oldest file; [bounds] is the range of the
    files taken so far. *)
Fixpoint trivial_loop `{Comparator} (v : VersionStorageInfo) (output_level : nat)
    (rev_files : list FileMetaData) (bounds : option (key * key)) : list FileMetaData :=
  match rev_files with
  | [] => []
  | f :: rest =>
      let bounds' :=
        match bounds with
        | None => Some (smallest f, largest f)
        | Some (lo, hi) =>
            match InternalKeyCompare (largest f) lo with
            | Lt => Some (smallest f, hi)
            | _ => match InternalKeyCompare (smallest f) hi with
                   | Gt => Some (lo, largest f)
                   | _ => None
                   end
            end
        end in
      match bounds' with
      | None => []
      | Some (lo, hi) =>
          match overlapping v output_level lo hi with
          | [] => f :: trivial_loop v output_level rest bounds'
          | _ => []
          end
      end
  end.

Definition TryPickL0TrivialMove `{Comparator, StdChoices} (o : CompactOptions) (b : Builder) : Builder * bool :=
  if base_level_ (view b) <=? 0 then (b, false)
  else
    let moved :=
      if (start_level_ b =? 0)%nat && (length (compression_per_level o) =? 0)%nat &&
         negb (length (LevelFiles (storage b) (output_level_ b)) =? 0)%nat && (db_paths_size o <=? 1)%nat
      then trivial_loop (storage b) (output_level_ b) (reverse (LevelFiles (storage b) (start_level_ b))) None
      else [] in
    match in_files (start_level_inputs_ b) ++ moved with
    | [] => (b, false)
    | (_ :: _) as files =>
        (b <| start_level_inputs_ := inputs_of (in_level (start_level_inputs_ b))
                (std_sort (λ f1 f2, match InternalKeyCompare (smallest f1) (smallest f2) with
                                    | Lt => true | _ => false end) files) |>
           <| is_l0_trivial_move_ := true |>, true)
    end.

Definition kMaxMultiTrivialMove : nat := 4.

(** The loops of [TryExtendNonL0TrivialMove]: [rest] are the files to try, next
    to the ones taken ([files]); [lo]/[hi] is the end that does not move. *)
Fixpoint extend_right `{Comparator} (v : VersionStorageInfo) (output_level : nat) (max_bytes : Z) (lo : key)
    (rest files : list FileMetaData) (total_size : Z) : list FileMetaData * Z :=
  match rest with
  | [] => (files, total_size)
  | f :: rest' =>
      if (kMaxMultiTrivialMove <=? length files)%nat || being_compacted f ||
         negb (length (overlapping v output_level lo (largest f)) =? 0)%nat ||
         match rest' with
         | g :: _ => match CompareUser (largest_ukey f) (smallest_ukey g) with Eq => true | _ => false end
         | [] => false
         end
      then (files, total_size)
      else
        let size := total_size +64 GetFileSize f in
        if max_bytes <? size then (files, size)
        else extend_right v output_level max_bytes lo rest' (files ++ [f]) size
  end.

Fixpoint extend_left `{Comparator} (v : VersionStorageInfo) (output_level : nat) (max_bytes : Z) (hi : key)
    (rest files : list FileMetaData) (total_size : Z) : list FileMetaData :=
  match rest with
  | [] => files
  | f :: rest' =>
      if (kMaxMultiTrivialMove <=? length files)%nat || being_compacted f ||
         negb (length (overlapping v output_level (smallest f) hi) =? 0)%nat ||
         match rest' with
         | g :: _ => match CompareUser (smallest_ukey f) (largest_ukey g) with Eq => true | _ => false end
         | [] => false
         end
      then files
      else
        let size := total_size +64 GetFileSize f in
        if max_bytes <? size then files
        else extend_left v output_level max_bytes hi rest' (f :: files) size
  end.

Definition TryExtendNonL0TrivialMove `{Comparator} (o : CompactOptions) (start_index : nat)
    (only_expand_right : bool) (b : Builder) : Builder * bool :=
  match in_files (start_level_inputs_ b) with
  | [initial_file] =>
      if (db_paths_size o <=? 1)%nat && (length (compression_per_level o) =? 0)%nat then
        let level_files := LevelFiles (storage b) (start_level_ b) in
        let '(files, size) :=
          extend_right (storage b) (output_level_ b) (max_compaction_bytes o) (smallest initial_file)
            (drop (S start_index) level_files) [initial_file] (GetFileSize initial_file) in
        let files :=
          if only_expand_right then files
          else extend_left (storage b) (output_level_ b) (max_compaction_bytes o) (largest initial_file)
                 (reverse (take start_index level_files)) files size in
        (b <| start_level_inputs_ := inputs_of (in_level (start_level_inputs_ b)) files |>,
         (1 <? length files)%nat)
      else (b, false)
  | _ => (b, false)
  end.

(** ** Picking files *)

Section picker.
Context `{Comparator, StdChoices}.
Context (E : ScoreEnv) (o : CompactOptions) (so : ScoreOptions) (p : Picker).

Definition level0_busy : bool := negb (length (level0_compactions_in_progress_ p) =? 0)%nat.

(** The inputs conflict with a running compaction. *)
Definition conflicts (b : Builder) (inputs : list CompactionInputFiles) : bool :=
  FilesRangeOverlapWithCompaction (compactions_in_progress_ p) o inputs (output_level_ b)
    (EvaluateProximalLevel (storage b) o (start_level_ b) (output_level_ b)).

(** [PickFileToCompact] from a list of marked files. *)
Fixpoint PickMarkedFile (kind : CompactToNextLevel) (level_files : list (nat * FileMetaData)) (b0 : Builder)
    : Builder :=
  match level_files with
  | [] => clear_start b0
  | (level, f) :: rest =>
      let b := b0 <| start_level_ := level |> in
      let last_level := Z.of_nat (num_non_empty_levels_ (storage b)) - 1 in
      if bool_decide (kind = kSkipLastLevel) && (Z.of_nat level =? last_level) then PickMarkedFile kind rest b
      else if (level =? 0)%nat && (use_new_flush o =? 0) && level0_busy then PickMarkedFile kind rest b
      else
        let output := if negb (bool_decide (kind = kNo)) && (Z.of_nat level <? last_level)
                      then next_output (view b) level else level in
        let '(inputs, _, ok) := ExpandInputsToCleanCut (storage b) (inputs_of level [f]) None in
        let b := b <| output_level_ := output |> <| start_level_inputs_ := inputs |> in
        if ok then b else PickMarkedFile kind rest b
  end.

(** The lambda [continuation] of [PickFilesMarkedForCompaction]. *)
Definition try_marked (level_file : nat * FileMetaData) (b0 : Builder) : Builder * bool :=
  let '(level, f) := level_file in
  let b := b0 <| start_level_ := level |> <| output_level_ := next_output (view b0) level |> in
  if (level =? 0)%nat && level0_busy then (b, false)
  else
    let '(inputs, _, ok) := ExpandInputsToCleanCut (storage b) (inputs_of level [f]) None in
    (b <| start_level_inputs_ := inputs |>, ok).

Fixpoint try_all_marked (level_files : list (nat * FileMetaData)) (b : Builder) : Builder :=
  match level_files with
  | [] => clear_start b
  | level_file :: rest =>
      let '(b', ok) := try_marked level_file b in
      if ok then b' else try_all_marked rest b'
  end.

(** [random] is the value drawn for the first file tried. *)
Definition PickFilesMarkedForCompaction (random : nat) (b : Builder) : Builder :=
  match files_marked_for_compaction_ (view b) with
  | [] => b
  | marked =>
      match marked !! (random mod length marked)%nat with
      | Some level_file =>
          let '(b', ok) := try_marked level_file b in
          if ok then b' else try_all_marked marked b'
      | None => b
      end
  end.

(** The loop over the files of a level by priority, from [cmp_idx].  [None]:
    the function returned false; [Some i]: the loop ended at [i]. *)
Fixpoint candidate_loop (indices : list nat) (cmp_idx : nat) (b : Builder) : Builder * option nat :=
  match indices with
  | [] => (b, Some cmp_idx)
  | index :: rest =>
      let round_robin := bool_decide (compaction_pri o = kRoundRobin) in
      let skip (b : Builder) := if round_robin then (b, None) else candidate_loop rest (S cmp_idx) b in
      match LevelFiles (storage b) (start_level_ b) !! index with
      | None => (b, None)
      | Some f =>
          if being_compacted f then skip b
          else
            let '(inputs, _, ok) :=
              ExpandInputsToCleanCut (storage b)
                (inputs_of (in_level (start_level_inputs_ b)) (in_files (start_level_inputs_ b) ++ [f])) None in
            let b := b <| start_level_inputs_ := inputs |> in
            if negb ok || conflicts b [inputs] then skip (clear_start b)
            else
              let '(lo, hi) := GetRange inputs in
              match overlapping (storage b) (output_level_ b) lo hi with
              | [] =>
                  let '(b', extended) :=
                    if (0 <? start_level_ b)%nat
                    then TryExtendNonL0TrivialMove o index round_robin b else (b, false) in
                  if extended then (b', Some cmp_idx)
                  else (b' <| base_index_ := Z.of_nat index |>, Some cmp_idx)
              | outputs =>
                  let '(_, _, free) := ExpandInputsToCleanCut (storage b) (inputs_of (output_level_ b) outputs) None in
                  if negb free then skip (clear_start b)
                  else (b <| base_index_ := Z.of_nat index |>, Some cmp_idx)
              end
      end
  end.

Definition SetNextCompactionIndex (level index : nat) (w : LevelView) : LevelView :=
  w <| next_file_to_compact_by_size_ := <[level := index]> (next_file_to_compact_by_size_ w) |>.

(** The selection by priority at the end of [PickFileToCompact]. *)
Definition pick_by_priority (b0 : Builder) : Builder * bool :=
  let level := start_level_ b0 in
  let scores := default [] (files_by_compaction_pri_ (view b0) !! level) in
  let next := default O (next_file_to_compact_by_size_ (view b0) !! level) in
  match candidate_loop (drop next scores) next b0 with
  | (b, None) => (b, false)
  | (b, Some cmp_idx) =>
      let b := if bool_decide (compaction_pri o = kRoundRobin) then b
               else b <| view := SetNextCompactionIndex level cmp_idx (view b) |> in
      (b, negb (in_empty (start_level_inputs_ b)))
  end.

Definition PickFileToCompact (b0 : Builder) : Builder * bool :=
  if (start_level_ b0 =? 0)%nat && (use_new_flush o =? 0) && level0_busy then
    PickSizeBasedIntraL0Compaction o b0
  else
    let b := b0 <| start_level_inputs_ := inputs_of (start_level_ b0) [] |> in
    let '(b1, trivial) := TryPickL0TrivialMove o b in
    if trivial then (b1, true)
    else
      let '(b2, intra) := if (start_level_ b =? 0)%nat then PickSizeBasedIntraL0Compaction o b else (b, false) in
      if intra then (b2, true)
      else if (start_level_ b =? 0)%nat && negb (use_new_flush o =? 0) then
        match pick_l0_group o (storage b) (output_level_ b) with
        | Some files => (b <| start_level_inputs_ := inputs_of 0 files |>, true)
        | None => pick_by_priority b
        end
      else pick_by_priority b.

(** ** The initial files *)

(** The loop over the levels by score. *)
Fixpoint score_pick_loop (scores : list (double * nat)) (skipped_l0_to_base : bool) (b0 : Builder) : Builder :=
  match scores with
  | [] => b0
  | (score, level) :: rest =>
      let b := b0 <| start_level_ := level |> in
      if negb (dgeb score (dbl_of_Z 1)) then b
      else if skipped_l0_to_base && (Z.of_nat level =? base_level_ (view b))
      then score_pick_loop rest skipped_l0_to_base b
      else
        let '(b, picked) := PickFileToCompact (b <| output_level_ := next_output (view b) level |>) in
        if picked then
          b <| compaction_reason_ := if (level =? 0)%nat then kLevelL0FilesNum else kLevelMaxLevelSize |>
        else
          let b := clear_start b in
          if (level =? 0)%nat then
            let '(b, intra) := PickIntraL0Compaction o b in
            if intra then b <| output_level_ := 0%nat |> <| compaction_reason_ := kLevelL0FilesNum |>
            else score_pick_loop rest true b
          else score_pick_loop rest skipped_l0_to_base b
  end.

(** Continue with [next] if nothing was picked; otherwise note the reason. *)
Definition or_else (reason : CompactionReason) (b : Builder) (next : Builder → Builder) : Builder :=
  if in_empty (start_level_inputs_ b) then next b else b <| compaction_reason_ := reason |>.

(** The TTL compaction of the round-robin priority; whether it was picked. *)
Definition round_robin_ttl (b : Builder) : Builder * bool :=
  match expired_ttl_files_ (view b) with
  | (level, _) :: _ =>
      if negb (bool_decide (compaction_pri o = kRoundRobin)) then (b, false)
      else
        let b := b <| start_level_ := level |> in
        if (0 <? level)%nat then PickFileToCompact (b <| output_level_ := S level |>) else (b, false)
  | [] => (b, false)
  end.

Definition SetupInitialFiles (random : nat) (b0 : Builder) : Builder :=
  let b := score_pick_loop (take (num_levels_option o - 1) (compaction_order_ (view b0))) false b0 in
  if negb (in_empty (start_level_inputs_ b)) then b
  else
    let b := b <| parent_index_ := -1 |> <| base_index_ := -1 |> in
    or_else kFilesMarkedForCompaction (PickFilesMarkedForCompaction random b) (λ b,
    or_else kBottommostFiles
      (PickMarkedFile kNo (bottommost_files_marked_for_compaction_ (view b)) b) (λ b,
    let '(b, picked) := round_robin_ttl b in
    if picked then b <| compaction_reason_ := kRoundRobinTtl |>
    else
    or_else kTtl (PickMarkedFile kSkipLastLevel (expired_ttl_files_ (view b)) b) (λ b,
    or_else kPeriodicCompaction
      (PickMarkedFile (if level_compaction_dynamic_level_bytes o then kYes else kNo)
         (files_marked_for_periodic_compaction_ (view b)) b) (λ b,
    or_else kForcedBlobGC (PickMarkedFile kNo (files_marked_for_forced_blob_gc_ (view b)) b) id)))).

(** ** The other files *)

Definition SetupOtherL0FilesIfNeeded (b : Builder) : Builder * bool :=
  if (start_level_ b =? 0)%nat && negb (output_level_ b =? 0)%nat && negb (is_l0_trivial_move_ b) &&
     (use_new_flush o =? 0) then
    let '(ok, inputs, parent) :=
      GetOverlappingL0Files (storage b) (start_level_inputs_ b) (output_level_ b) (parent_index_ b) in
    (b <| start_level_inputs_ := inputs |> <| parent_index_ := parent |>, ok)
  else (b, true).

(** The loop of the round-robin expansion over the files to the right; [tmp] are
    the inputs tried, [taken] those accepted. *)
Fixpoint round_robin_loop (b : Builder) (max_bytes_to_compact : Z) (rest tmp taken : list FileMetaData)
    : list FileMetaData :=
  match rest with
  | [] => taken
  | f :: rest' =>
      if being_compacted f then taken
      else
        let '(inputs, _, ok) :=
          ExpandInputsToCleanCut (storage b) (inputs_of (in_level (start_level_inputs_ b)) (tmp ++ [f])) None in
        if negb ok || conflicts b [inputs] then taken
        else
          let '(lo, hi) := GetRange inputs in
          let outputs := overlapping (storage b) (output_level_ b) lo hi in
          let '(outputs', free) :=
            match outputs with
            | [] => ([], true)
            | _ => let '(i, _, free) := ExpandInputsToCleanCut (storage b) (inputs_of (output_level_ b) outputs) None in
                   (in_files i, free)
            end in
          let bytes := TotalFileSize (in_files inputs) in
          if negb free || (max_compaction_bytes o <? foldl (λ acc x, acc +64 x) bytes (GetFileSize <$> outputs'))
          then taken
          else if max_bytes_to_compact <? bytes then in_files inputs
          else round_robin_loop b max_bytes_to_compact rest' (in_files inputs) (in_files inputs)
  end.

Definition SetupOtherFilesWithRoundRobinExpansion (b : Builder) : Builder :=
  match in_files (start_level_inputs_ b) with
  | [] => b
  | first :: _ =>
      let level_files := LevelFiles (storage b) (start_level_ b) in
      let idle_bytes := TotalFileSize (idle_files level_files) in
      let max_bytes := MaxBytesForLevel (view b) (start_level_ b) in
      let max_bytes_to_compact := if max_bytes <? idle_bytes then idle_bytes -64 max_bytes else 0 in
      let start_index := default O (default [] (files_by_compaction_pri_ (view b) !! start_level_ b) !! 0%nat) in
      let '(lo, hi) := GetRange (start_level_inputs_ b) in
      let '(b, extended) :=
        match overlapping (storage b) (output_level_ b) lo hi with
        | [] => TryExtendNonL0TrivialMove o start_index true b
        | _ => (b, false)
        end in
      if extended then b
      else if max_bytes_to_compact <=? GetFileSize first then b
      else b <| start_level_inputs_ := inputs_of (in_level (start_level_inputs_ b))
                  (round_robin_loop b max_bytes_to_compact (drop (S start_index) level_files)
                     (in_files (start_level_inputs_ b)) (in_files (start_level_inputs_ b))) |>
  end.

Definition SetupOtherInputsIfNeeded (b0 : Builder) : Builder * bool :=
  if (output_level_ b0 =? 0)%nat
  then (b0 <| compaction_inputs_ := compaction_inputs_ b0 ++ [start_level_inputs_ b0] |>, true)
  else
    let expanding := bool_decide (compaction_pri o = kRoundRobin) &&
                     bool_decide (compaction_reason_ b0 = kLevelMaxLevelSize) in
    let b := b0 <| output_level_inputs_ := inputs_of (output_level_ b0) (in_files (output_level_inputs_ b0)) |> in
    let b := if expanding then SetupOtherFilesWithRoundRobinExpansion b else b in
    let '(b, ok) :=
      if is_l0_trivial_move_ b then (b, true)
      else
        let '(ok, inputs, outputs, parent) :=
          SetupOtherInputs (storage b) o (start_level_inputs_ b) (output_level_inputs_ b) (parent_index_ b)
            (base_index_ b) expanding in
        (b <| start_level_inputs_ := inputs |> <| output_level_inputs_ := outputs |>
           <| parent_index_ := parent |>, ok) in
    if negb ok then (b, false)
    else
      let inputs := compaction_inputs_ b ++ [start_level_inputs_ b] ++
                    (if in_empty (output_level_inputs_ b) then [] else [output_level_inputs_ b]) in
      let b := b <| compaction_inputs_ := inputs |> in
      if conflicts b inputs then (b, false)
      else if is_l0_trivial_move_ b then (b, true)
      else (b <| grandparents_ := GetGrandparents (storage b) o (start_level_inputs_ b) (output_level_inputs_ b) |>,
            true).

(** ** The compaction *)

Definition MaxFileSizeForLevel (level : nat) (base_level : Z) : Z :=
  if negb (level_compaction_dynamic_level_bytes o) || (Z.of_nat level <? base_level) ||
     negb (bool_decide (compaction_style o = kCompactionStyleLevel))
  then default 0 (max_file_size so !! level)
  else default 0 (max_file_size so !! Z.to_nat (Z.of_nat level - base_level)).

(** The loop of [GetPathId]: [paths] are the target sizes from path [path] on.
    Every round moves to the next path or to the next level, never beyond
    [level]. *)
Fixpoint path_loop (fuel level cur_level path : nat) (paths : list Z) (path_size level_size : Z) : nat :=
  match fuel, paths with
  | S fuel', _ :: next_size :: _ =>
      if level_size <=? path_size then
        if (cur_level =? level)%nat then path
        else
          let grown :=
            if (0 <? cur_level)%nat then
              let scaled := dmul (dbl_of_Z level_size) (max_bytes_for_level_multiplier o) in
              if level_compaction_dynamic_level_bytes o then u64_cast scaled
              else u64_cast (dmul scaled (dbl_of_Z (MaxBytesMultiplerAdditional so cur_level)))
            else level_size in
          path_loop fuel' level (S cur_level) path paths (path_size -64 level_size) grown
      else path_loop fuel' level cur_level (S path) (tail paths) next_size level_size
  | _, _ => path
  end.

(** [LevelCompactionBuilder::GetPathId] *)
Definition PathIdForLevel (level : nat) : nat :=
  path_loop (S (level + length (cf_paths so))) level 0 0 (cf_paths so) (default 0 (head (cf_paths so)))
    (max_bytes_for_level_base so).

(** Building and registering the compaction with the address [id].  [None]:
    the recomputation of the scores is undefined. *)
Definition GetCompaction (id : nat) (b : Builder) : option (Compaction * Picker * LevelView) :=
  let l0_files_might_overlap :=
    (start_level_ b =? 0)%nat && negb (is_l0_trivial_move_ b) &&
    ((1 <? length (compaction_inputs_ b))%nat ||
     match compaction_inputs_ b with i :: _ => (1 <? length (in_files i))%nat | [] => false end) in
  let '(c, v) :=
    NewCompaction id (storage b) o (compaction_inputs_ b) (output_level_ b)
      (MaxFileSizeForLevel (output_level_ b) (base_level_ (view b))) (max_compaction_bytes o)
      (Z.of_nat (PathIdForLevel (output_level_ b)))
      (GetCompressionType (storage b) o (Z.of_nat (output_level_ b)) (base_level_ (view b)) true)
      (grandparents_ b) (compaction_reason_ b) l0_files_might_overlap in
  let c := if (start_level_ b =? 0)%nat && (output_level_ b =? 1)%nat && negb (use_new_flush o =? 0)
           then c <| c_l0_group_boundaries := DetectL0GroupBoundaries v |> else c in
  let w0 := view b in
  let w := w0 <| vstorage := v |> in
  w' ← ComputeCompactionScore E o so w;
  Some (c, RegisterCompaction o c p, w').

(** [LevelCompactionBuilder::PickCompaction]: the compaction, if there is one,
    and the new state of the picker and the version. *)
Definition PickCompaction (id random : nat) (w : LevelView) : option (option Compaction * Picker * LevelView) :=
  let b := SetupInitialFiles random (NewBuilder w) in
  if in_empty (start_level_inputs_ b) then Some (None, p, view b)
  else
    let '(b, ok) := SetupOtherL0FilesIfNeeded b in
    if negb ok then Some (None, p, view b)
    else
      let '(b, ok) := SetupOtherInputsIfNeeded b in
      if negb ok then Some (None, p, view b)
      else '(c, p', w') ← GetCompaction id b; Some (Some c, p', w').
End picker.

(** ** Whether there is anything to do *)

(** [LevelCompactionPicker::NeedsCompaction] *)
Definition NeedsCompaction (o : CompactOptions) (w : LevelView) : bool :=
  negb (length (expired_ttl_files_ w) =? 0)%nat || negb (length (files_marked_for_periodic_compaction_ w) =? 0)%nat ||
  negb (length (bottommost_files_marked_for_compaction_ w) =? 0)%nat ||
  negb (length (files_marked_for_compaction_ w) =? 0)%nat ||
  negb (length (files_marked_for_forced_blob_gc_ w) =? 0)%nat ||
  existsb (λ s : double * nat, dgeb s.1 (dbl_of_Z 1)) (take (input_levels o w) (compaction_order_ w)).

(** ** The groups are the components of the idle files *)

Section groups.
Context (C : Comparator) (HC : ComparatorOk C) (SC : StdChoices).
Context (files : list FileMetaData).

Abbreviation ukey_le := (cmp_le Compare).
Abbreviation n := (length files).
Abbreviation entries := (grouped union_sets (skip_at files) (user_overlap_at files) n).

Lemma not_less_le a b : (match Compare a b with Lt => true | _ => false end) = false ↔ ukey_le b a.
Proof using HC. unfold cmp_le. rewrite (compare_opp Compare a b). by destruct (Compare a b). Qed.

Lemma user_overlap_iff f g :
  user_overlap f g = true ↔ ukey_le (smallest_ukey g) (largest_ukey f) ∧ ukey_le (smallest_ukey f) (largest_ukey g).
Proof using HC. unfold user_overlap. by rewrite negb_true_iff, orb_false_iff, !not_less_le. Qed.

Lemma user_overlap_sym f g : user_overlap f g = user_overlap g f.
Proof using Type. unfold user_overlap. by rewrite orb_comm. Qed.

(** Joined by a chain of overlapping files of [fs]. *)
Definition user_chain (fs : list FileMetaData) : relation FileMetaData :=
  rtsc (λ f g, f ∈ fs ∧ g ∈ fs ∧ user_overlap f g = true).

(** A set of idle files that no other idle file overlaps, joined by chains. *)
Record component (fs : list FileMetaData) : Prop := {
  cp_nonempty : fs ≠ [];
  cp_idle : fs ⊆ idle_files files;
  cp_closed : ∀ f g, f ∈ fs → g ∈ idle_files files → user_overlap f g = true → g ∈ fs;
  cp_joined : ∀ f g, f ∈ fs → g ∈ fs → user_chain fs f g;
}.

Lemma elem_of_idle f : f ∈ idle_files files ↔ ∃ i, files !! i = Some f ∧ skip_at files i = false.
Proof using Type.
  unfold idle_files. rewrite list_elem_of_filter, list_elem_of_lookup. unfold skip_at. split.
  - intros (Hb & i & Hi). exists i. by rewrite Hi.
  - intros (i & Hi & Hs). rewrite Hi in Hs. eauto.
Qed.

Lemma user_entries : user_groups files ≡ₚ (λ e : nat * list nat, files_at files e.2) <$> entries.
Proof using Type. unfold user_groups. apply fmap_Permutation, insertion_sort_perm. Qed.

Lemma overlap_linked i j f g :
  files !! i = Some f → files !! j = Some g → skip_at files i = false → skip_at files j = false →
  user_overlap f g = true → linked (skip_at files) (user_overlap_at files) n i j.
Proof using Type.
  intros Hi Hj Si Sj Ho. pose proof (lookup_lt_Some _ _ _ Hi). pose proof (lookup_lt_Some _ _ _ Hj).
  destruct (lt_eq_lt_dec i j) as [[Hlt|<-]|Hlt]; [|done|]; apply rtc_once; [left|right];
    apply elem_of_united_pairs; unfold user_overlap_at; rewrite Hi, Hj; split_and!; try done; try lia.
  by rewrite user_overlap_sym.
Qed.

Lemma entry_component e : e ∈ entries → component (files_at files e.2).
Proof using HC.
  intros He. destruct (grouped_spec union_sets (skip_at files) (user_overlap_at files) n) as (_ & Hl & _).
  destruct (Hl e He) as [Hne Hlink].
  assert (Hact : ∀ i, i ∈ e.2 → ∃ f, files !! i = Some f ∧ f ∈ files_at files e.2 ∧ skip_at files i = false).
  { intros i Hi. destruct (grouped_act union_sets (skip_at files) (user_overlap_at files) n e i He Hi)
      as [[f Hf]%lookup_lt_is_Some Hs]. exists f. split_and!; [done| |done]. apply elem_of_files_at. eauto. }
  split.
  - destruct e as [r [|i l]]; [done|]. destruct (Hact i) as (f & _ & Hf & _); [left|].
    intros E. rewrite E in Hf. by apply not_elem_of_nil in Hf.
  - intros f (i & Hi & Hf)%elem_of_files_at. apply elem_of_idle. exists i. split; [done|].
    by destruct (Hact i Hi) as (? & _ & _ & ?).
  - intros f g (i & Hi & Hf)%elem_of_files_at (j & Hj & Sj)%elem_of_idle Ho. apply elem_of_files_at. exists j.
    split; [|done]. destruct (Hact i Hi) as (? & _ & _ & Si).
    apply (grouped_closed union_sets (skip_at files) (user_overlap_at files) n e i j He Hi).
    by apply (overlap_linked i j f g).
  - intros f g (i & Hi & Hf)%elem_of_files_at (j & Hj & Hg)%elem_of_files_at.
    pose proof (Hlink i j Hi Hj) as Hij. clear Hlink. revert f Hi Hf.
    induction Hij as [i|i c j Hic Hcj IH]; intros f Hi Hf; [by simplify_eq; constructor|].
    assert (Hc : c ∈ e.2).
    { apply (grouped_closed union_sets (skip_at files) (user_overlap_at files) n e i c He Hi). by apply rtc_once. }
    destruct (Hact c Hc) as (h & Hh & Hhin & _). eapply rtc_l; [|by apply (IH Hj Hg h)].
    destruct (Hact i Hi) as (f' & Hf' & Hfin & _). simplify_eq.
    destruct Hic as [H|H]; apply elem_of_united_pairs in H as (_ & _ & _ & Ho);
      unfold user_overlap_at in Ho; rewrite Hf, Hh in Ho; [left|right]; done.
Qed.

Lemma user_groups_components : Forall component (user_groups files).
Proof using HC. rewrite user_entries, Forall_fmap, Forall_forall. exact entry_component. Qed.

Lemma user_groups_cover f : f ∈ idle_files files → ∃ fs, fs ∈ user_groups files ∧ f ∈ fs.
Proof using Type.
  intros (i & Hi & Hs)%elem_of_idle.
  destruct (grouped_spec union_sets (skip_at files) (user_overlap_at files) n) as (Hp & _ & _).
  assert (Ha : i ∈ active (skip_at files) n) by (apply elem_of_active; by split; [apply lookup_lt_Some in Hi|]).
  rewrite <- Hp in Ha. apply elem_of_concat in Ha as (l & Hl & (e & -> & He)%list_elem_of_fmap).
  exists (files_at files e.2). rewrite user_entries. split; [apply list_elem_of_fmap; by exists e|].
  apply elem_of_files_at. eauto.
Qed.

(** Files of different groups do not overlap. *)
Definition apart (fs gs : list FileMetaData) : Prop := ∀ f g, f ∈ fs → g ∈ gs → user_overlap f g = false.

Lemma user_groups_apart p q fs gs :
  user_groups files !! p = Some fs → user_groups files !! q = Some gs → p ≠ q → apart fs gs.
Proof using Type.
  destruct (proj1 (Permutation_inj _ _) user_entries) as (_ & t & Ht & Hl). rewrite !Hl, !list_lookup_fmap.
  intros (e & He & ->)%fmap_Some_1 (e' & He' & ->)%fmap_Some_1 Hpq f g (i & Hi & Hf)%elem_of_files_at
    (j & Hj & Hg)%elem_of_files_at.
  destruct (user_overlap f g) eqn:Ho; [|done]. exfalso.
  destruct (grouped_spec union_sets (skip_at files) (user_overlap_at files) n) as (_ & _ & Hd).
  destruct (grouped_act union_sets (skip_at files) (user_overlap_at files) n e i) as [_ Si];
    [by apply list_elem_of_lookup_2 in He|done|].
  destruct (grouped_act union_sets (skip_at files) (user_overlap_at files) n e' j) as [_ Sj];
    [by apply list_elem_of_lookup_2 in He'|done|].
  apply (Hd (t p) (t q) e e' i j); try done; [by intros ?%Ht|]. by apply (overlap_linked i j f g).
Qed.

Lemma swo_longer {A} : StrictWeakOrder (λ a b : list A, (length b <? length a)%nat).
Proof using Type. split; intros *; rewrite ?Nat.ltb_lt, ?Nat.ltb_ge; lia. Qed.

Lemma weighted_files o v output groups : gs_files <$> weighted_groups o v output groups = groups.
Proof using Type.
  unfold weighted_groups. cbn zeta. rewrite <- !list_fmap_compose. transitivity (id <$> groups); [|apply list_fmap_id].
  apply list_fmap_ext. intros i fs _. cbn. unfold group_metrics. by destruct (match fs with [] => _ | _ => _ end).
Qed.
End groups.

(** What the choice of a group from level 0 promises. *)
Definition best_group `{Comparator} (o : CompactOptions) (v : VersionStorageInfo) (output_level : nat)
    (fs : list FileMetaData) : Prop :=
  if l0_weight_compaction o
  then ∃ g, g ∈ weighted_groups o v output_level (user_groups (LevelFiles v 0)) ∧ gs_files g = fs ∧
       ∀ h, h ∈ weighted_groups o v output_level (user_groups (LevelFiles v 0)) → score_less h g = false
  else ∀ gs, gs ∈ user_groups (LevelFiles v 0) → (length gs <= length fs)%nat.

(** The weighted comparison may be used to sort the groups. *)
Definition weights_ok `{Comparator} (o : CompactOptions) (v : VersionStorageInfo) (output_level : nat) : Prop :=
  l0_weight_compaction o = true →
  sortable score_less (weighted_groups o v output_level (user_groups (LevelFiles v 0))).

Lemma pick_l0_group_spec (C : Comparator) (HC : ComparatorOk C) (SC : StdChoices) o v output :
  weights_ok o v output →
  match pick_l0_group o v output with
  | Some fs => component C (LevelFiles v 0) fs ∧ best_group o v output fs
  | None => idle_files (LevelFiles v 0) = []
  end.
Proof.
  intros Hw. pose proof (user_groups_components C HC (LevelFiles v 0)) as Hc. rewrite Forall_forall in Hc.
  assert (Hnil : user_groups (LevelFiles v 0) = [] → idle_files (LevelFiles v 0) = []).
  { intros E. destruct (idle_files (LevelFiles v 0)) as [|f fs] eqn:Ei; [done|].
    destruct (user_groups_cover C (LevelFiles v 0) f) as (gs & Hg & _); [rewrite Ei; left|].
    rewrite E in Hg. by apply not_elem_of_nil in Hg. }
  unfold pick_l0_group, best_group, weights_ok in *. set (groups := user_groups (LevelFiles v 0)) in *.
  pose proof (weighted_files C o v output groups) as Hfiles.
  destruct (l0_weight_compaction o).
  - specialize (Hw eq_refl). destruct (head _) as [g|] eqn:Eh; cbn.
    + destruct (std_sort_head _ _ _ Hw Eh) as [Hin Hbest]. split; [|by exists g].
      apply Hc. rewrite <- Hfiles. by apply list_elem_of_fmap_2.
    + apply Hnil. destruct groups as [|gs groups']; [done|].
      destruct (std_sort_head_some _ _ Hw) as [? E]; [|congruence].
      intros E%(f_equal (fmap gs_files)). by rewrite Hfiles in E.
  - pose proof (swo_on (λ x, x ∈ groups) _ (swo_longer (A := FileMetaData))) as Hs.
    destruct (head _) as [fs|] eqn:Eh.
    + destruct (std_sort_head _ _ _ Hs Eh) as [Hin Hbest]. split; [by apply Hc|]. intros gs Hg.
      apply Nat.ltb_ge. by apply Hbest.
    + apply Hnil. destruct groups as [|gs groups']; [done|].
      destruct (std_sort_head_some _ _ Hs) as [? E]; [done|congruence].
Qed.

(** ** The boundaries of the groups *)

Section boundaries.
Context (C : Comparator) (HC : ComparatorOk C) (SC : StdChoices).
Context (files : list FileMetaData).
Hypothesis files_wf : ∀ f, f ∈ files → file_ok C f.

Abbreviation ikey_le := (cmp_le InternalKeyCompare).
Abbreviation ukey_le := (cmp_le Compare).
Abbreviation n := (length files).
Abbreviation entries := (grouped union_sets (skip_at files) (user_overlap_at files) n).

Lemma ukey_of_ikey a b : ikey_le a b → ukey_le (ExtractUserKey a) (ExtractUserKey b).
Proof using HC.
  unfold cmp_le. rewrite internal_compare_lex. unfold lex_compare, cmp_on. by destruct (Compare _ _).
Qed.

Definition ulo (i : nat) : key := ExtractUserKey (lo_at files i).
Definition uhi (i : nat) : key := ExtractUserKey (hi_at files i).

Lemma user_overlap_at_spec i j :
  (i < n)%nat → (j < n)%nat →
  user_overlap_at files i j = true ↔ ukey_le (ulo j) (uhi i) ∧ ukey_le (ulo i) (uhi j).
Proof using HC.
  intros [f Hf]%lookup_lt_is_Some [g Hg]%lookup_lt_is_Some.
  unfold user_overlap_at, ulo, uhi, lo_at, hi_at. rewrite Hf, Hg. apply user_overlap_iff, HC.
Qed.

Lemma covers_user_hull e g :
  e ∈ entries → group_files g = files_at files e.2 → covers C g →
  is_hull Compare ulo uhi e.2 (ExtractUserKey (group_smallest g)) (ExtractUserKey (group_largest g)).
Proof using HC.
  intros He Hg ((f & Hf & Ef) & Hlo & (h & Hh & Eh) & Hhi). rewrite Hg in *.
  apply elem_of_files_at in Hf as (i & Hi & Hfi). apply elem_of_files_at in Hh as (j & Hj & Hhj).
  assert (Hin : ∀ k, k ∈ e.2 → ∃ f, files !! k = Some f ∧ f ∈ files_at files e.2).
  { intros k Hk. destruct (grouped_act union_sets (skip_at files) (user_overlap_at files) n e k He Hk)
      as [[f' Hf']%lookup_lt_is_Some _]. exists f'. split; [done|]. apply elem_of_files_at. eauto. }
  unfold is_hull, ulo, uhi, lo_at, hi_at. split_and!.
  - exists i. by rewrite Hfi, <- Ef.
  - intros k Hk. destruct (Hin k Hk) as (f' & Hf' & Hel). rewrite Hf'. apply ukey_of_ikey. auto.
  - exists j. by rewrite Hhj, <- Eh.
  - intros k Hk. destruct (Hin k Hk) as (f' & Hf' & Hel). rewrite Hf'. apply ukey_of_ikey. auto.
Qed.

(** The groups by position: each is an entry with its hull. *)
Lemma info_lookup infos k g :
  infos = omap make_group ((λ e : nat * list nat, files_at files e.2) <$> entries) → infos !! k = Some g →
  ∃ e, entries !! k = Some e ∧ group_files g = files_at files e.2 ∧ covers C g.
Proof using HC.
  intros ->. rewrite lookup_omap_all, list_lookup_fmap.
  - destruct (entries !! k) as [e|] eqn:E; cbn; [|done]. intros Hg. exists e.
    apply list_elem_of_lookup_2 in E. destruct (entry_component C HC files e E) as [Hne _ _ _].
    destruct (make_group_spec C HC _ Hne) as (g' & Hg' & ? & ?). by simplify_eq.
  - apply Forall_fmap, Forall_forall. intros e He. destruct (entry_component C HC files e He) as [Hne _ _ _].
    destruct (make_group_spec C HC _ Hne) as (g' & Hg' & _). by exists g'.
Qed.

Lemma user_infos_disjoint infos p q g h :
  infos = omap make_group ((λ e : nat * list nat, files_at files e.2) <$> entries) →
  infos !! p = Some g → infos !! q = Some h → p ≠ q →
  Compare (ExtractUserKey (group_largest g)) (ExtractUserKey (group_smallest h)) = Lt ∨
  Compare (ExtractUserKey (group_largest h)) (ExtractUserKey (group_smallest g)) = Lt.
Proof using HC files_wf.
  intros Hi Hp Hq Hpq. destruct (info_lookup infos p g Hi Hp) as (e & He & Hg & Hcg).
  destruct (info_lookup infos q h Hi Hq) as (e' & He' & Hh & Hch).
  apply list_elem_of_lookup_2 in He as Hel. apply list_elem_of_lookup_2 in He' as Hel'.
  destruct (grouped_spec union_sets (skip_at files) (user_overlap_at files) n) as (_ & Hl & Hd).
  rewrite !(cmp_lt_iff Compare).
  apply (components_disjoint Compare (skip_at files) (user_overlap_at files) n ulo uhi)
    with (l := e.2) (l' := e'.2).
  - intros. by apply user_overlap_at_spec.
  - intros i [f Hf]%lookup_lt_is_Some _. unfold ulo, uhi, lo_at, hi_at. rewrite Hf.
    apply ukey_of_ikey, files_wf. by apply list_elem_of_lookup_2 in Hf.
  - apply Hl, Hel.
  - apply Hl, Hel'.
  - intros i. by apply (grouped_act union_sets (skip_at files) (user_overlap_at files) n).
  - intros i. by apply (grouped_act union_sets (skip_at files) (user_overlap_at files) n).
  - by apply covers_user_hull.
  - by apply covers_user_hull.
  - intros i j Hi' Hj. by apply (Hd p q e e').
Qed.

Abbreviation smaller_first := (λ a b : L0OverlappingGroup,
  match InternalKeyCompare (group_smallest a) (group_smallest b) with Lt => true | _ => false end).

Lemma smaller_first_swo : StrictWeakOrder smaller_first.
Proof using HC.
  apply (swo_of_compare (cmp_on group_smallest InternalKeyCompare)); [apply _|]. intros a b. unfold cmp_on.
  by destruct (InternalKeyCompare _ _).
Qed.

Lemma sorted_infos infos :
  infos ≡ₚ omap make_group ((λ e : nat * list nat, files_at files e.2) <$> entries) →
  let sorted := std_sort smaller_first infos in
  sorted ≡ₚ infos ∧
  ∀ i j g h, (i < j)%nat → sorted !! i = Some g → sorted !! j = Some h →
    Compare (ExtractUserKey (group_largest g)) (ExtractUserKey (group_smallest h)) = Lt.
Proof using HC files_wf.
  intros Hi. cbn zeta. pose proof (std_sort_perm _ smaller_first_swo infos) as Hp.
  pose proof (std_sort_sorted _ smaller_first_swo infos) as Hs. split; [done|]. intros i j g h Hij Hg Hh.
  assert (Hgh : ikey_le (group_smallest g) (group_smallest h)).
  { pose proof (StronglySorted_lookup _ _ i j g h Hs Hij Hg Hh) as H. cbn in H. unfold cmp_le.
    rewrite (compare_opp InternalKeyCompare). by destruct (InternalKeyCompare (group_smallest h) _). }
  assert (Hpe := Hp). rewrite Hi in Hpe at 2. destruct (Permutation_lookup_2 _ _ i j g h Hpe) as (i' & j' & Hg' & Hh' & Hne); [done|done|lia|].
  destruct (user_infos_disjoint _ i' j' g h eq_refl Hg' Hh' Hne) as [|H]; [done|]. exfalso.
  destruct (info_lookup _ j' h eq_refl Hh') as (e & He & Hfiles & (f & Hf & Ef) & _ & (f' & Hf' & Ef') & Hhi).
  apply (cmp_lt_iff Compare) in H. apply H, ukey_of_ikey.
  assert (Hfin : f ∈ files).
  { rewrite Hfiles in Hf. apply elem_of_files_at in Hf as (k & _ & Hk). by apply list_elem_of_lookup_2 in Hk. }
  pose proof (files_wf f Hfin) as Hw. unfold file_ok in Hw. pose proof (Hhi f Hf). rewrite Ef in Hw.
  order (cmp_le (@InternalKeyCompare C)).
Qed.
End boundaries.

(** The boundaries are the hulls of the groups, from left to right. *)
Lemma group_boundaries_spec (C : Comparator) (HC : ComparatorOk C) (SC : StdChoices) v :
  Forall (file_ok C) (LevelFiles v 0) → (1 < length (idle_files (LevelFiles v 0)))%nat →
  let bs := DetectL0GroupBoundaries v in
  length bs = length (user_groups (LevelFiles v 0)) ∧
  (∀ i j a b, (i < j)%nat → bs !! i = Some a → bs !! j = Some b → Compare a.2 b.1 = Lt) ∧
  (∀ b, b ∈ bs → ∃ fs, component C (LevelFiles v 0) fs ∧
     (∃ f, f ∈ fs ∧ smallest_ukey f = b.1) ∧ (∃ f, f ∈ fs ∧ largest_ukey f = b.2) ∧
     ∀ f, f ∈ fs → cmp_le Compare b.1 (smallest_ukey f) ∧ cmp_le Compare (largest_ukey f) b.2) ∧
  (∀ f, f ∈ idle_files (LevelFiles v 0) → ∃ b, b ∈ bs ∧
     cmp_le Compare b.1 (smallest_ukey f) ∧ cmp_le Compare (largest_ukey f) b.2).
Proof.
  intros Hwf Hn. cbn zeta. unfold DetectL0GroupBoundaries. destruct (Nat.leb_spec (length (idle_files (LevelFiles v 0))) 1);
    [lia|]. set (files := LevelFiles v 0) in *. rewrite Forall_forall in Hwf.
  set (infos := omap make_group (user_groups files)).
  pose proof (user_groups_components C HC files) as Hc. rewrite Forall_forall in Hc.
  assert (Hmk : ∀ fs, fs ∈ user_groups files → ∃ g, make_group fs = Some g ∧ group_files g = fs ∧ covers C g).
  { intros fs Hfs. by apply make_group_spec, Hc. }
  assert (Hall : Forall (λ fs, is_Some (make_group fs)) (user_groups files)).
  { apply Forall_forall. intros fs Hfs. destruct (Hmk fs Hfs) as (g & Hg & _). by exists g. }
  assert (Hlen : length infos = length (user_groups files)).
  { unfold infos. clear -Hall. induction Hall as [|fs l [g Hg] _ IH]; [done|]. cbn. rewrite Hg. cbn. by rewrite IH. }
  destruct (sorted_infos C HC SC files Hwf infos) as [Hp Hord].
  { unfold infos. by rewrite user_entries. }
  set (sorted := std_sort _ infos) in *.
  split_and!.
  - by rewrite length_fmap, Hp.
  - intros i j a b Hij. rewrite !list_lookup_fmap. intros (g & Hg & ->)%fmap_Some_1 (h & Hh & ->)%fmap_Some_1.
    by apply (Hord i j).
  - intros b (g & -> & Hg)%list_elem_of_fmap. rewrite Hp in Hg. apply list_elem_of_omap in Hg as (fs & Hfs & Hg).
    destruct (Hmk fs Hfs) as (g' & Hg' & <- & (f & Hf & Ef) & Hlo & (h & Hh & Eh) & Hhi). rewrite Hg in Hg'. injection Hg' as <-.
    exists (group_files g). cbn. rewrite <- Ef, <- Eh. split_and!; [by apply Hc|by exists f|by exists h|].
    rewrite Ef, Eh. intros x Hx. split; apply ukey_of_ikey; auto.
  - intros f Hf. destruct (user_groups_cover C files f Hf) as (fs & Hfs & Hin).
    destruct (Hmk fs Hfs) as (g & Hg & <- & _ & Hlo & _ & Hhi).
    eexists. split; [apply list_elem_of_fmap; exists g; split; [reflexivity|]|].
    + rewrite Hp. apply list_elem_of_omap. eauto.
    + cbn. split; apply ukey_of_ikey; auto.
Qed.

(** Nothing is picked when nothing is needed. *)
Lemma not_needed_nothing (C : Comparator) (SC : StdChoices) E o so p id random w :
  NeedsCompaction o w = false → (0 < input_levels o w)%nat → PickCompaction E o so p id random w = Some (None, p, w).
Proof.
  unfold NeedsCompaction. rewrite !orb_false_iff, !negb_false_iff, !Nat.eqb_eq, !length_zero_iff_nil.
  intros (((((H1 & H2) & H3) & H4) & H5) & H6) Hlev. unfold PickCompaction, SetupInitialFiles.
  assert (Hs : ∃ l, score_pick_loop o p (take (num_levels_option o - 1) (compaction_order_ w)) false (NewBuilder w) =
    (NewBuilder w) <| start_level_ := l |>).
  { destruct (compaction_order_ w) as [|[s l] ss]; [exists 0%nat; by rewrite take_nil|].
    destruct (num_levels_option o - 1)%nat; [by exists 0%nat|]. exists l. cbn [take score_pick_loop].
    destruct (input_levels o w); [lia|]. cbn [take existsb fst] in H6. apply orb_false_iff in H6 as [-> _]. done. }
  destruct Hs as (l & Hs). change (view (NewBuilder w)) with w. rewrite Hs. cbn.
  unfold PickFilesMarkedForCompaction. cbn. rewrite H4. unfold or_else. cbn. rewrite H3. cbn.
  unfold round_robin_ttl. cbn. rewrite H1. cbn. rewrite H1. cbn. rewrite H2. cbn. rewrite H5. done.
Qed.

(** ** Theorems *)

(** C21. [NeedsCompaction] misses nothing: when it answers no, [PickCompaction]
    finds no compaction either, and changes neither the picker nor the version. *)
Theorem needs_compaction_complete (C : Comparator) (SC : StdChoices) E o so p id random w :
  NeedsCompaction o w = false → (0 < input_levels o w)%nat → PickCompaction E o so p id random w = Some (None, p, w).
Proof. apply not_needed_nothing. Qed.


(** [DetectL0GroupBoundaries] returns one range per group of idle files: the
    ranges are disjoint and sorted by user key, each is the smallest range
    around a connected component, and every idle file lies within one. *)
Theorem group_boundaries_exact (C : Comparator) (SC : StdChoices) v :
  ComparatorOk C → Forall (file_ok C) (LevelFiles v 0) → (1 < length (idle_files (LevelFiles v 0)))%nat →
  let bs := DetectL0GroupBoundaries v in
  length bs = length (user_groups (LevelFiles v 0)) ∧
  (∀ i j a b, (i < j)%nat → bs !! i = Some a → bs !! j = Some b → Compare a.2 b.1 = Lt) ∧
  (∀ b, b ∈ bs → ∃ fs, component C (LevelFiles v 0) fs ∧
     (∃ f, f ∈ fs ∧ smallest_ukey f = b.1) ∧ (∃ f, f ∈ fs ∧ largest_ukey f = b.2) ∧
     ∀ f, f ∈ fs → cmp_le Compare b.1 (smallest_ukey f) ∧ cmp_le Compare (largest_ukey f) b.2) ∧
  (∀ f, f ∈ idle_files (LevelFiles v 0) → ∃ b, b ∈ bs ∧
     cmp_le Compare b.1 (smallest_ukey f) ∧ cmp_le Compare (largest_ukey f) b.2).
Proof. intros HC. by apply group_boundaries_spec. Qed.

(** ** Witnesses *)

#[local] Existing Instance BytewiseComparator.
#[local] Existing Instance simple_choices.


Lemma group_boundaries_exact_witness :
  DetectL0GroupBoundaries sample_prepared = [([x61], [x64]); ([x78], [x7a])] ∧
  ∀ f, f ∈ idle_files (LevelFiles sample_prepared 0) → ∃ b, b ∈ DetectL0GroupBoundaries sample_prepared ∧
     cmp_le Compare b.1 (smallest_ukey f) ∧ cmp_le Compare (largest_ukey f) b.2.
Proof.
  split; [vm_compute; reflexivity|].
  apply (group_boundaries_exact BytewiseComparator simple_choices sample_prepared).
  - apply bytewise_ok.
  - destruct sample_storage_ok as (_ & _ & H). eapply Forall_impl; [exact H|]. by intros f (_ & _ & ?).
  - vm_compute. lia.
Defined.

(** A version without files needs no compaction. *)
Definition empty_view : LevelView :=
  let w := sample_view in w <| vstorage := mkStorage [[]; []; []] 0 [] false [] ∅ |>.

Lemma needs_compaction_complete_witness :
  PickCompaction sample_env score_options sample_score_options (mkPicker [] []) 0 0 empty_view =
    Some (None, mkPicker [] [], empty_view).
Proof.
  apply (needs_compaction_complete BytewiseComparator simple_choices sample_env score_options sample_score_options).
  - vm_compute. reflexivity.
  - vm_compute. lia.
Defined.
