(* ===== verification/LevelPickerSound.v ===== *)
(** * Soundness of the level compaction picker

    The compaction that [LevelPicker.PickCompaction] returns, followed through
    the stages of the builder: its inputs are idle files of their levels, its
    output files are complete, and it conflicts with no running compaction. *)

From S2P Require Import Prelude Comparator DbFormat FileMeta UnionFind Grouping L0Groups VersionStorage Compaction CompactionPicker CompactionScore LevelPicker.

(** ** States of the builder *)

Section sound.
Context (C : Comparator) (HC : ComparatorOk C) (Hts : no_timestamps C) (SC : StdChoices).
Context (E : ScoreEnv) (o : CompactOptions) (so : ScoreOptions) (p : Picker) (w : LevelView).

Abbreviation v := (vstorage w).
Abbreviation sst_le := (cmp_le sstableKeyCompare).
Abbreviation start_files b := (in_files (start_level_inputs_ b)).

(** The picker changes nothing of the version but the positions. *)
Definition sees (b : Builder) : Prop := ∃ idx, view b = w <| next_file_to_compact_by_size_ := idx |>.

(** Nothing but the levels is decided. *)
Record fresh (b : Builder) : Prop := {
  fr_sees : sees b;
  fr_parent : parent_index_ b = -1;
  fr_base : base_index_ b = -1;
  fr_inputs : compaction_inputs_ b = [];
  fr_outputs : in_files (output_level_inputs_ b) = [];
  fr_trivial : is_l0_trivial_move_ b = false;
  fr_reason : compaction_reason_ b = kUnknown;
}.

Definition idle (b : Builder) : Prop := fresh b ∧ start_files b = [].

(** The oldest files of level 0, with nothing in their way below. *)
Definition movable (output : nat) (files : list FileMetaData) : Prop :=
  ∃ k, files ≡ₚ drop k (LevelFiles v 0) ∧
    ∀ f, f ∈ LevelFiles v output → ¬ touches C (GetRange (inputs_of 0 files)) f.

(** The levels are decided; without [use_new_flush], level 0 is taken only when
    no compaction of level 0 is running. *)
Definition levels_set (b : Builder) : Prop :=
  (output_level_ b = start_level_ b ∨ output_level_ b = next_output w (start_level_ b)) ∧
  (start_level_ b = 0%nat → use_new_flush o = 0 → level0_busy p = false).

(** The start level has been decided. *)
Record picked (b : Builder) : Prop := {
  pk_sees : sees b;
  pk_parent : parent_index_ b = -1;
  pk_inputs : compaction_inputs_ b = [];
  pk_outputs : in_files (output_level_inputs_ b) = [];
  pk_level : start_level_inputs_ b = inputs_of (start_level_ b) (start_files b);
  pk_chosen : chosen C v (start_level_ b) (start_files b);
  pk_free : is_l0_trivial_move_ b = false → AreFilesInCompaction (start_files b) = false;
  pk_trivial : is_l0_trivial_move_ b = true → start_level_ b = 0%nat ∧
    output_level_ b = next_output w 0 ∧ movable (output_level_ b) (start_files b);
  pk_base : base_ok v (start_level_ b) (start_files b) (base_index_ b);
  pk_output : levels_set b;
}.

Definition outcome (b : Builder) : Prop := picked b ∨ idle b.

Lemma sees_storage b : sees b → storage b = v ∧ base_level_ (view b) = base_level_ w.
Proof using Type. unfold storage. by intros [idx ->]. Qed.

Lemma fresh_levels b l l' : fresh b → fresh (b <| start_level_ := l |> <| output_level_ := l' |>).
Proof using Type. by intros []. Qed.

Lemma fresh_inputs b i : fresh b → fresh (b <| start_level_inputs_ := i |>).
Proof using Type. by intros []. Qed.

Lemma clear_idle b : fresh b → idle (clear_start b).
Proof using Type. intros Hb. split; [by apply fresh_inputs|done]. Qed.

(** A builder that just got its files. *)
Lemma picked_now b level files :
  fresh b → levels_set b → start_level_ b = level → chosen C v level files →
  AreFilesInCompaction files = false → picked (b <| start_level_inputs_ := inputs_of level files |>).
Proof using Type.
  intros [Hs Hp Hba Hi Ho Ht Hr] Hl <- Hc Hf. split; cbn; try done; [congruence|by left].
Qed.

Lemma picked_base b base :
  picked b → base_ok v (start_level_ b) (start_files b) base → picked (b <| base_index_ := base |>).
Proof using Type. by intros [] ?. Qed.

(** ** Single files *)

Context (Hok : storage_ok C v) (Hmarked : marked_sound w) (Hbase : 0 < base_level_ w).

Lemma block_single (fs : list FileMetaData) i f : fs !! i = Some f → block fs i (S i) = [f].
Proof using Type.
  intros Hf. unfold block. replace (S i - i)%nat with 1%nat by lia. by rewrite (drop_S fs f i Hf).
Qed.

Lemma block_snoc (gs : list FileMetaData) s e f : (s <= e)%nat → gs !! e = Some f → block gs s (S e) = block gs s e ++ [f].
Proof using Type.
  intros Hse Hf. unfold block. replace (S e - s)%nat with (S (e - s)) by lia.
  apply take_S_r. rewrite lookup_drop. by replace (s + (e - s))%nat with e by lia.
Qed.

Lemma block_cons (gs : list FileMetaData) s e f : (s < e)%nat → gs !! s = Some f → block gs s e = f :: block gs (S s) e.
Proof using Type.
  intros Hse Hf. unfold block. rewrite (drop_S gs f s Hf). by replace (e - s)%nat with (S (e - S s)) by lia.
Qed.

Lemma drop_cons_inv (gs : list FileMetaData) e f rest :
  drop e gs = f :: rest → gs !! e = Some f ∧ rest = drop (S e) gs.
Proof using Type.
  intros Hr. assert (Hf : gs !! e = Some f).
  { rewrite <- (Nat.add_0_r e), <- lookup_drop. by rewrite Hr. }
  split; [done|]. rewrite (drop_S gs f e Hf) in Hr. by injection Hr.
Qed.

Lemma reverse_take_inv (gs : list FileMetaData) s f rest :
  reverse (take s gs) = f :: rest → (s <= length gs)%nat →
  ∃ s', s = S s' ∧ gs !! s' = Some f ∧ rest = reverse (take s' gs).
Proof using Type.
  intros Hr Hs. destruct s as [|s]; [done|]. destruct (lookup_lt_is_Some_2 gs s) as [g Hg]; [lia|].
  rewrite (take_S_r gs s g Hg), reverse_app in Hr. injection Hr as <- <-. eauto.
Qed.

Lemma expand_single level i f :
  LevelFiles v level !! i = Some f → being_compacted f = false →
  ∃ files next ok, ExpandInputsToCleanCut v (inputs_of level [f]) None = (inputs_of level files, next, ok) ∧ f ∈ files ∧
    (ok = true → chosen C v level files ∧ AreFilesInCompaction files = false) ∧
    (files = [f] → level ≠ 0%nat → clean_at C (LevelFiles v level) i ∧ clean_at C (LevelFiles v level) (S i)).
Proof using HC Hts Hok.
  intros Hf Hb. apply list_elem_of_lookup_2 in Hf as Hin. pose proof (lookup_lt_Some _ _ _ Hf).
  destruct (decide (level = 0%nat)) as [->|Hl].
  - exists [f], None, true. split_and!; [done|left| |done]. intros _. split.
    + split; [done|]. rewrite decide_True by done. by intros g ->%list_elem_of_singleton.
    + apply not_compacting. by intros g ->%list_elem_of_singleton.
  - destruct (expand_clean_cut C HC v (proj1 Hok) level ltac:(lia) (storage_sorted C HC Hts v Hok level ltac:(lia))
      i (S i) None ltac:(lia)) as (s & e & (H1 & H2 & Hcs & Hce & _) & Hex).
    rewrite (block_single _ _ _ Hf) in Hex. eexists _, _, _. split; [exact Hex|]. split_and!.
    + apply block_elem. exists i. split; [lia|done].
    + intros Hfree%negb_true_iff. split; [|done]. split; [|].
      * intros En%(f_equal length). rewrite block_length in En by lia. cbn in En. lia.
      * rewrite decide_False by done. exists s, e. split_and!; [lia|lia|done|done|done].
    + intros En%(f_equal length) _. rewrite block_length in En by lia. cbn in En.
      replace i with s by lia. by replace (S s) with e by lia.
Qed.

(** ** Lists of marked files *)

Lemma pick_marked_spec kind level_files b :
  (∀ l f, (l, f) ∈ level_files → f ∈ LevelFiles v l ∧ being_compacted f = false) →
  fresh b → outcome (PickMarkedFile o p kind level_files b).
Proof using HC Hts Hok.
  intros Hall. revert b. induction level_files as [|[level f] rest IH]; intros b Hb; cbn [PickMarkedFile].
  { right. by apply clear_idle. }
  assert (IH' : ∀ b, fresh b → outcome (PickMarkedFile o p kind rest b)).
  { intros b' Hb'. apply IH; [|done]. intros l g Hg. apply Hall. by right. }
  set (b1 := b <| start_level_ := level |>).
  assert (Hb1 : fresh b1) by (by destruct Hb).
  destruct (_ && _); [by apply IH'|].
  destruct ((level =? 0)%nat && (use_new_flush o =? 0) && level0_busy p) eqn:Equiet; [by apply IH'|].
  destruct (sees_storage b1 (fr_sees b1 Hb1)) as [Es _]. rewrite Es.
  set (output := if _ && _ then _ else _).
  assert (Hout : output = level ∨ output = next_output w level).
  { unfold output. destruct (negb (bool_decide (kind = kNo)) && _); [right|by left]. unfold next_output.
    destruct (fr_sees b1 Hb1) as [idx Hv]. by rewrite Hv. }
  destruct (Hall level f ltac:(left)) as [(i & Hi)%list_elem_of_lookup_1 Hc].
  destruct (expand_single level i f Hi Hc) as (files & next & ok & Hex & _ & Hpick & _). rewrite Hex.
  destruct ok; [|apply IH', fresh_inputs; by destruct Hb1].
  destruct (Hpick eq_refl) as [Hch Hfree]. left.
  apply (picked_now (b1 <| output_level_ := output |>) level files); try done; [by destruct Hb1|]. split; [done|].
  cbn. intros -> Hu. by rewrite Hu in Equiet.
Qed.

Lemma try_marked_spec level f b :
  f ∈ LevelFiles v level → being_compacted f = false → fresh b →
  let '(b', ok) := try_marked p (level, f) b in if ok : bool then picked b' else fresh b'.
Proof using HC Hts Hok.
  intros (i & Hi)%list_elem_of_lookup_1 Hc Hb. unfold try_marked. 
  set (b1 := b <| start_level_ := level |> <| output_level_ := next_output (view b) level |>).
  assert (Hb1 : fresh b1) by (by apply fresh_levels).
  destruct ((level =? 0)%nat && level0_busy p) eqn:Equiet; [done|].
  destruct (sees_storage b1 (fr_sees b1 Hb1)) as [-> _].
  destruct (expand_single level i f Hi Hc) as (files & next & ok & Hex & _ & Hpick & _). rewrite Hex.
  destruct ok; [|by apply fresh_inputs]. destruct (Hpick eq_refl) as [Hch Hfree].
  apply picked_now; try done. split; [|by intros E0 _; cbn in E0; subst level].
  right. cbn. unfold next_output. by destruct (fr_sees b Hb) as [idx ->].
Qed.

Lemma try_all_marked_spec level_files b :
  (∀ l f, (l, f) ∈ level_files → f ∈ LevelFiles v l ∧ being_compacted f = false) →
  fresh b → outcome (try_all_marked p level_files b).
Proof using HC Hts Hok.
  intros Hall. revert b. induction level_files as [|[level f] rest IH]; intros b Hb; cbn [try_all_marked].
  { right. by apply clear_idle. }
  destruct (Hall level f ltac:(left)) as [Hf Hc]. pose proof (try_marked_spec level f b Hf Hc Hb) as Ht.
  destruct (try_marked p (level, f) b) as [b' []]; [by left|]. apply IH; [|done]. intros l g Hg. apply Hall. by right.
Qed.

Lemma pick_marked_files_spec random b : idle b → outcome (PickFilesMarkedForCompaction p random b).
Proof using HC Hts Hok Hmarked.
  intros [Hb He]. unfold PickFilesMarkedForCompaction. destruct (fr_sees b Hb) as [idx Hv].
  assert (Hall : ∀ l f, (l, f) ∈ files_marked_for_compaction_ (view b) → f ∈ LevelFiles v l ∧ being_compacted f = false).
  { intros l f Hf. apply Hmarked, elem_of_app. left. by rewrite Hv in Hf. }
  destruct (files_marked_for_compaction_ (view b)) as [|x marked'] eqn:Em; [by right|].
  set (marked := x :: marked') in *. destruct (marked !! _) as [[level f]|] eqn:El; [|by right].
  destruct (Hall level f) as [Hf Hc]; [by apply list_elem_of_lookup_2 in El|].
  pose proof (try_marked_spec level f b Hf Hc Hb) as Ht.
  destruct (try_marked p (level, f) b) as [b' []]; [by left|]. by apply try_all_marked_spec.
Qed.

(** ** Extending a trivial move *)

Section extend.
Context (level : nat) (Hl : (0 < level)%nat) (output : nat) (max_bytes : Z).
Abbreviation gs := (LevelFiles v level).

Lemma differs_clean i f g :
  gs !! i = Some f → gs !! S i = Some g → CompareUser (largest_ukey f) (smallest_ukey g) ≠ Eq → clean_at C gs (S i).
Proof using HC Hts Hok Hl.
  intros Hf Hg Hne f' g' _ Hf' Hg' Hle%sst_le_user; [|done]. rewrite Nat.sub_succ, Nat.sub_0_r in Hf'. simplify_eq.
  pose proof (storage_sorted C HC Hts v Hok level Hl) as Hs.
  pose proof (sorted_apart C gs Hs i (S i) f g Hf Hg ltac:(lia)) as Hap%sst_le_user; [|done].
  apply Hne, (cmp_eq_iff CompareUser). by split.
Qed.

(** A free clean block. *)
Definition clean_free (s e : nat) : Prop :=
  (s < e <= length gs)%nat ∧ clean_at C gs s ∧ clean_at C gs e ∧ AreFilesInCompaction (block gs s e) = false.

Lemma extend_right_spec lo rest s e size :
  clean_free s e → rest = drop e gs →
  ∃ e' size', clean_free s e' ∧ (e <= e')%nat ∧
    extend_right v output max_bytes lo rest (block gs s e) size = (block gs s e', size').
Proof using HC Hts Hok Hl.
  revert e size. induction rest as [|f rest IH]; intros e size Hcf Hr; cbn [extend_right].
  { by exists e, size. }
  destruct (drop_cons_inv gs e f rest (eq_sym Hr)) as [Hf Hrest].
  destruct (_ || _ || _ || _) eqn:Estop; [by exists e, size|].
  rewrite !orb_false_iff in Estop. destruct Estop as (((_ & Hidle) & _) & Hnext).
  destruct (max_bytes <? _); [by eexists e, _|]. destruct Hcf as (Hse & Hcs & Hce & Hfree).
  pose proof (lookup_lt_Some _ _ _ Hf). rewrite <- (block_snoc gs s e f) by (lia || done).
  destruct (IH (S e) (size +64 GetFileSize f)) as (e' & size' & Hcf' & He' & ->); [|done|exists e', size'; split_and!; [done|lia|done]].
  split_and!; [lia|lia|done| |].
  - destruct (gs !! S e) as [g|] eqn:Eg; [|apply clean_at_end; by apply lookup_ge_None in Eg].
    apply (differs_clean e f g Hf Eg). rewrite Hrest, (drop_S gs g (S e) Eg) in Hnext.
    by destruct (CompareUser (largest_ukey f) (smallest_ukey g)).
  - rewrite (block_snoc gs s e f) by (lia || done). apply not_compacting. intros g [Hg| ->%list_elem_of_singleton]%elem_of_app; [|done].
    by apply (proj1 (not_compacting _) Hfree).
Qed.

Lemma extend_left_spec hi rest s e size :
  clean_free s e → rest = reverse (take s gs) →
  ∃ s', clean_free s' e ∧ (s' <= s)%nat ∧
    extend_left v output max_bytes hi rest (block gs s e) size = block gs s' e.
Proof using HC Hts Hok Hl.
  revert s size. induction rest as [|f rest IH]; intros s size Hcf Hr; cbn [extend_left].
  { by exists s. }
  destruct (reverse_take_inv gs s f rest (eq_sym Hr)) as (s' & -> & Hf & Hrest); [destruct Hcf; lia|].
  destruct (_ || _ || _ || _) eqn:Estop; [by exists (S s')|].
  rewrite !orb_false_iff in Estop. destruct Estop as (((_ & Hidle) & _) & Hnext).
  destruct (max_bytes <? _); [by exists (S s')|]. destruct Hcf as (Hse & Hcs & Hce & Hfree).
  rewrite <- (block_cons gs s' e f) by (lia || done).
  destruct (IH s' (size +64 GetFileSize f)) as (s2 & Hcf' & Hs2 & ->); [|done|exists s2; split_and!; [done|lia|done]].
  split_and!; [lia|lia| |done|].
  - destruct s' as [|s']; [intros ? ? ?; lia|].
    destruct (lookup_lt_is_Some_2 gs s') as [g Hg]; [lia|]. apply (differs_clean s' g f Hg Hf).
    rewrite Hrest, (take_S_r gs s' g Hg), reverse_app in Hnext. cbn in Hnext.
    rewrite (compare_opp CompareUser). by destruct (CompareUser (smallest_ukey f) (largest_ukey g)).
  - rewrite (block_cons gs s' e f) by (lia || done). apply not_compacting. intros g [->|Hg]%elem_of_cons; [done|].
    by apply (proj1 (not_compacting _) Hfree).
Qed.
End extend.

(** Other files of the start level, in place of the ones picked. *)
Lemma picked_files b files :
  picked b → is_l0_trivial_move_ b = false → base_index_ b = -1 → chosen C v (start_level_ b) files →
  AreFilesInCompaction files = false →
  picked (b <| start_level_inputs_ := inputs_of (in_level (start_level_inputs_ b)) files |>).
Proof using Type.
  intros [Hs Hp Hi Ho Hlv Hch Hfr Htr Hb Hout] Ht Hbase' Hc Hf. rewrite Hlv.
  split; cbn; try done; [congruence|]. left. exact Hbase'.
Qed.

Lemma clean_free_chosen level s e : (0 < level)%nat → clean_free level s e → chosen C v level (block (LevelFiles v level) s e).
Proof using Type.
  intros Hl (Hse & Hcs & Hce & _). split.
  - intros En%(f_equal length). rewrite block_length in En by lia. cbn in En. lia.
  - rewrite decide_False by lia. by exists s, e.
Qed.

Lemma try_extend_spec b i f right :
  picked b → is_l0_trivial_move_ b = false → base_index_ b = -1 → (0 < start_level_ b)%nat →
  LevelFiles v (start_level_ b) !! i = Some f → f ∈ start_files b →
  (start_files b = [f] → clean_at C (LevelFiles v (start_level_ b)) i ∧ clean_at C (LevelFiles v (start_level_ b)) (S i)) →
  let b' := (TryExtendNonL0TrivialMove o i right b).1 in
  picked b' ∧ f ∈ start_files b' ∧ start_level_ b' = start_level_ b ∧ base_index_ b' = -1 ∧
  is_l0_trivial_move_ b' = false ∧ compaction_reason_ b' = compaction_reason_ b ∧ output_level_ b' = output_level_ b.
Proof using HC Hts Hok.
  intros Hb Ht Hbi Hl Hf Hin Hcl. unfold TryExtendNonL0TrivialMove.
  destruct (start_files b) as [|g [|h fs]] eqn:Efs; [by apply not_elem_of_nil in Hin| |].
  2:{ cbn zeta. cbn [fst]. rewrite Efs. by split_and!. }
  apply list_elem_of_singleton in Hin as <-. destruct (Hcl eq_refl) as [Hcs Hce].
  destruct (_ && _); [|cbn zeta; cbn [fst]; rewrite Efs; split_and!; try done; left].
  destruct (sees_storage b (pk_sees b Hb)) as [-> _]. set (gs := LevelFiles v (start_level_ b)) in *.
  pose proof (lookup_lt_Some _ _ _ Hf). pose proof (block_single gs i f Hf) as Hbl.
  assert (Hcf : clean_free (start_level_ b) i (S i)).
  { unfold clean_free. fold gs. split_and!; [lia|lia|done|done|]. rewrite Hbl. rewrite <- Efs. by apply (pk_free b Hb). }
  destruct (extend_right_spec (start_level_ b) Hl (output_level_ b) (max_compaction_bytes o) (smallest f)
    (drop (S i) gs) i (S i) (GetFileSize f) Hcf eq_refl) as (e' & size' & Hcf' & He' & Hr).
  fold gs in Hr. rewrite Hbl in Hr. rewrite Hr.
  assert (Hfin : ∃ s' files, files = block gs s' e' ∧ (s' <= i)%nat ∧ clean_free (start_level_ b) s' e' ∧
    (if right then block gs i e' else extend_left v (output_level_ b) (max_compaction_bytes o) (largest f)
      (reverse (take i gs)) (block gs i e') size') = files).
  { destruct right; [by exists i, (block gs i e')|].
    destruct (extend_left_spec (start_level_ b) Hl (output_level_ b) (max_compaction_bytes o) (largest f)
      (reverse (take i gs)) i e' size' Hcf' eq_refl) as (s' & Hcf2 & Hs' & El).
    exists s', (block gs s' e'). by split_and!. }
  destruct Hfin as (s' & files & Efiles & Hs' & Hcf2 & ->). subst files. cbn [fst].
  pose proof (clean_free_chosen (start_level_ b) s' e' Hl Hcf2) as Hch.
  split_and!; try done.
  - apply picked_files; try done. apply Hcf2.
  - cbn. apply block_elem. exists i. split; [lia|done].
Qed.

(** ** The files of a level by priority *)

(** The fields that the selection of files leaves alone. *)
Definition kept (b b' : Builder) : Prop :=
  start_level_ b' = start_level_ b ∧ output_level_ b' = output_level_ b ∧
  compaction_reason_ b' = compaction_reason_ b ∧ is_l0_trivial_move_ b' = is_l0_trivial_move_ b.

Definition ready (b : Builder) : Prop :=
  idle b ∧ levels_set b ∧ start_level_inputs_ b = inputs_of (start_level_ b) [].

Lemma ready_clear b i : ready b → ready (clear_start (b <| start_level_inputs_ := inputs_of (start_level_ b) i |>)).
Proof using Type. intros ([Hb He] & Hl & Hi). split_and!; [split; [by destruct Hb|done]|done|done]. Qed.

Lemma candidate_loop_spec indices cmp_idx b :
  ready b →
  let '(b', r) := candidate_loop o p indices cmp_idx b in
  outcome b' ∧ (r = None → idle b') ∧ kept b b'.
Proof using HC Hts Hok.
  revert cmp_idx b. induction indices as [|index rest IH]; intros cmp_idx b Hr; cbn [candidate_loop].
  { split_and!; try done. right. apply Hr. }
  set (round_robin := bool_decide (compaction_pri o = kRoundRobin)).
  assert (Hskip : ∀ b1, ready b1 → kept b b1 →
    let '(b', r) := if round_robin then (b1, None) else candidate_loop o p rest (S cmp_idx) b1 in
    outcome b' ∧ (r = None → idle b') ∧ kept b b').
  { intros b1 Hr1 (K1 & K2 & K3 & K4). destruct round_robin.
    - split_and!; try done; [right|intros _]; apply Hr1.
    - specialize (IH (S cmp_idx) b1 Hr1). destruct (candidate_loop _ _ _ _ _) as [b' r].
      destruct IH as (H1 & H2 & (L1 & L2 & L3 & L4)). split_and!; try done; unfold kept; split_and!; congruence. }
  destruct Hr as ([Hb He] & Hset & Hi). destruct (sees_storage b (fr_sees b Hb)) as [Es _]. rewrite Es.
  destruct (LevelFiles v (start_level_ b) !! index) as [f|] eqn:Ef.
  2:{ split_and!; try done. by right. }
  destruct (being_compacted f) eqn:Ebc; [by apply Hskip; [split_and!|]|].
  destruct (expand_single (start_level_ b) index f Ef Ebc) as (files & next & ok & Hex & Hfin & Hpick & Hcl).
  rewrite Hi. cbn [in_level in_files inputs_of app]. rewrite Hex.
  assert (Hclear : ready (clear_start (b <| start_level_inputs_ := inputs_of (start_level_ b) files |>))).
  { apply ready_clear. by split_and!. }
  destruct (negb ok || _) eqn:Ebad; [by apply Hskip|]. apply orb_false_iff in Ebad as [Hok'%negb_false_iff _].
  destruct (Hpick Hok') as [Hch Hfree]. pose proof (picked_now b (start_level_ b) files Hb Hset eq_refl Hch Hfree) as Hpk.
  set (b1 := b <| start_level_inputs_ := inputs_of (start_level_ b) files |>) in *.
  assert (Hbase' : base_ok v (start_level_ b) files (Z.of_nat index)).
  { right. split; [lia|]. exists f. by rewrite Nat2Z.id. }
  destruct (GetRange (inputs_of (start_level_ b) files)) as [lo hi].
  change (storage b1) with (storage b). rewrite Es.
  destruct (overlapping v (output_level_ b1) lo hi) as [|g outs].
  - destruct (0 <? start_level_ b1)%nat eqn:E0.
    + apply Nat.ltb_lt in E0.
      destruct (try_extend_spec b1 index f round_robin Hpk (fr_trivial b Hb) (fr_base b Hb) E0 Ef Hfin)
        as (P1 & P2 & P3 & P4 & P5 & P6 & P7).
      { intros En. apply Hcl; [exact En|]. cbn in E0 |- *. lia. }
      destruct (TryExtendNonL0TrivialMove o index round_robin b1) as [b' ext]. cbn [fst] in *.
      assert (Hk : kept b b') by (unfold kept; rewrite P3, P5, P6, P7, (fr_trivial b Hb); done).
      destruct ext; (split_and!; [left|done|exact Hk]); [done|]. apply picked_base; [done|].
      rewrite P3. right. split; [lia|]. exists f. by rewrite Nat2Z.id.
    + split_and!; try done. left. by apply picked_base.
  - destruct (ExpandInputsToCleanCut v (inputs_of (output_level_ b1) (g :: outs)) None) as [[? ?] free]. destruct (negb free); [by apply Hskip|].
    split_and!; try done. left. by apply picked_base.
Qed.

Lemma pick_by_priority_spec b :
  ready b → let '(b', ok) := pick_by_priority o p b in
  (if ok : bool then picked b' else idle b') ∧ kept b b'.
Proof using HC Hts Hok.
  intros Hr. unfold pick_by_priority. pose proof (candidate_loop_spec (drop (default O (next_file_to_compact_by_size_
    (view b) !! start_level_ b)) (default [] (files_by_compaction_pri_ (view b) !! start_level_ b)))
    (default O (next_file_to_compact_by_size_ (view b) !! start_level_ b)) b Hr) as Hs.
  destruct (candidate_loop _ _ _ _ _) as [b' [i|]]; [|destruct Hs as (_ & Hn & Hk); split; [by apply Hn|done]].
  destruct Hs as (Ho & _ & Hk).
  set (b2 := if bool_decide (compaction_pri o = kRoundRobin) then b' else _).
  assert (Ho2 : outcome b2 ∧ kept b b2).
  { unfold b2. case_bool_decide; [done|]. split; [|done].
    destruct Ho as [[[idx Hv] ]|[[[idx Hv] ] Hempty]]; [left|right; split; [|done]]; (split; try done);
      (exists (<[start_level_ b:=i]> (next_file_to_compact_by_size_ (view b')))); cbn; by rewrite Hv. }
  destruct Ho2 as [[Hp|[Hf He]] Hk2]; (split; [|done]).
  - unfold in_empty. destruct (pk_chosen b2 Hp) as [Hne _]. by destruct (start_files b2).
  - unfold in_empty. by rewrite He.
Qed.

(** ** Trivial moves from level 0 *)

Abbreviation ikey_le := (cmp_le InternalKeyCompare).

(** The range of the files taken meets nothing in the output level. *)
Definition clear_range (output : nat) (files : list FileMetaData) (lo hi : key) : Prop :=
  bound_ok lo ∧ bound_ok hi ∧ ikey_le lo hi ∧
  (∀ f, f ∈ files → ikey_le lo (smallest f) ∧ ikey_le (largest f) hi) ∧ overlapping v output lo hi = [].

Definition taken_ok (output : nat) (files : list FileMetaData) (bounds : option (key * key)) : Prop :=
  match bounds with Some (lo, hi) => clear_range output files lo hi | None => files = [] end.

Lemma trivial_loop_spec output rest files bounds :
  Forall (bounds_ok C) rest → taken_ok output files bounds →
  ∃ n, trivial_loop v output rest bounds = take n rest ∧
    (files ++ take n rest = [] ∨ ∃ lo hi, clear_range output (files ++ take n rest) lo hi).
Proof using HC.
  revert files bounds. induction rest as [|f rest IH]; intros files bounds Hrest Hb; cbn [trivial_loop].
  { exists 0%nat. split; [done|]. cbn. rewrite app_nil_r. destruct bounds as [[lo hi]|]; [right; by exists lo, hi|by left]. }
  apply Forall_cons in Hrest as [(B1 & B2 & B3) Hrest].
  assert (Hstop : ∃ n, [] = take n (f :: rest) ∧ (files ++ take n (f :: rest) = [] ∨
    ∃ lo hi, clear_range output (files ++ take n (f :: rest)) lo hi)).
  { exists 0%nat. split; [done|]. cbn. rewrite app_nil_r. destruct bounds as [[lo hi]|]; [right; by exists lo, hi|by left]. }
  set (bounds' := match bounds with None => _ | Some _ => _ end).
  assert (Hb' : ∀ lo hi, bounds' = Some (lo, hi) → overlapping v output lo hi = [] →
    clear_range output (files ++ [f]) lo hi).
  { unfold bounds', clear_range. intros lo hi Hlh Hov. destruct bounds as [[lo0 hi0]|]; cbn in Hb.
    - destruct Hb as (C1 & C2 & C3 & C4 & _).
      assert (Hnew : (∀ g, g ∈ files → ikey_le lo (smallest g) ∧ ikey_le (largest g) hi) ∧
        ikey_le lo (smallest f) ∧ ikey_le (largest f) hi ∧ bound_ok lo ∧ bound_ok hi ∧ ikey_le lo hi).
      { cmp_case (@InternalKeyCompare C) (largest f) lo0.
        2: injection Hlh as <- <-.
        1,3: cmp_case (@InternalKeyCompare C) (smallest f) hi0; try discriminate Hlh; injection Hlh as <- <-.
        all: split_and!; try done; try order (cmp_le (@InternalKeyCompare C)).
        all: intros g Hg; destruct (C4 g Hg); split; order (cmp_le (@InternalKeyCompare C)). }
      destruct Hnew as (H1 & H2 & H3 & H4 & H5 & H6). split_and!; try done.
      intros g [Hg| ->%list_elem_of_singleton]%elem_of_app; [by apply H1|done].
    - injection Hlh as <- <-. subst files. split_and!; try done. intros g ->%list_elem_of_singleton.
      split; order (cmp_le (@InternalKeyCompare C)). }
  destruct bounds' as [[lo hi]|] eqn:Eb'; [|done]. destruct (overlapping v output lo hi) as [|g gs] eqn:Eov; [|done].
  destruct (IH (files ++ [f]) (Some (lo, hi)) Hrest) as (n & -> & Hn); [by apply Hb'|].
  exists (S n). split; [done|]. cbn. by rewrite <- app_assoc in Hn.
Qed.

Lemma no_overlap_touches output lo hi f :
  (0 < output)%nat → overlapping v output lo hi = [] → f ∈ LevelFiles v output → ¬ touches C (lo, hi) f.
Proof using HC Hts Hok.
  intros Hout Hov Hf. unfold overlapping in Hov.
  destruct (output_search C HC Hts v Hok output Hout (lo, hi) (-1) (-1)) as [[_ Hn]|(s & e & _ & Hne & _)]; [by left|by apply Hn|].
  by destruct Hne.
Qed.

Lemma clear_range_movable output files lo hi :
  (0 < output)%nat → files ≠ [] → files ⊆ LevelFiles v 0 → clear_range output files lo hi →
  ∀ f, f ∈ LevelFiles v output → ¬ touches C (GetRange (inputs_of 0 files)) f.
Proof using HC Hts Hok.
  intros Hout Hne Hsub (B1 & B2 & _ & Hall & Hov) f Hf [T1 T2].
  apply (no_overlap_touches output lo hi f Hout Hov Hf).
  destruct (level0_range_of C HC Hts v Hok files Hne Hsub) as ((g & Hg & Eg) & (h & Hh & Eh) & _).
  rewrite <- Eg in T1. rewrite <- Eh in T2. destruct (Hall g Hg) as [G1 _], (Hall h Hh) as [_ H2].
  destruct (storage_bounds C v Hok 0 g (Hsub g Hg)) as (Bg & _ & _).
  destruct (storage_bounds C v Hok 0 h (Hsub h Hh)) as (_ & Bh & _).
  apply (internal_sst C HC) in G1; [|done..]. apply (internal_sst C HC) in H2; [|done..].
  split; cbn in *; order (cmp_le sstableKeyCompare).
Qed.

Lemma next_output_pos level : (0 < next_output w level)%nat.
Proof using Hbase. unfold next_output. destruct (level =? 0)%nat; lia. Qed.

Lemma by_smallest_swo : StrictWeakOrder (λ f1 f2, match InternalKeyCompare (smallest f1) (smallest f2) with
  Lt => true | _ => false end).
Proof using HC.
  apply (swo_of_compare (cmp_on smallest InternalKeyCompare)); [apply _|]. intros a b. unfold cmp_on.
  by destruct (InternalKeyCompare _ _).
Qed.

Lemma try_trivial_spec b :
  ready b → output_level_ b = next_output w (start_level_ b) →
  match TryPickL0TrivialMove o b with
  | (b', true) => picked b' ∧ is_l0_trivial_move_ b' = true ∧ start_level_ b' = start_level_ b ∧
                  compaction_reason_ b' = compaction_reason_ b
  | (b', false) => b' = b
  end.
Proof using HC Hts Hok Hbase.
  intros ([Hb He] & Hset & Hi) Hout. unfold TryPickL0TrivialMove. destruct (_ <=? 0); [done|].
  rewrite He. cbn [app]. destruct (sees_storage b (fr_sees b Hb)) as [-> _].
  destruct (_ && _ && _ && _) eqn:Econd; [|done]. rewrite !andb_true_iff, Nat.eqb_eq in Econd.
  destruct Econd as (((E0 & _) & _) & _). rewrite E0.
  destruct (trivial_loop_spec (output_level_ b) (reverse (LevelFiles v 0)) [] None) as (n & -> & Hn); [|done|].
  { destruct Hok as (_ & _ & H0). by rewrite reverse_Permutation. }
  rewrite take_reverse in Hn |- *. cbn [app] in Hn. set (k := (length (LevelFiles v 0) - n)%nat) in *.
  destruct (reverse (drop k (LevelFiles v 0))) as [|f fs] eqn:Efs; [done|]. rewrite <- Efs.
  set (moved := reverse _) in *. destruct Hn as [Hn|(lo & hi & Hclear)]; [congruence|].
  set (sorted := std_sort _ moved).
  assert (Hp : sorted ≡ₚ drop k (LevelFiles v 0)).
  { unfold sorted. rewrite std_sort_perm by apply by_smallest_swo. unfold moved. apply reverse_Permutation. }
  assert (Hsub : sorted ⊆ LevelFiles v 0).
  { intros g. rewrite Hp. apply subseteq_drop. }
  assert (Hne : sorted ≠ []).
  { intros Es. rewrite Es in Hp. apply Permutation_nil_l in Hp. unfold moved in Efs. by rewrite <- Hp in Efs. }
  assert (Hmv : movable (output_level_ b) sorted).
  { exists k. split; [done|]. apply (clear_range_movable _ _ lo hi); try done; [rewrite Hout; apply next_output_pos|].
    destruct Hclear as (C1 & C2 & C3 & C4 & C5). split_and!; try done. intros g Hg. apply C4.
    rewrite <- Efs. unfold moved. by rewrite reverse_Permutation, <- Hp. }
  assert (Hch : chosen C v 0 sorted) by (split; [done|]; by rewrite decide_True).
  split_and!; try done. destruct Hb as [Hs Hpar Hba Hci Ho Htr Hre]. rewrite Hi. cbn [in_level inputs_of].
  split; cbn; rewrite ?E0; try done; [intros _; split_and!; [done|by rewrite Hout, E0|done]|by left|].
  destruct Hset as [_ Hq].
  split; cbn; [right; by rewrite Hout, E0|intros _; by apply Hq].
Qed.

Lemma idle_chosen files :
  files ≠ [] → files ⊆ idle_files (LevelFiles v 0) → chosen C v 0 files ∧ AreFilesInCompaction files = false.
Proof using Type.
  intros Hne Hsub. assert (Hin : ∀ f, f ∈ files → f ∈ LevelFiles v 0 ∧ being_compacted f = false).
  { intros f Hf%Hsub. unfold idle_files in Hf. by apply list_elem_of_filter in Hf as [? ?]. }
  split; [split; [done|]; rewrite decide_True by done; intros f Hf; by apply Hin|].
  apply not_compacting. intros f Hf. by apply Hin.
Qed.

Lemma found_group_idle files g :
  g ∈ FindL0OverlappingGroups files → group_files g ≠ [] ∧ group_files g ⊆ idle_files files.
Proof using HC.
  rewrite find_groups_perm. intros (k & Hk)%list_elem_of_lookup_1.
  destruct (unsorted_lookup C HC files k g Hk) as (e & He & -> & _). apply list_elem_of_lookup_2 in He. split.
  - by apply (entry_nonempty C files unite (skip_at files)).
  - intros f (i & Hi & Hf)%elem_of_files_at. apply elem_of_idle. exists i. split; [done|].
    by destruct (entry_act C files unite (skip_at files) e i He Hi).
Qed.

Lemma suitable_idle min get max files g :
  suitable_group min get max (FindL0OverlappingGroups files) = Some g →
  group_files g ≠ [] ∧ group_files g ⊆ idle_files files.
Proof using HC. intros [Hin _]%find_some. apply found_group_idle. by apply list_elem_of_In. Qed.

(** ** Compactions within level 0 *)

(** A builder that took idle files of level 0. *)
Lemma picked_idle b files :
  fresh b → start_level_ b = 0%nat → levels_set b → files ≠ [] → files ⊆ idle_files (LevelFiles v 0) →
  picked (b <| start_level_inputs_ := inputs_of 0 files |>).
Proof using Type.
  intros Hb E0 Hset Hne Hsub. destruct (idle_chosen files Hne Hsub) as [Hch Hfree].
  by apply picked_now.
Qed.

Lemma size_intra_spec b :
  fresh b → start_level_ b = 0%nat →
  match PickSizeBasedIntraL0Compaction o b with
  | (b', true) => picked b' ∧ is_l0_trivial_move_ b' = false ∧ start_level_ b' = 0%nat ∧ output_level_ b' = 0%nat ∧
                  compaction_reason_ b' = compaction_reason_ b
  | (b', false) => b' = b
  end.
Proof using HC.
  intros Hb E0. unfold PickSizeBasedIntraL0Compaction. destruct (negb _); [done|]. destruct (_ <=? 0); [done|].
  destruct (_ <? _)%nat; [done|]. destruct (_ <=? _); [done|]. destruct (Z.eqb_spec (use_new_flush o) 0) as [|Hnf]; [done|]. cbn [negb].
  destruct (sees_storage b (fr_sees b Hb)) as [-> _].
  destruct (suitable_group _ _ _ _) as [g|] eqn:Eg; [|done]. apply suitable_idle in Eg as [Hne Hsub].
  split_and!; try done; [|by destruct Hb].
  apply (picked_idle (b <| output_level_ := 0%nat |>)); try done; [by destruct Hb|]. by split; [left|].
Qed.

Lemma intra_spec b :
  fresh b → start_level_ b = 0%nat →
  match PickIntraL0Compaction o b with
  | (b', true) => picked (b' <| output_level_ := 0%nat |>) ∧ is_l0_trivial_move_ b' = false ∧
                  start_level_ b' = 0%nat
  | (b', false) => b' = b ∨ b' = clear_start b
  end.
Proof using HC.
  intros Hb E0. unfold PickIntraL0Compaction. destruct (negb _); [by left|].
  destruct (_ || _); [by right|].
  destruct (Z.eqb_spec (use_new_flush o) 0) as [|Hnf]; [by right|]. cbn [negb].
  change (storage (clear_start b)) with (storage b). destruct (sees_storage b (fr_sees b Hb)) as [-> _].
  destruct (suitable_group _ _ _ _) as [g|] eqn:Eg; [|by right]. apply suitable_idle in Eg as [Hne Hsub].
  split_and!; try done; [|by destruct Hb].
  apply (picked_idle (clear_start b <| output_level_ := 0%nat |>)); try done; [by destruct Hb|]. by split; [left|].
Qed.

(** ** Picks by score *)

Context (Hweights : weights_ok o v (Z.to_nat (base_level_ w))).

(** What a pick by score takes from level 0 with [use_new_flush]. *)
Definition l0_pick (b : Builder) : Prop :=
  start_level_ b = 0%nat → output_level_ b ≠ 0%nat → use_new_flush o ≠ 0 → is_l0_trivial_move_ b = false →
  component C (LevelFiles v 0) (start_files b) ∧ best_group o v (output_level_ b) (start_files b).

Lemma pick_file_spec b :
  fresh b → output_level_ b = next_output w (start_level_ b) →
  match PickFileToCompact o p b with
  | (b', true) => picked b' ∧ l0_pick b' ∧ start_level_ b' = start_level_ b
  | (b', false) => fresh b' ∧ start_level_ b' = start_level_ b
  end.
Proof using HC Hts Hok Hbase Hweights.
  intros Hb Hout. unfold PickFileToCompact.
  destruct ((start_level_ b =? 0)%nat && (use_new_flush o =? 0) && level0_busy p) eqn:Ebusy.
  { rewrite !andb_true_iff, Nat.eqb_eq, Z.eqb_eq in Ebusy. destruct Ebusy as ((E0 & _) & _).
    pose proof (size_intra_spec b Hb E0) as H. destruct (PickSizeBasedIntraL0Compaction o b) as [b' []]; [|by subst].
    destruct H as (H1 & _ & H3 & H4 & _). split_and!; [done|by intros _|congruence]. }
  set (b1 := b <| start_level_inputs_ := inputs_of (start_level_ b) [] |>).
  assert (Hb1 : fresh b1) by (by apply fresh_inputs).
  assert (Hset : levels_set b1).
  { split; [by right|]. cbn. intros E0 Hu. by rewrite E0, Hu in Ebusy. }
  assert (Hr : ready b1) by (by split_and!).
  pose proof (try_trivial_spec b1 Hr Hout) as Ht. destruct (TryPickL0TrivialMove o b1) as [b' []].
  { destruct Ht as (H1 & H2 & H3 & _). split_and!; [done|intros _ _ _; congruence|done]. }
  clear Ht b'. change (start_level_ b1) with (start_level_ b) in *.
  destruct (Nat.eqb_spec (start_level_ b) 0) as [E0|E0].
  2:{ pose proof (pick_by_priority_spec b1 Hr) as Hp. cbn [andb].
      destruct (pick_by_priority o p b1) as [b' ok]. destruct Hp as [Hp (K1 & _)].
      destruct ok; [|by split; [apply Hp|]]. split_and!; [done|intros E1; by rewrite K1 in E1|done]. }
  pose proof (size_intra_spec b1 Hb1 E0) as H. destruct (PickSizeBasedIntraL0Compaction o b1) as [b' []].
  { destruct H as (H1 & _ & H3 & H4 & _). split_and!; [done|by intros _|congruence]. }
  clear H b'. cbn [andb].
  assert (Hout0 : output_level_ b1 = Z.to_nat (base_level_ w)).
  { change (output_level_ b1) with (output_level_ b). rewrite Hout, E0. done. }
  destruct (Z.eqb_spec (use_new_flush o) 0) as [En|En]; cbn [negb].
  - pose proof (pick_by_priority_spec b1 Hr) as Hp.
    destruct (pick_by_priority o p b1) as [b' ok]. destruct Hp as [Hp (K1 & _)].
    destruct ok; [|by split; [apply Hp|]]. split_and!; [done|by intros _ _|done].
  - destruct (sees_storage b1 (fr_sees b1 Hb1)) as [-> _].
    pose proof (pick_l0_group_spec C HC SC o v (output_level_ b1)) as Hg.
    rewrite Hout0 in Hg at 1. specialize (Hg Hweights). destruct (pick_l0_group o v (output_level_ b1)) as [fs|].
    + destruct Hg as [Hc Hbest]. split_and!; [| |done].
      * apply (picked_idle b1); try done; apply Hc.
      * by intros _ _ _ _.
    + pose proof (pick_by_priority_spec b1 Hr) as Hp.
      destruct (pick_by_priority o p b1) as [b' ok]. destruct Hp as [Hp (K1 & _ & _ & K4)].
      destruct ok; [|by split; [apply Hp|]]. exfalso.
      assert (Ht : is_l0_trivial_move_ b' = false) by (rewrite K4; apply Hb1).
      pose proof (proj1 (not_compacting _) (pk_free b' Hp Ht)) as Hfree.
      destruct (pk_chosen b' Hp) as [Hne Hsub]. rewrite K1, decide_True in Hsub by done.
      destruct (start_files b') as [|f fs]; [done|]. assert (Hf : f ∈ idle_files (LevelFiles v 0)).
      { apply list_elem_of_filter. split; [apply Hfree; left|apply Hsub; left]. }
      rewrite Hg in Hf. by apply not_elem_of_nil in Hf.
Qed.

Lemma picked_reason b r : picked b → picked (b <| compaction_reason_ := r |>).
Proof using Type. by intros []. Qed.

(** The start level is decided, with the reason, or nothing is picked. *)
Definition decided (b : Builder) : Prop :=
  (picked b ∧ (compaction_reason_ b = kLevelL0FilesNum → l0_pick b)) ∨ idle b.

Lemma score_pick_spec scores skipped b : idle b → decided (score_pick_loop o p scores skipped b).
Proof using HC Hts Hok Hbase Hweights.
  revert skipped b. induction scores as [|[score level] rest IH]; intros skipped b Hb; cbn [score_pick_loop]; [by right|].
  set (b1 := b <| start_level_ := level |>). assert (Hb1 : idle b1) by (destruct Hb as [[] ?]; by split).
  destruct (negb (dgeb score (dbl_of_Z 1))); [by right|]. destruct (_ && _); [by apply IH|].
  set (b2 := b1 <| output_level_ := next_output (view b1) level |>).
  assert (Hb2 : fresh b2) by (destruct Hb1 as [[] _]; by split).
  assert (Hout : output_level_ b2 = next_output w (start_level_ b2)).
  { cbn. unfold next_output. by destruct (fr_sees b (proj1 Hb)) as [idx ->]. }
  pose proof (pick_file_spec b2 Hb2 Hout) as Hp. destruct (PickFileToCompact o p b2) as [b3 []].
  { left. destruct Hp as (H1 & H2 & _). split; [by apply picked_reason|done]. }
  destruct Hp as [Hf E3]. pose proof (clear_idle b3 Hf) as Hc.
  destruct (Nat.eqb_spec level 0) as [->|E0]; [|by apply IH].
  pose proof (intra_spec (clear_start b3) (proj1 Hc) E3) as Hi.
  destruct (PickIntraL0Compaction o (clear_start b3)) as [b4 []].
  - destruct Hi as (H1 & _). left. split; [by apply picked_reason|by intros _ _].
  - apply IH. destruct Hi as [-> | ->]; [done|apply clear_idle, Hc].
Qed.

Lemma or_else_spec reason b next :
  reason ≠ kLevelL0FilesNum → outcome b → (∀ b, idle b → decided (next b)) → decided (or_else reason b next).
Proof using Type.
  intros Hr [Hp|Hi] Hn; unfold or_else, in_empty.
  - destruct (pk_chosen b Hp) as [Hne _]. destruct (start_files b) eqn:Es; [done|]. left.
    split; [by apply picked_reason|done].
  - rewrite (proj2 Hi). by apply Hn.
Qed.

Lemma round_robin_ttl_spec b :
  fresh b → match round_robin_ttl o p b with (b', true) => picked b' | (b', false) => fresh b' end.
Proof using HC Hts Hok Hbase Hweights.
  intros Hb. unfold round_robin_ttl. destruct (expired_ttl_files_ (view b)) as [|[level f] ?]; [done|].
  destruct (negb _); [done|]. destruct (0 <? level)%nat eqn:E0; [|by destruct Hb].
  apply Nat.ltb_lt in E0. set (b1 := b <| start_level_ := level |> <| output_level_ := S level |>).
  pose proof (pick_file_spec b1 (fresh_levels b level (S level) Hb)) as Hp.
  destruct (PickFileToCompact o p b1) as [b2 []]; apply Hp; cbn; unfold next_output; destruct (Nat.eqb_spec level 0); lia.
Qed.

Lemma setup_initial_spec random : decided (SetupInitialFiles o p random (NewBuilder w)).
Proof using HC Hts Hok Hbase Hweights Hmarked.
  unfold SetupInitialFiles. set (b := score_pick_loop _ _ _ _ _).
  assert (Hb : decided b).
  { apply score_pick_spec. split; [|done]. split; try done. exists (next_file_to_compact_by_size_ w). cbn. clear. by destruct w. }
  assert (Hin : ∀ l f b, fresh b → (l, f) ∈ bottommost_files_marked_for_compaction_ (view b) ++
    expired_ttl_files_ (view b) ++ files_marked_for_periodic_compaction_ (view b) ++
    files_marked_for_forced_blob_gc_ (view b) → f ∈ LevelFiles v l ∧ being_compacted f = false).
  { intros l f b' Hb' Hf. destruct (fr_sees b' Hb') as [idx Hv]. rewrite Hv in Hf. apply Hmarked.
    apply elem_of_app. by right. }
  destruct Hb as [Hp|[Hf He]].
  { unfold in_empty. destruct Hp as [Hp Hl]. destruct (pk_chosen b Hp) as [Hne _].
    destruct (start_files b) eqn:Es; [done|]. by left. }
  unfold in_empty. rewrite He. cbn [negb].
  apply or_else_spec; [done|apply pick_marked_files_spec; by split; [destruct Hf|]|]. clear b Hf He. intros b [Hb _].
  apply or_else_spec; [done| |].
  { apply pick_marked_spec; [|done]. intros l f Hf. apply (Hin l f b Hb). set_solver. }
  clear b Hb. intros b [Hb _]. pose proof (round_robin_ttl_spec b Hb) as Hrr.
  destruct (round_robin_ttl o p b) as [b1 []]; [left; split; [by apply picked_reason|done]|].
  apply or_else_spec; [done| |].
  { apply pick_marked_spec; [|done]. intros l f Hf. apply (Hin l f b1 Hrr). set_solver. }
  clear b b1 Hb Hrr. intros b [Hb _]. apply or_else_spec; [done| |].
  { apply pick_marked_spec; [|done]. intros l f Hf. apply (Hin l f b Hb). set_solver. }
  clear b Hb. intros b [Hb _]. apply or_else_spec; [done| |by right].
  apply pick_marked_spec; [|done]. intros l f Hf. apply (Hin l f b Hb). set_solver.
Qed.

(** ** The other files of level 0 *)

Context (Hl0 : use_new_flush o = 0 → level0_busy p = false → ∀ f, f ∈ LevelFiles v 0 → being_compacted f = false).

(** The files of the start level are complete. *)
Record joined (b : Builder) : Prop := {
  jn_sees : sees b;
  jn_inputs : compaction_inputs_ b = [];
  jn_outputs : in_files (output_level_inputs_ b) = [];
  jn_level : start_level_inputs_ b = inputs_of (start_level_ b) (start_files b);
  jn_chosen : chosen C v (start_level_ b) (start_files b);
  jn_free : is_l0_trivial_move_ b = false → AreFilesInCompaction (start_files b) = false;
  jn_trivial : is_l0_trivial_move_ b = true → start_level_ b = 0%nat ∧
    output_level_ b = next_output w 0 ∧ movable (output_level_ b) (start_files b);
  jn_base : base_ok v (start_level_ b) (start_files b) (base_index_ b);
  jn_output : levels_set b;
  jn_hint : hint_ok C (LevelFiles v (output_level_ b)) (Some (GetRange (start_level_inputs_ b)).1) (parent_index_ b);
}.

Lemma picked_joined b : picked b → joined b.
Proof using Type. intros []. split; try done. by left. Qed.

Lemma range_in_compaction_hint r level busy parent :
  (0 < level)%nat → IsRangeInCompaction v r.1 r.2 level (-1) = (busy, parent) →
  hint_ok C (LevelFiles v level) (Some r.1) parent.
Proof using HC Hts Hok.
  intros Hl. unfold IsRangeInCompaction. intros Heq. injection Heq as _ <-.
  pose proof (storage_sorted C HC Hts v Hok level Hl) as Hs. pose proof (proj1 Hok) as Hv.
  destruct (decide (level < num_non_empty_levels_ v)%nat) as [Hn|Hn].
  2:{ unfold GetOverlappingInputs. destruct (Nat.leb_spec (num_non_empty_levels_ v) level); [by left|lia]. }
  destruct (overlapping_block C HC v level (Some r.1) (Some r.2) [] (-1) (-1) true None) as (s & e & Hse & Ho & ->);
    [done|lia|done|by left|].
  destruct (Nat.eqb_spec s e); [by left|]. right. cbn [ov_file_index]. split; [lia|].
  destruct (lookup_lt_is_Some_2 (LevelFiles v level) s) as [f Hf]; [lia|]. exists f. rewrite Nat2Z.id.
  split; [done|]. apply (Ho s f Hf). lia.
Qed.

Lemma setup_l0_spec b :
  picked b →
  match SetupOtherL0FilesIfNeeded o b with
  | (b', true) => joined b' ∧ (l0_pick b → l0_pick b') ∧ compaction_reason_ b' = compaction_reason_ b
  | (b', false) => True
  end.
Proof using HC Hts Hok Hl0 Hbase.
  intros Hb. unfold SetupOtherL0FilesIfNeeded.
  destruct ((start_level_ b =? 0)%nat && negb (output_level_ b =? 0)%nat && negb (is_l0_trivial_move_ b) &&
    (use_new_flush o =? 0)) eqn:Ec; [|by split_and!; [apply picked_joined|..]].
  rewrite !andb_true_iff, !negb_true_iff, Nat.eqb_eq, Nat.eqb_neq, Z.eqb_eq in Ec. destruct Ec as (((E0 & Eo) & Et) & Eu).
  unfold GetOverlappingL0Files. rewrite (pk_level b Hb), E0, (pk_parent b Hb).
  destruct (sees_storage b (pk_sees b Hb)) as [-> _].
  destruct (GetRange (inputs_of 0 (start_files b))) as [lo hi] eqn:Er. cbn [in_level inputs_of].
  pose proof (pk_chosen b Hb) as Hch. rewrite E0 in Hch.
  pose proof (grow_overlapping C HC Hts v Hok 0 (start_files b) lo hi (-1) Hch) as Hg. cbn zeta in Hg.
  rewrite Er in Hg. cbn [fst snd] in Hg.
  set (files := ov_inputs _) in *. unfold ExpandInputsToCleanCut in Hg. cbn [in_level inputs_of Nat.eqb in_files] in Hg.
  destruct Hg as [Hch' Hsub]; [order (cmp_le sstableKeyCompare)|order (cmp_le sstableKeyCompare)|by left|].
  destruct (GetRange (inputs_of 0 files)) as [lo' hi'] eqn:Er'.
  destruct (IsRangeInCompaction v lo' hi' (output_level_ b) (-1)) as [busy parent] eqn:Eb.
  destruct (negb busy); [|done]. cbn [fst snd].
  pose proof (range_in_compaction_hint (lo', hi') (output_level_ b) busy parent ltac:(lia) Eb) as Hh.
  destruct Hb as [Hs Hp Hi Ho Hlv _ Hfr Htr Hba Hout]. split_and!; [|by intros _ _ _ Hne|done].
  split; cbn; rewrite ?E0; try done.
  - intros _. apply not_compacting. intros f Hf. apply Hl0; [done|by apply Hout|].
    by apply (chosen_subset C v 0 files Hch').
  - congruence.
  - rewrite E0 in Hba. destruct Hba as [->|(H0 & f & Hf & Hin)]; [by left|]. right. split; [done|]. exists f. auto.
  - destruct Hout as [[Hq|Hq] Hq2]; (split; cbn; [|intros _; by apply Hq2]); [left|right]; by rewrite E0 in Hq.
  - change (hint_ok C (LevelFiles v (output_level_ b)) (Some (GetRange (inputs_of 0 files)).1) parent). by rewrite Er'.
Qed.

(** ** The output level *)

Context (Hpri : compaction_pri o ≠ kRoundRobin).

(** A clean block holds all files that its range touches. *)
Lemma clean_block_complete level files f :
  (0 < level)%nat → chosen C v level files → f ∈ LevelFiles v level →
  touches C (GetRange (inputs_of level files)) f → f ∈ files.
Proof using HC Hts Hok.
  intros Hl Hc (i & Hf)%list_elem_of_lookup_1 [T1 T2]. pose proof (storage_sorted C HC Hts v Hok level Hl) as Hs.
  destruct (chosen_range C HC Hts v Hok level files Hc) as ((g & Hg & Eg) & (h & Hh & Eh) & _).
  cbn in T1, T2. rewrite <- Eg in T1. rewrite <- Eh in T2. destruct Hc as [_ Hb]. rewrite decide_False in Hb by lia.
  destruct Hb as (s & e & Hse & -> & Hcs & Hce). set (gs := LevelFiles v level) in *. apply block_elem. exists i.
  split; [|done]. apply block_elem in Hg as (j & Hj & Hg), Hh as (k & Hk & Hh). split.
  - destruct (decide (s <= i)%nat) as [|Hn]; [done|]. exfalso.
    destruct (lookup_lt_is_Some_2 gs (s - 1)) as [x Hx]; [lia|]. destruct (lookup_lt_is_Some_2 gs s) as [y Hy]; [lia|].
    apply (Hcs x y); [lia|done|done|]. pose proof (sorted_largest C HC gs Hs i (s - 1) f x Hf Hx ltac:(lia)).
    pose proof (sorted_smallest C HC gs Hs s j y g Hy Hg ltac:(lia)). order (cmp_le sstableKeyCompare).
  - destruct (decide (i < e)%nat) as [|Hn]; [done|]. exfalso. pose proof (lookup_lt_Some _ _ _ Hf).
    destruct (lookup_lt_is_Some_2 gs (e - 1)) as [x Hx]; [lia|]. destruct (lookup_lt_is_Some_2 gs e) as [y Hy]; [lia|].
    apply (Hce x y); [lia|done|done|]. pose proof (sorted_largest C HC gs Hs k (e - 1) h x Hh Hx ltac:(lia)).
    pose proof (sorted_smallest C HC gs Hs e i y f Hy Hf ltac:(lia)). order (cmp_le sstableKeyCompare).
Qed.

(** All inputs of the compaction. *)
Record complete (b : Builder) (i : CompactionInputFiles) (outs : list CompactionInputFiles) : Prop := {
  cm_inputs : compaction_inputs_ b = i :: outs;
  cm_level : in_level i = start_level_ b;
  cm_chosen : chosen C v (start_level_ b) (in_files i);
  cm_free : is_l0_trivial_move_ b = false → AreFilesInCompaction (in_files i) = false;
  cm_trivial : is_l0_trivial_move_ b = true → start_level_ b = 0%nat ∧
    output_level_ b = next_output w 0 ∧ movable (output_level_ b) (in_files i);
  cm_outs : ∀ os, os ∈ outs → in_level os = output_level_ b ∧ start_level_ b ≠ output_level_ b ∧
    chosen C v (output_level_ b) (in_files os) ∧ AreFilesInCompaction (in_files os) = false;
  cm_complete : output_level_ b ≠ 0%nat → ∀ f, f ∈ LevelFiles v (output_level_ b) →
    touches C (GetRange (inputs_of (start_level_ b) (in_files i))) f → ∃ j, j ∈ i :: outs ∧ f ∈ in_files j;
  cm_output : levels_set b;
  cm_clear : output_level_ b ≠ 0%nat → conflicts o p b (compaction_inputs_ b) = false;
}.

Lemma setup_outputs b ok i os parent :
  joined b → output_level_ b ≠ 0%nat →
  SetupOtherInputs v o (start_level_inputs_ b) (inputs_of (output_level_ b) []) (parent_index_ b) (base_index_ b) false =
    (ok, i, os, parent) → ok = true →
  in_level i = start_level_ b ∧ chosen C v (start_level_ b) (in_files i) ∧
  (AreFilesInCompaction (start_files b) = false → AreFilesInCompaction (in_files i) = false) ∧
  in_level os = output_level_ b ∧
  (in_files os = [] ∨ start_level_ b ≠ output_level_ b ∧ chosen C v (output_level_ b) (in_files os)) ∧
  AreFilesInCompaction (in_files os) = false ∧
  (use_new_flush o ≠ 0 → start_level_ b = 0%nat → in_files i = start_files b) ∧
  ∀ f, f ∈ LevelFiles v (output_level_ b) → touches C (GetRange (inputs_of (start_level_ b) (in_files i))) f →
    f ∈ in_files i ∨ f ∈ in_files os.
Proof using HC Hts Hok.
  intros Hb Hout Hset ->. rewrite (jn_level b Hb) in Hset.
  destruct (decide (start_level_ b = output_level_ b)) as [Heq|Hne].
  - unfold SetupOtherInputs in Hset. cbn [in_level inputs_of] in Hset. rewrite (proj2 (Nat.eqb_eq _ _) Heq) in Hset.
    injection Hset as <- <- _. cbn [in_level in_files inputs_of]. split_and!; try done; [apply Hb|by left|].
    intros f Hf Ht. left. rewrite <- Heq in Hf. apply (clean_block_complete (start_level_ b)); [lia|apply Hb|done|done].
  - assert (Hin : use_new_flush o ≠ 0 → start_level_ b = 0%nat → in_files i = start_files b).
    { intros Hu E0. rewrite E0 in Hset. unfold SetupOtherInputs in Hset. cbn [in_level inputs_of] in Hset.
      destruct (Nat.eqb_spec 0 (output_level_ b)); [lia|]. destruct (GetRange _).
      destruct (AreFilesInCompaction _); [done|]. destruct (if in_empty _ then _ else _) as [os' []]; cbn [negb] in Hset; [|done].
      rewrite (proj2 (Z.eqb_neq _ _) Hu) in Hset. by injection Hset as <- _ _. }
    destruct (setup_other_inputs_spec C HC Hts v Hok o (start_level_ b) (start_files b) (output_level_ b)
      (parent_index_ b) (base_index_ b) false i os parent) as [S1 S2 S3 S4 S5 S6 S7];
      [apply Hb|lia|done|rewrite <- (jn_level b Hb); apply Hb|apply Hb|done|].
    split_and!; try done; [apply S2| |intros f Hf Ht; right; by apply S5].
    destruct S4 as [->|S4]; [by left|by right].
Qed.

Lemma setup_other_spec b :
  joined b →
  match SetupOtherInputsIfNeeded o p b with
  | (b', true) => ∃ i outs, complete b' i outs ∧ sees b' ∧ kept b b' ∧
      (use_new_flush o ≠ 0 → start_level_ b = 0%nat → in_files i = start_files b)
  | (b', false) => True
  end.
Proof using HC Hts Hok Hbase Hpri.
  intros Hb. unfold SetupOtherInputsIfNeeded. rewrite (bool_decide_false (compaction_pri o = kRoundRobin)) by done.
  cbn [andb]. destruct (Nat.eqb_spec (output_level_ b) 0) as [E0|E0].
  { exists (start_level_inputs_ b), []. rewrite (jn_inputs b Hb). cbn [app]. destruct Hb.
    split_and!; try done. split; cbn; try done; [by rewrite jn_level0|]. by intros os ?%not_elem_of_nil. }
  rewrite (jn_outputs b Hb). set (b1 := b <| output_level_inputs_ := inputs_of (output_level_ b) [] |>).
  destruct (sees_storage b (jn_sees b Hb)) as [Es _]. change (storage b1) with (storage b). rewrite Es.
  destruct (is_l0_trivial_move_ b1) eqn:Et.
  - cbn [negb]. destruct (jn_trivial b Hb Et) as (Es0 & Eo & k & Hk & Hmv).
    destruct (conflicts o p _ _) eqn:Ec; [done|]. cbn [is_l0_trivial_move_].
    rewrite Et. exists (start_level_inputs_ b), []. destruct Hb as [Hs Hi Ho Hlv Hch Hfr Htr Hba Hout Hh].
    split_and!; try done. split; cbn; try done.
    + by rewrite Hi.
    + by rewrite Hlv.
    + intros _. split_and!; [done|done|]. by exists k.
    + by intros os ?%not_elem_of_nil.
    + intros _ f Hf Ht. rewrite Es0 in Ht. by destruct (Hmv f Hf).
  - destruct (SetupOtherInputs _ _ _ _ _ _ _) as [[[ok i] os] parent] eqn:Eset.
    destruct ok; cbn [negb]; [|done]. destruct (conflicts o p _ _) eqn:Ec; [done|].
    cbn [is_l0_trivial_move_]. rewrite ?Et.
    destruct (setup_outputs b true i os parent Hb E0 Eset eq_refl) as (S1 & S2 & S3 & S4 & S5 & S6 & S7 & S8).
    exists i, (if in_empty os then [] else [os]). destruct Hb as [Hs Hi Ho Hlv Hch Hfr Htr Hba Hout Hh].
    split_and!; try done. split; cbn; try done.
    + by rewrite Hi.
    + intros _. by apply S3, Hfr.
    + intros os' Hos'. unfold in_empty in Hos'. destruct (in_files os) as [|f fs] eqn:Eos; [by apply not_elem_of_nil in Hos'|].
      apply list_elem_of_singleton in Hos' as ->. destruct S5 as [|[? ?]]; [done|]. rewrite Eos. by split_and!.
    + intros _ f Hf Ht. destruct (S8 f Hf Ht) as [Hin|Hin]; [exists i; split; [left|done]|].
      exists os. split; [|done]. unfold in_empty. destruct (in_files os); [by apply not_elem_of_nil in Hin|]. right. left.
Qed.

(** ** The compaction *)

Abbreviation user_le := (cmp_le CompareUser).

(** Files of level 0 are only compacted to the base level, by compactions whose
    range covers them. *)
Definition level0_covered : Prop :=
  ∀ f, f ∈ LevelFiles v 0 → being_compacted f = true →
    ∃ d, d ∈ compactions_in_progress_ p ∧ c_output_level d = Z.to_nat (base_level_ w) ∧
      user_le (c_smallest_user_key d) (smallest_ukey f) ∧ user_le (largest_ukey f) (c_largest_user_key d).

Context (Hrun : level0_covered).

(** What a picked compaction promises. *)
Record pick_sound (c : Compaction) : Prop := {
  ps_inputs : c_inputs c ≠ [];
  ps_chosen : ∀ j, j ∈ c_inputs c → (in_level j = c_start_level c ∨ in_level j = c_output_level c) ∧
    chosen C v (in_level j) (in_files j);
  ps_idle : ∀ f, f ∈ c_files c → being_compacted f = false;
  ps_complete : c_output_level c ≠ 0%nat → ∀ i f, head (c_inputs c) = Some i → f ∈ LevelFiles v (c_output_level c) →
    touches C (GetRange (inputs_of (in_level i) (in_files i))) f → f ∈ c_files c;
  ps_apart : c_output_level c ≠ 0%nat → ∀ d, d ∈ compactions_in_progress_ p → c_output_level d = c_output_level c →
    ranges_disjoint C (output_range c) (output_range d);
  ps_covers : ∀ f, f ∈ c_files c →
    user_le (c_smallest_user_key c) (smallest_ukey f) ∧ user_le (largest_ukey f) (c_largest_user_key c);
}.

(** What a pick by score leaves in level 0: older files it moves past. *)
Definition keeps_order (c : Compaction) : Prop :=
  ∀ i, head (c_inputs c) = Some i →
    (∃ k, in_files i ≡ₚ drop k (LevelFiles v 0)) ∨
    ∀ f g, f ∈ in_files i → g ∈ LevelFiles v 0 → user_overlap f g = true → g ∈ in_files i.

Lemma chosen_input_sorted level files : chosen C v level files → input_sorted C (inputs_of level files).
Proof using HC Hok.
  intros [_ Hb]. destruct (decide (level = 0%nat)) as [->|Hl]; [by left|]. right. cbn [in_files inputs_of].
  destruct Hb as (s & e & Hse & -> & _). destruct Hok as (_ & Hlv & _).
  destruct (Hlv level ltac:(lia)) as [Hbd Hss]. unfold block. split.
  - apply Forall_take, Forall_drop. eapply Forall_impl; [exact Hbd|]. intros f (_ & _ & ?). by apply ukey_of_ikey.
  - apply StronglySorted_take, StronglySorted_drop. eapply StronglySorted_impl; [|exact Hss].
    intros f g Hfg. by apply ukey_of_ikey.
Qed.

Lemma atomic_units_files inputs j :
  j ∈ PopulateWithAtomicBoundaries inputs → ∃ i, i ∈ inputs ∧ in_level j = in_level i ∧ in_files j = in_files i.
Proof using Type.
  unfold PopulateWithAtomicBoundaries. intros (i & -> & Hi)%list_elem_of_fmap. exists i. split; [done|].
  destruct (in_level i) eqn:El; [by rewrite El|]. destruct (in_files i) eqn:Ef; by rewrite ?El, ?Ef.
Qed.

Lemma atomic_units_keep inputs : in_files <$> PopulateWithAtomicBoundaries inputs = in_files <$> inputs.
Proof using Type.
  unfold PopulateWithAtomicBoundaries. rewrite <- list_fmap_compose. apply list_fmap_ext. intros k i _. cbn.
  destruct (in_level i) eqn:El; [done|]. by destruct (in_files i) eqn:Ef; rewrite ?Ef.
Qed.

Lemma new_compaction_fields id inputs level size max_bytes path comp grandparents reason overlap :
  let nc := NewCompaction id v o inputs level size max_bytes path comp grandparents reason overlap in
  let c := nc.1 in
  nc.2 = MarkFilesBeingCompacted c true v ∧ c_id c = id ∧ c_inputs c = PopulateWithAtomicBoundaries inputs ∧ c_output_level c = level ∧ c_compaction_reason c = reason ∧
  c_start_level c = match inputs with i :: _ => in_level i | [] => O end ∧
  output_range c = default ([], []) (GetBoundaryKeys inputs None).
Proof using Type.
  unfold NewCompaction. rewrite boundary_keys_units. destruct (default ([], []) (GetBoundaryKeys inputs None)) as [lo hi] eqn:Eb.
  destruct (PopulateProximalLevelOutputRange _ _ _ _ _). cbn. by split_and!.
Qed.

(** The range of a compaction covers its files. *)
Lemma range_covers_file inputs c j f :
  Forall (input_sorted C) inputs → output_range c = default ([], []) (GetBoundaryKeys inputs None) →
  j ∈ inputs → f ∈ in_files j →
  user_le (c_smallest_user_key c) (smallest_ukey f) ∧ user_le (largest_ukey f) (c_largest_user_key c).
Proof using HC.
  intros Hs Hr Hj Hf. destruct (boundary_keys_cover C HC inputs j f Hs Hj Hf) as (b & Eb & H1 & H2).
  rewrite Eb in Hr. cbn [default from_option id] in Hr. unfold output_range in Hr. destruct b as [lo hi].
  injection Hr as -> ->. split; by apply without_timestamp_ok.
Qed.

(** A file of level 0 that overlaps a file of the new compaction is not being
    compacted. *)
Lemma overlapping_idle c f g :
  (∀ d, d ∈ compactions_in_progress_ p → c_output_level d = c_output_level c →
     ranges_disjoint C (output_range c) (output_range d)) →
  c_output_level c = Z.to_nat (base_level_ w) →
  user_le (c_smallest_user_key c) (smallest_ukey f) → user_le (largest_ukey f) (c_largest_user_key c) →
  g ∈ LevelFiles v 0 → user_overlap f g = true → being_compacted g = false.
Proof using HC Hrun.
  intros Hap Hl H1 H2 Hg Ho. destruct (being_compacted g) eqn:Eg; [|done]. exfalso.
  destruct (Hrun g Hg Eg) as (d & Hd & Ed & H3 & H4). apply (Hap d Hd); [congruence|].
  apply user_overlap_iff in Ho as [O1 O2]; [|done].
  assert (U1 : user_le (smallest_ukey g) (largest_ukey f)) by (by apply without_timestamp_ok).
  assert (U2 : user_le (smallest_ukey f) (largest_ukey g)) by (by apply without_timestamp_ok).
  unfold output_range. split; cbn; order (cmp_le CompareUser).
Qed.

Lemma complete_inputs b i outs j :
  complete b i outs → j ∈ i :: outs →
  (in_level j = start_level_ b ∨ in_level j = output_level_ b) ∧ chosen C v (in_level j) (in_files j).
Proof using Type.
  intros Hb [->|Hj]%elem_of_cons.
  - rewrite (cm_level b i outs Hb). split; [by left|]. apply Hb.
  - destruct (cm_outs b i outs Hb j Hj) as (El & _ & Hc & _). rewrite El. by split; [right|].
Qed.

Lemma compaction_sound id b i outs size max_bytes path comp grandparents reason overlap c v' :
  complete b i outs → sees b →
  NewCompaction id v o (i :: outs) (output_level_ b) size max_bytes path comp grandparents reason overlap = (c, v') →
  pick_sound c ∧ v' = MarkFilesBeingCompacted c true v ∧ c_id c = id ∧ c_compaction_reason c = reason ∧
  c_start_level c = start_level_ b ∧ c_output_level c = output_level_ b ∧
  ∃ j, head (c_inputs c) = Some j ∧ in_files j = in_files i.
Proof using HC Hts Hok Hbase Hrun.
  intros Hb Hsee Ec. pose proof (complete_inputs b i outs) as Hin.
  destruct (new_compaction_fields id (i :: outs) (output_level_ b) size max_bytes path comp grandparents reason overlap)
    as (F0 & Fid & F1 & F2 & F3 & F4 & F5). rewrite Ec in F0, Fid, F1, F2, F3, F4, F5. cbn [fst snd] in *. rewrite (cm_level b i outs Hb) in F4.
  assert (Hsorted : Forall (input_sorted C) (i :: outs)).
  { apply Forall_forall. intros j Hj. destruct (Hin j Hb Hj) as [_ Hc]. apply (chosen_input_sorted _ _ Hc). }
  pose proof (λ j f, range_covers_file (i :: outs) c j f Hsorted F5) as Hcov.
  assert (Hap : c_output_level c ≠ 0%nat → ∀ d, d ∈ compactions_in_progress_ p → c_output_level d = c_output_level c →
    ranges_disjoint C (output_range c) (output_range d)).
  { rewrite F2. intros Hne d Hd El. change c with (c, v').1. rewrite <- Ec. pose proof (cm_clear b i outs Hb Hne) as Hcl.
    rewrite (cm_inputs b i outs Hb) in Hcl. eapply (new_compaction_disjoint C HC); [exact Hcl| |done|done].
    exists i. split; [left|]. apply (cm_chosen b i outs Hb). }
  assert (Hunits : ∀ j, j ∈ c_inputs c → ∃ k, k ∈ i :: outs ∧ in_level j = in_level k ∧ in_files j = in_files k).
  { rewrite F1. apply atomic_units_files. }
  assert (Hhead : ∃ j, head (c_inputs c) = Some j ∧ in_level j = in_level i ∧ in_files j = in_files i).
  { rewrite F1. cbn. eexists. split; [reflexivity|]. destruct (in_level i) eqn:El, (in_files i) eqn:Ef; by rewrite ?El, ?Ef. }
  assert (Hfiles : ∀ f, f ∈ c_files c ↔ ∃ k, k ∈ i :: outs ∧ f ∈ in_files k).
  { intros f. unfold c_files. rewrite F1, atomic_units_keep, elem_of_concat. split.
    - intros (l & Hl & (k & -> & Hk)%list_elem_of_fmap). by exists k.
    - intros (k & Hk & Hf). exists (in_files k). split; [done|]. apply list_elem_of_fmap. by exists k. }
  split_and!; [split| | | | | |]; try done.
  - rewrite F1. done.
  - intros j Hj. destruct (Hunits j Hj) as (k & Hk & -> & ->). rewrite F2, F4. by apply Hin.
  - intros f (k & [->|Hk]%elem_of_cons & Hf)%Hfiles.
    + destruct (is_l0_trivial_move_ b) eqn:Et.
      * destruct (cm_trivial b i outs Hb Et) as (E0 & Eo & _). destruct (Hcov i f ltac:(left) Hf) as [C1 C2].
        assert (Hf0 : f ∈ LevelFiles v 0).
        { pose proof (cm_chosen b i outs Hb) as Hch. rewrite E0 in Hch. by apply (chosen_subset C v 0 _ Hch). }
        apply (overlapping_idle c f f); try done.
        -- apply Hap. rewrite F2, Eo. cbn. lia.
        -- by rewrite F2, Eo.
        -- apply user_overlap_iff; [done|]. destruct (storage_bounds C v Hok 0 f Hf0) as (_ & _ & Hle%ukey_of_ikey); [|done].
           by split.
      * by apply (proj1 (not_compacting _) (cm_free b i outs Hb Et)).
    + destruct (cm_outs b i outs Hb k Hk) as (_ & _ & _ & Hfree). by apply (proj1 (not_compacting _) Hfree).
  - intros Hne j f Hj Hf Ht. apply Hfiles. destruct Hhead as (j' & Hj' & El & Ef). rewrite Hj in Hj'. injection Hj' as <-.
    rewrite El, Ef, (cm_level b i outs Hb) in Ht. rewrite F2 in Hf, Hne. by apply (cm_complete b i outs Hb).
  - intros f (k & Hk & Hf)%Hfiles. by apply (Hcov k f).
  - destruct Hhead as (j & Hj & _ & Ef). by exists j.
Qed.

(** The version after the pick: its files are marked, and the marked files are
    listed again. *)
Definition marked_after (c : Compaction) (w' : LevelView) : Prop :=
  vstorage w' = MarkFilesBeingCompacted c true v ∧ base_level_ w' = base_level_ w ∧
  ((∀ l f, (l, f) ∈ bottommost_files_ (vstorage w') → f ∈ LevelFiles (vstorage w') l) → marked_sound w').

Lemma get_compaction_spec id b i outs c p' w' :
  complete b i outs → sees b → GetCompaction E o so p id b = Some (c, p', w') →
  pick_sound c ∧ c_id c = id ∧ c_compaction_reason c = compaction_reason_ b ∧ c_start_level c = start_level_ b ∧
  c_output_level c = output_level_ b ∧
  (∃ j, head (c_inputs c) = Some j ∧ in_files j = in_files i) ∧
  p' = RegisterCompaction o c p ∧ marked_after c w'.
Proof using HC Hts Hok Hbase Hrun.
  intros Hb Hs. unfold GetCompaction. destruct (sees_storage b Hs) as [-> _]. rewrite (cm_inputs b i outs Hb).
  destruct (NewCompaction _ _ _ _ _ _ _ _ _ _ _ _) as [c0 v0] eqn:Enc.
  destruct (compaction_sound _ b i outs _ _ _ _ _ _ _ c0 v0 Hb Hs Enc) as (S1 & S2 & S3 & S4 & S5 & S6 & S7).
  set (c1 := if _ && _ && _ then _ else _).
  assert (Hc1 : ∃ bs, c1 = c0 <| c_l0_group_boundaries := bs |>).
  { unfold c1. case_match; [eexists; reflexivity|]. exists (c_l0_group_boundaries c0). by destruct c0. }
  intros (w1 & Hw & Heq)%bind_Some. injection Heq as <- <- <-.
  destruct (compute_score_keeps E o so _ w1 Hw) as (Hv1 & Hb1 & Hm1). cbn [vstorage] in Hv1, Hm1.
  clearbody c1. destruct Hc1 as (bs & ->). unfold marked_after.
  split_and!; try done; [by destruct S1| | |].
  - by rewrite Hv1, S2.
  - rewrite Hb1. by destruct Hs as [idx ->].
  - by rewrite Hv1.
Qed.

Lemma pick_compaction_spec id random c p' w' :
  PickCompaction E o so p id random w = Some (Some c, p', w') →
  pick_sound c ∧ c_id c = id ∧ p' = RegisterCompaction o c p ∧ marked_after c w' ∧
  (c_output_level c = c_start_level c ∨ c_output_level c = next_output w (c_start_level c)) ∧
  (use_new_flush o ≠ 0 → c_compaction_reason c = kLevelL0FilesNum → c_start_level c = 0%nat →
   c_output_level c ≠ 0%nat → keeps_order c).
Proof using HC Hts Hok Hmarked Hbase Hweights Hl0 Hpri Hrun.
  unfold PickCompaction. pose proof (setup_initial_spec random) as Hinit.
  set (b := SetupInitialFiles _ _ _ _) in *. destruct (in_empty _) eqn:Ee; [done|].
  destruct Hinit as [[Hp Hl]|[_ He]]; [|by unfold in_empty in Ee; rewrite He in Ee].
  pose proof (setup_l0_spec b Hp) as H1. destruct (SetupOtherL0FilesIfNeeded o b) as [b1 []]; cbn [negb]; [|done].
  destruct H1 as (Hj & Hl1 & Er1). pose proof (setup_other_spec b1 Hj) as H2.
  destruct (SetupOtherInputsIfNeeded o p b1) as [b2 []]; cbn [negb]; [|done].
  destruct H2 as (i & outs & Hc & Hs & (K1 & K2 & K3 & K4) & Hsame).
  intros ([[c' q] u] & Hg & Heq)%bind_Some. injection Heq as -> -> ->.
  destruct (get_compaction_spec id b2 i outs c p' w' Hc Hs Hg) as (G1 & Gid & G2 & G3 & G4 & (j & Hj1 & Hj2) & G5 & G6).
  split_and!; try done; [rewrite G3, G4; apply (cm_output b2 i outs Hc)|].
  intros Hu Hr E0 Eo i' Hi'. rewrite Hj1 in Hi'. injection Hi' as <-. rewrite Hj2.
  rewrite G3 in E0. rewrite G4 in Eo. rewrite G2, K3, Er1 in Hr.
  destruct (is_l0_trivial_move_ b2) eqn:Et.
  - left. destruct (cm_trivial b2 i outs Hc Et) as (_ & _ & k & Hk & _). by exists k.
  - right. rewrite K1 in E0. rewrite (Hsame Hu E0) in *. rewrite K2 in Eo.
    destruct (Hl1 (Hl Hr) E0 Eo Hu (eq_sym K4)) as [Hcomp _]. intros f g Hf Hg' Ho.
    apply (cp_closed C _ _ Hcomp f g Hf); [|done]. apply list_elem_of_filter. split; [|done].
    assert (Hfc : f ∈ c_files c).
    { unfold c_files. apply elem_of_concat. exists (in_files j). split; [by rewrite Hj2|]. apply list_elem_of_fmap.
      exists j. split; [done|]. by destruct (c_inputs c); [|injection Hj1 as ->; left]. }
    destruct (ps_covers c G1 f Hfc) as [R1 R2]. apply (overlapping_idle c f g); try done.
    + apply (ps_apart c G1). by rewrite G4, K2.
    + rewrite G4. destruct (cm_output b2 i outs Hc) as [[Hq|Hq] _]; [congruence|]. by rewrite Hq, K1, E0.
Qed.
(** Without a pick only the positions in the levels change. *)
Lemma setup_l0_view b : view (SetupOtherL0FilesIfNeeded o b).1 = view b.
Proof using Type.
  unfold SetupOtherL0FilesIfNeeded. destruct (_ && _ && _ && _); [|done].
  by destruct (GetOverlappingL0Files _ _ _ _) as [[? ?] ?].
Qed.

Lemma setup_other_view b : view (SetupOtherInputsIfNeeded o p b).1 = view b.
Proof using Hpri.
  unfold SetupOtherInputsIfNeeded. rewrite (bool_decide_false (compaction_pri o = kRoundRobin)) by done.
  cbn [andb]. destruct (output_level_ b =? 0)%nat; [done|].
  destruct (is_l0_trivial_move_ _) eqn:Et; [|destruct (SetupOtherInputs _ _ _ _ _ _ _) as [[[[] i] os] parent]];
    cbn [negb]; try done; destruct (conflicts _ _ _ _); try done; cbn [is_l0_trivial_move_]; by destruct (is_l0_trivial_move_ _).
Qed.

Lemma pick_none_spec id random p' w' :
  PickCompaction E o so p id random w = Some (None, p', w') →
  p' = p ∧ ∃ idx, w' = w <| next_file_to_compact_by_size_ := idx |>.
Proof using HC Hts Hok Hmarked Hbase Hweights Hpri.
  unfold PickCompaction. pose proof (setup_initial_spec random) as Hinit.
  set (b := SetupInitialFiles _ _ _ _) in *.
  assert (Hs : sees b) by (destruct Hinit as [[[] _]|[[] _]]; done).
  destruct (in_empty _); [intros Heq; by injection Heq as <- <-|].
  pose proof (setup_l0_view b) as V1. destruct (SetupOtherL0FilesIfNeeded o b) as [b1 []]; cbn [negb fst] in *.
  2:{ intros Heq. injection Heq as <- <-. by rewrite V1. }
  pose proof (setup_other_view b1) as V2. destruct (SetupOtherInputsIfNeeded o p b1) as [b2 []]; cbn [negb fst] in *.
  - by intros ([[c q] u] & _ & Heq)%bind_Some.
  - intros Heq. injection Heq as <- <-. by rewrite V2, V1.
Qed.
End sound.

(** ** Theorems *)

(** A state in which a compaction may be picked: the version is well formed, the
    marked files are idle, the weights can be sorted, and files of level 0 are
    only compacted to the base level. *)
Record pickable (C : Comparator) (o : CompactOptions) (p : Picker) (w : LevelView) : Prop := {
  pb_storage : storage_ok C (vstorage w);
  pb_marked : marked_sound w;
  pb_base : 0 < base_level_ w;
  pb_weights : weights_ok o (vstorage w) (Z.to_nat (base_level_ w));
  pb_quiet : use_new_flush o = 0 → level0_busy p = false → ∀ f, f ∈ LevelFiles (vstorage w) 0 → being_compacted f = false;
  pb_covered : level0_covered C p w;
}.



(** ** Witnesses *)

#[local] Existing Instance BytewiseComparator.
#[local] Existing Instance simple_choices.

Definition pick_options : CompactOptions :=
  mkOptions kCompactionStyleLevel kMinOverlappingRatio 3 1 true true (dlit 1 2) 1 false 1
    10000 1 (dbl_of_Z 10) false 0 1 kDisableCompressionOption [] false.

Definition pick_view : LevelView := PrepareView sample_env pick_options sample_score_options sample_view.
Definition scored_view : LevelView :=
  default pick_view (ComputeCompactionScore sample_env pick_options sample_score_options pick_view).

Definition idle_picker : Picker := mkPicker [] [].

Lemma scored_computed : ComputeCompactionScore sample_env pick_options sample_score_options pick_view = Some scored_view.
Proof.
  unfold scored_view. destruct (ComputeCompactionScore _ _ _ _) eqn:E; [done|]. vm_compute in E. discriminate E.
Qed.

(** The files of every version prepared from [sample_view]. *)
Definition prepared_files : VersionStorageInfo := PrepareForVersionAppend (map_files (compensate 0) sample_storage).

Lemma prepared_files_ok : storage_ok BytewiseComparator prepared_files.
Proof.
  split_and!; [apply prepare_indexed| |].
  - intros [|[|[|l]]] Hl; [lia| | |split; [apply Forall_nil_2|apply SSorted_nil]].
    all: split; repeat first [apply SSorted_nil | apply Forall_nil_2 | apply SSorted_cons | apply Forall_cons_2 | split];
      intros Hgt; vm_compute in Hgt; discriminate Hgt.
  - repeat first [apply Forall_nil_2 | apply Forall_cons_2 | split]; vm_compute; discriminate.
Qed.

Lemma prepared_bottommost l f : (l, f) ∈ bottommost_files_ prepared_files → f ∈ LevelFiles prepared_files l.
Proof.
  assert (H : Forall (λ lf, lf.2 ∈ LevelFiles prepared_files lf.1) (bottommost_files_ prepared_files)).
  { vm_compute. repeat apply Forall_cons_2; [..|apply Forall_nil_2]; first [by left|right; by left|right; right; by left]. }
  rewrite Forall_forall in H. intros Hf. exact (H (l, f) Hf).
Qed.

Lemma scored_pickable : pickable BytewiseComparator pick_options idle_picker scored_view.
Proof.
  destruct (compute_score_keeps _ _ _ _ _ scored_computed) as (Hv & Hb & Hm).
  change (vstorage pick_view) with prepared_files in *. split.
  - rewrite Hv. apply prepared_files_ok.
  - apply Hm, prepared_bottommost.
  - rewrite Hb. vm_compute. reflexivity.
  - intros _. apply sortableb_sound. vm_compute. reflexivity.
  - discriminate.
  - intros f Hf Hc. assert (H : Forall (λ f, being_compacted f = false) (LevelFiles (vstorage scored_view) 0)).
    { repeat constructor. }
    rewrite Forall_forall in H. rewrite H in Hc; done.
Qed.

(** ** Picks that do not keep the promises *)

(** Level 0 holds a newer file a-c that is marked for compaction and an older
    file b-d. *)
Definition marked_files : VersionStorageInfo :=
  let f := sample_file 8 x61 x63 in
  mkStorage [[f <| marked_for_compaction := true |>; sample_file 3 x62 x64];
             [sample_file 4 x61 x63; sample_file 5 x63 x65; sample_file 6 x67 x68]; [sample_file 7 x62 x64]] 0 [] false [] ∅.

Definition high_trigger : CompactOptions :=
  mkOptions kCompactionStyleLevel kMinOverlappingRatio 3 1 true false (dlit 1 2) 1 false 1
    10000 8 (dbl_of_Z 10) false 0 1 kDisableCompressionOption [] false.

Definition scored_of (o : CompactOptions) (v : VersionStorageInfo) : LevelView :=
  let w0 := sample_view in let w := PrepareView sample_env o sample_score_options (w0 <| vstorage := v |>) in
  default w (ComputeCompactionScore sample_env o sample_score_options w).

Definition marked_view : LevelView := scored_of high_trigger marked_files.

(** The oldest file k-l of level 0 is being rewritten within level 0. *)
Definition busy_files : VersionStorageInfo :=
  mkStorage [[sample_file 8 x67 x68; sample_file 9 x6b x6c]; [sample_file 4 x61 x63]; []] 0 [] false [] ∅.

Definition low_trigger : CompactOptions :=
  mkOptions kCompactionStyleLevel kMinOverlappingRatio 3 1 true false (dlit 1 2) 1 false 1
    10000 1 (dbl_of_Z 10) false 0 1 kDisableCompressionOption [] false.

Definition intra_compaction : Compaction * VersionStorageInfo :=
  NewCompaction 0 (PrepareForVersionAppend busy_files) low_trigger [inputs_of 0 [sample_file 9 x6b x6c]] 0
    1000 10000 0 1 [] kLevelL0FilesNum true.

Definition busy_picker : Picker := RegisterCompaction low_trigger intra_compaction.1 idle_picker.
Definition busy_view : LevelView := scored_of low_trigger intra_compaction.2.

Definition picked_of (o : CompactOptions) (p : Picker) (w : LevelView) : option Compaction :=
  r ← PickCompaction sample_env o sample_score_options p 1 0 w; r.1.1.



