(* ===== verification/RunningCompactions.v ===== *)
(** * Running compactions

    The picker and the scores of a version as a transition system: compactions
    are picked ([LevelPicker.PickCompaction]), given back
    ([CompactionPicker.ReleaseCompactionFiles]) and the scores computed again
    ([CompactionScore.ComputeCompactionScore]), in any order.  The state is the
    pair of the picker and the version that the jobs share under the database
    mutex. *)

From S2P Require Import Prelude Comparator DbFormat FileMeta UnionFind Grouping L0Groups VersionStorage Compaction CompactionPicker CompactionScore LevelPicker LevelPickerSound.

Definition SharedState : Type := Picker * LevelView.

Section running.
Context (C : Comparator) (SC : StdChoices) (E : ScoreEnv) (o : CompactOptions) (so : ScoreOptions).

Abbreviation running p := (compactions_in_progress_ p).

Inductive step : SharedState → SharedState → Prop :=
  | step_pick p w id random c p' w' :
      id ∉ c_id <$> running p →
      PickCompaction E o so p id random w = Some (Some c, p', w') →
      (c_start_level c = 0%nat → c_output_level c ≠ 0%nat) →
      step (p, w) (p', w')
  | step_none p w id random p' w' :
      PickCompaction E o so p id random w = Some (None, p', w') → step (p, w) (p', w')
  | step_release p w c p' v' :
      c ∈ running p → ReleaseCompactionFiles o c (p, vstorage w) = (p', v') →
      step (p, w) (p', w <| vstorage := v' |>)
  | step_score p w w' :
      ComputeCompactionScore E o so w = Some w' → step (p, w) (p, w').

(** File numbers are unique in a version. *)
Definition unique_numbers (v : VersionStorageInfo) : Prop :=
  ∀ l l' f g, f ∈ LevelFiles v l → g ∈ LevelFiles v l' → GetNumber f = GetNumber g → l = l' ∧ f = g.

(** A version as installed, before any compaction of it. *)
Record initial (st : SharedState) : Prop := {
  in_none : running st.1 = [];
  in_storage : storage_ok C (vstorage st.2);
  in_marked : marked_sound st.2;
  in_numbers : unique_numbers (vstorage st.2);
  in_base : 0 < base_level_ st.2;
  in_bottommost : ∀ l f, (l, f) ∈ bottommost_files_ (vstorage st.2) → f ∈ LevelFiles (vstorage st.2) l;
  in_idle : ∀ l f, f ∈ LevelFiles (vstorage st.2) l → being_compacted f = false;
}.

(** The running compactions share no file and, where they have the same output
    level below level 0, no key; a file is marked exactly when it is an input of
    one of them. *)
Record disjoint_running (st : SharedState) : Prop := {
  dr_files : ∀ c d, c ∈ running st.1 → d ∈ running st.1 → c_id c ≠ c_id d → ∀ n, n ∈ c_numbers c → ¬ n ∈ c_numbers d;
  dr_ranges : ∀ c d, c ∈ running st.1 → d ∈ running st.1 → c_id c ≠ c_id d → c_output_level c = c_output_level d →
    c_output_level c ≠ 0%nat → ranges_disjoint C (output_range c) (output_range d);
  dr_marks : ∀ l f, f ∈ LevelFiles (vstorage st.2) l →
    being_compacted f = true ↔ ∃ c, c ∈ running st.1 ∧ GetNumber f ∈ c_numbers c;
}.

Definition covers_to_base (base : Z) (d : Compaction) (f : FileMetaData) : Prop :=
  c_output_level d = Z.to_nat base ∧ cmp_le CompareUser (c_smallest_user_key d) (smallest_ukey f) ∧
  cmp_le CompareUser (largest_ukey f) (c_largest_user_key d).

Record running_inv (st : SharedState) : Prop := {
  ri_disjoint : disjoint_running st;
  ri_storage : storage_ok C (vstorage st.2);
  ri_marked : marked_sound st.2;
  ri_numbers : unique_numbers (vstorage st.2);
  ri_base : 0 < base_level_ st.2;
  ri_bottommost : ∀ l f, (l, f) ∈ bottommost_files_ (vstorage st.2) → f ∈ LevelFiles (vstorage st.2) l;
  ri_ids : NoDup (c_id <$> running st.1);
  ri_covered : ∀ d f, d ∈ running st.1 → f ∈ LevelFiles (vstorage st.2) 0 → GetNumber f ∈ c_numbers d →
    covers_to_base (base_level_ st.2) d f;
}.

Context (HC : ComparatorOk C) (Hts : no_timestamps C).

(** ** Marking keeps the version well formed *)

Lemma storage_ok_mark ns b v : storage_ok C v → storage_ok C (map_files (mark_number ns b) v).
Proof using HC.
  intros (Hv & Hlv & H0). pose proof (mark_keeps ns b) as Hk. split_and!.
  - by apply indexed_map.
  - intros l Hl. rewrite level_files_map. destruct (Hlv l Hl) as [Hb Hs]. split.
    + rewrite Forall_fmap. eapply Forall_impl; [exact Hb|]. intros f. cbn. by destruct (Hk f) as (-> & -> & _).
    + clear Hb. induction Hs as [|f fs _ IH Hf]; [constructor|]. rewrite fmap_cons. constructor; [done|].
      rewrite Forall_fmap. eapply Forall_impl; [exact Hf|]. intros g. cbn.
      by destruct (Hk f) as (_ & -> & _), (Hk g) as (-> & _ & _).
  - rewrite level_files_map, Forall_fmap. eapply Forall_impl; [exact H0|]. intros f. unfold bounds_ok. cbn.
    by destruct (Hk f) as (-> & -> & _).
Qed.

Lemma bottommost_mark ns b v :
  (∀ l f, (l, f) ∈ bottommost_files_ v → f ∈ LevelFiles v l) →
  ∀ l f, (l, f) ∈ bottommost_files_ (map_files (mark_number ns b) v) → f ∈ LevelFiles (map_files (mark_number ns b) v) l.
Proof using Type.
  intros H l f ([l' g] & Heq & Hin)%list_elem_of_fmap. injection Heq as -> ->. rewrite level_files_map.
  by apply list_elem_of_fmap_2, H.
Qed.

(** ** The steps *)

Lemma initial_inv st : initial st → running_inv st.
Proof using Type.
  intros [H1 H2 H3 Hu H4 H5 H6]. split; try done; [|by rewrite H1; apply NoDup_nil_2|].
  - split; rewrite ?H1; try by intros c d Hc%not_elem_of_nil.
    intros l f Hf. rewrite (H6 l f Hf). split; [done|]. by intros (c & Hc%not_elem_of_nil & _).
  - rewrite H1. by intros d f ?%not_elem_of_nil.
Qed.

Lemma score_inv p w w' : ComputeCompactionScore E o so w = Some w' → running_inv (p, w) → running_inv (p, w').
Proof using Type.
  intros (Hv & Hb & Hm)%compute_score_keeps [[D1 D2 D3] H2 H3 Hu H4 H5 H6 H7]. cbn in *.
  split; cbn; try done; rewrite ?Hv, ?Hb; try done; [split; cbn; rewrite ?Hv; done|by apply Hm].
Qed.

Lemma unique_mark ns b v : unique_numbers v → unique_numbers (map_files (mark_number ns b) v).
Proof using Type.
  intros Hu l l' f g. rewrite !level_files_map. intros (f0 & -> & Hf)%list_elem_of_fmap (g0 & -> & Hg)%list_elem_of_fmap.
  destruct (mark_keeps ns b f0) as (_ & _ & ->), (mark_keeps ns b g0) as (_ & _ & ->). intros Hn.
  by destruct (Hu l l' f0 g0 Hf Hg Hn) as [-> ->].
Qed.

Lemma ranges_disjoint_sym a b : ranges_disjoint C a b → ranges_disjoint C b a.
Proof using Type. unfold ranges_disjoint. tauto. Qed.

Context (Hpri : compaction_pri o ≠ kRoundRobin) (Hflush : use_new_flush o ≠ 0) (Hweight : l0_weight_compaction o = false).

Lemma inv_pickable p w : running_inv (p, w) → pickable C o p w.
Proof using Hflush Hweight.
  intros [H1 H2 H3 Hu H4 H5 H6 H7]. split; try done; [intros Hw; congruence|].
  intros f Hf (d & Hd & Hn)%(dr_marks _ H1 0 f Hf). exists d. split; [done|]. by apply H7.
Qed.

(** The files of a sound compaction are files of the version. *)
Lemma sound_files p w c f : pick_sound C p w c → f ∈ c_files c →
  ∃ l, f ∈ LevelFiles (vstorage w) l ∧ (l = c_start_level c ∨ l = c_output_level c).
Proof using Type.
  intros Hc (fs & Hf & (j & -> & Hj)%list_elem_of_fmap)%elem_of_concat.
  destruct (ps_chosen C p w c Hc j Hj) as [Hl Hch]. exists (in_level j). split; [|done].
  by apply (chosen_subset C _ _ _ Hch).
Qed.

Lemma pick_covered p w c w' d f :
  running_inv (p, w) → pick_sound C p w c → marked_after w c w' →
  (c_output_level c = c_start_level c ∨ c_output_level c = next_output w (c_start_level c)) →
  (c_start_level c = 0%nat → c_output_level c ≠ 0%nat) →
  d ∈ c :: running p → f ∈ LevelFiles (vstorage w') 0 → GetNumber f ∈ c_numbers d → covers_to_base (base_level_ w') d f.
Proof using Type.
  intros Hi Hc (Hv & Hb & _) Hlev Hguard Hd Hf. rewrite Hv in Hf. unfold MarkFilesBeingCompacted in Hf.
  rewrite level_files_map in Hf. apply list_elem_of_fmap in Hf as (g & -> & Hg).
  unfold covers_to_base, smallest_ukey, largest_ukey. destruct (mark_keeps (c_numbers c) true g) as (-> & -> & ->).
  fold (smallest_ukey g) (largest_ukey g). rewrite Hb. intros Hn.
  apply elem_of_cons in Hd as [->|Hd]; [|by apply (ri_covered _ Hi d g)].
  apply list_elem_of_fmap in Hn as (g' & Hn & Hg'). destruct (sound_files p w c g' Hc Hg') as (l & Hl & Hlc).
  destruct (ri_numbers _ Hi 0%nat l g g' Hg Hl Hn) as [<- <-].
  assert (E0 : c_start_level c = 0%nat).
  { destruct Hlc as [|E0]; [done|]. destruct Hlev as [|Hlev]; [congruence|]. rewrite Hlev in E0.
    unfold next_output in E0. pose proof (ri_base _ Hi) as Hbase. cbn in Hbase. destruct (_ =? _)%nat; lia. }
  destruct (ps_covers C p w c Hc g Hg') as [R1 R2]. split_and!; [|done|done].
  destruct Hlev as [Hlev|Hlev]; [by destruct (Hguard E0); congruence|]. by rewrite Hlev, E0.
Qed.

Lemma pick_disjoint p w c w' :
  running_inv (p, w) → pick_sound C p w c → vstorage w' = MarkFilesBeingCompacted c true (vstorage w) →
  disjoint_running (RegisterCompaction o c p, w').
Proof using Type.
  intros Hi Hc Hv. destruct (ri_disjoint _ Hi) as [D1 D2 D3].
  assert (Hnew : ∀ d n, d ∈ running p → n ∈ c_numbers c → ¬ n ∈ c_numbers d).
  { intros d n Hd (f & -> & Hf)%list_elem_of_fmap Hn. destruct (sound_files p w c f Hc Hf) as (l & Hl & _).
    pose proof (ps_idle C p w c Hc f Hf) as Hidle. apply not_true_iff_false in Hidle. apply Hidle.
    apply (D3 l f Hl). by exists d. }
  split; cbn [fst snd].
  - intros a b [->|Ha]%elem_of_cons [->|Hb]%elem_of_cons Hne n Hn; [done|by apply Hnew| |by apply (D1 a b)].
    intros Hn'. by apply (Hnew a n).
  - intros a b [->|Ha]%elem_of_cons [->|Hb]%elem_of_cons Hne El H0; [done| | |by apply D2].
    + by apply (ps_apart C p w c Hc).
    + apply ranges_disjoint_sym, (ps_apart C p w c Hc); congruence.
  - intros l f. rewrite Hv. unfold MarkFilesBeingCompacted. rewrite level_files_map. intros (g & -> & Hg)%list_elem_of_fmap.
    destruct (mark_keeps (c_numbers c) true g) as (_ & _ & ->). rewrite mark_being_compacted.
    destruct (decide (GetNumber g ∈ c_numbers c)) as [Hn|Hn].
    + split; [|done]. intros _. exists c. split; [left|done].
    + rewrite (D3 l g Hg). split; intros (d & Hd & Hin); exists d; (split; [|done]); [by right|].
      apply elem_of_cons in Hd as [->|]; done.
Qed.

Lemma pick_inv p w id random c p' w' :
  id ∉ c_id <$> running p → PickCompaction E o so p id random w = Some (Some c, p', w') →
  (c_start_level c = 0%nat → c_output_level c ≠ 0%nat) → running_inv (p, w) → running_inv (p', w').
Proof using HC Hts Hpri Hflush Hweight.
  intros Hid Hp Hguard Hi. destruct (inv_pickable p w Hi) as [H1 H2 H3 H4 H5 H6].
  destruct (pick_compaction_spec C HC Hts SC E o so p w H1 H2 H3 H4 H5 Hpri H6 id random c p' w' Hp)
    as (S1 & S2 & -> & S4 & S5 & _). pose proof S4 as (Hv & Hb & Hm).
  pose proof (bottommost_mark (c_numbers c) true _ (ri_bottommost _ Hi)) as Hbot.
  split; cbn [fst snd].
  - by apply (pick_disjoint p w).
  - rewrite Hv. by apply storage_ok_mark.
  - apply Hm. rewrite Hv. exact Hbot.
  - rewrite Hv. apply unique_mark, (ri_numbers _ Hi).
  - by rewrite Hb.
  - rewrite Hv. exact Hbot.
  - cbn. rewrite S2. apply NoDup_cons_2; [done|]. apply (ri_ids _ Hi).
  - intros d f. by apply (pick_covered p w c w').
Qed.

Lemma none_inv p w id random p' w' :
  PickCompaction E o so p id random w = Some (None, p', w') → running_inv (p, w) → running_inv (p', w').
Proof using HC Hts Hpri Hflush Hweight.
  intros Hp Hi. destruct (inv_pickable p w Hi) as [H1 H2 H3 H4 H5 H6].
  destruct (pick_none_spec C HC Hts SC E o so p w H1 H2 H3 H4 Hpri id random p' w' Hp) as (-> & idx & ->).
  destruct Hi as [[D1 D2 D3] I2 I3 I4 I5 I6 I7 I8]. by split; [split|..].
Qed.

(** Unregistering by address removes one compaction. *)
Lemma released_iff p c d :
  d ∈ running (UnregisterCompaction o c p) ↔ d ∈ running p ∧ c_id d ≠ c_id c.
Proof using Type. cbn. rewrite list_elem_of_filter. tauto. Qed.

Lemma same_id p c d : NoDup (c_id <$> running p) → c ∈ running p → d ∈ running p → c_id d = c_id c → d = c.
Proof using Type.
  intros Hnd (i & Hi)%list_elem_of_lookup_1 (j & Hj)%list_elem_of_lookup_1 Heq.
  assert (i = j) as ->; [|congruence]. apply (NoDup_lookup _ i j (c_id c) Hnd); rewrite list_lookup_fmap, ?Hi, ?Hj; [done|].
  cbn. by rewrite Heq.
Qed.

(** The marks after a release. *)
Lemma release_mark p w c l f :
  running_inv (p, w) → c ∈ running p → f ∈ LevelFiles (MarkFilesBeingCompacted c false (vstorage w)) l →
  ∃ g, g ∈ LevelFiles (vstorage w) l ∧ f = mark_number (c_numbers c) false g ∧
    (being_compacted f = true ↔ ∃ d, d ∈ running (UnregisterCompaction o c p) ∧ GetNumber g ∈ c_numbers d).
Proof using Type.
  intros Hi Hc. unfold MarkFilesBeingCompacted. rewrite level_files_map. intros (g & -> & Hg)%list_elem_of_fmap.
  exists g. split; [done|]. split; [done|]. rewrite mark_being_compacted. destruct (ri_disjoint _ Hi) as [D1 _ D3].
  destruct (decide (GetNumber g ∈ c_numbers c)) as [Hn|Hn].
  - split; [done|]. intros (d & [Hd Hne]%released_iff & Hin). exfalso. by apply (D1 d c Hd Hc Hne (GetNumber g)).
  - rewrite (D3 l g Hg). split.
    + intros (d & Hd & Hin). exists d. split; [|done]. apply released_iff. split; [done|]. intros Heq.
      apply Hn. by rewrite <- (same_id p c d (ri_ids _ Hi) Hc Hd Heq).
    + intros (d & [Hd _]%released_iff & Hin). by exists d.
Qed.

Lemma release_inv p w c p' v' :
  c ∈ running p → ReleaseCompactionFiles o c (p, vstorage w) = (p', v') → running_inv (p, w) →
  running_inv (p', w <| vstorage := v' |>).
Proof using HC.
  intros Hc Hrel Hi. unfold ReleaseCompactionFiles in Hrel. injection Hrel as <- <-. cbn [fst snd].
  destruct (ri_disjoint _ Hi) as [D1 D2 D3]. split; cbn [fst snd vstorage base_level_].
  - split; cbn [fst snd vstorage].
    + intros a b [Ha _]%released_iff [Hb _]%released_iff. by apply D1.
    + intros a b [Ha _]%released_iff [Hb _]%released_iff. by apply D2.
    + intros l f Hf. destruct (release_mark p w c l f Hi Hc Hf) as (g & Hg & -> & Hiff).
      by destruct (mark_keeps (c_numbers c) false g) as (_ & _ & ->).
  - apply storage_ok_mark, (ri_storage _ Hi).
  - intros l f Hf. destruct (ri_marked _ Hi l f Hf) as [Hin Hidle]. split; [|done]. cbn [snd vstorage].
    unfold MarkFilesBeingCompacted. rewrite level_files_map. apply list_elem_of_fmap. exists f. split; [|done].
    unfold mark_number. rewrite bool_decide_false; [done|]. intros Hn. apply not_true_iff_false in Hidle.
    apply Hidle, (D3 l f Hin). by exists c.
  - apply unique_mark, (ri_numbers _ Hi).
  - apply (ri_base _ Hi).
  - apply bottommost_mark, (ri_bottommost _ Hi).
  - cbn. eapply sublist_NoDup; [apply (ri_ids _ Hi)|]. apply fmap_sublist, sublist_filter.
  - intros d f [Hd _]%released_iff Hf. destruct (release_mark p w c 0 f Hi Hc Hf) as (g & Hg & -> & _).
    unfold covers_to_base, smallest_ukey, largest_ukey. destruct (mark_keeps (c_numbers c) false g) as (-> & -> & ->).
    by apply (ri_covered _ Hi d g).
Qed.

Lemma step_inv st st' : step st st' → running_inv st → running_inv st'.
Proof using HC Hts Hpri Hflush Hweight.
  destruct 1; eauto using pick_inv, none_inv, release_inv, score_inv.
Qed.

Lemma reachable_inv st st' : initial st → rtc step st st' → running_inv st'.
Proof using HC Hts Hpri Hflush Hweight.
  intros Hi%initial_inv Hr. induction Hr as [|a b c Hab _ IH]; [done|]. apply IH. by apply (step_inv a b).
Qed.
End running.

(** ** Theorems *)


(** ** Witnesses *)

#[local] Existing Instance BytewiseComparator.
#[local] Existing Instance simple_choices.

Definition run_options : CompactOptions :=
  mkOptions kCompactionStyleLevel kMinOverlappingRatio 3 1 true false (dlit 1 2) 1 false 1
    10000 1 (dbl_of_Z 10) false 0 1 kDisableCompressionOption [] false.

Definition run_view : LevelView := PrepareView sample_env run_options sample_score_options sample_view.
Definition run_scored : LevelView :=
  default run_view (ComputeCompactionScore sample_env run_options sample_score_options run_view).

Lemma run_computed : ComputeCompactionScore sample_env run_options sample_score_options run_view = Some run_scored.
Proof.
  unfold run_scored. destruct (ComputeCompactionScore _ _ _ _) eqn:E; [done|]. vm_compute in E. discriminate E.
Qed.

Lemma unique_of_nodup v : NoDup (GetNumber <$> concat (files_ v)) → unique_numbers v.
Proof.
  unfold unique_numbers, LevelFiles. induction (files_ v) as [|fs ls IH]; intros Hnd l l' f g.
  { by rewrite lookup_nil; intros ?%not_elem_of_nil. }
  cbn [concat] in Hnd. rewrite fmap_app in Hnd. apply NoDup_app in Hnd as (H1 & H2 & H3).
  assert (Hrest : ∀ n h, h ∈ default [] (ls !! n) → GetNumber h ∈ GetNumber <$> concat ls).
  { intros n h Hh. apply list_elem_of_fmap_2, elem_of_concat. destruct (ls !! n) as [hs|] eqn:En; cbn in Hh;
      [|by apply not_elem_of_nil in Hh]. exists hs. split; [done|]. by apply list_elem_of_lookup_2 in En. }
  destruct l as [|l], l' as [|l']; cbn; intros Hf Hg Hn.
  - split; [done|]. apply list_elem_of_lookup_1 in Hf as (i & Hi), Hg as (j & Hj).
    assert (i = j) as ->; [|congruence]. apply (NoDup_lookup _ i j (GetNumber f) H1); rewrite list_lookup_fmap, ?Hi, ?Hj;
      [done|]. cbn. by rewrite Hn.
  - exfalso. apply (H2 (GetNumber f)); [by apply list_elem_of_fmap_2|]. rewrite Hn. by apply (Hrest l').
  - exfalso. apply (H2 (GetNumber g)); [by apply list_elem_of_fmap_2|]. rewrite <- Hn. by apply (Hrest l).
  - destruct (IH H3 l l' f g Hf Hg Hn) as [-> ->]. done.
Qed.

Lemma run_initial : initial BytewiseComparator (idle_picker, run_scored).
Proof.
  destruct (compute_score_keeps _ _ _ _ _ run_computed) as (Hv & Hb & Hm).
  change (vstorage run_view) with prepared_files in *. split; cbn [fst snd]; rewrite ?Hv.
  - reflexivity.
  - apply prepared_files_ok.
  - apply Hm, prepared_bottommost.
  - apply unique_of_nodup. apply (bool_decide_unpack _). vm_compute. exact I.
  - rewrite Hb. vm_compute. reflexivity.
  - apply prepared_bottommost.
  - intros l f Hf. assert (H : Forall (λ f, being_compacted f = false) (concat (files_ prepared_files))) by repeat constructor.
    rewrite Forall_forall in H. apply H, elem_of_concat. unfold LevelFiles in Hf.
    destruct (files_ prepared_files !! l) as [fs|] eqn:El; [|by apply not_elem_of_nil in Hf].
    exists fs. split; [done|]. by apply list_elem_of_lookup_2 in El.
Qed.

