(* ===== verification/BlobGarbageMeter.v ===== *)
(** * Garbage in blob files

    Models [src/db/blob/blob_garbage_meter.cc] and its header: the references
    to each blob file that a compaction reads and writes, and the garbage their
    difference amounts to. *)

From S2P Require Import Prelude Coding BlobIndex Comparator DbFormat FileMeta TableIterator.

(** ** Flows *)

Record BlobStats := mkBlobStats {
  count_ : Z;
  bytes_ : Z;
}.

Definition NoBlobs : BlobStats := mkBlobStats 0 0.
Definition AddBlob (bytes : Z) (s : BlobStats) : BlobStats :=
  mkBlobStats (count_ s +64 1) (bytes_ s +64 bytes).
Definition AddBlobs (count bytes : Z) (s : BlobStats) : BlobStats :=
  mkBlobStats (count_ s +64 count) (bytes_ s +64 bytes).

Record BlobInOutFlow := mkFlow {
  in_flow_ : BlobStats;
  out_flow_ : BlobStats;
}.

Definition AddInFlow (bytes : Z) (f : BlobInOutFlow) : BlobInOutFlow :=
  mkFlow (AddBlob bytes (in_flow_ f)) (out_flow_ f).
Definition AddOutFlow (bytes : Z) (f : BlobInOutFlow) : BlobInOutFlow :=
  mkFlow (in_flow_ f) (AddBlob bytes (out_flow_ f)).

(** [IsValid] is asserted by every operation on a flow. *)
Definition IsValid (f : BlobInOutFlow) : bool :=
  (count_ (out_flow_ f) <=? count_ (in_flow_ f)) && (bytes_ (out_flow_ f) <=? bytes_ (in_flow_ f)).
Definition HasGarbage (f : BlobInOutFlow) : bool := count_ (out_flow_ f) <? count_ (in_flow_ f).
Definition GetGarbageCount (f : BlobInOutFlow) : Z := count_ (in_flow_ f) -64 count_ (out_flow_ f).
Definition GetGarbageBytes (f : BlobInOutFlow) : Z := bytes_ (in_flow_ f) -64 bytes_ (out_flow_ f).

(** ** The meter *)

Abbreviation flows := (gmap Z BlobInOutFlow).

(** [BlobLogRecord::kHeaderSize] *)
Definition kBlobHeaderSize : Z := 32.

(** [None] is an error; an entry that is no blob reference has the invalid file
    number. *)
Definition ParseBlob (e : entry) : option (Z * Z) :=
  ikey ← ParseInternalKey e.1;
  if negb (type ikey =? kTypeBlobIndex) then Some (kInvalidBlobFileNumber, 0)
  else
    b ← DecodeBlobIndex e.2;
    if IsInlined b || HasTTL b then None
    else Some (blob_file_number b,
               blob_size b +64 (Z.of_nat (length (user_key ikey)) +64 kBlobHeaderSize)).

Definition ProcessInFlow (e : entry) (m : flows) : option flows :=
  '(n, bytes) ← ParseBlob e;
  if n =? kInvalidBlobFileNumber then Some m
  else Some (<[n := AddInFlow bytes (default (mkFlow NoBlobs NoBlobs) (m !! n))]> m).

Definition ProcessOutFlow (e : entry) (m : flows) : option flows :=
  '(n, bytes) ← ParseBlob e;
  if n =? kInvalidBlobFileNumber then Some m
  else match m !! n with
       | None => Some m
       | Some f => Some (<[n := AddOutFlow bytes f]> m)
       end.

(** Entries read ([true]) and written ([false]), in the order of the
    compaction. *)
Fixpoint meter_run (events : list (bool * entry)) (m : flows) : option flows :=
  match events with
  | [] => Some m
  | (read, e) :: events' =>
      m' ← (if read then ProcessInFlow e m else ProcessOutFlow e m);
      meter_run events' m'
  end.

(** ** References *)

(** The references to file [n] read or written, by the bytes they stand for. *)
Definition refs (n : Z) (read : bool) (events : list (bool * entry)) : list Z :=
  omap (λ ev : bool * entry,
    if bool_decide (ev.1 = read) then
      match ParseBlob ev.2 with
      | Some (n', bytes) => if bool_decide (n' = n) then Some bytes else None
      | None => None
      end
    else None) events.

(** Nothing is written that was not read before, and the totals fit. *)
Definition written_after_read (events : list (bool * entry)) : Prop :=
  ∀ n i, n ≠ kInvalidBlobFileNumber → (i <= length events)%nat →
    refs n false (take i events) ⊆+ refs n true (take i events).
Definition totals_fit (n : Z) (events : list (bool * entry)) : Prop :=
  Z.of_nat (length (refs n true events)) < 2 ^ 64 ∧ foldr Z.add 0 (refs n true events) < 2 ^ 64.

(** ** Lemmas *)

Definition stats_of (l : list Z) : BlobStats := mkBlobStats (u64 (Z.of_nat (length l))) (u64 (foldr Z.add 0 l)).

Lemma stats_of_snoc l b : AddBlob b (stats_of l) = stats_of (l ++ [b]).
Proof.
  unfold AddBlob, stats_of. cbn [count_ bytes_]. rewrite !u64_add_l, foldr_app, length_app. cbn.
  assert (E : foldr Z.add (b + 0) l = foldr Z.add 0 l + b) by (induction l; cbn; lia).
  rewrite E. do 2 f_equal. lia.
Qed.

Lemma meter_run_snoc events ev m :
  meter_run (events ++ [ev]) m =
  m' ← meter_run events m; if ev.1 then ProcessInFlow ev.2 m' else ProcessOutFlow ev.2 m'.
Proof.
  revert m. induction events as [|[r e] events IH]; intros m; cbn [meter_run app].
  - destruct ev as [r e]. cbn. by destruct (if r then _ else _).
  - destruct (if r then _ else _); cbn [mbind option_bind]; [apply IH|done].
Qed.

Lemma refs_snoc n r events ev :
  refs n r (events ++ [ev]) = refs n r events ++ refs n r [ev].
Proof. apply omap_app. Qed.

Lemma refs_one n r r' e :
  refs n r [(r', e)] =
  match ParseBlob e with
  | Some (n', b) => if bool_decide (r' = r) && bool_decide (n' = n) then [b] else []
  | None => []
  end.
Proof. unfold refs. cbn. destruct (ParseBlob e) as [[n' b]|]; repeat case_bool_decide; done. Qed.

Lemma parse_bytes e n b : ParseBlob e = Some (n, b) → 0 <= b.
Proof.
  unfold ParseBlob. destruct (ParseInternalKey e.1) as [k|]; [|done]. cbn [mbind option_bind].
  destruct (negb _); [intros [= <- <-]; lia|]. destruct (DecodeBlobIndex e.2); [|done]. cbn [mbind option_bind].
  destruct (_ || _); [done|]. intros [= <- <-]. apply u64_range.
Qed.

Lemma refs_bytes n r events : Forall (λ b, 0 <= b) (refs n r events).
Proof.
  apply Forall_forall. intros b Hb. unfold refs in Hb. apply list_elem_of_omap in Hb as ([r' e] & _ & He).
  cbn in He. destruct (bool_decide _); [|done]. destruct (ParseBlob e) as [[n' b']|] eqn:Ep; [|done].
  destruct (bool_decide _); [|done]. injection He as <-. by eapply parse_bytes.
Qed.

Lemma total_nonneg l : Forall (λ b, 0 <= b) l → 0 <= foldr Z.add 0 l.
Proof. induction 1; cbn; lia. Qed.

Lemma total_submseteq l k :
  Forall (λ b, 0 <= b) k → l ⊆+ k → 0 <= foldr Z.add 0 l <= foldr Z.add 0 k.
Proof.
  intros Hk Hs. apply submseteq_Permutation in Hs as [r Hr]. rewrite Hr in Hk. apply Forall_app in Hk as [H1 H2].
  assert (E : foldr Z.add 0 k = foldr Z.add 0 l + foldr Z.add 0 r).
  { assert (Hp : ∀ a b : list Z, a ≡ₚ b → foldr Z.add 0 a = foldr Z.add 0 b) by (induction 1; cbn; lia).
    rewrite (Hp _ _ Hr). clear. induction l; cbn; lia. }
  apply total_nonneg in H1, H2. lia.
Qed.

(** The meter holds a flow for each file that was read from, with the totals of
    the references read and written. *)
Lemma meter_spec events m :
  written_after_read events → meter_run events ∅ = Some m →
  ∀ n, n ≠ kInvalidBlobFileNumber →
    m !! n = match refs n true events with
             | [] => None
             | ins => Some (mkFlow (stats_of ins) (stats_of (refs n false events)))
             end.
Proof.
  revert m. induction events as [|[r e] events IH] using rev_ind; intros m Hw; [by intros [= <-]|].
  rewrite meter_run_snoc. intros Hm n Hn. specialize (Hw n _ Hn (le_n _)) as Hsub. rewrite firstn_all in Hsub.
  destruct (meter_run events ∅) as [m0|]; [|done]. cbn [mbind option_bind fst snd] in Hm.
  assert (Hw0 : written_after_read events).
  { intros n' i Hn' Hi. specialize (Hw n' i Hn'). rewrite take_app_le, length_app in Hw by done.
    apply Hw. cbn. lia. }
  specialize (IH _ Hw0 eq_refl n Hn). rewrite !refs_snoc, !refs_one in *.
  destruct r; [unfold ProcessInFlow in Hm|unfold ProcessOutFlow in Hm];
    destruct (ParseBlob e) as [[n' b]|] eqn:Ep; try done; cbn [mbind option_bind] in Hm.
  - rewrite (bool_decide_true (true = true)), (bool_decide_false (true = false)) by done. cbn [andb].
    rewrite app_nil_r. destruct (Z.eqb_spec n' kInvalidBlobFileNumber) as [->|Hn'].
    + injection Hm as <-. rewrite bool_decide_false, app_nil_r by congruence. done.
    + injection Hm as <-. destruct (decide (n' = n)) as [->|E];
        [|by rewrite (bool_decide_false (n' = n)), app_nil_r, lookup_insert_ne].
      rewrite (bool_decide_true (n = n)), lookup_insert_eq, IH by done. unfold AddInFlow.
      destruct (refs n true events) as [|x l] eqn:Er; cbn [default from_option app].
      * assert (Hf : refs n false events = []).
        { specialize (Hw0 n _ Hn (le_n _)). rewrite firstn_all in Hw0. rewrite Er in Hw0.
          by apply submseteq_nil_r in Hw0. }
        rewrite Hf. do 2 f_equal. apply (stats_of_snoc [] b).
      * do 2 f_equal. apply (stats_of_snoc (x :: l) b).
  - rewrite (bool_decide_false (false = true)), (bool_decide_true (false = false)) by done. cbn [andb].
    rewrite app_nil_r. destruct (Z.eqb_spec n' kInvalidBlobFileNumber) as [->|Hn'].
    + injection Hm as <-. rewrite bool_decide_false, app_nil_r by congruence. done.
    + destruct (decide (n' = n)) as [->|E];
        [rewrite (bool_decide_true (n = n)) in * by done|rewrite (bool_decide_false (n' = n)) by done].
      * rewrite IH in Hm. destruct (refs n true events) as [|x l] eqn:Er.
        { cbn in Hsub. apply submseteq_nil_r in Hsub.
          by destruct (refs n false events). }
        injection Hm as <-. rewrite lookup_insert_eq. unfold AddOutFlow. cbn [in_flow_ out_flow_].
        by rewrite stats_of_snoc.
      * rewrite ?app_nil_r. destruct (m0 !! n'); injection Hm as <-; [by rewrite lookup_insert_ne|done].
Qed.

(** The number and the size of the garbage recorded for a blob file are those
    of the references read and not written again, and the flow is valid, so no
    subtraction wraps around. *)
Theorem garbage_exact events m n f :
  written_after_read events → totals_fit n events → n ≠ kInvalidBlobFileNumber →
  meter_run events ∅ = Some m → m !! n = Some f →
  let ins := refs n true events in let outs := refs n false events in
  IsValid f = true ∧ (HasGarbage f = true ↔ (length outs < length ins)%nat) ∧
  GetGarbageCount f = Z.of_nat (length ins) - Z.of_nat (length outs) ∧
  GetGarbageBytes f = foldr Z.add 0 ins - foldr Z.add 0 outs.
Proof.
  intros Hw [Hc Hb] Hn Hm Hf ins outs. pose proof (meter_spec _ _ Hw Hm n Hn) as Hs.
  specialize (Hw n _ Hn (le_n _)). rewrite firstn_all in Hw. fold ins outs in Hs, Hw, Hc, Hb.
  assert (f = mkFlow (stats_of ins) (stats_of outs)) as -> by (destruct ins; congruence).
  pose proof (submseteq_length _ _ Hw) as Hl.
  pose proof (total_submseteq outs ins (refs_bytes n true events) Hw) as Ht.
  unfold IsValid, HasGarbage, GetGarbageCount, GetGarbageBytes, stats_of. cbn [count_ bytes_ in_flow_ out_flow_].
  rewrite !(u64_id (Z.of_nat _)), !(u64_id (foldr _ _ _)) by (unfold u64_ok; lia).
  split_and!.
  - apply andb_true_iff. split; apply Z.leb_le; lia.
  - rewrite Z.ltb_lt. lia.
  - apply u64_id. unfold u64_ok. lia.
  - apply u64_id. unfold u64_ok. lia.
Qed.

(** ** Concrete inputs *)

Definition sample_ref (u : byte) (seq size : Z) : entry :=
  (InternalKey [u] seq kTypeBlobIndex, EncodeBlob 7 100 size 0).

Lemma garbage_exact_witness :
  let events := [(true, sample_ref x61 5 10); (false, sample_ref x61 5 10); (true, sample_ref x61 3 20)] in
  ∃ m f, meter_run events ∅ = Some m ∧ m !! 7 = Some f ∧ GetGarbageCount f = 1 ∧ GetGarbageBytes f = 53.
Proof.
  intros events.
  assert (Hev : match meter_run events ∅ with
                | Some m => match m !! 7 with Some _ => True | None => False end
                | None => False end) by (vm_compute; exact I).
  destruct (meter_run events ∅) as [m|] eqn:Em; [|destruct Hev].
  destruct (m !! 7) as [f|] eqn:Ef; [|destruct Hev]. exists m, f.
  assert (Hw : written_after_read events).
  { intros n i Hn Hi. destruct (decide (n = 7)) as [->|Hne].
    - cbn in Hi. destruct i as [|[|[|[|i]]]]; [vm_compute; repeat constructor..|lia].
    - assert (Hr : ∀ r l, l ⊆ events → refs n r l = []).
      { intros r l Hl. induction l as [|ev l IHl]; [done|]. change (ev :: l) with ([ev] ++ l).
        unfold refs. rewrite omap_app. fold (refs n r l) (refs n r [ev]).
        rewrite IHl by (intros x Hx; apply Hl; by right).
        assert (He : ∃ b, ParseBlob ev.2 = Some (7, b)).
        { assert (He : ev ∈ events) by (apply Hl; left). unfold events in He.
          rewrite !elem_of_cons, elem_of_nil in He.
          destruct He as [->|[->|[->|[]]]]; eexists; vm_compute; reflexivity. }
        destruct ev as [r' e], He as [b Hb]. cbn in Hb. rewrite refs_one, Hb.
        by rewrite (bool_decide_false (7 = n)), andb_false_r by congruence. }
      rewrite !Hr by (apply sublist_subseteq, sublist_take). done. }
  destruct (garbage_exact events m 7 f Hw) as (_ & _ & G1 & G2).
  - split; vm_compute; reflexivity.
  - done.
  - exact Em.
  - exact Ef.
  - split_and!; [reflexivity|exact Ef|rewrite G1; vm_compute; reflexivity|rewrite G2; vm_compute; reflexivity].
Defined.
