(* ===== verification/CompactionOutputs.v ===== *)
(** * Where compaction cuts its output

    Models [src/db/compaction/compaction_outputs.cc] and its header up to the
    decision to start a new output file: the files to isolate for their age,
    the grandparent files that the current output overlaps, and
    [ShouldStopBefore] with the bucket boundaries of a compaction from level 0
    to level 1.  The table builder and a user-defined partitioner are
    parameters.  Writing and closing the files is modelled in
    [CompactionJob]. *)

From S2P Require Import Prelude Coding Comparator DbFormat FileMeta Bucket BucketManager BucketPartition.
From S2P Require Import BlobGarbageMeter VersionStorage TableIterator BuildTable Compaction CompactionScore.

(** ** State *)

(** The position in the files of the level below the output level.  An
    [InternalKey] is its encoding, the empty key standing for an unset one. *)
Record GrandparentState := mkGrandparent {
  grandparent_index_ : nat;
  being_grandparent_gap_ : bool;
  grandparent_overlapped_bytes_ : Z;
  seen_key_ : bool;
  grandparent_boundary_switched_num_ : nat;
}.

#[export] Instance grandparent_eta : Eta GrandparentState := λ g,
  mkGrandparent (grandparent_index_ g) (being_grandparent_gap_ g) (grandparent_overlapped_bytes_ g)
    (seen_key_ g) (grandparent_boundary_switched_num_ g).

Definition NewGrandparentState : GrandparentState := mkGrandparent 0 true 0 false 0.

(** [None] is the index -1. *)
Record TtlState := mkTtl {
  cur_files_to_cut_for_ttl_ : option nat;
  next_files_to_cut_for_ttl_ : nat;
}.

(** An output file.  [contents] are the records of the table, known once it is
    finished; of the validator only the last key matters. *)
Record Output := mkOutput {
  meta : FileMetaData;
  validator : key;
  finished : bool;
  contents : list entry;
}.

#[export] Instance output_eta : Eta Output := λ o, mkOutput (meta o) (validator o) (finished o) (contents o).

Record OutputStats := mkOutputStats {
  num_output_records : Z;
  bytes_written : Z;
  num_output_files : Z;
}.

(** [builder_] holds the records added to the open table. *)
Record CompactionOutputs := mkOutputs {
  builder_ : option (list entry);
  current_output_file_size_ : Z;
  smallest_preferred_seqno_ : Z;
  outputs_ : list Output;
  stats_ : OutputStats;
  is_proximal_level_ : bool;
  last_key_for_partitioner_ : key;
  bucket_snapshot_ : option BucketSnapshot;
  current_bucket_index_ : Z;
  is_split_ : bool;
  local_output_split_key_ : option key;
  files_to_cut_for_ttl_ : list FileMetaData;
  ttl_state : TtlState;
  grandparent : GrandparentState;
  range_tombstone_lower_bound_ : key;
  level_ptrs_ : list nat;
  blob_garbage_meter_ : option flows;
}.

#[export] Instance outputs_eta : Eta CompactionOutputs := λ s,
  mkOutputs (builder_ s) (current_output_file_size_ s) (smallest_preferred_seqno_ s) (outputs_ s)
    (stats_ s) (is_proximal_level_ s) (last_key_for_partitioner_ s) (bucket_snapshot_ s)
    (current_bucket_index_ s) (is_split_ s) (local_output_split_key_ s) (files_to_cut_for_ttl_ s)
    (ttl_state s) (grandparent s) (range_tombstone_lower_bound_ s) (level_ptrs_ s)
    (blob_garbage_meter_ s).

Definition HasBuilder (s : CompactionOutputs) : bool :=
  match builder_ s with Some _ => true | None => false end.
Definition HasOutput (s : CompactionOutputs) : bool :=
  match outputs_ s with [] => false | _ => true end.
Definition ResetBuilder (s : CompactionOutputs) : CompactionOutputs :=
  let s1 := s <| builder_ := (None : option (list entry)) |> in s1 <| current_output_file_size_ := 0 |>.

(** ** Construction *)

Section outputs.
Context `{Comparator} (c : Compaction) (o : CompactOptions).

(** Old files of the output level that are not too small; cutting the output
    at their ends keeps the age of their data known. *)
Definition FillFilesToCutForTtl (E : ScoreEnv) (ttl target_file_size_base : Z) : list FileMetaData :=
  if negb (bool_decide (compaction_style o = kCompactionStyleLevel)) ||
     negb (bool_decide (compaction_pri o = kMinOverlappingRatio)) ||
     (ttl =? 0) || (length (c_inputs c) <? 2)%nat || c_bottommost_level c then []
  else match current_time E with
  | None => []
  | Some now =>
      if u64 now <? ttl then [] else
      let old_age_thres := u64 now -64 ttl / 2 in
      filter (λ f, (TryGetOldestAncesterTime E f <? old_age_thres) &&
                   (target_file_size_base / 2 <? GetFileSize f) = true)
        (match last (c_inputs c) with Some i => in_files i | None => [] end)
  end.

(** [bucket_mgr] is the bucket manager of the column family, if it has one. *)
Definition initial_snapshot (bucket_mgr : option BucketManager) : option BucketSnapshot :=
  if (c_start_level c =? 0)%nat && (c_output_level c =? 1)%nat && (use_new_flush o =? 1) then
    match bucket_mgr with
    | Some m => if initialized_ m then Some (GetSnapshot m) else None
    | None => None
    end
  else None.

Definition NewCompactionOutputs (E : ScoreEnv) (ttl target_file_size_base : Z)
    (bucket_mgr : option BucketManager) (is_proximal_level : bool) : CompactionOutputs :=
  mkOutputs None 0 kMaxSequenceNumber [] (mkOutputStats 0 0 0) is_proximal_level []
    (initial_snapshot bucket_mgr) (-1) false None
    (if (c_output_level c =? 0)%nat then [] else FillFilesToCutForTtl E ttl target_file_size_base)
    (mkTtl None 0) NewGrandparentState [] (replicate (c_number_levels c) O) None.

(** The split key counts when it lies strictly inside the subcompaction. *)
Definition SetOutputSlitKey (output_split_key start fin : option key) (s : CompactionOutputs)
    : CompactionOutputs :=
  match output_split_key with
  | None => s
  | Some k =>
      let u := ExtractUserKey k in
      if match fin with None => true | Some e => match Compare u e with Lt => true | _ => false end end &&
         match start with None => true | Some b => match Compare u b with Gt => true | _ => false end end
      then s <| local_output_split_key_ := Some k |> else s
  end.

(** ** Cutting for age *)

(** The search for the position of [k] from the next file on. *)
Fixpoint ttl_search (files : list FileMetaData) (k : key) (i : nat) : TtlState * bool :=
  match files with
  | [] => (mkTtl None i, false)
  | f :: files' =>
      match InternalKeyCompare k (smallest f) with
      | Lt => (mkTtl None i, false)
      | _ => match InternalKeyCompare k (largest f) with
             | Gt => ttl_search files' k (S i)
             | _ => (mkTtl (Some i) i, true)
             end
      end
  end.

Definition UpdateFilesToCutForTTLStates (files : list FileMetaData) (k : key) (t : TtlState)
    : TtlState * bool :=
  match files with
  | [] => (t, false)
  | _ =>
      match cur_files_to_cut_for_ttl_ t with
      | Some i =>
          match files !! i with
          | Some f => match InternalKeyCompare k (largest f) with
                      | Gt => (mkTtl None (S i), true)
                      | _ => (t, false)
                      end
          | None => (t, false)
          end
      | None =>
          ttl_search (drop (next_files_to_cut_for_ttl_ t) files) k (next_files_to_cut_for_ttl_ t)
      end
  end.

(** ** Grandparents *)

(** One turn of the loop that moves on to the last file containing [k];
    [None] leaves the loop. *)
Definition boundary_step (k : key) (g : GrandparentState) : option GrandparentState :=
  f ← c_grandparents c !! grandparent_index_ g;
  let switched := (if seen_key_ g then S else id) (grandparent_boundary_switched_num_ g) in
  if being_grandparent_gap_ g then
    if sst_ltb k (smallest f) then None
    else Some (mkGrandparent (grandparent_index_ g) false
      (if seen_key_ g then grandparent_overlapped_bytes_ g +64 GetFileSize f
       else grandparent_overlapped_bytes_ g) (seen_key_ g) switched)
  else if sst_ltb k (largest f) ||
          (sst_eqb k (largest f) &&
           ((grandparent_index_ g =? length (c_grandparents c) - 1)%nat ||
            match c_grandparents c !! S (grandparent_index_ g) with
            | Some h => sst_ltb k (smallest h)
            | None => false
            end))
  then None
  else Some (mkGrandparent (S (grandparent_index_ g)) true (grandparent_overlapped_bytes_ g)
    (seen_key_ g) switched).

Fixpoint boundary_loop (fuel : nat) (k : key) (g : GrandparentState) (n : nat)
    : GrandparentState * nat :=
  match fuel with
  | O => (g, n)
  | S fuel' =>
      match boundary_step k g with
      | None => (g, n)
      | Some g' => boundary_loop fuel' k g' ((if seen_key_ g then S else id) n)
      end
  end.

(** Backwards from file [i - 1] over the files that end at [k]. *)
Fixpoint overlapped_back (k : key) (i : nat) (overlapped_bytes : Z) : Z :=
  match i with
  | O => overlapped_bytes
  | S i' =>
      match c_grandparents c !! i' with
      | Some f => if sst_eqb k (largest f)
                  then overlapped_back k i' (overlapped_bytes +64 GetFileSize f) else overlapped_bytes
      | None => overlapped_bytes
      end
  end.

Definition GetCurrentKeyGrandparentOverlappedBytes (k : key) (g : GrandparentState) : Z :=
  if being_grandparent_gap_ g then 0
  else match c_grandparents c !! grandparent_index_ g with
       | Some f => overlapped_back k (grandparent_index_ g) (0 +64 GetFileSize f)
       | None => 0
       end.

(** Every turn leaves a gap or passes a file: there are at most two per
    file. *)
Definition UpdateGrandparentBoundaryInfo (k : key) (g : GrandparentState) : GrandparentState * nat :=
  match c_grandparents c with
  | [] => (g, O)
  | gs =>
      let '(g1, n) := boundary_loop (2 * length gs) k g 0 in
      let g2 := if negb (seen_key_ g1) && negb (being_grandparent_gap_ g1)
                then g1 <| grandparent_overlapped_bytes_ := GetCurrentKeyGrandparentOverlappedBytes k g1 |>
                else g1 in
      (g2 <| seen_key_ := true |>, n)
  end.

(** What a new output file starts from, after a cut before [k]. *)
Definition grandparent_reset (k : key) (g : GrandparentState) : GrandparentState :=
  let g1 := g <| grandparent_boundary_switched_num_ := 0%nat |> in
  g1 <| grandparent_overlapped_bytes_ := GetCurrentKeyGrandparentOverlappedBytes k g1 |>.

(** ** ShouldStopBefore *)

(** [partitioner] is the user-defined partitioner, asked with the previous and
    the current user key and the size of the output file. *)
Context (partitioner : option (key → key → Z → bool)).

(** Compaction from level 0 to level 1 with buckets: cut where the bucket
    changes, while the file is small enough. *)
Definition bucket_cut (k : key) (s : CompactionOutputs) : CompactionOutputs * bool :=
  if (c_start_level c =? 0)%nat && (c_output_level c =? 1)%nat && negb (use_new_flush o =? 0) then
    let target_size := c_target_output_file_size c in
    let max_split_size := (target_size *64 110) / 100 in
    if current_output_file_size_ s <=? max_split_size then
      match bucket_snapshot_ s with
      | Some snap =>
          if use_new_flush o =? 1 then
            let bucket_idx := FindBucketInSnapshot snap (ExtractUserKey k) in
            if current_bucket_index_ s =? -1 then (s <| current_bucket_index_ := bucket_idx |>, false)
            else if negb (bucket_idx =? current_bucket_index_ s)
            then (s <| current_bucket_index_ := bucket_idx |>, true)
            else (s, false)
          else (s, false)
      | None => (s, false)
      end
    else (s, false)
  else (s, false).

(** The tests made when [k] crosses [crossed] boundaries of grandparent
    files. *)
Definition grandparent_cut (s : CompactionOutputs) (previous_overlapped_bytes : Z) (crossed : nat) : bool :=
  let g := grandparent s in
  let level_style := bool_decide (compaction_style o = kCompactionStyleLevel) in
  (0 <? crossed)%nat &&
  ((c_max_compaction_bytes c <? grandparent_overlapped_bytes_ g +64 current_output_file_size_ s) ||
   (level_style && ((if being_grandparent_gap_ g then 2 else 3) <=? crossed)%nat &&
    (c_target_output_file_size c / 8 <? grandparent_overlapped_bytes_ g -64 previous_overlapped_bytes)) ||
   (level_style &&
    (((c_target_output_file_size c +64 99) / 100) *64
       (50 + Z.min (Z.of_nat (grandparent_boundary_switched_num_ g) * 5) 40) <=? current_output_file_size_ s))).

(** The split of round-robin compactions, once, at the cursor. *)
Definition cursor_cut (k : key) (s : CompactionOutputs) : bool :=
  match local_output_split_key_ s with
  | Some split_key =>
      negb (is_split_ s) && match InternalKeyCompare k split_key with Lt => false | _ => true end
  | None => false
  end.

(** What is updated for every key, whether or not a file is open. *)
Definition track (k : key) (s : CompactionOutputs) : CompactionOutputs * nat * bool :=
  if (0 <? c_output_level c)%nat then
    let '(g, crossed) := UpdateGrandparentBoundaryInfo k (grandparent s) in
    let '(t, stop) := UpdateFilesToCutForTTLStates (files_to_cut_for_ttl_ s) k (ttl_state s) in
    let s1 := s <| grandparent := g |> in
    (s1 <| ttl_state := t |>, crossed, stop)
  else (s, O, false).

Definition should_partition (k : key) (s : CompactionOutputs) : bool :=
  match partitioner with
  | Some ShouldPartition =>
      negb (c_output_level c =? 0)%nat &&
      ShouldPartition (last_key_for_partitioner_ s) (ExtractUserKey k) (current_output_file_size_ s)
  | None => false
  end.

Definition ShouldStopBefore (k : key) (s : CompactionOutputs) : CompactionOutputs * bool :=
  let previous_overlapped_bytes := grandparent_overlapped_bytes_ (grandparent s) in
  let '(s1, crossed, should_stop_for_ttl) := track k s in
  if negb (HasBuilder s1) then (s1, false)
  else if should_stop_for_ttl then (s1, true)
  else if should_partition k s1 then (s1, true)
  else if (c_output_level c =? 0)%nat then (s1, false)
  else
    let '(s2, stop) := bucket_cut k s1 in
    if stop then (s2, true)
    else if c_max_output_file_size c <=? current_output_file_size_ s2 then (s2, true)
    else if cursor_cut k s2 then (s2 <| is_split_ := true |>, true)
    else (s2, grandparent_cut s2 previous_overlapped_bytes crossed).
End outputs.

(** ** Exactness of the grandparent state *)

Ltac gp_cbn :=
  cbn [grandparent_index_ being_grandparent_gap_ grandparent_overlapped_bytes_ seen_key_
       grandparent_boundary_switched_num_] in *.

Section grandparents.
Context (C : Comparator) (HC : ComparatorOk C) (c : Compaction).

Abbreviation sst_le := (cmp_le (@sstableKeyCompare C)).
Abbreviation gs := (c_grandparents c).

(** The files that start at [k] or before; the last of them contains [k] or is
    passed. *)
Definition started (k : key) : nat := length (filter (λ f, sst_le (smallest f) k) gs).
Definition in_file (k : key) : bool :=
  match started k with
  | O => false
  | S i => match gs !! i with Some f => bool_decide (sst_le k (largest f)) | None => false end
  end.

(** The number of ends of files at or before [k]. *)
Definition ends_before (k : key) : nat := 2 * started k - (if in_file k then 1 else 0).

(** The size of the files that meet the range from [first] to [k]. *)
Definition overlapped_size (first k : key) : Z :=
  sum64 (GetFileSize <$> filter (λ f, overlaps C (Some first) (Some k) f) gs).

Definition ends_passed (g : GrandparentState) : nat :=
  2 * grandparent_index_ g + (if being_grandparent_gap_ g then 0 else 1).

(** The state for an output file with keys from [first] to [k]. *)
Record grandparent_ok (first k : key) (g : GrandparentState) : Prop := {
  gp_position : ends_passed g = ends_before k;
  gp_seen : seen_key_ g = true ∨ gs = [];
  gp_overlapped : grandparent_overlapped_bytes_ g = overlapped_size first k;
  gp_switched : grandparent_boundary_switched_num_ g = (ends_before k - ends_before first)%nat;
}.

Context (Hs : level_sorted C gs).

Lemma started_spec k i f : gs !! i = Some f → sst_le (smallest f) k ↔ (i < started k)%nat.
Proof using HC Hs.
  unfold started. intros Hi.
  assert (Hf : ∀ (l : list FileMetaData) j g, (∀ i j f g, l !! i = Some f → l !! j = Some g → (i <= j)%nat → sst_le (smallest f) (smallest g)) →
    l !! j = Some g → sst_le (smallest g) k ↔ (j < length (filter (λ f, sst_le (smallest f) k) l))%nat).
  { clear i f Hi. intros l. induction l as [|h l IH]; intros j g Hl Hj; [done|].
    rewrite filter_cons. destruct (decide (sst_le (smallest h) k)) as [Hh|Hh].
    - destruct j as [|j]; cbn in Hj |- *.
      + injection Hj as ->. split; [lia|done].
      + rewrite (IH j g); [lia| |done]. intros a b f f' Ha Hb Hab. apply (Hl (S a) (S b)); [done..|lia].
    - rewrite (filter_none _ l); cbn.
      { split; [|lia]. intros Hg. pose proof (Hl 0%nat j h g eq_refl Hj ltac:(lia)). destruct Hh. order (cmp_le (@sstableKeyCompare C)). }
      apply Forall_lookup. intros m g' Hm Hg. pose proof (Hl 0%nat (S m) h g' eq_refl Hm ltac:(lia)).
      destruct Hh. order (cmp_le (@sstableKeyCompare C)). }
  apply Hf; [|done]. apply (sorted_smallest C HC gs Hs).
Qed.

Lemma started_le k : (started k <= length gs)%nat.
Proof using Type. apply length_filter. Qed.

Lemma started_mono k k' : sst_le k k' → (started k <= started k')%nat.
Proof using HC Hs.
  intros Hk. destruct (started k) as [|i] eqn:E; [lia|].
  destruct (gs !! i) as [f|] eqn:Ef; [|apply lookup_ge_None in Ef; pose proof (started_le k); lia].
  apply Nat.le_succ_l. apply (started_spec k' i f Ef).
  assert (sst_le (smallest f) k) by (apply (started_spec k i f Ef); lia).
  order (cmp_le (@sstableKeyCompare C)).
Qed.

(** [k] lies in file [i], the last one that has started, or after it. *)
Lemma in_file_spec k i f :
  gs !! i = Some f → started k = S i → in_file k = true ↔ sst_le k (largest f).
Proof using Type. intros Hf Hk. unfold in_file. rewrite Hk, Hf. apply bool_decide_eq_true. Qed.

Lemma ends_before_bounds k : (2 * started k - 1 <= ends_before k <= 2 * started k)%nat.
Proof using Type. unfold ends_before. destruct (in_file k); lia. Qed.

Lemma in_file_started k : in_file k = true → (0 < started k)%nat.
Proof using Type. unfold in_file. destruct (started k); [done|lia]. Qed.

Lemma ends_before_mono k k' : sst_le k k' → (ends_before k <= ends_before k')%nat.
Proof using HC Hs.
  intros Hk. pose proof (started_mono k k' Hk) as Hm. pose proof (ends_before_bounds k). pose proof (ends_before_bounds k').
  destruct (decide (started k = started k')) as [E|]; [|lia].
  unfold ends_before. rewrite <- E. destruct (in_file k') eqn:E'; [|lia].
  pose proof (in_file_started k' E'). destruct (started k) as [|i] eqn:Ek; [lia|].
  destruct (gs !! i) as [f|] eqn:Ef; [|apply lookup_ge_None in Ef; pose proof (started_le k); lia].
  rewrite (in_file_spec k' i f Ef) in E' by done.
  assert (in_file k = true) as ->; [|lia]. apply (in_file_spec k i f Ef Ek). order (cmp_le (@sstableKeyCompare C)).
Qed.

(** The files whose start is passed, and the part of them from [first] on. *)
Definition entered (g : GrandparentState) : nat :=
  grandparent_index_ g + (if being_grandparent_gap_ g then 0 else 1).
Definition covered (first : key) (n : nat) : Z :=
  sum64 (GetFileSize <$> filter (λ f, sst_le first (largest f)) (take n gs)).

Lemma entered_started k g : ends_passed g = ends_before k → entered g = started k.
Proof using Type.
  pose proof (ends_before_bounds k). pose proof (in_file_started k).
  unfold ends_passed, entered, ends_before in *. destruct (being_grandparent_gap_ g), (in_file k); lia.
Qed.

Lemma covered_started first k : covered first (started k) = overlapped_size first k.
Proof using HC Hs.
  unfold covered, overlapped_size, overlaps. cbn [from_begin to_end]. do 2 f_equal.
  rewrite <- (take_drop (started k) gs) at 2. rewrite filter_app.
  rewrite (filter_none _ (drop (started k) gs)), app_nil_r.
  - apply filter_iff_Forall. apply Forall_lookup. intros i f [Hi Hlt]%lookup_take_Some.
    pose proof (proj2 (started_spec k i f Hi) Hlt). tauto.
  - apply Forall_lookup. intros i f Hi [_ Hf]. rewrite lookup_drop in Hi.
    apply (started_spec k _ f Hi) in Hf. lia.
Qed.

Lemma boundary_step_spec k g :
  (ends_passed g <= ends_before k)%nat →
  match boundary_step c k g with
  | None => ends_passed g = ends_before k
  | Some g' =>
      ends_passed g' = S (ends_passed g) ∧ (ends_passed g' <= ends_before k)%nat ∧ seen_key_ g' = seen_key_ g ∧
      grandparent_boundary_switched_num_ g' =
        (if seen_key_ g then S else id) (grandparent_boundary_switched_num_ g) ∧
      (if being_grandparent_gap_ g then
         ∃ f, gs !! grandparent_index_ g = Some f ∧
              grandparent_overlapped_bytes_ g' =
                if seen_key_ g then grandparent_overlapped_bytes_ g +64 GetFileSize f
                else grandparent_overlapped_bytes_ g
       else grandparent_overlapped_bytes_ g' = grandparent_overlapped_bytes_ g)
  end.
Proof using HC Hs.
  destruct g as [i gap ov seen sw]. unfold boundary_step, ends_passed.
  gp_cbn. intros Hle.
  pose proof (ends_before_bounds k) as Hb. pose proof (started_le k) as Hl.
  destruct (gs !! i) as [f|] eqn:Ef; cbn [mbind option_bind].
  2:{ apply lookup_ge_None in Ef. destruct gap; cbv iota in *; lia. }
  pose proof (started_spec k i f Ef) as Hst. pose proof (in_file_spec k i f Ef) as Hin. destruct gap; cbv iota in *.
  - destruct (sst_ltb k (smallest f)) eqn:Elt.
    + apply sst_ltb_true in Elt; [|done]. rewrite Hst in Elt. lia.
    + apply sst_ltb_false in Elt; [|done]. rewrite Hst in Elt. gp_cbn. split_and!; [lia|lia|done|done|eauto].
  - assert (Hnext : ∀ h, gs !! S i = Some h → sst_le (largest f) (smallest h) ∧ (sst_le (smallest h) k ↔ (S i < started k)%nat)).
    { intros h Hh. split; [apply (sorted_apart C gs Hs i (S i) f h Ef Hh); lia|by apply started_spec]. }
    set (brk := _ || _). destruct brk eqn:Ebrk.
    + assert (Hi : started k = S i ∧ sst_le k (largest f)).
      { unfold brk in Ebrk. apply orb_true_iff in Ebrk as [Eb|Eb].
        - apply sst_ltb_true in Eb; [|done]. split; [|order (cmp_le (@sstableKeyCompare C))].
          destruct (gs !! S i) as [h|] eqn:Eh; [|apply lookup_ge_None in Eh; lia].
          destruct (Hnext h eq_refl) as [H1 H2]. destruct (decide (S i < started k)%nat) as [Hd|]; [|lia].
          apply H2 in Hd. order (cmp_le (@sstableKeyCompare C)).
        - apply andb_true_iff in Eb as [[H1 _]%sst_eqb_true Eb]; [|done]. split; [|done].
          apply orb_true_iff in Eb as [->%Nat.eqb_eq|Eb]; [apply lookup_lt_Some in Ef; lia|].
          destruct (gs !! S i) as [h|] eqn:Eh; [|done]. apply sst_ltb_true in Eb; [|done].
          destruct (Hnext h eq_refl) as [_ H2]. rewrite H2 in Eb. lia. }
      destruct Hi as [Hi Hkf]. apply (Hin Hi) in Hkf. unfold ends_before. rewrite Hkf. lia.
    + assert (2 * S i <= ends_before k)%nat; [|gp_cbn; split_and!; [lia|lia|done|done|done]].
      destruct (decide (started k = S i)) as [Hi|]; [|lia].
      unfold ends_before. destruct (in_file k); [|lia]. pose proof (proj1 (Hin Hi) eq_refl) as Ek.
      exfalso. unfold brk in Ebrk. apply orb_false_iff in Ebrk as [Eb1%sst_ltb_false Eb2]; [|done].
      assert (sst_eqb k (largest f) = true) as Heq by (apply sst_eqb_true; done). rewrite Heq in Eb2. cbn in Eb2.
      apply orb_false_iff in Eb2 as [Eb2%Nat.eqb_neq Eb3].
      destruct (gs !! S i) as [h|] eqn:Eh; [|apply lookup_ge_None in Eh; apply lookup_lt_Some in Ef; lia].
      apply sst_ltb_false in Eb3; [|done]. apply (Hnext h eq_refl) in Eb3. lia.
Qed.

(** While [g] is not before [first], a file entered meets the range from
    [first]. *)
Lemma covered_enter first g f :
  (ends_before first <= ends_passed g)%nat → being_grandparent_gap_ g = true →
  gs !! grandparent_index_ g = Some f →
  covered first (S (grandparent_index_ g)) = covered first (grandparent_index_ g) +64 GetFileSize f.
Proof using HC Hs.
  intros Hle Hg Hf. unfold covered. rewrite (take_S_r _ _ _ Hf), filter_app, filter_cons, filter_nil.
  rewrite decide_True.
  - unfold sum64. by rewrite fmap_app, foldl_app.
  - unfold ends_passed in Hle. rewrite Hg in Hle. pose proof (ends_before_bounds first).
    pose proof (started_spec first _ f Hf) as Hst. pose proof (sorted_bounds C gs Hs _ f Hf).
    destruct (decide (sst_le (smallest f) first)) as [Hd|Hd]; [apply Hst in Hd; lia|].
    order (cmp_le (@sstableKeyCompare C)).
Qed.

Lemma boundary_loop_spec fuel k g n :
  (ends_passed g <= ends_before k)%nat → (ends_before k - ends_passed g <= fuel)%nat →
  let '(g', n') := boundary_loop c fuel k g n in
  ends_passed g' = ends_before k ∧ seen_key_ g' = seen_key_ g ∧
  if seen_key_ g then
    n' = (n + (ends_before k - ends_passed g))%nat ∧
    grandparent_boundary_switched_num_ g' =
      (grandparent_boundary_switched_num_ g + (ends_before k - ends_passed g))%nat ∧
    ∀ first, (ends_before first <= ends_passed g)%nat →
      grandparent_overlapped_bytes_ g = covered first (entered g) →
      grandparent_overlapped_bytes_ g' = covered first (entered g')
  else n' = n ∧ grandparent_boundary_switched_num_ g' = grandparent_boundary_switched_num_ g ∧
       grandparent_overlapped_bytes_ g' = grandparent_overlapped_bytes_ g.
Proof using HC Hs.
  revert g n. induction fuel as [|fuel IH]; intros g n Hle Hf; cbn [boundary_loop].
  { assert (ends_passed g = ends_before k) as -> by lia. split_and!; [done..|].
    destruct (seen_key_ g); split_and!; try done; lia. }
  pose proof (boundary_step_spec k g Hle) as Hst. destruct (boundary_step c k g) as [g1|].
  2:{ rewrite Hst. split_and!; [done..|]. destruct (seen_key_ g); split_and!; try done; lia. }
  destruct Hst as (H1 & H2 & H3 & H4 & H5). specialize (IH g1 ((if seen_key_ g then S else id) n) H2 ltac:(lia)).
  destruct (boundary_loop c fuel k g1 _) as [g' n']. destruct IH as (I1 & I2 & I3).
  rewrite H3 in *. split_and!; [done..|]. destruct (seen_key_ g) eqn:Es; cbn [id] in *.
  - destruct I3 as (J1 & J2 & J3). split_and!; [lia..|]. intros first Hfirst Hov.
    apply J3; [lia|]. unfold ends_passed, entered in *. destruct (being_grandparent_gap_ g) eqn:Eg.
    + destruct H5 as (f & Hf5 & ->). rewrite Hov, Nat.add_0_r.
      assert (Hen : (grandparent_index_ g1 + (if being_grandparent_gap_ g1 then 0 else 1))%nat = S (grandparent_index_ g))
        by (destruct (being_grandparent_gap_ g1); lia).
      rewrite Hen. symmetry. apply covered_enter; [unfold ends_passed; rewrite Eg; lia|done|done].
    + rewrite H5, Hov. f_equal. destruct (being_grandparent_gap_ g1); lia.
  - destruct I3 as (J1 & J2 & J3). split_and!; [done|congruence|]. rewrite J3.
    destruct (being_grandparent_gap_ g); [by destruct H5 as (f & _ & ->)|done].
Qed.

Lemma covered_none k n :
  (∀ i f, gs !! i = Some f → (i < n)%nat → ¬ sst_le k (largest f)) → covered k n = 0.
Proof using Type.
  intros Hn. unfold covered. rewrite filter_none; [done|].
  apply Forall_lookup. intros i f [Hi Hlt]%lookup_take_Some. by apply (Hn i f).
Qed.

Lemma covered_S k n f :
  gs !! n = Some f → sst_le k (largest f) → covered k (S n) = covered k n +64 GetFileSize f.
Proof using HC.
  intros Hf Hk. unfold covered. rewrite (take_S_r _ _ _ Hf), filter_app, filter_cons, filter_nil, decide_True by done.
  unfold sum64. by rewrite fmap_app, foldl_app.
Qed.

Lemma overlapped_back_spec k n x :
  (n <= length gs)%nat → (∀ i f, gs !! i = Some f → (i < n)%nat → sst_le (largest f) k) →
  overlapped_back c k n (u64 x) = u64 (x + covered k n).
Proof using HC Hs.
  revert x. induction n as [|n IH]; intros x Hl Hn; cbn [overlapped_back].
  { change (covered k 0) with 0. by rewrite Z.add_0_r. }
  destruct (gs !! n) as [f|] eqn:Ef.
  2:{ apply lookup_ge_None in Ef. lia. }
  destruct (sst_eqb k (largest f)) eqn:Eq.
  - apply sst_eqb_true in Eq as [Eq _]; [|done]. rewrite u64_add_l, IH by (try lia; intros i g Hi Hlt; apply (Hn i g Hi); lia).
    rewrite (covered_S k n f Ef Eq), u64_add_r. f_equal. lia.
  - rewrite covered_none, Z.add_0_r; [done|]. intros i g Hi Hlt Hg.
    pose proof (sorted_largest C HC gs Hs i n g f Hi Ef ltac:(lia)). pose proof (Hn n f Ef ltac:(lia)).
    assert (sst_eqb k (largest f) = true) as E2; [|congruence]. apply sst_eqb_true; [done|].
    split; order (cmp_le (@sstableKeyCompare C)).
Qed.

(** The overlap of the first key of a file, found by going backwards. *)
Lemma current_overlap k g :
  ends_passed g = ends_before k → GetCurrentKeyGrandparentOverlappedBytes c k g = overlapped_size k k.
Proof using HC Hs.
  intros Hg. rewrite <- covered_started. pose proof (entered_started k g Hg) as Hen.
  pose proof (ends_before_bounds k) as Hb. unfold GetCurrentKeyGrandparentOverlappedBytes.
  unfold ends_passed, entered in *. destruct (being_grandparent_gap_ g).
  - symmetry. apply covered_none. intros i f Hi Hlt Hk.
    destruct (started k) as [|m] eqn:Em; [lia|].
    destruct (gs !! m) as [h|] eqn:Eh; [|apply lookup_ge_None in Eh; pose proof (started_le k); lia].
    pose proof (sorted_largest C HC gs Hs i m f h Hi Eh ltac:(lia)).
    assert (in_file k = true) as Hin by (apply (in_file_spec k m h Eh Em); order (cmp_le (@sstableKeyCompare C))).
    unfold ends_before in Hg. rewrite Hin in Hg. lia.
  - rewrite Nat.add_1_r in Hen. pose proof (started_le k) as Hl.
    destruct (gs !! grandparent_index_ g) as [f|] eqn:Ef; [|apply lookup_ge_None in Ef; lia].
    assert (Hk : sst_le (smallest f) k) by (apply (started_spec k _ f Ef); lia).
    assert (Hin : in_file k = true).
    { unfold ends_before in Hg. destruct (in_file k); [done|lia]. }
    apply (in_file_spec k _ f Ef) in Hin; [|lia].
    rewrite overlapped_back_spec; [|lia|].
    + rewrite <- Hen, (covered_S k _ f Ef Hin), Z.add_0_l. f_equal. lia.
    + intros i h Hi Hlt. pose proof (sorted_apart C gs Hs i _ h f Hi Ef Hlt). order (cmp_le (@sstableKeyCompare C)).
Qed.

(** The first key, each later key, and the first key of the next file. *)
Lemma ends_before_empty k : gs = [] → ends_before k = 0%nat.
Proof using Type. clear Hs. intros E. pose proof (started_le k). pose proof (ends_before_bounds k). rewrite E in *. cbn in *. lia. Qed.

Lemma update_unfold k g :
  UpdateGrandparentBoundaryInfo c k g =
  if decide (gs = []) then (g, O) else
  let '(g1, n) := boundary_loop c (2 * length gs) k g 0 in
  let g2 := if negb (seen_key_ g1) && negb (being_grandparent_gap_ g1)
            then g1 <| grandparent_overlapped_bytes_ := GetCurrentKeyGrandparentOverlappedBytes c k g1 |>
            else g1 in
  (g2 <| seen_key_ := true |>, n).
Proof using Type. clear Hs. unfold UpdateGrandparentBoundaryInfo. by destruct gs. Qed.

Lemma grandparent_first k g :
  g = NewGrandparentState → let '(g', n) := UpdateGrandparentBoundaryInfo c k g in
  grandparent_ok k k g' ∧ n = 0%nat.
Proof using HC Hs.
  intros ->. rewrite update_unfold. destruct (decide (gs = [])) as [E|Egs].
  { split; [|done]. split.
    - by rewrite ends_before_empty.
    - by right.
    - unfold overlapped_size. by rewrite E.
    - by rewrite Nat.sub_diag. }
  pose proof (boundary_loop_spec (2 * length gs) k NewGrandparentState 0) as Hl.
  unfold ends_passed in Hl at 1 2. cbn [NewGrandparentState grandparent_index_ being_grandparent_gap_] in Hl.
  pose proof (ends_before_bounds k). pose proof (started_le k).
  specialize (Hl ltac:(lia) ltac:(lia)). destruct (boundary_loop _ _ _ _ _) as [g1 n]. cbn [NewGrandparentState seen_key_] in Hl.
  destruct Hl as (H1 & H2 & -> & H3 & H4). rewrite H2. cbn [negb andb]. split; [|done].
  set (g2 := if negb _ then _ else _).
  assert (E : ends_passed g2 = ends_passed g1 ∧ grandparent_boundary_switched_num_ g2 = 0%nat ∧
    grandparent_overlapped_bytes_ g2 = overlapped_size k k).
  { subst g2. pose proof (current_overlap k g1 H1) as Ho.
    destruct (being_grandparent_gap_ g1) eqn:Eg; cbn [negb]; split_and!; [done|exact H3| |by unfold ends_passed; rewrite Eg|exact H3|done].
    rewrite H4, <- Ho. unfold GetCurrentKeyGrandparentOverlappedBytes. by rewrite Eg. }
  destruct E as (E1 & E2 & E3). split; [|by left|done|by rewrite Nat.sub_diag].
  change (ends_passed g2 = ends_before k). congruence.
Qed.

Lemma grandparent_next first k k' g :
  grandparent_ok first k g → sst_le first k → sst_le k k' →
  let '(g', n) := UpdateGrandparentBoundaryInfo c k' g in
  grandparent_ok first k' g' ∧ n = (ends_before k' - ends_before k)%nat.
Proof using HC Hs.
  intros [G1 G2 G3 G4] Hfk Hk. pose proof (ends_before_mono _ _ Hfk) as Hm1. pose proof (ends_before_mono _ _ Hk) as Hm2.
  rewrite update_unfold. destruct (decide (gs = [])) as [E|Egs].
  { rewrite !(ends_before_empty _ E) in *. split; [|done]. split.
    - by rewrite G1, ends_before_empty.
    - by right.
    - rewrite G3. unfold overlapped_size. by rewrite E.
    - by rewrite G4, !ends_before_empty. }
  destruct G2 as [G2|G2]; [|done].
  pose proof (boundary_loop_spec (2 * length gs) k' g 0) as Hl. rewrite G1 in Hl.
  pose proof (ends_before_bounds k'). pose proof (started_le k').
  specialize (Hl ltac:(lia) ltac:(lia)). destruct (boundary_loop _ _ _ _ _) as [g1 n]. rewrite G2 in Hl.
  destruct Hl as (H1 & H2 & H3 & H4 & H5). rewrite H2. cbn [negb andb]. split; [|lia].
  split; [done|by left| |gp_cbn; lia]. change (grandparent_overlapped_bytes_ g1 = overlapped_size first k').
  rewrite <- covered_started, <- (entered_started k' g1 H1). apply H5; [done|].
  by rewrite (entered_started k g G1), covered_started.
Qed.

Lemma grandparent_reset_ok first k g :
  grandparent_ok first k g → grandparent_ok k k (grandparent_reset c k g).
Proof using HC Hs.
  intros [G1 G2 G3 G4]. split; [done|done| |by rewrite Nat.sub_diag].
  by apply current_overlap.
Qed.
End grandparents.
