(* ===== verification/CompactionJob.v ===== *)
(** * Writing the output files of a compaction

    Models the output side of [src/db/compaction/compaction_job.cc] (opening
    and finishing an output file, the loop over the compaction iterator,
    installing the results), the rest of
    [src/db/compaction/compaction_outputs.cc] (adding keys and range
    tombstones, finishing and closing a file) and the state of a subcompaction
    in [src/db/compaction/subcompaction_state.h].

    The compaction iterator is the list of the entries it yields.  The table
    builder, the file system, the clock, the range tombstone aggregator and the
    space manager are parameters, the fields of [JobEnv].  User-defined
    timestamps of range tombstones, table properties, listeners and statistics
    of the job are left out. *)

From S2P Require Import Prelude Coding BlobIndex Comparator DbFormat ManifestRecords FileMeta VersionEdit.
From S2P Require Import Bucket BucketManager BucketPartition BlobGarbageMeter VersionStorage TableIterator BuildTable.
From S2P Require Import Compaction CompactionScore CompactionOutputs.

(** ** The environment *)

Inductive JobStatus :=
  | Ok | Corruption | IOError | SpaceLimit | ColumnFamilyDropped | ShutdownInProgress
  | ManualCompactionPaused | OtherError.

#[export] Instance JobStatus_eq : EqDecision JobStatus.
Proof. solve_decision. Defined.

Definition ok (s : JobStatus) : bool := bool_decide (s = Ok).
(** The status [s], or [t] if that is no error. *)
Definition and_then (s t : JobStatus) : JobStatus := if ok s then t else s.

(** Files are named by their numbers; what depends on the table builder is a
    function of the records added. *)
Class JobEnv := {
  EstimatedFileSize : list entry → Z;
  builder_Finish : list entry → JobStatus;
  builder_io_status : list entry → JobStatus;
  (* sizes after [Finish] ([true]) or [Abandon] *)
  builder_info : list entry → bool → TableInfo;
  timestamps_persisted : bool;
  partitioner : option (key → key → Z → bool);
  NewWritableFile : Z → JobStatus;
  PrepareIOOptions : JobStatus;
  SyncFile : Z → JobStatus;
  CloseFile : Z → JobStatus;
  FileChecksum : Z → list byte;
  FileChecksumFuncName : Z → list byte;
  UniqueId : Z → option (Z * Z);
  (* of [SstFileManagerImpl]: status of [OnAddFile], and whether the space is used up *)
  OnAddFile : option (Z → JobStatus * bool);
  (* the fragmented tombstones of [range_del_agg] for these bounds; [None] when it is empty *)
  range_del_agg : option (option key → option key → list RangeTombstone);
  ApproximateCoveredSize : key → key → Z;
  times : ScoreEnv;
  earliest_snapshot_ : Z;
  proximal_after_seqno_ : Z;
  output_temperature : Z;
  last_level_temperature : Z;
}.

(** The state of the job that opening and finishing files changes. *)
Record JobState := mkJob {
  next_file_number_ : Z;
  io_status : JobStatus;  (* of the subcompaction *)
  deleted_tables : list Z;
  bg_error : option JobStatus;
}.

#[export] Instance job_eta : Eta JobState := λ j,
  mkJob (next_file_number_ j) (io_status j) (deleted_tables j) (bg_error j).

Definition note_io_status (s : JobStatus) (j : JobState) : JobState :=
  if ok (io_status j) then j <| io_status := s |> else j.

Definition update_current (f : Output → Output) (s : CompactionOutputs) : CompactionOutputs :=
  s <| outputs_ := alter f (length (outputs_ s) - 1)%nat (outputs_ s) |>.
Definition update_meta (f : FileMetaData → FileMetaData) : CompactionOutputs → CompactionOutputs :=
  update_current (λ out, out <| meta := f (meta out) |>).
Definition current_meta (s : CompactionOutputs) : FileMetaData :=
  match last (outputs_ s) with Some out => meta out | None => new_file 0 0 [] [] end.

Section job.
Context `{Comparator} {E : JobEnv}.
(** The compaction, the version it reads, and the bounds of the
    subcompaction. *)
Context (c : Compaction) (o : CompactOptions) (v : VersionStorageInfo) (start fin : option key).

(** The input files that meet the range from [lo] to [hi]. *)
Definition input_meets (lo hi : option key) (f : FileMetaData) : bool :=
  negb (match lo with Some k => match InternalKeyCompare (largest f) k with Lt => true | _ => false end | None => false end) &&
  negb (match hi with Some k => match InternalKeyCompare (smallest f) k with Gt => true | _ => false end | None => false end).

Definition MinInputFileOldestAncesterTime (lo hi : option key) : Z :=
  foldl (λ t f, let a := TryGetOldestAncesterTime times f in if a =? 0 then t else Z.min t a)
    (2 ^ 64 - 1) (filter (λ f, input_meets lo hi f = true) (c_files c)).

(** ** Opening a file *)

Definition kUnknownTemperature : Z := 0.

Definition output_file_temperature (is_proximal : bool) : Z :=
  if negb (last_level_temperature =? kUnknownTemperature) &&
     (c_output_level c =? num_levels_option o - 1)%nat && negb is_proximal
  then last_level_temperature else output_temperature.

Definition new_output_meta (number : Z) (id : Z * Z) (is_proximal : bool) : FileMetaData :=
  let now := match current_time times with Some t => u64 t | None => 0 end in
  let oldest := MinInputFileOldestAncesterTime (MinPossibleForUserKey <$> start)
                  (MinPossibleForUserKey <$> fin) in
  let m0 := new_file number 0 [] [] in
  let m1 := m0 <| packed_number_and_path_id := PackFileNumberAndPathId number (c_output_path_id c) |> in
  let m2 := m1 <| oldest_ancester_time := (if oldest =? 2 ^ 64 - 1 then now else oldest) |> in
  let m3 := m2 <| file_creation_time := now |> in
  let m4 := m3 <| epoch_number := MinInputFileEpochNumber c |> in
  let m5 := m4 <| temperature := output_file_temperature is_proximal |> in
  m5 <| unique_id := id |>.

Definition AddOutput (m : FileMetaData) (s : CompactionOutputs) : CompactionOutputs :=
  s <| outputs_ := outputs_ s ++ [mkOutput m [] false []] |>.

Definition OpenCompactionOutputFile (j : JobState) (s : CompactionOutputs)
    : JobState * CompactionOutputs * JobStatus :=
  let number := next_file_number_ j in
  let j1 := j <| next_file_number_ := number +64 1 |> in
  let st := NewWritableFile number in
  let j2 := note_io_status st j1 in
  if negb (ok st) then (j2, s, st)
  else match UniqueId number with
       | None => (j2, s, OtherError)
       | Some id =>
           let s1 := AddOutput (new_output_meta number id (is_proximal_level_ s)) s in
           (j2, s1 <| builder_ := Some ([] : list entry) |>, Ok)
       end.

(** ** Range tombstones *)

Record TombstoneState := mkTombstones {
  ts_records : list entry;
  ts_meta : FileMetaData;
  reached_lower_bound : bool;
  last_tombstone_start_user_key : key;
  ts_level_ptrs : list nat;
  num_range_del_drop_obsolete : Z;
}.

#[export] Instance tombstones_eta : Eta TombstoneState := λ d,
  mkTombstones (ts_records d) (ts_meta d) (reached_lower_bound d) (last_tombstone_start_user_key d)
    (ts_level_ptrs d) (num_range_del_drop_obsolete d).

Definition user_eqb (a b : key) : bool := match CompareUser a b with Eq => true | _ => false end.
Definition ikey_ltb (a b : key) : bool := match InternalKeyCompare a b with Lt => true | _ => false end.
Definition below (k : key) (bound : option key) : bool :=
  match bound with Some b => ikey_ltb k b | None => false end.
Definition above (k : key) (bound : option key) : bool :=
  match bound with Some b => ikey_ltb b k | None => false end.
(** The user key of the bound, where it is after [u]. *)
Definition clamp_user (u : key) (bound : option key) : key :=
  match bound with
  | Some b => if user_ltb u (ExtractUserKey b) then ExtractUserKey b else u
  | None => u
  end.

(** The part of a tombstone between the bounds; [None] when it starts after
    them. *)
Definition tombstone_range (lower upper : option key) (t : RangeTombstone) : option (key * key) :=
  let tombstone_end := SerializeEndKey t in
  let tombstone_start := InternalKey (clamp_user (start_key_ t) lower) (seq_ t) kTypeRangeDeletion in
  if above tombstone_start upper then None
  else Some (if below tombstone_start lower then default [] lower else tombstone_start,
             if above tombstone_end upper then default [] upper else tombstone_end).

(** A tombstone written to the file. *)
Definition add_tombstone (t : RangeTombstone) (range : key * key) (d : TombstoneState) : TombstoneState :=
  let '(tombstone_start, tombstone_end) := range in
  let m := UpdateBoundariesForRange tombstone_start tombstone_end (seq_ t) (ts_meta d) in
  let start_user_key_changed :=
    (length (last_tombstone_start_user_key d) =? 0)%nat ||
    user_ltb (last_tombstone_start_user_key d) (start_key_ t) in
  let m1 :=
    if negb (c_bottommost_level c) && start_user_key_changed &&
       user_ltb (ExtractUserKey tombstone_start) (ExtractUserKey tombstone_end)
    then m <| compensated_range_deletion_size :=
           compensated_range_deletion_size m +64 ApproximateCoveredSize tombstone_start tombstone_end |>
    else m in
  mkTombstones (ts_records d ++ [SerializeTombstone t]) m1 (reached_lower_bound d)
    (if c_bottommost_level c then last_tombstone_start_user_key d else start_key_ t)
    (ts_level_ptrs d) (num_range_del_drop_obsolete d).

Definition drop_tombstone (d : TombstoneState) : TombstoneState :=
  d <| num_range_del_drop_obsolete := num_range_del_drop_obsolete d +64 1 |>.

(** The loop over the tombstones; those outside [keep_seqno_range] belong to
    the other level of per-key placement. *)
Fixpoint tombstone_loop (lower upper : option key) (keep_seqno_range : Z * Z) (ts : list RangeTombstone)
    (d : TombstoneState) : TombstoneState :=
  match ts with
  | [] => d
  | t :: ts' =>
      let continue := tombstone_loop lower upper keep_seqno_range ts' in
      if (seq_ t <? keep_seqno_range.1) || (keep_seqno_range.2 <=? seq_ t) then continue d
      else if negb (reached_lower_bound d) &&
              match lower with Some l => negb (ikey_ltb l (SerializeEndKey t)) | None => false end
      then continue d
      else
        let d1 := d <| reached_lower_bound := true |> in
        let consider_drop := seq_ t <=? earliest_snapshot_ in
        if consider_drop && c_bottommost_level c then continue (drop_tombstone d1)
        else match tombstone_range lower upper t with
        | None => d1
        | Some range =>
            if consider_drop then
              let '(ptrs, not_exists) := KeyRangeNotExistsBeyondOutputLevel c v o
                (ExtractUserKey range.1) (ExtractUserKey range.2) (ts_level_ptrs d1) in
              let d2 := d1 <| ts_level_ptrs := ptrs |> in
              if not_exists then continue (drop_tombstone d2)
              else continue (add_tombstone t range d2)
            else continue (add_tombstone t range d1)
        end
  end.

(** The bounds of the tombstones that go to the current file, [None] being
    open. *)
Definition range_lower_bound (s : CompactionOutputs) : option key :=
  if (length (outputs_ s) =? 1)%nat then
    match start with
    | Some k => Some (InternalKey k kMaxSequenceNumber kTypeRangeDeletion)
    | None => None
    end
  else if (0 <? length (range_tombstone_lower_bound_ s))%nat then Some (range_tombstone_lower_bound_ s)
  else Some (smallest (current_meta s)).

Definition range_upper_bound (next_table_min_key : key) (s : CompactionOutputs) : option key :=
  match next_table_min_key with
  | [] =>
      match fin with
      | Some k => Some (InternalKey k kMaxSequenceNumber kTypeRangeDeletion)
      | None => None
      end
  | _ =>
      let m := current_meta s in
      let next_user_key := ExtractUserKey next_table_min_key in
      if (0 <? length (largest m))%nat && user_eqb (ExtractUserKey (largest m)) next_user_key
      then Some (largest m)
      else Some (InternalKey next_user_key kMaxSequenceNumber kTypeRangeDeletion)
  end.

Definition AddRangeDels (agg : option key → option key → list RangeTombstone) (keep_seqno_range : Z * Z)
    (next_table_min_key : key) (s : CompactionOutputs) : CompactionOutputs :=
  let lower := range_lower_bound s in
  let upper := range_upper_bound next_table_min_key s in
  if match lower, upper with Some l, Some u => ikey_ltb u l | _, _ => false end then s
  else
    let d := tombstone_loop lower upper keep_seqno_range (agg lower upper)
      (mkTombstones (default [] (builder_ s)) (current_meta s) false [] (level_ptrs_ s) 0) in
    let s1 := s <| builder_ := Some (ts_records d) |> in
    let s2 := s1 <| level_ptrs_ := ts_level_ptrs d |> in
    update_meta (λ _, ts_meta d) s2.

(** ** Finishing a file *)

Definition finished_meta (info : TableInfo) (m : FileMetaData) : FileMetaData :=
  let m1 := m <| file_size := ti_FileSize info |> in
  let m2 := m1 <| tail_size := ti_GetTailSize info |> in
  let m3 := m2 <| marked_for_compaction := ti_NeedCompact info |> in
  m3 <| user_defined_timestamps_persisted := timestamps_persisted |>.

Definition finish_stats (bytes : Z) (s : CompactionOutputs) : CompactionOutputs :=
  s <| stats_ := mkOutputStats (num_output_records (stats_ s)) (bytes_written (stats_ s) +64 bytes)
         (Z.of_nat (length (outputs_ s))) |>.

(** [CompactionOutputs::Finish] *)
Definition FinishOutput (input_status : JobStatus) (s : CompactionOutputs) : CompactionOutputs * JobStatus :=
  let records := default [] (builder_ s) in
  let st := and_then (if ok input_status then builder_Finish records else input_status)
              (builder_io_status records) in
  let info := builder_info records (ok input_status) in
  let finish (out : Output) :=
    mkOutput (if ok st then finished_meta info (meta out) else meta out) (validator out) true records in
  (finish_stats (ti_FileSize info) (update_current finish s), st).

Definition checksum_meta (number : Z) (m : FileMetaData) : FileMetaData :=
  let m1 := m <| file_checksum := FileChecksum number |> in
  m1 <| file_checksum_func_name := FileChecksumFuncName number |>.

Definition WriterSyncClose (input_status : JobStatus) (number : Z) (s : CompactionOutputs)
    : CompactionOutputs * JobStatus :=
  if ok input_status then
    let io_s := and_then PrepareIOOptions (and_then (SyncFile number) (CloseFile number)) in
    (if ok io_s then update_meta (checksum_meta number) s else s, io_s)
  else (s, PrepareIOOptions).

(** With the final bounds, a more accurate age of the oldest data. *)
Definition refine_ancester_time (m : FileMetaData) : FileMetaData :=
  if (0 <? length (smallest m))%nat && (0 <? length (largest m))%nat &&
     (0 <? length (ExtractUserKey (smallest m)))%nat && (0 <? length (ExtractUserKey (largest m)))%nat then
    let t := MinInputFileOldestAncesterTime (Some (smallest m)) (Some (largest m)) in
    if t =? 2 ^ 64 - 1 then m else m <| oldest_ancester_time := t |>
  else m.

Definition RemoveLastOutput (s : CompactionOutputs) : CompactionOutputs :=
  s <| outputs_ := take (length (outputs_ s) - 1) (outputs_ s) |>.

Definition keep_seqno_range (is_proximal : bool) : Z * Z :=
  if SupportsPerKeyPlacement c then
    if is_proximal then (proximal_after_seqno_, kMaxSequenceNumber) else (0, proximal_after_seqno_)
  else (0, kMaxSequenceNumber).

(** The space manager is told of a file kept on the first path. *)
Definition report_file (number : Z) (m : FileMetaData) (st : JobStatus) (j : JobState) : JobState * JobStatus :=
  match OnAddFile with
  | Some on_add =>
      if GetPathId m =? 0 then
        let '(add_s, max_reached) := on_add number in
        if max_reached then (j <| bg_error := Some SpaceLimit |>, SpaceLimit)
        else (j, and_then st add_s)
      else (j, st)
  | None => (j, st)
  end.

Definition FinishCompactionOutputFile (input_status : JobStatus) (next_table_min_key : key)
    (j : JobState) (s : CompactionOutputs) : JobState * CompactionOutputs * JobStatus :=
  let number := GetNumber (current_meta s) in
  let s1 :=
    if ok input_status then
      match range_del_agg with
      | Some agg => AddRangeDels agg (keep_seqno_range (is_proximal_level_ s)) next_table_min_key s
      | None => s
      end
    else s in
  let current_entries := length (default [] (builder_ s1)) in
  let '(s2, st2) := FinishOutput input_status s1 in
  let s3 := if ok st2 then update_meta refine_ancester_time s2 else s2 in
  let '(s4, io_s) := WriterSyncClose st2 number s3 in
  let st4 := and_then st2 io_s in
  let j1 := note_io_status io_s j in
  if ok st4 && (current_entries =? 0)%nat then
    (* nothing to output: the file is deleted *)
    (j1 <| deleted_tables := deleted_tables j1 ++ [number] |>, ResetBuilder (RemoveLastOutput s4), st4)
  else
    let '(j2, st5) := report_file number (current_meta s4) st4 j1 in
    (j2, ResetBuilder s4, st5).

(** ** Adding keys *)

(** What the compaction iterator yields; [ce_range_del] marks the start key of
    a range tombstone, which is not written as a key. *)
Record CompactionEntry := mkCEntry {
  ce_key : key;
  ce_value : list byte;
  ce_range_del : bool;
  ce_input_status : JobStatus;
}.

(** The key and value added to the table. *)
Definition builder_add (e : CompactionEntry) (s : CompactionOutputs) : CompactionOutputs :=
  let records := default [] (builder_ s) ++ [(ce_key e, ce_value e)] in
  let s1 := s <| builder_ := Some records |> in
  let s2 := s1 <| stats_ := mkOutputStats (num_output_records (stats_ s) +64 1)
              (bytes_written (stats_ s)) (num_output_files (stats_ s)) |> in
  s2 <| current_output_file_size_ := EstimatedFileSize records |>.

Definition count_blob (e : CompactionEntry) (s : CompactionOutputs) : option CompactionOutputs :=
  match blob_garbage_meter_ s with
  | Some m => m' ← ProcessOutFlow (ce_key e, ce_value e) m; Some (s <| blob_garbage_meter_ := Some m' |>)
  | None => Some s
  end.

Definition note_preferred_seqno (e : CompactionEntry) (s : CompactionOutputs) : CompactionOutputs :=
  if ExtractValueType (ce_key e) =? kTypeValuePreferredSeqno
  then s <| smallest_preferred_seqno_ :=
         Z.min (smallest_preferred_seqno_ s) (ParsePackedValueForSeqno (ce_value e)) |>
  else s.

Definition current_validator (s : CompactionOutputs) : key :=
  match last (outputs_ s) with Some out => validator out | None => [] end.

(** The entry written to the open file. *)
Definition write_entry (e : CompactionEntry) (s : CompactionOutputs) : CompactionOutputs * JobStatus :=
  let k := ce_key e in
  match OutputValidator_Add k (current_validator s) with
  | None => (s, Corruption)
  | Some prev =>
      let s1 := builder_add e (update_current (λ out, out <| validator := prev |>) s) in
      match count_blob e s1 with
      | None => (s1, Corruption)
      | Some s2 =>
          let s3 := note_preferred_seqno e s2 in
          match UpdateBoundaries k (ce_value e) (GetInternalKeySeqno k) (ExtractValueType k) (current_meta s3) with
          | None => (s3, Corruption)
          | Some m => (update_meta (λ _, m) s3, Ok)
          end
      end
  end.

(** The current file closed before [e], and the state of the next one. *)
Definition cut_before (e : CompactionEntry) (j : JobState) (s : CompactionOutputs)
    : JobState * CompactionOutputs * JobStatus :=
  let '(j1, s1, st) := FinishCompactionOutputFile (ce_input_status e) (ce_key e) j s in
  if negb (ok st) then (j1, s1, st)
  else
    let s2 := s1 <| grandparent := grandparent_reset c (ce_key e) (grandparent s1) |> in
    (j1, s2 <| range_tombstone_lower_bound_ := if ce_range_del e then ce_key e else [] |>, Ok).

Definition note_partitioner_key (e : CompactionEntry) (s : CompactionOutputs) : CompactionOutputs :=
  match partitioner with
  | Some _ => if (c_output_level c =? 0)%nat then s
              else s <| last_key_for_partitioner_ := ExtractUserKey (ce_key e) |>
  | None => s
  end.

(** The entry put into the current file, which is opened if there is none. *)
Definition add_to_file (e : CompactionEntry) (j : JobState) (s : CompactionOutputs)
    : JobState * CompactionOutputs * JobStatus :=
  let '(j1, s1, st1) := if HasBuilder s then (j, s, Ok) else OpenCompactionOutputFile j s in
  if negb (ok st1) then (j1, s1, st1)
  else
    let s2 := note_partitioner_key e s1 in
    if ce_range_del e then (j1, s2, Ok)
    else let '(s3, st3) := write_entry e s2 in (j1, s3, st3).

Definition AddToOutput (e : CompactionEntry) (j : JobState) (s : CompactionOutputs)
    : JobState * CompactionOutputs * JobStatus :=
  if ce_range_del e && c_bottommost_level c then (j, s, Ok)
  else
    let '(s1, stop) := ShouldStopBefore c o partitioner (ce_key e) s in
    let '(j2, s2, st2) := if stop && HasBuilder s1 then cut_before e j s1 else (j, s1, Ok) in
    if negb (ok st2) then (j2, s2, st2) else add_to_file e j2 s2.

(** The current file closed at the end; a file is opened for range tombstones
    alone. *)
Definition CloseOutput (curr_status : JobStatus) (j : JobState) (s : CompactionOutputs)
    : JobState * CompactionOutputs * JobStatus :=
  let '(j1, s1, st1) :=
    if ok curr_status && negb (HasBuilder s) && negb (HasOutput s) &&
       match range_del_agg with Some _ => true | None => false end
    then OpenCompactionOutputFile j s else (j, s, curr_status) in
  if HasBuilder s1 then
    let '(j2, s2, st2) := FinishCompactionOutputFile st1 [] j1 s1 in (j2, s2, and_then st1 st2)
  else (j1, s1, st1).

(** ** Subcompactions *)

Record SubcompactionState := mkSub {
  compaction_outputs_ : CompactionOutputs;
  proximal_level_outputs_ : CompactionOutputs;
  sub_status : JobStatus;
}.

(** [SubcompactionState::AddToOutput] *)
Definition AddToSubcompaction (e : CompactionEntry) (use_proximal_output : bool) (j : JobState)
    (sub : SubcompactionState) : JobState * SubcompactionState * JobStatus :=
  if use_proximal_output then
    let '(j', s', st) := AddToOutput e j (proximal_level_outputs_ sub) in
    (j', mkSub (compaction_outputs_ sub) s' (sub_status sub), st)
  else
    let '(j', s', st) := AddToOutput e j (compaction_outputs_ sub) in
    (j', mkSub s' (proximal_level_outputs_ sub) (sub_status sub), st).

Definition CloseCompactionFiles (curr_status : JobStatus) (j : JobState) (sub : SubcompactionState)
    : JobState * SubcompactionState * JobStatus :=
  let '(j1, p, st1) :=
    if SupportsPerKeyPlacement c then CloseOutput curr_status j (proximal_level_outputs_ sub)
    else (j, proximal_level_outputs_ sub, curr_status) in
  let '(j2, s, st2) := CloseOutput st1 j1 (compaction_outputs_ sub) in
  (j2, mkSub s p (sub_status sub), st2).

(** What the loop reads besides the entries: whether the column family is
    dropped before each entry, and whether the compaction is paused after
    it. *)
Record LoopEvents := mkEvents {
  dropped : nat → bool;
  paused : nat → bool;
  shutting_down : bool;
  manual_compaction_canceled : bool;
  input_status : JobStatus;
  c_iter_status : JobStatus;
  blob_builder_finish : option JobStatus;
}.

(** The status of the loop, and the number of entries it has added. *)
Fixpoint process_loop (ev : LoopEvents) (entries : list CompactionEntry) (n : nat) (j : JobState)
    (sub : SubcompactionState) : JobState * SubcompactionState * JobStatus * nat :=
  match entries with
  | [] => (j, sub, Ok, n)
  | e :: entries' =>
      if dropped ev n then (j, sub, Ok, n)
      else
        let use_proximal_output := proximal_after_seqno_ <? GetInternalKeySeqno (ce_key e) in
        let '(j', sub', st) := AddToSubcompaction e use_proximal_output j sub in
        if negb (ok st) then (j', sub', st, n)
        else if paused ev n then (j', sub', Ok, S n)
        else process_loop ev entries' (S n) j' sub'
  end.

(** The status after the loop. *)
Definition loop_status (ev : LoopEvents) (n : nat) (st : JobStatus) : JobStatus :=
  let st1 := if ok st && dropped ev n then ColumnFamilyDropped else st in
  let interruptible s := ok s || bool_decide (s = ColumnFamilyDropped) in
  let st2 := if interruptible st1 && shutting_down ev then ShutdownInProgress else st1 in
  let st3 := if interruptible st2 && manual_compaction_canceled ev then ManualCompactionPaused else st2 in
  and_then (and_then st3 (input_status ev)) (c_iter_status ev).

Definition ProcessKeyValueCompaction (ev : LoopEvents) (entries : list CompactionEntry) (j : JobState)
    (sub : SubcompactionState) : JobState * SubcompactionState :=
  let '(j1, sub1, st1, n) := process_loop ev entries 0 j sub in
  let '(j2, sub2, st2) := CloseCompactionFiles (loop_status ev n st1) j1 sub1 in
  let st3 := match blob_builder_finish ev with
             | Some finish => and_then st2 finish
             | None => st2
             end in
  (j2, mkSub (compaction_outputs_ sub2) (proximal_level_outputs_ sub2) st3).

(** ** Installing the results *)

Definition add_files (level : Z) (outs : list Output) (e : VersionEdit) : VersionEdit :=
  foldl (λ e out, EditAddFile level (meta out) e) e outs.

Definition AddOutputsEdit (sub : SubcompactionState) (e : VersionEdit) : VersionEdit :=
  add_files (Z.of_nat (c_output_level c)) (outputs_ (compaction_outputs_ sub))
    (add_files (match c_proximal_level c with Some l => Z.of_nat l | None => -1 end)
       (outputs_ (proximal_level_outputs_ sub)) e).

(** The garbage of all subcompactions, per blob file. *)
Definition add_garbage (total : gmap Z BlobStats) (sub : SubcompactionState) : gmap Z BlobStats :=
  match blob_garbage_meter_ (compaction_outputs_ sub) with
  | None => total
  | Some m =>
      map_fold (λ n f t,
        if HasGarbage f
        then <[n := AddBlobs (GetGarbageCount f) (GetGarbageBytes f) (default NoBlobs (t !! n))]> t
        else t) total m
  end.

(** An ordered set of indices, as [std::set<int>]. *)
Fixpoint insert_index (i : Z) (l : list Z) : list Z :=
  match l with
  | [] => [i]
  | x :: l' => if i <? x then i :: l else if i =? x then l else x :: insert_index i l'
  end.

(** The buckets of the level-0 input files, adjusted one after the other. *)
Definition compacted_buckets (m : BucketManager) (input_files : list FileMetaData) : list Z :=
  foldl (λ l f, let i := FindBucket m (ExtractUserKey (smallest f)) in
                if 0 <=? i then insert_index i l else l) [] input_files.

Definition adjust_buckets `{CharSign} (m : BucketManager) : BucketManager :=
  if (c_start_level c =? 0)%nat && initialized_ m then
    match c_inputs c with
    | i :: _ => foldl (λ m idx, (AdjustAfterCompaction idx m).1) m (compacted_buckets m (in_files i))
    | [] => m
    end
  else m.

(** The position of round-robin compaction in the start level; [next_cursor] is
    [GetNextCompactCursor]. *)
Definition add_cursor (next_cursor : key) (e : VersionEdit) : VersionEdit :=
  if (bool_decide (c_compaction_reason c = kLevelMaxLevelSize) ||
      bool_decide (c_compaction_reason c = kRoundRobinTtl)) &&
     bool_decide (compaction_pri o = kRoundRobin) && (0 <? c_start_level c)%nat
  then e <| compact_cursors_ := compact_cursors_ e ++ [(Z.of_nat (c_start_level c), next_cursor)] |>
  else e.

(** The edit handed to [LogAndApply]; [blob_files] are the blob files written
    by each subcompaction. *)
Definition CompactionEdit (subs : list (SubcompactionState * list BlobFileAddition)) (next_cursor : key)
    (edit : VersionEdit) : VersionEdit :=
  let e1 := AddInputDeletions c edit in
  let e2 := foldl (λ e (sub : SubcompactionState * list BlobFileAddition),
              foldl (λ e b, AddBlobFile b e) (AddOutputsEdit sub.1 e) sub.2) e1 subs in
  let garbage := foldl add_garbage ∅ (subs.*1) in
  let e3 := map_fold (λ n g e, AddBlobFileGarbage (mkBlobFileGarbage n (count_ g) (bytes_ g)) e) e2 garbage in
  add_cursor next_cursor e3.
End job.

(** ** Lemmas on single operations *)

Lemma ok_true s : ok s = true ↔ s = Ok.
Proof. apply bool_decide_eq_true. Qed.

Lemma and_then_ok s t : and_then s t = Ok ↔ s = Ok ∧ t = Ok.
Proof.
  unfold and_then. destruct (ok s) eqn:Es; [apply ok_true in Es as ->; tauto|].
  split; [intros ->; done|intros [-> _]; done].
Qed.

(** The fields that describe the files, as opposed to where to cut. *)
Definition same_files (s s' : CompactionOutputs) : Prop :=
  builder_ s' = builder_ s ∧ current_output_file_size_ s' = current_output_file_size_ s ∧
  outputs_ s' = outputs_ s ∧ range_tombstone_lower_bound_ s' = range_tombstone_lower_bound_ s ∧
  is_proximal_level_ s' = is_proximal_level_ s ∧ files_to_cut_for_ttl_ s' = files_to_cut_for_ttl_ s ∧
  bucket_snapshot_ s' = bucket_snapshot_ s ∧ level_ptrs_ s' = level_ptrs_ s.

(** The fields that decide where to cut. *)
Definition same_cuts (s s' : CompactionOutputs) : Prop :=
  grandparent s' = grandparent s ∧ current_bucket_index_ s' = current_bucket_index_ s ∧
  bucket_snapshot_ s' = bucket_snapshot_ s ∧ files_to_cut_for_ttl_ s' = files_to_cut_for_ttl_ s.

Lemma update_current_snoc f s outs out :
  outputs_ s = outs ++ [out] → outputs_ (update_current f s) = outs ++ [f out].
Proof.
  intros Ho. unfold update_current. cbn. rewrite Ho, length_app. cbn.
  replace (length outs + 1 - 1)%nat with (length outs + 0)%nat by lia. by rewrite alter_app_r.
Qed.

Lemma current_meta_snoc s outs out : outputs_ s = outs ++ [out] → current_meta s = meta out.
Proof. intros Ho. unfold current_meta. by rewrite Ho, last_snoc. Qed.

Section steps.
Context {C : Comparator} {E : JobEnv}.
Context (c : Compaction) (o : CompactOptions) (v : VersionStorageInfo) (start fin : option key).

Lemma bucket_cut_files k s : same_files s (bucket_cut c o k s).1.
Proof. unfold bucket_cut. repeat case_match; done. Qed.

Lemma bucket_cut_grandparent k s : grandparent (bucket_cut c o k s).1 = grandparent s.
Proof. unfold bucket_cut. repeat case_match; done. Qed.

(** The files are left alone; a file is cut only where one is open. *)
Lemma should_stop_files k s :
  let '(s', stop) := ShouldStopBefore c o partitioner k s in
  same_files s s' ∧ (stop = true → HasBuilder s = true) ∧
  grandparent s' = (if (0 <? c_output_level c)%nat then (UpdateGrandparentBoundaryInfo c k (grandparent s)).1
                    else grandparent s).
Proof.
  unfold ShouldStopBefore. destruct (track c k s) as [[s1 crossed] stop_ttl] eqn:Et.
  assert (H1 : same_files s s1 ∧ current_bucket_index_ s1 = current_bucket_index_ s ∧
    grandparent s1 = (if (0 <? c_output_level c)%nat then (UpdateGrandparentBoundaryInfo c k (grandparent s)).1
                      else grandparent s)).
  { unfold track in Et. destruct (0 <? c_output_level c)%nat; [|by injection Et as <- _ _].
    destruct (UpdateGrandparentBoundaryInfo _ _ _) as [g n], (UpdateFilesToCutForTTLStates _ _ _) as [t b].
    by injection Et as <- _ _. }
  destruct H1 as (H1 & _ & Hg). assert (Hb : HasBuilder s1 = HasBuilder s) by (unfold HasBuilder; by rewrite (proj1 H1)).
  rewrite Hb. destruct (HasBuilder s) eqn:Es; cbn [negb]; [|done].
  destruct stop_ttl; [done|]. destruct (should_partition _ _ _ _); [done|].
  destruct (c_output_level c =? 0)%nat; [done|].
  pose proof (bucket_cut_files k s1) as H2. pose proof (bucket_cut_grandparent k s1) as Hg2.
  destruct (bucket_cut c o k s1) as [s2 stop]. cbn in H2, Hg2.
  assert (H3 : same_files s s2) by (unfold same_files in *; intuition congruence).
  rewrite <- Hg, <- Hg2. destruct stop; [done|]. destruct (_ <=? _); [done|]. by destruct (cursor_cut _ _).
Qed.

(** When the current file goes on, it is not too large and crossing the ends of
    grandparents leaves their overlap small enough. *)
Lemma should_continue k s s' :
  ShouldStopBefore c o partitioner k s = (s', false) → HasBuilder s = true → (0 < c_output_level c)%nat →
  current_output_file_size_ s < c_max_output_file_size c ∧
  ((0 < (UpdateGrandparentBoundaryInfo c k (grandparent s)).2)%nat →
   grandparent_overlapped_bytes_ (grandparent s') +64 current_output_file_size_ s <= c_max_compaction_bytes c).
Proof.
  unfold ShouldStopBefore, track. intros Hs Hb Hl. rewrite (proj2 (Nat.ltb_lt _ _) Hl) in Hs.
  destruct (UpdateGrandparentBoundaryInfo _ _ _) as [g n], (UpdateFilesToCutForTTLStates _ _ _) as [t b].
  set (s0 := s <| grandparent := g |>) in Hs. set (s1 := s0 <| ttl_state := t |>) in Hs.
  assert (Hb1 : HasBuilder s1 = true) by done. rewrite Hb1 in Hs. cbn [negb] in Hs.
  destruct b; [done|]. destruct (should_partition _ _ _ _); [done|].
  destruct (Nat.eqb_spec (c_output_level c) 0); [lia|].
  pose proof (bucket_cut_files k s1) as (_ & H2 & _). pose proof (bucket_cut_grandparent k s1) as Hg2.
  destruct (bucket_cut c o k s1) as [s2 stop]. cbn [fst] in H2, Hg2. destruct stop; [done|].
  destruct (Z.leb_spec (c_max_output_file_size c) (current_output_file_size_ s2)) as [|Hsz]; [done|].
  destruct (cursor_cut _ _); [done|]. injection Hs as <- Hgc. change (current_output_file_size_ s1) with (current_output_file_size_ s) in H2.
  split; [lia|]. cbn [snd]. intros Hn. unfold grandparent_cut in Hgc.
  rewrite (proj2 (Nat.ltb_lt _ _) Hn) in Hgc. cbn [andb] in Hgc.
  apply orb_false_iff in Hgc as [[Hgc%Z.ltb_ge _]%orb_false_iff _]. by rewrite H2 in Hgc.
Qed.

Lemma open_spec j s j' s' :
  OpenCompactionOutputFile c o start fin j s = (j', s', Ok) →
  ∃ m, outputs_ s' = outputs_ s ++ [mkOutput m [] false []] ∧ builder_ s' = Some [] ∧
    current_output_file_size_ s' = current_output_file_size_ s ∧
    range_tombstone_lower_bound_ s' = range_tombstone_lower_bound_ s ∧
    is_proximal_level_ s' = is_proximal_level_ s ∧ level_ptrs_ s' = level_ptrs_ s ∧ same_cuts s s' ∧
    smallest m = [] ∧ largest m = [] ∧ smallest_seqno m = kMaxSequenceNumber ∧ largest_seqno m = 0 ∧
    packed_number_and_path_id m = PackFileNumberAndPathId (next_file_number_ j) (c_output_path_id c) ∧
    epoch_number m = MinInputFileEpochNumber c ∧ next_file_number_ j' = next_file_number_ j +64 1.
Proof.
  unfold OpenCompactionOutputFile. intros Hop. destruct (ok (NewWritableFile _)) eqn:Ew; cbn [negb] in Hop.
  2:{ injection Hop as _ _ Hst. by rewrite Hst in Ew. }
  destruct (UniqueId _) as [id|]; [|done]. injection Hop as <- <-. eexists. cbn. split_and!; try done.
  unfold note_io_status. cbn [io_status]. destruct (ok (io_status j)); reflexivity.
Qed.

Lemma builder_add_spec e s recs :
  builder_ s = Some recs →
  let s' := builder_add e s in
  outputs_ s' = outputs_ s ∧ builder_ s' = Some (recs ++ [(ce_key e, ce_value e)]) ∧
  current_output_file_size_ s' = EstimatedFileSize (recs ++ [(ce_key e, ce_value e)]) ∧
  range_tombstone_lower_bound_ s' = range_tombstone_lower_bound_ s ∧
  is_proximal_level_ s' = is_proximal_level_ s ∧ level_ptrs_ s' = level_ptrs_ s ∧ same_cuts s s'.
Proof. intros Hb. unfold builder_add. rewrite Hb. done. Qed.

Lemma count_blob_spec e s s' : count_blob e s = Some s' → same_files s s' ∧ same_cuts s s'.
Proof.
  unfold count_blob. destruct (blob_garbage_meter_ s) as [m|]; [|by intros [= <-]].
  destruct (ProcessOutFlow _ m); [|done]. by intros [= <-].
Qed.

Lemma note_preferred_spec e s : same_files s (note_preferred_seqno e s) ∧ same_cuts s (note_preferred_seqno e s).
Proof. unfold note_preferred_seqno. by destruct (_ =? _). Qed.

Lemma write_entry_spec e s s' outs out recs :
  write_entry e s = (s', Ok) → outputs_ s = outs ++ [out] → builder_ s = Some recs →
  let recs' := recs ++ [(ce_key e, ce_value e)] in
  ∃ m, outputs_ s' = outs ++ [mkOutput m (ce_key e) (finished out) (contents out)] ∧
    builder_ s' = Some recs' ∧ current_output_file_size_ s' = EstimatedFileSize recs' ∧
    range_tombstone_lower_bound_ s' = range_tombstone_lower_bound_ s ∧
    is_proximal_level_ s' = is_proximal_level_ s ∧ level_ptrs_ s' = level_ptrs_ s ∧ same_cuts s s' ∧
    UpdateBoundaries (ce_key e) (ce_value e) (GetInternalKeySeqno (ce_key e)) (ExtractValueType (ce_key e))
      (meta out) = Some m ∧
    OutputValidator_Add (ce_key e) (validator out) = Some (ce_key e).
Proof.
  unfold write_entry. intros Hw Ho Hb. unfold current_validator in Hw. rewrite Ho, last_snoc in Hw.
  destruct (OutputValidator_Add _ _) as [prev|] eqn:Ev; [|done].
  assert (prev = ce_key e) as -> by (unfold OutputValidator_Add in Ev; repeat case_match; congruence).
  pose proof (update_current_snoc (λ out, out <| validator := ce_key e |>) _ _ _ Ho) as Ho1.
  set (s0 := update_current _ s) in *.
  assert (Hs0 : range_tombstone_lower_bound_ s0 = range_tombstone_lower_bound_ s ∧
    is_proximal_level_ s0 = is_proximal_level_ s ∧ level_ptrs_ s0 = level_ptrs_ s ∧ same_cuts s s0) by done.
  assert (Hb0 : builder_ s0 = Some recs) by done. clearbody s0.
  destruct (builder_add_spec e s0 recs Hb0) as (B1 & B2 & B3 & B4 & B5 & B6 & B7).
  set (s1 := builder_add e s0) in *. clearbody s1.
  destruct (count_blob e s1) as [s2|] eqn:Ec; [|done]. apply count_blob_spec in Ec as [C1 C2].
  destruct (note_preferred_spec e s2) as [P1 P2]. set (s3 := note_preferred_seqno e s2) in *. clearbody s3.
  assert (H3 : outputs_ s3 = outs ++ [mkOutput (meta out) (ce_key e) (finished out) (contents out)])
    by (rewrite (proj1 (proj2 (proj2 P1))), (proj1 (proj2 (proj2 C1))), B1; exact Ho1).
  rewrite (current_meta_snoc _ _ _ H3) in Hw. cbn [meta] in Hw.
  destruct (UpdateBoundaries _ _ _ _ _) as [m|]; [|done]. injection Hw as <-. exists m.
  pose proof (update_current_snoc (λ out, out <| meta := m |>) _ _ _ H3) as H7.
  unfold same_files, same_cuts in *. split_and!; [exact H7|cbn..]; try done; intuition congruence.
Qed.
End steps.

(** ** Range tombstones of a file *)

Section tombstones.
Context (C : Comparator) (HC : ComparatorOk C) (Hts : no_timestamps C) (E : JobEnv).
Context (c : Compaction) (o : CompactOptions) (v : VersionStorageInfo).

Abbreviation ile := (cmp_le (@InternalKeyCompare C)).
Abbreviation ule := (cmp_le (@Compare C)).
Abbreviation uk := ExtractUserKey.
Abbreviation footer := ExtractInternalKeyFooter.
Abbreviation del_footer t := (PackSequenceAndType (seq_ t) kTypeRangeDeletion).

Lemma ikey_le_iff a b :
  ile a b ↔ ¬ ule (uk b) (uk a) ∨ (ule (uk a) (uk b) ∧ ule (uk b) (uk a) ∧ footer b <= footer a).
Proof using HC.
  unfold cmp_le at 1. rewrite internal_compare_lex. unfold lex_compare, cmp_flip, cmp_on.
  fold (footer a) (footer b). cmp_case (@Compare C) (uk a) (uk b).
  - split; [|intros [?|(_ & _ & Hf)]; [tauto|by apply Z.compare_le_iff]].
    intros Hf. right. split_and!; [done..|]. by apply Z.compare_le_iff.
  - split; [|done]. intros _. by left.
  - split; [done|]. intros [Hn|(Hn & _)]; [destruct Hn; order (cmp_le (@Compare C))|done].
Qed.

Lemma ikey_ltb_true a b : ikey_ltb a b = true ↔ ¬ ile b a.
Proof using HC. rewrite <- (cmp_lt_iff InternalKeyCompare). unfold ikey_ltb. by destruct (InternalKeyCompare a b). Qed.

Lemma ikey_ltb_false a b : ikey_ltb a b = false ↔ ile b a.
Proof using HC. rewrite <- not_true_iff_false, ikey_ltb_true. destruct (decide (ile b a)); tauto. Qed.

Lemma uk_internal u s t : uk (InternalKey u s t) = u.
Proof using Type. apply encoded_user_key. Qed.

Lemma footer_internal u s t : seq_ok s → type_ok t → footer (InternalKey u s t) = PackSequenceAndType s t.
Proof using Type. intros. by apply (encoded_footer (mkParsed u s t)). Qed.

Lemma user_ltb_ule a b : user_ltb a b = true ↔ ¬ ule b a.
Proof using HC Hts. unfold user_ltb. rewrite Hts, <- (cmp_lt_iff (@Compare C)). by destruct (Compare a b). Qed.

(** A fragment is not empty and belongs to a sequence number below the largest
    one. *)
Definition tombstone_ok (t : RangeTombstone) : Prop :=
  ¬ ule (end_key_ t) (start_key_ t) ∧ 0 <= seq_ t < kMaxSequenceNumber.

(** Fragments come in order: the same range at a smaller sequence number, or a
    range after it. *)
Definition follows (a b : RangeTombstone) : Prop :=
  (start_key_ a = start_key_ b ∧ end_key_ a = end_key_ b ∧ seq_ b < seq_ a) ∨ ule (end_key_ a) (start_key_ b).

(** Tombstone [t] covers [q], a key of its range and not newer. *)
Definition deletes (t : RangeTombstone) (q : key) : Prop :=
  ule (start_key_ t) (uk q) ∧ ¬ ule (end_key_ t) (uk q) ∧ footer q <= del_footer t.

Definition from_lower (lower : option key) (q : key) : Prop := match lower with Some l => ile l q | None => True end.
Definition to_upper (upper : option key) (q : key) : Prop := match upper with Some u => ile q u | None => True end.

Lemma footer_del t : tombstone_ok t → footer (SerializeEndKey t) = kRangeTombstoneSentinel ∧
  ∀ u, footer (InternalKey u (seq_ t) kTypeRangeDeletion) = del_footer t.
Proof using Type.
  intros [_ Hs]. split.
  - unfold SerializeEndKey. by rewrite footer_internal.
  - intros u. apply footer_internal; [unfold seq_ok; lia|done].
Qed.

Context (lower upper : option key).
Context (Hlower : ∀ l, lower = Some l → bound_ok l).
Context (Hbounds : ∀ l u, lower = Some l → upper = Some u → ile l u).

(** The tombstone does not end before the lower bound. *)
Definition reaches (t : RangeTombstone) : Prop :=
  ∀ l, lower = Some l → ¬ ule (end_key_ t) (uk l).

Lemma end_reaches t :
  tombstone_ok t →
  match lower with Some l => negb (ikey_ltb l (SerializeEndKey t)) | None => false end = false ↔ reaches t.
Proof using HC Hts Hlower Hbounds.
  intros Ht. unfold reaches. destruct lower as [l|]; [|naive_solver].
  rewrite negb_false_iff, ikey_ltb_true, ikey_le_iff. destruct (footer_del t Ht) as [-> _].
  unfold SerializeEndKey. rewrite uk_internal. pose proof (Hlower l eq_refl) as Hl. unfold bound_ok in Hl.
  split.
  - intros Hn l' [= <-] Hle. apply Hn. destruct (decide (ule (uk l) (end_key_ t))) as [H2|H2]; [|by left].
    right. by split_and!.
  - intros Hn [H2|(H2 & _ & _)]; [|by apply (Hn l)]. destruct (Hn l eq_refl).
    order (cmp_le (@Compare C)).
Qed.

Lemma clamp_spec u :
  let u' := clamp_user u lower in
  ule u u' ∧ (∀ l, lower = Some l → ule (uk l) u') ∧ (u' = u ∨ ∃ l, lower = Some l ∧ u' = uk l).
Proof using HC Hts Hlower Hbounds.
  unfold clamp_user. destruct lower as [l|]; [|split_and!; [order (cmp_le (@Compare C))|done|by left]].
  destruct (user_ltb u (uk l)) eqn:El.
  - apply user_ltb_ule in El. split_and!; [order (cmp_le (@Compare C))| |right; eauto].
    intros l' [= <-]. order (cmp_le (@Compare C)).
  - apply not_true_iff_false in El. rewrite user_ltb_ule in El. split_and!; [order (cmp_le (@Compare C))| |by left].
    intros l' [= <-]. destruct (decide (ule (uk l) u)); tauto.
Qed.

(** The start of the part of [t] from the user key of the lower bound on. *)
Definition clamped_start (t : RangeTombstone) : key :=
  InternalKey (clamp_user (start_key_ t) lower) (seq_ t) kTypeRangeDeletion.

Lemma clamped_before_end t : tombstone_ok t → reaches t → ile (clamped_start t) (SerializeEndKey t).
Proof using HC Hts Hlower Hbounds.
  intros Ht Hr. apply ikey_le_iff. left. unfold clamped_start, SerializeEndKey. rewrite !uk_internal.
  destruct (clamp_spec (start_key_ t)) as (_ & _ & [->|(l & Hl & ->)]); [apply Ht|by apply (Hr l)].
Qed.

Lemma range_spec t a b :
  tombstone_ok t → reaches t → tombstone_range lower upper t = Some (a, b) →
  ile a b ∧ from_lower lower a ∧ to_upper upper b ∧
  ∀ q, from_lower lower q → to_upper upper q → deletes t q → ile a q ∧ ile q b.
Proof using HC Hts Hlower Hbounds.
  intros Ht Hr. unfold tombstone_range. fold (clamped_start t).
  destruct (above (clamped_start t) upper) eqn:Ea; [done|]. intros [= <- <-].
  pose proof (clamped_before_end t Ht Hr) as Hce.
  assert (Hle : ∀ l, lower = Some l → ile l (SerializeEndKey t)).
  { intros l Hl. apply ikey_le_iff. left. unfold SerializeEndKey. rewrite uk_internal. by apply Hr. }
  assert (Hcu : to_upper upper (clamped_start t)).
  { unfold above in Ea. destruct upper as [u|]; [|done]. by apply ikey_ltb_false in Ea. }
  set (a := if below _ _ then _ else _). set (b := if above _ _ then _ else _).
  assert (Ha : ile (clamped_start t) a ∧ from_lower lower a ∧ (a = clamped_start t ∨ lower = Some a)).
  { unfold a, below. destruct lower as [l|]; [|split_and!; [order (cmp_le (@InternalKeyCompare C))|done|by left]].
    destruct (ikey_ltb _ l) eqn:El; cbn.
    - apply ikey_ltb_true in El. split_and!; [order (cmp_le (@InternalKeyCompare C))|order (cmp_le (@InternalKeyCompare C))|by right].
    - apply ikey_ltb_false in El. split_and!; [order (cmp_le (@InternalKeyCompare C))|done|by left]. }
  assert (Hb : ile b (SerializeEndKey t) ∧ to_upper upper b ∧ (b = SerializeEndKey t ∨ upper = Some b)).
  { unfold b, above. destruct upper as [u|]; [|split_and!; [order (cmp_le (@InternalKeyCompare C))|done|by left]].
    destruct (ikey_ltb u _) eqn:Eu; cbn.
    - apply ikey_ltb_true in Eu. split_and!; [order (cmp_le (@InternalKeyCompare C))|order (cmp_le (@InternalKeyCompare C))|by right].
    - apply ikey_ltb_false in Eu. split_and!; [order (cmp_le (@InternalKeyCompare C))|done|by left]. }
  destruct Ha as (A1 & A2 & A3), Hb as (B1 & B2 & B3). split_and!; [|done|done|].
  - destruct A3 as [->|A3], B3 as [->|B3]; [done| | |].
    + rewrite B3 in Hcu. exact Hcu.
    + by apply Hle.
    + by apply Hbounds.
  - intros q Hq1 Hq2 (Q1 & Q2 & Q3). split.
    + destruct A3 as [->|A3]; [|by rewrite A3 in Hq1]. apply ikey_le_iff. unfold clamped_start.
      rewrite uk_internal, (proj2 (footer_del t Ht)). destruct (clamp_spec (start_key_ t)) as (_ & _ & Hcl).
      assert (Hcq : ule (clamp_user (start_key_ t) lower) (uk q)).
      { destruct Hcl as [->|(l & Hl & ->)]; [done|]. rewrite Hl in Hq1. apply ikey_le_iff in Hq1. destruct Hq1; [order (cmp_le (@Compare C))|tauto]. }
      destruct (decide (ule (uk q) (clamp_user (start_key_ t) lower))); [right; by split_and!|by left].
    + destruct B3 as [->|B3]; [|by rewrite B3 in Hq2]. apply ikey_le_iff. left.
      unfold SerializeEndKey. by rewrite uk_internal.
Qed.

(** A tombstone that starts after the bounds, and all that follow it, delete
    nothing between them. *)
Lemma above_none t t' q :
  tombstone_ok t → tombstone_ok t' → reaches t → t' = t ∨ follows t t' →
  tombstone_range lower upper t = None → from_lower lower q → to_upper upper q → ¬ deletes t' q.
Proof using HC Hts Hlower Hbounds.
  intros Ht Ht' Hr Hf Hn Hq1 Hq2 (Q1 & Q2 & Q3). cut (ile (clamped_start t) q).
  { intros Hq. unfold tombstone_range, above in Hn. fold (clamped_start t) in Hn. clear Hbounds.
    destruct upper as [u|]; [|done]. destruct (ikey_ltb u (clamped_start t)) eqn:Ea; [|done].
    apply ikey_ltb_true in Ea. apply Ea. cbn in Hq2. order (cmp_le (@InternalKeyCompare C)). }
  apply ikey_le_iff. unfold clamped_start. rewrite uk_internal, (proj2 (footer_del t Ht)).
  destruct (clamp_spec (start_key_ t)) as (_ & _ & Hcl).
  assert (Hlq : ∀ l, lower = Some l → ule (uk l) (uk q)).
  { intros l Hl. rewrite Hl in Hq1. apply ikey_le_iff in Hq1. destruct Hq1; [order (cmp_le (@Compare C))|tauto]. }
  destruct Hf as [->|[(E1 & E2 & E3)|Hend]].
  - assert (ule (clamp_user (start_key_ t) lower) (uk q)) by (destruct Hcl as [->|(l & Hl & ->)]; auto).
    destruct (decide (ule (uk q) (clamp_user (start_key_ t) lower))); [right; by split_and!|by left].
  - assert (ule (clamp_user (start_key_ t) lower) (uk q)) by (destruct Hcl as [->|(l & Hl & ->)]; [by rewrite E1|auto]).
    assert (del_footer t' <= del_footer t).
    { destruct Ht as [_ Ht], Ht' as [_ Ht']. 
      destruct (pack_value (seq_ t) kTypeRangeDeletion) as [-> _]; [unfold seq_ok; lia|done|].
      destruct (pack_value (seq_ t') kTypeRangeDeletion) as [-> _]; [unfold seq_ok; lia|done|]. lia. }
    destruct (decide (ule (uk q) (clamp_user (start_key_ t) lower))); [right; split_and!; [done..|lia]|by left].
  - left. intros Hle. destruct Ht as [Ht _]. destruct Hcl as [Hcl|(l & Hl & Hcl)]; rewrite Hcl in Hle.
    + order (cmp_le (@Compare C)).
    + apply (Hr l Hl). order (cmp_le (@Compare C)).
Qed.

Lemma follows_reaches t t' : tombstone_ok t' → reaches t → follows t t' → reaches t'.
Proof using HC Hts Hlower Hbounds.
  intros [Ht' _] Hr Hf l Hl. specialize (Hr l Hl). destruct Hf as [(_ & <- & _)|Hf]; [done|].
  intros Hle. apply Hr. order (cmp_le (@Compare C)).
Qed.

(** No file below the output level can hold user key [u]. *)
Definition no_key_below (u : key) : Prop :=
  ∀ l f, (c_output_level c < l < c_number_levels c)%nat → f ∈ LevelFiles v l →
    ¬ (ule u (largest_ukey f) ∧ ule (smallest_ukey f) u).

(** The positions kept per level are right for keys from [u] on. *)
Definition positions_ok (u : key) (ptrs : list nat) : Prop :=
  ptrs_ok (λ f, negb (user_leb u (largest_ukey f))) v ptrs.

(** Scanning passes only files before the key asked for. *)
Lemma scan_levels_past (past past' hit : FileMetaData → bool) levels ptrs :
  (∀ f, past f = true → past' f = true) → ptrs_ok past' v ptrs → ptrs_ok past' v (scan_levels v past hit levels ptrs).1.
Proof using Type.
  intros Hp. revert ptrs. induction levels as [|l levels IH]; intros ptrs Hok; cbn [scan_levels]; [done|].
  set (fs := LevelFiles v l). set (ptr := default O (ptrs !! l)).
  destruct (scan_level past hit (drop ptr fs) ptr) as [ptr' fnd] eqn:Es.
  assert (Hok' : ptrs_ok past' v (<[l := ptr']> ptrs)).
  { intros l'. destruct (decide (l' = l)) as [->|Hne]; [|rewrite list_lookup_insert_ne by done; apply Hok].
    destruct (decide (l < length ptrs)%nat) as [Hl|Hl]; [|rewrite list_insert_ge by lia; apply Hok].
    rewrite list_lookup_insert_eq by done. cbn [default from_option]. fold fs.
    destruct (Hok l) as [H1 H2]. fold fs ptr in H1, H2.
    assert (Hscan : ∀ rest pre, Forall (λ f, past' f = true) pre →
      ptr_ok past' (pre ++ rest) (scan_level past hit rest (length pre)).1).
    { clear -Hp. induction rest as [|f rest IH]; intros pre Hpre; cbn [scan_level].
      - cbn [fst]. rewrite app_nil_r. split; [done|by rewrite firstn_all].
      - destruct (past f) eqn:Ef; [|cbn [fst]; split; [rewrite length_app; lia|by rewrite take_app_length]].
        specialize (IH (pre ++ [f])). rewrite length_app, Nat.add_1_r, <- app_assoc in IH. apply IH.
        apply Forall_app. split; [done|]. constructor; [by apply Hp|done]. }
    specialize (Hscan (drop ptr fs) (take ptr fs) H2). rewrite take_drop, length_take in Hscan.
    rewrite (Nat.min_l ptr (length fs)) in Hscan by done. by rewrite Es in Hscan. }
  destruct fnd; [done|]. by apply IH.
Qed.

Section point.
Context (past past' hit : FileMetaData → bool) (holds : FileMetaData → Prop).
Hypothesis past_before : ∀ f, past f = true → past' f = true.
Hypothesis past_not : ∀ f, past' f = true → ¬ holds f.
Hypothesis hit_holds : ∀ f, holds f → hit f = true.
Hypothesis hit_first : ∀ f g, cmp_le (@CompareUser C) (smallest_ukey f) (smallest_ukey g) → hit g = true → hit f = true.

Lemma scan_level_point fs n :
  starts_sorted C fs → (scan_level past hit fs n).2 = false → Forall (λ f, ¬ holds f) fs.
Proof using past_before past_not hit_holds hit_first.
  revert n. induction fs as [|f fs IH]; intros n Hs; cbn [scan_level]; [constructor|].
  apply StronglySorted_inv in Hs as [Hs Hf]. destruct (past f) eqn:Ep.
  - intros Hn. constructor; [by apply past_not, past_before|]. by apply (IH (S n)).
  - cbn [snd]. intros Hh. constructor; [intros Hx%hit_holds; congruence|].
    apply Forall_forall. intros g Hg Hx%hit_holds. rewrite Forall_forall in Hf.
    rewrite (hit_first f g) in Hh; [done|by apply Hf|done].
Qed.

Lemma scan_levels_point levels ptrs :
  (∀ l, l ∈ levels → starts_sorted C (LevelFiles v l)) → ptrs_ok past' v ptrs →
  (scan_levels v past hit levels ptrs).2 = true →
  ∀ l f, l ∈ levels → f ∈ LevelFiles v l → ¬ holds f.
Proof using past_before past_not hit_holds hit_first.
  revert ptrs. induction levels as [|l levels IH]; intros ptrs Hs Hok Hr l' f Hl'; [by apply not_elem_of_nil in Hl'|].
  pose proof (scan_levels_past past past' hit [l] ptrs past_before Hok) as Hok'. cbn [scan_levels] in Hr, Hok'.
  destruct (Hok l) as [_ Htake]. set (ptr := default O (ptrs !! l)) in *.
  pose proof (scan_level_point (drop ptr (LevelFiles v l)) ptr) as Hp.
  destruct (scan_level _ _ _ _) as [ptr' fnd]. destruct fnd; [done|]. cbn [fst snd] in Hok', Hp.
  apply elem_of_cons in Hl' as [->|Hl']; [|by eapply IH; [intros l2 Hl2; apply Hs; by right|exact Hok'|..]].
  intros Hf. rewrite <- (take_drop ptr (LevelFiles v l)) in Hf. apply elem_of_app in Hf as [Hf|Hf].
  - apply past_not. rewrite Forall_forall in Htake. by apply Htake.
  - specialize (Hp ltac:(eapply StronglySorted_app_1_r; rewrite take_drop; apply Hs; by left) eq_refl).
    rewrite Forall_forall in Hp. by apply Hp.
Qed.
End point.

Context (Hbelow : ∀ l, (c_output_level c < l)%nat → starts_sorted C (LevelFiles v l)).

Lemma not_exists_spec b e ptrs :
  let r := KeyRangeNotExistsBeyondOutputLevel c v o b e ptrs in
  (∀ u, ule b u → positions_ok u ptrs → positions_ok u r.1) ∧
  (r.2 = true → c_bottommost_level c = true ∨
   ∀ u, ule b u → ¬ ule e u → positions_ok u ptrs → no_key_below u).
Proof using HC Hts Hbelow.
  unfold KeyRangeNotExistsBeyondOutputLevel.
  destruct (c_bottommost_level c); [split; [done|by left]|].
  destruct (negb _ && _); [|by split].
  assert (Hle : ∀ x y, cmp_le (@CompareUser C) x y ↔ ule x y) by (intros x y; unfold cmp_le; by rewrite Hts).
  assert (Hpast : ∀ u f, ule b u → negb (user_leb b (largest_ukey f)) = true → negb (user_leb u (largest_ukey f)) = true).
  { intros u f Hu. rewrite !negb_true_iff, <- !not_true_iff_false, !(user_leb_true C), !Hle. intros Hn ?. apply Hn.
    order (cmp_le (@Compare C)). }
  split; [intros u Hu; apply scan_levels_past; auto|]. intros Hr. right. intros u Hu Hue Hp l f Hl Hf.
  refine (scan_levels_point _ (λ f, negb (user_leb u (largest_ukey f))) _
    (λ f, ule u (largest_ukey f) ∧ ule (smallest_ukey f) u) _ _ _ _ (levels_below c) ptrs _ Hp Hr l f _ Hf).
  - auto.
  - intros g. rewrite negb_true_iff, <- not_true_iff_false, (user_leb_true C), Hle. tauto.
  - intros g [_ G]. rewrite negb_true_iff, <- not_true_iff_false, (user_leb_true C), Hle. intros ?. apply Hue.
    order (cmp_le (@Compare C)).
  - intros g h. rewrite !negb_true_iff, <- !not_true_iff_false, !(user_leb_true C), !Hle. intros ? Hn ?. apply Hn.
    order (cmp_le (@Compare C)).
  - intros l' Hl'. apply Hbelow. apply elem_of_seq in Hl'. lia.
  - apply elem_of_seq. lia.
Qed.

(** The metadata of a file whose bounds stay between the lower and the upper
    bound. *)
Definition bounded (m : FileMetaData) : Prop :=
  smallest m = [] ∧ largest m = [] ∨
  smallest m ≠ [] ∧ largest m ≠ [] ∧ ile (smallest m) (largest m) ∧
  from_lower lower (smallest m) ∧ to_upper upper (largest m).

Lemma bounded_update a b s m :
  a ≠ [] → b ≠ [] → ile a b → from_lower lower a → to_upper upper b →
  bounded m → bounded (UpdateBoundariesForRange a b s m).
Proof using HC.
  intros Ha Hb Hab Hla Hub Hm. right. unfold UpdateBoundariesForRange. cbn [set_bounds smallest largest].
  destruct Hm as [[-> ->]|(M1 & M2 & M3 & M4 & M5)]; [by cbn|].
  rewrite !(proj2 (Nat.eqb_neq _ _)) by (by intros ?%nil_length_inv). cbn [orb].
  fold (ikey_ltb a (smallest m)) (ikey_ltb (largest m) b).
  destruct (ikey_ltb a (smallest m)) eqn:E1, (ikey_ltb (largest m) b) eqn:E2;
    rewrite ?ikey_ltb_true, ?ikey_ltb_false in *; split_and!; try done; order (cmp_le (@InternalKeyCompare C)).
Qed.

Definition in_keep (keep : Z * Z) (t : RangeTombstone) : Prop := keep.1 <= seq_ t < keep.2.

(** The user keys the positions are known to be right for. *)
Context (known : key → Prop).

(** A tombstone that may be dropped: no snapshot needs it, and below the output
    level there is nothing for it to delete. *)
Definition obsolete (t : RangeTombstone) : Prop :=
  seq_ t <= earliest_snapshot_ ∧
  (c_bottommost_level c = true ∨
   ∃ a b, tombstone_range lower upper t = Some (a, b) ∧
     ∀ u, known u → ule (uk a) u → ¬ ule (uk b) u → no_key_below u).

(** [u] is not before the part of any of the tombstones. *)
Definition after_parts (ts : list RangeTombstone) (u : key) : Prop :=
  ∀ t a b, t ∈ ts → reaches t → tombstone_range lower upper t = Some (a, b) → ule (uk a) u.

Record tombstones_added (keep : Z * Z) (ts : list RangeTombstone) (d d' : TombstoneState)
    (kept : list RangeTombstone) : Prop := {
  ta_records : ts_records d' = ts_records d ++ (SerializeTombstone <$> kept);
  ta_sublist : kept `sublist_of` ts;
  ta_number : packed_number_and_path_id (ts_meta d') = packed_number_and_path_id (ts_meta d);
  ta_covers : ∀ lo hi s, covers C (ts_meta d) lo hi s → covers C (ts_meta d') lo hi s;
  ta_bounded : bounded (ts_meta d) → bounded (ts_meta d');
  ta_kept : Forall (λ t, ∃ a b, tombstone_range lower upper t = Some (a, b) ∧
                          covers C (ts_meta d') a b (seq_ t)) kept;
  ta_complete : ∀ t q, t ∈ ts → in_keep keep t → from_lower lower q → to_upper upper q → deletes t q →
    t ∈ kept ∨ obsolete t;
  ta_positions : ∀ u, after_parts ts u → positions_ok u (ts_level_ptrs d) → positions_ok u (ts_level_ptrs d');
}.

Lemma added_skip keep t ts d d1 d' kept :
  ts_records d1 = ts_records d → ts_meta d1 = ts_meta d →
  (∀ u, after_parts [t] u → positions_ok u (ts_level_ptrs d) → positions_ok u (ts_level_ptrs d1)) →
  (∀ q, in_keep keep t → from_lower lower q → to_upper upper q → deletes t q → obsolete t) →
  tombstones_added keep ts d1 d' kept → tombstones_added keep (t :: ts) d d' kept.
Proof using Type.
  intros E1 E2 Hp Hc [T1 T2 T3 T4 T5 T6 T7 T8]. rewrite E1, E2 in *. split; try done.
  - by constructor.
  - intros t' q [->|Ht']%elem_of_cons Hk Hl Hu Hd; [right; by apply (Hc q)|by apply (T7 t' q)].
  - intros u Hu Hpu. apply T8; [intros t' a b Ht'; apply Hu; by right|]. apply Hp; [|done].
    intros t' a b ->%list_elem_of_singleton. apply Hu. by left.
Qed.

Lemma added_step keep t ts d d1 d' kept a b :
  tombstone_range lower upper t = Some (a, b) → a ≠ [] → b ≠ [] →
  (bounded (ts_meta d) → bounded (ts_meta d1)) →
  ts_records d1 = ts_records d ++ [SerializeTombstone t] →
  packed_number_and_path_id (ts_meta d1) = packed_number_and_path_id (ts_meta d) →
  covers C (ts_meta d1) a b (seq_ t) →
  (∀ lo hi s, covers C (ts_meta d) lo hi s → covers C (ts_meta d1) lo hi s) →
  (∀ u, after_parts [t] u → positions_ok u (ts_level_ptrs d) → positions_ok u (ts_level_ptrs d1)) →
  tombstones_added keep ts d1 d' kept → tombstones_added keep (t :: ts) d d' (t :: kept).
Proof using Type.
  intros Hr Ha Hb Hbd E1 E2 Hc Hm Hp [T1 T2 T3 T4 T5 T6 T7 T8]. split.
  - rewrite T1, E1, <- app_assoc. done.
  - by constructor.
  - congruence.
  - intros lo hi s Hl. by apply T4, Hm.
  - intros Hl. by apply T5, Hbd.
  - constructor; [|done]. exists a, b. split; [done|]. by apply T4.
  - intros t' q [->|Ht']%elem_of_cons Hk Hl Hu Hd; [left; by left|].
    destruct (T7 t' q); [done..|left; by right|by right].
  - intros u Hu Hpu. apply T8; [intros t' a' b' Ht'; apply Hu; by right|]. apply Hp; [|done].
    intros t' a' b' ->%list_elem_of_singleton. apply Hu. by left.
Qed.

Lemma range_nonempty t a b : tombstone_range lower upper t = Some (a, b) →
  (∀ l, lower = Some l → l ≠ []) → (∀ u, upper = Some u → u ≠ []) → a ≠ [] ∧ b ≠ [].
Proof using Type.
  clear Hlower Hbounds. unfold tombstone_range. intros Hr Hl Hu. destruct (above _ upper); [done|]. injection Hr as <- <-.
  destruct (tombstone_keys t) as [_ K2].
  destruct (tombstone_keys (mkTombstone (clamp_user (start_key_ t) lower) [] (seq_ t))) as [K1 _].
  split.
  - destruct (below _ lower) eqn:Eb; [|done]. unfold below in Eb. destruct lower as [l|]; [|done]. by apply Hl.
  - destruct (above _ upper) eqn:Eb; [|done]. unfold above in Eb. destruct upper as [u|]; [|done]. by apply Hu.
Qed.

Lemma add_tombstone_spec t a b d :
  a ≠ [] → b ≠ [] → ile a b → from_lower lower a → to_upper upper b →
  let d1 := add_tombstone c t (a, b) d in
  ts_records d1 = ts_records d ++ [SerializeTombstone t] ∧ ts_level_ptrs d1 = ts_level_ptrs d ∧
  reached_lower_bound d1 = reached_lower_bound d ∧
  packed_number_and_path_id (ts_meta d1) = packed_number_and_path_id (ts_meta d) ∧
  covers C (ts_meta d1) a b (seq_ t) ∧
  (∀ lo hi s, covers C (ts_meta d) lo hi s → covers C (ts_meta d1) lo hi s) ∧
  (bounded (ts_meta d) → bounded (ts_meta d1)).
Proof using HC.
  intros Ha Hb Hab Hla Hub. cbn zeta. unfold add_tombstone.
  destruct (update_for_range_covers C HC a b (seq_ t) (ts_meta d) Ha Hb) as (U1 & U2 & U3).
  pose proof (bounded_update a b (seq_ t) (ts_meta d) Ha Hb Hab Hla Hub) as U4.
  set (m := UpdateBoundariesForRange a b (seq_ t) (ts_meta d)) in *. clearbody m.
  cbn [ts_records ts_meta ts_level_ptrs reached_lower_bound]. split_and!; [done..| | | |];
    destruct (negb _ && _ && _); try done; cbn; auto.
Qed.

Lemma not_reaching t q :
  tombstone_ok t →
  match lower with Some l => negb (ikey_ltb l (SerializeEndKey t)) | None => false end = true →
  from_lower lower q → ¬ deletes t q.
Proof using HC Hts Hlower Hbounds.
  intros Ht Hm Hq (_ & Q2 & _). apply not_false_iff_true in Hm. apply Hm, (end_reaches t Ht).
  intros l Hl Hle. rewrite Hl in Hq. apply ikey_le_iff in Hq. apply Q2.
  destruct Hq as [Hq|(Hq & _)]; order (cmp_le (@Compare C)).
Qed.

(** The user key of the part of a tombstone is the clamped one. *)
Lemma part_start t a b :
  tombstone_ok t → tombstone_range lower upper t = Some (a, b) →
  ule (clamp_user (start_key_ t) lower) (uk a) ∧ ule (uk a) (clamp_user (start_key_ t) lower).
Proof using HC Hts Hlower Hbounds.
  intros Ht Hr. unfold tombstone_range in Hr. fold (clamped_start t) in Hr.
  destruct (above _ upper); [done|]. injection Hr as <- _. destruct (clamp_spec (start_key_ t)) as (_ & Hl & _).
  assert (Hu : uk (clamped_start t) = clamp_user (start_key_ t) lower) by apply uk_internal.
  destruct (below (clamped_start t) lower) eqn:Eb; [|rewrite Hu; split; order (cmp_le (@Compare C))].
  destruct lower as [l|] eqn:El; [|done]. cbn [default from_option]. specialize (Hl l eq_refl). split; [|done].
  unfold below in Eb. apply ikey_ltb_true in Eb. rewrite ikey_le_iff in Eb. rewrite Hu in Eb.
  destruct (decide (ule (clamp_user (start_key_ t) (Some l)) (uk l))); [done|]. destruct Eb. by left.
Qed.

Lemma parts_mono t t' a b a' b' :
  tombstone_ok t → tombstone_ok t' → reaches t → follows t t' →
  tombstone_range lower upper t = Some (a, b) → tombstone_range lower upper t' = Some (a', b') →
  ule (uk a) (uk a').
Proof using HC Hts Hlower Hbounds.
  intros Ht Ht' Hr Hf Ha Ha'. destruct (part_start t a b Ht Ha) as [_ P1], (part_start t' a' b' Ht' Ha') as [P2 _].
  assert (ule (clamp_user (start_key_ t) lower) (clamp_user (start_key_ t') lower)); [|order (cmp_le (@Compare C))].
  destruct (clamp_spec (start_key_ t)) as (_ & _ & [->|(l & Hl & ->)]), (clamp_spec (start_key_ t')) as (H1 & H2 & _).
  - destruct Ht as [Ht _]. destruct Hf as [(-> & _)|Hf]; [done|]. order (cmp_le (@Compare C)).
  - by apply H2.
Qed.

Ltac skip_tombstone t ts d d1 Hk := eapply (added_skip _ t ts d d1); [done|done| | |exact Hk].

(** The loop writes every tombstone that deletes something between the bounds,
    unless it is obsolete, and the file stays between them. *)
Lemma tombstone_loop_spec keep ts d :
  (∀ l, lower = Some l → l ≠ []) → (∀ u, upper = Some u → u ≠ []) →
  Forall tombstone_ok ts → StronglySorted follows ts →
  (reached_lower_bound d = true → Forall reaches ts) →
  (∀ u t a b, known u → t ∈ ts → reaches t → tombstone_range lower upper t = Some (a, b) → ule (uk a) u →
     positions_ok u (ts_level_ptrs d)) →
  ∃ kept, tombstones_added keep ts d (tombstone_loop c o v lower upper keep ts d) kept.
Proof using HC Hts Hlower Hbounds Hbelow.
  intros Hl0 Hu0. revert d. induction ts as [|t ts IH]; intros d Hok Hsort Hre Hpos.
  { exists []. split; try done; [by rewrite app_nil_r|by intros ?? ?%elem_of_nil]. }
  inversion Hok as [|? ? Ht Hok']; subst. apply StronglySorted_inv in Hsort as [Hsort Hfol].
  assert (Hpos' : ∀ u t' a b, known u → t' ∈ ts → reaches t' → tombstone_range lower upper t' = Some (a, b) →
    ule (uk a) u → positions_ok u (ts_level_ptrs d)) by (intros u t' a b Hk Ht'; apply Hpos; [done|by right]).
  cbn [tombstone_loop]. destruct (_ || _) eqn:Ekeep.
  { destruct (IH d Hok' Hsort) as [kept Hk]; [intros Hr; by apply Hre, Forall_cons in Hr as [_ ?]|done|].
    exists kept. eapply (added_skip keep t ts d d); [done..| |exact Hk].
    intros q [Hk1 Hk2]. apply orb_true_iff in Ekeep as [Ek%Z.ltb_lt|Ek%Z.leb_le]; lia. }
  destruct (negb (reached_lower_bound d) && _) eqn:Ereach.
  { apply andb_true_iff in Ereach as [_ Er].
    destruct (IH d Hok' Hsort) as [kept Hk]; [intros Hr; by apply Hre, Forall_cons in Hr as [_ ?]|done|].
    exists kept. skip_tombstone t ts d d Hk; [done|]. intros q _ Hq1 _ Hd. by apply (not_reaching t q) in Hd. }
  assert (Hrt : reaches t).
  { destruct (reached_lower_bound d); [by specialize (Hre eq_refl); inversion Hre|]. by apply end_reaches. }
  assert (Hrs : Forall reaches ts).
  { apply Forall_forall. intros t' Ht'. rewrite Forall_forall in Hok', Hfol. eapply follows_reaches; eauto. }
  set (d1 := d <| reached_lower_bound := true |>).
  destruct (_ && c_bottommost_level c) eqn:Ebot.
  { apply andb_true_iff in Ebot as [Es%Z.leb_le Eb].
    destruct (IH (drop_tombstone d1) Hok' Hsort) as [kept Hk]; [done|done|].
    exists kept. skip_tombstone t ts d (drop_tombstone d1) Hk; [done|]. split; [done|by left]. }
  destruct (tombstone_range lower upper t) as [[a b]|] eqn:Er.
  2:{ exists []. split; try done; [by rewrite app_nil_r|apply sublist_nil_l|].
      intros t' q Ht' _ Hq1 Hq2 Hd. exfalso. rewrite Forall_forall in Hok', Hfol.
      apply elem_of_cons in Ht' as [->|Ht']; [by eapply (above_none t t q); eauto|].
      eapply (above_none t t' q); eauto. }
  destruct (range_nonempty t a b Er Hl0 Hu0) as [Ha Hb].
  destruct (range_spec t a b Ht Hrt Er) as (R1 & R2 & R3 & _).
  assert (Hpa : ∀ u, known u → ule (uk a) u → positions_ok u (ts_level_ptrs d))
    by (intros u Hk; apply (Hpos u t a b); [done|by left|done..]).
  assert (Hnext : ∀ ptrs, (∀ u, ule (uk a) u → positions_ok u (ts_level_ptrs d) → positions_ok u ptrs) →
    ∀ u t' a' b', known u → t' ∈ ts → reaches t' → tombstone_range lower upper t' = Some (a', b') →
    ule (uk a') u → positions_ok u ptrs).
  { intros ptrs Hptrs u t' a' b' Hk Ht' Hr' Er' Hu'. apply Hptrs; [|by eapply Hpos'].
    rewrite Forall_forall in Hok', Hfol. assert (ule (uk a) (uk a')) by (eapply (parts_mono t t'); eauto).
    order (cmp_le (@Compare C)). }
  assert (Hafter : ∀ u, after_parts [t] u → ule (uk a) u) by (intros u Hu; apply (Hu t a b); [by left|done..]).
  assert (Hadd : ∀ d2, ts_records d2 = ts_records d → ts_meta d2 = ts_meta d →
    (∀ u, ule (uk a) u → positions_ok u (ts_level_ptrs d) → positions_ok u (ts_level_ptrs d2)) →
    ∃ kept, tombstones_added keep (t :: ts) d (tombstone_loop c o v lower upper keep ts (add_tombstone c t (a, b) d2)) kept).
  { intros d2 E1 E2 Hptrs. destruct (add_tombstone_spec t a b d2 Ha Hb R1 R2 R3) as (A1 & A2 & A3 & A4 & A5 & A6 & A7).
    rewrite E1 in A1. rewrite E2 in A4, A6, A7. set (d3 := add_tombstone c t (a, b) d2) in *.
    destruct (IH d3 Hok' Hsort) as [kept Hk]; [done|rewrite A2; by apply Hnext|].
    exists (t :: kept). eapply added_step; eauto. }
  destruct (seq_ t <=? earliest_snapshot_) eqn:Es; [|by apply Hadd].
  destruct (not_exists_spec (uk a) (uk b) (ts_level_ptrs d)) as [N1 N2].
  change (ts_level_ptrs d1) with (ts_level_ptrs d). cbn [fst snd].
  destruct (KeyRangeNotExistsBeyondOutputLevel _ _ _ _ _ _) as [ptrs ne]. cbn [fst snd] in N1, N2.
  set (d2 := d1 <| ts_level_ptrs := ptrs |>). destruct ne; [|by apply Hadd].
  destruct (IH (drop_tombstone d2) Hok' Hsort) as [kept Hk]; [done|by apply Hnext|].
  exists kept. skip_tombstone t ts d (drop_tombstone d2) Hk; [intros u Hu; by apply N1, Hafter|].
  intros _ _ _ _ _. apply Z.leb_le in Es. split; [done|].
  destruct (N2 eq_refl) as [N|N]; [by left|]. right. exists a, b. split; [done|]. intros u Hku Hau Hub.
  apply N; auto.
Qed.
End tombstones.
