(* ===== verification/CompactionRun.v ===== *)
(** * The output files of a subcompaction

    Theorems on [CompactionJob]: over a whole run of the loop over the
    compaction iterator, with cuts, range tombstones and errors, the output
    files hold exactly the entries of the iterator, in order and in disjoint
    ranges. *)

From S2P Require Import Prelude Coding BlobIndex Comparator DbFormat ManifestRecords FileMeta VersionEdit.
From S2P Require Import Bucket BucketManager BucketPartition BlobGarbageMeter VersionStorage TableIterator BuildTable.
From S2P Require Import Compaction CompactionScore CompactionOutputs CompactionJob.

Section files.
Context (C : Comparator) (HC : ComparatorOk C) (Hts : no_timestamps C) (E : JobEnv).
Context (c : Compaction) (o : CompactOptions) (v : VersionStorageInfo) (start fin : option key).
Context (Hbelow : ∀ l, (c_output_level c < l)%nat → starts_sorted C (LevelFiles v l)).

Abbreviation ile := (cmp_le (@InternalKeyCompare C)).
Abbreviation ule := (cmp_le (@Compare C)).
Abbreviation uk := ExtractUserKey.

Lemma internal_le_user a b : ile a b → ule (uk a) (uk b).
Proof using HC. rewrite (ikey_le_iff C HC). intros [?|(? & _)]; order (cmp_le (@Compare C)). Qed.

(** What the aggregator returns: fragments in order. *)
Definition fragments_ok (ts : list RangeTombstone) : Prop :=
  Forall (tombstone_ok C) ts ∧ StronglySorted (follows C) ts.

(** The tombstones [kept] in a file with bounds [lower] and [upper], of the
    fragments [ts]. *)
Record file_tombstones (known : key → Prop) (keep : Z * Z) (lower upper : option key) (ts kept : list RangeTombstone)
    (m : FileMetaData) : Prop := {
  ft_sublist : kept `sublist_of` ts;
  ft_kept : Forall (λ t, ∃ a b, tombstone_range lower upper t = Some (a, b) ∧ covers C m a b (seq_ t)) kept;
  ft_complete : ∀ t q, t ∈ ts → in_keep keep t → from_lower C lower q → to_upper C upper q → deletes C t q →
    t ∈ kept ∨ obsolete C E c v lower upper known t;
}.

Lemma add_range_dels_spec (known : key → Prop) agg keep next s outs out recs :
  let lower := range_lower_bound start s in let upper := range_upper_bound fin next s in
  let ts := agg lower upper in
  outputs_ s = outs ++ [out] → builder_ s = Some recs →
  (∀ l, lower = Some l → l ≠ [] ∧ bound_ok l) → (∀ u, upper = Some u → u ≠ []) →
  bounded C lower upper (meta out) → fragments_ok ts →
  (∀ u, known u → (∀ l, lower = Some l → ule (uk l) u) → positions_ok C v u (level_ptrs_ s)) →
  let s' := AddRangeDels c o v start fin agg keep next s in
  ∃ m kept, outputs_ s' = outs ++ [out <| meta := m |>] ∧
    builder_ s' = Some (recs ++ (SerializeTombstone <$> kept)) ∧
    current_output_file_size_ s' = current_output_file_size_ s ∧
    range_tombstone_lower_bound_ s' = range_tombstone_lower_bound_ s ∧
    is_proximal_level_ s' = is_proximal_level_ s ∧ same_cuts s s' ∧
    packed_number_and_path_id m = packed_number_and_path_id (meta out) ∧
    (∀ lo hi q, covers C (meta out) lo hi q → covers C m lo hi q) ∧ bounded C lower upper m ∧
    file_tombstones known keep lower upper ts kept m ∧
    (∀ x u, upper = Some x → ule (uk x) u → positions_ok C v u (level_ptrs_ s) →
            positions_ok C v u (level_ptrs_ s')).
Proof using HC Hts Hbelow.
  intros lower upper ts Ho Hb Hl Hu Hbd [Hok Hsort] Hpos s'. subst s'. unfold AddRangeDels. fold lower upper ts.
  rewrite (current_meta_snoc _ _ _ Ho), Hb. cbn [default from_option].
  destruct (match lower, upper with Some l, Some u => ikey_ltb u l | _, _ => false end) eqn:Eempty.
  { destruct lower as [l|], upper as [x|]; try done. apply (ikey_ltb_true C HC) in Eempty.
    exists (meta out), []. cbn [fmap list_fmap]. rewrite app_nil_r. split_and!; try done; [by destruct out|].
    split; [apply sublist_nil_l|constructor|]. intros t q _ _ Hq1 Hq2 _. cbn in Hq1, Hq2.
    destruct Eempty. order (cmp_le (@InternalKeyCompare C)). }
  assert (Hlu : ∀ l x, lower = Some l → upper = Some x → ile l x).
  { intros l x El Ex. rewrite El, Ex in Eempty. by apply (ikey_ltb_false C HC) in Eempty. }
  set (d0 := mkTombstones recs (meta out) false [] (level_ptrs_ s) 0).
  destruct (tombstone_loop_spec C HC Hts E c o v lower upper) with known keep ts d0 as [kept [T1 T2 T3 T4 T5 T6 T7 T8]]; try done.
  { intros l El. by apply Hl. }
  { intros l El. by apply Hl. }
  { intros u t a b Hk Ht Hr Er Hau. apply (Hpos u Hk). intros l El. rewrite Forall_forall in Hok.
    destruct (range_spec C HC Hts lower upper) with t a b as (_ & R & _); [|done|by apply Hok|done|done|].
    { intros l' El'. by apply Hl. }
    rewrite El in R. apply internal_le_user in R. order (cmp_le (@Compare C)). }
  set (d := tombstone_loop c o v lower upper keep ts d0) in *.
  set (s1 := s <| builder_ := Some (ts_records d) |>). set (s2 := s1 <| level_ptrs_ := ts_level_ptrs d |>).
  exists (ts_meta d), kept. split_and!; try done.
  - exact (update_current_snoc (λ out, out <| meta := ts_meta d |>) s2 _ _ Ho).
  - change (Some (ts_records d) = Some (recs ++ (SerializeTombstone <$> kept))). by rewrite T1.
  - by apply T5.
  - intros x u Ex Hu' Hp. apply (T8 u); [|done]. intros t a b Ht Hr Er. rewrite Forall_forall in Hok.
    destruct (range_spec C HC Hts lower upper) with t a b as (R1 & _ & R & _); [|done|by apply Hok|done|done|].
    { intros l' El'. by apply Hl. }
    rewrite Ex in R. apply internal_le_user in R1, R. order (cmp_le (@Compare C)).
Qed.

(** Metadata with the same bounds and identity. *)
Definition same_bounds (m m' : FileMetaData) : Prop :=
  smallest m' = smallest m ∧ largest m' = largest m ∧ smallest_seqno m' = smallest_seqno m ∧
  largest_seqno m' = largest_seqno m ∧ packed_number_and_path_id m' = packed_number_and_path_id m.

(** What closing the current file leaves alone. *)
Definition closing_frame (s s' : CompactionOutputs) : Prop :=
  builder_ s' = builder_ s ∧ range_tombstone_lower_bound_ s' = range_tombstone_lower_bound_ s ∧
  is_proximal_level_ s' = is_proximal_level_ s ∧ level_ptrs_ s' = level_ptrs_ s ∧ same_cuts s s'.

Lemma finished_bounds info m : same_bounds m (finished_meta info m).
Proof using Type. by destruct m. Qed.

Lemma finish_output_spec st s s' st' outs out recs :
  FinishOutput st s = (s', st') → outputs_ s = outs ++ [out] → builder_ s = Some recs →
  closing_frame s s' ∧ ∃ m, same_bounds (meta out) m ∧ outputs_ s' = outs ++ [mkOutput m (validator out) true recs] ∧
  (st' = Ok → st = Ok ∧ builder_Finish recs = Ok ∧ file_size m = ti_FileSize (builder_info recs true)).
Proof using Type.
  unfold FinishOutput. intros Hf Ho Hb. rewrite Hb in Hf. cbn [default from_option] in Hf.
  set (st1 := and_then _ _) in Hf. set (finish := λ out : Output, mkOutput _ _ _ _) in Hf.
  injection Hf as <- <-. split; [done|]. exists (meta (finish out)). split_and!.
  - unfold finish. cbn [meta]. destruct (ok st1); [apply finished_bounds|done].
  - exact (update_current_snoc finish _ _ _ Ho).
  - intros Hst. unfold finish, st1 in *. apply and_then_ok in Hst as [H1 H2]. cbn [meta].
    assert (st = Ok) as -> by (destruct (ok st) eqn:Es; [by apply ok_true|done]). cbn [ok bool_decide] in H1.
    split_and!; [done|exact H1|]. rewrite (proj2 (and_then_ok _ _)) by done. done.
Qed.

Lemma refine_bounds m : same_bounds m (refine_ancester_time c m).
Proof using Type. unfold refine_ancester_time. repeat case_match; by destruct m. Qed.

Lemma same_bounds_trans m1 m2 m3 : same_bounds m1 m2 → same_bounds m2 m3 → same_bounds m1 m3.
Proof using Type. unfold same_bounds. intuition congruence. Qed.

Lemma update_meta_spec f s outs out :
  (∀ m, same_bounds m (f m)) → outputs_ s = outs ++ [out] →
  closing_frame s (update_meta f s) ∧
  ∃ m, same_bounds (meta out) m ∧ (file_size m = file_size (f (meta out))) ∧
    outputs_ (update_meta f s) = outs ++ [mkOutput m (validator out) (finished out) (contents out)].
Proof using Type.
  intros Hf Ho. split; [done|]. exists (f (meta out)). split_and!; [apply Hf|done|].
  exact (update_current_snoc (λ out, out <| meta := f (meta out) |>) _ _ _ Ho).
Qed.

(** A file finished without error: it is synced and closed, and it is kept
    unless it is empty. *)
Definition file_written (number : Z) (records : list entry) (m : FileMetaData) : Prop :=
  builder_Finish records = Ok ∧ SyncFile number = Ok ∧ CloseFile number = Ok ∧
  file_size m = ti_FileSize (builder_info records true).

Definition with_range_dels (next : key) (s : CompactionOutputs) : CompactionOutputs :=
  match range_del_agg with
  | Some agg => AddRangeDels c o v start fin agg (keep_seqno_range c (is_proximal_level_ s)) next s
  | None => s
  end.

Lemma report_ok n m st j j' : report_file n m st j = (j', Ok) → st = Ok ∧ next_file_number_ j' = next_file_number_ j.
Proof using Type.
  unfold report_file. destruct OnAddFile as [f|]; [|by intros [= <- ->]].
  destruct (GetPathId m =? 0); [|by intros [= <- ->]]. destruct (f n) as [st' max]. destruct max; [done|].
  intros [= <- Hst]. by apply and_then_ok in Hst as [-> _].
Qed.

Lemma finish_output_ok st s s' : FinishOutput st s = (s', Ok) → st = Ok.
Proof using Type.
  unfold FinishOutput. intros [= _ Hst]. apply and_then_ok in Hst as [Hst _].
  destruct (ok st) eqn:Es; [by apply ok_true|done].
Qed.

Lemma sync_close_spec n s s' :
  WriterSyncClose Ok n s = (s', Ok) → SyncFile n = Ok ∧ CloseFile n = Ok ∧ s' = update_meta (checksum_meta n) s.
Proof using Type.
  unfold WriterSyncClose. cbn [ok bool_decide]. set (io_s := and_then _ _). intros [= <- Hio].
  unfold io_s in *. rewrite Hio. by apply and_then_ok in Hio as [_ [? ?]%and_then_ok].
Qed.

Lemma checksum_bounds n m : same_bounds m (checksum_meta n m).
Proof using Type. by destruct m. Qed.
Lemma checksum_size n m : file_size (checksum_meta n m) = file_size m.
Proof using Type. by destruct m. Qed.
Lemma refine_size m : file_size (refine_ancester_time c m) = file_size m.
Proof using Type. unfold refine_ancester_time. repeat case_match; by destruct m. Qed.

Lemma finish_file_spec st next j s j' s' outs out1 recs1 :
  FinishCompactionOutputFile c o v start fin st next j s = (j', s', Ok) →
  let s1 := with_range_dels next s in
  outputs_ s1 = outs ++ [out1] → builder_ s1 = Some recs1 →
  st = Ok ∧ builder_ s' = None ∧ current_output_file_size_ s' = 0 ∧
  range_tombstone_lower_bound_ s' = range_tombstone_lower_bound_ s1 ∧
  is_proximal_level_ s' = is_proximal_level_ s1 ∧ level_ptrs_ s' = level_ptrs_ s1 ∧ same_cuts s1 s' ∧
  next_file_number_ j' = next_file_number_ j ∧
  (if decide (recs1 = []) then outputs_ s' = outs
   else ∃ m, same_bounds (meta out1) m ∧ outputs_ s' = outs ++ [mkOutput m (validator out1) true recs1] ∧
        file_written (GetNumber (current_meta s)) recs1 m).
Proof using Type.
  unfold FinishCompactionOutputFile. intros Hf. cbn zeta in Hf |- *. intros Ho Hb.
  set (number := GetNumber (current_meta s)) in *. set (s1 := with_range_dels next s) in *.
  set (s1' := if ok st then _ else s) in Hf. destruct (FinishOutput st s1') as [s2 st2] eqn:E2.
  set (s3 := if ok st2 then _ else s2) in Hf. destruct (WriterSyncClose st2 number s3) as [s4 io_s] eqn:E4.
  assert (Hst4 : and_then st2 io_s = Ok).
  { destruct (ok (and_then st2 io_s) && _); [by injection Hf|].
    destruct (report_file _ _ _ _) as [j2 st5] eqn:Er. injection Hf as _ _ ->. by apply report_ok in Er as [? _]. }
  apply and_then_ok in Hst4 as Hst24. destruct Hst24 as [-> ->].
  assert (st = Ok) as -> by (by eapply finish_output_ok). change s1' with s1 in *. clear s1'.
  destruct (finish_output_spec _ _ _ _ _ _ _ E2 Ho Hb) as (F1 & m2 & M2 & O2 & S2).
  destruct (S2 eq_refl) as (_ & Hfin & Hsize). change (ok Ok) with true in s3. cbv iota in s3.
  destruct (update_meta_spec (refine_ancester_time c) s2 outs _ refine_bounds O2) as (F3 & m3 & M3 & Z3 & O3).
  fold s3 in F3, O3. cbn [meta validator finished contents] in M3, Z3, O3.
  apply sync_close_spec in E4 as (Hsync & Hclose & ->).
  destruct (update_meta_spec (checksum_meta number) s3 outs _ (checksum_bounds number) O3) as (F4 & m4 & M4 & Z4 & O4).
  set (s4 := update_meta (checksum_meta number) s3) in *. cbn [meta validator finished contents] in M4, Z4, O4.
  assert (Hframe : closing_frame s1 s4) by (unfold closing_frame, same_cuts in *; intuition congruence).
  assert (Hm : same_bounds (meta out1) m4) by (eapply same_bounds_trans; [exact M2|]; eapply same_bounds_trans; eauto).
  assert (Hsz : file_size m4 = ti_FileSize (builder_info recs1 true)).
  { rewrite Z4, checksum_size, Z3, refine_size. exact Hsize. }
  clearbody s4 s3. rewrite Hb in Hf. cbn [default from_option] in Hf. rewrite Hst4 in Hf. change (ok Ok) with true in Hf. cbn [andb id] in Hf.
  destruct Hframe as (H1 & H2 & H3 & H4 & H5). destruct (decide (recs1 = [])) as [->|Hne].
  - injection Hf as <- <-. split_and!; try done; [|].
    + unfold note_io_status. by destruct (ok _).
    + cbn. rewrite O4, length_app, take_app_le, firstn_all2 by (cbn; lia). done.
  - destruct (Nat.eqb_spec (length recs1) 0) as [?%nil_length_inv|_]; [done|].
    destruct (report_file _ _ _ _) as [j2 st5] eqn:Er. injection Hf as <- <- ->.
    apply report_ok in Er as [_ Hj]. split_and!; try done.
    + rewrite Hj. unfold note_io_status. by destruct (ok _).
    + exists m4. split_and!; [done|exact O4|]. by split_and!.
Qed.

(** ** Segments

    The entries that go to one output file. *)

Definition points (seg : list CompactionEntry) : list entry :=
  (λ e, (ce_key e, ce_value e)) <$> filter (λ e, ce_range_del e = false) seg.
Definition seg_first (seg : list CompactionEntry) : key := match seg with e :: _ => ce_key e | [] => [] end.
Definition last_point (seg : list CompactionEntry) : key := last_key [] (points seg).
Definition seg_size (seg : list CompactionEntry) : Z :=
  match points seg with [] => 0 | records => EstimatedFileSize records end.

(** A file that was closed: its entries, the first key after it (the empty key
    at the end), and the output, unless that was empty. *)
Record ClosedFile := mkClosed {
  cl_entries : list CompactionEntry;
  cl_next : key;
  cl_out : option Output;
}.

(** The bounds of the tombstones of a file after the outputs [prev]. *)
Definition user_bound (u : option key) : option key :=
  match u with Some k => Some (InternalKey k kMaxSequenceNumber kTypeRangeDeletion) | None => None end.
Definition seg_lower (prev : list Output) (seg : list CompactionEntry) : option key :=
  match prev with [] => user_bound start | _ => Some (seg_first seg) end.
Definition seg_upper (seg : list CompactionEntry) (next : key) : option key :=
  match next with
  | [] => user_bound fin
  | _ => if (0 <? length (last_point seg))%nat && user_eqb (uk (last_point seg)) (uk next)
         then Some (last_point seg)
         else Some (InternalKey (uk next) kMaxSequenceNumber kTypeRangeDeletion)
  end.

(** The open file holds the keys of [seg]. *)
Record open_file (seg : list CompactionEntry) (out : Output) : Prop := {
  of_smallest : smallest (meta out) = first_key [] (points seg);
  of_largest : largest (meta out) = last_point seg;
  of_validator : validator out = last_point seg;
  of_seqnos : Forall (λ p, smallest_seqno (meta out) <= GetInternalKeySeqno p.1 <= largest_seqno (meta out)) (points seg);
}.

(** The tombstones of a file with metadata [m]. *)
Definition tombstones_of (known : key → Prop) (is_proximal : bool) (lower upper : option key) (kept : list RangeTombstone)
    (m : FileMetaData) : Prop :=
  match range_del_agg with
  | Some agg => file_tombstones known (keep_seqno_range c is_proximal) lower upper (agg lower upper) kept m
  | None => kept = []
  end.

(** The user keys a file is responsible for: all of them for the first file,
    those from its first key on for another. *)
Definition own (first : Prop) (seg : list CompactionEntry) (u : key) : Prop :=
  first ∨ ∀ e, head seg = Some e → ule (uk (ce_key e)) u.

Record closed_ok (first : Prop) (is_proximal : bool) (prev : list Output) (f : ClosedFile) : Prop := {
  co_entries : prev ≠ [] → cl_entries f ≠ [];
  co_file : ∃ kept m,
    let lower := seg_lower prev (cl_entries f) in let upper := seg_upper (cl_entries f) (cl_next f) in
    tombstones_of (own first (cl_entries f)) is_proximal lower upper kept m ∧
    match cl_out f with
    | None => points (cl_entries f) = [] ∧ kept = []
    | Some out =>
        same_bounds m (meta out) ∧ finished out = true ∧
        contents out = points (cl_entries f) ++ (SerializeTombstone <$> kept) ∧ contents out ≠ [] ∧
        bounded C lower upper (meta out) ∧
        Forall (λ p, covers C (meta out) p.1 p.1 (GetInternalKeySeqno p.1)) (points (cl_entries f)) ∧
        file_written (GetNumber (meta out)) (contents out) (meta out)
    end;
}.

(** ** Entries in order *)

Definition entry_ok (e : CompactionEntry) : Prop :=
  (8 <= length (ce_key e))%nat ∧ ExtractInternalKeyFooter (ce_key e) < kRangeTombstoneSentinel ∧
  (∀ b, start = Some b → ule b (uk (ce_key e))) ∧ (∀ x, fin = Some x → ¬ ule x (uk (ce_key e))).
Definition before (a b : CompactionEntry) : Prop := ¬ ile (ce_key b) (ce_key a).
Definition entries_ok (es : list CompactionEntry) : Prop := Forall entry_ok es ∧ StronglySorted before es.

Lemma entries_ok_app es es' :
  entries_ok (es ++ es') → entries_ok es ∧ entries_ok es' ∧ ∀ a b, a ∈ es → b ∈ es' → before a b.
Proof using Type.
  intros [[H1 H2]%Forall_app Hs]. split_and!; try split; try done.
  - by apply StronglySorted_app_1_l in Hs.
  - by apply StronglySorted_app_1_r in Hs.
  - intros a b Ha Hb. by eapply StronglySorted_app_1_elem_of.
Qed.

Lemma points_elem p seg : p ∈ points seg ↔ ∃ e, e ∈ seg ∧ ce_range_del e = false ∧ p = (ce_key e, ce_value e).
Proof using Type.
  unfold points. rewrite list_elem_of_fmap. split.
  - intros (e & -> & [He1 He2]%list_elem_of_filter). eauto.
  - intros (e & He1 & He2 & ->). exists e. split; [done|]. by apply list_elem_of_filter.
Qed.

Lemma points_snoc seg e : points (seg ++ [e]) = points seg ++ (if ce_range_del e then [] else [(ce_key e, ce_value e)]).
Proof using Type.
  unfold points. rewrite filter_app, fmap_app, filter_cons, filter_nil. f_equal.
  destruct (ce_range_del e); [by rewrite decide_False|by rewrite decide_True].
Qed.

Lemma points_sorted seg : entries_ok seg → StronglySorted (entry_le (@InternalKeyCompare C)) (points seg).
Proof using HC.
  intros [_ Hs]. unfold points. induction Hs as [|e seg Hs IH He]; [constructor|].
  rewrite filter_cons. destruct (decide _); [|done]. cbn. constructor; [done|].
  apply Forall_forall. intros p (e' & -> & [_ He']%list_elem_of_filter)%list_elem_of_fmap.
  rewrite Forall_forall in He. specialize (He e' He'). unfold before in He. unfold entry_le. cbn.
  order (cmp_le (@InternalKeyCompare C)).
Qed.

Lemma seg_first_le seg e : entries_ok seg → e ∈ seg → ile (seg_first seg) (ce_key e).
Proof using HC.
  intros [_ Hs] He. destruct Hs as [|e0 seg Hs Hb]; [by apply not_elem_of_nil in He|]. cbn.
  apply elem_of_cons in He as [->|He]; [order (cmp_le (@InternalKeyCompare C))|].
  rewrite Forall_forall in Hb. specialize (Hb e He). unfold before in Hb. order (cmp_le (@InternalKeyCompare C)).
Qed.

(** The first and the last key written are keys of the segment, in order. *)
Lemma points_ends seg :
  entries_ok seg → points seg ≠ [] →
  ∃ a b, a ∈ seg ∧ b ∈ seg ∧ ce_range_del b = false ∧ first_key [] (points seg) = ce_key a ∧ last_point seg = ce_key b ∧
         ile (ce_key a) (ce_key b) ∧ ∀ p, p ∈ points seg → ile (ce_key a) p.1 ∧ ile p.1 (ce_key b).
Proof using HC.
  intros Hok Hne. pose proof (points_sorted seg Hok) as Hs.
  destruct (points seg) as [|p0 ps] eqn:Ep; [done|]. rewrite <- Ep in *.
  destruct (last (points seg)) as [pl|] eqn:El; [|apply last_None in El; congruence].
  assert (H0 : p0 ∈ points seg) by (rewrite Ep; by left).
  assert (Hl : pl ∈ points seg) by (by apply last_Some_elem_of).
  assert (Hb : ∀ p, p ∈ points seg → ile p0.1 p.1 ∧ ile p.1 pl.1).
  { intros p Hp. destruct (sorted_first_last C HC _ p Hs Hp) as [B1 B2]. rewrite El in B2. rewrite Ep in B1. done. }
  pose proof (proj2 (Hb p0 H0)) as H0l. pose proof H0 as H0'. pose proof Hl as Hl'.
  apply points_elem in H0' as (a & Ha & _ & Ea). apply points_elem in Hl' as (b & Hb' & Hbd & Eb).
  exists a, b. subst p0 pl. split_and!; try done.
  - rewrite Ep. unfold first_key. by rewrite decide_True.
  - unfold last_point, last_key. by rewrite El.
Qed.

(** ** Bounds of the files *)

Lemma bound_footer u : ExtractInternalKeyFooter (InternalKey u kMaxSequenceNumber kTypeRangeDeletion) = kRangeTombstoneSentinel.
Proof using Type. by rewrite footer_internal. Qed.

(** The bound at a user key is before all its keys, and after all keys of
    smaller ones. *)
Lemma user_bound_le u k :
  ule u (uk k) → ExtractInternalKeyFooter k <= kRangeTombstoneSentinel →
  ile (InternalKey u kMaxSequenceNumber kTypeRangeDeletion) k.
Proof using HC.
  intros Hu Hf. apply (ikey_le_iff C HC). rewrite uk_internal, bound_footer.
  destruct (decide (ule (uk k) u)); [right; by split_and!|by left].
Qed.

Lemma le_user_bound u k : ¬ ule u (uk k) → ile k (InternalKey u kMaxSequenceNumber kTypeRangeDeletion).
Proof using HC. intros Hu. apply (ikey_le_iff C HC). left. by rewrite uk_internal. Qed.

Lemma key_nonempty e : entry_ok e → ce_key e ≠ [].
Proof using Type. intros [H1 _] H2. rewrite H2 in H1. cbn in H1. lia. Qed.

Lemma bound_nonempty u s : InternalKey u s kTypeRangeDeletion ≠ [].
Proof using Type. exact (proj1 (tombstone_keys (mkTombstone u [] s))). Qed.

(** [next] is the key of the entry after [seg], or empty. *)
Definition next_ok (seg : list CompactionEntry) (next : key) : Prop :=
  next = [] ∨ ∃ e, next = ce_key e ∧ entries_ok (seg ++ [e]).

Lemma user_eqb_false a b : user_eqb a b = false → ¬ (ule a b ∧ ule b a).
Proof using HC Hts. unfold user_eqb. rewrite Hts. intros Hb Heq. apply (cmp_eq_iff (@Compare C)) in Heq. by rewrite Heq in Hb. Qed.

Lemma seg_upper_spec seg next e :
  next = ce_key e → entries_ok (seg ++ [e]) →
  ∃ x, seg_upper seg next = Some x ∧ x ≠ [] ∧ ¬ ile next x ∧
    ule (uk x) (uk next) ∧ ule (uk next) (uk x) ∧
    ∀ a, a ∈ seg → ce_range_del a = false → ile (ce_key a) x.
Proof using HC Hts.
  intros -> Hok. apply entries_ok_app in Hok as (Hseg & He & Hbe).
  assert (Hee : entry_ok e) by exact (proj1 (Forall_singleton _ _) (proj1 He)).
  pose proof (key_nonempty e Hee) as Hne. unfold seg_upper. destruct (ce_key e) as [|b0 k0] eqn:Ek; [done|]. rewrite <- Ek in *.
  assert (Hpt : ∀ a, a ∈ seg → ce_range_del a = false → points seg ≠ [] ∧ ile (ce_key a) (last_point seg)).
  { intros a Ha Hd. assert (Hp : (ce_key a, ce_value a) ∈ points seg) by (apply points_elem; eauto).
    assert (Hn : points seg ≠ []) by (intros E0; rewrite E0 in Hp; by apply not_elem_of_nil in Hp).
    split; [done|]. destruct (points_ends seg Hseg Hn) as (x & y & _ & _ & _ & _ & -> & _ & Hxy). by apply (Hxy _ Hp). }
  destruct (_ && _) eqn:Eeq.
  - apply andb_true_iff in Eeq as [Hl%Nat.ltb_lt Eeq].
    assert (Hn : points seg ≠ []) by (intros E0; unfold last_point in Hl; rewrite E0 in Hl; cbn in Hl; lia).
    destruct (points_ends seg Hseg Hn) as (x & y & _ & Hy & _ & _ & Ey & _ & _).
    assert (Hye : ¬ ile (ce_key e) (last_point seg)) by (rewrite Ey; apply (Hbe y e); [done|by left]).
    exists (last_point seg). unfold user_eqb in Eeq. rewrite Hts in Eeq.
    assert (Hu : ule (uk (last_point seg)) (uk (ce_key e)) ∧ ule (uk (ce_key e)) (uk (last_point seg)))
      by (apply (cmp_eq_iff (@Compare C)); by destruct (Compare _ _)).
    split_and!; [done|by intros E0; rewrite E0 in Hl; cbn in Hl; lia|done|apply Hu|apply Hu|].
    intros a Ha Hd. by apply Hpt.
  - eexists. split_and!; [done|apply bound_nonempty| |rewrite uk_internal; order (cmp_le (@Compare C))..|].
    + intros Hle. apply (ikey_le_iff C HC) in Hle. rewrite uk_internal, bound_footer in Hle. destruct Hee as (_ & Hf & _).
      destruct Hle as [Hle|(_ & _ & Hle)]; [apply Hle; order (cmp_le (@Compare C))|lia].
    + intros a Ha Hd. apply le_user_bound. destruct (Hpt a Ha Hd) as [Hn Hal].
      destruct (points_ends seg Hseg Hn) as (x & y & _ & Hy & _ & _ & Ey & _ & _).
      assert (Hye : ¬ ile (ce_key e) (ce_key y)) by (apply (Hbe y e); [done|by left]). rewrite Ey in *.
      assert (Hlen : (0 <? length (ce_key y))%nat = true).
      { apply Nat.ltb_lt. destruct Hseg as [Hseg _]. rewrite Forall_forall in Hseg. destruct (Hseg y Hy). lia. }
      rewrite Hlen in Eeq. cbn [andb] in Eeq. apply user_eqb_false in Eeq.
      assert (H1 : ile (ce_key y) (ce_key e)) by order (cmp_le (@InternalKeyCompare C)).
      apply internal_le_user in H1, Hal. intros H2. apply Eeq. split; [done|]. order (cmp_le (@Compare C)).
Qed.

Lemma seg_lower_ok prev seg l :
  entries_ok seg → (prev ≠ [] → seg ≠ []) → seg_lower prev seg = Some l → l ≠ [] ∧ bound_ok l.
Proof using Type.
  intros [Hok _] Hne. unfold seg_lower, user_bound. destruct prev as [|x prev].
  - destruct start as [b|]; [|done]. intros [= <-]. split; [apply bound_nonempty|].
    unfold bound_ok. rewrite bound_footer. lia.
  - intros [= <-]. destruct seg as [|e seg]; [by destruct Hne|]. inversion Hok as [|? ? He _]; subst. cbn.
    split; [by apply key_nonempty|]. unfold bound_ok. destruct He as (_ & Hf & _). lia.
Qed.

Lemma seg_lower_le prev seg e : entries_ok seg → e ∈ seg → from_lower C (seg_lower prev seg) (ce_key e).
Proof using HC.
  intros Hok He. unfold seg_lower, user_bound. destruct prev as [|x prev]; [|by apply seg_first_le].
  destruct Hok as [Hok _]. rewrite Forall_forall in Hok. destruct (Hok e He) as (_ & Hf & Hb & _).
  unfold from_lower. destruct start as [b|]; [|done]. apply user_bound_le; [by apply Hb|lia].
Qed.

Lemma seg_upper_le seg next e :
  entries_ok seg → next_ok seg next → e ∈ seg → ce_range_del e = false → to_upper C (seg_upper seg next) (ce_key e).
Proof using HC Hts.
  intros Hok [->|(e' & -> & Hn)] He Hd.
  - unfold seg_upper, user_bound, to_upper. destruct Hok as [Hok _]. rewrite Forall_forall in Hok.
    destruct (Hok e He) as (_ & _ & _ & Hf). destruct fin as [x|]; [|done]. apply le_user_bound. by apply Hf.
  - destruct (seg_upper_spec seg _ e' eq_refl Hn) as (x & -> & _ & _ & _ & _ & Hle). by apply Hle.
Qed.

Lemma seg_upper_nonempty seg next x :
  next_ok seg next → seg_upper seg next = Some x → x ≠ [].
Proof using HC Hts.
  intros [->|(e' & -> & Hn)].
  - unfold seg_upper, user_bound. destruct fin; [|done]. intros [= <-]. apply bound_nonempty.
  - destruct (seg_upper_spec seg _ e' eq_refl Hn) as (x' & -> & Hx & _). by intros [= <-].
Qed.

Lemma open_bounded prev seg next out :
  entries_ok seg → next_ok seg next → open_file seg out →
  bounded C (seg_lower prev seg) (seg_upper seg next) (meta out) ∧
  Forall (λ p, covers C (meta out) p.1 p.1 (GetInternalKeySeqno p.1)) (points seg).
Proof using HC Hts.
  intros Hok Hn [O1 O2 O3 O4]. unfold bounded, covers. rewrite O1, O2.
  destruct (decide (points seg = [])) as [E0|E0].
  { unfold last_point. rewrite E0. split; [left; by vm_compute|constructor]. }
  destruct (points_ends seg Hok E0) as (a & b & Ha & Hb & Hbd & -> & -> & Hab & Hall).
  assert (Hne : ∀ e, e ∈ seg → ce_key e ≠ []).
  { intros e He. destruct Hok as [Hok _]. rewrite Forall_forall in Hok. by apply key_nonempty, Hok. }
  split.
  - right. split_and!; [by apply Hne..|done|by apply seg_lower_le|by apply seg_upper_le].
  - rewrite Forall_forall in O4 |- *. intros p Hp. destruct (Hall p Hp).
    split_and!; [by apply Hne..|done|done|apply O4; done|apply O4; done].
Qed.

(** ** Closing a file *)

(** The aggregator returns fragments in order, whatever the bounds. *)
Definition aggregator_ok : Prop :=
  ∀ agg lower upper, range_del_agg = Some agg → fragments_ok (agg lower upper).

(** The open file is the one of [cur], after the outputs [outs].  The positions
    in the levels below are right for the keys of the file. *)
Record open_state (first : Prop) (outs : list Output) (cur : list CompactionEntry) (s : CompactionOutputs) : Prop := {
  os_builder : builder_ s = Some (points cur);
  os_output : ∃ out, outputs_ s = outs ++ [out] ∧ open_file cur out;
  os_entries : outs ≠ [] → cur ≠ [];
  os_lower : outs ≠ [] → range_tombstone_lower_bound_ s =
    match cur with e :: _ => if ce_range_del e then ce_key e else [] | [] => [] end;
  os_positions : ∀ u, own first cur u → positions_ok C v u (level_ptrs_ s);
}.

Lemma range_bounds first outs cur s next :
  entries_ok cur → open_state first outs cur s →
  range_lower_bound start s = seg_lower outs cur ∧ range_upper_bound fin next s = seg_upper cur next.
Proof using Type.
  intros Hok [_ (out & Ho & [O1 O2 _ _]) Hne Hlow _]. unfold range_lower_bound, range_upper_bound.
  rewrite (current_meta_snoc _ _ _ Ho), O2, Ho, length_app, Nat.add_1_r. split; [|done].
  unfold seg_lower. destruct outs as [|x outs]; [done|]. cbn [length Nat.eqb]. rewrite (Hlow ltac:(done)).
  destruct cur as [|e cur]; [by destruct Hne|]. cbn [seg_first].
  destruct Hok as [Hok _]. inversion Hok as [|? ? He _]; subst. destruct He as (Hlen & _).
  destruct (ce_range_del e) eqn:Ed; [by rewrite (proj2 (Nat.ltb_lt _ _)) by lia|]. cbn [length Nat.ltb Nat.leb].
  f_equal. rewrite O1. unfold points. rewrite filter_cons, decide_True by done. done.
Qed.

Lemma covers_same_bounds m m' lo hi q : same_bounds m m' → covers C m lo hi q → covers C m' lo hi q.
Proof using Type. unfold same_bounds, covers. intros (-> & -> & -> & -> & _). done. Qed.

Lemma bounded_same_bounds lower upper m m' : same_bounds m m' → bounded C lower upper m → bounded C lower upper m'.
Proof using Type. unfold same_bounds, bounded. intros (-> & -> & _). done. Qed.

(** The state with the range tombstones of the current file added. *)
Lemma with_range_dels_spec first outs cur s out next :
  aggregator_ok → entries_ok cur → next_ok cur next → open_state first outs cur s →
  outputs_ s = outs ++ [out] → open_file cur out →
  let lower := seg_lower outs cur in let upper := seg_upper cur next in
  let s' := with_range_dels next s in
  ∃ m kept, outputs_ s' = outs ++ [out <| meta := m |>] ∧
    builder_ s' = Some (points cur ++ (SerializeTombstone <$> kept)) ∧
    is_proximal_level_ s' = is_proximal_level_ s ∧ same_cuts s s' ∧
    packed_number_and_path_id m = packed_number_and_path_id (meta out) ∧
    bounded C lower upper m ∧ Forall (λ p, covers C m p.1 p.1 (GetInternalKeySeqno p.1)) (points cur) ∧
    tombstones_of (own first cur) (is_proximal_level_ s) lower upper kept m ∧
    (∀ x u, upper = Some x → ule (uk x) u → positions_ok C v u (level_ptrs_ s) → positions_ok C v u (level_ptrs_ s')).
Proof using HC Hts Hbelow.
  intros Hagg Hok Hn Hst Ho Hof lower upper s'. destruct (range_bounds first outs cur s next Hok Hst) as [Hl Hu].
  destruct (open_bounded outs cur next out Hok Hn Hof) as [Hb Hc]. fold lower upper in Hl, Hu, Hb.
  destruct Hst as [S1 _ S3 S4 S5]. unfold s', with_range_dels, tombstones_of.
  destruct range_del_agg as [agg|] eqn:Ea.
  2:{ exists (meta out), []. cbn [fmap list_fmap]. rewrite app_nil_r. split_and!; try done. by destruct out. }
  destruct (add_range_dels_spec (own first cur) agg (keep_seqno_range c (is_proximal_level_ s)) next s outs out (points cur))
    as (m & kept & D1 & D2 & _ & _ & D5 & D6 & D7 & D8 & D9 & D10 & D11); rewrite ?Hl, ?Hu; try done.
  - intros l El. by apply (seg_lower_ok outs cur).
  - intros x Ex. by apply (seg_upper_nonempty cur next).
  - by apply Hagg.
  - intros u Hu' _. by apply S5.
  - rewrite Hl, Hu in D9, D10. exists m, kept. split_and!; try done.
    + eapply Forall_impl; [exact Hc|]. intros p. apply D8.
    + intros x u Ex. apply D11. by rewrite Hu.
Qed.

Lemma close_spec first st next j s j' s' outs cur :
  aggregator_ok → entries_ok cur → next_ok cur next → open_state first outs cur s →
  FinishCompactionOutputFile c o v start fin st next j s = (j', s', Ok) →
  st = Ok ∧ builder_ s' = None ∧ current_output_file_size_ s' = 0 ∧
  is_proximal_level_ s' = is_proximal_level_ s ∧ same_cuts s s' ∧ next_file_number_ j' = next_file_number_ j ∧
  (∀ x u, seg_upper cur next = Some x → ule (uk x) u → positions_ok C v u (level_ptrs_ s) →
          positions_ok C v u (level_ptrs_ s')) ∧
  ∃ f, cl_entries f = cur ∧ cl_next f = next ∧ outputs_ s' = outs ++ option_list (cl_out f) ∧
       closed_ok first (is_proximal_level_ s) outs f.
Proof using HC Hts Hbelow.
  intros Hagg Hok Hn Hst Hf. pose proof Hst as [_ (out & Ho & Hof) S3 _ _].
  destruct (with_range_dels_spec first outs cur s out next Hagg Hok Hn Hst Ho Hof)
    as (m & kept & D1 & D2 & D3 & D4 & D5 & D6 & D7 & D8 & D9).
  destruct (finish_file_spec _ _ _ _ _ _ _ _ _ Hf D1 D2) as (-> & F1 & F2 & _ & F4 & F5 & F6 & F7 & F8).
  split_and!; [done..|by rewrite F4| |done| |].
  - unfold same_cuts in *. intuition congruence.
  - intros x u Ex Hu Hp. rewrite F5. by apply (D9 x u).
  - destruct (decide _) as [E0|E0].
    + exists (mkClosed cur next None). split_and!; [done..|cbn; by rewrite app_nil_r|]. split; [done|].
      exists kept, m. split; [done|]. apply app_nil in E0 as [E1 E2]. by apply fmap_nil_inv in E2.
    + destruct F8 as (m' & Hm & Ho' & Hw).
      exists (mkClosed cur next (Some (mkOutput m' (validator out) true (points cur ++ (SerializeTombstone <$> kept))))).
      split_and!; [done..|exact Ho'|]. split; [done|]. exists kept, m. split; [done|]. cbn [cl_out cl_entries cl_next meta finished contents].
      cbn [meta] in Hm. split_and!; try done.
      * by eapply bounded_same_bounds.
      * eapply Forall_impl; [exact D7|]. intros p. by apply covers_same_bounds.
      * assert (GetNumber m' = GetNumber (current_meta s)) as ->; [|done].
        unfold GetNumber. rewrite (current_meta_snoc _ _ _ Ho). destruct Hm as (_ & _ & _ & _ & ->). by rewrite D5.
Qed.

(** ** Adding an entry *)

Lemma note_partitioner_spec e s :
  same_files s (note_partitioner_key c e s) ∧ same_cuts s (note_partitioner_key c e s).
Proof using Type. unfold note_partitioner_key. repeat case_match; done. Qed.

Lemma first_key_snoc ps k w :
  (∀ p, p ∈ ps → p.1 ≠ []) → k ≠ [] →
  (if decide (first_key [] ps = []) then k else first_key [] ps) = first_key [] (ps ++ [(k, w)]).
Proof using Type.
  intros Hps Hk. unfold first_key. rewrite !(decide_True (P := [] = [])) by done.
  destruct ps as [|p ps]; cbn; [by rewrite decide_True|]. rewrite decide_False; [done|]. apply Hps. by left.
Qed.

Lemma open_file_add cur e out m :
  entries_ok (cur ++ [e]) → ce_range_del e = false → open_file cur out →
  UpdateBoundaries (ce_key e) (ce_value e) (GetInternalKeySeqno (ce_key e)) (ExtractValueType (ce_key e)) (meta out) = Some m →
  ∀ fin' cont, open_file (cur ++ [e]) (mkOutput m (ce_key e) fin' cont).
Proof using Type.
  intros [Hok _] Hd [O1 O2 O3 O4] Hu fin' cont. apply update_boundaries_spec in Hu as (U1 & U2 & U3 & U4 & _).
  apply Forall_app in Hok as [Hok He]. apply (proj1 (Forall_singleton _ _)) in He. rewrite Forall_forall in Hok.
  assert (Hlast : last_point (cur ++ [e]) = ce_key e)
    by (unfold last_point, last_key; rewrite points_snoc, Hd, last_snoc; done).
  split; cbn [meta validator]; rewrite ?Hlast; [|done|done|].
  - rewrite U1, O1, points_snoc, Hd. apply first_key_snoc; [|by apply key_nonempty].
    intros p (a & Ha & _ & ->)%points_elem. cbn. by apply key_nonempty, Hok.
  - rewrite points_snoc, Hd, U3, U4. apply Forall_app. split; [|apply Forall_singleton; cbn; lia].
    eapply Forall_impl; [exact O4|]. intros p Hp. cbn in Hp. lia.
Qed.

Lemma seg_lower_snoc outs cur e : cur ≠ [] → seg_lower outs (cur ++ [e]) = seg_lower outs cur.
Proof using Type. destruct cur; done. Qed.

Lemma open_file_range_del cur e out : ce_range_del e = true → open_file cur out → open_file (cur ++ [e]) out.
Proof using Type.
  intros Hd [O1 O2 O3 O4]. assert (Hp : points (cur ++ [e]) = points cur) by (by rewrite points_snoc, Hd, app_nil_r).
  split; unfold last_point; by rewrite Hp.
Qed.

(** The entry is added to the file of [cur], possibly just opened. *)
Lemma write_open outs cur e s s' out :
  entries_ok (cur ++ [e]) → ce_range_del e = false → builder_ s = Some (points cur) →
  outputs_ s = outs ++ [out] → open_file cur out → write_entry e s = (s', Ok) →
  builder_ s' = Some (points (cur ++ [e])) ∧ current_output_file_size_ s' = seg_size (cur ++ [e]) ∧
  (∃ out', outputs_ s' = outs ++ [out'] ∧ open_file (cur ++ [e]) out') ∧
  range_tombstone_lower_bound_ s' = range_tombstone_lower_bound_ s ∧
  is_proximal_level_ s' = is_proximal_level_ s ∧ level_ptrs_ s' = level_ptrs_ s ∧ same_cuts s s'.
Proof using Type.
  intros Hok Hd Hb Ho Hof Hw.
  destruct (write_entry_spec e s s' outs out (points cur) Hw Ho Hb) as (m & W1 & W2 & W3 & W4 & W5 & W6 & W7 & W8 & _).
  assert (Hp : points (cur ++ [e]) = points cur ++ [(ce_key e, ce_value e)]) by (by rewrite points_snoc, Hd).
  split_and!; [by rewrite Hp| | |done|done|done|done].
  - rewrite W3. unfold seg_size. rewrite Hp. by destruct (points cur).
  - eexists. split; [exact W1|]. by eapply open_file_add.
Qed.

(** What [add_to_file] makes of a state whose open file, if any, is the one of
    [cur]. *)
Record extended (outs : list Output) (cur : list CompactionEntry) (e : CompactionEntry)
    (s s' : CompactionOutputs) : Prop := {
  ex_builder : builder_ s' = Some (points (cur ++ [e]));
  ex_size : current_output_file_size_ s' = seg_size (cur ++ [e]);
  ex_output : ∃ out, outputs_ s' = outs ++ [out] ∧ open_file (cur ++ [e]) out;
  ex_lower : range_tombstone_lower_bound_ s' = range_tombstone_lower_bound_ s;
  ex_proximal : is_proximal_level_ s' = is_proximal_level_ s;
  ex_ptrs : level_ptrs_ s' = level_ptrs_ s;
  ex_cuts : same_cuts s s';
}.

Lemma extend_open outs cur e s s2 (j j' : JobState) s' out :
  entries_ok (cur ++ [e]) → same_files s s2 → same_cuts s s2 → builder_ s2 = Some (points cur) →
  current_output_file_size_ s2 = seg_size cur → outputs_ s2 = outs ++ [out] → open_file cur out →
  (if ce_range_del e then (j, s2, Ok) else let '(s3, st3) := write_entry e s2 in (j, s3, st3)) = (j', s', Ok) →
  extended outs cur e s s'.
Proof using Type.
  intros Hok Hf Hc Hb Hsz Ho Hof Hw. destruct Hf as (F1 & F2 & F3 & F4 & F5 & F6 & F7 & F8).
  destruct (ce_range_del e) eqn:Ed.
  - injection Hw as <- <-. assert (Hp : points (cur ++ [e]) = points cur) by (by rewrite points_snoc, Ed, app_nil_r).
    split; try done; [by rewrite Hp|unfold seg_size; by rewrite Hp|]. exists out. split; [done|]. by apply open_file_range_del.
  - destruct (write_entry e s2) as [s3 st3] eqn:Ew. injection Hw as <- <- ->.
    destruct (write_open outs cur e s2 s3 out Hok Ed Hb Ho Hof Ew) as (W1 & W2 & W3 & W4 & W5 & W6 & W7).
    split; try done; [congruence..|]. unfold same_cuts in *. intuition congruence.
Qed.

Lemma same_cuts_trans s1 s2 s3 : same_cuts s1 s2 → same_cuts s2 s3 → same_cuts s1 s3.
Proof using Type. unfold same_cuts. intuition congruence. Qed.

Lemma add_to_file_spec outs cur e j s j' s' :
  entries_ok (cur ++ [e]) → add_to_file c o start fin e j s = (j', s', Ok) →
  current_output_file_size_ s = seg_size cur →
  match builder_ s with
  | None => outputs_ s = outs ∧ cur = []
  | Some recs => recs = points cur ∧ ∃ out, outputs_ s = outs ++ [out] ∧ open_file cur out
  end → extended outs cur e s s'.
Proof using Type.
  intros Hok Ha Hsz Hop. unfold add_to_file, HasBuilder in Ha. destruct (builder_ s) as [recs|] eqn:Eb.
  - destruct Hop as (-> & out & Ho & Hof). cbn [negb] in Ha. change (ok Ok) with true in Ha. cbn [negb] in Ha.
    destruct (note_partitioner_spec e s) as [P1 P2]. eapply extend_open; try done; destruct P1 as (Q1 & Q2 & Q3 & _); congruence.
  - destruct Hop as [Ho ->]. destruct (OpenCompactionOutputFile c o start fin j s) as [[j1 s1] st1] eqn:Eo.
    destruct (ok st1) eqn:Est; [|cbn in Ha; injection Ha as _ _ ->; done]. apply ok_true in Est as ->. cbn [negb] in Ha.
    destruct (open_spec _ _ _ _ _ _ _ _ Eo) as (m & O1 & O2 & O3 & O4 & O5 & O6 & O7 & O8 & O9 & _).
    destruct (note_partitioner_spec e s1) as [P1 P2]. pose proof P1 as (Q1 & Q2 & Q3 & _).
    assert (Hof : open_file [] (mkOutput m [] false [])) by (split; cbn; try done; constructor).
    destruct (extend_open outs [] e s1 (note_partitioner_key c e s1) j1 j' s' (mkOutput m [] false []))
      as [X1 X2 X3 X4 X5 X6 X7]; try done; [by rewrite Q1, O2|by rewrite Q2, O3|by rewrite Q3, O1, Ho|].
    split; try done; [congruence..|]. by eapply same_cuts_trans.
Qed.

(** ** The invariant of the run *)

(** [fs] are the closed files and [cur] the entries of the open one. *)
Record run_inv (is_proximal : bool) (fs : list ClosedFile) (cur : list CompactionEntry) (s : CompactionOutputs)
    : Prop := {
  ri_open : match builder_ s with
            | None => outputs_ s = [] ∧ fs = [] ∧ cur = [] ∧ ∀ u, positions_ok C v u (level_ptrs_ s)
            | Some _ => cur ≠ [] ∧ open_state (fs = []) (omap cl_out fs) cur s
            end;
  ri_size : current_output_file_size_ s = seg_size cur;
  ri_files : ∀ i f, fs !! i = Some f → cl_entries f ≠ [] ∧
    closed_ok (take i fs = []) is_proximal (omap cl_out (take i fs)) f;
  ri_next : ∀ i f, fs !! i = Some f →
    cl_next f = seg_first (match fs !! S i with Some f' => cl_entries f' | None => cur end);
  ri_proximal : is_proximal_level_ s = is_proximal;
}.

Lemma open_state_same first outs cur s s' :
  same_files s s' → open_state first outs cur s → open_state first outs cur s'.
Proof using Type.
  intros (F1 & F2 & F3 & F4 & F5 & F6 & F7 & F8) [S1 S2 S3 S4 S5].
  split; rewrite ?F1, ?F3, ?F4, ?F8; done.
Qed.

Lemma ri_files_snoc p fs f :
  (∀ i f, fs !! i = Some f → cl_entries f ≠ [] ∧
    closed_ok (take i fs = []) p (omap cl_out (take i fs)) f) →
  cl_entries f ≠ [] → closed_ok (fs = []) p (omap cl_out fs) f →
  ∀ i f', (fs ++ [f]) !! i = Some f' → cl_entries f' ≠ [] ∧
    closed_ok (take i (fs ++ [f]) = []) p (omap cl_out (take i (fs ++ [f]))) f'.
Proof using Type.
  intros Hfs Hne Hf i f' Hi. apply lookup_snoc_Some in Hi as [[Hi Hl]|[-> <-]].
  - rewrite take_app_le by lia. by apply Hfs.
  - by rewrite take_app_length.
Qed.

(** The entry extends the open file. *)
Lemma run_extend p fs cur e j s s1 j' s' :
  entries_ok (cur ++ [e]) → run_inv p fs cur s → same_files s s1 →
  add_to_file c o start fin e j s1 = (j', s', Ok) →
  run_inv p fs (cur ++ [e]) s' ∧ same_cuts s1 s'.
Proof using Type.
  intros Hok [R1 R2 R3 R4 R5] Hf Ha. pose proof Hf as (F1 & F2 & F3 & F4 & F5 & F6 & F7 & F8).
  assert (Hx : extended (omap cl_out fs) cur e s1 s').
  { eapply add_to_file_spec; [done|exact Ha|congruence|]. rewrite F1. destruct (builder_ s) eqn:Eb.
    - destruct R1 as (_ & [S1 (out & S2 & S2') _ _ _]). split; [congruence|]. exists out. by rewrite F3.
    - destruct R1 as (Ho & -> & -> & _). by rewrite F3. }
  destruct Hx as [X1 X2 X3 X4 X5 X6 X7]. split; [|done]. split.
  - rewrite X1. split; [by destruct cur|]. destruct (builder_ s).
    + destruct R1 as (Hne & [_ _ S3 S4 S5]). split; [done|done|by destruct cur| |].
      * intros Ho. rewrite X4, F4, S4 by done. by destruct cur.
      * intros u Hu. rewrite X6, F8. apply S5. by destruct cur.
    + destruct R1 as (Ho & -> & -> & Hp). split; [done|done|done|done|].
      intros u _. rewrite X6, F8. apply Hp.
  - done.
  - done.
  - intros i f Hi. rewrite (R4 i f Hi). destruct (fs !! S i); [done|]. destruct cur; [|done].
    destruct (builder_ s); [by destruct R1|]. destruct R1 as (_ & -> & _). done.
  - congruence.
Qed.

(** The open file is closed before the entry, and another one opened. *)
Lemma run_cut p fs cur e j s s1 j2 s2 j' s' :
  aggregator_ok → entries_ok (cur ++ [e]) → run_inv p fs cur s → builder_ s ≠ None → same_files s s1 →
  cut_before c o v start fin e j s1 = (j2, s2, Ok) → add_to_file c o start fin e j2 s2 = (j', s', Ok) →
  ∃ f, cl_entries f = cur ∧ run_inv p (fs ++ [f]) [e] s' ∧ same_cuts s2 s' ∧
    grandparent s2 = grandparent_reset c (ce_key e) (grandparent s1) ∧
    current_bucket_index_ s2 = current_bucket_index_ s1 ∧ bucket_snapshot_ s2 = bucket_snapshot_ s1 ∧
    files_to_cut_for_ttl_ s2 = files_to_cut_for_ttl_ s1.
Proof using HC Hts Hbelow.
  intros Hagg Hok [R1 R2 R3 R4 R5] Hb Hf Hcut Ha. destruct (builder_ s) as [recs|] eqn:Eb; [|done].
  destruct R1 as (Hne & Hst). apply (open_state_same _ _ _ _ _ Hf) in Hst.
  destruct (entries_ok_app cur [e] Hok) as (Hcur & He & Hbe).
  unfold cut_before in Hcut. destruct (FinishCompactionOutputFile _ _ _ _ _ _ _ _ _) as [[j1 s1'] st] eqn:Efin.
  destruct (ok st) eqn:Est; [|cbn in Hcut; injection Hcut as _ _ ->; done]. apply ok_true in Est as ->. cbn [negb] in Hcut.
  assert (Hn : next_ok cur (ce_key e)) by (right; eauto).
  destruct (close_spec _ _ _ _ _ _ _ _ _ Hagg Hcur Hn Hst Efin)
    as (_ & K1 & K2 & K3 & K4 & _ & K6 & f & Kf1 & Kf2 & Kf3 & Kf4).
  injection Hcut as <- Hs2.
  assert (G : builder_ s2 = None ∧ current_output_file_size_ s2 = 0 ∧ outputs_ s2 = outputs_ s1' ∧
    level_ptrs_ s2 = level_ptrs_ s1' ∧ is_proximal_level_ s2 = is_proximal_level_ s1' ∧
    range_tombstone_lower_bound_ s2 = (if ce_range_del e then ce_key e else []) ∧
    grandparent s2 = grandparent_reset c (ce_key e) (grandparent s1') ∧
    current_bucket_index_ s2 = current_bucket_index_ s1' ∧ bucket_snapshot_ s2 = bucket_snapshot_ s1' ∧
    files_to_cut_for_ttl_ s2 = files_to_cut_for_ttl_ s1') by (rewrite <- Hs2; split_and!; done).
  clear Hs2. destruct G as (G1 & G2 & G3 & G4 & G5 & G6 & G7 & G8 & G9 & G10).
  assert (Hx : extended (omap cl_out (fs ++ [f])) [] e s2 s').
  { eapply add_to_file_spec; [exact He|exact Ha|exact G2|]. rewrite G1. split; [|done].
    by rewrite G3, Kf3, omap_app. }
  destruct Hx as [X1 X2 X3 X4 X5 X6 X7]. exists f. destruct K4 as (K41 & K42 & K43 & K44).
  destruct (seg_upper_spec cur _ e eq_refl Hok) as (x & Ex & _ & _ & Hxe & _).
  assert (Hpos : ∀ u, ule (uk (ce_key e)) u → positions_ok C v u (level_ptrs_ s')).
  { intros u Hu. rewrite X6, G4.
    apply (K6 x u Ex); [order (cmp_le (@Compare C))|]. destruct Hst as [_ _ _ _ S5]. apply S5. right. intros e0 He0.
    assert (Hin : e0 ∈ cur) by (destruct cur; [done|]; injection He0 as ->; by left).
    specialize (Hbe e0 e Hin ltac:(by left)). unfold before in Hbe.
    assert (H0 : ile (ce_key e0) (ce_key e)) by order (cmp_le (@InternalKeyCompare C)).
    apply internal_le_user in H0. order (cmp_le (@Compare C)). }
  split_and!; [done| |done|by rewrite G7, K41|congruence..].
  destruct Hf as (_ & _ & _ & _ & F5 & _). split.
  - rewrite X1. split; [done|]. split; [done|done|done| |].
    + intros _. by rewrite X4, G6.
    + intros u [Hu|Hu]; [by destruct fs|]. apply Hpos. by apply Hu.
  - done.
  - apply ri_files_snoc; [done|congruence|]. rewrite F5, R5 in Kf4. done.
  - intros i f' Hi. apply lookup_snoc_Some in Hi as [[Hi Hl]|[-> <-]].
    + rewrite (R4 i f' Hl). destruct (fs !! S i) as [f2|] eqn:E2.
      * by rewrite (lookup_app_l_Some _ _ _ _ E2).
      * apply lookup_ge_None in E2. rewrite lookup_app_r by done.
        replace (S i - length fs)%nat with 0%nat by lia. cbn. by rewrite Kf1.
    + rewrite lookup_ge_None_2 by (rewrite length_app; cbn; lia). by rewrite Kf2.
  - congruence.
Qed.

(** ** All entries *)

(** [AddToOutput] for one entry after the other, as long as there is no error. *)
Fixpoint add_all (entries : list CompactionEntry) (j : JobState) (s : CompactionOutputs)
    : JobState * CompactionOutputs * JobStatus :=
  match entries with
  | [] => (j, s, Ok)
  | e :: entries' =>
      let '(j', s', st) := AddToOutput c o v start fin e j s in
      if ok st then add_all entries' j' s' else (j', s', st)
  end.

(** At the bottommost level the starts of range tombstones are skipped. *)
Definition counted (e : CompactionEntry) : Prop := ce_range_del e && c_bottommost_level c = false.
#[global] Instance counted_dec e : Decision (counted e) := bool_eq_dec _ _.

Definition segments (fs : list ClosedFile) (cur : list CompactionEntry) : list (list CompactionEntry) :=
  (cl_entries <$> fs) ++ [cur].

(** A property of the segments and the state that every step keeps, where the
    step is the answer of [ShouldStopBefore]. *)
Definition kept_by_steps (I : list (list CompactionEntry) → CompactionOutputs → Prop) : Prop :=
  ∀ segs cur e s s1 (stop : bool) s',
    entries_ok (concat segs ++ cur ++ [e]) → I (segs ++ [cur]) s →
    current_output_file_size_ s = seg_size cur → (HasBuilder s = true ↔ cur ≠ []) → (cur = [] → segs = []) →
    ShouldStopBefore c o partitioner (ce_key e) s = (s1, stop) →
    (if stop then grandparent s' = grandparent_reset c (ce_key e) (grandparent s1) else grandparent s' = grandparent s1) →
    current_bucket_index_ s' = current_bucket_index_ s1 → bucket_snapshot_ s' = bucket_snapshot_ s1 →
    I (segs ++ (if stop then [cur; [e]] else [cur ++ [e]])) s'.

Lemma entries_ok_filter P `{!∀ x, Decision (P x)} es : entries_ok es → entries_ok (filter P es).
Proof using Type.
  intros [H1 H2]. split.
  - apply Forall_forall. intros e [_ He]%list_elem_of_filter. rewrite Forall_forall in H1. by apply H1.
  - induction H2 as [|e es Hs IH He]; [constructor|]. inversion H1; subst. rewrite filter_cons.
    destruct (decide (P e)); [|by apply IH]. constructor; [by apply IH|].
    apply Forall_forall. intros e' [_ He']%list_elem_of_filter. rewrite Forall_forall in He. by apply He.
Qed.

Lemma concat_segments fs cur : concat (segments fs cur) = concat (cl_entries <$> fs) ++ cur.
Proof using Type. unfold segments. rewrite concat_app. cbn. by rewrite app_nil_r. Qed.

Lemma run_step p I fs cur e j s j' s' :
  aggregator_ok → kept_by_steps I → entries_ok (concat (segments fs cur) ++ [e]) → counted e →
  run_inv p fs cur s → I (segments fs cur) s → AddToOutput c o v start fin e j s = (j', s', Ok) →
  ∃ fs' cur', run_inv p fs' cur' s' ∧ I (segments fs' cur') s' ∧
    concat (segments fs' cur') = concat (segments fs cur) ++ [e] ∧ cur' ≠ [].
Proof using HC Hts Hbelow.
  intros Hagg HI Hok Hc Hri Hi Ha. unfold AddToOutput in Ha. rewrite Hc in Ha.
  pose proof (should_stop_files c o (ce_key e) s) as Hsf.
  destruct (ShouldStopBefore c o partitioner (ce_key e) s) as [s1 stop] eqn:Ess. destruct Hsf as (Hf & Hstop & _).
  rewrite concat_segments in *. rewrite <- app_assoc in Hok.
  assert (Hok' : entries_ok (cur ++ [e])) by (by apply entries_ok_app in Hok as (_ & ? & _)).
  assert (Hb1 : HasBuilder s1 = HasBuilder s) by (unfold HasBuilder; destruct Hf as (-> & _); done).
  assert (Hb : HasBuilder s = true ↔ cur ≠ []).
  { destruct Hri as [R1 _ _ _ _]. unfold HasBuilder. destruct (builder_ s); [by destruct R1|]. by destruct R1 as (_ & _ & -> & _). }
  assert (Hnil : cur = [] → cl_entries <$> fs = []).
  { intros Hcur. destruct Hri as [R1 _ _ _ _]. destruct (builder_ s); [by destruct R1|]. by destruct R1 as (_ & -> & _). }
  specialize (HI (cl_entries <$> fs) cur e s s1 stop s' Hok Hi (ri_size _ _ _ _ Hri) Hb Hnil Ess).
  destruct stop; cbn [andb] in Ha.
  - rewrite Hb1, (Hstop eq_refl) in Ha. destruct (cut_before _ _ _ _ _ _ _ _) as [[j2 s2] st2] eqn:Ecut.
    destruct (ok st2) eqn:Est; [|cbn in Ha; injection Ha as _ _ ->; done]. apply ok_true in Est as ->. cbn [negb] in Ha.
    assert (Hbn : builder_ s ≠ None) by (specialize (Hstop eq_refl); unfold HasBuilder in Hstop; by destruct (builder_ s)).
    destruct (run_cut p fs cur e j s s1 j2 s2 j' s' Hagg Hok' Hri Hbn Hf Ecut Ha) as (f & Hf1 & Hf2 & (C1 & C2 & C3 & _) & G1 & G2 & G3 & _).
    assert (Hseg : segments (fs ++ [f]) [e] = (cl_entries <$> fs) ++ [cur; [e]]).
    { unfold segments. rewrite fmap_app. cbn. by rewrite Hf1, <- app_assoc. }
    exists (fs ++ [f]), [e]. rewrite Hseg. split_and!; [done| | |done].
    + apply HI; congruence.
    + rewrite concat_app. cbn. by rewrite <- app_assoc.
  - cbn [negb] in Ha. change (ok Ok) with true in Ha. cbn [negb] in Ha.
    destruct (run_extend p fs cur e j s s1 j' s' Hok' Hri Hf Ha) as [Hri' (C1 & C2 & C3 & _)].
    exists fs, (cur ++ [e]). split_and!; [done| | |by destruct cur].
    + apply HI; congruence.
    + rewrite concat_segments. by rewrite app_assoc.
Qed.

Lemma run_all p I es fs cur j s j' s' :
  aggregator_ok → kept_by_steps I → entries_ok (concat (segments fs cur) ++ filter counted es) →
  run_inv p fs cur s → I (segments fs cur) s → add_all es j s = (j', s', Ok) →
  ∃ fs' cur', run_inv p fs' cur' s' ∧ I (segments fs' cur') s' ∧
    concat (segments fs' cur') = concat (segments fs cur) ++ filter counted es.
Proof using HC Hts Hbelow.
  intros Hagg HI. revert fs cur j s. induction es as [|e es IH]; intros fs cur j s Hok Hri Hi Ha; cbn [add_all] in Ha.
  { injection Ha as <- <-. exists fs, cur. by rewrite filter_nil, app_nil_r. }
  destruct (AddToOutput c o v start fin e j s) as [[j1 s1] st] eqn:Ea.
  destruct (ok st) eqn:Est; [|injection Ha as _ _ ->; done]. apply ok_true in Est as ->.
  rewrite filter_cons in *. destruct (decide (counted e)) as [Hc|Hc].
  - change (e :: filter counted es) with ([e] ++ filter counted es) in *. rewrite app_assoc in *.
    destruct (run_step p I fs cur e j s j1 s1) as (fs1 & cur1 & R1 & I1 & E1 & _); try done.
    { by apply entries_ok_app in Hok as (? & _). }
    destruct (IH fs1 cur1 j1 s1) as (fs2 & cur2 & R2 & I2 & E2); [by rewrite E1|done|done|done|].
    exists fs2, cur2. split_and!; [done|done|]. by rewrite E2, E1.
  - assert (s1 = s ∧ j1 = j) as [-> ->].
    { unfold AddToOutput in Ea. apply not_false_iff_true in Hc. rewrite Hc in Ea. by injection Ea. }
    by apply (IH fs cur j s).
Qed.

(** ** The end of the run *)

(** The files [fs] hold [entries], and [s] has their outputs. *)
Record run_done (is_proximal : bool) (entries : list CompactionEntry) (fs : list ClosedFile)
    (s : CompactionOutputs) : Prop := {
  rd_outputs : outputs_ s = omap cl_out fs;
  rd_entries : concat (cl_entries <$> fs) = entries;
  rd_files : ∀ i f, fs !! i = Some f →
    closed_ok (take i fs = []) is_proximal (omap cl_out (take i fs)) f;
  rd_next : ∀ i f, fs !! i = Some f →
    cl_next f = match fs !! S i with Some f' => seg_first (cl_entries f') | None => [] end;
  rd_nonempty : (∀ f, f ∈ fs → cl_entries f ≠ []) ∨ ∃ f, fs = [f] ∧ cl_entries f = [];
}.

Lemma close_run p fs cur j s j' s' :
  aggregator_ok → entries_ok (concat (segments fs cur)) → run_inv p fs cur s → builder_ s ≠ None →
  ∀ st, FinishCompactionOutputFile c o v start fin st [] j s = (j', s', Ok) →
  st = Ok ∧ ∃ f, cl_entries f = cur ∧ run_done p (concat (segments fs cur)) (fs ++ [f]) s'.
Proof using HC Hts Hbelow.
  intros Hagg Hok [R1 _ R3 R4 R5] Hb st Hf. destruct (builder_ s) as [recs|]; [|done]. destruct R1 as [Hne Hst].
  assert (Hcur : entries_ok cur).
  { rewrite concat_segments in Hok. by apply entries_ok_app in Hok as (_ & ? & _). }
  destruct (close_spec _ _ _ _ _ _ _ _ _ Hagg Hcur (or_introl eq_refl) Hst Hf)
    as (Hst' & _ & _ & _ & _ & _ & _ & f & Kf1 & Kf2 & Kf3 & Kf4).
  split; [done|]. exists f. split; [done|]. rewrite R5 in Kf4.
  pose proof (ri_files_snoc p fs f R3 ltac:(congruence) Kf4) as Hfiles. split.
  - by rewrite Kf3, omap_app.
  - rewrite concat_segments, fmap_app, concat_app. cbn. by rewrite Kf1, app_nil_r.
  - intros i f' Hi. by apply Hfiles.
  - intros i f' Hi. apply lookup_snoc_Some in Hi as [[Hi Hl]|[-> <-]].
    + rewrite (R4 i f' Hl). destruct (fs !! S i) as [f2|] eqn:E2.
      * by rewrite (lookup_app_l_Some _ _ _ _ E2).
      * apply lookup_ge_None in E2. rewrite lookup_app_r by done.
        replace (S i - length fs)%nat with 0%nat by lia. cbn. by rewrite Kf1.
    + rewrite lookup_ge_None_2 by (rewrite length_app; cbn; lia). done.
  - left. intros f' [i Hi]%list_elem_of_lookup. exact (proj1 (Hfiles i f' Hi)).
Qed.

Lemma close_output_spec p fs cur j s j' s' st :
  aggregator_ok → entries_ok (concat (segments fs cur)) → run_inv p fs cur s →
  CloseOutput c o v start fin st j s = (j', s', Ok) →
  st = Ok ∧ ∃ fs', run_done p (concat (segments fs cur)) fs' s' ∧
    (cl_entries <$> fs' = segments fs cur ∨ fs = [] ∧ cur = [] ∧ (fs' = [] ∧ range_del_agg = None ∨ cl_entries <$> fs' = [[]])).
Proof using HC Hts Hbelow.
  intros Hagg Hok Hri Hc. unfold CloseOutput in Hc. pose proof Hri as [R1 _ R3 R4 R5].
  unfold HasBuilder in Hc. destruct (builder_ s) as [recs|] eqn:Eb.
  - cbn [negb] in Hc. rewrite andb_false_r in Hc. cbn [andb] in Hc. rewrite Eb in Hc.
    destruct (FinishCompactionOutputFile _ _ _ _ _ _ _ _ _) as [[j2 s2] st2] eqn:Ef. injection Hc as <- <- Hst.
    apply and_then_ok in Hst as [-> ->]. split; [done|].
    destruct (close_run p fs cur j s j2 s2 Hagg Hok Hri) with Ok as (_ & f & Hf & Hd); [by rewrite Eb|done|].
    exists (fs ++ [f]). split; [done|]. left. unfold segments. rewrite fmap_app. cbn. by rewrite Hf.
  - destruct R1 as (Ho & -> & -> & Hp). unfold HasOutput in Hc. rewrite Ho in Hc. cbn [negb] in Hc.
    rewrite !andb_true_r in Hc. destruct (ok st && _) eqn:Eop.
    + apply andb_true_iff in Eop as [->%ok_true _]. split; [done|].
      destruct (OpenCompactionOutputFile c o start fin j s) as [[j1 s1] st1] eqn:Eo.
      destruct (builder_ s1) as [recs|] eqn:Eb1.
      2:{ injection Hc as <- <- ->. destruct (open_spec _ _ _ _ _ _ _ _ Eo) as (m & _ & O2 & _). congruence. }
      destruct (FinishCompactionOutputFile _ _ _ _ _ _ _ _ _) as [[j2 s2] st2] eqn:Ef. injection Hc as <- <- Hst.
      apply and_then_ok in Hst as [-> ->].
      destruct (open_spec _ _ _ _ _ _ _ _ Eo) as (m & O1 & O2 & O3 & O4 & O5 & O5' & O6 & O7 & O8 & O9 & _).
      assert (Hst : open_state (@nil ClosedFile = []) [] [] s1).
      { split; [done| |done|done|]; [|intros u _; rewrite O5'; apply Hp].
        exists (mkOutput m [] false []). split; [by rewrite O1, Ho|]. by split. }
      destruct (close_spec _ _ _ _ _ _ _ _ _ Hagg Hok (or_introl eq_refl) Hst Ef)
        as (_ & _ & _ & _ & _ & _ & _ & f & Kf1 & Kf2 & Kf3 & Kf4).
      exists [f]. split; [|right; split_and!; [done..|right; cbn; by rewrite Kf1]]. split.
      * rewrite Kf3. cbn. by destruct (cl_out f).
      * cbn. by rewrite Kf1.
      * intros [|i] f'; [|done]. intros [= <-]. cbn. by rewrite O5, R5 in Kf4.
      * intros [|i] f'; [|done]. intros [= <-]. cbn. by rewrite Kf2.
      * right. exists f. by rewrite Kf1.
    + rewrite Eb in Hc. injection Hc as <- <- ->. change (ok Ok) with true in Eop. cbn [andb] in Eop.
      split; [done|]. exists []. split; [|right; split_and!; [done..|left; by destruct range_del_agg]].
      split; try done. left. intros f Hf. by apply not_elem_of_nil in Hf.
Qed.

(** ** The whole subcompaction *)

Lemma seqno_bound k : GetInternalKeySeqno k <= kMaxSequenceNumber.
Proof using Type.
  unfold GetInternalKeySeqno. pose proof (decode_fixed64_range (footer_bytes k)) as Hr. unfold u64_ok in Hr.
  rewrite Z.shiftr_div_pow2 by lia. apply Z.lt_succ_r. apply Z.div_lt_upper_bound; [lia|].
  change (Z.succ kMaxSequenceNumber) with (2 ^ 56). lia.
Qed.

(** Without per-key placement and interruption the loop adds all entries. *)
Lemma process_loop_all ev entries n j sub j' sub' n' :
  proximal_after_seqno_ = kMaxSequenceNumber → (∀ i, paused ev i = true → c_iter_status ev ≠ Ok) →
  process_loop c o v start fin ev entries n j sub = (j', sub', Ok, n') →
  loop_status ev n' Ok = Ok →
  add_all entries j (compaction_outputs_ sub) = (j', compaction_outputs_ sub', Ok) ∧
  proximal_level_outputs_ sub' = proximal_level_outputs_ sub.
Proof using Type.
  intros Hpx Hpause. revert n j sub. induction entries as [|e entries IH]; intros n j sub Hl Hst; cbn [process_loop] in Hl.
  { by injection Hl as <- <- _. }
  assert (Hloop : dropped ev n' = false ∧ c_iter_status ev = Ok).
  { unfold loop_status in Hst. apply and_then_ok in Hst as [[Hst _]%and_then_ok Hc]. split; [|done].
    destruct (dropped ev n'); [|done]. exfalso. change (ok Ok) with true in Hst. cbn [andb] in Hst.
    destruct (shutting_down ev), (manual_compaction_canceled ev); vm_compute in Hst; discriminate. }
  destruct (dropped ev n) eqn:Ed; [injection Hl as _ _ ->; destruct Hloop; congruence|].
  destruct (Z.ltb_spec proximal_after_seqno_ (GetInternalKeySeqno (ce_key e))) as [Hlt|_];
    [pose proof (seqno_bound (ce_key e)); lia|].
  unfold AddToSubcompaction in Hl. destruct (AddToOutput _ _ _ _ _ _ _ _) as [[j1 s1] st] eqn:Ea.
  destruct (ok st) eqn:Est; [|cbn in Hl; injection Hl as _ _ -> _; done]. cbn [negb] in Hl.
  destruct (paused ev n) eqn:Ep; [destruct (Hpause n Ep (proj2 Hloop))|].
  apply IH in Hl as [H1 H2]; [|done]. cbn [add_all]. rewrite Ea, Est. done.
Qed.

Lemma close_output_ok st j s j' s' : CloseOutput c o v start fin st j s = (j', s', Ok) → st = Ok.
Proof using Type.
  unfold CloseOutput. intros Hc. destruct (ok st) eqn:Est; [by apply ok_true|]. cbn [andb] in Hc.
  destruct (HasBuilder s); [|by injection Hc].
  destruct (FinishCompactionOutputFile _ _ _ _ _ _ _ _ _) as [[? ?] ?]. injection Hc as _ _ Hc.
  by apply and_then_ok in Hc as [? _].
Qed.

Lemma process_done ev entries j sub j' sub' :
  proximal_after_seqno_ = kMaxSequenceNumber → SupportsPerKeyPlacement c = false →
  (∀ i, paused ev i = true → c_iter_status ev ≠ Ok) →
  ProcessKeyValueCompaction c o v start fin ev entries j sub = (j', sub') → sub_status sub' = Ok →
  ∃ j1 s1, add_all entries j (compaction_outputs_ sub) = (j1, s1, Ok) ∧
    CloseOutput c o v start fin Ok j1 s1 = (j', compaction_outputs_ sub', Ok) ∧
    proximal_level_outputs_ sub' = proximal_level_outputs_ sub.
Proof using Type.
  intros Hpx Hpl Hpause Hp Hst. unfold ProcessKeyValueCompaction, CloseCompactionFiles in Hp.
  destruct (process_loop _ _ _ _ _ _ _ _ _ _) as [[[j1 sub1] st1] n] eqn:El. rewrite Hpl in Hp.
  destruct (CloseOutput _ _ _ _ _ _ _ _) as [[j2 s2] st2] eqn:Ec. injection Hp as <- <-.
  cbn [sub_status compaction_outputs_ proximal_level_outputs_] in *.
  assert (st2 = Ok) as -> by (destruct (blob_builder_finish ev); [by apply and_then_ok in Hst as [? _]|done]).
  pose proof (close_output_ok _ _ _ _ _ Ec) as Hls. assert (st1 = Ok) as ->.
  { unfold loop_status in Hls. apply and_then_ok in Hls as [[Hls _]%and_then_ok _].
    destruct st1, (dropped ev n), (shutting_down ev), (manual_compaction_canceled ev); done. }
  rewrite Hls in Ec. destruct (process_loop_all _ _ _ _ _ _ _ _ Hpx Hpause El Hls) as [H1 H2]. eauto.
Qed.
End files.
