(* ===== verification/RangeTombstones.v ===== *)
(** * Fragmented range tombstones

    Model of src/db/range_tombstone_fragmenter.{h,cc} for comparators without
    timestamps: the list of non-overlapping fragments made from the range
    tombstones of a table or memtable, the iterator over them, and the largest
    sequence number that covers a key.  Reads keep all sequence numbers of a
    fragment, compactions only those some snapshot can see.  The theorems show
    that fragmenting neither loses nor invents coverage, that compaction keeps
    what every snapshot sees, and that the lookup returns the newest visible
    tombstone over a key. *)

From S2P Require Import Prelude Coding BlobIndex Comparator DbFormat ManifestRecords FileMeta VersionEdit.
From S2P Require Import VersionStorage TableIterator BuildTable CompactionOutputs CompactionJob CompactionRun.

(** ** Fragments *)

(** Fragments with the same keys: the sequence numbers are a slice of
    [tombstone_seqs_]. *)
Record RangeTombstoneStack := mkStack {
  stack_start : key;
  stack_end : key;
  seq_start_idx : nat;
  seq_end_idx : nat;
}.

Record FragmentedRangeTombstoneList := mkFragmented {
  tombstones_ : list RangeTombstoneStack;
  tombstone_seqs_ : list Z;
  num_unfragmented_tombstones_ : Z;
  total_tombstone_payload_bytes_ : Z;
}.

#[export] Instance fragmented_eta : Eta FragmentedRangeTombstoneList := λ L,
  mkFragmented (tombstones_ L) (tombstone_seqs_ L) (num_unfragmented_tombstones_ L)
    (total_tombstone_payload_bytes_ L).

Section fragmenter.
Context `{Comparator} `{StdChoices}.
Context (for_compaction : bool) (snapshots : list Z).

(** The sequence numbers some snapshot can see, of a decreasing list. *)
Fixpoint visible_seqs (next_snapshot : Z) (seqs : list Z) : list Z :=
  match seqs with
  | [] => []
  | seq :: seqs' =>
      if seq <=? next_snapshot then
        let upper_bound_it := std_bound (λ x, x <? seq) snapshots 0 (length snapshots) in
        if (upper_bound_it =? 0)%nat then [seq]
        else seq :: visible_seqs (default 0 (snapshots !! (upper_bound_it - 1)%nat)) seqs'
      else visible_seqs next_snapshot seqs'
  end.

Definition kept_seqs (seqnums_to_flush : list Z) : list Z :=
  let sorted := std_sort (λ a b, b <? a) seqnums_to_flush in
  if for_compaction then visible_seqs kMaxSequenceNumber sorted else sorted.

(** One fragment of the open tombstones. *)
Definition flush_fragment (cur_start_key cur_end_key : key) (seqnums_to_flush : list Z)
    (L : FragmentedRangeTombstoneList) : FragmentedRangeTombstoneList :=
  let start_idx := length (tombstone_seqs_ L) in
  let L1 := L <| tombstone_seqs_ := tombstone_seqs_ L ++ kept_seqs seqnums_to_flush |> in
  L1 <| tombstones_ := tombstones_ L ++ [mkStack cur_start_key cur_end_key start_idx (length (tombstone_seqs_ L1))] |>.

(** [cur_end_keys], a set ordered by end key and decreasing sequence number. *)
Definition end_compare (a b : key * Z) : comparison :=
  CompareParsed (mkParsed a.1 a.2 kTypeRangeDeletion) (mkParsed b.1 b.2 kTypeRangeDeletion).

Fixpoint emplace (e : key * Z) (s : list (key * Z)) : list (key * Z) :=
  match s with
  | [] => [e]
  | x :: s' => match end_compare e x with
               | Lt => e :: s
               | Eq => s
               | Gt => x :: emplace e s'
               end
  end.

(** The fragments from [cur_start_key] to [next_start_key]; what is left of the
    end keys.  [rest] are the end keys from the current one on. *)
Fixpoint flush_current_tombstones (next_start_key : key) (rest : list (key * Z)) (cur_start_key : key)
    (L : FragmentedRangeTombstoneList) : FragmentedRangeTombstoneList * list (key * Z) :=
  match rest with
  | [] => (L, [])
  | (cur_end_key, _) :: rest' =>
      match CompareUser cur_start_key cur_end_key with
      | Eq => flush_current_tombstones next_start_key rest' cur_start_key L
      | _ =>
          match CompareUser next_start_key cur_end_key with
          | Gt => flush_current_tombstones next_start_key rest' cur_end_key
                    (flush_fragment cur_start_key cur_end_key rest.*2 L)
          | _ => (flush_fragment cur_start_key next_start_key rest.*2 L, rest)
          end
      end
  end.

(** The loop over the tombstones, ordered by start key. *)
Fixpoint fragment_loop (tombstones : list entry) (cur_start_key : key) (cur_end_keys : list (key * Z))
    (L : FragmentedRangeTombstoneList) : FragmentedRangeTombstoneList * key * list (key * Z) :=
  match tombstones with
  | [] => (L, cur_start_key, cur_end_keys)
  | (ikey, tombstone_end_key) :: tombstones' =>
      let tombstone_start_key := ExtractUserKey ikey in
      let tombstone_seq := GetInternalKeySeqno ikey in
      let '(L1, ends1) :=
        if negb (bool_decide (cur_end_keys = [])) &&
           match CompareUser cur_start_key tombstone_start_key with Eq => false | _ => true end
        then flush_current_tombstones tombstone_start_key cur_end_keys cur_start_key L
        else (L, cur_end_keys) in
      fragment_loop tombstones' tombstone_start_key (emplace (tombstone_end_key, tombstone_seq) ends1) L1
  end.

Definition FragmentTombstones (tombstones : list entry) (L : FragmentedRangeTombstoneList)
    : FragmentedRangeTombstoneList :=
  let '(L1, cur_start_key, cur_end_keys) := fragment_loop tombstones [] [] L in
  match last cur_end_keys with
  | Some (last_end_key, _) => (flush_current_tombstones last_end_key cur_end_keys cur_start_key L1).1
  | None => L1
  end.

(** Whether the tombstones come in order, up to the first that does not; how
    many were read, and their size. *)
Fixpoint scan_sorted (last_start_key : option key) (tombstones : list entry) (num bytes : Z) : bool * Z * Z :=
  match tombstones with
  | [] => (true, num, bytes)
  | (k, value) :: tombstones' =>
      let bytes' := bytes +64 (Z.of_nat (length k) +64 Z.of_nat (length value)) in
      match last_start_key with
      | Some last =>
          match InternalKeyCompare last k with
          | Gt => (false, num, bytes')
          | _ => scan_sorted (Some k) tombstones' (num +64 1) bytes'
          end
      | None => scan_sorted (Some k) tombstones' (num +64 1) bytes'
      end
  end.

Definition payload (tombstones : list entry) : Z :=
  foldl (λ bytes t, bytes +64 (Z.of_nat (length t.1) +64 Z.of_nat (length t.2))) 0 tombstones.

Definition NewFragmentedRangeTombstoneList (unfragmented_tombstones : list entry) : FragmentedRangeTombstoneList :=
  let '(is_sorted, num, bytes) := scan_sorted None unfragmented_tombstones 0 0 in
  if is_sorted then FragmentTombstones unfragmented_tombstones (mkFragmented [] [] num bytes)
  else
    let sorted := std_sort (λ a b, match InternalKeyCompare a.1 b.1 with Lt => true | _ => false end)
                    unfragmented_tombstones in
    FragmentTombstones sorted (mkFragmented [] [] num (payload unfragmented_tombstones)).
End fragmenter.

(** ** The iterator *)

(** The tombstones with sequence numbers from [lower_bound_] to [upper_bound_]:
    a position in the fragments and one in the sequence numbers. *)
Record FragmentedRangeTombstoneIterator := mkFragIter {
  fi_upper_bound : Z;
  fi_lower_bound : Z;
  fi_pos : nat;
  fi_seq_pos : nat;
}.

#[export] Instance frag_iter_eta : Eta FragmentedRangeTombstoneIterator := λ it,
  mkFragIter (fi_upper_bound it) (fi_lower_bound it) (fi_pos it) (fi_seq_pos it).

Section iterator.
Context `{Comparator} (L : FragmentedRangeTombstoneList).

Definition FragInvalidate (it : FragmentedRangeTombstoneIterator) : FragmentedRangeTombstoneIterator :=
  mkFragIter (fi_upper_bound it) (fi_lower_bound it) (length (tombstones_ L)) (length (tombstone_seqs_ L)).

Definition NewFragmentedRangeTombstoneIterator (upper_bound lower_bound : Z) : FragmentedRangeTombstoneIterator :=
  FragInvalidate (mkFragIter upper_bound lower_bound 0 0).

Definition stack_at (it : FragmentedRangeTombstoneIterator) : RangeTombstoneStack :=
  default (mkStack [] [] 0 0) (tombstones_ L !! fi_pos it).

Definition frag_start_key (it : FragmentedRangeTombstoneIterator) : key := stack_start (stack_at it).
Definition frag_end_key (it : FragmentedRangeTombstoneIterator) : key := stack_end (stack_at it).
Definition frag_seq (it : FragmentedRangeTombstoneIterator) : Z := default 0 (tombstone_seqs_ L !! fi_seq_pos it).

Definition FragTombstone (it : FragmentedRangeTombstoneIterator) : RangeTombstone :=
  mkTombstone (frag_start_key it) (frag_end_key it) (frag_seq it).

Definition frag_parsed_start_key (it : FragmentedRangeTombstoneIterator) : ParsedInternalKey :=
  mkParsed (frag_start_key it) (frag_seq it) kTypeRangeDeletion.
Definition frag_parsed_end_key (it : FragmentedRangeTombstoneIterator) : ParsedInternalKey :=
  mkParsed (frag_end_key it) kMaxSequenceNumber kTypeRangeDeletion.

Definition at_end (it : FragmentedRangeTombstoneIterator) : bool := (fi_pos it =? length (tombstones_ L))%nat.

Definition FragValid (it : FragmentedRangeTombstoneIterator) : bool := negb (at_end it).

Definition ValidPos (it : FragmentedRangeTombstoneIterator) : bool :=
  FragValid it && negb (fi_seq_pos it =? seq_end_idx (stack_at it))%nat.

(** The first sequence number of the fragment that is at most the upper bound. *)
Definition SetMaxVisibleSeq (it : FragmentedRangeTombstoneIterator) : FragmentedRangeTombstoneIterator :=
  it <| fi_seq_pos := std_bound (λ s, fi_upper_bound it <? s) (tombstone_seqs_ L)
                        (seq_start_idx (stack_at it)) (seq_end_idx (stack_at it)) |>.

(** The fragment has no sequence number between the bounds. *)
Definition invisible (it : FragmentedRangeTombstoneIterator) : bool :=
  (fi_seq_pos it =? seq_end_idx (stack_at it))%nat || (frag_seq it <? fi_lower_bound it).

(** Each round moves one fragment on, so as many rounds as fragments are enough. *)
Fixpoint scan_forward (fuel : nat) (it : FragmentedRangeTombstoneIterator) : FragmentedRangeTombstoneIterator :=
  match fuel with
  | O => it
  | S n =>
      if negb (at_end it) && invisible it then
        let it1 := it <| fi_pos := S (fi_pos it) |> in
        if at_end it1 then FragInvalidate it1 else scan_forward n (SetMaxVisibleSeq it1)
      else it
  end.

Definition ScanForwardToVisibleTombstone (it : FragmentedRangeTombstoneIterator) : FragmentedRangeTombstoneIterator :=
  scan_forward (length (tombstones_ L)) it.

Fixpoint scan_backward (fuel : nat) (it : FragmentedRangeTombstoneIterator) : FragmentedRangeTombstoneIterator :=
  match fuel with
  | O => it
  | S n =>
      if negb (at_end it) && invisible it then
        match fi_pos it with
        | O => FragInvalidate it
        | S p => scan_backward n (SetMaxVisibleSeq (it <| fi_pos := p |>))
        end
      else it
  end.

Definition ScanBackwardToVisibleTombstone (it : FragmentedRangeTombstoneIterator) : FragmentedRangeTombstoneIterator :=
  scan_backward (length (tombstones_ L)) it.

Definition FragSeekToFirst (it : FragmentedRangeTombstoneIterator) : FragmentedRangeTombstoneIterator :=
  mkFragIter (fi_upper_bound it) (fi_lower_bound it) 0 0.

Definition SeekToTopFirst (it : FragmentedRangeTombstoneIterator) : FragmentedRangeTombstoneIterator :=
  if (length (tombstones_ L) =? 0)%nat then FragInvalidate it
  else ScanForwardToVisibleTombstone (SetMaxVisibleSeq (it <| fi_pos := 0%nat |>)).

Definition SeekToTopLast (it : FragmentedRangeTombstoneIterator) : FragmentedRangeTombstoneIterator :=
  if (length (tombstones_ L) =? 0)%nat then FragInvalidate it
  else ScanBackwardToVisibleTombstone (SetMaxVisibleSeq (it <| fi_pos := (length (tombstones_ L) - 1)%nat |>)).

(** [std::upper_bound] by end key: the first fragment that ends after the
    target. *)
Definition SeekToCoveringTombstone (target : key) (it : FragmentedRangeTombstoneIterator)
    : FragmentedRangeTombstoneIterator :=
  let pos := std_bound (λ f, negb (match CompareUser target (stack_end f) with Lt => true | _ => false end))
               (tombstones_ L) 0 (length (tombstones_ L)) in
  let it1 := it <| fi_pos := pos |> in
  if at_end it1 then it1 <| fi_seq_pos := length (tombstone_seqs_ L) |> else SetMaxVisibleSeq it1.

Definition SeekForPrevToCoveringTombstone (target : key) (it : FragmentedRangeTombstoneIterator)
    : FragmentedRangeTombstoneIterator :=
  if (length (tombstones_ L) =? 0)%nat then FragInvalidate it
  else
    let pos := std_bound (λ f, negb (match CompareUser target (stack_start f) with Lt => true | _ => false end))
                 (tombstones_ L) 0 (length (tombstones_ L)) in
    if (pos =? 0)%nat then FragInvalidate it else SetMaxVisibleSeq (it <| fi_pos := (pos - 1)%nat |>).

Definition FragSeek (target : key) (it : FragmentedRangeTombstoneIterator) : FragmentedRangeTombstoneIterator :=
  if (length (tombstones_ L) =? 0)%nat then FragInvalidate it
  else ScanForwardToVisibleTombstone (SeekToCoveringTombstone target it).

Definition FragSeekForPrev (target : key) (it : FragmentedRangeTombstoneIterator) : FragmentedRangeTombstoneIterator :=
  if (length (tombstones_ L) =? 0)%nat then FragInvalidate it
  else ScanBackwardToVisibleTombstone (SeekForPrevToCoveringTombstone target it).

Definition FragNext (it : FragmentedRangeTombstoneIterator) : FragmentedRangeTombstoneIterator :=
  let it1 := it <| fi_seq_pos := S (fi_seq_pos it) |> in
  if (fi_seq_pos it1 =? seq_end_idx (stack_at it))%nat then it1 <| fi_pos := S (fi_pos it) |> else it1.

Definition TopNext (it : FragmentedRangeTombstoneIterator) : FragmentedRangeTombstoneIterator :=
  let it1 := it <| fi_pos := S (fi_pos it) |> in
  if at_end it1 then it1 else ScanForwardToVisibleTombstone (SetMaxVisibleSeq it1).

Definition TopPrev (it : FragmentedRangeTombstoneIterator) : FragmentedRangeTombstoneIterator :=
  match fi_pos it with
  | O => FragInvalidate it
  | S p => ScanBackwardToVisibleTombstone (SetMaxVisibleSeq (it <| fi_pos := p |>))
  end.

(** The newest tombstone over a key that the iterator sees, 0 if none. *)
Definition MaxCoveringTombstoneSeqnum (target_user_key : key) (it : FragmentedRangeTombstoneIterator) : Z :=
  let it1 := SeekToCoveringTombstone target_user_key it in
  if ValidPos it1 && match CompareUser (frag_start_key it1) target_user_key with Gt => false | _ => true end
  then frag_seq it1 else 0.

(** Whether some sequence number is between the bounds. *)
Definition ContainsRange (lower upper : Z) : bool :=
  existsb (λ s, (lower <=? s) && (s <=? upper)) (tombstone_seqs_ L).

(** One iterator per snapshot stripe that has tombstones, by upper bound. *)
Fixpoint split_stripes (lower : Z) (snapshots : list Z) : list (Z * FragmentedRangeTombstoneIterator) :=
  let stripe upper :=
    if ContainsRange lower upper then [(upper, NewFragmentedRangeTombstoneIterator upper lower)] else [] in
  match snapshots with
  | [] => stripe kMaxSequenceNumber
  | upper :: snapshots' => stripe upper ++ split_stripes (upper +64 1) snapshots'
  end.

Definition SplitBySnapshot (snapshots : list Z) : list (Z * FragmentedRangeTombstoneIterator) :=
  split_stripes 0 snapshots.

(** The tombstones [for (SeekToFirst(); Valid(); Next())] visits; there are as
    many as sequence numbers. *)
Fixpoint frag_collect (fuel : nat) (it : FragmentedRangeTombstoneIterator) : list RangeTombstone :=
  match fuel with
  | O => []
  | S n => if FragValid it then FragTombstone it :: frag_collect n (FragNext it) else []
  end.

(** ... and [for (SeekToTopFirst(); Valid(); TopNext())]. *)
Fixpoint top_collect (fuel : nat) (it : FragmentedRangeTombstoneIterator) : list RangeTombstone :=
  match fuel with
  | O => []
  | S n => if FragValid it then FragTombstone it :: top_collect n (TopNext it) else []
  end.
End iterator.

(** ** What the fragments mean *)

Definition stack_seqs (L : FragmentedRangeTombstoneList) (f : RangeTombstoneStack) : list Z :=
  take (seq_end_idx f - seq_start_idx f) (drop (seq_start_idx f) (tombstone_seqs_ L)).

(** A fragment by its range and sequence numbers. *)
Definition fragment : Type := key * key * list Z.

Definition fragments (L : FragmentedRangeTombstoneList) : list fragment :=
  (λ f, (stack_start f, stack_end f, stack_seqs L f)) <$> tombstones_ L.

(** The slices of [tombstone_seqs_] are non-empty and follow each other from
    [base] to its end. *)
Fixpoint slices_from (base total : nat) (fs : list RangeTombstoneStack) : Prop :=
  match fs with
  | [] => base = total
  | f :: fs' => seq_start_idx f = base ∧ (base < seq_end_idx f <= total)%nat ∧ slices_from (seq_end_idx f) total fs'
  end.

Definition sliced (L : FragmentedRangeTombstoneList) : Prop :=
  slices_from 0 (length (tombstone_seqs_ L)) (tombstones_ L).

Section meaning.
Context (C : Comparator).
Abbreviation wle := (cmp_le (@CompareUser C)).

Definition within (a b u : key) : Prop := wle a u ∧ ¬ wle b u.

(** Some fragment, respectively some tombstone, covers [u] at [s]. *)
Definition fragment_covers (fs : list fragment) (u : key) (s : Z) : Prop :=
  ∃ a b ss, (a, b, ss) ∈ fs ∧ within a b u ∧ s ∈ ss.

Definition tombstone_covers (tombstones : list entry) (u : key) (s : Z) : Prop :=
  ∃ t, t ∈ tombstones ∧ within (ExtractUserKey t.1) t.2 u ∧ GetInternalKeySeqno t.1 = s.

Definition end_covers (ends : list (key * Z)) (u : key) (s : Z) : Prop :=
  ∃ e, (e, s) ∈ ends ∧ ¬ wle e u.

(** DeleteRange refuses a range that ends before it starts. *)
Definition ranges_ok (tombstones : list entry) : Prop :=
  Forall (λ t, wle (ExtractUserKey t.1) t.2) tombstones.

(** Fragments come in order and do not overlap. *)
Definition before (f g : fragment) : Prop := wle f.1.2 g.1.1.
Definition disjoint_fragments (fs : list fragment) : Prop :=
  Forall (λ f, ¬ wle f.1.2 f.1.1) fs ∧ StronglySorted before fs.
End meaning.

Section slices.
Lemma slices_from_le base total fs : slices_from base total fs → (base <= total)%nat.
Proof. revert base. induction fs as [|f fs IH]; simpl; intros base; [lia|]. intros (? & ? & ?%IH). lia. Qed.

Lemma slices_from_app base total total' fs f :
  slices_from base total fs → seq_start_idx f = total → (total < seq_end_idx f)%nat → seq_end_idx f = total' →
  slices_from base total' (fs ++ [f]).
Proof.
  revert base. induction fs as [|g fs IH]; simpl; intros base.
  - intros -> -> ? <-. split_and!; lia.
  - intros (-> & ? & Hs) ???. split_and!; [done|lia|lia|by apply IH].
Qed.

Lemma slices_from_bound base total fs f :
  slices_from base total fs → f ∈ fs → (base <= seq_start_idx f < seq_end_idx f)%nat ∧ (seq_end_idx f <= total)%nat.
Proof.
  revert base. induction fs as [|g fs IH]; simpl; intros base; [by intros ? ?%not_elem_of_nil|].
  intros (<- & ? & Hs) [->|Hf]%elem_of_cons; [pose proof (slices_from_le _ _ _ Hs); lia|].
  destruct (IH _ Hs Hf). lia.
Qed.

Context `{StdChoices} (for_compaction : bool) (snapshots : list Z).
Abbreviation kept := (kept_seqs for_compaction snapshots).

Lemma flush_fragment_spec a b seqs L :
  sliced L → kept seqs ≠ [] →
  let L' := flush_fragment for_compaction snapshots a b seqs L in
  sliced L' ∧ fragments L' = fragments L ++ [(a, b, kept seqs)].
Proof.
  intros HL Hk. cbn zeta. unfold flush_fragment, sliced, fragments, stack_seqs. cbn. rewrite length_app. split.
  - apply (slices_from_app _ _ _ _ _ HL); cbn; [done| |lia].
    destruct (kept seqs); [done|]. cbn. lia.
  - rewrite fmap_app. f_equal.
    + apply list_fmap_ext. intros i f Hf%list_elem_of_lookup_2. cbn. f_equal.
      destruct (slices_from_bound _ _ _ _ HL Hf). rewrite drop_app_le by lia.
      rewrite take_app_le; [done|]. rewrite length_drop. lia.
    + cbn. repeat f_equal. rewrite drop_app_length, Nat.add_comm, Nat.add_sub. by rewrite take_ge.
Qed.
End slices.
(** ** The sequence numbers that are kept *)

Section seqs.
Context (snapshots : list Z) (Hsnap : StronglySorted Z.le snapshots).

Definition decreasing : list Z → Prop := StronglySorted (λ a b, b <= a).
Definition strictly_decreasing : list Z → Prop := StronglySorted (λ a b, b < a).

(** What a read at [b] sees of [kept] is what it sees of [all]. *)
Definition newest_kept (b : Z) (all kept : list Z) : Prop :=
  ∀ s, s ∈ all → s <= b → ∃ s', s' ∈ kept ∧ s <= s' <= b.

Lemma std_sort_decreasing `{StdChoices} l :
  std_sort (λ a b, b <? a) l ≡ₚ l ∧ decreasing (std_sort (λ a b, b <? a) l).
Proof.
  destruct (std_sort_compare (cmp_flip Z.compare) (λ a b, b <? a) l) as [Hp Hs]; [apply _| |].
  { intros a b. unfold cmp_flip. by rewrite Z.ltb_lt, Z.compare_lt_iff. }
  split; [done|]. eapply StronglySorted_impl; [|exact Hs]. intros a b. by rewrite <- Z.compare_le_iff.
Qed.

(** The largest snapshot before [seq]. *)
Lemma snapshot_before seq :
  let i := std_bound (λ x, x <? seq) snapshots 0 (length snapshots) in
  if (i =? 0)%nat then ∀ b, b ∈ snapshots → seq <= b
  else ∃ next, snapshots !! (i - 1)%nat = Some next ∧ next < seq ∧ ∀ b, b ∈ snapshots → b < seq → b <= next.
Proof using Hsnap.
  cbn zeta. assert (Hle : ∀ i j x y, (i <= j)%nat → snapshots !! i = Some x → snapshots !! j = Some y → x <= y).
  { intros i j x y Hij Hx Hy. destruct (decide (i = j)) as [->|]; [simplify_eq; lia|].
    by apply (StronglySorted_lookup Z.le snapshots i j x y Hsnap ltac:(lia)). }
  destruct (std_bound_spec (λ x, x <? seq) snapshots 0 (length snapshots)) as (H1 & H2 & H3); [lia| |].
  { intros i j x y ??? Hx Hy. rewrite !Z.ltb_lt. pose proof (Hle i j x y ltac:(lia) Hx Hy). lia. }
  set (i := std_bound _ _ _ _) in *. destruct (Nat.eqb_spec i 0) as [Hi|Hi].
  - intros b [j Hj]%list_elem_of_lookup_1. specialize (H3 j b). apply lookup_lt_Some in Hj as ?.
    apply Z.ltb_ge, H3; [lia|done].
  - destruct (lookup_lt_is_Some_2 snapshots (i - 1)) as [next Hn]; [lia|]. exists next. split; [done|]. split.
    + apply Z.ltb_lt, (H2 (i - 1)%nat); [lia|done].
    + intros b [j Hj]%list_elem_of_lookup_1 Hb. apply lookup_lt_Some in Hj as ?.
      destruct (decide (j < i)%nat); [apply (Hle j (i - 1)%nat); [lia|done..]|].
      specialize (H3 j b ltac:(lia) Hj). apply Z.ltb_ge in H3. lia.
Qed.

Lemma visible_seqs_spec seqs : ∀ next,
  decreasing seqs →
  let kept := visible_seqs snapshots next seqs in
  strictly_decreasing kept ∧ Forall (λ s, s <= next) kept ∧ kept ⊆ seqs ∧
  ∀ b, b ∈ snapshots ∨ b = next → b <= next → newest_kept b seqs kept.
Proof using Hsnap.
  induction seqs as [|seq seqs IH]; intros next Hd; cbn [visible_seqs].
  { split_and!; [constructor|constructor|done|]. by intros b _ _ s ?%not_elem_of_nil. }
  apply StronglySorted_inv in Hd as [Hd Hle]. rewrite Forall_forall in Hle. cbn zeta.
  destruct (Z.leb_spec seq next) as [Hs|Hs].
  2:{ destruct (IH next Hd) as (H1 & H2 & H3 & H4). split_and!; [done|done|set_solver|].
      intros b Hb Hbn s [->|Hin]%elem_of_cons Hsb; [lia|]. by apply (H4 b). }
  pose proof (snapshot_before seq) as Hbef. cbn zeta in Hbef.
  set (i := std_bound _ _ _ _) in *. destruct (Nat.eqb_spec i 0) as [Hi|Hi].
  { split_and!; [by repeat constructor|by apply Forall_singleton|set_solver|].
    intros b Hb Hbn s Hin Hsb. exists seq. split; [left|]. destruct Hb as [Hb%Hbef| ->].
    - split; [|lia]. apply elem_of_cons in Hin as [->|Hin%Hle]; lia.
    - split; [|lia]. apply elem_of_cons in Hin as [->|Hin%Hle]; lia. }
  destruct Hbef as (nx & -> & Hnx & Hmax). cbn [default from_option].
  destruct (IH nx Hd) as (H1 & H2 & H3 & H4). split_and!.
  - constructor; [done|]. eapply Forall_impl; [exact H2|]. cbn. lia.
  - constructor; [done|]. eapply Forall_impl; [exact H2|]. cbn. lia.
  - set_solver.
  - intros b Hb Hbn s Hin Hsb. destruct (decide (seq <= b)) as [Hsq|Hsq].
    { exists seq. split; [left|]. split; [|done]. apply elem_of_cons in Hin as [->|Hin%Hle]; lia. }
    destruct Hb as [Hb| ->]; [|lia]. apply elem_of_cons in Hin as [->|Hin]; [lia|].
    destruct (H4 b (or_introl Hb) (Hmax b Hb ltac:(lia)) s Hin Hsb) as (s' & ? & ?).
    exists s'. split; [by right|done].
Qed.
End seqs.

(** The reads whose results do not change: all of them, respectively those at a
    snapshot and the newest. *)
Definition read_bound (for_compaction : bool) (snapshots : list Z) (b : Z) : Prop :=
  for_compaction = true → b ∈ snapshots ∨ b = kMaxSequenceNumber.

Lemma kept_seqs_spec `{StdChoices} for_compaction snapshots seqs :
  StronglySorted Z.le snapshots → Forall (λ s, s <= kMaxSequenceNumber) snapshots →
  let kept := kept_seqs for_compaction snapshots seqs in
  decreasing kept ∧ kept ⊆ seqs ∧ (for_compaction = true → strictly_decreasing kept) ∧
  (for_compaction = false → seqs ⊆ kept) ∧
  ∀ b, read_bound for_compaction snapshots b → newest_kept b seqs kept.
Proof.
  intros Hs Hmax. cbn zeta. unfold kept_seqs, read_bound. destruct (std_sort_decreasing seqs) as [Hp Hd].
  destruct for_compaction.
  - destruct (visible_seqs_spec snapshots Hs _ kMaxSequenceNumber Hd) as (H1 & H2 & H3 & H4).
    split_and!; [|intros s Hs'%H3; by rewrite <- Hp|done|done|].
    + eapply StronglySorted_impl; [|exact H1]. cbn. lia.
    + intros b Hb s Hin Hsb. specialize (Hb eq_refl). rewrite <- Hp in Hin. apply (H4 b Hb); [|done..].
      destruct Hb as [Hb| ->]; [|done]. rewrite Forall_forall in Hmax. by apply Hmax.
  - split_and!; [done|intros s; by rewrite Hp|done|intros _ s; by rewrite Hp|].
    intros b _ s Hin Hsb. exists s. split; [by rewrite Hp|lia].
Qed.

Lemma kept_seqs_nonempty `{StdChoices} for_compaction snapshots seqs :
  StronglySorted Z.le snapshots → Forall (λ s, s <= kMaxSequenceNumber) snapshots →
  Forall (λ s, s <= kMaxSequenceNumber) seqs → seqs ≠ [] → kept_seqs for_compaction snapshots seqs ≠ [].
Proof.
  intros Hs Hmax Hle Hne. destruct (kept_seqs_spec for_compaction snapshots seqs Hs Hmax) as (_ & _ & _ & _ & Hk).
  destruct seqs as [|s seqs]; [done|]. apply Forall_cons in Hle as [Hle _].
  destruct (Hk kMaxSequenceNumber (λ _, or_intror eq_refl) s) as (s' & Hin & _); [left|done|].
  intros E. rewrite E in Hin. by apply not_elem_of_nil in Hin.
Qed.

(** ** Fragmenting keeps the coverage *)

Section coverage.
Context (C : Comparator) (HC : ComparatorOk C) `{StdChoices}.
Context (for_compaction : bool) (snapshots : list Z).

Abbreviation wle := (cmp_le (@CompareUser C)).
Abbreviation kept := (kept_seqs for_compaction snapshots).
Abbreviation flush := (flush_current_tombstones for_compaction snapshots).

Lemma end_covers_cons e ends u s :
  end_covers C (e :: ends) u s ↔ (e.2 = s ∧ ¬ wle e.1 u) ∨ end_covers C ends u s.
Proof. destruct e as [e q]. unfold end_covers. setoid_rewrite elem_of_cons. naive_solver. Qed.

Lemma end_compare_cases a b :
  match end_compare a b with
  | Lt => wle a.1 b.1
  | Gt => wle b.1 a.1
  | Eq => wle a.1 b.1 ∧ wle b.1 a.1 ∧ a.2 = b.2
  end.
Proof using HC.
  unfold end_compare, CompareParsed. cbn [user_key sequence type].
  assert (Hle : ∀ x y : key, Compare x y ≠ Gt → wle x y) by (intros; by apply without_timestamp_ok).
  cmp_case (@Compare C) a.1 b.1.
  - assert (wle a.1 b.1 ∧ wle b.1 a.1) as [? ?] by (split; by apply Hle).
    destruct (Z.ltb_spec b.2 a.2), (Z.ltb_spec a.2 b.2); [done..|]. rewrite Z.ltb_irrefl. split_and!; [done..|lia].
  - apply Hle. congruence.
  - apply Hle. unfold cmp_le in *. by rewrite (compare_opp Compare), Ecmp.
Qed.

Lemma emplace_elem e s x : x ∈ emplace e s → x = e ∨ x ∈ s.
Proof. induction s as [|y s IH]; simpl; [set_solver|]. destruct (end_compare e y); set_solver. Qed.

Lemma emplace_covers e s u q :
  end_covers C (emplace e s) u q ↔ end_covers C s u q ∨ e.2 = q ∧ ¬ wle e.1 u.
Proof using HC.
  induction s as [|y s IH]; cbn [emplace].
  { rewrite end_covers_cons. tauto. }
  pose proof (end_compare_cases e y) as Hc. destruct (end_compare e y).
  - destruct Hc as (? & ? & Hq). rewrite end_covers_cons. split; [tauto|]. intros [?|[<- Hn]]; [done|].
    left. split; [done|]. order (cmp_le (@CompareUser C)).
  - rewrite !end_covers_cons. tauto.
  - rewrite !end_covers_cons, IH. tauto.
Qed.

Lemma emplace_sorted e s :
  StronglySorted (λ a b, wle a.1 b.1) s → StronglySorted (λ a b, wle a.1 b.1) (emplace e s).
Proof using HC.
  induction 1 as [|y s Hs IH Hy]; cbn [emplace]; [by repeat constructor|].
  pose proof (end_compare_cases e y) as Hc. destruct (end_compare e y).
  - by constructor.
  - constructor; [by constructor|]. constructor; [done|]. eapply Forall_impl; [exact Hy|].
    intros z. cbn. order (cmp_le (@CompareUser C)).
  - constructor; [done|]. apply Forall_forall. intros z [->|Hz]%emplace_elem; [done|].
    rewrite Forall_forall in Hy. by apply Hy.
Qed.

Context (Hsnap : StronglySorted Z.le snapshots) (Hmax : Forall (λ s, s <= kMaxSequenceNumber) snapshots).

(** The fragments [full] before [cur] and the open end keys cover what [P]
    says, before and from [cur] on. *)
Record fragmented (P : key → Z → Prop) (full : list fragment) (cur : key) (ends : list (key * Z)) : Prop := {
  fr_disjoint : disjoint_fragments C full;
  fr_before : Forall (λ f, wle f.1.2 cur) full;
  fr_done : ∀ u s, ¬ wle cur u → fragment_covers C full u s ↔ P u s;
  fr_open : ∀ u s, wle cur u → end_covers C ends u s ↔ P u s;
  fr_sorted : StronglySorted (λ a b, wle a.1 b.1) ends;
  fr_ends : Forall (λ e, wle cur e.1) ends;
  fr_seqs : Forall (λ e, e.2 <= kMaxSequenceNumber) ends;
}.

(** The list that stores the fragments [full], with the sequence numbers kept. *)
Definition stores (L : FragmentedRangeTombstoneList) (full : list fragment) : Prop :=
  sliced L ∧ fragments L = (λ f, (f.1, kept f.2)) <$> full.

Lemma fragment_covers_app full f u s :
  fragment_covers C (full ++ [f]) u s ↔ fragment_covers C full u s ∨ within C f.1.1 f.1.2 u ∧ s ∈ f.2.
Proof.
  destruct f as [[a b] ss]. unfold fragment_covers. cbn. setoid_rewrite elem_of_app.
  setoid_rewrite list_elem_of_singleton. naive_solver.
Qed.

(** When all end keys are after [u], all their sequence numbers cover it. *)
Lemma end_covers_all ends u s : Forall (λ e, ¬ wle e.1 u) ends → end_covers C ends u s ↔ s ∈ ends.*2.
Proof.
  intros Hall. rewrite Forall_forall in Hall. rewrite list_elem_of_fmap. split.
  - intros (e & He & _). by exists (e, s).
  - intros ([e q] & -> & He). exists e. split; [done|]. by apply (Hall (e, q)).
Qed.

Lemma not_covered_after full cur u s :
  Forall (λ f, wle f.1.2 cur) full → wle cur u → ¬ fragment_covers C full u s.
Proof using HC.
  intros Hb Hu (a & b & ss & Hf & [_ Hw] & _). rewrite Forall_forall in Hb. specialize (Hb _ Hf). cbn in Hb.
  order (cmp_le (@CompareUser C)).
Qed.

(** Closing the fragment from [cur] to [b], when the open end keys are at or
    after [b]. *)
Lemma close_fragment P full cur b ends :
  fragmented P full cur ends → ¬ wle b cur → Forall (λ e, wle b e.1) ends →
  fragmented P (full ++ [(cur, b, ends.*2)]) b ends.
Proof using HC.
  intros [[Hne Hs] Hb Hdone Hopen Hsort Hends Hseqs] Hcur He.
  assert (Hmid : ∀ u s, wle cur u → ¬ wle b u → s ∈ ends.*2 ↔ P u s).
  { intros u s Hu Hu'. rewrite <- Hopen by done. symmetry. apply end_covers_all.
    eapply Forall_impl; [exact He|]. intros e. cbn. order (cmp_le (@CompareUser C)). }
  split; [split| | | |done|done|done].
  - apply Forall_app. split; [done|]. by apply Forall_singleton.
  - apply StronglySorted_app_2; [|done|by repeat constructor].
    intros f g Hf ->%list_elem_of_singleton. rewrite Forall_forall in Hb. by apply (Hb f).
  - apply Forall_app. split; [|apply Forall_singleton; cbn; order (cmp_le (@CompareUser C))].
    eapply Forall_impl; [exact Hb|]. intros f. cbn. order (cmp_le (@CompareUser C)).
  - intros u s Hu. rewrite fragment_covers_app. cbn [fst snd]. unfold within.
    destruct (decide (wle cur u)) as [Hc|Hc].
    + rewrite <- (Hmid u s) by done. pose proof (not_covered_after full cur u s Hb Hc). naive_solver.
    + rewrite (Hdone u s) by done. naive_solver.
  - intros u s Hu. apply Hopen. order (cmp_le (@CompareUser C)).
Qed.

(** An end key at the current key covers nothing more. *)
Lemma drop_end P full cur e ends :
  fragmented P full cur (e :: ends) → wle e.1 cur → fragmented P full cur ends.
Proof using HC.
  intros [Hd Hb Hdone Hopen Hsort Hends Hseqs] He. apply StronglySorted_inv in Hsort as [Hsort _].
  apply Forall_cons in Hends as [_ Hends]. apply Forall_cons in Hseqs as [_ Hseqs]. split; [done..| |done|done|done].
  intros u s Hu. rewrite <- Hopen, end_covers_cons by done. split; [by right|]. intros [[_ Hn]|]; [|done].
  order (cmp_le (@CompareUser C)).
Qed.

Lemma skip_gap P full cur next : fragmented P full cur [] → wle cur next → fragmented P full next [].
Proof using HC.
  intros [Hd Hb Hdone Hopen _ _ _] Hn. split; [done| | | |constructor..].
  - eapply Forall_impl; [exact Hb|]. intros f. cbn. order (cmp_le (@CompareUser C)).
  - intros u s Hu. destruct (decide (wle cur u)) as [Hc|Hc]; [|by apply Hdone].
    rewrite <- (Hopen u s) by done. pose proof (not_covered_after full cur u s Hb Hc).
    split; [done|]. by intros (e & ?%not_elem_of_nil & _).
  - intros u s Hu. apply Hopen. order (cmp_le (@CompareUser C)).
Qed.

Lemma stores_flush L full a b seqs :
  stores L full → seqs ≠ [] → Forall (λ s, s <= kMaxSequenceNumber) seqs →
  stores (flush_fragment for_compaction snapshots a b seqs L) (full ++ [(a, b, seqs)]).
Proof using Hsnap Hmax.
  intros [HL Hf] Hne Hle.
  destruct (flush_fragment_spec for_compaction snapshots a b seqs L HL) as [Hs E]; [by apply kept_seqs_nonempty|].
  split; [exact Hs|]. by rewrite E, Hf, fmap_app.
Qed.

(** The flush moves the current key to [next]. *)
Lemma flush_spec P next ends : ∀ full cur L,
  fragmented P full cur ends → stores L full → wle cur next →
  ¬ wle next cur ∨ Forall (λ e, wle e.1 next) ends →
  let '(L', ends') := flush next ends cur L in
  ∃ full', fragmented P full' next ends' ∧ stores L' full' ∧ ends' `suffix_of` ends.
Proof using HC Hsnap Hmax.
  induction ends as [|[e q] ends IH]; intros full cur L Hfr Hst Hn Hlast; cbn [flush_current_tombstones].
  { exists full. split_and!; [by apply (skip_gap P full cur)|done|done]. }
  pose proof (fr_ends _ _ _ _ Hfr) as Hends. apply Forall_cons in Hends as [Hce Hends]. cbn in Hce.
  pose proof (fr_sorted _ _ _ _ Hfr) as Hsort. apply StronglySorted_inv in Hsort as [_ Hsort]. cbn in Hsort.
  assert (He : Forall (λ x, wle e x.1) ((e, q) :: ends)) by (constructor; [cbn; order (cmp_le (@CompareUser C))|done]).
  assert (Hfl : ∀ b, stores (flush_fragment for_compaction snapshots cur b (((e, q) :: ends).*2) L)
                       (full ++ [(cur, b, ((e, q) :: ends).*2)])).
  { intros b. apply stores_flush; [done..|]. apply Forall_fmap, (fr_seqs _ _ _ _ Hfr). }
  assert (Hclose : ¬ wle e cur → wle next e → ∃ full', fragmented P full' next ((e, q) :: ends) ∧
    stores (flush_fragment for_compaction snapshots cur next (((e, q) :: ends).*2) L) full' ∧
    (e, q) :: ends `suffix_of` (e, q) :: ends).
  { intros Hlt Hne. exists (full ++ [(cur, next, ((e, q) :: ends).*2)]). split_and!; [|apply Hfl|done].
    apply close_fragment; [done| |].
    - destruct Hlast as [?|[? _]%Forall_cons]; [done|]. cbn in *. order (cmp_le (@CompareUser C)).
    - eapply Forall_impl; [exact He|]. intros x. cbn. order (cmp_le (@CompareUser C)). }
  cmp_case (@CompareUser C) cur e; [|cmp_case (@CompareUser C) next e; [apply Hclose; auto|apply Hclose; [auto|order (cmp_le (@CompareUser C))]|]|order (cmp_le (@CompareUser C))].
  - specialize (IH full cur L (drop_end P full cur (e, q) ends Hfr ltac:(done)) Hst Hn).
    destruct (flush next ends cur L) as [L' ends']. destruct IH as (full' & ? & ? & ?).
    { destruct Hlast as [|[_ ?]%Forall_cons]; auto. }
    exists full'. split_and!; [done..|by apply suffix_cons_r].
  - pose proof (close_fragment P full cur e _ Hfr ltac:(done) He) as Hfr'.
    specialize (IH _ e _ (drop_end P _ e (e, q) ends Hfr' ltac:(cbn; order (cmp_le (@CompareUser C)))) (Hfl e)).
    cbn [fmap list_fmap fst snd] in IH |- *.
    destruct (flush next ends e _) as [L' ends']. destruct IH as (full' & ? & ? & ?).
    { order (cmp_le (@CompareUser C)). } { by left. }
    exists full'. split_and!; [done..|by apply suffix_cons_r].
Qed.

Lemma fragmented_iff P Q full cur ends :
  (∀ u s, P u s ↔ Q u s) → fragmented P full cur ends → fragmented Q full cur ends.
Proof. intros HPQ [? ? Hd Ho ? ? ?]. split; [done..| | |done|done|done]; intros; rewrite <- HPQ; auto. Qed.

(** A tombstone that starts at the current key. *)
Lemma open_tombstone P full cur e q ends :
  fragmented P full cur ends → wle cur e → q <= kMaxSequenceNumber →
  fragmented (λ u s, P u s ∨ within C cur e u ∧ q = s) full cur (emplace (e, q) ends).
Proof using HC.
  intros [Hd Hb Hdone Hopen Hsort Hends Hseqs] He Hq. rewrite Forall_forall in Hends, Hseqs. split; [done|done| | | | |].
  - intros u s Hu. rewrite Hdone by done. unfold within. tauto.
  - intros u s Hu. rewrite emplace_covers, Hopen by done. unfold within. cbn. tauto.
  - by apply emplace_sorted.
  - apply Forall_forall. intros x [->|?]%emplace_elem; auto.
  - apply Forall_forall. intros x [->|?]%emplace_elem; auto.
Qed.

Lemma move_start P full cur cur' ends :
  wle cur cur' → wle cur' cur → fragmented P full cur ends → fragmented P full cur' ends.
Proof using HC.
  intros H1 H2 [Hd Hb Hdone Hopen Hsort Hends Hseqs]. split; [done| | | |done| |done].
  - eapply Forall_impl; [exact Hb|]. cbn. intros. order (cmp_le (@CompareUser C)).
  - intros u s Hu. apply Hdone. order (cmp_le (@CompareUser C)).
  - intros u s Hu. apply Hopen. order (cmp_le (@CompareUser C)).
  - eapply Forall_impl; [exact Hends|]. cbn. intros. order (cmp_le (@CompareUser C)).
Qed.

Lemma emplace_nonempty e s : emplace e s ≠ [].
Proof. destruct s as [|y s]; simpl; [done|]. by destruct (end_compare e y). Qed.

Lemma fragment_loop_spec ts : ∀ P full cur ends L,
  fragmented P full cur ends → stores L full → ends ≠ [] →
  StronglySorted wle (cur :: ((λ t, ExtractUserKey t.1) <$> ts)) → ranges_ok C ts →
  let '(L', cur', ends') := fragment_loop for_compaction snapshots ts cur ends L in
  ∃ full', fragmented (λ u s, P u s ∨ tombstone_covers C ts u s) full' cur' ends' ∧ stores L' full' ∧ ends' ≠ [].
Proof using HC Hsnap Hmax.
  induction ts as [|[k e] ts IH]; intros P full cur ends L Hfr Hst Hne Hs Hr; cbn [fragment_loop].
  { exists full. split_and!; [|done..]. eapply fragmented_iff; [|exact Hfr]. intros u s. split; [tauto|].
    intros [?|(t & ?%not_elem_of_nil & _)]; done. }
  cbn [fmap list_fmap fst] in Hs. apply StronglySorted_inv in Hs as [Hs Hcur].
  apply Forall_cons in Hcur as [Hcur _]. apply Forall_cons in Hr as [Hke Hr]. cbn in Hke.
  rewrite bool_decide_false by done. cbn [negb andb].
  assert (Hstep : ∃ L1 ends1 full1, (if match CompareUser cur (ExtractUserKey k) with Eq => false | _ => true end
    then flush (ExtractUserKey k) ends cur L else (L, ends)) = (L1, ends1) ∧
    fragmented P full1 (ExtractUserKey k) ends1 ∧ stores L1 full1).
  { cmp_case (@CompareUser C) cur (ExtractUserKey k).
    - exists L, ends, full. split_and!; [done|by eapply move_start|done].
    - pose proof (flush_spec P (ExtractUserKey k) ends full cur L Hfr Hst Hcur ltac:(by left)) as Hfl.
      destruct (flush _ _ _ _) as [L1 ends1]. destruct Hfl as (full1 & ? & ? & _). by exists L1, ends1, full1.
    - done. }
  destruct Hstep as (L1 & ends1 & full1 & -> & Hfr1 & Hst1).
  pose proof (open_tombstone P full1 _ e (GetInternalKeySeqno k) ends1 Hfr1 Hke (seqno_bound k)) as Hfr2.
  specialize (IH _ _ _ _ L1 Hfr2 Hst1 (emplace_nonempty _ _) Hs Hr).
  destruct (fragment_loop _ _ _ _ _ _) as [[L' cur'] ends']. destruct IH as (full' & Hfr' & ? & ?).
  exists full'. split_and!; [|done..]. eapply fragmented_iff; [|exact Hfr']. intros u s.
  unfold tombstone_covers. setoid_rewrite elem_of_cons. naive_solver.
Qed.

(** The last flush ends with the last end key: nothing stays open. *)
Lemma last_flush P full cur ends e q L :
  fragmented P full cur ends → stores L full → last ends = Some (e, q) →
  ∃ full', stores (flush e ends cur L).1 full' ∧ disjoint_fragments C full' ∧
    ∀ u s, fragment_covers C full' u s ↔ P u s.
Proof using HC Hsnap Hmax.
  intros Hfr Hst Hl. pose proof (last_Some_elem_of _ _ Hl) as Hin.
  assert (Hall : Forall (λ x, wle x.1 e) ends).
  { apply last_Some in Hl as [ends0 ->]. pose proof (fr_sorted _ _ _ _ Hfr) as Hs.
    apply Forall_app. split; [|apply Forall_singleton; cbn; order (cmp_le (@CompareUser C))].
    apply Forall_forall. intros x Hx. apply (StronglySorted_app_1_elem_of _ _ _ x (e, q) Hs Hx). left. }
  pose proof (fr_ends _ _ _ _ Hfr) as Hends. rewrite Forall_forall in Hends. specialize (Hends _ Hin). cbn in Hends.
  pose proof (flush_spec P e ends full cur L Hfr Hst Hends (or_intror Hall)) as Hfl.
  destruct (flush e ends cur L) as [L' ends']. destruct Hfl as (full' & Hfr' & Hst' & [pre ->]).
  exists full'. split_and!; [done|by destruct Hfr'|]. intros u s.
  destruct (decide (wle e u)) as [Hu|Hu]; [|by apply (fr_done _ _ _ _ Hfr')].
  rewrite <- (fr_open _ _ _ _ Hfr' u s Hu). split.
  - intros Hc. by apply (not_covered_after full' e u s (fr_before _ _ _ _ Hfr')) in Hc.
  - intros (x & Hx & Hn). apply Forall_app in Hall as [_ Hall]. rewrite Forall_forall in Hall.
    specialize (Hall _ Hx). cbn in Hall. order (cmp_le (@CompareUser C)).
Qed.

Lemma fragment_tombstones_spec ts L :
  fragments L = [] → sliced L → StronglySorted wle ((λ t, ExtractUserKey t.1) <$> ts) → ranges_ok C ts →
  ∃ full, stores (FragmentTombstones for_compaction snapshots ts L) full ∧ disjoint_fragments C full ∧
    ∀ u s, fragment_covers C full u s ↔ tombstone_covers C ts u s.
Proof using HC Hsnap Hmax.
  intros HL Hsl Hs Hr. assert (Hst : stores L []) by done. unfold FragmentTombstones.
  destruct ts as [|[k e] ts]; cbn [fragment_loop].
  { exists []. split_and!; [done|by repeat constructor|]. intros u s. split; intros Hc.
    - by destruct Hc as (? & ? & ? & ?%not_elem_of_nil & _).
    - by destruct Hc as (? & ?%not_elem_of_nil & _). }
  rewrite bool_decide_true by done. cbn [negb andb]. apply Forall_cons in Hr as [Hke Hr]. cbn in Hke.
  assert (Hfr0 : fragmented (λ _ _, False) [] (ExtractUserKey k) []).
  { split; [by repeat constructor|constructor| | |constructor..]; intros u s _; split; try done.
    - by intros (? & ? & ? & ?%not_elem_of_nil & _).
    - by intros (? & ?%not_elem_of_nil & _). }
  pose proof (open_tombstone _ _ _ e (GetInternalKeySeqno k) [] Hfr0 Hke (seqno_bound k)) as Hfr1.
  pose proof (fragment_loop_spec ts _ _ _ _ L Hfr1 Hst (emplace_nonempty _ _) Hs Hr) as Hl.
  destruct (fragment_loop _ _ _ _ _ _) as [[L' cur'] ends']. destruct Hl as (full & Hfr & Hst' & Hne).
  destruct (last ends') as [[le q]|] eqn:El; [|by apply last_None in El].
  destruct (last_flush _ _ _ _ _ _ _ Hfr Hst' El) as (full' & ? & ? & Hcov). exists full'. split_and!; [done..|].
  intros u s. rewrite Hcov. unfold tombstone_covers. setoid_rewrite elem_of_cons. naive_solver.
Qed.
End coverage.

Section listed.
Context (C : Comparator) (HC : ComparatorOk C) `{StdChoices}.
Context (for_compaction : bool) (snapshots : list Z).
Context (Hsnap : StronglySorted Z.le snapshots) (Hmax : Forall (λ s, s <= kMaxSequenceNumber) snapshots).

Abbreviation ile := (cmp_le (@InternalKeyCompare C)).
Abbreviation wle := (cmp_le (@CompareUser C)).
Abbreviation kept := (kept_seqs for_compaction snapshots).
Abbreviation list_of := (NewFragmentedRangeTombstoneList for_compaction snapshots).

Lemma scan_sorted_spec ts : ∀ last num bytes n b,
  scan_sorted last ts num bytes = (true, n, b) →
  Sorted ile (match last with Some l => [l] | None => [] end ++ ts.*1).
Proof.
  induction ts as [|[k v] ts IH]; intros last num bytes n b; cbn [scan_sorted].
  { intros _. destruct last; repeat constructor. }
  destruct last as [l|]; cbn [app fmap list_fmap fst].
  - destruct (InternalKeyCompare l k) eqn:E; [..|done]; intros Hs%IH; (constructor; [done|]); constructor;
      unfold cmp_le; by rewrite E.
  - apply IH.
Qed.

Lemma starts_sorted_users ts :
  StronglySorted ile ts.*1 → StronglySorted wle ((λ t : entry, ExtractUserKey t.1) <$> ts).
Proof using HC.
  induction ts as [|[k v] ts IH]; cbn; [constructor|]. intros [Hs Hk]%StronglySorted_inv.
  constructor; [by apply IH|]. apply (proj1 (Forall_fmap _ _ _)) in Hk. apply Forall_fmap.
  eapply Forall_impl; [exact Hk|]. intros t Ht. by apply without_timestamp_ok, (internal_le_user C HC).
Qed.

(** Sorting first or not, the fragments cover what the tombstones do. *)
Lemma new_list_spec ts :
  ranges_ok C ts →
  ∃ full, stores for_compaction snapshots (list_of ts) full ∧ disjoint_fragments C full ∧
    ∀ u s, fragment_covers C full u s ↔ tombstone_covers C ts u s.
Proof using HC Hsnap Hmax.
  intros Hr. unfold NewFragmentedRangeTombstoneList.
  destruct (scan_sorted None ts 0 0) as [[[] n] b] eqn:E.
  - apply scan_sorted_spec in E. apply fragment_tombstones_spec; [done..| |done].
    apply starts_sorted_users, Sorted_StronglySorted; [|done]. intros x y z ??. order (cmp_le (@InternalKeyCompare C)).
  - set (sorted := std_sort _ ts).
    destruct (std_sort_compare (cmp_on (fst : entry → key) InternalKeyCompare)
      (λ a b, match InternalKeyCompare a.1 b.1 with Lt => true | _ => false end) ts) as [Hp Hs]; [apply _| |].
    { intros x y. unfold cmp_on. by destruct (InternalKeyCompare x.1 y.1). }
    fold sorted in Hp, Hs. destruct (fragment_tombstones_spec C HC for_compaction snapshots Hsnap Hmax sorted
      (mkFragmented [] [] n (payload ts))) as (full & Hst & Hd & Hcov); [done|done| |unfold ranges_ok; by rewrite Hp|].
    + apply starts_sorted_users. clear -Hs. induction Hs as [|t l _ IH Ht]; constructor; [done|]. by apply Forall_fmap.
    + exists full. split_and!; [done..|]. intros u s. rewrite Hcov. unfold tombstone_covers. by setoid_rewrite Hp.
Qed.
End listed.

(** ** Iteration and lookup *)

(** The tombstones of a list, fragment by fragment. *)
Definition stack_tombstones (f : RangeTombstoneStack) (seqs : list Z) : list RangeTombstone :=
  mkTombstone (stack_start f) (stack_end f) <$> seqs.

Definition list_tombstones (L : FragmentedRangeTombstoneList) : list RangeTombstone :=
  concat ((λ f, stack_tombstones f (stack_seqs L f)) <$> tombstones_ L).

(** What the loop over an iterator without bounds visits. *)
Definition visited (L : FragmentedRangeTombstoneList) : list RangeTombstone :=
  frag_collect L (length (tombstone_seqs_ L))
    (FragSeekToFirst (NewFragmentedRangeTombstoneIterator L kMaxSequenceNumber 0)).

Section iteration.
Context (L : FragmentedRangeTombstoneList).
Abbreviation seqs := (tombstone_seqs_ L).

(** The tombstones from the sequence number [j] on, in the first of [fs]. *)
Fixpoint tombstones_from (j : nat) (fs : list RangeTombstoneStack) : list RangeTombstone :=
  match fs with
  | [] => []
  | f :: fs' => stack_tombstones f (take (seq_end_idx f - j) (drop j seqs)) ++ tombstones_from (seq_end_idx f) fs'
  end.

Lemma tombstones_from_list fs base :
  slices_from base (length seqs) fs →
  tombstones_from base fs = concat ((λ f, stack_tombstones f (stack_seqs L f)) <$> fs).
Proof.
  revert base. induction fs as [|f fs IH]; intros base; cbn; [done|]. intros (<- & _ & Hs). f_equal. by apply IH.
Qed.

Lemma drop_cons_lookup {A} (l : list A) i x l' : drop i l = x :: l' → l !! i = Some x ∧ drop (S i) l = l'.
Proof.
  intros E. split; [by rewrite <- (Nat.add_0_r i), <- lookup_drop, E|].
  rewrite <- Nat.add_1_r, <- drop_drop, E. done.
Qed.

(** The position [j] is in the first of the remaining slices. *)
Definition at_slice (j : nat) (fs : list RangeTombstoneStack) : Prop :=
  match fs with
  | [] => j = length seqs
  | f :: fs' => (j < seq_end_idx f <= length seqs)%nat ∧ slices_from (seq_end_idx f) (length seqs) fs'
  end.

Lemma at_slice_start j fs : slices_from j (length seqs) fs → at_slice j fs.
Proof. destruct fs as [|f fs]; [done|]. cbn. intros (_ & ? & ?). split; [lia|done]. Qed.

Lemma collect_from n : ∀ up lo i j,
  (length seqs - j <= n)%nat → (i <= length (tombstones_ L))%nat → at_slice j (drop i (tombstones_ L)) →
  frag_collect L n (mkFragIter up lo i j) = tombstones_from j (drop i (tombstones_ L)).
Proof.
  induction n as [|n IH]; intros up lo i j Hn Hi Hat; cbn [frag_collect].
  { destruct (drop i _) as [|f fs] eqn:E; [done|]. cbn in Hat. lia. }
  unfold FragValid, at_end. cbn [fi_pos]. destruct (drop i _) as [|f fs] eqn:E; cbn [at_slice] in Hat.
  { assert (i = length (tombstones_ L)) as -> by (apply (f_equal length) in E; rewrite length_drop in E; cbn in E; lia).
    by rewrite Nat.eqb_refl. }
  destruct (drop_cons_lookup _ _ _ _ E) as [Hf Hfs]. apply lookup_lt_Some in Hf as Hlt.
  destruct (Nat.eqb_spec i (length (tombstones_ L))); [lia|]. cbn [negb].
  destruct Hat as [Hj Hs]. destruct (lookup_lt_is_Some_2 seqs j) as [s Hseq]; [lia|].
  assert (Hat : stack_at L (mkFragIter up lo i j) = f) by (unfold stack_at; cbn; by rewrite Hf).
  cbn [tombstones_from]. unfold FragTombstone, frag_start_key, frag_end_key, frag_seq, FragNext.
  rewrite Hat. cbn -[Nat.eqb Nat.sub].
  rewrite Hseq, (drop_S _ _ _ Hseq). replace (seq_end_idx f - j)%nat with (S (seq_end_idx f - S j)) by lia.
  cbn -[Nat.eqb Nat.sub]. f_equal. destruct (Nat.eqb_spec (S j) (seq_end_idx f)) as [He|He].
  - rewrite He, Nat.sub_diag, take_0. cbn -[Nat.eqb Nat.sub]. rewrite <- Hfs. apply IH; [lia|lia|]. rewrite Hfs. by apply at_slice_start.
  - rewrite IH, E; [done|lia|done|]. rewrite E. cbn. split; [lia|done].
Qed.

Lemma visited_list : sliced L → visited L = list_tombstones L.
Proof.
  intros HL. unfold visited, FragSeekToFirst. rewrite collect_from; [|lia|lia|by apply at_slice_start].
  by apply tombstones_from_list.
Qed.
End iteration.

Section lookup.
Context (C : Comparator) (HC : ComparatorOk C) (L : FragmentedRangeTombstoneList).
Context (Hsl : sliced L) (Hdis : disjoint_fragments C (fragments L)).
Context (Hdec : Forall (λ f, decreasing f.2) (fragments L)).

Abbreviation wle := (cmp_le (@CompareUser C)).

Lemma fragments_lookup i f :
  tombstones_ L !! i = Some f → fragments L !! i = Some (stack_start f, stack_end f, stack_seqs L f).
Proof. intros Hf. unfold fragments. by rewrite list_lookup_fmap, Hf. Qed.

Lemma stack_seqs_lookup f j s :
  f ∈ tombstones_ L →
  (seq_start_idx f <= j < seq_end_idx f)%nat → tombstone_seqs_ L !! j = Some s ↔
  stack_seqs L f !! (j - seq_start_idx f)%nat = Some s.
Proof using Type.
  intros Hf Hj. unfold stack_seqs. rewrite lookup_take_lt by lia. rewrite lookup_drop.
  by replace (seq_start_idx f + (j - seq_start_idx f))%nat with j by lia.
Qed.

Lemma stack_order i j f g :
  (i < j)%nat → tombstones_ L !! i = Some f → tombstones_ L !! j = Some g → wle (stack_end f) (stack_start g).
Proof using Hdis.
  intros Hij Hf%fragments_lookup Hg%fragments_lookup. destruct Hdis as [_ Hs].
  exact (StronglySorted_lookup _ _ i j _ _ Hs Hij Hf Hg).
Qed.

Lemma stack_nonempty i f : tombstones_ L !! i = Some f → ¬ wle (stack_end f) (stack_start f).
Proof using Hdis.
  intros Hf%fragments_lookup. destruct Hdis as [Hn _]. exact (Forall_lookup_1 _ _ _ _ Hn Hf).
Qed.

(** The search by end key finds the only fragment that can cover the key. *)
Lemma covering_position u :
  let p := std_bound (λ f, negb (match CompareUser u (stack_end f) with Lt => true | _ => false end))
             (tombstones_ L) 0 (length (tombstones_ L)) in
  (p <= length (tombstones_ L))%nat ∧
  ∀ i f, tombstones_ L !! i = Some f → within C (stack_start f) (stack_end f) u ↔ i = p ∧ wle (stack_start f) u.
Proof using HC Hdis.
  cbn zeta. set (q := λ f : RangeTombstoneStack, _).
  assert (Hq : ∀ f, q f = true ↔ wle (stack_end f) u).
  { intros f. unfold q. rewrite negb_true_iff. cmp_case (@CompareUser C) u (stack_end f); split; try done; intros;
      order (cmp_le (@CompareUser C)). }
  assert (Hq' : ∀ f, q f = false ↔ ¬ wle (stack_end f) u) by (intros f; rewrite <- Hq, not_true_iff_false; done).
  destruct (std_bound_spec q (tombstones_ L) 0 (length (tombstones_ L))) as (H1 & H2 & H3); [lia| |].
  { intros i j f g ??? Hf Hg. rewrite !Hq. destruct (decide (i = j)) as [->|]; [by simplify_eq|].
    pose proof (stack_order i j f g ltac:(lia) Hf Hg). pose proof (stack_nonempty j g Hg).
    intros. order (cmp_le (@CompareUser C)). }
  set (p := std_bound q _ _ _) in *. split; [lia|]. intros i f Hf. apply lookup_lt_Some in Hf as Hi. unfold within. split.
  - intros [Ha Hb]. split; [|done]. destruct (Nat.lt_trichotomy i p) as [Hlt|[?|Hgt]]; [|done|].
    + specialize (H2 i f ltac:(lia) Hf). by apply Hq in H2.
    + destruct (lookup_lt_is_Some_2 (tombstones_ L) p) as [g Hg]; [lia|].
      specialize (H3 p g ltac:(lia) Hg). apply Hq' in H3. pose proof (stack_order p i g f Hgt Hg Hf).
      order (cmp_le (@CompareUser C)).
  - intros [-> Ha]. split; [done|]. apply Hq', (H3 p); [lia|done].
Qed.

(** ... and the one by sequence number the newest it may see. *)
Lemma visible_position f b :
  f ∈ tombstones_ L →
  let p := std_bound (λ s, b <? s) (tombstone_seqs_ L) (seq_start_idx f) (seq_end_idx f) in
  if (p =? seq_end_idx f)%nat then ∀ s, s ∈ stack_seqs L f → b < s
  else ∃ s, tombstone_seqs_ L !! p = Some s ∧ s ∈ stack_seqs L f ∧ s <= b ∧
         ∀ s', s' ∈ stack_seqs L f → s' <= b → s' <= s.
Proof using Hsl Hdec.
  intros Hf. cbn zeta. destruct (slices_from_bound _ _ _ _ Hsl Hf) as [Hb Hb'].
  assert (Hd : decreasing (stack_seqs L f)).
  { rewrite Forall_forall in Hdec. apply (Hdec (stack_start f, stack_end f, stack_seqs L f)).
    unfold fragments. apply list_elem_of_fmap. by exists f. }
  assert (Hle : ∀ i j x y, (seq_start_idx f <= i <= j)%nat → (j < seq_end_idx f)%nat →
    tombstone_seqs_ L !! i = Some x → tombstone_seqs_ L !! j = Some y → y <= x).
  { intros i j x y ?? Hx Hy. destruct (decide (i = j)) as [->|]; [simplify_eq; lia|].
    apply (stack_seqs_lookup f) in Hx, Hy; [|first [done|lia]..].
    refine (StronglySorted_lookup _ _ _ _ _ _ Hd _ Hx Hy). lia. }
  assert (Hin : ∀ s, s ∈ stack_seqs L f → ∃ j, (seq_start_idx f <= j < seq_end_idx f)%nat ∧ tombstone_seqs_ L !! j = Some s).
  { intros s [j Hj]%list_elem_of_lookup_1. exists (seq_start_idx f + j)%nat. apply lookup_lt_Some in Hj as Hlt.
    unfold stack_seqs in Hlt, Hj. rewrite length_take, length_drop in Hlt. split; [lia|].
    rewrite lookup_take_lt, lookup_drop in Hj by lia. done. }
  destruct (std_bound_spec (λ s, b <? s) (tombstone_seqs_ L) (seq_start_idx f) (seq_end_idx f)) as (H1 & H2 & H3); [lia| |].
  { intros i j x y ??? Hx Hy. rewrite !Z.ltb_lt. pose proof (Hle i j x y ltac:(lia) ltac:(lia) Hx Hy). lia. }
  set (p := std_bound _ _ _ _) in *. destruct (Nat.eqb_spec p (seq_end_idx f)) as [He|He].
  { intros s (j & Hj & Hs)%Hin. apply Z.ltb_lt, (H2 j); [lia|done]. }
  destruct (lookup_lt_is_Some_2 (tombstone_seqs_ L) p) as [s Hs]; [lia|]. exists s. split_and!; [done| | |].
  - apply (stack_seqs_lookup f) in Hs; [|done|lia]. by apply list_elem_of_lookup_2 in Hs.
  - apply Z.ltb_ge, (H3 p); [lia|done].
  - intros s' (j & Hj & Hs')%Hin Hb''. destruct (decide (p <= j)%nat); [by apply (Hle p j); [lia..| |]|].
    specialize (H2 j s' ltac:(lia) Hs'). apply Z.ltb_lt in H2. lia.
Qed.

(** The result is the newest sequence number at most the bound over the key. *)
Lemma max_covering_seqnum u b lo :
  let m := MaxCoveringTombstoneSeqnum L u (NewFragmentedRangeTombstoneIterator L b lo) in
  (fragment_covers C (fragments L) u m ∧ m <= b ∧ ∀ s, fragment_covers C (fragments L) u s → s <= b → s <= m) ∨
  (m = 0 ∧ ∀ s, fragment_covers C (fragments L) u s → b < s).
Proof using HC Hsl Hdis Hdec.
  cbn zeta. destruct (covering_position u) as [Hp Hw]. unfold MaxCoveringTombstoneSeqnum, SeekToCoveringTombstone.
  set (p := std_bound _ (tombstones_ L) 0 _) in *.
  assert (Hcov : ∀ s, fragment_covers C (fragments L) u s ↔
    ∃ f, tombstones_ L !! p = Some f ∧ wle (stack_start f) u ∧ s ∈ stack_seqs L f).
  { intros s. unfold fragment_covers, fragments. setoid_rewrite list_elem_of_fmap. split.
    - intros (a & c & ss & (f & [= -> -> ->] & [i Hi]%list_elem_of_lookup_1) & Hwi & Hs).
      apply (Hw i f Hi) in Hwi as [-> ?]. by exists f.
    - intros (f & Hf & Ha & Hs). do 3 eexists. split; [exists f; split; [done|by eapply list_elem_of_lookup_2]|].
      split; [|done]. by apply (Hw p f Hf). }
  unfold at_end. cbn [fi_pos]. destruct (Nat.eqb_spec p (length (tombstones_ L))) as [He|He].
  { right. unfold ValidPos, FragValid, at_end. cbn -[Nat.eqb]. rewrite He, Nat.eqb_refl. cbn. split; [done|].
    intros s (f & Hf & _)%Hcov. apply lookup_lt_Some in Hf. lia. }
  destruct (lookup_lt_is_Some_2 (tombstones_ L) p) as [f Hf]; [lia|].
  unfold ValidPos, FragValid, at_end, SetMaxVisibleSeq, frag_start_key, frag_seq, stack_at. cbn -[Nat.eqb].
  rewrite Hf. cbn -[Nat.eqb]. destruct (Nat.eqb_spec p (length (tombstones_ L))); [lia|]. cbn [negb andb].
  pose proof (visible_position f b (list_elem_of_lookup_2 _ _ _ Hf)) as Hv. cbn zeta in Hv.
  set (q := std_bound _ (tombstone_seqs_ L) _ _) in *. setoid_rewrite Hcov.
  destruct (Nat.eqb_spec q (seq_end_idx f)); cbn [negb andb].
  { right. split; [done|]. intros s (f' & Hf' & _ & Hs). simplify_eq. by apply Hv. }
  destruct Hv as (s & -> & Hs & Hb & Hnew). cbn [default from_option].
  cmp_case (@CompareUser C) (stack_start f) u;
    [left; (split_and!; [exists f; split_and!; [done|order (cmp_le (@CompareUser C))|done]|done|]); intros s' (f' & Hf' & _ & Hs'); simplify_eq; by apply Hnew..|].
  right. split; [done|]. intros s' (f' & Hf' & Hn & _). simplify_eq.
Qed.
End lookup.

(** ** The lists of fragments are correct *)

(** [s] is the newest of [P] that a read at [b] sees. *)
Definition newest (P : Z → Prop) (b s : Z) : Prop := P s ∧ s <= b ∧ ∀ s', P s' → s' <= b → s' <= s.

Definition visited_covers (C : Comparator) (out : list RangeTombstone) (u : key) (s : Z) : Prop :=
  ∃ t, t ∈ out ∧ within C (start_key_ t) (end_key_ t) u ∧ seq_ t = s.

(** The newest tombstone over [u] that a read at [b] sees, by a search over all
    tombstones. *)
Definition max_covering `{Comparator} (ts : list entry) (b : Z) (u : key) : Z :=
  foldr Z.max 0 (omap (λ t, if bool_decide (GetInternalKeySeqno t.1 <= b) &&
    match CompareUser (ExtractUserKey t.1) u with Gt => false | _ => true end &&
    match CompareUser u t.2 with Lt => true | _ => false end
    then Some (GetInternalKeySeqno t.1) else None) ts).

Lemma seqno_nonneg k : 0 <= GetInternalKeySeqno k.
Proof.
  unfold GetInternalKeySeqno. pose proof (decode_fixed64_range (footer_bytes k)) as Hr. unfold u64_ok in Hr.
  apply Z.shiftr_nonneg. lia.
Qed.

Lemma foldr_max_spec (l : list Z) :
  Forall (λ s, 0 <= s) l → let m := foldr Z.max 0 l in (m ∈ l ∨ m = 0 ∧ l = []) ∧ ∀ s, s ∈ l → s <= m.
Proof.
  induction 1 as [|x l Hx Hl [IH1 IH2]]; cbn [foldr]; [split; [by right|set_solver]|].
  cbn zeta in *. destruct (Z.max_spec x (foldr Z.max 0 l)) as [[? ->]|[? ->]]; split.
  - destruct IH1 as [?|[? ->]]; [left; by right|]. cbn in *. lia.
  - intros s [->|Hs%IH2]%elem_of_cons; lia.
  - left. left.
  - intros s [->|Hs%IH2]%elem_of_cons; lia.
Qed.

Section stored.
Context (C : Comparator) (HC : ComparatorOk C) `{StdChoices}.
Context (for_compaction : bool) (snapshots : list Z).
Context (Hsnap : StronglySorted Z.le snapshots) (Hmax : Forall (λ s, s <= kMaxSequenceNumber) snapshots).
Context (L : FragmentedRangeTombstoneList) (full : list fragment).
Context (Hst : stores for_compaction snapshots L full) (Hdis : disjoint_fragments C full).

Abbreviation wle := (cmp_le (@CompareUser C)).
Abbreviation kept := (kept_seqs for_compaction snapshots).

Lemma stored_disjoint : disjoint_fragments C (fragments L).
Proof using Hst Hdis.
  destruct Hst as [_ ->], Hdis as [Hn Hs]. split.
  - apply Forall_fmap. exact Hn.
  - clear -Hs. induction Hs as [|f fs _ IH Hf]; constructor; [done|]. by apply Forall_fmap.
Qed.

Lemma stored_decreasing : Forall (λ f, decreasing f.2) (fragments L).
Proof using Hsnap Hmax Hst.
  destruct Hst as [_ ->]. apply Forall_fmap, Forall_true. intros f. by apply kept_seqs_spec.
Qed.

Lemma stored_sound u s : fragment_covers C (fragments L) u s → fragment_covers C full u s.
Proof using Hsnap Hmax Hst.
  destruct Hst as [_ ->]. intros (a & b & ss & ([[a' b'] ss'] & [= -> -> ->] & Hf)%list_elem_of_fmap & Hw & Hs).
  exists a', b', ss'. split_and!; [done..|]. revert Hs. by apply kept_seqs_spec.
Qed.

Lemma stored_newest u b s :
  read_bound for_compaction snapshots b → fragment_covers C full u s → s <= b →
  ∃ s', fragment_covers C (fragments L) u s' ∧ s <= s' <= b.
Proof using Hsnap Hmax Hst.
  destruct Hst as [_ ->]. intros Hb (x & y & ss & Hf & Hw & Hs) Hsb.
  destruct (kept_seqs_spec for_compaction snapshots ss Hsnap Hmax) as (_ & _ & _ & _ & Hk).
  destruct (Hk b Hb s Hs Hsb) as (s' & Hs' & ?). exists s'. split; [|done]. exists x, y, (kept ss).
  split_and!; [|done..]. apply list_elem_of_fmap. by exists (x, y, ss).
Qed.

Lemma stored_newest_iff u b s :
  read_bound for_compaction snapshots b →
  newest (fragment_covers C full u) b s ↔ newest (fragment_covers C (fragments L) u) b s.
Proof using Hsnap Hmax Hst.
  intros Hb. unfold newest. split; intros (Hp & Hs & Hn).
  - destruct (stored_newest u b s Hb Hp Hs) as (s' & Hs' & ?).
    assert (s' <= s) by (apply Hn; [by apply stored_sound|lia]). assert (s' = s) as -> by lia.
    split_and!; [done..|]. intros. apply Hn; [by apply stored_sound|done].
  - split_and!; [by apply stored_sound|done|]. intros s' Hp' Hs'.
    destruct (stored_newest u b s' Hb Hp' Hs') as (s'' & ? & ?). assert (s'' <= s) by (apply Hn; [done|lia]). lia.
Qed.
End stored.

Section visited.
Context (C : Comparator) (HC : ComparatorOk C) (L : FragmentedRangeTombstoneList).

Lemma visited_elem t :
  sliced L → t ∈ visited L ↔ ∃ ss, (start_key_ t, end_key_ t, ss) ∈ fragments L ∧ seq_ t ∈ ss.
Proof.
  intros HL. rewrite visited_list by done. unfold list_tombstones, fragments. split.
  - intros (x & Hx & Hin)%list_elem_of_In%in_concat. apply list_elem_of_In, list_elem_of_fmap in Hx as (f & -> & Hf).
    apply list_elem_of_In in Hin. apply list_elem_of_fmap in Hin as (s & -> & Hs). cbn.
    exists (stack_seqs L f). split; [|done]. apply list_elem_of_fmap. by exists f.
  - intros (ss & (f & [= E1 E2 ->] & Hf)%list_elem_of_fmap & Hs). apply list_elem_of_In, in_concat.
    exists (stack_tombstones f (stack_seqs L f)). split; apply list_elem_of_In, list_elem_of_fmap; [by exists f|].
    exists (seq_ t). split; [|done]. destruct t; cbn in *. by subst.
Qed.

Lemma visited_covers_fragments u s :
  sliced L → visited_covers C (visited L) u s ↔ fragment_covers C (fragments L) u s.
Proof.
  intros HL. unfold visited_covers, fragment_covers. split.
  - intros (t & (ss & Hf & Hs)%visited_elem & Hw & <-); [|done]. by exists (start_key_ t), (end_key_ t), ss.
  - intros (a & b & ss & Hf & Hw & Hs). exists (mkTombstone a b s). split_and!; [|done..].
    apply visited_elem; [done|]. by exists ss.
Qed.

(** The tombstones of disjoint fragments follow each other. *)
Lemma visited_follow :
  no_timestamps C → sliced L → disjoint_fragments C (fragments L) →
  Forall (λ f, strictly_decreasing f.2) (fragments L) → StronglySorted (follows C) (visited L).
Proof.
  intros Hts HL [_ Hs] Hd. rewrite visited_list by done. unfold list_tombstones, fragments in *.
  apply (proj1 (Forall_fmap _ _ _)) in Hd. revert Hs Hd.
  induction (tombstones_ L) as [|f fs IH]; cbn; [constructor|].
  intros [Hs Hf]%StronglySorted_inv [Hdf Hd]%Forall_cons. apply StronglySorted_app_2; [|clear Hf|by apply IH].
  - intros x y (q & -> & _)%list_elem_of_fmap Hy. apply list_elem_of_In, in_concat in Hy as (l & Hl & Hy).
    apply list_elem_of_In, list_elem_of_fmap in Hl as (g & -> & Hg).
    apply list_elem_of_In, list_elem_of_fmap in Hy as (q' & -> & _). right. cbn.
    apply (proj1 (Forall_fmap _ _ _)) in Hf. rewrite Forall_forall in Hf. specialize (Hf g Hg).
    unfold compose, before, cmp_le in Hf |- *. cbn in Hf. by rewrite <- Hts.
  - cbn in Hdf. induction Hdf as [|q qs _ IHq Hq]; cbn; constructor; [done|].
    apply Forall_fmap. eapply Forall_impl; [exact Hq|]. intros q' ?. left. cbn. done.
Qed.
End visited.

(** Fragmenting the range tombstones of a table or memtable for reads is
    exact: the loop over the list visits a tombstone over a user key at a
    sequence number exactly when one of the given tombstones, in whatever order
    they came and however they overlap, covers the key at that number.  The
    fragments are non-empty ranges in order that do not overlap, each with its
    sequence numbers from new to old. *)
Theorem read_fragments_exact (C : Comparator) `{StdChoices} ts :
  ComparatorOk C → ranges_ok C ts →
  let L := NewFragmentedRangeTombstoneList false [] ts in
  (∀ u s, visited_covers C (visited L) u s ↔ tombstone_covers C ts u s) ∧
  disjoint_fragments C (fragments L) ∧ Forall (λ f, f.2 ≠ [] ∧ decreasing f.2) (fragments L).
Proof.
  intros HC Hr. cbn zeta. assert (Hs : StronglySorted Z.le []) by constructor.
  assert (Hm : Forall (λ s, s <= kMaxSequenceNumber) []) by constructor.
  destruct (new_list_spec C HC false [] Hs Hm ts Hr) as (full & Hst & Hd & Hcov).
  split_and!; [|by eapply stored_disjoint|].
  - intros u s. rewrite visited_covers_fragments by apply Hst. rewrite <- Hcov.
    split; [by eapply stored_sound|]. destruct Hst as [_ ->]. intros (a & b & ss & Hf & Hw & Hin).
    exists a, b, (kept_seqs false [] ss). split_and!; [|done|by apply kept_seqs_spec].
    apply list_elem_of_fmap. by exists (a, b, ss).
  - pose proof (stored_decreasing false [] Hs Hm _ _ Hst) as Hdec.
    rewrite Forall_forall in Hdec |- *. intros f Hf. split; [|by apply Hdec].
    unfold fragments in Hf. apply list_elem_of_fmap in Hf as (g & -> & Hg). cbn. unfold stack_seqs.
    destruct Hst as [Hsl _]. destruct (slices_from_bound _ _ _ _ Hsl Hg) as [? ?].
    intros E%(f_equal length). rewrite length_take, length_drop in E. cbn in E. lia.
Qed.

(** C34. Fragmenting for a compaction drops only what no snapshot can see: at
    every snapshot, and for the newest read, the newest tombstone over every user
    key is the same before and after.  What the loop over the list visits is in
    the order the output files rely on: the same range at a smaller sequence
    number, or a later range. *)
Theorem compaction_fragments_visible (C : Comparator) `{StdChoices} snapshots ts :
  ComparatorOk C → no_timestamps C → StronglySorted Z.le snapshots →
  Forall (λ s, s <= kMaxSequenceNumber) snapshots → ranges_ok C ts →
  Forall (λ t, GetInternalKeySeqno t.1 < kMaxSequenceNumber) ts →
  let out := visited (NewFragmentedRangeTombstoneList true snapshots ts) in
  fragments_ok C out ∧
  ∀ u b s, b ∈ snapshots ∨ b = kMaxSequenceNumber →
    newest (visited_covers C out u) b s ↔ newest (tombstone_covers C ts u) b s.
Proof.
  intros HC Hts Hs Hm Hr Hlt. cbn zeta. destruct (new_list_spec C HC true snapshots Hs Hm ts Hr) as (full & Hst & Hd & Hcov).
  set (L := NewFragmentedRangeTombstoneList true snapshots ts) in *. pose proof (proj1 Hst) as Hsl.
  pose proof (stored_disjoint C true snapshots L full Hst Hd) as Hdis. split; [split|].
  - apply Forall_forall. intros t Ht. pose proof Ht as (ss & Hf & Hss)%visited_elem; [|done]. split.
    + destruct Hdis as [Hn _]. rewrite Forall_forall in Hn. specialize (Hn _ Hf). cbn in Hn.
      unfold cmp_le in *. by rewrite <- Hts.
    + assert (Hc : tombstone_covers C ts (start_key_ t) (seq_ t)).
      { apply Hcov, (stored_sound C true snapshots Hs Hm L full Hst). exists (start_key_ t), (end_key_ t), ss.
        split_and!; [done| |done]. destruct Hdis as [Hn _]. rewrite Forall_forall in Hn. specialize (Hn _ Hf).
        split; [order (cmp_le (@CompareUser C))|exact Hn]. }
      destruct Hc as (x & Hx & _ & <-). rewrite Forall_forall in Hlt. split; [apply seqno_nonneg|by apply Hlt].
  - apply visited_follow; [done..|]. destruct Hst as [_ ->]. apply Forall_fmap, Forall_true. intros f.
    by apply (kept_seqs_spec true snapshots f.2 Hs Hm).
  - intros u b s Hb. assert (Hrd : read_bound true snapshots b) by (intros _; exact Hb).
    pose proof (stored_newest_iff C true snapshots Hs Hm L full Hst u b s Hrd) as Hi.
    assert (Hv : ∀ q, visited_covers C (visited L) u q ↔ fragment_covers C (fragments L) u q)
      by (intros; by apply visited_covers_fragments).
    unfold newest in *. setoid_rewrite Hv. setoid_rewrite Hcov in Hi. tauto.
Qed.

(** Looking up the newest tombstone over a user key that a read at sequence
    number [b] sees, by two binary searches over the fragments, gives what a
    search over all the tombstones gives, and 0 when there is none.  For a list
    made for a compaction this holds for reads at its snapshots. *)
Theorem max_covering_exact (C : Comparator) `{StdChoices} for_compaction snapshots ts u b :
  ComparatorOk C → StronglySorted Z.le snapshots → Forall (λ s, s <= kMaxSequenceNumber) snapshots →
  ranges_ok C ts → read_bound for_compaction snapshots b →
  let L := NewFragmentedRangeTombstoneList for_compaction snapshots ts in
  MaxCoveringTombstoneSeqnum L u (NewFragmentedRangeTombstoneIterator L b 0) = max_covering ts b u.
Proof.
  intros HC Hs Hm Hr Hb. cbn zeta. destruct (new_list_spec C HC for_compaction snapshots Hs Hm ts Hr) as (full & Hst & Hd & Hcov).
  set (L := NewFragmentedRangeTombstoneList for_compaction snapshots ts) in *.
  assert (Hin : ∀ s, s ∈ omap (λ t : entry, if bool_decide (GetInternalKeySeqno t.1 <= b) &&
    match CompareUser (ExtractUserKey t.1) u with Gt => false | _ => true end &&
    match CompareUser u t.2 with Lt => true | _ => false end then Some (GetInternalKeySeqno t.1) else None) ts ↔
    fragment_covers C full u s ∧ s <= b).
  { intros s. rewrite Hcov, list_elem_of_omap. unfold tombstone_covers, within. split.
    - intros (t & Ht & E). destruct (bool_decide_reflect (GetInternalKeySeqno t.1 <= b)); [|done].
      cmp_case (@CompareUser C) (ExtractUserKey t.1) u; try done; cmp_case (@CompareUser C) u t.2; try done;
        injection E as <-; (split; [|done]); exists t; (split_and!; try done); order (cmp_le (@CompareUser C)).
    - intros [(t & Ht & [Hw1 Hw2] & <-) Hle]. exists t. split; [done|]. rewrite bool_decide_true by done.
      cmp_case (@CompareUser C) (ExtractUserKey t.1) u; try done; cmp_case (@CompareUser C) u t.2; try done;
        exfalso; order (cmp_le (@CompareUser C)). }
  unfold max_covering. set (l := omap _ ts) in *. destruct (foldr_max_spec l) as [Hm1 Hm2].
  { apply Forall_forall. intros s [(t & _ & _ & <-)%Hcov _]%Hin. apply seqno_nonneg. }
  destruct (max_covering_seqnum C HC L (proj1 Hst) (stored_disjoint C _ _ L full Hst Hd)
    (stored_decreasing _ _ Hs Hm L full Hst) u b 0) as [Hnew|[-> Hno]].
  - apply (stored_newest_iff C _ _ Hs Hm L full Hst u b _ Hb) in Hnew as (Hc & Hle & Hn).
    set (m := MaxCoveringTombstoneSeqnum _ _ _) in *. assert (m ∈ l) as Hml by by apply Hin.
    apply Z.le_antisymm; [by apply Hm2|]. destruct Hm1 as [[? ?]%Hin|[_ E]]; [by apply Hn|].
    rewrite E in Hml. by apply not_elem_of_nil in Hml.
  - destruct Hm1 as [[Hc Hle]%Hin|[-> _]]; [|done].
    destruct (stored_newest C _ _ Hs Hm L full Hst u b _ Hb Hc Hle) as (s' & ?%Hno & ?). lia.
Qed.

(** Three overlapping tombstones that come out of order. *)
Definition sample_tombstones : list entry :=
  [(InternalKey [x62] 3 kTypeRangeDeletion, [x64]); (InternalKey [x61] 5 kTypeRangeDeletion, [x65]);
   (InternalKey [x63] 7 kTypeRangeDeletion, [x67])].

Lemma sample_ranges_ok : ranges_ok BytewiseComparator sample_tombstones.
Proof. repeat constructor; by vm_compute. Qed.

Lemma read_fragments_exact_witness :
  let L := @NewFragmentedRangeTombstoneList BytewiseComparator simple_choices false [] sample_tombstones in
  fragments L = [([x61], [x62], [5]); ([x62], [x63], [5; 3]); ([x63], [x64], [7; 5; 3]);
                 ([x64], [x65], [7; 5]); ([x65], [x67], [7])] ∧
  (∀ u s, visited_covers BytewiseComparator (visited L) u s ↔ tombstone_covers BytewiseComparator sample_tombstones u s).
Proof.
  split; [by vm_compute|].
  exact (proj1 (@read_fragments_exact BytewiseComparator simple_choices sample_tombstones bytewise_ok sample_ranges_ok)).
Defined.

Lemma compaction_fragments_visible_witness :
  let out := visited (@NewFragmentedRangeTombstoneList BytewiseComparator simple_choices true [4] sample_tombstones) in
  out = [mkTombstone [x61] [x62] 5; mkTombstone [x62] [x63] 5; mkTombstone [x62] [x63] 3; mkTombstone [x63] [x64] 7;
         mkTombstone [x63] [x64] 3; mkTombstone [x64] [x65] 7; mkTombstone [x65] [x67] 7] ∧
  fragments_ok BytewiseComparator out ∧
  ∀ u b s, b ∈ [4] ∨ b = kMaxSequenceNumber →
    newest (visited_covers BytewiseComparator out u) b s ↔
    newest (tombstone_covers BytewiseComparator sample_tombstones u) b s.
Proof.
  split; [by vm_compute|].
  apply (@compaction_fragments_visible BytewiseComparator simple_choices [4] sample_tombstones bytewise_ok);
    [done|by repeat constructor|by repeat constructor|exact sample_ranges_ok|by repeat constructor].
Defined.

Lemma max_covering_exact_witness :
  let L := @NewFragmentedRangeTombstoneList BytewiseComparator simple_choices false [] sample_tombstones in
  @MaxCoveringTombstoneSeqnum BytewiseComparator L [x64] (NewFragmentedRangeTombstoneIterator L 6 0) = 5 ∧
  @MaxCoveringTombstoneSeqnum BytewiseComparator L [x63] (NewFragmentedRangeTombstoneIterator L 4 0) =
    @max_covering BytewiseComparator sample_tombstones 4 [x63].
Proof.
  split; [by vm_compute|].
  apply (@max_covering_exact BytewiseComparator simple_choices false [] sample_tombstones [x63] 4 bytewise_ok);
    [constructor|constructor|exact sample_ranges_ok|by intros ?].
Defined.
