(* ===== verification/CompactionResult.v ===== *)
(** * What a subcompaction writes

    Theorems on [ProcessKeyValueCompaction] of src/db/compaction/compaction_job.cc
    with [CompactionOutputs]: when it succeeds, the output files hold exactly the
    entries of the compaction iterator, in disjoint ranges in order; every range
    tombstone that still deletes something is in the file that covers the
    deleted key; the files are cut within the limits on size and on the overlap
    with the next level, and at the buckets; and whatever happens, no file is
    left open. *)

From S2P Require Import Prelude Coding BlobIndex Comparator DbFormat ManifestRecords FileMeta VersionEdit.
From S2P Require Import Bucket BucketManager BucketPartition BlobGarbageMeter VersionStorage TableIterator BuildTable.
From S2P Require Import Compaction CompactionScore CompactionOutputs CompactionJob CompactionRun.

(** Outputs to which nothing was added yet. *)
Record fresh_outputs (c : Compaction) (s : CompactionOutputs) : Prop := {
  fr_builder : builder_ s = None;
  fr_outputs : outputs_ s = [];
  fr_size : current_output_file_size_ s = 0;
  fr_positions : level_ptrs_ s = replicate (c_number_levels c) O;
  fr_proximal : is_proximal_level_ s = false;
  fr_grandparent : grandparent s = NewGrandparentState;
  fr_bucket : current_bucket_index_ s = -1;
}.

Lemma new_outputs_fresh `{Comparator} c o E ttl base mgr :
  fresh_outputs c (NewCompactionOutputs c o E ttl base mgr false).
Proof. done. Qed.

Lemma omap_sorted {A B} (R : B → B → Prop) (h : A → option B) l :
  (∀ i k x y a b, (i < k)%nat → l !! i = Some x → l !! k = Some y → h x = Some a → h y = Some b → R a b) →
  StronglySorted R (omap h l).
Proof.
  induction l as [|x l IH]; intros Hl; [constructor|]. cbn.
  assert (IHl : StronglySorted R (omap h l)) by (apply IH; intros i k y z a b Hik; apply (Hl (S i) (S k)); lia).
  destruct (h x) as [a|] eqn:Ea; [|done]. constructor; [done|]. apply Forall_forall.
  intros b (y & [k Hk]%list_elem_of_lookup & Hb)%list_elem_of_omap. apply (Hl 0%nat (S k) x y); [lia|done..].
Qed.

Section result.
Context (C : Comparator) (HC : ComparatorOk C) (Hts : no_timestamps C) (E : JobEnv).
Context (c : Compaction) (o : CompactOptions) (v : VersionStorageInfo) (start fin : option key).

Abbreviation ile := (cmp_le (@InternalKeyCompare C)).
Abbreviation ule := (cmp_le (@Compare C)).
Abbreviation uk := ExtractUserKey.
Abbreviation outs sub := (outputs_ (compaction_outputs_ sub)).

(** The run of a subcompaction over [entries], started with fresh outputs: there
    is no per-key placement, the iterator returns keys of the range in order and
    reports a pause in its status, and the aggregator returns fragments in
    order.  Levels below are sorted. *)
Record runs (ev : LoopEvents) (entries : list CompactionEntry) (sub : SubcompactionState) : Prop := {
  rn_fresh : fresh_outputs c (compaction_outputs_ sub);
  rn_below : ∀ l, (c_output_level c < l)%nat → starts_sorted C (LevelFiles v l);
  rn_entries : entries_ok C start fin entries;
  rn_aggregator : aggregator_ok C E;
  rn_placement : SupportsPerKeyPlacement c = false;
  rn_proximal : proximal_after_seqno_ = kMaxSequenceNumber;
  rn_paused : ∀ i, paused ev i = true → c_iter_status ev ≠ Ok;
}.

Lemma fresh_run_inv s : fresh_outputs c s → run_inv C E c v start fin false [] [] s.
Proof using Type.
  intros [F1 F2 F3 F4 F5 _ _]. split; [|done|done|done|done]. rewrite F1. split_and!; [done..|].
  intros u l. rewrite F4. destruct (replicate (c_number_levels c) 0%nat !! l) as [n|] eqn:En.
  - apply lookup_replicate in En as [-> _]. cbn. split; [lia|done].
  - cbn. split; [lia|done].
Qed.

Lemma points_counted entries : points (filter (counted c) entries) = points entries.
Proof using Type.
  unfold points. rewrite list_filter_filter. f_equal. apply list_filter_iff. intros e. unfold counted.
  split; [by intros [? _]|]. intros Hd. by rewrite Hd.
Qed.

(** The files of a run, with a property [I] kept by its steps. *)
Lemma run_files I ev entries j sub j' sub' :
  runs ev entries sub → kept_by_steps C E c o start fin I → I [[]] (compaction_outputs_ sub) →
  ProcessKeyValueCompaction c o v start fin ev entries j sub = (j', sub') → sub_status sub' = Ok →
  ∃ fs, run_done C E c v start fin false (filter (counted c) entries) fs (compaction_outputs_ sub') ∧
    (fs = [] ∧ range_del_agg = None ∨ fs ≠ [] ∧ ∃ s, I (cl_entries <$> fs) s).
Proof using HC Hts.
  intros [R1 R2 R3 R4 R5 R6 R7] HI HI0 Hp Hst.
  destruct (process_done _ _ _ _ _ _ _ _ _ _ _ _ _ R6 R5 R7 Hp Hst) as (j1 & s1 & Ha & Hc & _).
  pose proof (entries_ok_filter C start fin (counted c) entries R3) as Hok.
  destruct (run_all C HC Hts E c o v start fin R2 false I entries [] [] j (compaction_outputs_ sub) j1 s1)
    as (fs & cur & Hri & Hi & Hcat); try done; [by apply fresh_run_inv|]. cbn in Hcat.
  destruct (close_output_spec C HC Hts E c o v start fin R2 false fs cur j1 s1 j' (compaction_outputs_ sub') Ok)
    as (_ & fs' & Hd & Hseg); [done|by rewrite Hcat|done|done|].
  rewrite Hcat in Hd. exists fs'. split; [done|]. destruct Hseg as [Hseg|(-> & -> & [[-> Hagg]|Hseg])]; [|by left|].
  - right. split; [|exists s1; by rewrite Hseg]. intros ->. unfold segments in Hseg. by destruct (cl_entries <$> fs).
  - right. split; [by intros ->|]. exists s1. by rewrite Hseg.
Qed.

(** ** The files of a finished run *)

Section done.
Context (entries : list CompactionEntry) (fs : list ClosedFile) (s : CompactionOutputs).
Context (Hok : entries_ok C start fin entries) (Hd : run_done C E c v start fin false entries fs s).

Lemma file_of_output out : out ∈ outputs_ s → ∃ i f, fs !! i = Some f ∧ cl_out f = Some out.
Proof using Hd.
  rewrite (rd_outputs _ _ _ _ _ _ _ _ _ _ Hd). intros (f & Hf & Ho)%list_elem_of_omap.
  apply list_elem_of_lookup in Hf as [i Hi]. eauto.
Qed.

(** An output has bounds, within the bounds of its file. *)
Lemma output_bounds i f out :
  fs !! i = Some f → cl_out f = Some out →
  let lower := seg_lower start (omap cl_out (take i fs)) (cl_entries f) in
  let upper := seg_upper C fin (cl_entries f) (cl_next f) in
  smallest (meta out) ≠ [] ∧ largest (meta out) ≠ [] ∧ ile (smallest (meta out)) (largest (meta out)) ∧
  from_lower C lower (smallest (meta out)) ∧ to_upper C upper (largest (meta out)).
Proof using Hd.
  intros Hi Ho. cbn zeta. pose proof (rd_files _ _ _ _ _ _ _ _ _ _ Hd i f Hi) as [_ (kept & m & Ht & Hf)]. rewrite Ho in Hf.
  destruct Hf as (Hm & _ & Hc & Hne & Hb & Hcov & _). destruct Hb as [[Hs _]|Hb]; [exfalso|done].
  destruct (points (cl_entries f)) as [|p ps]; [|by inversion Hcov as [|? ? Hp _]; destruct Hp].
  destruct kept as [|t kept]; [by rewrite Hc in Hne|]. unfold tombstones_of in Ht. destruct range_del_agg; [|done].
  destruct Ht as [_ Hk _]. inversion Hk as [|? ? (a & b & _ & Hcm) _]; subst.
  apply (covers_same_bounds C _ _ _ _ _ Hm) in Hcm. by destruct Hcm.
Qed.

Lemma segment_split i f :
  fs !! i = Some f →
  entries = concat (cl_entries <$> take i fs) ++ cl_entries f ++ concat (cl_entries <$> drop (S i) fs).
Proof using Hd.
  intros Hi. rewrite <- (rd_entries _ _ _ _ _ _ _ _ _ _ Hd). rewrite <- (take_drop_middle fs i f Hi) at 1.
  by rewrite fmap_app, fmap_cons, concat_app.
Qed.

Lemma files_before i k f g a b :
  (i < k)%nat → fs !! i = Some f → fs !! k = Some g → a ∈ cl_entries f → b ∈ cl_entries g → before C a b.
Proof using Hok Hd.
  intros Hik Hi Hk Ha Hb. pose proof Hok as Hok'. rewrite (segment_split i f Hi) in Hok'.
  apply entries_ok_app in Hok' as (_ & Hok' & _). apply entries_ok_app in Hok' as (_ & _ & Hbe). apply Hbe; [done|].
  apply list_elem_of_In, in_concat. exists (cl_entries g). rewrite <- !list_elem_of_In. split; [|done].
  apply list_elem_of_fmap. exists g. split; [done|].
  apply list_elem_of_lookup. exists (k - S i)%nat. rewrite lookup_drop. by replace (S i + (k - S i))%nat with k by lia.
Qed.

Lemma file_entries_ok i f : fs !! i = Some f → entries_ok C start fin (cl_entries f).
Proof using Hok Hd.
  intros Hi. pose proof Hok as Hok'. rewrite (segment_split i f Hi) in Hok'.
  apply entries_ok_app in Hok' as (_ & Hok' & _). by apply entries_ok_app in Hok' as (? & _).
Qed.

(** A file after another one has a first entry. *)
Lemma file_head k g : fs !! k = Some g → (0 < k)%nat →
  ∃ e, head (cl_entries g) = Some e ∧ e ∈ cl_entries g ∧ seg_first (cl_entries g) = ce_key e.
Proof using Hd.
  intros Hk H0. destruct (rd_nonempty _ _ _ _ _ _ _ _ _ _ Hd) as [Hne|(f & Hf & _)].
  - specialize (Hne g ltac:(by eapply list_elem_of_lookup_2)). destruct (cl_entries g) as [|e es]; [done|].
    exists e. split_and!; [done|by left|done].
  - rewrite Hf in Hk. apply lookup_lt_Some in Hk. cbn in Hk. lia.
Qed.

(** The upper bound of a file: it has the user key of the next entry, and is
    before it. *)
Lemma upper_next i f g :
  fs !! i = Some f → fs !! S i = Some g →
  ∃ e x, head (cl_entries g) = Some e ∧ seg_upper C fin (cl_entries f) (cl_next f) = Some x ∧
    ¬ ile (ce_key e) x ∧ ule (uk x) (uk (ce_key e)) ∧ ule (uk (ce_key e)) (uk x).
Proof using HC Hts Hok Hd.
  intros Hi Hg. destruct (file_head (S i) g Hg) as (e & He & Hin & Hfe); [lia|].
  assert (Hn : cl_next f = ce_key e) by (rewrite (rd_next _ _ _ _ _ _ _ _ _ _ Hd i f Hi), Hg; done).
  assert (Hoe : entries_ok C start fin (cl_entries f ++ [e])).
  { pose proof Hok as Hok'. rewrite (segment_split i f Hi) in Hok'.
    apply entries_ok_app in Hok' as (_ & Hok' & _). rewrite (drop_S fs g (S i) Hg), fmap_cons in Hok'. cbn [concat] in Hok'.
    destruct (cl_entries g) as [|e' es]; [done|]. injection He as ->.
    change (e :: es) with ([e] ++ es) in Hok'. rewrite <- app_assoc, (app_assoc (cl_entries f)) in Hok'.
    by apply entries_ok_app in Hok' as (? & _). }
  destruct (seg_upper_spec C HC Hts start fin (cl_entries f) (cl_next f) e Hn Hoe) as (x & Hx & _ & H1 & H2 & H3 & _).
  rewrite Hn in *. exists e, x. by split_and!.
Qed.

Lemma outputs_ordered i k f g a b :
  (i < k)%nat → fs !! i = Some f → fs !! k = Some g → cl_out f = Some a → cl_out g = Some b →
  ¬ ile (smallest (meta b)) (largest (meta a)).
Proof using HC Hts Hok Hd.
  intros Hik Hi Hk Ha Hb. destruct (output_bounds i f a Hi Ha) as (_ & _ & _ & _ & Hu).
  destruct (output_bounds k g b Hk Hb) as (_ & _ & _ & Hl & _).
  destruct (lookup_lt_is_Some_2 fs (S i)) as [g' Hg']; [apply lookup_lt_Some in Hk; lia|].
  destruct (upper_next i f g' Hi Hg') as (e & x & He & Hx & Hnx & _). rewrite Hx in Hu. cbn in Hu.
  destruct (file_head k g Hk) as (e' & He' & Hin' & Hfe'); [lia|].
  assert (Hlow : seg_lower start (omap cl_out (take k fs)) (cl_entries g) = Some (ce_key e')).
  { unfold seg_lower. destruct (omap cl_out (take k fs)) eqn:Eo; [|by rewrite Hfe'].
    assert (a ∈ omap cl_out (take k fs)) as Hin; [|rewrite Eo in Hin; by apply not_elem_of_nil in Hin].
    apply list_elem_of_omap. exists f. split; [|done]. apply list_elem_of_lookup. exists i.
    by rewrite lookup_take_lt. }
  rewrite Hlow in Hl. cbn in Hl.
  assert (Hee : ile (ce_key e) (ce_key e')); [|intros ?; apply Hnx; order (cmp_le (@InternalKeyCompare C))].
  destruct (decide (k = S i)) as [->|Hne].
  { rewrite Hg' in Hk. injection Hk as <-. rewrite He in He'. injection He' as <-. order (cmp_le (@InternalKeyCompare C)). }
  assert (Hbf : before C e e').
  { apply (files_before (S i) k g' g); [lia|done|done| |done]. destruct (cl_entries g'); [done|]. injection He as ->. by left. }
  unfold before in Hbf. order (cmp_le (@InternalKeyCompare C)).
Qed.

(** ** The file responsible for a key *)

(** [q] is a key of the range of the subcompaction, older than its entries for
    the same user key: a key of a level below. *)
Definition older_key (q : key) : Prop :=
  ExtractInternalKeyFooter q <= kRangeTombstoneSentinel ∧
  (∀ b, start = Some b → ule b (uk q)) ∧ (∀ x, fin = Some x → ¬ ule x (uk q)) ∧
  ∀ e, e ∈ entries → ule (uk (ce_key e)) (uk q) → ule (uk q) (uk (ce_key e)) → ile (ce_key e) q.

Definition starts_by (q : key) (i : nat) : Prop :=
  i = 0%nat ∨ match fs !! i with Some f => ile (seg_first (cl_entries f)) q | None => False end.

#[local] Instance starts_by_dec q i : Decision (starts_by q i).
Proof using Type. unfold starts_by. destruct (fs !! i); apply _. Defined.

Lemma last_start q n : ∃ i, (i <= n)%nat ∧ starts_by q i ∧ ∀ k, (i < k <= n)%nat → ¬ starts_by q k.
Proof using Type.
  induction n as [|n (i & Hi & Hs & Hn)]; [exists 0%nat; split_and!; [done|by left|lia]|].
  destruct (decide (starts_by q (S n))) as [H|H]; [exists (S n); split_and!; [done|done|lia]|].
  exists i. split_and!; [lia|done|]. intros k Hk. destruct (decide (k = S n)) as [->|]; [done|]. apply Hn. lia.
Qed.

Lemma file_lower q i f : older_key q → starts_by q i → fs !! i = Some f →
  from_lower C (seg_lower start (omap cl_out (take i fs)) (cl_entries f)) q ∧ own C (take i fs = []) (cl_entries f) (uk q).
Proof using HC Hok Hd.
  intros (Hf & Hb & _) Hs Hi.
  assert (Hlow : from_lower C (user_bound start) q).
  { unfold user_bound. destruct start as [b|]; [|done]. apply (user_bound_le C HC); [by apply Hb|lia]. }
  destruct Hs as [->|Hs]; [split; [done|by left]|]. rewrite Hi in Hs. split.
  - unfold seg_lower. by destruct (omap cl_out (take i fs)).
  - destruct i as [|i]; [by left|right]. intros e He. destruct (cl_entries f); [done|]. injection He as ->.
    by apply (internal_le_user C HC).
Qed.

Lemma file_upper q i f : older_key q → fs !! i = Some f → ¬ starts_by q (S i) →
  let upper := seg_upper C fin (cl_entries f) (cl_next f) in
  to_upper C upper q ∧ ∀ x, upper = Some x → ¬ ule (uk x) (uk q).
Proof using HC Hts Hok Hd.
  intros (_ & _ & Hf & Hold) Hi Hs. cbn zeta. destruct (fs !! S i) as [g|] eqn:Eg.
  - destruct (upper_next i f g Hi Eg) as (e & x & He & Hx & _ & Hx1 & Hx2).
    assert (Hq : ¬ ile (ce_key e) q).
    { intros Hle. apply Hs. right. rewrite Eg. destruct (cl_entries g); [done|]. by injection He as ->. }
    assert (Hin : e ∈ entries).
    { rewrite (segment_split (S i) g Eg), !elem_of_app. right. left. destruct (cl_entries g); [done|]. injection He as ->. by left. }
    assert (Hu : ¬ ule (uk (ce_key e)) (uk q)).
    { intros Hu. apply Hq, Hold; [done..|]. apply (internal_le_user C HC). order (cmp_le (@InternalKeyCompare C)). }
    rewrite Hx. split.
    + apply (ikey_le_iff C HC). left. intros ?. apply Hu. order (cmp_le (@Compare C)).
    + intros y [= <-] ?. apply Hu. order (cmp_le (@Compare C)).
  - rewrite (rd_next _ _ _ _ _ _ _ _ _ _ Hd i f Hi), Eg. cbn [seg_upper]. unfold user_bound. destruct fin as [x|]; [|done].
    split; [apply (le_user_bound C HC); by apply Hf|]. intros y [= <-]. rewrite uk_internal. by apply Hf.
Qed.

(** The file that holds the tombstones of [q]. *)
Lemma responsible_file q :
  older_key q → fs ≠ [] → ∃ i f, fs !! i = Some f ∧
    from_lower C (seg_lower start (omap cl_out (take i fs)) (cl_entries f)) q ∧
    own C (take i fs = []) (cl_entries f) (uk q) ∧
    to_upper C (seg_upper C fin (cl_entries f) (cl_next f)) q ∧
    ∀ x, seg_upper C fin (cl_entries f) (cl_next f) = Some x → ¬ ule (uk x) (uk q).
Proof using HC Hts Hok Hd.
  intros Hq Hne. destruct (last_start q (length fs - 1)) as (i & Hi & Hs & Hn).
  destruct (lookup_lt_is_Some_2 fs i) as [f Hf]; [destruct fs; [done|cbn in *; lia]|].
  exists i, f. split; [done|]. destruct (file_lower q i f Hq Hs Hf) as [? ?].
  destruct (file_upper q i f Hq Hf) as [? ?]; [|by split_and!].
  destruct (decide (S i <= length fs - 1)%nat); [by apply Hn; lia|]. intros [?|Hx]; [lia|].
  rewrite lookup_ge_None_2 in Hx by lia. done.
Qed.

(** The part of a tombstone that deletes [q], in a file whose bounds contain
    it. *)
Lemma part_of_key lower upper t q :
  (∀ l, lower = Some l → bound_ok l) → tombstone_ok C t →
  from_lower C lower q → to_upper C upper q → deletes C t q →
  ∀ a b, tombstone_range lower upper t = Some (a, b) →
  ile a q ∧ ile q b ∧ ((∀ x, upper = Some x → ¬ ule (uk x) (uk q)) → ¬ ule (uk b) (uk q)).
Proof using HC Hts.
  clear Hok Hd. intros Hl Ht Hq1 Hq2 Hdel a b Hr.
  assert (Hlu : ∀ l x, lower = Some l → upper = Some x → ile l x).
  { intros l x -> ->. cbn in Hq1, Hq2. order (cmp_le (@InternalKeyCompare C)). }
  assert (Hre : reaches C lower t).
  { apply (end_reaches C HC Hts lower upper Hl Hlu t Ht). destruct (match lower with Some _ => _ | None => _ end) eqn:Er; [|done].
    by destruct (not_reaching C HC Hts lower upper Hl Hlu t q Ht Er Hq1). }
  destruct (range_spec C HC Hts lower upper Hl Hlu t a b Ht Hre Hr) as (_ & _ & _ & Hab).
  destruct (Hab q Hq1 Hq2 Hdel) as [Ha Hb]. split_and!; [done..|]. intros Hup.
  unfold tombstone_range in Hr. destruct (above _ upper); [done|]. injection Hr as _ <-.
  destruct (above (SerializeEndKey t) upper) eqn:Ea.
  - unfold above in Ea. destruct upper as [x|]; [|done]. by apply Hup.
  - unfold SerializeEndKey. rewrite uk_internal. apply Hdel.
Qed.

Lemma tombstone_kept agg t q :
  SupportsPerKeyPlacement c = false → range_del_agg = Some agg → aggregator_ok C E →
  (∀ lower upper, from_lower C lower q → to_upper C upper q → t ∈ agg lower upper) →
  older_key q → deletes C t q → fs ≠ [] →
  (∃ out, out ∈ outputs_ s ∧ SerializeTombstone t ∈ contents out ∧
     ile (smallest (meta out)) q ∧ ile q (largest (meta out))) ∨
  seq_ t <= earliest_snapshot_ ∧ (c_bottommost_level c = true ∨ no_key_below C c v (uk q)).
Proof using HC Hts Hok Hd.
  intros Hpl Hagg Hfrag Hin Hq Hdel Hne.
  destruct (responsible_file q Hq Hne) as (i & f & Hi & Hlow & Hown & Hup & Hux).
  set (lower := seg_lower _ _ _) in *. set (upper := seg_upper _ _ _ _) in *.
  specialize (Hin lower upper Hlow Hup). destruct (Hfrag agg lower upper Hagg) as [Hall _].
  rewrite Forall_forall in Hall. pose proof (Hall t Hin) as Ht.
  pose proof (rd_files _ _ _ _ _ _ _ _ _ _ Hd i f Hi) as [Hco (kept & m & Hts' & Hf)].
  assert (Hl : ∀ l, lower = Some l → bound_ok l).
  { intros l El. apply (seg_lower_ok C start fin (omap cl_out (take i fs)) (cl_entries f) l); [by eapply file_entries_ok|done|done]. }
  pose proof (part_of_key lower upper t q Hl Ht Hlow Hup Hdel) as Hpart.
  unfold tombstones_of in Hts'. rewrite Hagg in Hts'. fold lower upper in Hts', Hf. destruct Hts' as [_ Hk Hcomp].
  destruct (Hcomp t q) as [Hkt|[Hs Hobs]]; [done| |done..| |].
  - unfold in_keep, keep_seqno_range. rewrite Hpl. apply Ht.
  - left. destruct (cl_out f) as [out|] eqn:Eo; [|destruct Hf as [_ ->]; by apply not_elem_of_nil in Hkt].
    destruct Hf as (Hm & _ & Hc & _). rewrite Forall_forall in Hk. exists out. split_and!.
    + rewrite (rd_outputs _ _ _ _ _ _ _ _ _ _ Hd). apply list_elem_of_omap. exists f. split; [by eapply list_elem_of_lookup_2|done].
    + rewrite Hc, elem_of_app. right. by apply list_elem_of_fmap_2.
    + destruct (Hk t Hkt) as (a & b & Hr & Hcov). destruct (Hpart a b Hr) as (Ha & _).
      apply (covers_same_bounds C _ _ _ _ _ Hm) in Hcov as (_ & _ & Hcov & _). order (cmp_le (@InternalKeyCompare C)).
    + destruct (Hk t Hkt) as (a & b & Hr & Hcov). destruct (Hpart a b Hr) as (_ & Hb & _).
      apply (covers_same_bounds C _ _ _ _ _ Hm) in Hcov as (_ & _ & _ & Hcov & _). order (cmp_le (@InternalKeyCompare C)).
  - right. split; [done|]. destruct Hobs as [Hobs|(a & b & Hr & Hobs)]; [by left|right].
    destruct (Hpart a b Hr) as (Ha & _ & Hb). apply Hobs; [done|by apply (internal_le_user C HC)|by apply Hb].
Qed.
End done.

Lemma run_files_only ev entries j sub j' sub' :
  runs ev entries sub →
  ProcessKeyValueCompaction c o v start fin ev entries j sub = (j', sub') → sub_status sub' = Ok →
  ∃ fs, run_done C E c v start fin false (filter (counted c) entries) fs (compaction_outputs_ sub') ∧
    (range_del_agg ≠ None → fs ≠ []).
Proof using HC Hts.
  intros Hr Hp Hst. destruct (run_files (λ _ _, True) ev entries j sub j' sub') as (fs & Hd & Hfs); try done.
  exists fs. split; [done|]. intros Hagg. by destruct Hfs as [[_ ?]|[? _]].
Qed.

(** An output is a complete file with these records. *)
Record output_holds (out : Output) (records : list entry) (tombstones : list RangeTombstone) : Prop := {
  oh_contents : contents out = records ++ (SerializeTombstone <$> tombstones);
  oh_nonempty : contents out ≠ [];
  oh_finished : finished out = true;
  oh_written : file_written E (GetNumber (meta out)) (contents out) (meta out);
  oh_covers : Forall (λ p, covers C (meta out) p.1 p.1 (GetInternalKeySeqno p.1)) records;
}.

Lemma outputs_hold entries fs s :
  run_done C E c v start fin false entries fs s →
  ∃ parts, Forall2 (λ out p, output_holds out p.1 p.2) (outputs_ s) parts ∧ concat parts.*1 = points entries.
Proof using Type.
  intros Hd. rewrite (rd_outputs _ _ _ _ _ _ _ _ _ _ Hd), <- (rd_entries _ _ _ _ _ _ _ _ _ _ Hd).
  assert (Hfs : Forall (λ f, match cl_out f with None => points (cl_entries f) = [] | Some out =>
    ∃ kept, output_holds out (points (cl_entries f)) kept end) fs).
  { apply Forall_lookup. intros i f Hi. pose proof (rd_files _ _ _ _ _ _ _ _ _ _ Hd i f Hi) as [_ (kept & m & _ & Hf)].
    destruct (cl_out f); [|by destruct Hf]. exists kept. destruct Hf as (_ & H1 & H2 & H3 & _ & H4 & H5). by split. }
  clear Hd. induction Hfs as [|f fs Hf Hfs (parts & IH1 & IH2)]; [exists []; by split; [constructor|]|].
  assert (Hp : points (cl_entries f ++ concat (cl_entries <$> fs)) = points (cl_entries f) ++ concat parts.*1).
  { rewrite IH2. unfold points. by rewrite filter_app, fmap_app. }
  rewrite fmap_cons. cbn [concat omap list_omap]. rewrite Hp. destruct (cl_out f) as [out|].
  - destruct Hf as [kept Hf]. exists ((points (cl_entries f), kept) :: parts). by split; [constructor|].
  - rewrite Hf. by exists parts.
Qed.

(** C26. A subcompaction that succeeds writes everything and nothing else: the
    point entries of its output files, read one file after the other, are
    exactly the entries the compaction iterator returned; after them a file has
    only range tombstones.  Every output file is non-empty, finished, synced and
    closed without an error, and its metadata covers all its entries. *)
Theorem compaction_output_complete ev entries j sub j' sub' :
  runs ev entries sub →
  ProcessKeyValueCompaction c o v start fin ev entries j sub = (j', sub') → sub_status sub' = Ok →
  ∃ parts, Forall2 (λ out p, output_holds out p.1 p.2) (outs sub') parts ∧ concat parts.*1 = points entries.
Proof using HC Hts.
  intros Hr Hp Hst. destruct (run_files_only _ _ _ _ _ _ Hr Hp Hst) as (fs & Hd & _).
  rewrite <- points_counted. by eapply outputs_hold.
Qed.

(** C27. The output files of a subcompaction are in order and disjoint as the
    level needs them: the bounds of every file are set, and its largest key is
    before the smallest key of all files after it, also where a range tombstone
    or the versions of one user key go on in the next file. *)
Theorem compaction_outputs_ordered ev entries j sub j' sub' :
  runs ev entries sub →
  ProcessKeyValueCompaction c o v start fin ev entries j sub = (j', sub') → sub_status sub' = Ok →
  Forall (λ out, smallest (meta out) ≠ [] ∧ largest (meta out) ≠ [] ∧
                 ile (smallest (meta out)) (largest (meta out))) (outs sub') ∧
  StronglySorted (λ a b, ¬ ile (smallest (meta b)) (largest (meta a))) (outs sub').
Proof using HC Hts.
  intros Hr Hp Hst. destruct (run_files_only _ _ _ _ _ _ Hr Hp Hst) as (fs & Hd & _).
  pose proof (entries_ok_filter C start fin (counted c) entries (rn_entries _ _ _ Hr)) as Hok. split.
  - apply Forall_forall. intros out Ho. destruct (file_of_output _ _ _ Hd out Ho) as (i & f & Hi & Hf).
    destruct (output_bounds _ _ _ Hd i f out Hi Hf) as (? & ? & ? & _). done.
  - rewrite (rd_outputs _ _ _ _ _ _ _ _ _ _ Hd). apply omap_sorted. intros i k f g a b. by eapply outputs_ordered.
Qed.

(** C28. No range tombstone gets lost between output files: let [q] be a key of
    the range that is older than all entries written for its user key, such as
    the keys of the levels below.  A tombstone that deletes [q] is in an output
    file whose bounds contain [q]; or no snapshot needs it any more, and the
    output level is the last one or no file below it can hold the user key. *)
Theorem range_tombstones_kept ev entries j sub j' sub' agg t q :
  runs ev entries sub →
  ProcessKeyValueCompaction c o v start fin ev entries j sub = (j', sub') → sub_status sub' = Ok →
  range_del_agg = Some agg →
  (∀ lower upper, from_lower C lower q → to_upper C upper q → t ∈ agg lower upper) →
  older_key entries q → deletes C t q →
  (∃ out, out ∈ outs sub' ∧ SerializeTombstone t ∈ contents out ∧
     ile (smallest (meta out)) q ∧ ile q (largest (meta out))) ∨
  seq_ t <= earliest_snapshot_ ∧ (c_bottommost_level c = true ∨ no_key_below C c v (uk q)).
Proof using HC Hts.
  intros Hr Hp Hst Hagg Hin Hq Hdel. destruct (run_files_only _ _ _ _ _ _ Hr Hp Hst) as (fs & Hd & Hne).
  destruct Hr as [_ _ Hok Hfrag Hpl _ _]. apply (tombstone_kept (filter (counted c) entries) fs) with agg; try done.
  - by apply entries_ok_filter.
  - destruct Hq as (Q1 & Q2 & Q3 & Q4). split_and!; [done..|]. intros e [_ He]%list_elem_of_filter. by apply Q4.
  - apply Hne. by rewrite Hagg.
Qed.

(** ** Where files are cut *)

(** The segment of entries a file was made of. *)
Definition file_of (seg : list CompactionEntry) (out : option Output) : Prop :=
  match out with
  | Some out => ∃ tombstones, contents out = points seg ++ (SerializeTombstone <$> tombstones)
  | None => points seg = []
  end.

Definition last_entry_key (seg : list CompactionEntry) : key :=
  match last seg with Some e => ce_key e | None => [] end.

(** Entry [e] after [pre] in one file: the file was below its size limit, and
    where an end of a file of the next level lies in between, the file together
    with the files of the next level it overlaps up to [e] stays within the
    limit for a later compaction. *)
Definition step_within (pre : list CompactionEntry) (e : CompactionEntry) : Prop :=
  seg_size E pre < c_max_output_file_size c ∧
  ((ends_before C c (last_entry_key pre) < ends_before C c (ce_key e))%nat →
   overlapped_size C c (seg_first pre) (ce_key e) +64 seg_size E pre <= c_max_compaction_bytes c).
Definition seg_within (seg : list CompactionEntry) : Prop :=
  ∀ pre e post, seg = pre ++ e :: post → pre ≠ [] → step_within pre e.

Lemma seg_within_single e : seg_within [e].
Proof using Type. intros [|x pre] e' post Heq Hne; [done|]. by destruct pre. Qed.

Lemma seg_within_snoc seg e : seg_within seg → (seg ≠ [] → step_within seg e) → seg_within (seg ++ [e]).
Proof using Type.
  intros Hs He pre e' post Heq Hne. destruct post as [|x post _] using rev_ind.
  - apply app_inj_tail in Heq as [<- <-]. by apply He.
  - rewrite app_comm_cons, app_assoc in Heq. apply app_inj_tail in Heq as [-> _]. by eapply Hs.
Qed.

Definition cut_inv (segs : list (list CompactionEntry)) (s : CompactionOutputs) : Prop :=
  Forall seg_within segs ∧
  ∀ cur, last segs = Some cur →
    if decide (cur = []) then grandparent s = NewGrandparentState
    else grandparent_ok C c (seg_first cur) (last_entry_key cur) (grandparent s).

Lemma entry_sst es a b :
  entries_ok C start fin es → a ∈ es → b ∈ es → ile (ce_key a) (ce_key b) → cmp_le (@sstableKeyCompare C) (ce_key a) (ce_key b).
Proof using HC Hts.
  intros [Hok _] Ha Hb. rewrite Forall_forall in Hok.
  destruct (Hok a Ha) as (_ & Fa & _), (Hok b Hb) as (_ & Fb & _).
  apply (internal_sst C HC _ _ Hts); unfold bound_ok; lia.
Qed.

(** The first and the last key of a file and the next one are in order. *)
Lemma seg_order cur e :
  entries_ok C start fin (cur ++ [e]) → cur ≠ [] →
  cmp_le (@sstableKeyCompare C) (seg_first cur) (last_entry_key cur) ∧
  cmp_le (@sstableKeyCompare C) (last_entry_key cur) (ce_key e).
Proof using HC Hts.
  intros Hok Hne. destruct cur as [|l cur _] using rev_ind; [done|]. unfold last_entry_key. rewrite last_snoc.
  pose proof (entries_ok_app _ _ _ _ _ Hok) as (Hcur & _ & Hbe).
  assert (Hl : l ∈ cur ++ [l]) by (apply elem_of_app; right; by left).
  assert (Hf : ∃ f, f ∈ cur ++ [l] ∧ seg_first (cur ++ [l]) = ce_key f).
  { destruct cur as [|f cur]; [exists l; split; [by left|done]|exists f; split; [by left|done]]. }
  destruct Hf as (f & Hf & ->). split.
  - apply (entry_sst _ _ _ Hcur Hf Hl). apply entries_ok_app in Hcur as (Hc & _ & Hcl).
    apply elem_of_app in Hf as [Hf| ->%list_elem_of_singleton]; [|order (cmp_le (@InternalKeyCompare C))].
    specialize (Hcl f l Hf ltac:(by left)). unfold before in Hcl. order (cmp_le (@InternalKeyCompare C)).
  - apply (entry_sst _ _ _ Hok); [by apply elem_of_app; left|by apply elem_of_app; right; left|].
    specialize (Hbe l e Hl ltac:(by left)). unfold before in Hbe. order (cmp_le (@InternalKeyCompare C)).
Qed.

Lemma cut_inv_kept :
  (0 < c_output_level c)%nat → level_sorted C (c_grandparents c) → kept_by_steps C E c o start fin cut_inv.
Proof using HC Hts.
  intros Hlev Hgs segs cur e s s1 stop s' Hok [Hw Hg] Hsz Hb Hnil Hstop Hg' _ _.
  apply Forall_app in Hw as [Hw Hcur]. apply (proj1 (Forall_singleton _ _)) in Hcur. specialize (Hg cur (last_snoc _ _)).
  apply entries_ok_app in Hok as (_ & Hok & _).
  pose proof (should_stop_files c o (ce_key e) s) as Hsf. rewrite Hstop in Hsf. destruct Hsf as (_ & Hsb & Hg1).
  rewrite (proj2 (Nat.ltb_lt _ _) Hlev) in Hg1. destruct (decide (cur = [])) as [->|Hne].
  - pose proof (grandparent_first C HC c Hgs (ce_key e) (grandparent s) Hg) as Hgf.
    destruct stop; [by apply Hb in Hsb|]. rewrite Hg1 in Hg'.
    destruct (UpdateGrandparentBoundaryInfo c (ce_key e) (grandparent s)) as [g n]. destruct Hgf as [Hgf _].
    split; [apply Forall_app; split; [done|]; apply Forall_singleton, seg_within_single|].
    intros cur'. rewrite last_snoc. intros [= <-]. rewrite decide_False by done. by rewrite Hg'.
  - destruct (seg_order cur e Hok Hne) as [H1 H2].
    pose proof (grandparent_next C HC c Hgs _ _ (ce_key e) (grandparent s) Hg H1 H2) as Hgn.
    pose proof (should_continue c o (ce_key e) s s1) as Hcont.
    destruct (UpdateGrandparentBoundaryInfo c (ce_key e) (grandparent s)) as [g n]. cbn [fst snd] in *. destruct Hgn as [Hgn ->].
    destruct stop.
    + split; [apply Forall_app; split; [done|]; apply Forall_cons; split; [done|]; apply Forall_singleton, seg_within_single|].
      intros cur'. change [cur; [e]] with ([cur] ++ [[e]]). rewrite app_assoc, last_snoc. intros [= <-]. rewrite decide_False by done. rewrite Hg', Hg1.
      by eapply grandparent_reset_ok.
    + split.
      * apply Forall_app; split; [done|]. apply Forall_singleton, seg_within_snoc; [done|]. intros _.
        destruct (Hcont Hstop) as [C1 C2]; [by apply Hb|done|]. rewrite Hsz in *. split; [done|]. intros Hlt.
        rewrite Hg1 in C2. rewrite <- (gp_overlapped _ _ _ _ _ Hgn). apply C2. lia.
      * intros cur'. rewrite last_snoc. intros [= <-]. rewrite decide_False by (by destruct cur).
        rewrite Hg', Hg1. unfold last_entry_key. rewrite last_snoc. by destruct cur.
Qed.

Lemma done_segments entries fs s :
  run_done C E c v start fin false entries fs s →
  Forall2 file_of (cl_entries <$> fs) (cl_out <$> fs) ∧ omap id (cl_out <$> fs) = outputs_ s.
Proof using Type.
  intros Hd. split.
  - apply Forall2_fmap_2. apply Forall_Forall2_diag, Forall_lookup. intros i f Hi.
    pose proof (rd_files _ _ _ _ _ _ _ _ _ _ Hd i f Hi) as [_ (kept & m & _ & Hf)]. unfold file_of.
    destruct (cl_out f) as [out|]; [|by destruct Hf]. destruct Hf as (_ & _ & Hc & _). by exists kept.
  - rewrite (rd_outputs _ _ _ _ _ _ _ _ _ _ Hd). clear Hd. induction fs as [|f fs IH]; [done|]. cbn.
    destruct (cl_out f); cbn; by rewrite IH.
Qed.

(** C29. Output files stay within their limits: below level 0, an entry is added
    to a file that has entries only while the file is smaller than the largest
    output size; and where the file has reached the range of another file of the
    next level, only while its size together with the sizes of all files of the
    next level it then overlaps is at most the limit of a compaction.  The sizes
    are those of exactly the overlapped files, although the code only keeps a
    running sum. *)
Theorem output_cut_bounds ev entries j sub j' sub' :
  runs ev entries sub → (0 < c_output_level c)%nat → level_sorted C (c_grandparents c) →
  ProcessKeyValueCompaction c o v start fin ev entries j sub = (j', sub') → sub_status sub' = Ok →
  ∃ segs files, concat segs = filter (counted c) entries ∧ Forall2 file_of segs files ∧
    omap id files = outs sub' ∧ Forall seg_within segs.
Proof using HC Hts.
  intros Hr Hlev Hgs Hp Hst.
  destruct (run_files cut_inv ev entries j sub j' sub' Hr) as (fs & Hd & Hfs); [by apply cut_inv_kept| |done|done|].
  - destruct Hr as [[_ _ _ _ _ Hg _] _ _ _ _ _ _]. split; [apply Forall_singleton; by intros [|? []] ? ? Heq|].
    intros cur [= <-]. by rewrite decide_True.
  - destruct (done_segments _ _ _ Hd) as [H1 H2]. exists (cl_entries <$> fs), (cl_out <$> fs).
    split_and!; [exact (rd_entries _ _ _ _ _ _ _ _ _ _ Hd)|done|done|].
    destruct Hfs as [[-> _]|(_ & s & Hw & _)]; [constructor|done].
Qed.

(** ** Buckets *)

Section buckets.
Context (snap : BucketSnapshot).

(** Compaction from level 0 to level 1 with bucket flushes. *)
Definition bucket_mode : Prop := c_start_level c = 0%nat ∧ c_output_level c = 1%nat ∧ use_new_flush o = 1.

Definition bucket_of (e : CompactionEntry) : Z := FindBucketInSnapshot snap (uk (ce_key e)).

(** While a file is at most this large it is cut at buckets. *)
Definition split_limit : Z := (c_target_output_file_size c *64 110) / 100.

(** The pairs of neighbours in one file where that is so. *)
Definition pair_step (pre : list CompactionEntry) (e : CompactionEntry) : list (CompactionEntry * CompactionEntry) :=
  match last pre with
  | Some p => if seg_size E pre <=? split_limit then [(p, e)] else []
  | None => []
  end.
Fixpoint pairs_after (pre rest : list CompactionEntry) : list (CompactionEntry * CompactionEntry) :=
  match rest with
  | [] => []
  | e :: rest' => pair_step pre e ++ pairs_after (pre ++ [e]) rest'
  end.
Definition inner_pairs (segs : list (list CompactionEntry)) : list (CompactionEntry * CompactionEntry) :=
  concat (pairs_after [] <$> segs).

Lemma pairs_after_snoc pre rest e : pairs_after pre (rest ++ [e]) = pairs_after pre rest ++ pair_step (pre ++ rest) e.
Proof using Type.
  revert pre. induction rest as [|x rest IH]; intros pre; cbn; [by rewrite !app_nil_r|].
  by rewrite IH, <- !app_assoc.
Qed.

Lemma inner_pairs_snoc segs cur e : inner_pairs (segs ++ [cur ++ [e]]) = inner_pairs (segs ++ [cur]) ++ pair_step cur e.
Proof using Type.
  unfold inner_pairs. rewrite !fmap_app, !concat_app. cbn. by rewrite !app_nil_r, pairs_after_snoc, app_assoc.
Qed.

Lemma inner_pairs_cut segs cur e : inner_pairs (segs ++ [cur; [e]]) = inner_pairs (segs ++ [cur]).
Proof using Type. unfold inner_pairs. rewrite !fmap_app, !concat_app. done. Qed.

(** What the bucket cut decides and remembers. *)
Lemma should_stop_bucket k s s1 stop :
  bucket_mode → bucket_snapshot_ s = Some snap → HasBuilder s = true →
  ShouldStopBefore c o partitioner k s = (s1, stop) →
  let b := FindBucketInSnapshot snap (uk k) in let index := current_bucket_index_ s in
  bucket_snapshot_ s1 = Some snap ∧
  (current_bucket_index_ s1 = index ∧
     (stop = false → current_output_file_size_ s <= split_limit → index ≠ -1 ∧ b = index) ∨
   current_bucket_index_ s1 = b ∧ (stop = false → index = -1 ∨ b = index)).
Proof using Type.
  intros (M1 & M2 & M3) Hsnap Hb Hs. cbn zeta. unfold ShouldStopBefore, track in Hs.
  rewrite M2 in Hs. cbn [Nat.ltb Nat.leb Nat.eqb] in Hs.
  destruct (UpdateGrandparentBoundaryInfo _ _ _) as [g n], (UpdateFilesToCutForTTLStates _ _ _) as [t ttl].
  set (s0 := s <| grandparent := g |>) in Hs. set (s2 := s0 <| ttl_state := t |>) in Hs.
  assert (G : HasBuilder s2 = true ∧ bucket_snapshot_ s2 = Some snap ∧
    current_bucket_index_ s2 = current_bucket_index_ s ∧ current_output_file_size_ s2 = current_output_file_size_ s) by done.
  clearbody s2. clear s0. destruct G as (G1 & G2 & G3 & G4). rewrite G1 in Hs. cbn [negb] in Hs.
  destruct ttl; [injection Hs as <- <-; split; [done|by left]|].
  destruct (should_partition _ _ _ _); [injection Hs as <- <-; split; [done|by left]|].
  destruct (bucket_cut c o k s2) as [s3 cut] eqn:Ec.
  assert (Hafter : current_bucket_index_ s1 = current_bucket_index_ s3 ∧ bucket_snapshot_ s1 = bucket_snapshot_ s3 ∧
    (cut = true → stop = true)).
  { destruct cut; [injection Hs as <- <-; by split_and!|].
    destruct (_ <=? _); [injection Hs as <- <-; by split_and!|]. destruct (cursor_cut _ _); injection Hs as <- <-; by split_and!. }
  clear Hs. destruct Hafter as (H1 & H2 & Hcut). rewrite H1, H2. clear H1 H2.
  unfold bucket_cut in Ec. rewrite M1, M2, M3, G2, G3, G4 in Ec. cbn [Nat.eqb Z.eqb negb andb Pos.eqb] in Ec. fold split_limit in Ec.
  destruct (Z.leb_spec (current_output_file_size_ s) split_limit); [|injection Ec as <- <-; split; [done|left; split; [done|lia]]].
  destruct (Z.eqb_spec (current_bucket_index_ s) (-1)); [injection Ec as <- <-; split; [done|right; by split; [|left]]|].
  destruct (Z.eqb_spec (FindBucketInSnapshot snap (uk k)) (current_bucket_index_ s)); cbn [negb] in Ec.
  - injection Ec as <- <-. split; [done|]. right. split; [congruence|by right].
  - injection Ec as <- <-. split; [done|]. right. split; [done|]. intros ->. by specialize (Hcut eq_refl).
Qed.

(** The buckets are numbered in the order of the user keys. *)
Context (Hindex : ∀ u, 0 <= FindBucketInSnapshot snap u).
Context (Hmono : ∀ a b, ule a b → FindBucketInSnapshot snap a <= FindBucketInSnapshot snap b).

Definition same_bucket (p : CompactionEntry * CompactionEntry) : Prop := bucket_of p.1 = bucket_of p.2.

Record bucket_inv (segs : list (list CompactionEntry)) (s : CompactionOutputs) : Prop := {
  bi_snapshot : bucket_snapshot_ s = Some snap;
  bi_same : Forall same_bucket (tail (inner_pairs segs));
  bi_unset : current_bucket_index_ s = -1 → inner_pairs segs = [];
  bi_index : current_bucket_index_ s ≠ -1 →
    ∃ cur e, last segs = Some cur ∧ last cur = Some e ∧ current_bucket_index_ s <= bucket_of e;
}.

Lemma tail_snoc {A} (P : A → Prop) l x : Forall P (tail l) → (l ≠ [] → P x) → Forall P (tail (l ++ [x])).
Proof using Type.
  intros Hl Hx. destruct l as [|y l]; [constructor|]. cbn in *. apply Forall_app. split; [done|].
  apply Forall_singleton. by apply Hx.
Qed.

(** The bucket of a key that finds no open file is not noted. *)
Lemma no_builder_untracked k s s1 stop :
  HasBuilder s = false → ShouldStopBefore c o partitioner k s = (s1, stop) →
  current_bucket_index_ s1 = current_bucket_index_ s ∧ bucket_snapshot_ s1 = bucket_snapshot_ s.
Proof using Type.
  unfold ShouldStopBefore, track, HasBuilder. intros Hnb Hstop. destruct (0 <? c_output_level c)%nat;
    [destruct (UpdateGrandparentBoundaryInfo _ _ _), (UpdateFilesToCutForTTLStates _ _ _)|];
    cbn in Hstop; rewrite Hnb in Hstop; by injection Hstop as <- _.
Qed.

Lemma bucket_inv_kept : bucket_mode → kept_by_steps C E c o start fin bucket_inv.
Proof using HC Hindex Hmono.
  intros Hmode segs cur e s s1 stop s' Hok [I1 I2 I3 I4] Hsz Hb Hnil Hstop _ Hi' Hs'.
  pose proof (should_stop_files c o (ce_key e) s) as Hsf. rewrite Hstop in Hsf. destruct Hsf as (_ & Hsb & _).
  destruct (decide (cur = [])) as [->|Hne].
  { destruct stop; [by apply Hb in Hsb|].
    assert (Hnb : HasBuilder s = false) by (apply not_true_is_false; rewrite Hb; tauto).
    assert (Hidx : current_bucket_index_ s = -1).
    { destruct (decide (current_bucket_index_ s = -1)) as [|Hx]; [done|]. destruct (I4 Hx) as (cur & e' & Hc & He & _).
      rewrite last_snoc in Hc. injection Hc as <-. done. }
    destruct (no_builder_untracked _ _ _ _ Hnb Hstop) as [G1 G2]. rewrite (Hnil eq_refl).
    split; [congruence|constructor|done|congruence]. }
  destruct (last cur) as [p|] eqn:Ep; [|by apply last_None in Ep].
  assert (Hpe : bucket_of p <= bucket_of e).
  { apply Hmono. apply last_Some_elem_of in Ep. apply entries_ok_app in Hok as (_ & Hok & _).
    apply entries_ok_app in Hok as (_ & _ & Hbe). apply (internal_le_user C HC).
    specialize (Hbe p e Ep ltac:(by left)). unfold before in Hbe. order (cmp_le (@InternalKeyCompare C)). }
  assert (Hip : current_bucket_index_ s ≠ -1 → current_bucket_index_ s <= bucket_of p).
  { intros Hx. destruct (I4 Hx) as (cur' & e' & Hc & He & Hle). rewrite last_snoc in Hc. injection Hc as <-. congruence. }
  destruct (should_stop_bucket (ce_key e) s s1 stop Hmode I1) as [S1 S2]; [by apply Hb|done|]. fold (bucket_of e) in S2.
  assert (Hlast : ∃ cur' e', last (segs ++ (if stop then [cur; [e]] else [cur ++ [e]])) = Some cur' ∧ last cur' = Some e' ∧ e' = e).
  { destruct stop; [exists [e], e|exists (cur ++ [e]), e; rewrite !last_snoc; done].
    change [cur; [e]] with ([cur] ++ [[e]]). by rewrite app_assoc, last_snoc. }
  assert (Hle : current_bucket_index_ s' ≠ -1 → current_bucket_index_ s' <= bucket_of e).
  { rewrite Hi'. destruct S2 as [[-> _]|[-> _]]; [|lia]. intros Hx. specialize (Hip Hx). lia. }
  split; [by rewrite Hs'| | |intros Hx; destruct Hlast as (cur' & e' & L1 & L2 & ->); exists cur', e; auto].
  - destruct stop; [by rewrite inner_pairs_cut|]. rewrite inner_pairs_snoc. unfold pair_step. rewrite Ep.
    destruct (Z.leb_spec (seg_size E cur) split_limit) as [Hlim|]; [|by rewrite app_nil_r]. apply tail_snoc; [done|].
    intros Hpairs. unfold same_bucket. cbn [fst snd].
    destruct (decide (current_bucket_index_ s = -1)) as [Hx|Hx]; [destruct Hpairs; by apply I3|]. specialize (Hip Hx).
    destruct S2 as [[_ S2]|[_ S2]]; [destruct (S2 eq_refl) as [_ ?]; [congruence|lia]|].
    destruct (S2 eq_refl) as [?|?]; [done|lia].
  - intros Hx. pose proof (Hindex (uk (ce_key e))) as H0. fold (bucket_of e) in H0.
    destruct S2 as [[S2 S3]|[S2 _]]; [|lia]. destruct stop; [rewrite inner_pairs_cut; apply I3; congruence|].
    rewrite inner_pairs_snoc, I3 by congruence. unfold pair_step. rewrite Ep.
    destruct (Z.leb_spec (seg_size E cur) split_limit) as [Hlim|]; [|done].
    destruct (S3 eq_refl) as [? _]; [congruence|congruence].
Qed.
End buckets.

Lemma rank_mono bs a b : key_le a b → (rank bs a <= rank bs b)%nat.
Proof using Type.
  intros Hab. unfold rank. induction bs as [|k bs IH]; [done|]. rewrite !filter_cons.
  destruct (decide (key_le k a)), (decide (key_le k b)); cbn; try lia.
  destruct n. order (cmp_le slice_compare).
Qed.


(** ** Errors *)

Lemma finish_closes st next j s : 
  builder_ (FinishCompactionOutputFile c o v start fin st next j s).1.2 = None.
Proof using Type.
  unfold FinishCompactionOutputFile. destruct (FinishOutput _ _) as [s2 st2]. destruct (WriterSyncClose _ _ _) as [s4 io_s].
  destruct (_ && _); [done|]. by destruct (report_file _ _ _ _).
Qed.

Lemma close_closes st j s :
  let r := CloseOutput c o v start fin st j s in builder_ r.1.2 = None ∧ (st ≠ Ok → r.2 = st).
Proof using Type.
  cbn zeta. unfold CloseOutput. destruct (if _ : bool then _ else _) as [[j1 s1] st1] eqn:E1.
  assert (Hst : st ≠ Ok → st1 = st).
  { intros Hne. destruct (ok st) eqn:Eo; [by apply ok_true in Eo|]. cbn [andb] in E1. by injection E1. }
  unfold HasBuilder. destruct (builder_ s1) eqn:Eb; [|done].
  pose proof (finish_closes st1 [] j1 s1) as Hf. destruct (FinishCompactionOutputFile _ _ _ _ _ _ _ _ _) as [[j2 s2] st2].
  split; [done|]. intros Hne. cbn [snd]. rewrite Hst by done. unfold and_then.
  destruct (ok st) eqn:Eo; [by apply ok_true in Eo|done].
Qed.

(** C31. Errors are kept and files are closed: however the loop ends, with an
    error of the iterator, of a writer, or because the column family was dropped
    or the database shuts down, no output file is left open; and the status that
    ended the loop is the one reported, whatever happens when the files are
    closed.  A subcompaction succeeds only if the loop and all closing
    operations did. *)
Theorem compaction_errors_kept ev entries j sub :
  let '(_, sub') := ProcessKeyValueCompaction c o v start fin ev entries j sub in
  let '(_, _, st, n) := process_loop c o v start fin ev entries 0 j sub in
  builder_ (compaction_outputs_ sub') = None ∧
  (SupportsPerKeyPlacement c = true → builder_ (proximal_level_outputs_ sub') = None) ∧
  (loop_status ev n st ≠ Ok → sub_status sub' = loop_status ev n st) ∧ (st ≠ Ok → st ≠ ColumnFamilyDropped → loop_status ev n st = st).
Proof using Type.
  unfold ProcessKeyValueCompaction. destruct (process_loop _ _ _ _ _ _ _ _ _ _) as [[[j1 sub1] st] n].
  set (ls := loop_status ev n st). unfold CloseCompactionFiles.
  assert (Hls : st ≠ Ok → st ≠ ColumnFamilyDropped → ls = st).
  { intros H1 H2. unfold ls, loop_status. by destruct st. }
  destruct (if SupportsPerKeyPlacement c then _ else _) as [[j2 p] st1] eqn:E1.
  assert (Hp : (SupportsPerKeyPlacement c = true → builder_ p = None) ∧ (ls ≠ Ok → st1 = ls)).
  { destruct (SupportsPerKeyPlacement c); [|by injection E1 as <- <- <-].
    pose proof (close_closes ls j1 (proximal_level_outputs_ sub1)) as Hc. rewrite E1 in Hc. by destruct Hc. }
  pose proof (close_closes st1 j2 (compaction_outputs_ sub1)) as Hc.
  clear E1. destruct (CloseOutput c o v start fin st1 j2 (compaction_outputs_ sub1)) as [[j3 s] st2]. destruct Hp as [Hp1 Hp2], Hc as [Hc1 Hc2].
  cbv beta iota zeta. cbn [fst snd compaction_outputs_ proximal_level_outputs_ sub_status] in *.
  split_and!; [done|done| |done]. intros Hne. assert (st2 = ls) as -> by (rewrite Hc2; rewrite Hp2; done).
  destruct (blob_builder_finish ev); [|done]. unfold and_then. destruct (ok ls) eqn:Eo; [by apply ok_true in Eo|done].
Qed.
End result.

(** ** Samples *)

#[local] Existing Instance BytewiseComparator.

(** Every record takes 20 bytes, and nothing fails. *)
Definition sample_job_env (agg : option (option key → option key → list RangeTombstone)) : JobEnv := {|
  EstimatedFileSize records := 20 * Z.of_nat (length records);
  builder_Finish _ := Ok;
  builder_io_status _ := Ok;
  builder_info records _ := mkTableInfo (20 * Z.of_nat (length records)) 0 false;
  timestamps_persisted := true;
  partitioner := None;
  NewWritableFile _ := Ok;
  PrepareIOOptions := Ok;
  SyncFile _ := Ok;
  CloseFile _ := Ok;
  FileChecksum _ := [];
  FileChecksumFuncName _ := [];
  UniqueId number := Some (number, number);
  OnAddFile := None;
  range_del_agg := agg;
  ApproximateCoveredSize _ _ := 0;
  times := sample_env;
  earliest_snapshot_ := 10;
  proximal_after_seqno_ := kMaxSequenceNumber;
  output_temperature := 0;
  last_level_temperature := 0;
|}.

(** From level 0 to level 1, files of up to 40 bytes. *)
Definition sample_job_compaction : Compaction :=
  mkCompaction 0 0 1 40 60 1000 3 0 1 false [] [sample_file 7 x62 x64] false false kLevelL0FilesNum [x61] [x7a]
    None None 0 [].

Definition sample_entry (u : byte) (seq : Z) : CompactionEntry :=
  mkCEntry (InternalKey [u] seq kTypeValue) [u] false Ok.

Definition sample_events : LoopEvents := mkEvents (λ _, false) (λ _, false) false false Ok Ok None.

Definition sample_sub : SubcompactionState :=
  let new := NewCompactionOutputs sample_job_compaction sample_options sample_env 0 0 (Some sample_manager) in
  mkSub (new false) (new true) Ok.

Definition sample_run (agg : option (option key → option key → list RangeTombstone)) (entries : list CompactionEntry)
    : JobState * SubcompactionState :=
  @ProcessKeyValueCompaction BytewiseComparator (sample_job_env agg) sample_job_compaction sample_options sample_prepared
    None None sample_events entries (mkJob 10 Ok [] None) sample_sub.

(** The keys of the output files. *)
Definition run_keys (r : JobState * SubcompactionState) : list (list key) :=
  (λ out, ExtractUserKey <$> (contents out).*1) <$> outputs_ (compaction_outputs_ r.2).


(** ** Witnesses *)

Lemma sample_below l : (1 < l)%nat → starts_sorted BytewiseComparator (LevelFiles sample_prepared l).
Proof.
  intros Hl. destruct l as [|[|[|l]]]; [lia|lia| |apply SSorted_nil].
  apply SSorted_cons; [apply SSorted_nil|apply Forall_nil_2].
Qed.

Definition sample_entries : list CompactionEntry := [sample_entry x61 5; sample_entry x63 4; sample_entry x65 3].
Definition sample_tombstone : RangeTombstone := mkTombstone [x62] [x64] 2.
Definition sample_agg : option (option key → option key → list RangeTombstone) := Some (λ _ _, [sample_tombstone]).

Ltac eval_sorted :=
  repeat first [apply SSorted_nil | apply Forall_nil_2 | apply SSorted_cons | apply Forall_cons_2];
  try (intros Hle; apply Hle; vm_compute; reflexivity).

Lemma sample_runs (agg : option (option key → option key → list RangeTombstone)) entries :
  entries_ok BytewiseComparator None None entries → aggregator_ok BytewiseComparator (sample_job_env agg) →
  runs BytewiseComparator (sample_job_env agg) sample_job_compaction sample_prepared None None
    sample_events entries sample_sub.
Proof.
  intros He Ha. split; [apply new_outputs_fresh|exact sample_below|done|done|done|done|done].
Qed.

Lemma sample_entries_ok : entries_ok BytewiseComparator None None sample_entries.
Proof.
  split; [|unfold sample_entries; eval_sorted].
  repeat first [apply Forall_nil_2 | apply Forall_cons_2]; (split; [vm_compute; lia|split; [vm_compute; reflexivity|done]]).
Qed.

Lemma sample_aggregator : aggregator_ok BytewiseComparator (sample_job_env sample_agg).
Proof.
  intros agg lower upper [= <-]. split; [|eval_sorted].
  apply Forall_cons_2; [|apply Forall_nil_2]. split; [intros Hgt; vm_compute in Hgt; by destruct Hgt|vm_compute; split; [discriminate|reflexivity]].
Qed.

Lemma compaction_output_complete_witness :
  ∃ parts, Forall2 (λ out p, output_holds BytewiseComparator (sample_job_env sample_agg) out p.1 p.2)
    (outputs_ (compaction_outputs_ (sample_run sample_agg sample_entries).2)) parts ∧
    concat parts.*1 = points sample_entries.
Proof.
  apply (compaction_output_complete BytewiseComparator bytewise_ok (λ _ _, eq_refl) (sample_job_env sample_agg)
    sample_job_compaction sample_options sample_prepared None None sample_events sample_entries (mkJob 10 Ok [] None)
    sample_sub (sample_run sample_agg sample_entries).1).
  - exact (sample_runs sample_agg sample_entries sample_entries_ok sample_aggregator).
  - unfold sample_run. apply surjective_pairing.
  - vm_compute. reflexivity.
Defined.

Lemma compaction_outputs_ordered_witness :
  StronglySorted (λ a b, ¬ cmp_le (@InternalKeyCompare BytewiseComparator) (smallest (meta b)) (largest (meta a)))
    (outputs_ (compaction_outputs_ (sample_run sample_agg sample_entries).2)).
Proof.
  refine (proj2 (compaction_outputs_ordered BytewiseComparator bytewise_ok (λ _ _, eq_refl) (sample_job_env sample_agg)
    sample_job_compaction sample_options sample_prepared None None sample_events sample_entries (mkJob 10 Ok [] None)
    sample_sub (sample_run sample_agg sample_entries).1 _ _ _ _)).
  - exact (sample_runs sample_agg sample_entries sample_entries_ok sample_aggregator).
  - unfold sample_run. apply surjective_pairing.
  - vm_compute. reflexivity.
Defined.

(** The key c@1 of level 2, deleted by the tombstone from b to d. *)
Lemma range_tombstones_kept_witness :
  let q := InternalKey [x63] 1 kTypeValue in
  let ile := cmp_le (@InternalKeyCompare BytewiseComparator) in
  (∃ out, out ∈ outputs_ (compaction_outputs_ (sample_run sample_agg sample_entries).2) ∧
     SerializeTombstone sample_tombstone ∈ contents out ∧ ile (smallest (meta out)) q ∧ ile q (largest (meta out))) ∨
  2 <= 10 ∧ (false = true ∨ no_key_below BytewiseComparator sample_job_compaction sample_prepared [x63]).
Proof.
  intros q ile.
  refine (range_tombstones_kept BytewiseComparator bytewise_ok (λ _ _, eq_refl) (sample_job_env sample_agg)
    sample_job_compaction sample_options sample_prepared None None sample_events sample_entries (mkJob 10 Ok [] None)
    sample_sub (sample_run sample_agg sample_entries).1 _ (λ _ _, [sample_tombstone]) sample_tombstone q _ _ _ eq_refl _ _ _).
  - exact (sample_runs sample_agg sample_entries sample_entries_ok sample_aggregator).
  - unfold sample_run. apply surjective_pairing.
  - vm_compute. reflexivity.
  - intros lower upper _ _. left.
  - split; [vm_compute; discriminate|]. split; [done|]. split; [done|]. intros e He.
    repeat (apply elem_of_cons in He as [->|He]); [| | |by apply not_elem_of_nil in He];
      intros H1 H2; first [exfalso; apply H1; vm_compute; reflexivity
        | exfalso; apply H2; vm_compute; reflexivity | intros H3; vm_compute in H3; discriminate H3].
  - split; [intros H; vm_compute in H; discriminate H|]. split; [intros H; apply H; vm_compute; reflexivity|].
    vm_compute. discriminate.
Defined.

Lemma output_cut_bounds_witness :
  ∃ segs files, concat segs = filter (counted sample_job_compaction) sample_entries ∧ Forall2 file_of segs files ∧
    omap id files = outputs_ (compaction_outputs_ (sample_run sample_agg sample_entries).2) ∧
    Forall (seg_within BytewiseComparator (sample_job_env sample_agg) sample_job_compaction) segs.
Proof.
  apply (output_cut_bounds BytewiseComparator bytewise_ok (λ _ _, eq_refl) (sample_job_env sample_agg)
    sample_job_compaction sample_options sample_prepared None None sample_events sample_entries (mkJob 10 Ok [] None)
    sample_sub (sample_run sample_agg sample_entries).1).
  - exact (sample_runs sample_agg sample_entries sample_entries_ok sample_aggregator).
  - vm_compute. lia.
  - split; [apply Forall_cons_2; [|apply Forall_nil_2]|eval_sorted]. intros H. vm_compute in H. discriminate H.
  - unfold sample_run. apply surjective_pairing.
  - vm_compute. reflexivity.
Defined.

