(* ===== verification/VersionBuilder.v ===== *)
(** * Building a version from edits

    Model of src/db/version_builder.cc: the accumulated changes of a series of
    version edits, their application with its errors, the consistency checks,
    and saving the result into a new version: the table files of every level,
    merged with those of the base version and without the deleted ones, the blob
    files that are still needed with their links to table files, and the
    compaction cursors.  Found and missing files of a recovery are tracked as in
    the code. *)

From S2P Require Import Prelude Coding BlobIndex Comparator DbFormat ManifestRecords FileMeta VersionEdit.
From S2P Require Import VersionStorage.

(** ** Data *)

(** [SharedBlobFileMetaData], the part that does not change, and
    [BlobFileMetaData]. *)
Record SharedBlobFileMetaData := mkSharedBlob {
  sb_blob_file_number : Z;
  sb_total_blob_count : Z;
  sb_total_blob_bytes : Z;
  sb_checksum_method : list byte;
  sb_checksum_value : list byte;
}.

Record BlobFileMetaData := mkBlobFile {
  bm_shared_meta : SharedBlobFileMetaData;
  bm_linked_ssts : gset Z;
  bm_garbage_blob_count : Z;
  bm_garbage_blob_bytes : Z;
}.

Definition GetBlobFileNumber (b : BlobFileMetaData) : Z := sb_blob_file_number (bm_shared_meta b).
Definition GetTotalBlobCount (b : BlobFileMetaData) : Z := sb_total_blob_count (bm_shared_meta b).

Inductive EpochNumberRequirement := kMightMissing | kMustPresent.
#[export] Instance epoch_requirement_dec : EqDecision EpochNumberRequirement.
Proof. solve_decision. Defined.

(** The fields of [VersionStorageInfo] the builder reads and writes. *)
Record BuiltVersion := mkBuilt {
  bv_storage : VersionStorageInfo;
  bv_blob_files : list BlobFileMetaData;
  bv_compact_cursor : list key;
  bv_epoch_number_requirement : EpochNumberRequirement;
  bv_force_consistency_checks : bool;
}.

#[export] Instance built_eta : Eta BuiltVersion := λ v,
  mkBuilt (bv_storage v) (bv_blob_files v) (bv_compact_cursor v) (bv_epoch_number_requirement v)
    (bv_force_consistency_checks v).

Definition HasMissingEpochNumber (v : BuiltVersion) : bool :=
  existsb (existsb (λ f, epoch_number f =? kUnknownEpochNumber)) (files_ (bv_storage v)).

Definition GetBlobFileMetaDataLB (v : BuiltVersion) (n : Z) : nat :=
  std_bound (λ b, GetBlobFileNumber b <? n) (bv_blob_files v) 0 (length (bv_blob_files v)).

Definition GetBlobFileMetaData (v : BuiltVersion) (n : Z) : option BlobFileMetaData :=
  match bv_blob_files v !! GetBlobFileMetaDataLB v n with
  | Some b => if GetBlobFileNumber b =? n then Some b else None
  | None => None
  end.

(** [GetFileLocation(n).GetLevel()], -1 when there is no such file. *)
Definition GetFileLevel (v : BuiltVersion) (n : Z) : Z :=
  match file_locations_ (bv_storage v) !! n with Some (level, _) => Z.of_nat level | None => -1 end.

Definition GetFileMetaDataByNumber (v : BuiltVersion) (n : Z) : option FileMetaData :=
  match file_locations_ (bv_storage v) !! n with
  | Some (level, position) => LevelFiles (bv_storage v) level !! position
  | None => None
  end.

(** *** Orders of the files of a level *)

Definition NewestFirstBySeqNo (lhs rhs : FileMetaData) : bool :=
  if negb (largest_seqno lhs =? largest_seqno rhs) then largest_seqno rhs <? largest_seqno lhs
  else if negb (smallest_seqno lhs =? smallest_seqno rhs) then smallest_seqno rhs <? smallest_seqno lhs
  else GetNumber rhs <? GetNumber lhs.

Definition NewestFirstByEpochNumber (lhs rhs : FileMetaData) : bool :=
  if negb (epoch_number lhs =? epoch_number rhs) then epoch_number rhs <? epoch_number lhs
  else NewestFirstBySeqNo lhs rhs.

Definition BySmallestKey `{Comparator} (lhs rhs : FileMetaData) : bool :=
  match InternalKeyCompare (smallest lhs) (smallest rhs) with
  | Eq => GetNumber lhs <? GetNumber rhs
  | Lt => true
  | Gt => false
  end.

(** *** Changes *)

Record LevelState := mkLevelState {
  deleted_files : gset Z;
  added_files : gmap Z FileMetaData;
}.

#[export] Instance level_state_eta : Eta LevelState := λ s, mkLevelState (deleted_files s) (added_files s).

Record BlobFileMetaDataDelta := mkDelta {
  additional_garbage_count_ : Z;
  additional_garbage_bytes_ : Z;
  newly_linked_ssts_ : gset Z;
  newly_unlinked_ssts_ : gset Z;
}.

#[export] Instance delta_eta : Eta BlobFileMetaDataDelta := λ d,
  mkDelta (additional_garbage_count_ d) (additional_garbage_bytes_ d) (newly_linked_ssts_ d) (newly_unlinked_ssts_ d).

Definition DeltaIsEmpty (d : BlobFileMetaDataDelta) : bool :=
  (additional_garbage_count_ d =? 0) && (additional_garbage_bytes_ d =? 0) &&
  bool_decide (newly_linked_ssts_ d = ∅) && bool_decide (newly_unlinked_ssts_ d = ∅).

Definition DeltaAddGarbage (count bytes : Z) (d : BlobFileMetaDataDelta) : BlobFileMetaDataDelta :=
  let d1 := d <| additional_garbage_count_ := additional_garbage_count_ d +64 count |> in
  d1 <| additional_garbage_bytes_ := additional_garbage_bytes_ d +64 bytes |>.

(** A trivial move unlinks a table file and links it again. *)
Definition DeltaLinkSst (n : Z) (d : BlobFileMetaDataDelta) : BlobFileMetaDataDelta :=
  if decide (n ∈ newly_unlinked_ssts_ d) then d <| newly_unlinked_ssts_ := newly_unlinked_ssts_ d ∖ {[n]} |>
  else d <| newly_linked_ssts_ := {[n]} ∪ newly_linked_ssts_ d |>.

Definition DeltaUnlinkSst (n : Z) (d : BlobFileMetaDataDelta) : BlobFileMetaDataDelta :=
  if decide (n ∈ newly_linked_ssts_ d) then d <| newly_linked_ssts_ := newly_linked_ssts_ d ∖ {[n]} |>
  else d <| newly_unlinked_ssts_ := {[n]} ∪ newly_unlinked_ssts_ d |>.

Record MutableBlobFileMetaData := mkMutableBlob {
  mb_shared_meta : SharedBlobFileMetaData;
  mb_delta : BlobFileMetaDataDelta;
  mb_linked_ssts : gset Z;
  mb_garbage_blob_count : Z;
  mb_garbage_blob_bytes : Z;
}.

#[export] Instance mutable_blob_eta : Eta MutableBlobFileMetaData := λ m,
  mkMutableBlob (mb_shared_meta m) (mb_delta m) (mb_linked_ssts m) (mb_garbage_blob_count m) (mb_garbage_blob_bytes m).

(** For a new blob file, and for one of the base version. *)
Definition NewMutableBlob (shared : SharedBlobFileMetaData) : MutableBlobFileMetaData :=
  mkMutableBlob shared (mkDelta 0 0 ∅ ∅) ∅ 0 0.
Definition MutableOfBlob (b : BlobFileMetaData) : MutableBlobFileMetaData :=
  mkMutableBlob (bm_shared_meta b) (mkDelta 0 0 ∅ ∅) (bm_linked_ssts b) (bm_garbage_blob_count b)
    (bm_garbage_blob_bytes b).

Definition HasDelta (m : MutableBlobFileMetaData) : bool := negb (DeltaIsEmpty (mb_delta m)).

Definition AddGarbage (count bytes : Z) (m : MutableBlobFileMetaData) : option MutableBlobFileMetaData :=
  if (sb_total_blob_count (mb_shared_meta m) <? mb_garbage_blob_count m +64 count) ||
     (sb_total_blob_bytes (mb_shared_meta m) <? mb_garbage_blob_bytes m +64 bytes) then None
  else Some (mkMutableBlob (mb_shared_meta m) (DeltaAddGarbage count bytes (mb_delta m)) (mb_linked_ssts m)
               (mb_garbage_blob_count m +64 count) (mb_garbage_blob_bytes m +64 bytes)).

Definition LinkSst (n : Z) (m : MutableBlobFileMetaData) : MutableBlobFileMetaData :=
  let m1 := m <| mb_delta := DeltaLinkSst n (mb_delta m) |> in
  m1 <| mb_linked_ssts := {[n]} ∪ mb_linked_ssts m |>.

Definition UnlinkSst (n : Z) (m : MutableBlobFileMetaData) : MutableBlobFileMetaData :=
  let m1 := m <| mb_delta := DeltaUnlinkSst n (mb_delta m) |> in
  m1 <| mb_linked_ssts := mb_linked_ssts m ∖ {[n]} |>.

Definition CreateBlobFileMetaData (m : MutableBlobFileMetaData) : BlobFileMetaData :=
  mkBlobFile (mb_shared_meta m) (mb_linked_ssts m) (mb_garbage_blob_count m) (mb_garbage_blob_bytes m).

(** What is checked of a file when a manifest is replayed: PathNotFound and
    NotFound are one case. *)
Inductive VerifyStatus := VerifyOk | VerifyMissing | VerifyCorruption | VerifyError.

(** The cache that limits the memory of file metadata, and the file system. *)
Class BuilderEnv := {
  reserve_metadata : FileMetaData → bool;
  verify_file : Z → FileMetaData → VerifyStatus;
  verify_blob_file : BlobFileAddition → VerifyStatus;
}.

(** The errors of the builder. *)
Inductive BuilderError :=
| L0NotSorted (lhs rhs : Z)
| L0SameEpochOverlap (lhs rhs : Z)
| LevelNotSorted (level : nat) (lhs rhs : Z)
| LevelOverlap (level : nat) (lhs rhs : Z)
| BlobAllGarbage (n : Z)
| BlobLinksInconsistent (n : Z)
| BlobAlreadyAdded (n : Z)
| BlobNotFound (n : Z)
| GarbageOverflow (n : Z)
| CannotDelete (n level current : Z)
| CannotAdd (n level current : Z)
| InvalidCursorLevel (level : Z)
| MemoryLimit (n : Z)
| VerifyFailed (n : Z).

(** ** The builder *)

(** Found and missing files, used only when [track_found_and_missing_files_]. *)
Record FileTracking := mkTracking {
  found_files_ : gset Z;
  l0_missing_files_ : gset Z;
  non_l0_missing_files_ : gset Z;
  intermediate_files_ : list Z;
  missing_blob_files_high_ : Z;
  missing_blob_files_ : gset Z;
  valid_version_available_ : bool;
  edited_in_atomic_group_ : bool;
  version_updated_since_last_check_ : bool;
}.

#[export] Instance tracking_eta : Eta FileTracking := λ t,
  mkTracking (found_files_ t) (l0_missing_files_ t) (non_l0_missing_files_ t) (intermediate_files_ t)
    (missing_blob_files_high_ t) (missing_blob_files_ t) (valid_version_available_ t) (edited_in_atomic_group_ t)
    (version_updated_since_last_check_ t).

Record Rep := mkRep {
  base_vstorage_ : BuiltVersion;
  levels_ : list LevelState;
  invalid_level_sizes_ : gmap Z Z;
  has_invalid_levels_ : bool;
  table_file_levels_ : gmap Z Z;
  updated_compact_cursors_ : gmap Z key;
  mutable_blob_file_metas_ : gmap Z MutableBlobFileMetaData;
  track_found_and_missing_files_ : bool;
  allow_incomplete_valid_version_ : bool;
  tracking_ : FileTracking;
}.

#[export] Instance rep_eta : Eta Rep := λ r,
  mkRep (base_vstorage_ r) (levels_ r) (invalid_level_sizes_ r) (has_invalid_levels_ r) (table_file_levels_ r)
    (updated_compact_cursors_ r) (mutable_blob_file_metas_ r) (track_found_and_missing_files_ r)
    (allow_incomplete_valid_version_ r) (tracking_ r).

Definition builder_num_levels (r : Rep) : nat := num_levels (bv_storage (base_vstorage_ r)).

Definition NewRep (base : BuiltVersion) (track allow_incomplete : bool) : Rep :=
  mkRep base (replicate (num_levels (bv_storage base)) (mkLevelState ∅ ∅)) ∅ false ∅ ∅ ∅ track allow_incomplete
    (mkTracking ∅ ∅ ∅ [] kInvalidBlobFileNumber ∅ true false false).

(** [levels_[level]] *)
Definition level_state (r : Rep) (level : Z) : LevelState :=
  default (mkLevelState ∅ ∅) (levels_ r !! Z.to_nat level).
Definition set_level_state (level : Z) (s : LevelState) (r : Rep) : Rep :=
  r <| levels_ := <[Z.to_nat level := s]> (levels_ r) |>.
Definition set_file_level (n level : Z) (r : Rep) : Rep :=
  r <| table_file_levels_ := <[n := level]> (table_file_levels_ r) |>.

(** *** Consistency *)

Definition UpdateExpectedLinkedSsts (f : FileMetaData) (expected : gmap Z (gset Z)) : gmap Z (gset Z) :=
  if oldest_blob_file_number f =? kInvalidBlobFileNumber then expected
  else <[oldest_blob_file_number f := {[GetNumber f]} ∪ default ∅ (expected !! oldest_blob_file_number f)]> expected.

(** The check of neighbours, and the links of the files it has seen. *)
Fixpoint check_neighbours (checker : FileMetaData → FileMetaData → option BuilderError) (lhs : FileMetaData)
    (rest : list FileMetaData) (expected : gmap Z (gset Z)) : option BuilderError * gmap Z (gset Z) :=
  match rest with
  | [] => (None, expected)
  | rhs :: rest' =>
      let expected' := UpdateExpectedLinkedSsts rhs expected in
      match checker lhs rhs with
      | Some e => (Some e, expected')
      | None => check_neighbours checker rhs rest' expected'
      end
  end.

Definition CheckConsistencyDetailsForLevel (checker : FileMetaData → FileMetaData → option BuilderError)
    (files : list FileMetaData) (expected : gmap Z (gset Z)) : option BuilderError * gmap Z (gset Z) :=
  match files with
  | [] => (None, expected)
  | f :: files' => check_neighbours checker f files' (UpdateExpectedLinkedSsts f expected)
  end.

Definition l0_checker `{Comparator} (req : EpochNumberRequirement) (lhs rhs : FileMetaData) : option BuilderError :=
  match req with
  | kMightMissing => if NewestFirstBySeqNo lhs rhs then None else Some (L0NotSorted (GetNumber lhs) (GetNumber rhs))
  | kMustPresent =>
      if (epoch_number lhs =? epoch_number rhs) &&
         match InternalKeyCompare (smallest lhs) (largest rhs) with Gt => false | _ => true end &&
         match InternalKeyCompare (largest lhs) (smallest rhs) with Lt => false | _ => true end
      then Some (L0SameEpochOverlap (GetNumber lhs) (GetNumber rhs))
      else if NewestFirstByEpochNumber lhs rhs then None else Some (L0NotSorted (GetNumber lhs) (GetNumber rhs))
  end.

Definition level_checker `{Comparator} (level : nat) (lhs rhs : FileMetaData) : option BuilderError :=
  if negb (BySmallestKey lhs rhs) then Some (LevelNotSorted level (GetNumber lhs) (GetNumber rhs))
  else match InternalKeyCompare (largest lhs) (smallest rhs) with
       | Lt => None
       | _ => Some (LevelOverlap level (GetNumber lhs) (GetNumber rhs))
       end.

(** Levels from [level] on. *)
Fixpoint check_levels `{Comparator} (level : nat) (files : list (list FileMetaData)) (expected : gmap Z (gset Z))
    : option BuilderError * gmap Z (gset Z) :=
  match files with
  | [] => (None, expected)
  | fs :: files' =>
      match CheckConsistencyDetailsForLevel (level_checker level) fs expected with
      | (Some e, expected') => (Some e, expected')
      | (None, expected') => check_levels (S level) files' expected'
      end
  end.

Fixpoint check_blob_files (expected : gmap Z (gset Z)) (blobs : list BlobFileMetaData) : option BuilderError :=
  match blobs with
  | [] => None
  | b :: blobs' =>
      if GetTotalBlobCount b <=? bm_garbage_blob_count b then Some (BlobAllGarbage (GetBlobFileNumber b))
      else if decide (bm_linked_ssts b = default ∅ (expected !! GetBlobFileNumber b))
           then check_blob_files expected blobs'
           else Some (BlobLinksInconsistent (GetBlobFileNumber b))
  end.

Definition CheckConsistencyDetails `{Comparator} (v : BuiltVersion) : option BuilderError :=
  let '(e, expected) :=
    match files_ (bv_storage v) with
    | [] => (None, ∅)
    | l0 :: files =>
        match CheckConsistencyDetailsForLevel (l0_checker (bv_epoch_number_requirement v)) l0 ∅ with
        | (Some e, expected) => (Some e, expected)
        | (None, expected) => check_levels 1 files expected
        end
    end in
  match e with
  | Some e => Some e
  | None => check_blob_files expected (bv_blob_files v)
  end.

(** A release build. *)
Definition CheckConsistency `{Comparator} (v : BuiltVersion) : option BuilderError :=
  if bv_force_consistency_checks v then CheckConsistencyDetails v else None.

Definition CheckConsistencyForNumLevels (r : Rep) : bool :=
  negb (has_invalid_levels_ r) && forallb (λ p, p.2 =? 0) (map_to_list (invalid_level_sizes_ r)).

(** *** Applying an edit *)

Definition IsBlobFileInVersion (n : Z) (r : Rep) : bool :=
  match mutable_blob_file_metas_ r !! n with
  | Some _ => true
  | None => match GetBlobFileMetaData (base_vstorage_ r) n with Some _ => true | None => false end
  end.

Definition GetOrCreateMutableBlobFileMetaData (n : Z) (r : Rep) : option MutableBlobFileMetaData :=
  match mutable_blob_file_metas_ r !! n with
  | Some m => Some m
  | None => MutableOfBlob <$> GetBlobFileMetaData (base_vstorage_ r) n
  end.

Definition set_blob_meta (n : Z) (m : MutableBlobFileMetaData) (r : Rep) : Rep :=
  r <| mutable_blob_file_metas_ := <[n := m]> (mutable_blob_file_metas_ r) |>.

Section apply.
Context `{Comparator} {E : BuilderEnv}.

(** The state after the operation and its error. *)
Definition outcome : Type := Rep * option BuilderError.

Definition ApplyBlobFileAddition (a : BlobFileAddition) (r : Rep) : outcome :=
  let n := bfa_blob_file_number a in
  if IsBlobFileInVersion n r then (r, Some (BlobAlreadyAdded n))
  else
    let shared := mkSharedBlob n (bfa_total_blob_count a) (bfa_total_blob_bytes a) (bfa_checksum_method a)
                    (bfa_checksum_value a) in
    let r1 := set_blob_meta n (NewMutableBlob shared) r in
    if track_found_and_missing_files_ r then
      match verify_blob_file a with
      | VerifyOk => (r1, None)
      | VerifyMissing | VerifyCorruption =>
          let t := tracking_ r1 in
          let t1 := t <| missing_blob_files_high_ := Z.max (missing_blob_files_high_ t) n |> in
          (r1 <| tracking_ := t1 <| missing_blob_files_ := {[n]} ∪ missing_blob_files_ t |> |>, None)
      | VerifyError => (r1, Some (VerifyFailed n))
      end
    else (r1, None).

Definition ApplyBlobFileGarbage (g : BlobFileGarbage) (r : Rep) : outcome :=
  let n := bfg_blob_file_number g in
  match GetOrCreateMutableBlobFileMetaData n r with
  | None => (r, Some (BlobNotFound n))
  | Some m =>
      match AddGarbage (bfg_garbage_blob_count g) (bfg_garbage_blob_bytes g) m with
      | None => (set_blob_meta n m r, Some (GarbageOverflow n))
      | Some m' => (set_blob_meta n m' r, None)
      end
  end.

Definition GetCurrentLevelForTableFile (n : Z) (r : Rep) : Z :=
  match table_file_levels_ r !! n with
  | Some level => level
  | None => GetFileLevel (base_vstorage_ r) n
  end.

Definition GetOldestBlobFileNumberForTableFile (level n : Z) (r : Rep) : Z :=
  match added_files (level_state r level) !! n with
  | Some f => oldest_blob_file_number f
  | None => match GetFileMetaDataByNumber (base_vstorage_ r) n with
            | Some f => oldest_blob_file_number f
            | None => kInvalidBlobFileNumber
            end
  end.

(** [GetOrCreateMutableBlobFileMetaData] and an update of what it returns. *)
Definition update_blob (n : Z) (g : MutableBlobFileMetaData → MutableBlobFileMetaData) (r : Rep) : Rep :=
  if n =? kInvalidBlobFileNumber then r
  else match GetOrCreateMutableBlobFileMetaData n r with
       | Some m => set_blob_meta n (g m) r
       | None => r
       end.

(** A file deleted from the version is no longer missing, or leaves the disk
    when this builder found it. *)
Definition track_deletion (n : Z) (t : FileTracking) : FileTracking :=
  if decide (n ∈ l0_missing_files_ t) then t <| l0_missing_files_ := l0_missing_files_ t ∖ {[n]} |>
  else if decide (n ∈ non_l0_missing_files_ t) then t <| non_l0_missing_files_ := non_l0_missing_files_ t ∖ {[n]} |>
  else if decide (n ∈ found_files_ t) then
    let t1 := t <| intermediate_files_ := intermediate_files_ t ++ [n] |> in
    t1 <| found_files_ := found_files_ t ∖ {[n]} |>
  else t.

Definition ApplyFileDeletion (level n : Z) (r : Rep) : outcome :=
  let current_level := GetCurrentLevelForTableFile n r in
  if negb (level =? current_level) then
    (if Z.of_nat (builder_num_levels r) <=? level then r <| has_invalid_levels_ := true |> else r,
     Some (CannotDelete n level current_level))
  else if Z.of_nat (builder_num_levels r) <=? level then
    let size := default 0 (invalid_level_sizes_ r !! level) in
    (set_file_level n (-1) (r <| invalid_level_sizes_ := <[level := size -64 1]> (invalid_level_sizes_ r) |>), None)
  else
    let r1 := update_blob (GetOldestBlobFileNumberForTableFile level n r) (UnlinkSst n) r in
    let s := level_state r1 level in
    let r2 := set_level_state level (mkLevelState ({[n]} ∪ deleted_files s) (delete n (added_files s))) r1 in
    let r3 := set_file_level n (-1) r2 in
    (if track_found_and_missing_files_ r then r3 <| tracking_ := track_deletion n (tracking_ r3) |> else r3, None).

Definition track_addition (level n : Z) (s : VerifyStatus) (t : FileTracking) : FileTracking :=
  match s with
  | VerifyOk => t <| found_files_ := {[n]} ∪ found_files_ t |>
  | VerifyError => t
  | _ =>
      let t1 := if level =? 0 then t <| l0_missing_files_ := {[n]} ∪ l0_missing_files_ t |>
                else t <| non_l0_missing_files_ := {[n]} ∪ non_l0_missing_files_ t |> in
      match s with VerifyCorruption => t1 <| found_files_ := {[n]} ∪ found_files_ t |> | _ => t1 end
  end.

Definition ApplyFileAddition (level : Z) (meta : FileMetaData) (r : Rep) : outcome :=
  let n := GetNumber meta in
  let current_level := GetCurrentLevelForTableFile n r in
  if negb (current_level =? -1) then
    (if Z.of_nat (builder_num_levels r) <=? level then r <| has_invalid_levels_ := true |> else r,
     Some (CannotAdd n level current_level))
  else if Z.of_nat (builder_num_levels r) <=? level then
    let size := default 0 (invalid_level_sizes_ r !! level) in
    (set_file_level n level (r <| invalid_level_sizes_ := <[level := size +64 1]> (invalid_level_sizes_ r) |>), None)
  else
    let s := level_state r level in
    let s1 := mkLevelState (deleted_files s ∖ {[n]}) (added_files s) in
    let r1 := set_level_state level s1 r in
    if reserve_metadata meta then
      let r2 := set_level_state level (s1 <| added_files := <[n := meta]> (added_files s) |>) r1 in
      let r3 := update_blob (oldest_blob_file_number meta) (LinkSst n) r2 in
      let r4 := set_file_level n level r3 in
      if track_found_and_missing_files_ r then
        let status := verify_file level meta in
        (r4 <| tracking_ := track_addition level n status (tracking_ r4) |>,
         match status with VerifyError => Some (VerifyFailed n) | _ => None end)
      else (r4, None)
    else (r1, Some (MemoryLimit n)).

Definition ApplyCompactCursors (level : Z) (k : key) (r : Rep) : outcome :=
  if level <? 0 then (r, Some (InvalidCursorLevel level))
  else if level <? Z.of_nat (builder_num_levels r) then
    (r <| updated_compact_cursors_ := <[level := k]> (updated_compact_cursors_ r) |>, None)
  else (r, None).

(** A loop over the records of an edit, left at the first error. *)
Fixpoint apply_each {A} (f : A → Rep → outcome) (l : list A) (r : Rep) : outcome :=
  match l with
  | [] => (r, None)
  | a :: l' => match f a r with (r', None) => apply_each f l' r' | e => e end
  end.

Definition then_apply (f : Rep → outcome) (o : outcome) : outcome :=
  match o with (r, None) => f r | e => e end.

(** Some record of the edit changed the version. *)
Definition version_updated (e : VersionEdit) : bool :=
  negb ((length (blob_file_additions_ e) + length (blob_file_garbages_ e) + length (deleted_files_ e) +
         length (new_files_ e) =? 0)%nat).

Definition note_update (e : VersionEdit) (r : Rep) : Rep :=
  if track_found_and_missing_files_ r && version_updated e then
    let t := (tracking_ r) <| version_updated_since_last_check_ := true |> in
    r <| tracking_ := if negb (edited_in_atomic_group_ t) && is_in_atomic_group_ e
                      then t <| edited_in_atomic_group_ := true |> else t |>
  else r.

Definition Apply (e : VersionEdit) (r : Rep) : outcome :=
  match CheckConsistency (base_vstorage_ r) with
  | Some err => (r, Some err)
  | None =>
      then_apply (λ r, (note_update e r, None))
        (then_apply (apply_each (λ c, ApplyCompactCursors c.1 c.2) (compact_cursors_ e))
          (then_apply (apply_each (λ f, ApplyFileAddition f.1 f.2) (new_files_ e))
            (then_apply (apply_each (λ d, ApplyFileDeletion d.1 d.2) (deleted_files_ e))
              (then_apply (apply_each ApplyBlobFileGarbage (blob_file_garbages_ e))
                (apply_each ApplyBlobFileAddition (blob_file_additions_ e) r)))))
  end.
End apply.

(** ** Saving the version *)

(** *** Blob files *)

(** The entries of a [std::map], in the order of the keys. *)
Definition sorted_metas (m : gmap Z MutableBlobFileMetaData) : list (Z * MutableBlobFileMetaData) :=
  insertion_sort (λ a b, a.1 <? b.1) (map_to_list m).

(** A blob file of the base version, a changed one, or both. *)
Inductive MergedBlob :=
| InBase (b : BlobFileMetaData)
| InMutable (m : MutableBlobFileMetaData)
| InBoth (b : BlobFileMetaData) (m : MutableBlobFileMetaData).

(** Merges two lists ordered by blob file number; each round consumes one of
    them. *)
Fixpoint merge_metas (fuel : nat) (base : list BlobFileMetaData) (mutables : list (Z * MutableBlobFileMetaData))
    : list MergedBlob :=
  match fuel with
  | O => []
  | S fuel' =>
      match base, mutables with
      | [], [] => []
      | b :: base', [] => InBase b :: merge_metas fuel' base' []
      | [], (_, m) :: mutables' => InMutable m :: merge_metas fuel' [] mutables'
      | b :: base', (n, m) :: mutables' =>
          if GetBlobFileNumber b <? n then InBase b :: merge_metas fuel' base' mutables
          else if n <? GetBlobFileNumber b then InMutable m :: merge_metas fuel' base mutables'
          else InBoth b m :: merge_metas fuel' base' mutables'
      end
  end.

Definition MergeBlobFileMetas (r : Rep) (first_blob_file : Z) : list MergedBlob :=
  let base := drop (GetBlobFileMetaDataLB (base_vstorage_ r) first_blob_file) (bv_blob_files (base_vstorage_ r)) in
  let mutables := filter (λ p, first_blob_file <= p.1) (sorted_metas (mutable_blob_file_metas_ r)) in
  merge_metas (length base + length mutables) base mutables.

(** What the merged entry says: the changed metadata supersede the base. *)
Definition merged_linked (x : MergedBlob) : gset Z :=
  match x with InBase b => bm_linked_ssts b | InMutable m | InBoth _ m => mb_linked_ssts m end.
Definition merged_number (x : MergedBlob) : Z :=
  match x with
  | InBase b => GetBlobFileNumber b
  | InMutable m | InBoth _ m => sb_blob_file_number (mb_shared_meta m)
  end.

(** The first blob file with links to table files. *)
Fixpoint first_linked (l : list MergedBlob) : Z :=
  match l with
  | [] => kInvalidBlobFileNumber
  | x :: l' => if decide (merged_linked x = ∅) then first_linked l' else merged_number x
  end.

Definition GetMinOldestBlobFileNumber (r : Rep) : Z := first_linked (MergeBlobFileMetas r kInvalidBlobFileNumber).

Definition OnlyLinkedToMissingL0Files (r : Rep) (linked_ssts : gset Z) : bool :=
  bool_decide (linked_ssts ⊆ l0_missing_files_ (tracking_ r)).

Definition AddBlobFileIfNeeded (r : Rep) (b : BlobFileMetaData) (n : Z) (v : BuiltVersion) : BuiltVersion :=
  let linked := bm_linked_ssts b in
  if track_found_and_missing_files_ r &&
     (bool_decide (n ∈ missing_blob_files_ (tracking_ r)) ||
      (negb (bool_decide (linked = ∅)) && OnlyLinkedToMissingL0Files r linked)) then v
  else if bool_decide (linked = ∅) && (GetTotalBlobCount b <=? bm_garbage_blob_count b) then v
  else v <| bv_blob_files := bv_blob_files v ++ [b] |>.

Definition process_blob (r : Rep) (v : BuiltVersion) (x : MergedBlob) : BuiltVersion :=
  match x with
  | InBase b => AddBlobFileIfNeeded r b (GetBlobFileNumber b) v
  | InMutable m => AddBlobFileIfNeeded r (CreateBlobFileMetaData m) (sb_blob_file_number (mb_shared_meta m)) v
  | InBoth b m =>
      if negb (HasDelta m) then AddBlobFileIfNeeded r b (GetBlobFileNumber b) v
      else AddBlobFileIfNeeded r (CreateBlobFileMetaData m) (sb_blob_file_number (mb_shared_meta m)) v
  end.

Definition SaveBlobFilesTo (r : Rep) (v : BuiltVersion) : BuiltVersion :=
  let oldest := GetMinOldestBlobFileNumber r in
  if oldest =? kInvalidBlobFileNumber then v
  else foldl (process_blob r) v (MergeBlobFileMetas r oldest).

(** *** Table files *)

Section save.
Context `{Comparator} `{StdChoices}.

(** The files of the base, marked [false], and the added ones, marked [true],
    merged by [cmp]. *)
Fixpoint merge_files (cmp : FileMetaData → FileMetaData → bool) (base : list FileMetaData)
    : list FileMetaData → list (bool * FileMetaData) :=
  match base with
  | [] => λ added, pair true <$> added
  | b :: base' =>
      fix merge_added (added : list FileMetaData) : list (bool * FileMetaData) :=
        match added with
        | [] => (false, b) :: merge_files cmp base' []
        | a :: added' =>
            if cmp a b then (true, a) :: merge_added added' else (false, b) :: merge_files cmp base' added
        end
  end.

Definition MergeUnorderdAddedFilesWithBase (cmp : FileMetaData → FileMetaData → bool) (base : list FileMetaData)
    (unordered_added_files : gmap Z FileMetaData) : list (bool * FileMetaData) :=
  merge_files cmp base (std_sort cmp (unordered_iter (map_to_list unordered_added_files).*2)).

(** A file of the base that is added again is superseded.  Statistics of the
    version are left out. *)
Definition MaybeAddFile (r : Rep) (level : nat) (v : BuiltVersion) (x : bool * FileMetaData) : BuiltVersion :=
  let '(is_added, f) := x in
  let n := GetNumber f in
  let s := level_state r (Z.of_nat level) in
  if track_found_and_missing_files_ r && (level =? 0)%nat && bool_decide (n ∈ l0_missing_files_ (tracking_ r)) then v
  else if bool_decide (n ∈ deleted_files s) then v
  else if match added_files s !! n with Some _ => negb is_added | None => false end then v
  else v <| bv_storage := AddFile level f (bv_storage v) |>.

Definition SaveLevelTo (r : Rep) (level : nat) (cmp : FileMetaData → FileMetaData → bool) (v : BuiltVersion)
    : BuiltVersion :=
  foldl (MaybeAddFile r level) v
    (MergeUnorderdAddedFilesWithBase cmp (LevelFiles (bv_storage (base_vstorage_ r)) level)
       (added_files (level_state r (Z.of_nat level)))).

Definition added_epoch_missing (r : Rep) : bool :=
  existsb (λ s, existsb (λ p, epoch_number p.2 =? kUnknownEpochNumber) (map_to_list (added_files s))) (levels_ r).

Definition PromoteEpochNumberRequirementIfNeeded (r : Rep) (v : BuiltVersion) : BuiltVersion :=
  if HasMissingEpochNumber v || added_epoch_missing r then v
  else v <| bv_epoch_number_requirement := kMustPresent |>.

Definition l0_order (req : EpochNumberRequirement) : FileMetaData → FileMetaData → bool :=
  match req with kMightMissing => NewestFirstBySeqNo | kMustPresent => NewestFirstByEpochNumber end.

Definition SaveSSTFilesTo (r : Rep) (v : BuiltVersion) : BuiltVersion :=
  if (builder_num_levels r =? 0)%nat then v
  else
    let v1 := match bv_epoch_number_requirement v with
              | kMightMissing => PromoteEpochNumberRequirementIfNeeded r v
              | kMustPresent => v
              end in
    let v2 := SaveLevelTo r 0 (l0_order (bv_epoch_number_requirement v1)) v1 in
    foldl (λ v level, SaveLevelTo r level BySmallestKey v) v2 (seq 1 (builder_num_levels r - 1)).

Definition SaveCompactCursorsTo (r : Rep) (v : BuiltVersion) : BuiltVersion :=
  v <| bv_compact_cursor :=
    foldl (λ cursors p, <[Z.to_nat p.1 := p.2]> cursors) (bv_compact_cursor v)
      (unordered_iter (map_to_list (updated_compact_cursors_ r))) |>.

Definition SaveTo (r : Rep) (v : BuiltVersion) : BuiltVersion * option BuilderError :=
  match CheckConsistency v with
  | Some e => (v, Some e)
  | None =>
      let v1 := SaveCompactCursorsTo r (SaveBlobFilesTo r (SaveSSTFilesTo r v)) in
      (v1, CheckConsistency v1)
  end.

(** *** Which versions may be saved during a recovery *)

Definition ContainsCompleteVersion (r : Rep) : bool :=
  let t := tracking_ r in
  bool_decide (l0_missing_files_ t = ∅) && bool_decide (non_l0_missing_files_ t = ∅) &&
  ((missing_blob_files_high_ t =? kInvalidBlobFileNumber) ||
   (missing_blob_files_high_ t <? GetMinOldestBlobFileNumber r)).

Definition HasMissingFiles (r : Rep) : bool :=
  let t := tracking_ r in
  negb (bool_decide (l0_missing_files_ t = ∅)) || negb (bool_decide (non_l0_missing_files_ t = ∅)) ||
  negb (missing_blob_files_high_ t =? kInvalidBlobFileNumber).

(** The loop over the level-0 files, newest first: the missing ones come first. *)
Fixpoint missing_first (missing unaddressed : gset Z) (files : list FileMetaData) : bool :=
  match files with
  | [] => true
  | f :: files' =>
      if bool_decide (GetNumber f ∈ missing) then missing_first missing (unaddressed ∖ {[GetNumber f]}) files'
      else bool_decide (unaddressed = ∅)
  end.

Definition MissingL0FilesAreL0Suffix (r : Rep) : bool :=
  let base := base_vstorage_ r in
  let missing := l0_missing_files_ (tracking_ r) in
  missing_first missing missing
    (MergeUnorderdAddedFilesWithBase (l0_order (bv_epoch_number_requirement base)) (LevelFiles (bv_storage base) 0)
       (added_files (level_state r 0))).*2.

Definition RemainingSstFilesNotMissingBlobFiles (r : Rep) : bool :=
  let t := tracking_ r in
  forallb (λ n,
    if n <? GetMinOldestBlobFileNumber r then true
    else
      let linked := match mutable_blob_file_metas_ r !! n with Some m => mb_linked_ssts m | None => ∅ end in
      negb (negb (bool_decide (linked = ∅)) && bool_decide (l0_missing_files_ t = ∅)) &&
      OnlyLinkedToMissingL0Files r linked)
    (elements (missing_blob_files_ t)).

Definition OnlyMissingL0Suffix (r : Rep) : bool :=
  let t := tracking_ r in
  bool_decide (non_l0_missing_files_ t = ∅) &&
  (bool_decide (l0_missing_files_ t = ∅) || MissingL0FilesAreL0Suffix r) &&
  (bool_decide (missing_blob_files_ t = ∅) || RemainingSstFilesNotMissingBlobFiles r).

Definition ValidVersionAvailable (r : Rep) : bool * Rep :=
  let t := tracking_ r in
  if version_updated_since_last_check_ t then
    let complete := ContainsCompleteVersion r in
    let valid := if negb complete && negb (edited_in_atomic_group_ t) && allow_incomplete_valid_version_ r
                 then OnlyMissingL0Suffix r else complete in
    let t1 := t <| valid_version_available_ := valid |> in
    (valid, r <| tracking_ := t1 <| version_updated_since_last_check_ := false |> |>)
  else (valid_version_available_ t, r).

Definition ClearFoundFiles (r : Rep) : Rep :=
  let t := (tracking_ r) <| found_files_ := (∅ : gset Z) |> in r <| tracking_ := t |>.

(** *** Save points *)

Record VersionBuilder := mkBuilder {
  rep_ : Rep;
  savepoint_ : option Rep;
}.

(** The save point keeps the state and the builder goes on with a copy. *)
Definition CreateOrReplaceSavePoint (b : VersionBuilder) : VersionBuilder := mkBuilder (rep_ b) (Some (rep_ b)).
Definition ClearSavePoint (b : VersionBuilder) : VersionBuilder := mkBuilder (rep_ b) None.

(** [None] stands for InvalidArgument. *)
Definition SaveSavePointTo (b : VersionBuilder) (v : BuiltVersion)
    : VersionBuilder * option (BuiltVersion * option BuilderError) :=
  match savepoint_ b with
  | Some s =>
      let '(valid, s1) := ValidVersionAvailable s in
      (mkBuilder (rep_ b) (Some s1), if valid then Some (SaveTo s1 v) else None)
  | None => (b, None)
  end.
End save.
