(* ===== verification/VersionBuilderFiles.v ===== *)
(** * The table files of a built version

    The theorems on src/db/version_builder.cc that concern table files: applying
    a series of edits and saving the result implements the plain meaning of the
    edits, a map from file numbers to levels and files from which files are
    deleted and to which files are added, and reports an error exactly when an
    edit deletes a file that is not on its level or adds one that exists; the
    files of a saved level are in order, and the consistency checks accept
    exactly the versions whose levels are sorted and do not overlap. *)

From S2P Require Import Prelude Coding BlobIndex Comparator DbFormat ManifestRecords FileMeta VersionEdit.
From S2P Require Import VersionStorage VersionBuilder.

(** ** The meaning of edits *)

(** The level and the metadata of every file. *)
Abbreviation lsm := (gmap Z (nat * FileMetaData)).

(** [None] when the edit deletes a file that is not on the level it names, or
    adds a file that exists. *)
Definition lsm_delete (m : lsm) (d : Z * Z) : option lsm :=
  match m !! d.2 with
  | Some (level, _) => if Z.of_nat level =? d.1 then Some (delete d.2 m) else None
  | None => None
  end.

Definition lsm_add (m : lsm) (a : Z * FileMetaData) : option lsm :=
  match m !! GetNumber a.2 with
  | Some _ => None
  | None => Some (<[GetNumber a.2 := (Z.to_nat a.1, a.2)]> m)
  end.

Fixpoint try_each {S A} (f : S → A → option S) (l : list A) (s : S) : option S :=
  match l with
  | [] => Some s
  | a :: l' => s' ← f s a; try_each f l' s'
  end.

Definition lsm_edit (m : lsm) (e : VersionEdit) : option lsm :=
  m' ← try_each lsm_delete (deleted_files_ e) m; try_each lsm_add (new_files_ e) m'.

(** The edits name levels the version has. *)
Definition levels_in_range (levels : nat) (e : VersionEdit) : Prop :=
  Forall (λ d, 0 <= d.1 < Z.of_nat levels) (deleted_files_ e) ∧
  Forall (λ a, 0 <= a.1 < Z.of_nat levels) (new_files_ e).

(** The index of the files by number is exact. *)
Definition locations_exact (v : VersionStorageInfo) : Prop :=
  ∀ n l pos, file_locations_ v !! n = Some (l, pos) ↔ ∃ f, LevelFiles v l !! pos = Some f ∧ GetNumber f = n.

Definition base_file (v : BuiltVersion) (n : Z) : option (nat * FileMetaData) :=
  match file_locations_ (bv_storage v) !! n with
  | Some (l, pos) => pair l <$> LevelFiles (bv_storage v) l !! pos
  | None => None
  end.

(** A series of edits, left at the first error. *)
Definition apply_all `{Comparator} {E : BuilderEnv} (es : list VersionEdit) (r : Rep) : outcome :=
  apply_each Apply es r.

(** ** The state of the builder *)

(** Level and metadata of a file after the changes. *)
Definition current (r : Rep) (n : Z) : option (nat * FileMetaData) :=
  match table_file_levels_ r !! n with
  | Some l => if l =? -1 then None else pair (Z.to_nat l) <$> added_files (level_state r l) !! n
  | None => base_file (base_vstorage_ r) n
  end.

Record rep_ok (r : Rep) : Prop := {
  ro_exact : locations_exact (bv_storage (base_vstorage_ r));
  ro_length : length (levels_ r) = builder_num_levels r;
  ro_levels : ∀ n l, table_file_levels_ r !! n = Some l → l = -1 ∨ 0 <= l < Z.of_nat (builder_num_levels r);
  ro_added : ∀ l n f, 0 <= l → added_files (level_state r l) !! n = Some f →
    GetNumber f = n ∧ table_file_levels_ r !! n = Some l ∧ n ∉ deleted_files (level_state r l);
  ro_at : ∀ n l, table_file_levels_ r !! n = Some l → 0 <= l → is_Some (added_files (level_state r l) !! n);
  ro_deleted : ∀ n l, 0 <= l → n ∈ deleted_files (level_state r l) → is_Some (table_file_levels_ r !! n);
  ro_base : ∀ n l f l', base_file (base_vstorage_ r) n = Some (l, f) → table_file_levels_ r !! n = Some l' →
    l' = Z.of_nat l ∨ n ∈ deleted_files (level_state r (Z.of_nat l));
}.

Lemma base_file_spec v n l f :
  locations_exact (bv_storage v) → base_file v n = Some (l, f) ↔ f ∈ LevelFiles (bv_storage v) l ∧ GetNumber f = n.
Proof.
  intros Hx. unfold base_file. split.
  - destruct (file_locations_ (bv_storage v) !! n) as [[l' pos]|] eqn:E; [|done].
    intros (g & Hg & [= -> ->])%fmap_Some. apply Hx in E as (h & Hh & Hn). simplify_eq.
    split; [by eapply list_elem_of_lookup_2|done].
  - intros [(pos & Hpos)%list_elem_of_lookup_1 Hn]. rewrite (proj2 (Hx n l pos)); [by rewrite Hpos|by exists f].
Qed.

Lemma level_files_in_range v l f : f ∈ LevelFiles v l → (l < num_levels v)%nat.
Proof.
  unfold LevelFiles, num_levels. destruct (files_ v !! l) eqn:E; [by apply lookup_lt_Some in E|].
  cbn. by intros ?%not_elem_of_nil.
Qed.

Lemma new_rep_ok v track allow : locations_exact (bv_storage v) → rep_ok (NewRep v track allow).
Proof.
  intros Hx. assert (Hs : ∀ l, level_state (NewRep v track allow) l = mkLevelState ∅ ∅).
  { intros l. unfold level_state. cbn. destruct (replicate _ _ !! _) as [s|] eqn:E; [|done].
    apply lookup_replicate in E as [-> _]. done. }
  split; [done|apply length_replicate|done|..].
  - intros l n f _. by rewrite Hs.
  - done.
  - intros n l _. by rewrite Hs.
  - done.
Qed.

(** The level the builder knows of a file. *)
Lemma current_level r n : rep_ok r →
  match current r n with
  | Some (l, f) => GetCurrentLevelForTableFile n r = Z.of_nat l ∧ (l < builder_num_levels r)%nat ∧ GetNumber f = n
  | None => GetCurrentLevelForTableFile n r = -1
  end.
Proof.
  intros Hr. unfold current, GetCurrentLevelForTableFile, GetFileLevel.
  destruct (table_file_levels_ r !! n) as [l|] eqn:E.
  - destruct (Z.eqb_spec l (-1)) as [->|Hl]; [done|]. destruct (ro_levels r Hr n l E) as [|Hl']; [lia|].
    destruct (ro_at r Hr n l E ltac:(lia)) as [f Hf]. rewrite Hf. cbn. split_and!; [lia|lia|].
    by destruct (ro_added r Hr l n f ltac:(lia) Hf).
  - destruct (base_file _ n) as [[l f]|] eqn:Eb.
    + pose proof Eb as [Hin Hn]%base_file_spec; [|apply Hr]. unfold base_file in Eb.
      destruct (file_locations_ _ !! n) as [[l' pos]|]; [|done]. apply fmap_Some in Eb as (g & _ & [= -> ->]).
      split_and!; [done| |done]. by eapply level_files_in_range.
    + unfold base_file in Eb. destruct (file_locations_ _ !! n) as [[l' pos]|] eqn:El; [|done].
      apply (ro_exact r Hr) in El as (f & Hf & _). by rewrite Hf in Eb.
Qed.

(** *** Changes of one file *)

(** The parts of the state the table files depend on. *)
Definition same_tables (r r' : Rep) : Prop :=
  base_vstorage_ r = base_vstorage_ r' ∧ levels_ r = levels_ r' ∧ table_file_levels_ r = table_file_levels_ r'.

Lemma level_state_same r r' l : same_tables r r' → level_state r l = level_state r' l.
Proof. intros (_ & E & _). unfold level_state. by rewrite E. Qed.

Lemma current_same r r' n : same_tables r r' → current r n = current r' n.
Proof.
  intros Hs. unfold current. destruct (table_file_levels_ r !! n) as [l|] eqn:E;
    destruct Hs as (Hb & Hl & Ht); rewrite <- Ht, E; [|by rewrite Hb].
  by rewrite (level_state_same r r').
Qed.

Lemma rep_ok_same r r' : same_tables r r' → rep_ok r → rep_ok r'.
Proof.
  destruct r, r'. intros (E1 & E2 & E3) [H1 H2 H3 H4 H5 H6 H7]. cbn in E1, E2, E3. subst.
  split; [exact H1|exact H2|exact H3|exact H4|exact H5|exact H6|exact H7].
Qed.

Lemma update_blob_same n g r : same_tables (update_blob n g r) r.
Proof. unfold update_blob. destruct (n =? _); [done|]. by destruct (GetOrCreateMutableBlobFileMetaData n r). Qed.

Lemma set_level_state_lookup r l s l' :
  0 <= l → 0 <= l' → (Z.to_nat l < length (levels_ r))%nat →
  level_state (set_level_state l s r) l' = if decide (l' = l) then s else level_state r l'.
Proof.
  intros Hl Hl' Hlen. unfold level_state, set_level_state. cbn. destruct (decide (l' = l)) as [->|Hne].
  - by rewrite list_lookup_insert_eq.
  - rewrite list_lookup_insert_ne; [done|lia].
Qed.

(** The state after the deletion of a file, and after an addition. *)
Definition without_file (l n : Z) (r : Rep) : Rep :=
  let s := level_state r l in
  set_file_level n (-1) (set_level_state l (mkLevelState ({[n]} ∪ deleted_files s) (delete n (added_files s))) r).

Definition with_file (l : Z) (f : FileMetaData) (r : Rep) : Rep :=
  let s := level_state r l in
  set_file_level (GetNumber f) l
    (set_level_state l (mkLevelState (deleted_files s ∖ {[GetNumber f]}) (<[GetNumber f := f]> (added_files s))) r).

Lemma without_file_spec l n f r :
  rep_ok r → current r n = Some (l, f) →
  rep_ok (without_file (Z.of_nat l) n r) ∧
  ∀ k, current (without_file (Z.of_nat l) n r) k = if decide (k = n) then None else current r k.
Proof.
  intros Hr Hc. pose proof (current_level r n Hr) as Hlev. rewrite Hc in Hlev. destruct Hlev as (_ & Hl & Hn).
  set (L := Z.of_nat l). assert (HL : (Z.to_nat L < length (levels_ r))%nat) by (rewrite (ro_length r Hr); lia).
  assert (Hst : ∀ l', 0 <= l' → level_state (without_file L n r) l' = if decide (l' = L)
    then mkLevelState ({[n]} ∪ deleted_files (level_state r L)) (delete n (added_files (level_state r L)))
    else level_state r l') by (intros; apply set_level_state_lookup; lia).
  assert (Ht : ∀ k, table_file_levels_ (without_file L n r) !! k = if decide (k = n) then Some (-1) else table_file_levels_ r !! k).
  { intros k. cbn. destruct (decide (k = n)) as [->|]; [by rewrite lookup_insert_eq|by rewrite lookup_insert_ne]. }
  assert (Hoff : ∀ l' f', 0 <= l' → l' ≠ L → added_files (level_state r l') !! n = Some f' → False).
  { intros l' f' Hl' Hne Ha. destruct (ro_added r Hr l' n f' Hl' Ha) as (_ & E & _).
    pose proof (current_level r n Hr) as Hlev. rewrite Hc in Hlev. destruct Hlev as [Hg _].
    unfold GetCurrentLevelForTableFile in Hg. rewrite E in Hg. lia. }
  split; [split|].
  - apply Hr.
  - cbn. rewrite length_insert. apply Hr.
  - intros k l'. rewrite Ht. destruct (decide (k = n)); [intros [= <-]; by left|]. apply (ro_levels r Hr).
  - intros l' k g Hl'. rewrite Hst, Ht by done. destruct (decide (l' = L)) as [->|Hne]; cbn.
    + intros [Hk Hg]%lookup_delete_Some. rewrite decide_False by done.
      destruct (ro_added r Hr L k g Hl' Hg) as (? & ? & ?). split_and!; [done..|]. set_solver.
    + intros Hg. destruct (decide (k = n)) as [->|]; [by destruct (Hoff l' g Hl' Hne)|].
      by apply (ro_added r Hr).
  - intros k l'. rewrite Ht. destruct (decide (k = n)); [intros [= <-]; lia|]. intros Hk Hl'. rewrite Hst by done.
    destruct (decide (l' = L)) as [->|]; [|by apply (ro_at r Hr)]. cbn. rewrite lookup_delete_ne by done.
    by apply (ro_at r Hr).
  - intros k l' Hl'. rewrite Hst, Ht by done. destruct (decide (k = n)); [by eexists|].
    destruct (decide (l' = L)) as [->|]; cbn; [|by apply (ro_deleted r Hr)].
    intros Hk. apply (ro_deleted r Hr k L Hl'). set_solver.
  - intros k b g l' Hb. rewrite Ht, Hst by lia. destruct (decide (k = n)) as [->|Hk].
    + intros [= <-]. right. destruct (decide (Z.of_nat b = L)) as [|Hne]; cbn; [set_solver|].
      unfold current in Hc. destruct (table_file_levels_ r !! n) as [c|] eqn:E.
      * destruct (ro_base r Hr n b g c Hb E) as [->|]; [|done]. exfalso.
        destruct (Z.eqb_spec (Z.of_nat b) (-1)); [lia|]. apply fmap_Some in Hc as (? & _ & [= -> _]). lia.
      * change (base_file (base_vstorage_ r) n = Some (b, g)) in Hb. rewrite Hb in Hc. simplify_eq.
    + intros E. destruct (ro_base r Hr k b g l' Hb E) as [->|]; [by left|right].
      destruct (decide (Z.of_nat b = L)) as [<-|]; cbn; [set_solver|done].
  - intros k. unfold current. rewrite Ht. destruct (decide (k = n)) as [->|Hk]; [done|].
    destruct (table_file_levels_ r !! k) as [c|] eqn:E; [|done]. destruct (Z.eqb_spec c (-1)); [done|].
    destruct (ro_levels r Hr k c E); [lia|]. rewrite Hst by lia.
    destruct (decide (c = L)) as [->|]; [|done]. cbn. by rewrite lookup_delete_ne.
Qed.

Lemma with_file_spec l f r :
  rep_ok r → 0 <= l < Z.of_nat (builder_num_levels r) → current r (GetNumber f) = None →
  rep_ok (with_file l f r) ∧
  ∀ k, current (with_file l f r) k = if decide (k = GetNumber f) then Some (Z.to_nat l, f) else current r k.
Proof.
  intros Hr Hl Hc. set (n := GetNumber f) in *.
  assert (HL : (Z.to_nat l < length (levels_ r))%nat) by (rewrite (ro_length r Hr); lia).
  assert (Hst : ∀ l', 0 <= l' → level_state (with_file l f r) l' = if decide (l' = l)
    then mkLevelState (deleted_files (level_state r l) ∖ {[n]}) (<[n := f]> (added_files (level_state r l)))
    else level_state r l') by (intros; apply set_level_state_lookup; lia).
  assert (Ht : ∀ k, table_file_levels_ (with_file l f r) !! k = if decide (k = n) then Some l else table_file_levels_ r !! k).
  { intros k. cbn. fold n. destruct (decide (k = n)) as [->|]; [by rewrite lookup_insert_eq|by rewrite lookup_insert_ne]. }
  assert (Hoff : ∀ l' f', 0 <= l' → added_files (level_state r l') !! n = Some f' → False).
  { intros l' f' Hl' Ha. destruct (ro_added r Hr l' n f' Hl' Ha) as (_ & E & _). unfold current in Hc.
    rewrite E, Ha in Hc. destruct (Z.eqb_spec l' (-1)); [lia|done]. }
  split; [split|].
  - apply Hr.
  - cbn. rewrite length_insert. apply Hr.
  - intros k l'. rewrite Ht. destruct (decide (k = n)); [intros [= <-]; by right|]. apply (ro_levels r Hr).
  - intros l' k g Hl'. rewrite Hst, Ht by done. destruct (decide (l' = l)) as [->|Hne]; cbn.
    + intros [[<- <-]|[Hk Hg]]%lookup_insert_Some; [rewrite decide_True by done; set_solver|].
      rewrite decide_False by done. destruct (ro_added r Hr l k g Hl' Hg) as (? & ? & ?). split_and!; [done..|]. set_solver.
    + intros Hg. destruct (decide (k = n)) as [->|]; [by destruct (Hoff l' g Hl')|]. by apply (ro_added r Hr).
  - intros k l'. rewrite Ht. destruct (decide (k = n)) as [->|].
    + intros [= <-] ?. rewrite Hst, decide_True by done. cbn. by rewrite lookup_insert_eq.
    + intros Hk Hl'. rewrite Hst by done. destruct (decide (l' = l)) as [->|]; [|by apply (ro_at r Hr)].
      cbn. rewrite lookup_insert_ne by done. by apply (ro_at r Hr).
  - intros k l' Hl'. rewrite Hst, Ht by done. destruct (decide (k = n)); [by eexists|].
    destruct (decide (l' = l)) as [->|]; cbn; [|by apply (ro_deleted r Hr)].
    intros Hk. apply (ro_deleted r Hr k l Hl'). set_solver.
  - intros k b g l' Hb. rewrite Ht, Hst by lia. change (base_file (base_vstorage_ r) k = Some (b, g)) in Hb.
    destruct (decide (k = n)) as [->|Hk].
    + intros [= <-]. destruct (decide (Z.of_nat b = l)) as [|Hne]; [by left|right].
      unfold current in Hc. destruct (table_file_levels_ r !! n) as [c|] eqn:E; [|congruence].
      destruct (ro_base r Hr n b g c Hb E) as [->|]; [|done]. exfalso.
      destruct (ro_at r Hr n _ E ltac:(lia)) as [? Ha]. by apply (Hoff (Z.of_nat b) _ ltac:(lia) Ha).
    + intros E. destruct (ro_base r Hr k b g l' Hb E) as [->|]; [by left|right].
      destruct (decide (Z.of_nat b = l)) as [<-|]; cbn; [set_solver|done].
  - intros k. unfold current. rewrite Ht. destruct (decide (k = n)) as [->|Hk].
    + destruct (Z.eqb_spec l (-1)); [lia|]. rewrite Hst by lia. rewrite decide_True by done. cbn. by rewrite lookup_insert_eq.
    + destruct (table_file_levels_ r !! k) as [c|] eqn:E; [|done]. destruct (Z.eqb_spec c (-1)); [done|].
      destruct (ro_levels r Hr k c E); [lia|]. rewrite Hst by lia.
      destruct (decide (c = l)) as [->|]; [|done]. cbn. by rewrite lookup_insert_ne.
Qed.

(** *** Applying edits *)

Definition models (r : Rep) (m : lsm) : Prop := ∀ n, current r n = m !! n.

(** The errors about table files. *)
Definition file_error (e : BuilderError) : bool :=
  match e with CannotDelete _ _ _ | CannotAdd _ _ _ => true | _ => false end.

(** An operation on [base] does what it means: it succeeds only when the meaning
    is defined, and reports a table file only when it is not. *)
Definition refines (base : BuiltVersion) (o : outcome) (mo : option lsm) : Prop :=
  match o with
  | (r, None) => base_vstorage_ r = base ∧ rep_ok r ∧ ∃ m, mo = Some m ∧ models r m
  | (_, Some e) => file_error e = true → mo = None
  end.

Section edits.
Context `{Comparator} {E : BuilderEnv} (base : BuiltVersion).

Lemma refines_same r r' m :
  same_tables r r' → base_vstorage_ r = base → rep_ok r → models r m → refines base (r', None) (Some m).
Proof.
  intros Hs Hb Hr Hm. split_and!; [by rewrite <- (proj1 Hs)|by eapply rep_ok_same|].
  exists m. split; [done|]. intros n. rewrite <- (current_same r r'); [apply Hm|done].
Qed.

Lemma deletion_refines r m level n :
  base_vstorage_ r = base → rep_ok r → models r m → 0 <= level < Z.of_nat (builder_num_levels r) →
  refines base (ApplyFileDeletion level n r) (lsm_delete m (level, n)).
Proof.
  intros Hb Hr Hm Hl. unfold ApplyFileDeletion, lsm_delete. cbn [fst snd]. rewrite <- (Hm n).
  pose proof (current_level r n Hr) as Hc. destruct (current r n) as [[l f]|] eqn:Ec.
  2:{ rewrite Hc. by destruct (Z.eqb_spec level (-1)); [lia|]. }
  destruct Hc as (-> & Hlt & _). rewrite (Z.eqb_sym level). destruct (Z.eqb_spec (Z.of_nat l) level) as [<-|]; [|done].
  cbn [negb]. destruct (Z.leb_spec (Z.of_nat (builder_num_levels r)) (Z.of_nat l)); [lia|].
  destruct (without_file_spec l n f r Hr Ec) as [Hok Hcur].
  assert (Hm' : models (without_file (Z.of_nat l) n r) (delete n m)).
  { intros k. rewrite Hcur. destruct (decide (k = n)) as [->|]; [by rewrite lookup_delete_eq|by rewrite lookup_delete_ne]. }
  assert (Hst : ∀ r1, same_tables r1 r → same_tables (without_file (Z.of_nat l) n r) (without_file (Z.of_nat l) n r1)).
  { intros r1 Hs. unfold without_file. rewrite <- (level_state_same r1 r) by done. destruct Hs as (? & E1 & E2).
    unfold same_tables. cbn. by rewrite E1, E2. }
  specialize (Hst _ (update_blob_same (GetOldestBlobFileNumberForTableFile (Z.of_nat l) n r) (UnlinkSst n) r)).
  destruct (track_found_and_missing_files_ r); apply (refines_same (without_file (Z.of_nat l) n r)); done.
Qed.

Lemma addition_refines r m level f :
  base_vstorage_ r = base → rep_ok r → models r m → 0 <= level < Z.of_nat (builder_num_levels r) →
  refines base (ApplyFileAddition level f r) (lsm_add m (level, f)).
Proof.
  intros Hb Hr Hm Hl. unfold ApplyFileAddition, lsm_add. cbn [fst snd]. rewrite <- (Hm (GetNumber f)).
  pose proof (current_level r (GetNumber f) Hr) as Hc. destruct (current r (GetNumber f)) as [[l g]|] eqn:Ec.
  { destruct Hc as (-> & _). by destruct (Z.eqb_spec (Z.of_nat l) (-1)); [lia|]. }
  rewrite Hc. cbn [negb Z.eqb Pos.eqb]. destruct (Z.leb_spec (Z.of_nat (builder_num_levels r)) level); [lia|].
  destruct (reserve_metadata f); [|done]. destruct (with_file_spec level f r Hr Hl Ec) as [Hok Hcur].
  assert (Hm' : models (with_file level f r) (<[GetNumber f := (Z.to_nat level, f)]> m)).
  { intros k. rewrite Hcur. destruct (decide (k = GetNumber f)) as [->|]; [by rewrite lookup_insert_eq|by rewrite lookup_insert_ne]. }
  set (r2 := set_level_state level _ (set_level_state level _ r)).
  set (r4 := set_file_level _ _ (update_blob _ _ r2)).
  assert (Hst : same_tables (with_file level f r) r4).
  { pose proof (update_blob_same (oldest_blob_file_number f) (LinkSst (GetNumber f)) r2) as (E1 & E2 & E3).
    unfold same_tables, r4. cbn. rewrite E1, E2, E3. unfold r2. cbn. by rewrite list_insert_insert_eq. }
  destruct (track_found_and_missing_files_ r); [|by apply (refines_same (with_file level f r))].
  destruct (verify_file level f); [| | |done]; by apply (refines_same (with_file level f r)).
Qed.

Lemma blob_addition_refines r m a :
  base_vstorage_ r = base → rep_ok r → models r m → refines base (ApplyBlobFileAddition a r) (Some m).
Proof.
  intros Hb Hr Hm. unfold ApplyBlobFileAddition. destruct (IsBlobFileInVersion _ r); [done|].
  destruct (track_found_and_missing_files_ r); [|by apply (refines_same r)].
  destruct (verify_blob_file a); [| | |done]; by apply (refines_same r).
Qed.

Lemma blob_garbage_refines r m g :
  base_vstorage_ r = base → rep_ok r → models r m → refines base (ApplyBlobFileGarbage g r) (Some m).
Proof.
  intros Hb Hr Hm. unfold ApplyBlobFileGarbage. destruct (GetOrCreateMutableBlobFileMetaData _ r) as [b|]; [|done].
  destruct (AddGarbage _ _ b); [|done]. by apply (refines_same r).
Qed.

Lemma cursor_refines r m l k :
  base_vstorage_ r = base → rep_ok r → models r m → refines base (ApplyCompactCursors l k r) (Some m).
Proof.
  intros Hb Hr Hm. unfold ApplyCompactCursors. destruct (l <? 0); [done|].
  destruct (l <? _); by apply (refines_same r).
Qed.

(** The consistency checks report other errors. *)
Lemma neighbours_error (checker : FileMetaData → FileMetaData → option BuilderError) lhs rest expected e x :
  (∀ f g err, checker f g = Some err → file_error err = false) →
  check_neighbours checker lhs rest expected = (Some e, x) → file_error e = false.
Proof.
  intros Hc. revert lhs expected. induction rest as [|rhs rest IH]; intros lhs expected; cbn [check_neighbours]; [done|].
  destruct (checker lhs rhs) as [err|] eqn:Ee; [|apply IH]. intros [= <- _]. by eapply Hc.
Qed.

Lemma details_error (checker : FileMetaData → FileMetaData → option BuilderError) files expected e x :
  (∀ f g err, checker f g = Some err → file_error err = false) →
  CheckConsistencyDetailsForLevel checker files expected = (Some e, x) → file_error e = false.
Proof. intros Hc. destruct files as [|f files]; [done|]. by apply neighbours_error. Qed.

Lemma check_error v e : CheckConsistency v = Some e → file_error e = false.
Proof.
  assert (Hlev : ∀ l f g err, level_checker l f g = Some err → file_error err = false).
  { intros l f g err. unfold level_checker. repeat case_match; intros; by simplify_eq. }
  assert (H0 : ∀ q f g err, l0_checker q f g = Some err → file_error err = false).
  { intros q f g err. unfold l0_checker. repeat case_match; intros; by simplify_eq. }
  assert (Hls : ∀ files l expected err x, check_levels l files expected = (Some err, x) → file_error err = false).
  { induction files as [|fs files IH]; intros l expected err x; cbn [check_levels]; [done|].
    destruct (CheckConsistencyDetailsForLevel _ fs expected) as [[e'|] x'] eqn:Ed; [|apply IH].
    intros [= <- _]. eapply details_error; [apply Hlev|exact Ed]. }
  assert (Hbl : ∀ bs expected err, check_blob_files expected bs = Some err → file_error err = false).
  { induction bs as [|b bs IH]; intros expected err; cbn [check_blob_files]; [done|].
    destruct (_ <=? _); [by intros [= <-]|]. destruct (decide _); [apply IH|by intros [= <-]]. }
  unfold CheckConsistency, CheckConsistencyDetails. destruct (bv_force_consistency_checks v); [|done].
  destruct (files_ (bv_storage v)) as [|l0 files]; [apply Hbl|].
  destruct (CheckConsistencyDetailsForLevel _ l0 ∅) as [[e'|] x'] eqn:Ed.
  { intros [= <-]. eapply details_error; [apply H0|exact Ed]. }
  destruct (check_levels 1 files x') as [[e'|] x''] eqn:El; [|apply Hbl]. intros [= <-]. by eapply Hls.
Qed.

(** Loops and sequences. *)
Lemma each_refines {A} (f : A → Rep → outcome) (g : lsm → A → option lsm) l : ∀ r m,
  (∀ r m a, a ∈ l → base_vstorage_ r = base → rep_ok r → models r m → refines base (f a r) (g m a)) →
  base_vstorage_ r = base → rep_ok r → models r m → refines base (apply_each f l r) (try_each g l m).
Proof.
  induction l as [|a l IH]; intros r m Hf Hb Hr Hm; cbn [apply_each try_each].
  { split_and!; [done..|]. by exists m. }
  pose proof (Hf r m a ltac:(left) Hb Hr Hm) as Ha. destruct (f a r) as [r1 [e|]]; cbn [refines] in Ha |- *.
  - intros He. by rewrite Ha.
  - destruct Ha as (Hb1 & Hr1 & m1 & -> & Hm1). cbn [mbind option_bind].
    apply IH; [|done..]. intros. apply Hf; [by right|done..].
Qed.

Lemma then_refines (k : Rep → outcome) (k' : lsm → option lsm) o mo :
  refines base o mo →
  (∀ r m, base_vstorage_ r = base → rep_ok r → models r m → refines base (k r) (k' m)) →
  refines base (then_apply k o) (m ← mo; k' m).
Proof.
  intros Ho Hk. destruct o as [r [e|]]; cbn [refines then_apply] in Ho |- *.
  - intros He. by rewrite Ho.
  - destruct Ho as (Hb & Hr & m & -> & Hm). cbn. by apply Hk.
Qed.

Lemma try_each_same {A} (l : list A) (m : lsm) : try_each (λ m _, Some m) l m = Some m.
Proof. induction l as [|a l IH]; [done|]. exact IH. Qed.

Lemma apply_refines e r m :
  base_vstorage_ r = base → rep_ok r → models r m → levels_in_range (num_levels (bv_storage base)) e →
  refines base (Apply e r) (lsm_edit m e).
Proof.
  intros Hb Hr Hm [Hd Hn]. rewrite Forall_forall in Hd. rewrite Forall_forall in Hn. unfold Apply.
  destruct (CheckConsistency (base_vstorage_ r)) as [err|] eqn:Ec.
  { cbn. by rewrite (check_error _ _ Ec). }
  assert (Hadd : refines base (then_apply (apply_each (λ f, ApplyFileAddition f.1 f.2) (new_files_ e))
    (then_apply (apply_each (λ d, ApplyFileDeletion d.1 d.2) (deleted_files_ e))
      (then_apply (apply_each ApplyBlobFileGarbage (blob_file_garbages_ e))
        (apply_each ApplyBlobFileAddition (blob_file_additions_ e) r)))) (lsm_edit m e)).
  { apply then_refines; [|intros r1 m1 ???; apply each_refines; [|done..]; intros r2 m2 [l f] Hin Hb2 ??;
      apply addition_refines; [done..|]; unfold builder_num_levels; rewrite Hb2; by apply (Hn (l, f))].
    change (try_each lsm_delete (deleted_files_ e) m) with (m ← Some m; try_each lsm_delete (deleted_files_ e) m).
    apply then_refines; [|intros r1 m1 ???; apply each_refines; [|done..]; intros r2 m2 [l n] Hin Hb2 ??;
      apply deletion_refines; [done..|]; unfold builder_num_levels; rewrite Hb2; by apply (Hd (l, n))].
    rewrite <- (try_each_same (blob_file_garbages_ e) m).
    change (try_each (λ m _, Some m) (blob_file_garbages_ e) m)
      with (m ← Some m; try_each (λ m _, Some m) (blob_file_garbages_ e) m).
    apply then_refines; [|intros r1 m1 ???; apply each_refines; [|done..]; intros; by apply blob_garbage_refines].
    rewrite <- (try_each_same (blob_file_additions_ e) m). apply each_refines; [|done..]. intros. by apply blob_addition_refines. }
  replace (lsm_edit m e) with (m' ← (m' ← lsm_edit m e; try_each (λ m _, Some m) (compact_cursors_ e) m'); Some m')
    by (destruct (lsm_edit m e); cbn; [by rewrite try_each_same|done]).
  apply then_refines; [apply then_refines; [exact Hadd|]|].
  - intros r1 m1 ???. apply each_refines; [|done..]. intros. by apply cursor_refines.
  - intros r1 m1 ???. apply (refines_same r1); [|done..]. unfold note_update. by destruct (_ && _).
Qed.
End edits.

(** ** Saving *)

(** *** The orders of a level *)

Definition seqno_compare : FileMetaData → FileMetaData → comparison :=
  lex_compare (cmp_on largest_seqno (cmp_flip Z.compare))
    (lex_compare (cmp_on smallest_seqno (cmp_flip Z.compare)) (cmp_on GetNumber (cmp_flip Z.compare))).
Definition epoch_compare : FileMetaData → FileMetaData → comparison :=
  lex_compare (cmp_on epoch_number (cmp_flip Z.compare)) seqno_compare.
Definition smallest_compare `{Comparator} : FileMetaData → FileMetaData → comparison :=
  lex_compare (cmp_on smallest InternalKeyCompare) (cmp_on GetNumber Z.compare).

(** The order of level [l]. *)
Definition level_order `{Comparator} (req : EpochNumberRequirement) (l : nat) : FileMetaData → FileMetaData → bool :=
  if (l =? 0)%nat then l0_order req else BySmallestKey.
Definition level_compare `{Comparator} (req : EpochNumberRequirement) (l : nat)
    : FileMetaData → FileMetaData → comparison :=
  if (l =? 0)%nat then match req with kMightMissing => seqno_compare | kMustPresent => epoch_compare end
  else smallest_compare.

Section orders.
Context (C : Comparator) (HC : ComparatorOk C) (req : EpochNumberRequirement) (l : nat).

#[local] Instance seqno_compare_ok : CompareOk seqno_compare.
Proof. apply _. Qed.
#[local] Instance epoch_compare_ok : CompareOk epoch_compare.
Proof. apply _. Qed.
#[local] Instance smallest_compare_ok : CompareOk smallest_compare.
Proof using HC. apply _. Qed.

Lemma level_compare_ok : CompareOk (level_compare req l).
Proof using HC. unfold level_compare. destruct (l =? 0)%nat; [destruct req|]; apply _. Qed.

Lemma seqno_order_compare f g : NewestFirstBySeqNo f g = true ↔ seqno_compare f g = Lt.
Proof.
  unfold NewestFirstBySeqNo, seqno_compare, lex_compare, cmp_on, cmp_flip.
  destruct (Z.eqb_spec (largest_seqno f) (largest_seqno g)) as [->|]; cbn [negb].
  2:{ destruct (Z.compare_spec (largest_seqno g) (largest_seqno f)); rewrite Z.ltb_lt; split; intros; done || lia. }
  rewrite Z.compare_refl. destruct (Z.eqb_spec (smallest_seqno f) (smallest_seqno g)) as [->|]; cbn [negb].
  2:{ destruct (Z.compare_spec (smallest_seqno g) (smallest_seqno f)); rewrite Z.ltb_lt; split; intros; done || lia. }
  rewrite Z.compare_refl, Z.ltb_lt. by rewrite <- Z.compare_lt_iff.
Qed.

Lemma level_order_compare f g : level_order req l f g = true ↔ level_compare req l f g = Lt.
Proof using HC.
  unfold level_order, level_compare. destruct (l =? 0)%nat; [destruct req; cbn [l0_order]|].
  - apply seqno_order_compare.
  - unfold NewestFirstByEpochNumber, epoch_compare, lex_compare at 1, cmp_on at 1, cmp_flip at 1.
    destruct (Z.eqb_spec (epoch_number f) (epoch_number g)) as [->|]; cbn [negb].
    + rewrite Z.compare_refl. apply seqno_order_compare.
    + destruct (Z.compare_spec (epoch_number g) (epoch_number f)); rewrite Z.ltb_lt; split; intros; done || lia.
  - unfold BySmallestKey, smallest_compare, lex_compare, cmp_on. destruct (InternalKeyCompare _ _); [|done..].
    by rewrite Z.ltb_lt, <- Z.compare_lt_iff.
Qed.

(** Files with different numbers are ordered. *)
Lemma level_order_total f g :
  level_order req l f g = false → level_order req l g f = false → GetNumber f = GetNumber g.
Proof using HC.
  pose proof level_compare_ok as Hok. intros H1 H2.
  rewrite <- not_true_iff_false, level_order_compare in H1. rewrite <- not_true_iff_false, level_order_compare in H2.
  assert (Heq : level_compare req l f g = Eq).
  { rewrite (compare_opp (level_compare req l) f g) in H2. by destruct (level_compare req l f g). }
  clear -Heq. unfold level_compare, epoch_compare, seqno_compare, smallest_compare, lex_compare, cmp_on, cmp_flip in Heq.
  repeat case_match; try done; first [by apply Z.compare_eq|symmetry; by apply Z.compare_eq].
Qed.
End orders.

(** *** Merging *)

Section merge.
Context (cmp : FileMetaData → FileMetaData → bool).

Lemma merge_files_perm base added : merge_files cmp base added ≡ₚ (pair false <$> base) ++ (pair true <$> added).
Proof.
  revert added. induction base as [|b base IH]; intros added; [done|].
  induction added as [|a added IHa]; cbn.
  { rewrite IH. done. }
  destruct (cmp a b).
  - change ((true, a) :: merge_files cmp (b :: base) added ≡ₚ
      (false, b) :: (pair false <$> base) ++ (true, a) :: (pair true <$> added)).
    rewrite IHa. cbn. rewrite <- Permutation_middle. apply Permutation_swap.
  - rewrite IH. done.
Qed.

Context (Hswo : StrictWeakOrder cmp).

Definition in_order : FileMetaData → FileMetaData → Prop := λ f g, cmp g f = false.

Lemma in_order_trans f g h : in_order f g → in_order g h → in_order f h.
Proof using Hswo. unfold in_order. apply (swo_le_trans cmp (λ _, True) (swo_on _ _ Hswo) f g h); done. Qed.

Lemma merge_files_elems base added : (merge_files cmp base added).*2 ≡ₚ base ++ added.
Proof using Type.
  rewrite merge_files_perm, fmap_app, <- !list_fmap_compose.
  by rewrite (list_fmap_id base : (snd ∘ pair false) <$> base = base), (list_fmap_id added : (snd ∘ pair true) <$> added = added).
Qed.

(** Merging sorted lists gives a sorted list. *)
Lemma merge_files_sorted base added :
  StronglySorted in_order base → StronglySorted in_order added →
  StronglySorted in_order (merge_files cmp base added).*2.
Proof using Hswo.
  revert added. induction base as [|b base IH]; intros added Hb Ha.
  { cbn. by rewrite <- list_fmap_compose, (list_fmap_id added : (snd ∘ pair true) <$> added = added). }
  pose proof Hb as [Hb' Hbf]%StronglySorted_inv. induction added as [|a added IHa].
  { cbn. constructor; [by apply IH|]. by rewrite merge_files_elems, app_nil_r. }
  pose proof Ha as [Ha' Haf]%StronglySorted_inv. destruct (cmp a b) eqn:Eab; cbn; rewrite Eab; cbn.
  - constructor; [by apply IHa|]. change (Forall (in_order a) (merge_files cmp (b :: base) added).*2).
    rewrite merge_files_elems. assert (Hab : in_order a b) by (by apply (swo_asym cmp (λ _, True) (swo_on _ _ Hswo))).
    apply Forall_app. split; [constructor; [done|]|done]. eapply Forall_impl; [exact Hbf|]. intros x. by apply in_order_trans.
  - constructor; [by apply IH|]. rewrite merge_files_elems. apply Forall_app. split; [done|].
    constructor; [done|]. eapply Forall_impl; [exact Haf|]. intros x. by apply in_order_trans.
Qed.
End merge.

(** *** The files of a saved level *)

(** What [MaybeAddFile] keeps. *)
Definition keeps_file (r : Rep) (level : nat) (x : bool * FileMetaData) : bool :=
  let n := GetNumber x.2 in
  let s := level_state r (Z.of_nat level) in
  negb (track_found_and_missing_files_ r && (level =? 0)%nat && bool_decide (n ∈ l0_missing_files_ (tracking_ r))) &&
  negb (bool_decide (n ∈ deleted_files s)) &&
  negb (match added_files s !! n with Some _ => negb x.1 | None => false end).

(** The fields the table files do not touch. *)
Definition same_rest (v v' : BuiltVersion) : Prop :=
  num_levels (bv_storage v') = num_levels (bv_storage v) ∧ bv_blob_files v' = bv_blob_files v ∧
  bv_compact_cursor v' = bv_compact_cursor v ∧ bv_force_consistency_checks v' = bv_force_consistency_checks v.

Lemma add_file_level l f v l' :
  (l < num_levels v)%nat →
  LevelFiles (AddFile l f v) l' = if decide (l' = l) then LevelFiles v l ++ [f] else LevelFiles v l'.
Proof.
  unfold num_levels. intros Hl. unfold LevelFiles, AddFile. cbn. destruct (decide (l' = l)) as [->|].
  - rewrite list_lookup_alter_eq. destruct (lookup_lt_is_Some_2 _ _ Hl) as [fs ->]. done.
  - by rewrite list_lookup_alter_ne.
Qed.

Lemma maybe_add_files r level xs : ∀ v, (level < num_levels (bv_storage v))%nat →
  let v' := foldl (MaybeAddFile r level) v xs in
  same_rest v v' ∧ bv_epoch_number_requirement v' = bv_epoch_number_requirement v ∧
  ∀ l, LevelFiles (bv_storage v') l = if decide (l = level)
    then LevelFiles (bv_storage v) level ++ (filter (λ x, keeps_file r level x = true) xs).*2 else LevelFiles (bv_storage v) l.
Proof.
  induction xs as [|[b f] xs IH]; intros v Hl; cbn [foldl].
  { split_and!; [done..|]. intros l. cbn. rewrite app_nil_r. by destruct (decide _) as [->|]. }
  assert (Hstep : MaybeAddFile r level v (b, f) = if keeps_file r level (b, f)
    then v <| bv_storage := AddFile level f (bv_storage v) |> else v).
  { unfold MaybeAddFile, keeps_file. cbn [fst snd]. destruct (_ && _ && _); [done|]. cbn [negb andb].
    destruct (bool_decide _); [done|]. cbn [negb andb]. by destruct (match added_files _ !! _ with Some _ => _ | None => _ end). }
  rewrite Hstep. rewrite filter_cons. destruct (keeps_file r level (b, f)) eqn:Ek; cbn [decide_rel].
  - rewrite decide_True by done.
    destruct (IH (v <| bv_storage := AddFile level f (bv_storage v) |>)) as (Hrest & Hq & Hlev).
    { cbn. unfold num_levels in *. cbn. by rewrite length_alter. }
    split_and!; [|done|].
    + destruct Hrest as (Hn & ? & ? & ?). split_and!; [|done..]. rewrite Hn. unfold num_levels. cbn. apply length_alter.
    + intros l. rewrite Hlev. cbn [bv_storage]. rewrite !add_file_level by done.
      destruct (decide (l = level)) as [->|]; [|done]. rewrite decide_True by done. cbn. by rewrite <- app_assoc.
  - rewrite decide_False by done. by apply IH.
Qed.

Section saved.
Context (C : Comparator) (HC : ComparatorOk C) `{StdChoices}.

Definition saved_level (r : Rep) (req : EpochNumberRequirement) (l : nat) : list FileMetaData :=
  (filter (λ x, keeps_file r l x = true)
    (MergeUnorderdAddedFilesWithBase (level_order req l) (LevelFiles (bv_storage (base_vstorage_ r)) l)
       (added_files (level_state r (Z.of_nat l))))).*2.

Lemma save_levels r ls : ∀ v, NoDup ls → Forall (λ l, (0 < l < num_levels (bv_storage v))%nat) ls →
  let v' := foldl (λ v level, SaveLevelTo r level BySmallestKey v) v ls in
  same_rest v v' ∧ bv_epoch_number_requirement v' = bv_epoch_number_requirement v ∧
  ∀ l, LevelFiles (bv_storage v') l = LevelFiles (bv_storage v) l ++
    if decide (l ∈ ls) then saved_level r (bv_epoch_number_requirement v) l else [].
Proof using Type.
  induction ls as [|k ls IH]; intros v Hnd Hin; cbn [foldl].
  { split_and!; [done..|]. intros l. rewrite decide_False by apply not_elem_of_nil. by rewrite app_nil_r. }
  apply NoDup_cons in Hnd as [Hk Hnd]. apply Forall_cons in Hin as [Hk' Hin].
  destruct (maybe_add_files r k (MergeUnorderdAddedFilesWithBase BySmallestKey
    (LevelFiles (bv_storage (base_vstorage_ r)) k) (added_files (level_state r (Z.of_nat k)))) v) as (Hr1 & Hq1 & Hl1); [lia|].
  fold (SaveLevelTo r k BySmallestKey v) in Hr1, Hq1, Hl1. set (v1 := SaveLevelTo r k BySmallestKey v) in *.
  destruct (IH v1 Hnd) as (Hr2 & Hq2 & Hl2).
  { eapply Forall_impl; [exact Hin|]. cbn. intros l ?. destruct Hr1 as (-> & _). lia. }
  split_and!.
  - destruct Hr1 as (? & ? & ? & ?), Hr2 as (? & ? & ? & ?). split_and!; congruence.
  - congruence.
  - intros l. rewrite Hl2, Hl1, Hq1. destruct (decide (l = k)) as [->|Hne].
    + rewrite (decide_False (P := k ∈ ls)), (decide_True (P := k ∈ k :: ls)) by first [done|left]. rewrite app_nil_r.
      f_equal. unfold saved_level, level_order. by destruct (Nat.eqb_spec k 0); [lia|].
    + f_equal. destruct (decide (l ∈ ls)); [rewrite decide_True by (by right)|rewrite decide_False]; [done..|].
      by intros [?|?]%elem_of_cons.
Qed.

Lemma save_sst_levels r v :
  num_levels (bv_storage v) = builder_num_levels r → (∀ l, LevelFiles (bv_storage v) l = []) →
  let v' := SaveSSTFilesTo r v in
  same_rest v v' ∧ ∀ l, (l < builder_num_levels r)%nat →
    LevelFiles (bv_storage v') l = saved_level r (bv_epoch_number_requirement v') l.
Proof using Type.
  intros Hn He. unfold SaveSSTFilesTo. destruct (Nat.eqb_spec (builder_num_levels r) 0) as [E|E].
  { split; [done|]. intros l Hl. lia. }
  set (v1 := match bv_epoch_number_requirement v with kMightMissing => _ | kMustPresent => v end).
  assert (H1 : same_rest v v1 ∧ bv_storage v1 = bv_storage v).
  { unfold v1, PromoteEpochNumberRequirementIfNeeded. destruct (bv_epoch_number_requirement v); [|done].
    by destruct (_ || _). }
  destruct H1 as [Hr1 Hst1].
  destruct (maybe_add_files r 0 (MergeUnorderdAddedFilesWithBase (l0_order (bv_epoch_number_requirement v1))
    (LevelFiles (bv_storage (base_vstorage_ r)) 0) (added_files (level_state r (Z.of_nat 0)))) v1) as (Hr2 & Hq2 & Hl2);
    [rewrite Hst1; lia|].
  fold (SaveLevelTo r 0 (l0_order (bv_epoch_number_requirement v1)) v1) in Hr2, Hq2, Hl2.
  set (v2 := SaveLevelTo r 0 _ v1) in *.
  destruct (save_levels r (seq 1 (builder_num_levels r - 1)) v2) as (Hr3 & Hq3 & Hl3).
  { apply NoDup_seq. }
  { apply Forall_forall. intros l Hl%elem_of_seq. destruct Hr2 as (-> & _). rewrite Hst1. lia. }
  split; [destruct Hr1 as (? & ? & ? & ?), Hr2 as (? & ? & ? & ?), Hr3 as (? & ? & ? & ?); split_and!; congruence|].
  intros l Hl. rewrite Hl3, Hl2, Hq3, Hst1, !He. destruct (decide (l = 0%nat)) as [->|].
  - rewrite decide_False by (rewrite elem_of_seq; lia). rewrite app_nil_r, Hq2. done.
  - rewrite decide_True by (rewrite elem_of_seq; lia). done.
Qed.

(** No level-0 file is missing. *)
Definition none_missing (r : Rep) : Prop := track_found_and_missing_files_ r = true → l0_missing_files_ (tracking_ r) = ∅.

Abbreviation base_level r l := (LevelFiles (bv_storage (base_vstorage_ r)) l).
Abbreviation added_list r l := ((map_to_list (added_files (level_state r (Z.of_nat l)))).*2).

Lemma sorted_added_perm r req l :
  std_sort (level_order req l) (unordered_iter (added_list r l)) ≡ₚ added_list r l.
Proof using HC.
  rewrite std_sort_perm; [apply unordered_iter_perm|].
  eapply swo_of_compare; [apply (level_compare_ok C HC req l)|]. intros. apply (level_order_compare C HC).
Qed.

Lemma merged_perm r req l :
  MergeUnorderdAddedFilesWithBase (level_order req l) (base_level r l) (added_files (level_state r (Z.of_nat l))) ≡ₚ
  (pair false <$> base_level r l) ++ (pair true <$> added_list r l).
Proof using HC. unfold MergeUnorderdAddedFilesWithBase. by rewrite merge_files_perm, sorted_added_perm. Qed.

Lemma added_elem r l f :
  rep_ok r → f ∈ added_list r l ↔ added_files (level_state r (Z.of_nat l)) !! GetNumber f = Some f.
Proof using Type.
  intros Hr. rewrite list_elem_of_fmap. split.
  - intros ([n g] & -> & Hg%elem_of_map_to_list). destruct (ro_added r Hr (Z.of_nat l) n g ltac:(lia) Hg) as (<- & _). done.
  - intros Hf. exists (GetNumber f, f). split; [done|]. by apply elem_of_map_to_list.
Qed.

(** The files of a saved level: those of the base that are neither deleted nor
    superseded, and the added ones. *)
Lemma saved_parts r req l f :
  rep_ok r → none_missing r → f ∈ saved_level r req l ↔
  (GetNumber f ∉ deleted_files (level_state r (Z.of_nat l))) ∧
  (added_files (level_state r (Z.of_nat l)) !! GetNumber f = None ∧ f ∈ base_level r l ∨
   added_files (level_state r (Z.of_nat l)) !! GetNumber f = Some f).
Proof using HC.
  intros Hr Hmiss. unfold saved_level. rewrite list_elem_of_fmap.
  assert (Hk : ∀ b, keeps_file r l (b, f) = true ↔ (GetNumber f ∉ deleted_files (level_state r (Z.of_nat l))) ∧
    (b = false → added_files (level_state r (Z.of_nat l)) !! GetNumber f = None)).
  { intros b. unfold keeps_file. cbn [fst snd].
    replace (track_found_and_missing_files_ r && (l =? 0)%nat && _) with false.
    2:{ destruct (track_found_and_missing_files_ r) eqn:Et; [|done]. rewrite (Hmiss Et).
        rewrite bool_decide_false by set_solver. by rewrite andb_false_r. }
    rewrite !andb_true_iff, !negb_true_iff, bool_decide_eq_false. cbn [negb].
    destruct (added_files _ !! GetNumber f), b; cbn; split; intros; naive_solver. }
  transitivity (∃ b, (b, f) ∈ filter (λ x, keeps_file r l x = true) (MergeUnorderdAddedFilesWithBase (level_order req l)
    (base_level r l) (added_files (level_state r (Z.of_nat l))))).
  { split; [intros ([b g] & -> & ?); by exists b|intros [b ?]; by exists (b, f)]. }
  setoid_rewrite list_elem_of_filter. setoid_rewrite Hk. setoid_rewrite merged_perm. setoid_rewrite elem_of_app.
  setoid_rewrite list_elem_of_fmap.
  rewrite <- (added_elem r l f Hr). split.
  - intros ([] & [Hd Ha] & [(g & [=] & Hg)|(g & [=] & Hg)]); subst; (split; [done|]); [by right|left; split; auto].
  - intros [Hd [[Ha Hb]|Ha]]; [exists false|exists true]; (split; [by split|]); [left|right]; by exists f.
Qed.

Lemma saved_elem r req l f :
  rep_ok r → none_missing r → f ∈ saved_level r req l ↔ current r (GetNumber f) = Some (l, f).
Proof using HC.
  intros Hr Hmiss. rewrite saved_parts by done. unfold current. destruct (table_file_levels_ r !! GetNumber f) as [c|] eqn:Et.
  - split.
    + intros [Hd [[Ha Hb]|Ha]].
      * exfalso. assert (base_file (base_vstorage_ r) (GetNumber f) = Some (l, f)) as Hbf
          by (apply base_file_spec; [apply Hr|done]).
        destruct (ro_base r Hr _ l f c Hbf Et) as [->|]; [|done].
        destruct (ro_at r Hr _ _ Et ltac:(lia)) as [? E]. congruence.
      * destruct (ro_added r Hr (Z.of_nat l) _ f ltac:(lia) Ha) as (_ & E & _). rewrite Et in E. injection E as ->.
        destruct (Z.eqb_spec (Z.of_nat l) (-1)); [lia|]. rewrite Ha. cbn. by rewrite Nat2Z.id.
    + destruct (Z.eqb_spec c (-1)); [done|]. destruct (ro_levels r Hr _ c Et); [lia|].
      intros (g & Hg & [= -> ->])%fmap_Some. rewrite Z2Nat.id by lia.
      destruct (ro_added r Hr c _ g ltac:(lia) Hg) as (_ & _ & ?). split; [done|]. by right.
  - rewrite base_file_spec by apply Hr. split.
    + intros [_ [[_ ?]|Ha]]; [done|]. destruct (ro_added r Hr (Z.of_nat l) _ f ltac:(lia) Ha) as (_ & E & _). congruence.
    + intros [Hb _]. split.
      * intros Hd. destruct (ro_deleted r Hr _ (Z.of_nat l) ltac:(lia) Hd). congruence.
      * left. split; [|done]. destruct (added_files _ !! _) as [g|] eqn:Ea; [|done].
        destruct (ro_added r Hr (Z.of_nat l) _ g ltac:(lia) Ea) as (_ & E & _). congruence.
Qed.

Lemma level_numbers_nodup v l : locations_exact v → NoDup (GetNumber <$> LevelFiles v l).
Proof using Type.
  intros Hx. apply NoDup_alt. intros i j n Hi Hj. rewrite list_lookup_fmap in Hi, Hj.
  apply fmap_Some in Hi as (f & Hf & Hn). apply fmap_Some in Hj as (g & Hg & Hn').
  assert (file_locations_ v !! n = Some (l, i)) by (apply Hx; eauto).
  assert (file_locations_ v !! n = Some (l, j)) by (apply Hx; eauto). congruence.
Qed.

(** Every number once. *)
Lemma saved_nodup r req l : rep_ok r → NoDup (GetNumber <$> saved_level r req l).
Proof using HC.
  intros Hr. unfold saved_level. rewrite merged_perm, filter_app, fmap_app, fmap_app.
  set (s := level_state r (Z.of_nat l)).
  assert (Hb : (GetNumber <$> (filter (λ x, keeps_file r l x = true) (pair false <$> base_level r l)).*2)
    `sublist_of` (GetNumber <$> base_level r l)).
  { apply fmap_sublist. rewrite <- (list_fmap_id (base_level r l) : (snd ∘ pair false) <$> base_level r l = base_level r l) at 2.
    rewrite list_fmap_compose. apply fmap_sublist, sublist_filter. }
  assert (Ha : (GetNumber <$> (filter (λ x, keeps_file r l x = true) (pair true <$> added_list r l)).*2)
    `sublist_of` (GetNumber <$> added_list r l)).
  { apply fmap_sublist. rewrite <- (list_fmap_id (added_list r l) : (snd ∘ pair true) <$> added_list r l = added_list r l) at 2.
    rewrite list_fmap_compose. apply fmap_sublist, sublist_filter. }
  assert (Hkeys : GetNumber <$> added_list r l = (map_to_list (added_files s)).*1).
  { rewrite <- list_fmap_compose. apply list_fmap_ext. intros i [n f] Hi%list_elem_of_lookup_2%elem_of_map_to_list.
    by destruct (ro_added r Hr (Z.of_nat l) n f ltac:(lia) Hi). }
  apply NoDup_app. split_and!.
  - eapply sublist_NoDup; [|exact Hb]. apply level_numbers_nodup, Hr.
  - intros n Hn Hn'. apply list_elem_of_fmap in Hn as (f & -> & Hf). apply list_elem_of_fmap in Hf as (x & -> & Hx).
    apply list_elem_of_filter in Hx as [Hk (g & -> & _)%list_elem_of_fmap]. cbn in Hn'.
    unfold keeps_file in Hk. rewrite !andb_true_iff in Hk. destruct Hk as [_ Hk]. cbn [fst snd negb] in Hk.
    assert (Hin : GetNumber g ∈ GetNumber <$> added_list r l) by (by eapply elem_of_sublist).
    rewrite Hkeys in Hin. apply list_elem_of_fmap in Hin as ([m h] & E & Hm%elem_of_map_to_list). cbn in E. rewrite E in Hk.
    fold s in Hk. by rewrite Hm in Hk.
  - eapply sublist_NoDup; [|exact Ha]. rewrite Hkeys. apply NoDup_fst_map_to_list.
Qed.

Lemma sublist_sorted {A} (R : relation A) l l' : l `sublist_of` l' → StronglySorted R l' → StronglySorted R l.
Proof using Type.
  induction 1 as [|x l l' Hs IH|x l l' Hs IH]; [done|..]; intros [Hl Hx]%StronglySorted_inv; [|by apply IH].
  constructor; [by apply IH|]. rewrite Forall_forall in Hx. apply Forall_forall. intros y Hy. apply Hx.
  by eapply elem_of_sublist.
Qed.

Lemma sorted_distinct {A B} (R : relation A) (f : A → B) l :
  StronglySorted R l → NoDup (f <$> l) → StronglySorted (λ x y, R x y ∧ f x ≠ f y) l.
Proof using Type.
  induction 1 as [|x l Hl IH Hx]; cbn; [constructor|]. intros [Hn Hnd]%NoDup_cons. constructor; [by apply IH|].
  rewrite Forall_forall in Hx. apply Forall_forall. intros y Hy. split; [by apply Hx|].
  intros E. apply Hn. rewrite E. apply list_elem_of_fmap. by exists y.
Qed.

(** A saved level is in the order of its kind when that of the base is. *)
Lemma saved_sorted r req l :
  rep_ok r → StronglySorted (λ f g, level_order req l f g = true) (base_level r l) →
  StronglySorted (λ f g, level_order req l f g = true) (saved_level r req l).
Proof using HC.
  intros Hr Hb. pose proof (level_compare_ok C HC req l) as Hok.
  assert (Hswo : StrictWeakOrder (level_order req l)).
  { eapply swo_of_compare; [exact Hok|]. intros. apply (level_order_compare C HC). }
  eapply StronglySorted_impl; [|apply (sorted_distinct (in_order (level_order req l)) GetNumber);
    [|by apply saved_nodup]].
  - intros f g [Hfg Hne]. unfold in_order in Hfg. destruct (level_order req l f g) eqn:E; [done|].
    destruct Hne. by apply (level_order_total C HC req l).
  - unfold saved_level. eapply sublist_sorted; [apply fmap_sublist, sublist_filter|].
    unfold MergeUnorderdAddedFilesWithBase. apply merge_files_sorted; [done| |by apply std_sort_sorted].
    eapply StronglySorted_impl; [|exact Hb]. intros f g. cbn. unfold in_order.
    by apply (swo_asym _ (λ _, True) (swo_on _ _ Hswo)).
Qed.
End saved.

(** ** The builder implements the meaning of edits *)

Fixpoint lsm_edits (es : list VersionEdit) (m : lsm) : option lsm :=
  match es with
  | [] => Some m
  | e :: es' => m' ← lsm_edit m e; lsm_edits es' m'
  end.

(** The files of a version are those of [m]. *)
Definition version_models (v : VersionStorageInfo) (m : lsm) : Prop :=
  ∀ n l f, m !! n = Some (l, f) ↔ f ∈ LevelFiles v l ∧ GetNumber f = n.

(** The version a builder saves into: no files, and as many levels. *)
Definition fresh_version (levels : nat) (v : BuiltVersion) : Prop :=
  num_levels (bv_storage v) = levels ∧ (∀ l, LevelFiles (bv_storage v) l = []) ∧ bv_blob_files v = [].

Section refinement.
Context (C : Comparator) (HC : ComparatorOk C) `{StdChoices} {E : BuilderEnv}.

Lemma new_rep_models v m track allow :
  locations_exact (bv_storage v) → version_models (bv_storage v) m → models (NewRep v track allow) m.
Proof.
  intros Hx Hm n. change (current (NewRep v track allow) n) with (base_file v n).
  destruct (base_file v n) as [[l f]|] eqn:Eb.
  - apply base_file_spec in Eb; [|done]. symmetry. by apply Hm.
  - destruct (m !! n) as [[l f]|] eqn:Em; [|done]. apply Hm in Em.
    apply base_file_spec in Em; [|done]. congruence.
Qed.

Lemma apply_all_refines base es : ∀ r m,
  base_vstorage_ r = base → rep_ok r → models r m → Forall (levels_in_range (num_levels (bv_storage base))) es →
  refines base (apply_all es r) (lsm_edits es m).
Proof.
  unfold apply_all. induction es as [|e es IH]; intros r m Hb Hr Hm Hes; cbn [apply_each lsm_edits].
  { split_and!; [done..|]. by exists m. }
  apply Forall_cons in Hes as [He Hes]. pose proof (apply_refines base e r m Hb Hr Hm He) as Ha.
  destruct (Apply e r) as [r1 [err|]]; cbn [refines] in Ha |- *.
  - intros Herr. by rewrite Ha.
  - destruct Ha as (Hb1 & Hr1 & m1 & -> & Hm1). by apply IH.
Qed.

(** What every record keeps, the edits keep. *)
Lemma each_keeps {A} (P : Rep → Prop) (f : A → Rep → outcome) l :
  (∀ a r, P r → P (f a r).1) → ∀ r, P r → P (apply_each f l r).1.
Proof.
  intros Hf. induction l as [|a l IH]; intros r Hr; cbn [apply_each]; [done|]. pose proof (Hf a r Hr) as Ha.
  destruct (f a r) as [r1 [e|]]; [done|]. by apply IH.
Qed.

Lemma then_keeps (P : Rep → Prop) (k : Rep → outcome) o : P o.1 → (∀ r, P r → P (k r).1) → P (then_apply k o).1.
Proof. destruct o as [r [e|]]; cbn; auto. Qed.

Definition tracks (b : bool) (r : Rep) : Prop := track_found_and_missing_files_ r = b.

Lemma update_blob_tracks b n g r : tracks b r → tracks b (update_blob n g r).
Proof. unfold update_blob. destruct (n =? _); [done|]. by destruct (GetOrCreateMutableBlobFileMetaData n r). Qed.

Lemma apply_tracks b e r : tracks b r → tracks b (Apply e r).1.
Proof.
  intros Hr. unfold Apply. destruct (CheckConsistency (base_vstorage_ r)); [done|].
  apply then_keeps; [apply then_keeps; [apply then_keeps; [apply then_keeps; [apply then_keeps|]|]|]|].
  - apply each_keeps; [|done]. intros a r1 Hr1. unfold ApplyBlobFileAddition. by repeat case_match.
  - intros r1 Hr1. apply each_keeps; [|done]. clear. intros a r Hr. unfold ApplyBlobFileGarbage. by repeat case_match.
  - intros r1 Hr1. apply each_keeps; [|done]. clear. intros a r Hr. unfold ApplyFileDeletion.
    pose proof (λ n g, update_blob_tracks b n g r Hr). destruct (negb _); [by destruct (_ <=? _)|].
    destruct (_ <=? _); [done|]. destruct (track_found_and_missing_files_ r); unfold tracks in *; cbn; eauto.
  - intros r1 Hr1. apply each_keeps; [|done]. clear. intros a r Hr. unfold ApplyFileAddition.
    destruct (negb _); [by destruct (_ <=? _)|]. destruct (_ <=? _); [done|]. destruct (reserve_metadata _); [|done].
    set (r2 := set_level_state _ _ (set_level_state _ _ r)). pose proof (λ n g, update_blob_tracks b n g r2 Hr).
    destruct (track_found_and_missing_files_ r); unfold tracks in *; cbn; eauto.
  - intros r1 Hr1. apply each_keeps; [|done]. clear. intros a r Hr. unfold ApplyCompactCursors. by repeat case_match.
  - intros r1 Hr1. cbn. unfold note_update. by destruct (_ && _).
Qed.

Lemma apply_all_tracks b es r : tracks b r → tracks b (apply_all es r).1.
Proof. apply each_keeps. intros. by apply apply_tracks. Qed.

Lemma check_levels_empty l files expected : Forall (λ fs, fs = []) files → check_levels l files expected = (None, expected).
Proof. intros Hf. revert l. induction Hf as [|fs files -> Hf IH]; intros l; [done|]. apply IH. Qed.

Lemma fresh_consistent levels v : fresh_version levels v → CheckConsistency v = None.
Proof.
  intros (_ & He & Hbl). unfold CheckConsistency, CheckConsistencyDetails. destruct (bv_force_consistency_checks v); [|done].
  assert (Hf : Forall (λ fs, fs = []) (files_ (bv_storage v))).
  { apply Forall_lookup_2. intros i fs Hi. specialize (He i). unfold LevelFiles in He. by rewrite Hi in He. }
  rewrite Hbl. destruct (files_ (bv_storage v)) as [|l0 files]; [done|]. apply Forall_cons in Hf as [-> Hf]. cbn.
  by rewrite check_levels_empty.
Qed.

Lemma foldl_storage {A} (g : BuiltVersion → A → BuiltVersion) l v :
  (∀ v a, bv_storage (g v a) = bv_storage v ∧ bv_epoch_number_requirement (g v a) = bv_epoch_number_requirement v) →
  bv_storage (foldl g v l) = bv_storage v ∧ bv_epoch_number_requirement (foldl g v l) = bv_epoch_number_requirement v.
Proof.
  intros Hg. revert v. induction l as [|a l IH]; intros v; cbn [foldl]; [done|].
  destruct (IH (g v a)) as [-> ->]. apply Hg.
Qed.

Lemma save_blobs_storage r v :
  bv_storage (SaveBlobFilesTo r v) = bv_storage v ∧
  bv_epoch_number_requirement (SaveBlobFilesTo r v) = bv_epoch_number_requirement v.
Proof.
  unfold SaveBlobFilesTo. destruct (_ =? _); [done|]. apply foldl_storage. intros w x.
  assert (Ha : ∀ b n, bv_storage (AddBlobFileIfNeeded r b n w) = bv_storage w ∧
    bv_epoch_number_requirement (AddBlobFileIfNeeded r b n w) = bv_epoch_number_requirement w).
  { intros b n. unfold AddBlobFileIfNeeded. destruct (_ && _); [done|]. by destruct (_ && _). }
  destruct x as [b|m|b m]; cbn [process_blob]; [apply Ha..|]. destruct (negb _); apply Ha.
Qed.

(** The levels of the saved version. *)
Lemma save_to_levels r v :
  fresh_version (builder_num_levels r) v →
  let v' := (SaveTo r v).1 in
  num_levels (bv_storage v') = builder_num_levels r ∧
  ∀ l, (l < builder_num_levels r)%nat → LevelFiles (bv_storage v') l = saved_level C r (bv_epoch_number_requirement v') l.
Proof.
  intros Hv. unfold SaveTo. rewrite (fresh_consistent _ v Hv). destruct Hv as (Hn & He & _).
  destruct (save_sst_levels C r v Hn He) as [(Hn' & _) Hl]. destruct (save_blobs_storage r (SaveSSTFilesTo r v)) as [E1 E2].
  cbn [fst]. unfold SaveCompactCursorsTo. cbn [bv_storage bv_epoch_number_requirement]. rewrite E1, E2.
  split; [congruence|]. done.
Qed.

(** The files of the saved version. *)
Lemma save_to_models r v m :
  rep_ok r → models r m → none_missing r → fresh_version (builder_num_levels r) v →
  version_models (bv_storage (SaveTo r v).1) m.
Proof using HC.
  intros Hok Hcur Hnm Hv n l f. destruct (save_to_levels r v Hv) as [Hn Hl]. rewrite <- Hcur. split.
  - intros Hc. pose proof (current_level r n Hok) as Hc'. rewrite Hc in Hc'. destruct Hc' as (_ & Hlt & Hf).
    split; [|done]. rewrite Hl by done. apply saved_elem; [done..|]. by rewrite Hf.
  - intros [Hf <-]. pose proof (level_files_in_range _ _ _ Hf) as Hlt. rewrite Hn in Hlt. rewrite Hl in Hf by done.
    by eapply saved_elem.
Qed.

Lemma save_to_nodup r v l :
  rep_ok r → fresh_version (builder_num_levels r) v → NoDup (GetNumber <$> LevelFiles (bv_storage (SaveTo r v).1) l).
Proof using HC.
  intros Hok Hv. destruct (save_to_levels r v Hv) as [Hn Hl]. destruct (decide (l < builder_num_levels r)%nat) as [Hlt|Hge].
  - rewrite Hl by done. by apply saved_nodup.
  - unfold LevelFiles. rewrite lookup_ge_None_2 by (unfold num_levels in Hn; lia). constructor.
Qed.
End refinement.

(** C35. Applying a series of edits to a version and saving the result does what
    the edits mean.  When the builder reports no error, the files of the saved
    version are exactly those that deleting and adding, record by record, leave
    in the map from file numbers to levels and files, each once on its level;
    when an edit deletes a file that is not on the level it names, or adds one
    that exists, the builder reports an error, and it blames a table file only
    then. *)
Theorem builder_refines_edits (C : Comparator) `{StdChoices} {E : BuilderEnv} v v0 es m allow :
  ComparatorOk C → locations_exact (bv_storage v) → version_models (bv_storage v) m →
  fresh_version (num_levels (bv_storage v)) v0 → Forall (levels_in_range (num_levels (bv_storage v))) es →
  match apply_all es (NewRep v false allow) with
  | (r, None) => ∃ m', lsm_edits es m = Some m' ∧ version_models (bv_storage (SaveTo r v0).1) m' ∧
      ∀ l, NoDup (GetNumber <$> LevelFiles (bv_storage (SaveTo r v0).1) l)
  | (_, Some e) => file_error e = true → lsm_edits es m = None
  end.
Proof.
  intros HC Hx Hm Hv0 Hes. pose proof (apply_all_refines C v es (NewRep v false allow) m eq_refl
    (new_rep_ok v false allow Hx) (new_rep_models v m false allow Hx Hm) Hes) as Hr.
  pose proof (apply_all_tracks C false es (NewRep v false allow) eq_refl) as Htr.
  destruct (apply_all es (NewRep v false allow)) as [r [e|]]; cbn [refines fst] in Hr, Htr; [done|].
  destruct Hr as (Hb & Hok & m' & Hm' & Hcur). exists m'. split; [done|].
  assert (Hnl : builder_num_levels r = num_levels (bv_storage v)) by (unfold builder_num_levels; by rewrite Hb).
  rewrite <- Hnl in Hv0. split; [|intros l; by apply save_to_nodup].
  apply save_to_models; [done..| |done]. intros Ht. unfold tracks in Htr. congruence.
Qed.

(** ** The consistency checks are exact *)

(** The table files linked to blob file [n]. *)
Definition links_of (fs : list FileMetaData) (n : Z) : gset Z :=
  if n =? kInvalidBlobFileNumber then ∅
  else list_to_set (GetNumber <$> filter (λ f, oldest_blob_file_number f = n) fs).

Definition adjacent {A} (R : A → A → Prop) (l : list A) : Prop :=
  ∀ i x y, l !! i = Some x → l !! S i = Some y → R x y.

Lemma expected_links fs n : ∀ expected, n ≠ kInvalidBlobFileNumber →
  default ∅ (foldl (flip UpdateExpectedLinkedSsts) expected fs !! n) = default ∅ (expected !! n) ∪ links_of fs n.
Proof.
  intros expected Hn. unfold links_of. destruct (Z.eqb_spec n kInvalidBlobFileNumber); [done|]. revert expected.
  induction fs as [|f fs IH]; intros expected; cbn [foldl]; [set_solver|]. rewrite IH, filter_cons. unfold flip, UpdateExpectedLinkedSsts.
  destruct (Z.eqb_spec (oldest_blob_file_number f) kInvalidBlobFileNumber) as [E|E].
  - rewrite decide_False by congruence. done.
  - destruct (decide (oldest_blob_file_number f = n)) as [->|Hne].
    + rewrite lookup_insert_eq. cbn. set_solver.
    + by rewrite lookup_insert_ne.
Qed.

Lemma expected_invalid fs : ∀ expected : gmap Z (gset Z), expected !! kInvalidBlobFileNumber = None →
  foldl (flip UpdateExpectedLinkedSsts) expected fs !! kInvalidBlobFileNumber = None.
Proof.
  induction fs as [|f fs IH]; intros expected Hn; cbn [foldl]; [done|]. apply IH. unfold flip, UpdateExpectedLinkedSsts.
  destruct (Z.eqb_spec (oldest_blob_file_number f) kInvalidBlobFileNumber); [done|]. by rewrite lookup_insert_ne.
Qed.

Lemma blob_files_none expected blobs :
  check_blob_files expected blobs = None ↔ Forall (λ b, bm_garbage_blob_count b < GetTotalBlobCount b ∧
    bm_linked_ssts b = default ∅ (expected !! GetBlobFileNumber b)) blobs.
Proof.
  induction blobs as [|b blobs IH]; cbn [check_blob_files]; [by rewrite Forall_nil|]. rewrite Forall_cons.
  destruct (Z.leb_spec (GetTotalBlobCount b) (bm_garbage_blob_count b)); [split; [done|]; intros [[? _] _]; lia|].
  destruct (decide _); [rewrite IH; naive_solver|]. split; [done|]. by intros [[_ ?] _].
Qed.

Lemma level_files_lookup (v : VersionStorageInfo) l fs : files_ v !! l = Some fs → LevelFiles v l = fs.
Proof. intros E. unfold LevelFiles. by rewrite E. Qed.

Section checks.
Context (C : Comparator) (HC : ComparatorOk C).
Abbreviation ile := (cmp_le (@InternalKeyCompare C)).

(** Neighbours of level 0: newest first, and apart within an epoch. *)
Definition l0_neighbours (req : EpochNumberRequirement) (f g : FileMetaData) : Prop :=
  l0_order req f g = true ∧
  (req = kMustPresent → epoch_number f = epoch_number g → ¬ ile (smallest f) (largest g) ∨ ¬ ile (smallest g) (largest f)).

(** A file ends before the next one starts. *)
Definition ends_before (f g : FileMetaData) : Prop := ¬ ile (smallest g) (largest f).

Definition range_ok (f : FileMetaData) : Prop := ile (smallest f) (largest f).

Lemma adjacent_cons {A} (R : A → A → Prop) x y l : adjacent R (x :: y :: l) ↔ R x y ∧ adjacent R (y :: l).
Proof.
  split.
  - intros Ha. split; [by apply (Ha 0%nat)|]. intros i. apply (Ha (S i)).
  - intros [Hxy Ha] [|i] a b Hx Hy; [by simplify_eq/=|]. by apply (Ha i).
Qed.

Lemma adjacent_one {A} (R : A → A → Prop) x : adjacent R [x].
Proof. intros i a b _ Hb. by destruct i. Qed.

Lemma adjacent_sorted {A} (R : A → A → Prop) l :
  (∀ x y z, x ∈ l → y ∈ l → z ∈ l → R x y → R y z → R x z) → adjacent R l ↔ StronglySorted R l.
Proof.
  intros Ht. split.
  - induction l as [|x l IH]; [constructor|]. intros Ha. destruct l as [|y l]; [by repeat constructor|].
    apply adjacent_cons in Ha as [Hxy Ha]. assert (Hs : StronglySorted R (y :: l)).
    { apply IH; [|done]. intros a b c ???. apply Ht; by right. }
    constructor; [done|]. constructor; [done|]. apply StronglySorted_inv in Hs as [_ Hs]. rewrite Forall_forall in Hs.
    apply Forall_forall. intros z Hz. apply (Ht x y z); [left|right; left|right; by right|done|by apply Hs].
  - intros Hs i x y Hx Hy. exact (StronglySorted_lookup R l i (S i) x y Hs ltac:(lia) Hx Hy).
Qed.

Lemma level_checker_none l f g :
  range_ok f → level_checker l f g = None ↔ ends_before f g.
Proof using HC.
  intros Hf. unfold level_checker, BySmallestKey, ends_before, range_ok in *.
  cmp_case (@InternalKeyCompare C) (largest f) (smallest g); cmp_case (@InternalKeyCompare C) (smallest f) (smallest g);
    cbn [negb]; try (destruct (GetNumber f <? GetNumber g)); cbn [negb];
    split; intros; try done; order (cmp_le (@InternalKeyCompare C)).
Qed.

Lemma l0_checker_none req f g : l0_checker req f g = None ↔ l0_neighbours req f g.
Proof using HC.
  unfold l0_checker, l0_neighbours, l0_order. destruct req.
  - destruct (NewestFirstBySeqNo f g); split; [done|done|done|by intros [? _]].
  - assert (Hov : (epoch_number f =? epoch_number g) &&
      match InternalKeyCompare (smallest f) (largest g) with Gt => false | _ => true end &&
      match InternalKeyCompare (largest f) (smallest g) with Lt => false | _ => true end = false ↔
      (epoch_number f = epoch_number g → ¬ ile (smallest f) (largest g) ∨ ¬ ile (smallest g) (largest f))).
    { assert (match InternalKeyCompare (smallest f) (largest g) with Gt => false | _ => true end =
        bool_decide (ile (smallest f) (largest g))) as ->.
      { cmp_case (@InternalKeyCompare C) (smallest f) (largest g); [rewrite bool_decide_true..|rewrite bool_decide_false];
          first [done|order (cmp_le (@InternalKeyCompare C))]. }
      assert (match InternalKeyCompare (largest f) (smallest g) with Lt => false | _ => true end =
        bool_decide (ile (smallest g) (largest f))) as ->.
      { cmp_case (@InternalKeyCompare C) (largest f) (smallest g);
          [rewrite bool_decide_true|rewrite bool_decide_false|rewrite bool_decide_true];
          first [done|order (cmp_le (@InternalKeyCompare C))]. }
      rewrite !andb_false_iff, Z.eqb_neq, !bool_decide_eq_false. destruct (decide (epoch_number f = epoch_number g)); tauto. }
    destruct (_ && _ && _).
    + split; [done|]. intros [_ Ha]. specialize (Ha eq_refl). by apply Hov in Ha.
    + destruct (NewestFirstByEpochNumber f g); [|by split; [|intros [? _]]]. split; [|done]. intros _. split; [done|].
      intros _. by apply Hov.
Qed.

Lemma neighbours_none checker f rest expected :
  let res := check_neighbours checker f rest expected in
  (res.1 = None ↔ adjacent (λ f g, checker f g = None) (f :: rest)) ∧
  (res.1 = None → res.2 = foldl (flip UpdateExpectedLinkedSsts) expected rest).
Proof using Type.
  revert f expected. induction rest as [|g rest IH]; intros f expected; cbn [check_neighbours].
  { split; [|done]. split; [|done]. intros _. apply adjacent_one. }
  rewrite adjacent_cons. destruct (checker f g) eqn:E; cbn.
  { split; [|done]. split; [done|]. by intros [? _]. }
  destruct (IH g (UpdateExpectedLinkedSsts g expected)) as [H1 H2]. split; [|exact H2]. rewrite H1. tauto.
Qed.

Lemma level_none checker fs expected :
  let res := CheckConsistencyDetailsForLevel checker fs expected in
  (res.1 = None ↔ adjacent (λ f g, checker f g = None) fs) ∧
  (res.1 = None → res.2 = foldl (flip UpdateExpectedLinkedSsts) expected fs).
Proof using Type.
  destruct fs as [|f fs]; cbn [CheckConsistencyDetailsForLevel];
    [|exact (neighbours_none checker f fs (UpdateExpectedLinkedSsts f expected))].
  split; [|done]. split; [|done]. by intros _ i x y.
Qed.

Lemma levels_none files : ∀ l expected,
  let res := check_levels l files expected in
  (res.1 = None ↔ ∀ i fs, files !! i = Some fs → adjacent (λ f g, level_checker (l + i) f g = None) fs) ∧
  (res.1 = None → res.2 = foldl (flip UpdateExpectedLinkedSsts) expected (concat files)).
Proof using Type.
  induction files as [|fs files IH]; intros l expected; cbn [check_levels].
  { split; [|done]. by split. }
  destruct (level_none (level_checker l) fs expected) as [H1 H2].
  destruct (CheckConsistencyDetailsForLevel _ fs expected) as [[e|] x]; cbn [fst snd] in *.
  - split; [|done]. split; [done|]. intros Ha. apply H1. specialize (Ha 0%nat fs eq_refl). by rewrite Nat.add_0_r in Ha.
  - destruct (IH (S l) x) as [H3 H4]. split.
    + rewrite H3. split.
      * intros Ha [|i] gs; [intros [= <-]; rewrite Nat.add_0_r; by apply H1|]. rewrite Nat.add_succ_r. apply Ha.
      * intros Ha i gs Hi. specialize (Ha (S i) gs Hi). by rewrite Nat.add_succ_r in Ha.
    + intros E. rewrite H4 by done. cbn. by rewrite foldl_app, H2.
Qed.

(** The adjacent check of a level is the check of all pairs. *)
Lemma level_adjacent l fs :
  Forall range_ok fs → adjacent (λ f g, level_checker l f g = None) fs ↔ StronglySorted ends_before fs.
Proof using HC.
  intros Hr. rewrite Forall_forall in Hr. transitivity (adjacent ends_before fs).
  - split; intros Ha i f g Hf Hg; specialize (Ha i f g Hf Hg);
      pose proof (Hr f (list_elem_of_lookup_2 _ _ _ Hf)); by apply (level_checker_none l).
  - apply adjacent_sorted. intros f g h Hf Hg Hh. specialize (Hr g Hg). unfold range_ok, ends_before in *.
    intros. order (cmp_le (@InternalKeyCompare C)).
Qed.

(** The blob files of a version that passes. *)
Definition blobs_consistent (v : BuiltVersion) : Prop :=
  Forall (λ b, bm_garbage_blob_count b < GetTotalBlobCount b ∧
    bm_linked_ssts b = links_of (concat (files_ (bv_storage v))) (GetBlobFileNumber b)) (bv_blob_files v).

Lemma blobs_check v :
  check_blob_files (foldl (flip UpdateExpectedLinkedSsts) ∅ (concat (files_ (bv_storage v)))) (bv_blob_files v) = None ↔
  blobs_consistent v.
Proof using Type.
  rewrite blob_files_none. apply Forall_proper; [|done]. intros b.
  destruct (decide (GetBlobFileNumber b = kInvalidBlobFileNumber)) as [E|E].
  - rewrite E, expected_invalid by done. done.
  - rewrite expected_links by done. rewrite lookup_empty. cbn [default from_option]. by rewrite (left_id_L ∅ (∪)).
Qed.

Lemma levels_check v l0 files x :
  (∀ l, Forall range_ok (LevelFiles (bv_storage v) l)) → files_ (bv_storage v) = l0 :: files →
  (check_levels 1 files x).1 = None ↔ ∀ l, (0 < l)%nat → StronglySorted ends_before (LevelFiles (bv_storage v) l).
Proof using HC.
  intros Hr Ef. assert (Hl : ∀ l fs, files !! l = Some fs → LevelFiles (bv_storage v) (S l) = fs).
  { intros l fs E. apply level_files_lookup. by rewrite Ef. }
  rewrite (proj1 (levels_none files 1 x)). split.
  - intros Ha [|l] ?; [lia|]. destruct (files !! l) as [fs|] eqn:E.
    + specialize (Hr (S l)). rewrite (Hl l fs E) in Hr |- *. apply (level_adjacent (1 + l) fs Hr), Ha, E.
    + unfold LevelFiles. rewrite Ef. change ((l0 :: files) !! S l) with (files !! l). rewrite E. constructor.
  - intros Ha i fs Hi. specialize (Hr (S i)). specialize (Ha (S i) ltac:(lia)). rewrite (Hl i fs Hi) in Hr, Ha.
    by apply level_adjacent.
Qed.

Lemma consistency_details v :
  (∀ l, Forall range_ok (LevelFiles (bv_storage v) l)) →
  CheckConsistencyDetails v = None ↔
  adjacent (l0_neighbours (bv_epoch_number_requirement v)) (LevelFiles (bv_storage v) 0) ∧
  (∀ l, (0 < l)%nat → StronglySorted ends_before (LevelFiles (bv_storage v) l)) ∧ blobs_consistent v.
Proof using HC.
  intros Hr. unfold CheckConsistencyDetails. rewrite <- blobs_check. destruct (files_ (bv_storage v)) as [|l0 files] eqn:Ef.
  { assert (He : ∀ l, LevelFiles (bv_storage v) l = []) by (intros; unfold LevelFiles; by rewrite Ef).
    cbn [concat foldl]. split; [|tauto]. intros Hb. rewrite He. split_and!; [by intros i ??|intros; rewrite He; constructor|done]. }
  assert (H0 : LevelFiles (bv_storage v) 0 = l0) by (apply level_files_lookup; by rewrite Ef). rewrite H0.
  destruct (level_none (l0_checker (bv_epoch_number_requirement v)) l0 ∅) as [H1 H2].
  assert (Hl0 : adjacent (λ f g, l0_checker (bv_epoch_number_requirement v) f g = None) l0 ↔
    adjacent (l0_neighbours (bv_epoch_number_requirement v)) l0).
  { split; intros Ha i f g Hf Hg; apply l0_checker_none; by apply (Ha i). }
  destruct (CheckConsistencyDetailsForLevel _ l0 ∅) as [[e|] x]; cbn [fst snd] in *; [naive_solver|].
  rewrite <- (levels_check v l0 files x Hr Ef), <- Hl0, <- H1. destruct (levels_none files 1 x) as [_ H4].
  destruct (check_levels 1 files x) as [[e|] y]; cbn [fst snd] in *; [naive_solver|].
  rewrite H4 by done. cbn [concat]. rewrite foldl_app, H2 by done. tauto.
Qed.
End checks.

(** The consistency checks are exact.  For files whose smallest key is not
    after their largest, a version passes exactly when level 0 is newest first
    with the files of an epoch apart from their neighbours, the files of every
    other level end before the later ones start, and every blob file has live
    blobs and is linked to exactly the table files whose oldest blob file it
    is. *)
Theorem consistency_check_exact (C : Comparator) v :
  ComparatorOk C → (∀ l, Forall (range_ok C) (LevelFiles (bv_storage v) l)) →
  CheckConsistencyDetails v = None ↔
  adjacent (l0_neighbours C (bv_epoch_number_requirement v)) (LevelFiles (bv_storage v) 0) ∧
  (∀ l, (0 < l)%nat → StronglySorted (ends_before C) (LevelFiles (bv_storage v) l)) ∧
  Forall (λ b, bm_garbage_blob_count b < GetTotalBlobCount b ∧
    bm_linked_ssts b = links_of (concat (files_ (bv_storage v))) (GetBlobFileNumber b)) (bv_blob_files v).
Proof. intros HC. by apply consistency_details. Qed.

(** ** Witnesses *)

(** Every file is found and fits into memory. *)
Definition accept_all : BuilderEnv := Build_BuilderEnv (λ _, true) (λ _ _, VerifyOk) (λ _, VerifyOk).

(** A version of two levels without files. *)
Definition empty_version : BuiltVersion := mkBuilt (mkStorage [[]; []] 0 [] false [] ∅) [] [[]; []] kMustPresent true.

Definition table_with_blobs (n epoch : Z) (lo hi : byte) : FileMetaData :=
  let f := (sample_file n lo hi) <| oldest_blob_file_number := 5 |> in f <| epoch_number := epoch |>.

(** A flush adds table file 7 and blob file 5; a compaction replaces file 7 by
    file 8 on level 1 and finds garbage. *)
Definition flush_example : VersionEdit :=
  let e := NewVersionEdit <| new_files_ := [(0, table_with_blobs 7 1 x61 x6d)] |> in
  e <| blob_file_additions_ := [mkBlobFileAddition 5 10 1000 [] []] |>.
Definition compaction_example : VersionEdit :=
  let e := NewVersionEdit <| deleted_files_ := [(0, 7)] |> in
  let e1 := e <| new_files_ := [(1, table_with_blobs 8 1 x61 x6c)] |> in
  e1 <| blob_file_garbages_ := [mkBlobFileGarbage 5 3 300] |>.

#[local] Existing Instance BytewiseComparator.
#[local] Existing Instance simple_choices.
#[local] Existing Instance accept_all.

Lemma empty_exact : locations_exact (bv_storage empty_version).
Proof. intros n l pos. cbn. rewrite lookup_empty. split; [done|]. intros (f & Hf & _). by destruct l as [|[|l]], pos. Qed.

Lemma empty_models : version_models (bv_storage empty_version) ∅.
Proof.
  intros n l f. rewrite lookup_empty. split; [done|]. intros [Hf _].
  assert (LevelFiles (bv_storage empty_version) l = []) as E by (by destruct l as [|[|l]]). rewrite E in Hf. by apply elem_of_nil in Hf.
Qed.

Lemma empty_fresh : fresh_version 2 empty_version.
Proof. split_and!; [done| |done]. by intros [|[|l]]. Qed.

Lemma examples_in_range : Forall (levels_in_range 2) [flush_example; compaction_example].
Proof. repeat constructor; cbn; lia. Qed.

Lemma builder_refines_edits_witness :
  let o := apply_all [flush_example; compaction_example] (NewRep empty_version false false) in
  o.2 = None ∧
  ∃ m', lsm_edits [flush_example; compaction_example] ∅ = Some m' ∧
    version_models (bv_storage (SaveTo o.1 empty_version).1) m' ∧
    ∀ l, NoDup (GetNumber <$> LevelFiles (bv_storage (SaveTo o.1 empty_version).1) l).
Proof.
  pose proof (builder_refines_edits BytewiseComparator empty_version empty_version [flush_example; compaction_example] ∅
    false bytewise_ok empty_exact empty_models empty_fresh examples_in_range) as H.
  assert ((apply_all [flush_example; compaction_example] (NewRep empty_version false false)).2 = None) as E
    by (vm_compute; reflexivity).
  destruct (apply_all _ _) as [r [e|]]; [discriminate E|]. split; [reflexivity|exact H].
Defined.

(** File 1 before file 2 on level 1, file 3 on level 0 with blob file 5. *)
Definition checked_version : BuiltVersion :=
  mkBuilt (mkStorage [[table_with_blobs 3 1 x61 x7a]; [sample_file 1 x61 x63; sample_file 2 x64 x66]] 0 [] false [] ∅)
    [mkBlobFile (mkSharedBlob 5 10 1000 [] []) {[3]} 2 200] [[]; []] kMustPresent true.

Lemma consistency_check_exact_witness :
  (∀ l, Forall (range_ok BytewiseComparator) (LevelFiles (bv_storage checked_version) l)) ∧
  StronglySorted (ends_before BytewiseComparator) (LevelFiles (bv_storage checked_version) 1).
Proof.
  assert (Hr : ∀ l, Forall (range_ok BytewiseComparator) (LevelFiles (bv_storage checked_version) l)).
  { intros [|[|l]]; cbn; repeat constructor; unfold range_ok, cmp_le; vm_compute; discriminate. }
  split; [exact Hr|].
  apply (proj1 (consistency_check_exact BytewiseComparator checked_version bytewise_ok Hr)); [vm_compute; reflexivity|lia].
Defined.
