(* ===== verification/VersionBuilderBlobs.v ===== *)
(** * The blob files of a built version

    The theorems on src/db/version_builder.cc that concern blob files: the
    builder keeps the links between table files and blob files and the amounts
    of garbage, and saves exactly the blob files that are not older than every
    linked one and still hold data. *)

From S2P Require Import Prelude Coding BlobIndex Comparator DbFormat ManifestRecords FileMeta VersionEdit.
From S2P Require Import VersionStorage VersionBuilder VersionBuilderFiles.

(** ** The meaning of edits for blob files *)

(** The fixed metadata of every blob file and the number and size of its garbage
    blobs. *)
Abbreviation blobs := (gmap Z (SharedBlobFileMetaData * Z * Z)).

Definition shared_of (a : BlobFileAddition) : SharedBlobFileMetaData :=
  mkSharedBlob (bfa_blob_file_number a) (bfa_total_blob_count a) (bfa_total_blob_bytes a) (bfa_checksum_method a)
    (bfa_checksum_value a).

(** [None] when the blob file exists. *)
Definition blobs_add (bs : blobs) (a : BlobFileAddition) : option blobs :=
  match bs !! bfa_blob_file_number a with
  | Some _ => None
  | None => Some (<[bfa_blob_file_number a := (shared_of a, 0, 0)]> bs)
  end.

(** [None] when there is no such blob file or its garbage would exceed its
    blobs. *)
Definition blobs_garbage (bs : blobs) (g : BlobFileGarbage) : option blobs :=
  match bs !! bfg_blob_file_number g with
  | Some (sh, count, bytes) =>
      let count' := count +64 bfg_garbage_blob_count g in
      let bytes' := bytes +64 bfg_garbage_blob_bytes g in
      if (sb_total_blob_count sh <? count') || (sb_total_blob_bytes sh <? bytes') then None
      else Some (<[bfg_blob_file_number g := (sh, count', bytes')]> bs)
  | None => None
  end.

Definition blobs_edit (bs : blobs) (e : VersionEdit) : option blobs :=
  bs' ← try_each blobs_add (blob_file_additions_ e) bs; try_each blobs_garbage (blob_file_garbages_ e) bs'.

(** The table files whose oldest blob file is [n]. *)
Definition linked_in (m : lsm) (n : Z) : gset Z := dom (filter (λ p, oldest_blob_file_number p.2.2 = n) m).

Lemma linked_in_elem m n k : k ∈ linked_in m n ↔ ∃ l f, m !! k = Some (l, f) ∧ oldest_blob_file_number f = n.
Proof.
  unfold linked_in. rewrite elem_of_dom. split.
  - intros [[l f] Hf]. apply map_lookup_filter_Some in Hf as [? ?]. eauto.
  - intros (l & f & Hk & Hn). exists (l, f). by apply map_lookup_filter_Some.
Qed.

(** ** Links and garbage in the builder *)

Abbreviation blob_meta := GetOrCreateMutableBlobFileMetaData.

(** The recorded changes are those since the base. *)
Definition delta_ok (base : BuiltVersion) (n : Z) (b : MutableBlobFileMetaData) : Prop :=
  ∀ bb, GetBlobFileMetaData base n = Some bb →
    newly_linked_ssts_ (mb_delta b) = mb_linked_ssts b ∖ bm_linked_ssts bb ∧
    newly_unlinked_ssts_ (mb_delta b) = bm_linked_ssts bb ∖ mb_linked_ssts b ∧
    mb_shared_meta b = bm_shared_meta bb ∧
    mb_garbage_blob_count b = bm_garbage_blob_count bb +64 additional_garbage_count_ (mb_delta b) ∧
    mb_garbage_blob_bytes b = bm_garbage_blob_bytes bb +64 additional_garbage_bytes_ (mb_delta b).

(** The metadata of blob file [n] are those of [bs], with the links of [m]. *)
Definition blob_state (base : BuiltVersion) (m : lsm) (n : Z) (b : MutableBlobFileMetaData)
    (x : SharedBlobFileMetaData * Z * Z) : Prop :=
  x = (mb_shared_meta b, mb_garbage_blob_count b, mb_garbage_blob_bytes b) ∧
  sb_blob_file_number (mb_shared_meta b) = n ∧ mb_linked_ssts b = linked_in m n ∧ delta_ok base n b.

Definition blob_inv (r : Rep) (m : lsm) (bs : blobs) : Prop :=
  ∀ n, match blob_meta n r, bs !! n with
       | Some b, Some x => kInvalidBlobFileNumber < n ∧ blob_state (base_vstorage_ r) m n b x
       | None, None => True
       | _, _ => False
       end.

Lemma blob_meta_set k n b r : blob_meta k (set_blob_meta n b r) = if decide (k = n) then Some b else blob_meta k r.
Proof.
  unfold GetOrCreateMutableBlobFileMetaData. cbn. destruct (decide (k = n)) as [->|].
  - by rewrite lookup_insert_eq.
  - by rewrite lookup_insert_ne.
Qed.

(** Linking and unlinking keep the recorded changes. *)
Ltac solve_sets k :=
  apply set_eq; intros j; destruct (decide (j = k)) as [->|]; set_unfold; tauto.

Lemma link_delta base n k b : k ∉ mb_linked_ssts b → delta_ok base n b → delta_ok base n (LinkSst k b).
Proof.
  intros Hk Hd bb Hbb. destruct (Hd bb Hbb) as (H1 & H2 & H3 & H4 & H5). unfold LinkSst. cbn.
  unfold DeltaLinkSst. destruct (decide (k ∈ newly_unlinked_ssts_ (mb_delta b))) as [Hin|Hin]; rewrite H2 in Hin;
    apply elem_of_difference in Hin || apply not_elem_of_difference in Hin;
    cbn; (split_and!; [rewrite H1|rewrite H2|done..]); destruct (decide (k ∈ bm_linked_ssts bb)); solve_sets k.
Qed.

Lemma unlink_delta base n k b : k ∈ mb_linked_ssts b → delta_ok base n b → delta_ok base n (UnlinkSst k b).
Proof.
  intros Hk Hd bb Hbb. destruct (Hd bb Hbb) as (H1 & H2 & H3 & H4 & H5). unfold UnlinkSst. cbn.
  unfold DeltaUnlinkSst. destruct (decide (k ∈ newly_linked_ssts_ (mb_delta b))) as [Hin|Hin]; rewrite H1 in Hin;
    apply elem_of_difference in Hin || apply not_elem_of_difference in Hin;
    cbn; (split_and!; [rewrite H1|rewrite H2|done..]); destruct (decide (k ∈ bm_linked_ssts bb)); solve_sets k.
Qed.

Lemma linked_in_delete m k l f n :
  m !! k = Some (l, f) →
  linked_in (delete k m) n = if decide (oldest_blob_file_number f = n) then linked_in m n ∖ {[k]} else linked_in m n.
Proof.
  intros Hk. apply set_eq. intros j. rewrite linked_in_elem. destruct (decide (oldest_blob_file_number f = n)) as [E|E].
  - rewrite elem_of_difference, linked_in_elem, elem_of_singleton. setoid_rewrite lookup_delete_Some. naive_solver.
  - rewrite linked_in_elem. setoid_rewrite lookup_delete_Some. split; [naive_solver|].
    intros (l' & g & Hj & Hn). exists l', g. split; [split; [|done]|done]. intros ->. congruence.
Qed.

Lemma linked_in_insert m k l f n :
  m !! k = None →
  linked_in (<[k := (l, f)]> m) n = if decide (oldest_blob_file_number f = n) then {[k]} ∪ linked_in m n else linked_in m n.
Proof.
  intros Hk. apply set_eq. intros j. rewrite linked_in_elem. destruct (decide (oldest_blob_file_number f = n)) as [E|E].
  - rewrite elem_of_union, linked_in_elem, elem_of_singleton. setoid_rewrite lookup_insert_Some. split; [naive_solver|].
    intros [->|(l' & g & Hj & Hn)]; [by exists l, f; split; [left|]|]. exists l', g. split; [right|done].
    split; [congruence|done].
  - rewrite linked_in_elem. setoid_rewrite lookup_insert_Some. split; [naive_solver|].
    intros (l' & g & Hj & Hn). exists l', g. split; [right|done]. split; [congruence|done].
Qed.

(** *** Records *)

Section records.
Context `{Comparator} {E : BuilderEnv}.

Lemma update_blob_meta k n g r :
  blob_meta k (update_blob n g r) =
  if decide (k = n ∧ n ≠ kInvalidBlobFileNumber) then g <$> blob_meta k r else blob_meta k r.
Proof.
  unfold update_blob. destruct (Z.eqb_spec n kInvalidBlobFileNumber); [by rewrite decide_False by tauto|].
  destruct (decide (k = n)) as [->|].
  - rewrite decide_True by done. destruct (blob_meta n r) as [b|] eqn:Eb; [|done].
    rewrite blob_meta_set, decide_True by done. done.
  - rewrite decide_False by tauto. destruct (blob_meta n r); [|done]. by rewrite blob_meta_set, decide_False by done.
Qed.

(** An update of one blob file that follows the change of its links. *)
Lemma update_blob_inv r r' m m' bs n g :
  blob_inv r m bs → base_vstorage_ r' = base_vstorage_ r → (∀ k, blob_meta k r' = blob_meta k (update_blob n g r)) →
  (∀ k, k ≠ n → linked_in m' k = linked_in m k) →
  (∀ b x, n ≠ kInvalidBlobFileNumber → blob_state (base_vstorage_ r) m n b x → blob_state (base_vstorage_ r) m' n (g b) x) →
  blob_inv r' m' bs.
Proof.
  intros Hi Hb Hm Hl Hg k. rewrite Hm, update_blob_meta, Hb. specialize (Hi k).
  destruct (decide (k = n ∧ n ≠ kInvalidBlobFileNumber)) as [[-> Hn]|Hne].
  - destruct (blob_meta n r) as [b|], (bs !! n) as [x|]; cbn; try done. destruct Hi as [? Hs]. split; [done|]. by apply Hg.
  - destruct (blob_meta k r) as [b|], (bs !! k) as [x|]; try done. destruct Hi as (Hk & H1 & H2 & H3 & H4).
    split; [done|]. split_and!; [done..| |done]. rewrite Hl; [done|]. intros ->. apply Hne. split; [done|lia].
Qed.

Lemma oldest_blob_current r n l f :
  rep_ok r → current r n = Some (l, f) → GetOldestBlobFileNumberForTableFile (Z.of_nat l) n r = oldest_blob_file_number f.
Proof.
  intros Hr Hc. unfold GetOldestBlobFileNumberForTableFile. unfold current in Hc.
  destruct (table_file_levels_ r !! n) as [c|] eqn:Et.
  - destruct (Z.eqb_spec c (-1)); [done|]. destruct (ro_levels r Hr n c Et); [lia|].
    apply fmap_Some in Hc as (g & Hg & [= -> ->]). rewrite Z2Nat.id by lia. by rewrite Hg.
  - destruct (added_files _ !! n) as [g|] eqn:Ea.
    { destruct (ro_added r Hr (Z.of_nat l) n g ltac:(lia) Ea) as (_ & Et' & _). congruence. }
    unfold GetFileMetaDataByNumber. unfold base_file in Hc. destruct (file_locations_ _ !! n) as [[l' p]|]; [|done].
    apply fmap_Some in Hc as (g & -> & [= -> ->]). done.
Qed.

Lemma deletion_blobs r m bs level n r' m' :
  rep_ok r → models r m → blob_inv r m bs → 0 <= level < Z.of_nat (builder_num_levels r) →
  ApplyFileDeletion level n r = (r', None) → lsm_delete m (level, n) = Some m' → blob_inv r' m' bs.
Proof.
  intros Hr Hm Hi Hl Ha Hd. unfold lsm_delete in Hd. cbn [fst snd] in Hd.
  destruct (m !! n) as [[l f]|] eqn:En; [|done]. destruct (Z.eqb_spec (Z.of_nat l) level) as [<-|]; [|done].
  injection Hd as <-. pose proof (Hm n) as Hc. rewrite En in Hc. pose proof (oldest_blob_current r n l f Hr Hc) as Hold.
  unfold ApplyFileDeletion in Ha. pose proof (current_level r n Hr) as Hcl. rewrite Hc in Hcl. destruct Hcl as (Hcl & _).
  rewrite Hcl, Z.eqb_refl, Hold in Ha. cbn [negb] in Ha. destruct (Z.leb_spec (Z.of_nat (builder_num_levels r)) (Z.of_nat l)); [lia|].
  pose proof (update_blob_same (oldest_blob_file_number f) (UnlinkSst n) r) as (Hbase & _).
  apply (update_blob_inv r r' m _ bs (oldest_blob_file_number f) (UnlinkSst n) Hi).
  - destruct (track_found_and_missing_files_ r); injection Ha as <-; exact Hbase.
  - intros k. destruct (track_found_and_missing_files_ r); injection Ha as <-; reflexivity.
  - intros k Hk. rewrite (linked_in_delete m n l f k En), decide_False by congruence. done.
  - intros b x _ (H1 & H2 & H3 & H4). split_and!; [done|done| |].
    + cbn. rewrite (linked_in_delete m n l f _ En), decide_True, H3 by done. done.
    + apply unlink_delta; [|done]. rewrite H3. apply linked_in_elem. eauto.
Qed.

Lemma addition_blobs r m bs level f r' m' :
  rep_ok r → models r m → blob_inv r m bs → 0 <= level < Z.of_nat (builder_num_levels r) →
  ApplyFileAddition level f r = (r', None) → lsm_add m (level, f) = Some m' → blob_inv r' m' bs.
Proof.
  intros Hr Hm Hi Hl Ha Hd. unfold lsm_add in Hd. cbn [fst snd] in Hd.
  destruct (m !! GetNumber f) as [|] eqn:En; [done|]. injection Hd as <-. unfold ApplyFileAddition in Ha.
  pose proof (current_level r (GetNumber f) Hr) as Hcl. rewrite Hm, En in Hcl. rewrite Hcl in Ha. cbn [negb Z.eqb Pos.eqb] in Ha.
  destruct (Z.leb_spec (Z.of_nat (builder_num_levels r)) level); [lia|]. destruct (reserve_metadata f); [|done].
  set (r2 := set_level_state level _ (set_level_state level _ r)) in Ha.
  pose proof (update_blob_same (oldest_blob_file_number f) (LinkSst (GetNumber f)) r2) as (Hbase & _).
  apply (update_blob_inv r r' m _ bs (oldest_blob_file_number f) (LinkSst (GetNumber f)) Hi).
  - destruct (track_found_and_missing_files_ r); injection Ha as <-; exact Hbase.
  - intros k. trans (blob_meta k (update_blob (oldest_blob_file_number f) (LinkSst (GetNumber f)) r2)).
    + destruct (track_found_and_missing_files_ r); injection Ha as <-; reflexivity.
    + rewrite !update_blob_meta. reflexivity.
  - intros k Hk. rewrite linked_in_insert, decide_False by first [done|congruence]. done.
  - intros b x _ (H1 & H2 & H3 & H4). split_and!; [done|done| |].
    + cbn. rewrite linked_in_insert, decide_True, H3 by done. done.
    + apply link_delta; [|done]. rewrite H3, linked_in_elem. intros (l' & g & Hg & _). congruence.
Qed.

Lemma blob_in_version n r m bs : blob_inv r m bs → IsBlobFileInVersion n r = true ↔ is_Some (bs !! n).
Proof.
  intros Hi. specialize (Hi n). unfold IsBlobFileInVersion. unfold GetOrCreateMutableBlobFileMetaData in Hi.
  destruct (mutable_blob_file_metas_ r !! n); [destruct (bs !! n); [by split; [eexists|]|done]|].
  destruct (GetBlobFileMetaData (base_vstorage_ r) n); cbn in Hi; destruct (bs !! n); done.
Qed.

Lemma blob_addition_blobs r m bs a r' :
  blob_inv r m bs → linked_in m (bfa_blob_file_number a) = ∅ → kInvalidBlobFileNumber < bfa_blob_file_number a →
  ApplyBlobFileAddition a r = (r', None) → ∃ bs', blobs_add bs a = Some bs' ∧ blob_inv r' m bs'.
Proof.
  intros Hi Hl Hn Ha. set (n := bfa_blob_file_number a) in *. unfold ApplyBlobFileAddition in Ha. fold n in Ha.
  pose proof (blob_in_version n r m bs Hi) as Hv. destruct (IsBlobFileInVersion n r) eqn:Ev; [done|].
  destruct (bs !! n) as [x|] eqn:Eb; [by pose proof (proj2 Hv ltac:(by eexists))|].
  exists (<[n := (shared_of a, 0, 0)]> bs). split; [unfold blobs_add; fold n; by rewrite Eb|].
  assert (Hr' : base_vstorage_ r' = base_vstorage_ r ∧
    ∀ k, blob_meta k r' = blob_meta k (set_blob_meta n (NewMutableBlob (shared_of a)) r)).
  { destruct (track_found_and_missing_files_ r); [destruct (verify_blob_file a)|]; by injection Ha as <-. }
  destruct Hr' as [Hb Hm]. intros k. rewrite Hm, blob_meta_set, Hb. specialize (Hi k).
  destruct (decide (k = n)) as [->|]; [|by rewrite lookup_insert_ne]. rewrite lookup_insert_eq. split; [done|].
  split_and!; [done|done|by rewrite Hl|]. intros bb Hbb.
  unfold IsBlobFileInVersion in Ev. rewrite Hbb in Ev. by destruct (mutable_blob_file_metas_ r !! n).
Qed.

Lemma add64_assoc a b c : a +64 b +64 c = a +64 (b +64 c).
Proof. unfold u64. rewrite Zplus_mod_idemp_l, Zplus_mod_idemp_r. f_equal. lia. Qed.

Lemma blob_garbage_blobs r m bs g r' :
  blob_inv r m bs → ApplyBlobFileGarbage g r = (r', None) →
  ∃ bs', blobs_garbage bs g = Some bs' ∧ blob_inv r' m bs'.
Proof.
  intros Hi Ha. set (n := bfg_blob_file_number g) in *. unfold ApplyBlobFileGarbage in Ha. fold n in Ha.
  pose proof (Hi n) as Hin. unfold blobs_garbage. fold n. destruct (blob_meta n r) as [b|] eqn:Eb; [|done].
  destruct (bs !! n) as [x|] eqn:Ex; [|done]. destruct Hin as (Hn & -> & Hnum & Hl & Hd).
  unfold AddGarbage in Ha. destruct (_ || _); [done|]. injection Ha as <-. eexists. split; [done|].
  intros k. rewrite blob_meta_set. specialize (Hi k). destruct (decide (k = n)) as [->|]; [|by rewrite lookup_insert_ne].
  rewrite lookup_insert_eq. split; [done|]. split_and!; [done..|]. intros bb Hbb.
  destruct (Hd bb Hbb) as (H1 & H2 & H3 & H4 & H5). split_and!; [done..| |]; cbn; rewrite ?H4, ?H5; apply add64_assoc.
Qed.
End records.

(** *** Edits *)

(** No table file refers to a blob file before it is added. *)
Definition additions_fresh (m : lsm) (e : VersionEdit) : Prop :=
  Forall (λ a, linked_in m (bfa_blob_file_number a) = ∅ ∧ kInvalidBlobFileNumber < bfa_blob_file_number a)
    (blob_file_additions_ e).

Fixpoint edits_fresh (es : list VersionEdit) (m : lsm) : Prop :=
  match es with
  | [] => True
  | e :: es' => additions_fresh m e ∧ ∀ m', lsm_edit m e = Some m' → edits_fresh es' m'
  end.

Section edits.
Context `{Comparator} {E : BuilderEnv} (base : BuiltVersion).

Record builder_inv (r : Rep) (m : lsm) (bs : blobs) : Prop := {
  bi_base : base_vstorage_ r = base;
  bi_ok : rep_ok r;
  bi_models : models r m;
  bi_blobs : blob_inv r m bs;
}.

(** A loop that succeeds keeps what every step keeps. *)
Lemma each_inv {S A} (Inv : Rep → S → Prop) (f : A → Rep → outcome) (g : S → A → option S) l : ∀ r s r',
  (∀ r s a r', a ∈ l → Inv r s → f a r = (r', None) → ∃ s', g s a = Some s' ∧ Inv r' s') →
  Inv r s → apply_each f l r = (r', None) → ∃ s', try_each g l s = Some s' ∧ Inv r' s'.
Proof.
  induction l as [|a l IH]; intros r s r' Hf Hi; cbn [apply_each try_each].
  { intros [= <-]. by exists s. }
  destruct (f a r) as [r1 [e|]] eqn:Ea; [done|]. intros Hl.
  destruct (Hf r s a r1 ltac:(left) Hi Ea) as (s1 & -> & Hi1). cbn. apply (IH r1); [|done..].
  intros r2 s2 b r3 Hb. apply Hf. by right.
Qed.

Lemma then_inv k o r' : then_apply k o = (r', None) → ∃ r, o = (r, None) ∧ k r = (r', None).
Proof. destruct o as [r [e|]]; [done|]. cbn. by exists r. Qed.

Lemma same_blobs r r' m bs :
  builder_inv r m bs → same_tables r r' → (∀ k, blob_meta k r' = blob_meta k r) → builder_inv r' m bs.
Proof.
  intros [H1 H2 H3 H4] Hs Hb. pose proof Hs as (Eb & _). split; [congruence|by eapply rep_ok_same| |].
  - intros n. rewrite <- (current_same r r'); [apply H3|done].
  - intros n. rewrite Hb, <- Eb. apply H4.
Qed.

Lemma blob_additions_each l r m bs r' :
  Forall (λ a, linked_in m (bfa_blob_file_number a) = ∅ ∧ kInvalidBlobFileNumber < bfa_blob_file_number a) l →
  builder_inv r m bs → apply_each ApplyBlobFileAddition l r = (r', None) →
  ∃ bs', try_each blobs_add l bs = Some bs' ∧ builder_inv r' m bs'.
Proof.
  intros Hf. rewrite Forall_forall in Hf. apply (each_inv (λ r bs, builder_inv r m bs)). intros q s a q' Hin Hq Hq'.
  destruct (Hf a Hin). destruct (blob_addition_blobs q m s a q') as (s' & ? & ?); [apply Hq|done..|].
  exists s'. split; [done|]. destruct Hq as [Hb Ho Hm _]. pose proof (blob_addition_refines base q m a Hb Ho Hm) as Hr.
  rewrite Hq' in Hr. destruct Hr as (? & ? & m1 & [= <-] & ?). by split.
Qed.

Lemma blob_garbages_each l r m bs r' :
  builder_inv r m bs → apply_each ApplyBlobFileGarbage l r = (r', None) →
  ∃ bs', try_each blobs_garbage l bs = Some bs' ∧ builder_inv r' m bs'.
Proof.
  apply (each_inv (λ r bs, builder_inv r m bs)). intros q s g q' _ Hq Hq'.
  destruct (blob_garbage_blobs q m s g q') as (s' & ? & ?); [apply Hq|done|].
  exists s'. split; [done|]. destruct Hq as [Hb Ho Hm _]. pose proof (blob_garbage_refines base q m g Hb Ho Hm) as Hr.
  rewrite Hq' in Hr. destruct Hr as (? & ? & m1 & [= <-] & ?). by split.
Qed.

Lemma deletions_each l r m bs r' :
  Forall (λ d, 0 <= d.1 < Z.of_nat (num_levels (bv_storage base))) l →
  builder_inv r m bs → apply_each (λ d, ApplyFileDeletion d.1 d.2) l r = (r', None) →
  ∃ m', try_each lsm_delete l m = Some m' ∧ builder_inv r' m' bs.
Proof.
  intros Hd. rewrite Forall_forall in Hd. apply (each_inv (λ r m, builder_inv r m bs)). intros q s [l' n] q' Hin Hq Hq'.
  cbn in Hq'. pose proof Hq as [Hb Ho Hm Hi]. assert (Hl : 0 <= l' < Z.of_nat (builder_num_levels q)).
  { unfold builder_num_levels. rewrite Hb. by apply (Hd (l', n)). }
  pose proof (deletion_refines base q s l' n Hb Ho Hm Hl) as Hr. rewrite Hq' in Hr.
  destruct Hr as (? & ? & m1 & Hm1 & ?). exists m1. split; [done|]. split; [done..|].
  by apply (deletion_blobs q s bs l' n q' m1).
Qed.

Lemma file_additions_each l r m bs r' :
  Forall (λ a, 0 <= a.1 < Z.of_nat (num_levels (bv_storage base))) l →
  builder_inv r m bs → apply_each (λ f, ApplyFileAddition f.1 f.2) l r = (r', None) →
  ∃ m', try_each lsm_add l m = Some m' ∧ builder_inv r' m' bs.
Proof.
  intros Hd. rewrite Forall_forall in Hd. apply (each_inv (λ r m, builder_inv r m bs)). intros q s [l' f] q' Hin Hq Hq'.
  cbn in Hq'. pose proof Hq as [Hb Ho Hm Hi]. assert (Hl : 0 <= l' < Z.of_nat (builder_num_levels q)).
  { unfold builder_num_levels. rewrite Hb. by apply (Hd (l', f)). }
  pose proof (addition_refines base q s l' f Hb Ho Hm Hl) as Hr. rewrite Hq' in Hr.
  destruct Hr as (? & ? & m1 & Hm1 & ?). exists m1. split; [done|]. split; [done..|].
  by apply (addition_blobs q s bs l' f q' m1).
Qed.

Lemma cursors_each l r m bs r' :
  builder_inv r m bs → apply_each (λ c, ApplyCompactCursors c.1 c.2) l r = (r', None) → builder_inv r' m bs.
Proof.
  intros Hi Ha. destruct (each_inv (λ r (_ : unit), builder_inv r m bs) (λ c, ApplyCompactCursors c.1 c.2)
    (λ s _, Some s) l r tt r') as (? & _ & ?); [|done..]. intros q [] c q' _ Hq Hq'. exists tt. split; [done|].
  unfold ApplyCompactCursors in Hq'. destruct (c.1 <? 0); [done|].
  destruct (c.1 <? _); injection Hq' as <-; by eapply same_blobs.
Qed.

Lemma apply_blobs e r m bs r' :
  builder_inv r m bs → levels_in_range (num_levels (bv_storage base)) e → additions_fresh m e →
  Apply e r = (r', None) → ∃ m' bs', lsm_edit m e = Some m' ∧ blobs_edit bs e = Some bs' ∧ builder_inv r' m' bs'.
Proof.
  intros Hi [Hd Hn] Hf Ha. unfold Apply in Ha. destruct (CheckConsistency (base_vstorage_ r)); [done|].
  apply then_inv in Ha as (r5 & Ha & E6). apply then_inv in Ha as (r4 & Ha & E5). apply then_inv in Ha as (r3 & Ha & E4).
  apply then_inv in Ha as (r2 & Ha & E3). apply then_inv in Ha as (r1 & E1 & E2).
  destruct (blob_additions_each _ r m bs r1 Hf Hi E1) as (bs1 & B1 & I1).
  destruct (blob_garbages_each _ r1 m bs1 r2 I1 E2) as (bs2 & B2 & I2).
  destruct (deletions_each _ r2 m bs2 r3 Hd I2 E3) as (m3 & B3 & I3).
  destruct (file_additions_each _ r3 m3 bs2 r4 Hn I3 E4) as (m4 & B4 & I4).
  pose proof (cursors_each _ r4 m4 bs2 r5 I4 E5) as I5.
  exists m4, bs2. split_and!; [unfold lsm_edit; by rewrite B3|unfold blobs_edit; by rewrite B1|].
  injection E6 as <-. eapply same_blobs; [exact I5|..]; unfold note_update; by destruct (_ && _).
Qed.

Fixpoint blobs_edits (es : list VersionEdit) (bs : blobs) : option blobs :=
  match es with
  | [] => Some bs
  | e :: es' => bs' ← blobs_edit bs e; blobs_edits es' bs'
  end.

Lemma apply_all_blobs es : ∀ r m bs r',
  builder_inv r m bs → Forall (levels_in_range (num_levels (bv_storage base))) es → edits_fresh es m →
  apply_all es r = (r', None) →
  ∃ m' bs', lsm_edits es m = Some m' ∧ blobs_edits es bs = Some bs' ∧ builder_inv r' m' bs'.
Proof.
  unfold apply_all. induction es as [|e es IH]; intros r m bs r' Hi Hl Hf; cbn [apply_each lsm_edits blobs_edits].
  { intros [= <-]. by exists m, bs. }
  apply Forall_cons in Hl as [Hle Hl]. destruct Hf as [Hfe Hf]. destruct (Apply e r) as [r1 [err|]] eqn:Ea; [done|].
  intros Hr. destruct (apply_blobs e r m bs r1 Hi Hle Hfe Ea) as (m1 & bs1 & E1 & E2 & Hi1).
  rewrite E1, E2. cbn. apply (IH r1); auto.
Qed.
End edits.

(** ** Merging the metadata *)

Abbreviation key_order := (StronglySorted (λ a b : Z * MutableBlobFileMetaData, a.1 < b.1)).
Definition blobs_sorted (l : list BlobFileMetaData) : Prop :=
  StronglySorted (λ a b, GetBlobFileNumber a < GetBlobFileNumber b) l.

(** What an entry of the merged list says of the two lists. *)
Definition merged_ok (base : list BlobFileMetaData) (mutables : list (Z * MutableBlobFileMetaData)) (x : MergedBlob) : Prop :=
  match x with
  | InBase b => b ∈ base ∧ GetBlobFileNumber b ∉ mutables.*1
  | InMutable m => (merged_number x, m) ∈ mutables ∧ merged_number x ∉ GetBlobFileNumber <$> base
  | InBoth b m => b ∈ base ∧ (GetBlobFileNumber b, m) ∈ mutables
  end.

Definition keys_match (mutables : list (Z * MutableBlobFileMetaData)) : Prop :=
  Forall (λ p, sb_blob_file_number (mb_shared_meta p.2) = p.1) mutables.

Lemma merged_ok_weaken B M B' M' x :
  B ⊆ B' → M ⊆ M' → (∀ c, c ∈ B → GetBlobFileNumber c ∈ M'.*1 → GetBlobFileNumber c ∈ M.*1) →
  (∀ p, p ∈ M → p.1 ∈ GetBlobFileNumber <$> B' → p.1 ∈ GetBlobFileNumber <$> B) →
  merged_ok B M x → merged_ok B' M' x.
Proof.
  intros HB HM Hc Hp. destruct x as [c|m|c m]; cbn [merged_ok]; [|intros [H1 H2]; specialize (Hp _ H1); auto|]; naive_solver.
Qed.

Lemma merged_number_in B M x :
  keys_match M → merged_ok B M x → merged_number x ∈ GetBlobFileNumber <$> B ∨ merged_number x ∈ M.*1.
Proof.
  intros Hk. unfold keys_match in Hk. rewrite Forall_forall in Hk. destruct x as [c|m|c m]; cbn [merged_ok].
  - intros [Hc _]. left. apply list_elem_of_fmap. by exists c.
  - intros [Hm _]. right. apply list_elem_of_fmap. eexists. by split; [|exact Hm].
  - intros [Hc Hm]. right. apply list_elem_of_fmap. eexists. split; [|exact Hm]. cbn. by apply (Hk _ Hm).
Qed.

(** What the merged list promises. *)
Definition merged_spec (base : list BlobFileMetaData) (mutables : list (Z * MutableBlobFileMetaData))
    (l : list MergedBlob) : Prop :=
  StronglySorted (λ x y, merged_number x < merged_number y) l ∧ Forall (merged_ok base mutables) l ∧
  (∀ b, b ∈ base → GetBlobFileNumber b ∈ merged_number <$> l) ∧ (∀ p, p ∈ mutables → p.1 ∈ merged_number <$> l).

(** The merged list is one entry longer than that of the rest. *)
Lemma merged_cons x l B M B' M' :
  keys_match M → merged_ok B' M' x → (∀ n, n ∈ GetBlobFileNumber <$> B → merged_number x < n) →
  (∀ n, n ∈ M.*1 → merged_number x < n) → B ⊆ B' → M ⊆ M' →
  (∀ b, b ∈ B' → b ∈ B ∨ GetBlobFileNumber b = merged_number x) → (∀ p, p ∈ M' → p ∈ M ∨ p.1 = merged_number x) →
  merged_spec B M l → merged_spec B' M' (x :: l).
Proof.
  intros Hk Hx HB HM HsB HsM Hb' Hm' (Hs & Hok & Hb & Hm). split_and!.
  - constructor; [done|]. eapply Forall_impl; [exact Hok|]. intros y Hy. cbn.
    destruct (merged_number_in B M y Hk Hy); auto.
  - constructor; [done|]. eapply Forall_impl; [exact Hok|]. intros y. apply merged_ok_weaken; [done..| |].
    + intros c Hc (p & Ep & Hp)%list_elem_of_fmap. destruct (Hm' p Hp) as [Hin|E]; [apply list_elem_of_fmap; eauto|].
      specialize (HB (GetBlobFileNumber c) ltac:(apply list_elem_of_fmap; eauto)). lia.
    + intros p Hp (c & Ec & Hc)%list_elem_of_fmap. destruct (Hb' c Hc) as [Hin|E]; [apply list_elem_of_fmap; eauto|].
      specialize (HM p.1 ltac:(apply list_elem_of_fmap; eauto)). lia.
  - intros b Hin. cbn. apply elem_of_cons. destruct (Hb' b Hin) as [|]; auto.
  - intros p Hin. cbn. apply elem_of_cons. destruct (Hm' p Hin) as [|]; auto.
Qed.

Lemma above_all {A} (f : A → Z) (x : A) l :
  StronglySorted (λ a b, f a < f b) (x :: l) → ∀ n, n ∈ f <$> l → f x < n.
Proof.
  intros [_ Hx]%StronglySorted_inv n (y & -> & Hy)%list_elem_of_fmap. rewrite Forall_forall in Hx. by apply Hx.
Qed.

Lemma merged_base b B M l :
  blobs_sorted (b :: B) → keys_match M → (∀ n, n ∈ M.*1 → GetBlobFileNumber b < n) →
  merged_spec B M l → merged_spec (b :: B) M (InBase b :: l).
Proof.
  intros Hb Hk HM. apply merged_cons; [done| |apply (above_all GetBlobFileNumber b B Hb)|done|set_solver|done| |auto].
  - split; [left|]. intros Hn%HM. lia.
  - intros c [->|]%elem_of_cons; [by right|by left].
Qed.

Lemma merged_mutable n m B M l :
  key_order ((n, m) :: M) → keys_match ((n, m) :: M) → (∀ k, k ∈ GetBlobFileNumber <$> B → n < k) →
  merged_spec B M l → merged_spec B ((n, m) :: M) (InMutable m :: l).
Proof.
  intros Hm [Hn Hk]%Forall_cons HB. cbn in Hn. pose proof (above_all fst (n, m) M Hm) as HM.
  apply merged_cons; cbn [merged_number]; rewrite ?Hn; [done| |done|done|done|set_solver|auto|].
  - cbn. rewrite Hn. split; [left|]. intros Hb%HB. lia.
  - intros p [->|]%elem_of_cons; [by right|by left].
Qed.

Lemma merged_both b n m B M l :
  blobs_sorted (b :: B) → key_order ((n, m) :: M) → keys_match ((n, m) :: M) → GetBlobFileNumber b = n →
  merged_spec B M l → merged_spec (b :: B) ((n, m) :: M) (InBoth b m :: l).
Proof.
  intros Hb Hm [Hn Hk]%Forall_cons E. cbn in Hn. pose proof (above_all fst (n, m) M Hm) as HM.
  pose proof (above_all GetBlobFileNumber b B Hb) as HB.
  apply merged_cons; cbn [merged_number]; rewrite ?Hn; [done| |by rewrite <- E|done|set_solver|set_solver| |].
  - split; [left|]. rewrite E. left.
  - intros c [->|]%elem_of_cons; [by right|by left].
  - intros p [->|]%elem_of_cons; [by right|by left].
Qed.

Lemma sorted_least {A} (f : A → Z) (x : A) l n :
  StronglySorted (λ a b, f a < f b) (x :: l) → n < f x → ∀ k, k ∈ f <$> (x :: l) → n < k.
Proof. intros Hs Hn k [->|Hk]%elem_of_cons; [done|]. pose proof (above_all f x l Hs k Hk). lia. Qed.

Lemma merge_metas_spec fuel : ∀ base mutables,
  (length base + length mutables <= fuel)%nat → blobs_sorted base → key_order mutables → keys_match mutables →
  merged_spec base mutables (merge_metas fuel base mutables).
Proof.
  induction fuel as [|fuel IH]; intros base mutables Hf Hb Hm Hk.
  { destruct base, mutables; cbn in Hf; try lia. cbn. split_and!; [constructor|constructor|set_solver..]. }
  pose proof Hb as Hb'. pose proof Hm as Hm'. pose proof Hk as Hk'.
  cbn [merge_metas]. destruct base as [|b base], mutables as [|[n m] mutables]; cbn [length] in Hf;
    try (apply StronglySorted_inv in Hb' as [Hb' _]); try (apply StronglySorted_inv in Hm' as [Hm' _]);
    try (apply Forall_cons in Hk' as [_ Hk']).
  - split_and!; [constructor|constructor|set_solver..].
  - apply merged_mutable; [done|done|set_solver|]. apply IH; [cbn; lia|done..].
  - apply merged_base; [done|done|set_solver|]. apply IH; [cbn; lia|done..].
  - destruct (Z.ltb_spec (GetBlobFileNumber b) n); [|destruct (Z.ltb_spec n (GetBlobFileNumber b))].
    + apply merged_base; [done|done|by apply (sorted_least fst)|]. apply IH; [cbn; lia|done..].
    + apply merged_mutable; [done|done|by apply (sorted_least GetBlobFileNumber)|]. apply IH; [cbn; lia|done..].
    + apply merged_both; [done..|lia|]. apply IH; [cbn; lia|done..].
Qed.

(** ** Saving the blob files *)

(** What the code relies on of the blob files of a version: ordered by number,
    valid numbers, and amounts of 64 bits. *)
Record base_blobs_ok (l : list BlobFileMetaData) : Prop := {
  bb_sorted : blobs_sorted l;
  bb_numbers : Forall (λ b, 0 < GetBlobFileNumber b) l;
  bb_garbage : Forall (λ b, u64_ok (bm_garbage_blob_count b) ∧ u64_ok (bm_garbage_blob_bytes b)) l;
}.

Lemma blob_lower_bound v n :
  blobs_sorted (bv_blob_files v) →
  drop (GetBlobFileMetaDataLB v n) (bv_blob_files v) = filter (λ b, n <= GetBlobFileNumber b) (bv_blob_files v).
Proof.
  intros Hs. unfold GetBlobFileMetaDataLB. set (l := bv_blob_files v) in *.
  destruct (std_bound_spec (λ b, GetBlobFileNumber b <? n) l 0 (length l)) as (H1 & H2 & H3); [lia| |].
  { intros i j a b ??? Ha Hb. rewrite !Z.ltb_lt. destruct (decide (i = j)) as [->|]; [by simplify_eq|].
    pose proof (StronglySorted_lookup _ _ i j a b Hs ltac:(lia) Ha Hb). cbn in *. lia. }
  set (p := std_bound _ _ _ _) in *. rewrite <- (take_drop p l) at 2. rewrite filter_app.
  replace (filter _ (take p l)) with (@nil BlobFileMetaData).
  - rewrite filter_all; [done|]. apply Forall_lookup_2. intros i b Hb. rewrite lookup_drop in Hb.
    apply Z.ltb_ge, (H3 (p + i)%nat); [apply lookup_lt_Some in Hb; lia|done].
  - rewrite filter_none; [done|]. apply Forall_lookup_2. intros i b Hb.
    apply lookup_take_Some in Hb as [Hb Hi].
    pose proof (H2 i b ltac:(lia) Hb) as Hlt. apply Z.ltb_lt in Hlt. lia.
Qed.

Lemma get_blob_file v n b :
  blobs_sorted (bv_blob_files v) →
  GetBlobFileMetaData v n = Some b ↔ b ∈ bv_blob_files v ∧ GetBlobFileNumber b = n.
Proof.
  intros Hs. unfold GetBlobFileMetaData. split.
  { destruct (bv_blob_files v !! _) as [c|] eqn:El; [|done]. destruct (Z.eqb_spec (GetBlobFileNumber c) n); [|done].
    intros [= ->]. split; [by eapply list_elem_of_lookup_2|done]. }
  intros [Hb Hn]. pose proof (blob_lower_bound v n Hs) as Hd.
  assert (Hin : b ∈ filter (λ b, n <= GetBlobFileNumber b) (bv_blob_files v)) by (apply list_elem_of_filter; split; [lia|done]).
  rewrite <- Hd in Hin. rewrite <- (Nat.add_0_r (GetBlobFileMetaDataLB v n)), <- lookup_drop.
  assert (Hds : blobs_sorted (drop (GetBlobFileMetaDataLB v n) (bv_blob_files v))).
  { by apply StronglySorted_drop. }
  destruct (drop _ _) as [|c l] eqn:El; [by apply elem_of_nil in Hin|]. cbn.
  assert (Hc : n <= GetBlobFileNumber c).
  { assert (Hc : c ∈ filter (λ b, n <= GetBlobFileNumber b) (bv_blob_files v)) by (rewrite <- Hd; left).
    by apply list_elem_of_filter in Hc as [? _]. }
  apply elem_of_cons in Hin as [->|Hin]; [by rewrite Hn, Z.eqb_refl|].
  pose proof (above_all GetBlobFileNumber c l Hds (GetBlobFileNumber b) ltac:(apply list_elem_of_fmap; eauto)). lia.
Qed.

(** The metadata a merged entry is saved as. *)
Definition merged_final (x : MergedBlob) : BlobFileMetaData :=
  match x with
  | InBase b => b
  | InMutable m => CreateBlobFileMetaData m
  | InBoth b m => if negb (HasDelta m) then b else CreateBlobFileMetaData m
  end.

(** The metadata of blob file [n] after the edits. *)
Definition blob_of (m : lsm) (n : Z) (x : SharedBlobFileMetaData * Z * Z) : BlobFileMetaData :=
  mkBlobFile x.1.1 (linked_in m n) x.1.2 x.2.

Lemma create_blob_of base m n b x : blob_state base m n b x → CreateBlobFileMetaData b = blob_of m n x.
Proof. intros (-> & _ & Hl & _). unfold CreateBlobFileMetaData, blob_of. cbn. by rewrite Hl. Qed.

Lemma sets_no_change (X Y : gset Z) : ∅ = X ∖ Y → ∅ = Y ∖ X → X = Y.
Proof. intros H1 H2. apply set_eq. intros x. split; intros Hx; apply dec_stable; intros Hn; set_solver. Qed.

(** Without changes the metadata are those of the base. *)
Lemma no_delta_base base n b bb :
  delta_ok base n b → GetBlobFileMetaData base n = Some bb → u64_ok (bm_garbage_blob_count bb) →
  u64_ok (bm_garbage_blob_bytes bb) → HasDelta b = false → CreateBlobFileMetaData b = bb.
Proof.
  intros Hd Hbb Hc Hby Hno. destruct (Hd bb Hbb) as (H1 & H2 & H3 & H4 & H5).
  unfold HasDelta, DeltaIsEmpty in Hno. apply negb_false_iff in Hno. rewrite !andb_true_iff in Hno.
  destruct Hno as [[[E1%Z.eqb_eq E2%Z.eqb_eq] E3%bool_decide_eq_true] E4%bool_decide_eq_true].
  rewrite E1, Z.add_0_r, u64_id in H4 by done. rewrite E2, Z.add_0_r, u64_id in H5 by done.
  rewrite E3 in H1. rewrite E4 in H2. unfold CreateBlobFileMetaData. rewrite H3, H4, H5, (sets_no_change _ _ H1 H2). by destruct bb.
Qed.

Lemma sorted_metas_elem m p : p ∈ sorted_metas m ↔ m !! p.1 = Some p.2.
Proof. unfold sorted_metas. rewrite insertion_sort_perm. destruct p. apply elem_of_map_to_list. Qed.

Lemma sorted_metas_order m : key_order (sorted_metas m).
Proof.
  unfold sorted_metas. eapply StronglySorted_impl; [|apply (sorted_distinct (λ a b, (b.1 <? a.1) = false) fst)].
  - intros a b [Hle%Z.ltb_ge Hne]. lia.
  - apply (insertion_sort_sorted (λ a b, a.1 <? b.1) (λ _, True)); [|by apply Forall_true].
    apply swo_on. split; intros *; rewrite ?Z.ltb_lt, ?Z.ltb_ge; lia.
  - rewrite insertion_sort_perm. apply NoDup_fst_map_to_list.
Qed.

(** The loop finds the first linked blob file. *)
Lemma first_linked_spec l :
  StronglySorted (λ x y, merged_number x < merged_number y) l →
  (∀ x, x ∈ l → kInvalidBlobFileNumber < merged_number x) →
  let o := first_linked l in
  (o = kInvalidBlobFileNumber ∧ ∀ x, x ∈ l → merged_linked x = ∅) ∨
  (kInvalidBlobFileNumber < o ∧ (∃ x, x ∈ l ∧ merged_number x = o ∧ merged_linked x ≠ ∅) ∧
   ∀ x, x ∈ l → merged_linked x ≠ ∅ → o <= merged_number x).
Proof.
  induction 1 as [|x l Hs IH Hx]; intros Hp; cbn [first_linked]; [left; set_solver|].
  destruct (decide (merged_linked x = ∅)) as [E1|E1].
  - destruct IH as [[-> Hn]|(Ho & (y & Hy & Hyn & Hyl) & Hmin)]; [set_solver|left|right].
    + split; [done|]. intros y [->|]%elem_of_cons; auto.
    + split_and!; [done|exists y; set_solver|]. intros z [->|]%elem_of_cons; [done|auto].
  - right. split_and!; [apply Hp; left|exists x; split_and!; [left|done..]|]. intros y [->|Hy]%elem_of_cons _; [lia|].
    rewrite Forall_forall in Hx. specialize (Hx y Hy). cbn in Hx. lia.
Qed.

(** *** The merged list *)

Section saving.
Context `{Comparator} {E : BuilderEnv} {base : BuiltVersion} {r : Rep} {m : lsm} {bs : blobs}.
Hypothesis Hbase : base_blobs_ok (bv_blob_files base).
Hypothesis Hinv : builder_inv base r m bs.

(** What is known of blob file [n] through its entry. *)
Definition entry_ok (n : Z) (x : MergedBlob) : Prop :=
  ∃ y, bs !! n = Some y ∧ merged_final x = blob_of m n y ∧ merged_linked x = linked_in m n ∧
    GetBlobFileNumber (blob_of m n y) = n.

Lemma metas_match l : l ⊆ sorted_metas (mutable_blob_file_metas_ r) → keys_match l.
Proof using Hinv.
  intros Hl. unfold keys_match. rewrite Forall_forall. intros p Hp%Hl%sorted_metas_elem.
  pose proof (bi_blobs _ _ _ _ Hinv p.1) as Hi. unfold GetOrCreateMutableBlobFileMetaData in Hi. rewrite Hp in Hi.
  destruct (bs !! p.1) as [x|]; [|done]. by destruct Hi as (_ & _ & Hn & _).
Qed.

Lemma entry_of_meta n b x :
  blob_meta n r = Some b → merged_final x = CreateBlobFileMetaData b → merged_linked x = mb_linked_ssts b → entry_ok n x.
Proof using Hinv.
  intros Hb Hf Hl. pose proof (bi_blobs _ _ _ _ Hinv n) as Hi. rewrite Hb in Hi. destruct (bs !! n) as [y|] eqn:Ey; [|done].
  destruct Hi as (_ & Hs). exists y. split; [done|]. rewrite Hf, Hl, (create_blob_of _ _ _ _ _ Hs).
  destruct Hs as (-> & Hn & Hm & _). by split_and!.
Qed.

Lemma merged_entry first x :
  merged_ok (filter (λ b, first <= GetBlobFileNumber b) (bv_blob_files base))
    (filter (λ p, first <= p.1) (sorted_metas (mutable_blob_file_metas_ r))) x →
  first <= merged_number x ∧ entry_ok (merged_number x) x.
Proof using Hbase Hinv.
  pose proof (bi_base _ _ _ _ Hinv) as Eb. destruct Hbase as [Hs _ Hg]. rewrite Forall_forall in Hg.
  assert (Hmut : ∀ n b, (n, b) ∈ filter (λ p, first <= p.1) (sorted_metas (mutable_blob_file_metas_ r)) →
    first <= n ∧ blob_meta n r = Some b ∧ sb_blob_file_number (mb_shared_meta b) = n).
  { intros n b [Hn Hin]%list_elem_of_filter. pose proof (metas_match [(n, b)]) as Hk. apply Forall_cons_1 in Hk as [Hk _]; [|set_solver].
    apply sorted_metas_elem in Hin. cbn in *. unfold GetOrCreateMutableBlobFileMetaData. by rewrite Hin. }
  destruct x as [b|b|b c]; cbn [merged_ok merged_number].
  - intros [[Hn Hb]%list_elem_of_filter Hno]. split; [done|]. apply (entry_of_meta _ (MutableOfBlob b)); [|by destruct b|done].
    unfold GetOrCreateMutableBlobFileMetaData. destruct (mutable_blob_file_metas_ r !! GetBlobFileNumber b) as [c|] eqn:Ec.
    + exfalso. apply Hno. apply list_elem_of_fmap. exists (GetBlobFileNumber b, c). split; [done|].
      apply list_elem_of_filter. split; [done|]. by apply sorted_metas_elem.
    + rewrite Eb. rewrite (proj2 (get_blob_file base _ b Hs)); done.
  - intros [Hin _]. destruct (Hmut _ _ Hin) as (H1 & H2 & _). split; [done|]. by apply (entry_of_meta _ b).
  - intros [[_ Hb]%list_elem_of_filter Hin]. destruct (Hmut _ _ Hin) as (H1 & H2 & H3). rewrite H3. split; [done|].
    apply (entry_of_meta _ c); [done| |done]. cbn [merged_final]. destruct (HasDelta c) eqn:Ed; [done|]. cbn [negb].
    pose proof (bi_blobs _ _ _ _ Hinv (GetBlobFileNumber b)) as Hi. rewrite H2, Eb in Hi.
    destruct (bs !! GetBlobFileNumber b); [|done]. destruct Hi as (_ & _ & _ & _ & Hd), (Hg b Hb) as [Hg1 Hg2].
    symmetry. apply (no_delta_base base (GetBlobFileNumber b)); [done| |done..]. by apply get_blob_file.
Qed.

Lemma merged_metas first :
  let l := MergeBlobFileMetas r first in
  StronglySorted (λ x y, merged_number x < merged_number y) l ∧
  (∀ x, x ∈ l → first <= merged_number x ∧ entry_ok (merged_number x) x) ∧
  (∀ n y, bs !! n = Some y → first <= n → ∃ x, x ∈ l ∧ merged_number x = n).
Proof using Hbase Hinv.
  pose proof (bi_base _ _ _ _ Hinv) as Eb. pose proof (bb_sorted _ Hbase) as Hs.
  unfold MergeBlobFileMetas. rewrite Eb, (blob_lower_bound base first Hs). set (B := filter _ (bv_blob_files base)).
  set (M := filter _ (sorted_metas _)).
  destruct (merge_metas_spec (length B + length M) B M) as (H1 & H2 & H3 & H4); [done|by apply StronglySorted_filter|
    apply StronglySorted_filter, sorted_metas_order|apply metas_match; intros p; unfold M; rewrite list_elem_of_filter; tauto|].
  cbv zeta. split_and!; [done| |].
  - intros x Hx. rewrite Forall_forall in H2. by apply merged_entry, H2.
  - intros n y Hy Hn. enough (Hin : n ∈ merged_number <$> merge_metas (length B + length M) B M).
    { apply list_elem_of_fmap in Hin as (x & -> & Hx). by exists x. }
    pose proof (bi_blobs _ _ _ _ Hinv n) as Hi. rewrite Hy in Hi. destruct (blob_meta n r) as [b|] eqn:Em; [|done].
    unfold GetOrCreateMutableBlobFileMetaData in Em. destruct (mutable_blob_file_metas_ r !! n) as [c|] eqn:Ec.
    + apply (H4 (n, c)). apply list_elem_of_filter. split; [done|]. by apply sorted_metas_elem.
    + rewrite Eb in Em. apply fmap_Some in Em as (bb & [Hin <-]%(get_blob_file base n bb Hs) & _).
      apply H3. by apply list_elem_of_filter.
Qed.

(** *** The files that are kept *)

(** Some blob file up to [n] is linked. *)
Definition not_older (n : Z) : Prop := ∃ k y, k <= n ∧ bs !! k = Some y ∧ linked_in m k ≠ ∅.

Lemma blob_number_positive n y : bs !! n = Some y → kInvalidBlobFileNumber < n.
Proof using Hinv.
  intros Hy. pose proof (bi_blobs _ _ _ _ Hinv n) as Hi. rewrite Hy in Hi. destruct (blob_meta n r); [|done]. by destruct Hi.
Qed.

(** The oldest linked blob file. *)
Lemma oldest_linked n y :
  bs !! n = Some y →
  not_older n ↔ GetMinOldestBlobFileNumber r ≠ kInvalidBlobFileNumber ∧ GetMinOldestBlobFileNumber r <= n.
Proof using Hbase Hinv.
  intros Hy. destruct (merged_metas kInvalidBlobFileNumber) as (Hs & Hx & Hc). unfold GetMinOldestBlobFileNumber.
  set (l := MergeBlobFileMetas r kInvalidBlobFileNumber) in *.
  destruct (first_linked_spec l Hs) as [[-> Hno]|(Ho & (x & Hxl & Hxn & Hxk) & Hmin)].
  { intros x Hin. destruct (Hx x Hin) as (_ & z & Hz & _). by apply blob_number_positive in Hz. }
  - split; [|by intros []]. intros (k & z & _ & Hk & Hlk). destruct (Hc k z Hk) as (x & Hin & <-).
    { apply blob_number_positive in Hk. lia. }
    destruct (Hx x Hin) as (_ & z' & _ & _ & Hl & _). rewrite <- Hl in Hlk. by destruct Hlk, (Hno x Hin).
  - destruct (Hx x Hxl) as (_ & z & Hz & _ & Hl & _). rewrite Hxn in Hz, Hl. split.
    + intros (k & w & Hkn & Hk & Hlk). destruct (Hc k w Hk) as (x' & Hin & <-).
      { apply blob_number_positive in Hk. lia. }
      split; [lia|]. destruct (Hx x' Hin) as (_ & w' & _ & _ & Hl' & _). rewrite <- Hl' in Hlk. specialize (Hmin x' Hin Hlk). lia.
    + intros [_ Hle]. exists (first_linked l), z. split_and!; [done..|]. by rewrite <- Hl.
Qed.

(** A blob file without links whose blobs are all garbage is dropped. *)
Definition blob_needed (b : BlobFileMetaData) : Prop :=
  bm_linked_ssts b ≠ ∅ ∨ bm_garbage_blob_count b < GetTotalBlobCount b.

#[local] Instance blob_needed_dec b : Decision (blob_needed b).
Proof. unfold blob_needed. apply _. Defined.

Lemma process_blobs l : track_found_and_missing_files_ r = false → ∀ v,
  bv_blob_files (foldl (process_blob r) v l) = bv_blob_files v ++ filter blob_needed (merged_final <$> l).
Proof using Type.
  intros Ht. induction l as [|x l IH]; intros v; cbn [foldl fmap list_fmap]; [by rewrite app_nil_r|].
  assert (Hp : ∃ n, process_blob r v x = AddBlobFileIfNeeded r (merged_final x) n v).
  { destruct x as [b|c|b c]; cbn [process_blob merged_final]; [by eexists..|]. destruct (negb _); by eexists. }
  destruct Hp as [n Hp]. rewrite IH, Hp. unfold AddBlobFileIfNeeded. rewrite Ht, filter_cons. cbn [andb].
  destruct (decide (blob_needed (merged_final x))) as [Hn|Hn].
  - destruct (bool_decide _ && _) eqn:Eb; [|cbn; by rewrite <- app_assoc].
    apply andb_true_iff in Eb as [E1%bool_decide_eq_true E2%Z.leb_le]. destruct Hn; [done|lia].
  - destruct (bool_decide _ && _) eqn:Eb; [done|]. destruct Hn. unfold blob_needed.
    apply andb_false_iff in Eb as [E1%bool_decide_eq_false|E2%Z.leb_gt]; auto.
Qed.

(** The saved blob files. *)
Lemma saved_blobs v :
  track_found_and_missing_files_ r = false → bv_blob_files v = [] →
  let l := bv_blob_files (SaveBlobFilesTo r v) in
  blobs_sorted l ∧ ∀ b, b ∈ l ↔ ∃ y, bs !! GetBlobFileNumber b = Some y ∧ b = blob_of m (GetBlobFileNumber b) y ∧
    not_older (GetBlobFileNumber b) ∧ blob_needed b.
Proof using Hbase Hinv.
  intros Ht Hv. unfold SaveBlobFilesTo. destruct (Z.eqb_spec (GetMinOldestBlobFileNumber r) kInvalidBlobFileNumber) as [E0|E0].
  { rewrite Hv. split; [constructor|]. intros b. split; [by intros ?%elem_of_nil|]. intros (y & Hy & _ & Hn & _).
    by apply (oldest_linked _ y Hy) in Hn as []. }
  destruct (merged_metas (GetMinOldestBlobFileNumber r)) as (Hs & Hx & Hc).
  set (l := MergeBlobFileMetas r _) in *. cbv zeta. rewrite (process_blobs l Ht), Hv. cbn [app].
  assert (Hnum : ∀ x, x ∈ l → GetBlobFileNumber (merged_final x) = merged_number x).
  { intros x Hin. destruct (Hx x Hin) as (_ & y & _ & -> & _ & ->). done. }
  split.
  - apply StronglySorted_filter. clear -Hs Hnum. induction Hs as [|x l Hs IH Hf]; cbn; [constructor|]. constructor.
    + apply IH. intros y Hy. apply Hnum. by right.
    + rewrite Forall_forall in Hf. apply Forall_forall. intros b (y & -> & Hy)%list_elem_of_fmap.
      rewrite !Hnum by set_solver. by apply Hf.
  - intros b. rewrite list_elem_of_filter, list_elem_of_fmap. split.
    + intros [Hn (x & -> & Hin)]. rewrite (Hnum x Hin). destruct (Hx x Hin) as (Hle & y & Hy & Hfin & _). exists y.
      split_and!; [done..| |done]. by apply (oldest_linked _ y Hy).
    + intros (y & Hy & Hb & Hn & Hneed). split; [done|]. apply (oldest_linked _ y Hy) in Hn as [_ Hn].
      destruct (Hc _ y Hy Hn) as (x & Hin & En). exists x. split; [|done]. destruct (Hx x Hin) as (_ & y' & Hy' & -> & _).
      rewrite En in *. congruence.
Qed.
End saving.

(** ** From the edits to the saved blob files *)

(** The blob files of a version are those of [bs], with the links of [m]. *)
Definition version_blobs (v : BuiltVersion) (m : lsm) (bs : blobs) : Prop :=
  ∀ b, b ∈ bv_blob_files v ↔ ∃ y, bs !! GetBlobFileNumber b = Some y ∧ b = blob_of m (GetBlobFileNumber b) y.

Lemma version_blobs_get v m bs n :
  base_blobs_ok (bv_blob_files v) → version_blobs v m bs → (∀ n y, bs !! n = Some y → sb_blob_file_number y.1.1 = n) →
  GetBlobFileMetaData v n = blob_of m n <$> bs !! n.
Proof.
  intros Hb Hv Hk. destruct (bs !! n) as [y|] eqn:Ey; cbn.
  - apply get_blob_file; [apply Hb|]. pose proof (Hk n y Ey) as Hn. split; [|done]. apply Hv. exists y.
    change (GetBlobFileNumber (blob_of m n y)) with (sb_blob_file_number y.1.1). by rewrite Hn.
  - destruct (GetBlobFileMetaData v n) as [b|] eqn:Eb; [|done]. apply get_blob_file in Eb as [Hin <-]; [|apply Hb].
    apply Hv in Hin as (y & ? & _). congruence.
Qed.

(** What is assumed of the version the edits are applied to. *)
Record start_ok (v : BuiltVersion) (m : lsm) (bs : blobs) : Prop := {
  so_exact : locations_exact (bv_storage v);
  so_files : version_models (bv_storage v) m;
  so_base : base_blobs_ok (bv_blob_files v);
  so_blobs : version_blobs v m bs;
  so_keys : ∀ n y, bs !! n = Some y → sb_blob_file_number y.1.1 = n;
}.

Lemma new_builder_inv v m bs track allow : start_ok v m bs → builder_inv v (NewRep v track allow) m bs.
Proof.
  intros [Hx Hm Hb Hv Hk]. split; [done|by apply new_rep_ok|by apply new_rep_models|]. intros n.
  change (blob_meta n (NewRep v track allow)) with (MutableOfBlob <$> GetBlobFileMetaData v n).
  pose proof (version_blobs_get v m bs n Hb Hv Hk) as Hg. rewrite Hg. destruct (bs !! n) as [[[sh cnt] bytes]|] eqn:Ey; cbn; [|done].
  pose proof Hg as [Hin Hn]%get_blob_file; [|apply Hb]. destruct Hb as [Hs Hp Hu].
  rewrite Forall_forall in Hp. rewrite Forall_forall in Hu. specialize (Hp _ Hin). specialize (Hu _ Hin). cbn in Hu. split.
  { unfold kInvalidBlobFileNumber. rewrite <- Hn. exact Hp. }
  split_and!; [done|exact (Hk n _ Ey)|done|]. intros bb Hbb.
  rewrite Hg in Hbb. injection Hbb as <-. cbn. rewrite !Z.add_0_r, !u64_id by apply Hu. split_and!; [set_solver..|done|done|done].
Qed.

Section result.
Context (C : Comparator) (HC : ComparatorOk C) `{StdChoices} {E : BuilderEnv}.

Lemma save_to_blobs r v :
  fresh_version (builder_num_levels r) v →
  ∃ v1, bv_blob_files v1 = [] ∧ bv_blob_files (SaveTo r v).1 = bv_blob_files (SaveBlobFilesTo r v1).
Proof.
  intros Hv. unfold SaveTo. rewrite (fresh_consistent C _ v Hv). destruct Hv as (Hn & He & Hb).
  destruct (save_sst_levels C r v Hn He) as [(_ & Hb' & _) _]. exists (SaveSSTFilesTo r v). split; [congruence|done].
Qed.

(** What a successful series of edits leaves, and what is saved of it. *)
Lemma edits_saved v v0 es m bs allow r :
  start_ok v m bs → fresh_version (num_levels (bv_storage v)) v0 →
  Forall (levels_in_range (num_levels (bv_storage v))) es → edits_fresh es m →
  apply_all es (NewRep v false allow) = (r, None) →
  ∃ m' bs', lsm_edits es m = Some m' ∧ blobs_edits es bs = Some bs' ∧ builder_inv v r m' bs' ∧
    version_models (bv_storage (SaveTo r v0).1) m' ∧ blobs_sorted (bv_blob_files (SaveTo r v0).1) ∧
    ∀ b, b ∈ bv_blob_files (SaveTo r v0).1 ↔
      ∃ y, bs' !! GetBlobFileNumber b = Some y ∧ b = blob_of m' (GetBlobFileNumber b) y ∧
        not_older (m := m') (bs := bs') (GetBlobFileNumber b) ∧ blob_needed b.
Proof using HC.
  intros Hs Hv0 Hl Hf Ha. destruct (apply_all_blobs v es _ m bs r (new_builder_inv v m bs false allow Hs) Hl Hf Ha)
    as (m' & bs' & Hm' & Hbs' & Hi). exists m', bs'.
  pose proof (apply_all_tracks C false es (NewRep v false allow) eq_refl) as Htr. rewrite Ha in Htr. cbn in Htr. unfold tracks in Htr.
  assert (Hv1 : fresh_version (builder_num_levels r) v0).
  { unfold builder_num_levels. by rewrite (bi_base _ _ _ _ Hi). }
  destruct (save_to_blobs r v0 Hv1) as (v1 & Hv1b & ->).
  destruct (saved_blobs (so_base _ _ _ Hs) Hi v1 Htr Hv1b) as [Hsort Hin]. split_and!; [done..| |done|done].
  apply save_to_models; [done|apply Hi|apply Hi| |done]. intros Ht. congruence.
Qed.
End result.

(** C36. The blob files of the saved version.  After edits that the builder
    accepts, they are ordered by number and are exactly the blob files that the
    edits leave, except those older than every linked one and those without
    links whose blobs are all garbage, each with its accumulated garbage and
    linked to the table files whose oldest blob file it is.  So no blob file is
    lost that a table file may still need: when the oldest blob file of a saved
    table file exists, it is kept, and so is every later one with live blobs. *)
Theorem blob_files_saved (C : Comparator) `{StdChoices} {E : BuilderEnv} v v0 es m bs allow r :
  ComparatorOk C → start_ok v m bs → fresh_version (num_levels (bv_storage v)) v0 →
  Forall (levels_in_range (num_levels (bv_storage v))) es → edits_fresh es m →
  apply_all es (NewRep v false allow) = (r, None) →
  ∃ m' bs', lsm_edits es m = Some m' ∧ blobs_edits es bs = Some bs' ∧
    let saved := bv_blob_files (SaveTo r v0).1 in
    blobs_sorted saved ∧
    (∀ b, b ∈ saved ↔ ∃ y, bs' !! GetBlobFileNumber b = Some y ∧ b = blob_of m' (GetBlobFileNumber b) y ∧
       (∃ k z, k <= GetBlobFileNumber b ∧ bs' !! k = Some z ∧ linked_in m' k ≠ ∅) ∧
       (bm_linked_ssts b ≠ ∅ ∨ bm_garbage_blob_count b < GetTotalBlobCount b)) ∧
    ∀ n l f x k y, m' !! n = Some (l, f) → bs' !! oldest_blob_file_number f = Some x →
      bs' !! k = Some y → k = oldest_blob_file_number f ∨
        (oldest_blob_file_number f < k ∧ y.1.2 < sb_total_blob_count y.1.1) →
      blob_of m' k y ∈ saved.
Proof.
  intros HC Hs Hv0 Hl Hf Ha.
  destruct (edits_saved C HC v v0 es m bs allow r Hs Hv0 Hl Hf Ha) as (m' & bs' & Hm' & Hbs' & Hi & _ & Hsort & Hin).
  exists m', bs'. cbv zeta. split_and!; [done..|]. intros n l f x k y Hn Hx Hy Hk. apply Hin.
  assert (Hnum : GetBlobFileNumber (blob_of m' k y) = k).
  { pose proof (bi_blobs _ _ _ _ Hi k) as Hik. rewrite Hy in Hik. destruct (blob_meta k r) as [b|]; [|done].
    by destruct Hik as (_ & -> & ? & _). }
  rewrite Hnum. assert (Hlink : n ∈ linked_in m' (oldest_blob_file_number f)) by (apply linked_in_elem; eauto).
  exists y. split_and!; [done..| |].
  - exists (oldest_blob_file_number f), x. split_and!; [lia|done|set_solver].
  - destruct Hk as [->|[_ Hlive]]; [left; cbn; set_solver|by right].
Qed.

(** ** Witnesses *)

#[local] Existing Instance BytewiseComparator.
#[local] Existing Instance simple_choices.
#[local] Existing Instance accept_all.

Lemma empty_start : start_ok empty_version ∅ ∅.
Proof.
  split; [exact empty_exact|exact empty_models|split; constructor| |].
  - intros b. split; [intros Hb; by apply elem_of_nil in Hb|]. intros (y & Hy & _). by rewrite lookup_empty in Hy.
  - intros n y Hy. by rewrite lookup_empty in Hy.
Qed.

Lemma examples_fresh : edits_fresh [flush_example; compaction_example] ∅.
Proof.
  cbn. split; [|by intros m' _; split; [constructor|]]. constructor; [|constructor]. cbn. split; [|done].
  apply set_eq. intros k. rewrite linked_in_elem. split; [|set_solver]. intros (l & f & Hk & _). by rewrite lookup_empty in Hk.
Qed.

Lemma blob_files_saved_witness :
  let o := apply_all [flush_example; compaction_example] (NewRep empty_version false false) in
  o.2 = None ∧
  ∃ m' bs', lsm_edits [flush_example; compaction_example] ∅ = Some m' ∧
    blobs_edits [flush_example; compaction_example] ∅ = Some bs' ∧
    blobs_sorted (bv_blob_files (SaveTo o.1 empty_version).1).
Proof.
  cbv zeta. assert ((apply_all [flush_example; compaction_example] (NewRep empty_version false false)).2 = None) as E
    by (vm_compute; reflexivity).
  destruct (apply_all [flush_example; compaction_example] (NewRep empty_version false false)) as [r e] eqn:Ea.
  cbn [snd fst] in *. subst e. split; [reflexivity|].
  destruct (blob_files_saved BytewiseComparator empty_version empty_version [flush_example; compaction_example] ∅ ∅
    false r bytewise_ok empty_start empty_fresh examples_in_range examples_fresh Ea) as (m' & bs' & H1 & H2 & H3 & _).
  exists m', bs'. split; [exact H1|]. split; [exact H2|exact H3].
Defined.
