(* ===== verification/VersionHistory.v ===== *)
(** * The versions of a column family

    What the installation of versions in src/db/version_set.cc composes: edits
    are applied to the current version (src/db/version_builder.cc), the result is
    saved into a new version, whose derived fields are then computed.  Every
    version of such a history passes the consistency checks and has what the
    compaction pickers assume of it. *)

From S2P Require Import Prelude Coding BlobIndex Comparator DbFormat ManifestRecords FileMeta VersionEdit.
From S2P Require Import VersionStorage CompactionPicker VersionBuilder VersionBuilderFiles VersionBuilderBlobs.

(** [Version::PrepareAppend] without the statistics. *)
Definition PrepareAppend `{Comparator, StdChoices} (v : BuiltVersion) : BuiltVersion :=
  v <| bv_storage := PrepareForVersionAppend (bv_storage v) |>.

(** ** Histories *)

(** The blob files of a version by number. *)
Definition blob_map (l : list BlobFileMetaData) : blobs :=
  list_to_map ((λ b, (GetBlobFileNumber b, (bm_shared_meta b, bm_garbage_blob_count b, bm_garbage_blob_bytes b))) <$> l).

Section history.
Context (C : Comparator) `{StdChoices} {E : BuilderEnv}.

(** The files an edit leaves: ordered bounds, and no two files of a level that
    overlap, which on level 0 is asked only of the files of an epoch. *)
Record files_apart (m : lsm) : Prop := {
  fa_bounds : ∀ n l f, m !! n = Some (l, f) → bounds_ok C f;
  fa_apart : ∀ n k l f g, m !! n = Some (l, f) → m !! k = Some (l, g) → n ≠ k →
    (l = 0%nat → epoch_number f = epoch_number g) → ends_before C f g ∨ ends_before C g f;
}.

(** A blob file some table file refers to has live blobs. *)
Definition linked_live (m : lsm) (bs : blobs) : Prop :=
  ∀ n y, bs !! n = Some y → linked_in m n ≠ ∅ → y.1.2 < sb_total_blob_count y.1.1.

(** A version and the meaning of its files, after any number of edits. *)
Inductive history (levels : nat) : BuiltVersion → lsm → Prop :=
| history_start v :
    fresh_version levels v → bv_epoch_number_requirement v = kMustPresent → history levels (PrepareAppend v) ∅
| history_edits v m es v0 allow r m' bs' :
    history levels v m → Forall (levels_in_range levels) es → edits_fresh es m →
    apply_all es (NewRep v false allow) = (r, None) →
    fresh_version levels v0 → bv_epoch_number_requirement v0 = kMustPresent →
    lsm_edits es m = Some m' → blobs_edits es (blob_map (bv_blob_files v)) = Some bs' →
    files_apart m' → linked_live m' bs' →
    history levels (PrepareAppend (SaveTo r v0).1) m'.

(** What holds of every version. *)
Record version_good (levels : nat) (v : BuiltVersion) (m : lsm) : Prop := {
  vg_start : start_ok v m (blob_map (bv_blob_files v));
  vg_num_levels : num_levels (bv_storage v) = levels;
  vg_storage : storage_ok C (bv_storage v);
  vg_newest_first : StronglySorted (λ f g, NewestFirstByEpochNumber f g = true) (LevelFiles (bv_storage v) 0);
  vg_ends : ∀ l, (0 < l)%nat → StronglySorted (ends_before C) (LevelFiles (bv_storage v) l);
  vg_consistent : CheckConsistencyDetails v = None;
}.
End history.

(** ** The index of blob files *)

Lemma blob_map_lookup l n y :
  blobs_sorted l → blob_map l !! n = Some y ↔
  ∃ b, b ∈ l ∧ GetBlobFileNumber b = n ∧ y = (bm_shared_meta b, bm_garbage_blob_count b, bm_garbage_blob_bytes b).
Proof.
  intros Hs. unfold blob_map. rewrite <- elem_of_list_to_map.
  - rewrite list_elem_of_fmap. split; [intros (b & [= -> ->] & ?); eauto|intros (b & ? & <- & ->); eauto].
  - rewrite <- list_fmap_compose. cbn. induction Hs as [|b l Hs IH Hb]; cbn; [constructor|]. constructor; [|done].
    rewrite Forall_forall in Hb. intros (c & Ec & Hc)%list_elem_of_fmap. specialize (Hb c Hc). cbn in *. lia.
Qed.

Lemma start_of_blobs v m :
  locations_exact (bv_storage v) → version_models (bv_storage v) m → base_blobs_ok (bv_blob_files v) →
  (∀ b, b ∈ bv_blob_files v → bm_linked_ssts b = linked_in m (GetBlobFileNumber b)) →
  start_ok v m (blob_map (bv_blob_files v)).
Proof.
  intros Hx Hm Hb Hl. pose proof (bb_sorted _ Hb) as Hs. split; [done..| |].
  - intros b. split.
    + intros Hin. eexists. split; [apply blob_map_lookup; eauto|]. unfold blob_of. rewrite <- (Hl b Hin). by destruct b.
    + intros (y & Hy & Eb). apply blob_map_lookup in Hy as (c & Hc & En & ->); [|done].
      rewrite Eb. unfold blob_of. cbn. rewrite <- En, <- (Hl c Hc). by destruct c.
  - intros n y (b & _ & <- & ->)%blob_map_lookup; done.
Qed.

(** Garbage amounts stay 64-bit numbers. *)
Definition garbage_bounded (bs : blobs) : Prop := ∀ n y, bs !! n = Some y → u64_ok y.1.2 ∧ u64_ok y.2.

Lemma try_each_keeps {S A} (P : S → Prop) (f : S → A → option S) l : ∀ s s',
  (∀ s a s', P s → f s a = Some s' → P s') → P s → try_each f l s = Some s' → P s'.
Proof.
  induction l as [|a l IH]; intros s s' Hf Hs; cbn; [by intros [= <-]|].
  destruct (f s a) as [s1|] eqn:Ef; [|done]. cbn. apply IH; [done|]. by eapply Hf.
Qed.

Lemma edits_garbage es : ∀ bs bs', garbage_bounded bs → blobs_edits es bs = Some bs' → garbage_bounded bs'.
Proof.
  induction es as [|e es IH]; intros bs bs' Hb; cbn [blobs_edits]; [by intros [= <-]|].
  destruct (blobs_edit bs e) as [bs1|] eqn:Ee; [|done]. cbn. apply IH. unfold blobs_edit in Ee.
  destruct (try_each blobs_add _ bs) as [bs2|] eqn:E2; [|done]. cbn in Ee.
  eapply (try_each_keeps garbage_bounded); [|eapply (try_each_keeps garbage_bounded); [|exact Hb|exact E2]|exact Ee].
  - intros s g s' Hs. unfold blobs_garbage. destruct (s !! _) as [[[sh c] b]|]; [|done]. destruct (_ || _); [done|].
    intros [= <-] n y [[<- <-]|[_ Hn]]%lookup_insert_Some; [split; apply u64_range|by apply (Hs n)].
  - intros s a s' Hs. unfold blobs_add. destruct (s !! _); [done|]. intros [= <-] n y [[<- <-]|[_ Hn]]%lookup_insert_Some;
      [split; unfold u64_ok; cbn; lia|by apply (Hs n)].
Qed.

(** ** The files of a version as a whole *)

Lemma concat_elem (v : VersionStorageInfo) f : f ∈ concat (files_ v) ↔ ∃ l, f ∈ LevelFiles v l.
Proof.
  rewrite elem_of_concat. unfold LevelFiles. split.
  - intros (fs & Hf & (l & Hl)%list_elem_of_lookup_1). exists l. by rewrite Hl.
  - intros (l & Hf). destruct (files_ v !! l) as [fs|] eqn:El; [|by apply elem_of_nil in Hf].
    exists fs. split; [done|]. by eapply list_elem_of_lookup_2.
Qed.

(** Numbers are distinct when they are on every level and no number is on two. *)
Lemma concat_numbers (v : VersionStorageInfo) :
  (∀ l, NoDup (GetNumber <$> LevelFiles v l)) →
  (∀ l k f g, f ∈ LevelFiles v l → g ∈ LevelFiles v k → GetNumber f = GetNumber g → l = k) →
  NoDup (GetNumber <$> concat (files_ v)).
Proof.
  unfold LevelFiles. generalize (files_ v). clear v. intros fss. induction fss as [|fs fss IH]; intros Hd Hx; cbn; [constructor|].
  rewrite fmap_app. apply NoDup_app. split_and!; [apply (Hd 0%nat)| |].
  - intros n (f & -> & Hf)%list_elem_of_fmap (g & En & (gs & Hg & (k & Hk)%list_elem_of_lookup_1)%elem_of_concat)%list_elem_of_fmap.
    enough (0%nat = S k) by done. apply (Hx 0%nat (S k) f g); [done| |done]. change ((fs :: fss) !! S k) with (fss !! k). by rewrite Hk.
  - apply IH; [intros l; apply (Hd (S l))|]. intros l k f g Hf Hg En. enough (S l = S k) by congruence. by apply (Hx (S l) (S k) f g).
Qed.

Lemma models_numbers v m :
  version_models v m → (∀ l, NoDup (GetNumber <$> LevelFiles v l)) → NoDup (GetNumber <$> concat (files_ v)).
Proof.
  intros Hm Hd. apply concat_numbers; [done|]. intros l k f g Hf Hg En.
  assert (m !! GetNumber f = Some (l, f)) by (by apply Hm). assert (m !! GetNumber g = Some (k, g)) by (by apply Hm). congruence.
Qed.

(** The links the checks collect are those of the map. *)
Lemma links_models v m n : version_models v m → n ≠ kInvalidBlobFileNumber → links_of (concat (files_ v)) n = linked_in m n.
Proof.
  intros Hm Hn. unfold links_of. destruct (Z.eqb_spec n kInvalidBlobFileNumber); [done|]. apply set_eq. intros k.
  rewrite elem_of_list_to_set, list_elem_of_fmap, linked_in_elem. split.
  - intros (f & -> & [Hf (l & Hin)%concat_elem]%list_elem_of_filter). exists l, f. split; [by apply Hm|done].
  - intros (l & f & [Hf <-]%Hm & Ho). exists f. split; [done|]. apply list_elem_of_filter. split; [done|]. apply concat_elem. eauto.
Qed.

(** ** One installation *)

Section step.
Context (C : Comparator) (HC : ComparatorOk C) `{StdChoices} {E : BuilderEnv}.

(** Files in the order of their kind that are apart end before the next. *)
Lemma ends_sorted l fs :
  (0 < l)%nat → Forall (range_ok C) fs →
  StronglySorted (λ f g, level_order kMustPresent l f g = true ∧ (ends_before C f g ∨ ends_before C g f)) fs →
  StronglySorted (ends_before C) fs.
Proof using HC.
  intros Hl Hr Hs. rewrite Forall_forall in Hr. induction Hs as [|f fs Hs IH Hf]; constructor.
  - apply IH. intros g Hg. apply Hr. by right.
  - rewrite Forall_forall in Hf. apply Forall_forall. intros g Hg. destruct (Hf g Hg) as [Ho [|Ha]]; [done|]. exfalso.
    unfold level_order in Ho. destruct (Nat.eqb_spec l 0); [lia|]. unfold BySmallestKey in Ho. unfold ends_before in Ha.
    pose proof (Hr g ltac:(by right)) as Hg'. unfold range_ok in Hg'.
    cmp_case (@InternalKeyCompare C) (smallest f) (smallest g); try done; order (cmp_le (@InternalKeyCompare C)).
Qed.

Lemma ends_level_order l fs :
  (0 < l)%nat → Forall (range_ok C) fs → StronglySorted (ends_before C) fs →
  StronglySorted (λ f g, level_order kMustPresent l f g = true) fs.
Proof using HC.
  intros Hl Hr Hs. rewrite Forall_forall in Hr. induction Hs as [|f fs Hs IH Hf]; constructor.
  - apply IH. intros g Hg. apply Hr. by right.
  - rewrite Forall_forall in Hf. apply Forall_forall. intros g Hg. specialize (Hf g Hg). unfold ends_before in Hf.
    pose proof (Hr f ltac:(by left)) as Hf'. unfold range_ok in Hf'. unfold level_order. destruct (Nat.eqb_spec l 0); [lia|].
    unfold BySmallestKey. cmp_case (@InternalKeyCompare C) (smallest f) (smallest g); try done; order (cmp_le (@InternalKeyCompare C)).
Qed.

Lemma foldl_keeps {A B} (P : B → Prop) (g : B → A → B) l v : (∀ v a, P v → P (g v a)) → P v → P (foldl g v l).
Proof using Type. intros Hg. revert v. induction l as [|a l IH]; intros v Hv; cbn; auto. Qed.

(** Epoch numbers stay required. *)
Lemma save_requirement r v :
  bv_epoch_number_requirement v = kMustPresent → bv_epoch_number_requirement (SaveTo r v).1 = kMustPresent.
Proof using Type.
  intros Hv. unfold SaveTo. destruct (CheckConsistency v); [done|]. cbn.
  destruct (save_blobs_storage r (SaveSSTFilesTo r v)) as [_ ->]. unfold SaveSSTFilesTo.
  destruct (_ =? _)%nat; [done|]. rewrite Hv.
  set (P := λ v, bv_epoch_number_requirement v = kMustPresent). assert (Hl : ∀ l c v, P v → P (SaveLevelTo r l c v)).
  { intros l c w Hw. apply (foldl_keeps P); [|done]. intros w' [b f] Hw'. unfold MaybeAddFile.
    destruct (_ && _ && _); [done|]. destruct (bool_decide _); [done|]. by destruct (match added_files _ !! _ with Some _ => _ | None => _ end). }
  apply (foldl_keeps P); [auto|]. by apply Hl.
Qed.

Context {levels : nat} {v v0 : BuiltVersion} {m m' : lsm} {bs' : blobs} {es : list VersionEdit} {allow : bool} {r : Rep}.
Hypothesis Hgood : version_good C levels v m.
Hypothesis Hes : Forall (levels_in_range levels) es.
Hypothesis Hfresh : edits_fresh es m.
Hypothesis Happ : apply_all es (NewRep v false allow) = (r, None).
Hypothesis Hv0 : fresh_version levels v0.
Hypothesis Hreq : bv_epoch_number_requirement v0 = kMustPresent.
Hypothesis Hm' : lsm_edits es m = Some m'.
Hypothesis Hbs' : blobs_edits es (blob_map (bv_blob_files v)) = Some bs'.
Hypothesis Hapart : files_apart C m'.
Hypothesis Hlive : linked_live m' bs'.

Abbreviation v' := ((SaveTo r v0).1).

Lemma step_saved :
  builder_inv v r m' bs' ∧ version_models (bv_storage v') m' ∧ blobs_sorted (bv_blob_files v') ∧
  ∀ b, b ∈ bv_blob_files v' ↔ ∃ y, bs' !! GetBlobFileNumber b = Some y ∧ b = blob_of m' (GetBlobFileNumber b) y ∧
    not_older (m := m') (bs := bs') (GetBlobFileNumber b) ∧ blob_needed b.
Proof using H HC Hgood Hes Hfresh Happ Hv0 Hm' Hbs'.
  destruct Hgood as [Hs Hn _ _ _ _]. destruct (edits_saved C HC v v0 es m _ allow r Hs) as (m2 & bs2 & E1 & E2 & Hrest);
    [by rewrite Hn|by rewrite Hn|done|done|]. rewrite Hm' in E1. rewrite Hbs' in E2.
  injection E1 as E1. injection E2 as E2. by rewrite E1, E2.
Qed.

Lemma step_levels : builder_num_levels r = levels.
Proof using H HC Hgood Hes Hfresh Happ Hv0 Hm' Hbs'.
  destruct step_saved as (Hi & _). unfold builder_num_levels. rewrite (bi_base _ _ _ _ Hi). apply Hgood.
Qed.

(** The files of a level are in the order of their kind. *)
Lemma step_sorted l : StronglySorted (λ f g, level_order kMustPresent l f g = true) (LevelFiles (bv_storage v') l).
Proof using H HC Hgood Hes Hfresh Happ Hv0 Hm' Hbs' Hreq.
  destruct step_saved as (Hi & _). pose proof Hv0 as Hv1. rewrite <- step_levels in Hv1.
  destruct (save_to_levels C r v0 Hv1) as [Hn Hl].
  destruct (decide (l < builder_num_levels r)%nat) as [Hlt|Hge].
  2:{ unfold LevelFiles. rewrite lookup_ge_None_2 by (unfold num_levels in Hn; lia). constructor. }
  rewrite (Hl l Hlt), (save_requirement r v0 Hreq). apply (saved_sorted C HC); [apply Hi|]. rewrite (bi_base _ _ _ _ Hi).
  destruct Hgood as [_ _ Hst Hnew Hends _]. destruct (decide (l = 0%nat)) as [->|]; [exact Hnew|].
  apply ends_level_order; [lia| |apply Hends; lia]. apply Forall_forall. intros f Hf. by apply (storage_bounds C _ Hst l).
Qed.

Lemma step_file l f : f ∈ LevelFiles (bv_storage v') l → m' !! GetNumber f = Some (l, f).
Proof using H HC Hgood Hes Hfresh Happ Hv0 Hm' Hbs'. intros Hf. destruct step_saved as (_ & Hv & _). by apply Hv. Qed.

Lemma step_ranges l : Forall (range_ok C) (LevelFiles (bv_storage v') l).
Proof using H HC Hgood Hes Hfresh Happ Hv0 Hm' Hbs' Hapart.
  apply Forall_forall. intros f Hf%step_file. by destruct (fa_bounds C m' Hapart _ l f Hf) as (_ & _ & ?).
Qed.

(** Files of a level with different positions are different files. *)
Lemma step_distinct l : NoDup (GetNumber <$> LevelFiles (bv_storage v') l).
Proof using H HC Hgood Hes Hfresh Happ Hv0 Hm' Hbs'.
  destruct step_saved as (Hi & _). apply (save_to_nodup C HC); [apply Hi|]. by rewrite step_levels.
Qed.

Lemma step_ends l : (0 < l)%nat → StronglySorted (ends_before C) (LevelFiles (bv_storage v') l).
Proof using H HC Hgood Hes Hfresh Happ Hv0 Hm' Hbs' Hapart Hreq.
  intros Hl. apply (ends_sorted l); [done|apply step_ranges|].
  pose proof (sorted_distinct _ GetNumber _ (step_sorted l) (step_distinct l)) as Hs.
  assert (Hin : ∀ f, f ∈ LevelFiles (bv_storage v') l → m' !! GetNumber f = Some (l, f)) by (intros; by apply step_file).
  induction Hs as [|f fs Hs IH Hf]; constructor; [apply IH; intros; apply Hin; by right|].
  rewrite Forall_forall in Hf. apply Forall_forall. intros g Hg. destruct (Hf g Hg) as [Ho Hne]. split; [done|].
  apply (fa_apart C m' Hapart (GetNumber f) (GetNumber g) l); [apply Hin; by left|apply Hin; by right|done|lia].
Qed.

Lemma step_l0 : adjacent (l0_neighbours C kMustPresent) (LevelFiles (bv_storage v') 0).
Proof using H HC Hgood Hes Hfresh Happ Hv0 Hm' Hbs' Hapart Hreq.
  intros i f g Hf Hg. pose proof (sorted_distinct _ GetNumber _ (step_sorted 0) (step_distinct 0)) as Hs.
  destruct (StronglySorted_lookup _ _ i (S i) f g Hs ltac:(lia) Hf Hg) as [Ho Hne]. split; [exact Ho|]. intros _ Hep.
  apply list_elem_of_lookup_2, step_file in Hf. apply list_elem_of_lookup_2, step_file in Hg.
  destruct (fa_apart C m' Hapart _ _ _ f g Hf Hg Hne (λ _, Hep)); auto.
Qed.

Lemma step_blobs : base_blobs_ok (bv_blob_files v') ∧ blobs_consistent v' ∧
  ∀ b, b ∈ bv_blob_files v' → bm_linked_ssts b = linked_in m' (GetBlobFileNumber b).
Proof using H HC Hgood Hes Hfresh Happ Hv0 Hm' Hbs' Hlive.
  destruct step_saved as (Hi & Hmod & Hsort & Hin). pose proof (vg_start _ _ _ _ Hgood) as Hs.
  assert (Hg : garbage_bounded bs').
  { apply (edits_garbage es (blob_map (bv_blob_files v))); [|done]. intros n y (b & Hb & _ & ->)%blob_map_lookup; [|apply Hs].
    destruct (so_base _ _ _ Hs) as [_ _ Hu]. rewrite Forall_forall in Hu. exact (Hu b Hb). }
  assert (Hl : ∀ b, b ∈ bv_blob_files v' → bm_linked_ssts b = linked_in m' (GetBlobFileNumber b)).
  { intros b (y & _ & Hb & _)%Hin. by rewrite Hb at 1. }
  split_and!; [split; [done|..]| |done]; apply Forall_forall; intros b Hb; pose proof Hb as (y & Hy & Eb & _ & Hneed)%Hin.
  - by apply (blob_number_positive Hi _ y).
  - rewrite Eb. exact (Hg _ y Hy).
  - rewrite (links_models _ m'); [|done|apply (blob_number_positive Hi) in Hy; lia]. split; [|by apply Hl].
    destruct Hneed as [Hne|]; [|done]. rewrite (Hl b Hb) in Hne. rewrite Eb. exact (Hlive _ y Hy Hne).
Qed.

Lemma step_good : version_good C levels (PrepareAppend v') m'.
Proof using H HC Hgood Hes Hfresh Happ Hv0 Hm' Hbs' Hapart Hlive Hreq.
  destruct step_saved as (_ & Hmod & _). destruct step_blobs as (Hbase & Hcons & Hl).
  assert (Hx : locations_exact (bv_storage (PrepareAppend v'))).
  { intros n l pos. apply (file_locations_spec (GenerateBottommostFiles (GenerateLevel0NonOverlapping
      (GenerateLevelFilesBrief (UpdateNumNonEmptyLevels (bv_storage v'))))) n l pos).
    exact (models_numbers _ m' Hmod step_distinct). }
  assert (Hb : ∀ l f, f ∈ LevelFiles (bv_storage v') l → bounds_ok C f).
  { intros l f Hf%step_file. exact (fa_bounds C m' Hapart _ l f Hf). }
  split.
  - by apply start_of_blobs.
  - pose proof Hv0 as Hv1. rewrite <- step_levels in Hv1. destruct (save_to_levels C r v0 Hv1) as [Hn _].
    rewrite <- step_levels, <- Hn. done.
  - split; [apply prepare_indexed|]. split.
    + intros l Hl0. split; [apply Forall_forall; exact (Hb l)|]. eapply StronglySorted_impl; [|exact (step_ends l Hl0)].
      intros f g. unfold ends_before. intros. order (cmp_le (@InternalKeyCompare C)).
    + apply Forall_forall. exact (Hb 0%nat).
  - exact (step_sorted 0).
  - exact step_ends.
  - apply (consistency_details C HC); [exact step_ranges|]. split_and!; [|exact step_ends|exact Hcons].
    change (bv_epoch_number_requirement (PrepareAppend v')) with (bv_epoch_number_requirement v').
    rewrite (save_requirement r v0 Hreq). exact step_l0.
Qed.
End step.

Section start.
Context (C : Comparator) (HC : ComparatorOk C) `{StdChoices}.

Lemma start_good levels v :
  fresh_version levels v → bv_epoch_number_requirement v = kMustPresent → version_good C levels (PrepareAppend v) ∅.
Proof using HC.
  intros (Hn & He & Hb) Hreq.
  assert (He' : ∀ l, LevelFiles (bv_storage (PrepareAppend v)) l = []) by exact He.
  assert (Hb' : bv_blob_files (PrepareAppend v) = []) by exact Hb. split.
  - apply start_of_blobs.
    + intros n l pos. apply (file_locations_spec (GenerateBottommostFiles (GenerateLevel0NonOverlapping
        (GenerateLevelFilesBrief (UpdateNumNonEmptyLevels (bv_storage v))))) n l pos).
      apply concat_numbers; [intros k; change (NoDup (GetNumber <$> LevelFiles (bv_storage v) k)); rewrite He; constructor|].
      intros l1 l2 f g Hf. change (f ∈ LevelFiles (bv_storage v) l1) in Hf. rewrite He in Hf. by apply elem_of_nil in Hf.
    + intros n l f. rewrite He', lookup_empty. split; [done|]. by intros [?%elem_of_nil _].
    + rewrite Hb'. split; constructor.
    + rewrite Hb'. by intros b ?%elem_of_nil.
  - exact Hn.
  - split; [apply prepare_indexed|]. split; [intros l _; rewrite He'; split; constructor|by rewrite He'].
  - rewrite He'. constructor.
  - intros l _. rewrite He'. constructor.
  - apply (consistency_details C HC); [intros l; rewrite He'; constructor|].
    split_and!; [rewrite He'; by intros i ??|intros l _; rewrite He'; constructor|]. unfold blobs_consistent. rewrite Hb'. constructor.
Qed.

Lemma versions_good {E : BuilderEnv} levels v m : history C levels v m → version_good C levels v m.
Proof using HC.
  induction 1 as [v Hv Hreq|v m es v0 allow r m' bs' _ IH Hes Hf Ha Hv0 Hreq Hm' Hbs' Hap Hlive].
  - by apply start_good.
  - exact (step_good C HC IH Hes Hf Ha Hv0 Hreq Hm' Hbs' Hap Hlive).
Qed.
End start.

(** ** Edits of flushes and compactions *)

Section jobs.
Context (C : Comparator) (HC : ComparatorOk C).
Abbreviation ile := (cmp_le (@InternalKeyCompare C)).

(** A flush adds files with new epoch numbers to level 0.  A compaction adds
    files that follow each other between [lo] and [hi] to its output level, and
    deletes all files of that level that meet this range. *)
Inductive job_edit (m : lsm) (e : VersionEdit) : Prop :=
| flush_edit :
    deleted_files_ e = [] →
    Forall (λ a, a.1 = 0 ∧ bounds_ok C a.2 ∧ ∀ n f, m !! n = Some (0%nat, f) → epoch_number f ≠ epoch_number a.2)
      (new_files_ e) →
    NoDup ((epoch_number ∘ snd) <$> new_files_ e) → job_edit m e
| compaction_edit (out : nat) (lo hi : key) :
    (0 < out)%nat →
    Forall (λ a, a.1 = Z.of_nat out ∧ bounds_ok C a.2 ∧ ile lo (smallest a.2) ∧ ile (largest a.2) hi) (new_files_ e) →
    StronglySorted (λ a b, ends_before C a.2 b.2) (new_files_ e) →
    (∀ n f, m !! n = Some (out, f) → (Z.of_nat out, n) ∉ deleted_files_ e → ¬ ile lo (largest f) ∨ ¬ ile (smallest f) hi) →
    job_edit m e.

Lemma deletions_lookup ds : ∀ m m' n x,
  try_each lsm_delete ds m = Some m' → m' !! n = Some x → m !! n = Some x ∧ (Z.of_nat x.1, n) ∉ ds.
Proof using Type.
  induction ds as [|[l k] ds IH]; intros m m' n x; cbn [try_each].
  { intros [= <-] Hn. split; [done|]. apply not_elem_of_nil. }
  destruct (lsm_delete m (l, k)) as [m1|] eqn:E1; [|by cbn]. cbn. intros Hd Hn. destruct (IH m1 m' n x Hd Hn) as [Hx Hnot].
  unfold lsm_delete in E1. cbn [fst snd] in E1. destruct (m !! k) as [[l' f]|]; [|done].
  destruct (Z.of_nat l' =? l); [|done]. injection E1 as <-.
  apply lookup_delete_Some in Hx as [Hne Hx]. split; [done|]. intros [[= _ Hk]|]%elem_of_cons; [congruence|done].
Qed.

Lemma additions_lookup fs : ∀ m m' n l f,
  try_each lsm_add fs m = Some m' → m' !! n = Some (l, f) →
  m !! n = Some (l, f) ∨ ∃ a i, fs !! i = Some a ∧ a.2 = f ∧ Z.to_nat a.1 = l ∧ GetNumber f = n.
Proof using Type.
  induction fs as [|a fs IH]; intros m m' n l f; cbn [try_each].
  { intros [= <-] Hn. by left. }
  destruct (lsm_add m a) as [m1|] eqn:E1; [|by cbn]. cbn. intros Hd Hn.
  destruct (IH m1 m' n l f Hd Hn) as [Hx|(b & i & Hi & ? & ? & ?)]; [|right; by exists b, (S i)].
  unfold lsm_add in E1. destruct (m !! GetNumber a.2); [done|]. injection E1 as <-.
  apply lookup_insert_Some in Hx as [[<- [= <- <-]]|[_ Hx]]; [right; by exists a, 0%nat|by left].
Qed.

(** A file after the edit: one that was there and is not deleted, or an added
    one. *)
Lemma edit_lookup m m' e n l f :
  lsm_edit m e = Some m' → m' !! n = Some (l, f) →
  (m !! n = Some (l, f) ∧ (Z.of_nat l, n) ∉ deleted_files_ e) ∨
  ∃ a i, new_files_ e !! i = Some a ∧ a.2 = f ∧ Z.to_nat a.1 = l ∧ GetNumber f = n.
Proof using Type.
  unfold lsm_edit. destruct (try_each lsm_delete _ m) as [m1|] eqn:E1; [|done]. cbn. intros E2 Hn.
  destruct (additions_lookup _ m1 m' n l f E2 Hn) as [Hx|Hx]; [|by right]. left. exact (deletions_lookup _ m m1 n (l, f) E1 Hx).
Qed.

Lemma flush_keeps m m' e :
  deleted_files_ e = [] →
  Forall (λ a, a.1 = 0 ∧ bounds_ok C a.2 ∧ ∀ n f, m !! n = Some (0%nat, f) → epoch_number f ≠ epoch_number a.2) (new_files_ e) →
  NoDup ((epoch_number ∘ snd) <$> new_files_ e) → files_apart C m → lsm_edit m e = Some m' → files_apart C m'.
Proof using Type.
  intros Hd Hn Hnd [Hb Ha] He. rewrite Forall_lookup in Hn. split.
  - intros n l f Hf. destruct (edit_lookup m m' e n l f He Hf) as [[Hx _]|(a & i & Hi & <- & _)]; [by eapply Hb|].
    by destruct (Hn i a Hi) as (_ & ? & _).
  - intros n k l f g Hf Hg Hne Hep.
    destruct (edit_lookup m m' e n l f He Hf) as [[Hx _]|(a & i & Hi & <- & <- & Hni)],
      (edit_lookup m m' e k _ g He Hg) as [[Hy _]|(b & j & Hj & <- & Hbl & Hkj)].
    + by eapply Ha.
    + destruct (Hn j b Hj) as (Hb0 & _ & Hb2). rewrite Hb0 in Hbl. cbn in Hbl. subst l. destruct (Hb2 n f Hx). by apply Hep.
    + destruct (Hn i a Hi) as (Ha0 & _ & Ha2). rewrite Ha0 in *. destruct (Ha2 k g Hy). symmetry. by apply Hep.
    + destruct (Hn i a Hi) as (Ha0 & _). rewrite Ha0 in *. destruct Hne.
      assert (i = j) as ->; [|congruence]. rewrite NoDup_alt in Hnd.
      apply (Hnd i j (epoch_number a.2)); rewrite list_lookup_fmap; [by rewrite Hi|]. rewrite Hj. cbn. f_equal. symmetry. by apply Hep.
Qed.

Lemma compaction_keeps m m' e out lo hi :
  (0 < out)%nat →
  Forall (λ a, a.1 = Z.of_nat out ∧ bounds_ok C a.2 ∧ ile lo (smallest a.2) ∧ ile (largest a.2) hi) (new_files_ e) →
  StronglySorted (λ a b, ends_before C a.2 b.2) (new_files_ e) →
  (∀ n f, m !! n = Some (out, f) → (Z.of_nat out, n) ∉ deleted_files_ e → ¬ ile lo (largest f) ∨ ¬ ile (smallest f) hi) →
  files_apart C m → lsm_edit m e = Some m' → files_apart C m'.
Proof using HC.
  intros Ho Hn Hs Hc [Hb Ha] He. rewrite Forall_lookup in Hn.
  assert (Hmix : ∀ n f a i, m !! n = Some (Z.to_nat a.1, f) → (Z.of_nat (Z.to_nat a.1), n) ∉ deleted_files_ e →
    new_files_ e !! i = Some a → ends_before C f a.2 ∨ ends_before C a.2 f).
  { intros n f a i Hf Hdel Hi. destruct (Hn i a Hi) as (Hl & _ & Hlo & Hhi). rewrite Hl, Nat2Z.id in Hf, Hdel.
    unfold ends_before. destruct (Hc n f Hf Hdel); [left|right]; order (cmp_le (@InternalKeyCompare C)). }
  split.
  - intros n l f Hf. destruct (edit_lookup m m' e n l f He Hf) as [[Hx _]|(a & i & Hi & <- & _)]; [by eapply Hb|].
    by destruct (Hn i a Hi) as (_ & ? & _).
  - intros n k l f g Hf Hg Hne Hep.
    destruct (edit_lookup m m' e n l f He Hf) as [[Hx Hdx]|(a & i & Hi & <- & <- & Hni)],
      (edit_lookup m m' e k _ g He Hg) as [[Hy Hdy]|(b & j & Hj & <- & Hbl & Hkj)].
    + by eapply Ha.
    + subst l. by apply (Hmix n f b j).
    + destruct (Hmix k g a i Hy Hdy Hi); auto.
    + destruct (Nat.lt_trichotomy i j) as [Hij|[->|Hij]]; [left|congruence|right].
      * exact (StronglySorted_lookup _ _ i j a b Hs Hij Hi Hj).
      * exact (StronglySorted_lookup _ _ j i b a Hs Hij Hj Hi).
Qed.

Lemma job_keeps m m' e : job_edit m e → files_apart C m → lsm_edit m e = Some m' → files_apart C m'.
Proof using HC. intros [Hd Hn Hnd|out lo hi Ho Hn Hs Hc]; [by apply flush_keeps|by apply (compaction_keeps m m' e out lo hi)]. Qed.
End jobs.

(** C37. Every version of a column family is sound.  Starting from an empty
    version, each installation applies edits to the current version, saves the
    result into a fresh one and computes its derived fields; whatever the edits
    are, as long as no two files of a level overlap (on level 0, of an epoch) and
    a blob file in use has live blobs, the new version passes the consistency
    checks, its levels are sorted with every file found through the index by its
    number, its blob files are sorted and linked to exactly the table files that
    refer to them, and it is what the compaction pickers assume of a version. *)
Theorem history_good (C : Comparator) `{StdChoices} {E : BuilderEnv} levels v m :
  ComparatorOk C → history C levels v m → version_good C levels v m.
Proof. intros HC. by apply versions_good. Qed.

(** The files of a history are apart. *)
Lemma history_apart (C : Comparator) `{StdChoices} {E : BuilderEnv} levels v m : history C levels v m → files_apart C m.
Proof. by intros []; [split|]. Qed.

(** C38. Flushes and compactions keep versions sound.  When a version reached by
    installing edits receives the edit of a flush, whose files have new epoch
    numbers, or of a compaction, whose outputs follow each other inside a range
    that no remaining file of the output level meets, then whatever the builder
    accepts leaves files that do not overlap, and the version it saves is again
    a sound version of the history, provided the blob files in use have live
    blobs. *)
Theorem jobs_continue_history (C : Comparator) `{StdChoices} {E : BuilderEnv} levels v m e v0 allow r :
  ComparatorOk C → history C levels v m → job_edit C m e → levels_in_range levels e → additions_fresh m e →
  Apply e (NewRep v false allow) = (r, None) →
  fresh_version levels v0 → bv_epoch_number_requirement v0 = kMustPresent →
  ∃ m' bs', lsm_edit m e = Some m' ∧ blobs_edit (blob_map (bv_blob_files v)) e = Some bs' ∧ files_apart C m' ∧
    (linked_live m' bs' → history C levels (PrepareAppend (SaveTo r v0).1) m').
Proof.
  intros HC Hh Hj Hl Hf Ha Hv0 Hreq. pose proof (versions_good C HC levels v m Hh) as Hg.
  destruct (apply_blobs v e (NewRep v false allow) m (blob_map (bv_blob_files v)) r) as (m' & bs' & Hm & Hb & _);
    [apply new_builder_inv, Hg|by rewrite (vg_num_levels _ _ _ _ Hg)|done|done|].
  assert (Hap : files_apart C m') by (apply (job_keeps C HC m m' e); [done|by eapply history_apart|done]).
  exists m', bs'. split_and!; [done..|]. intros Hlive.
  assert (Ha' : apply_all [e] (NewRep v false allow) = (r, None)) by (unfold apply_all; cbn; by rewrite Ha).
  apply (history_edits C levels v m [e] v0 allow r m' bs'); [done|by constructor|by split|done..| | |done|done].
  - cbn [lsm_edits]. by rewrite Hm.
  - cbn [blobs_edits]. by rewrite Hb.
Qed.

(** ** Witnesses *)

#[local] Existing Instance BytewiseComparator.
#[local] Existing Instance simple_choices.
#[local] Existing Instance accept_all.

(** The version after the flush of the example. *)
Definition flushed : Rep := (apply_all [flush_example] (NewRep (PrepareAppend empty_version) false false)).1.
Definition flushed_version : BuiltVersion := PrepareAppend (SaveTo flushed empty_version).1.
Definition flushed_files : lsm := {[7 := (0%nat, table_with_blobs 7 1 x61 x6d)]}.

Lemma flushed_apart : files_apart BytewiseComparator flushed_files.
Proof.
  unfold flushed_files. split.
  - intros n l f [<- [= <- <-]]%lookup_singleton_Some. split_and!; vm_compute; discriminate.
  - intros n k l f g [<- _]%lookup_singleton_Some [<- _]%lookup_singleton_Some. done.
Qed.

Lemma flushed_history : history BytewiseComparator 2 flushed_version flushed_files.
Proof.
  apply (history_edits BytewiseComparator 2 (PrepareAppend empty_version) ∅ [flush_example] empty_version false flushed
    flushed_files {[5 := (mkSharedBlob 5 10 1000 [] [], 0, 0)]}).
  - apply history_start; [exact empty_fresh|done].
  - pose proof examples_in_range as [? _]%Forall_cons. by constructor.
  - destruct examples_fresh as [? _]. by split.
  - assert ((apply_all [flush_example] (NewRep (PrepareAppend empty_version) false false)).2 = None) as E by (vm_compute; reflexivity).
    unfold flushed. destruct (apply_all _ _) as [r e]. cbn in *. by subst.
  - exact empty_fresh.
  - done.
  - vm_compute. reflexivity.
  - vm_compute. reflexivity.
  - exact flushed_apart.
  - intros n y [<- <-]%lookup_singleton_Some _. cbn. lia.
Qed.

Lemma history_good_witness : version_good BytewiseComparator 2 flushed_version flushed_files.
Proof. exact (history_good BytewiseComparator 2 flushed_version flushed_files bytewise_ok flushed_history). Defined.

Lemma compaction_example_job : job_edit BytewiseComparator flushed_files compaction_example.
Proof.
  apply (compaction_edit _ _ _ 1 (smallest (table_with_blobs 8 1 x61 x6c)) (largest (table_with_blobs 8 1 x61 x6c))); [lia| | |].
  - constructor; [|constructor]. split_and!; [done|split_and!|..]; vm_compute; discriminate.
  - repeat constructor.
  - intros n f Hn. unfold flushed_files in Hn. apply lookup_singleton_Some in Hn as [_ Hn]. discriminate Hn.
Qed.

Lemma jobs_continue_history_witness :
  let o := Apply compaction_example (NewRep flushed_version false false) in
  o.2 = None ∧
  ∃ m' bs', lsm_edit flushed_files compaction_example = Some m' ∧
    blobs_edit (blob_map (bv_blob_files flushed_version)) compaction_example = Some bs' ∧
    files_apart BytewiseComparator m' ∧
    (linked_live m' bs' → history BytewiseComparator 2 (PrepareAppend (SaveTo o.1 empty_version).1) m').
Proof.
  cbv zeta. assert ((Apply compaction_example (NewRep flushed_version false false)).2 = None) as E by (vm_compute; reflexivity).
  destruct (Apply compaction_example (NewRep flushed_version false false)) as [r e] eqn:Ea.
  cbn [snd fst] in *. subst e. split; [reflexivity|].
  refine (jobs_continue_history BytewiseComparator 2 flushed_version flushed_files compaction_example empty_version false r
    bytewise_ok flushed_history compaction_example_job _ _ Ea empty_fresh eq_refl).
  - pose proof examples_in_range as H. apply Forall_cons in H as [_ H]. apply Forall_cons in H as [H _]. exact H.
  - constructor.
Defined.
