(* ===== verification/WriteStall.v ===== *)
(** * Write stalls

    Model of src/db/write_controller.cc and of the part of
    src/db/column_family.cc that decides when writes are delayed or stopped: the
    classification of a column family, the rate of delayed writes, the tokens
    through which column families control all writes of the database, and the
    time a column family has spent in every kind of stall. *)

From S2P Require Import Prelude.

(** ** The controller of writes *)

Record WriteController := mkController {
  total_stopped_ : Z;
  total_delayed_ : Z;
  total_compaction_pressure_ : Z;
  credit_in_bytes_ : Z;
  next_refill_time_ : Z;
  max_delayed_write_rate_ : Z;
  delayed_write_rate_ : Z;
  low_pri_bytes_per_second : Z;
}.

#[export] Instance controller_eta : Eta WriteController := λ c,
  mkController (total_stopped_ c) (total_delayed_ c) (total_compaction_pressure_ c) (credit_in_bytes_ c)
    (next_refill_time_ c) (max_delayed_write_rate_ c) (delayed_write_rate_ c) (low_pri_bytes_per_second c).

(** The classes of tokens. *)
Inductive WriteControllerToken := StopWriteToken | DelayWriteToken | CompactionPressureToken.
#[export] Instance token_dec : EqDecision WriteControllerToken.
Proof. solve_decision. Defined.

Definition set_max_delayed_write_rate (write_rate : Z) (c : WriteController) : WriteController :=
  let rate := if write_rate =? 0 then 1 else write_rate in
  let c1 := c <| max_delayed_write_rate_ := rate |> in
  c1 <| delayed_write_rate_ := rate |>.

Definition NewWriteController (delayed_write_rate low_pri_rate : Z) : WriteController :=
  set_max_delayed_write_rate delayed_write_rate (mkController 0 0 0 0 0 0 0 low_pri_rate).

Definition set_delayed_write_rate (write_rate : Z) (c : WriteController) : WriteController :=
  c <| delayed_write_rate_ :=
    if write_rate =? 0 then 1
    else if max_delayed_write_rate_ c <? write_rate then max_delayed_write_rate_ c else write_rate |>.

Definition IsStopped (c : WriteController) : bool := 0 <? total_stopped_ c.
Definition NeedsDelay (c : WriteController) : bool := 0 <? total_delayed_ c.
Definition NeedSpeedupCompaction (c : WriteController) : bool :=
  IsStopped c || NeedsDelay c || (0 <? total_compaction_pressure_ c).

(** *** Tokens *)

Definition GetStopToken (c : WriteController) : WriteController * WriteControllerToken :=
  (c <| total_stopped_ := total_stopped_ c + 1 |>, StopWriteToken).

Definition GetDelayToken (write_rate : Z) (c : WriteController) : WriteController * WriteControllerToken :=
  let c1 := c <| total_delayed_ := total_delayed_ c + 1 |> in
  let c2 := if total_delayed_ c =? 0
            then let c' := c1 <| next_refill_time_ := 0 |> in c' <| credit_in_bytes_ := 0 |> else c1 in
  (set_delayed_write_rate write_rate c2, DelayWriteToken).

Definition GetCompactionPressureToken (c : WriteController) : WriteController * WriteControllerToken :=
  (c <| total_compaction_pressure_ := total_compaction_pressure_ c + 1 |>, CompactionPressureToken).

(** The destructors. *)
Definition ReleaseToken (t : WriteControllerToken) (c : WriteController) : WriteController :=
  match t with
  | StopWriteToken => c <| total_stopped_ := total_stopped_ c - 1 |>
  | DelayWriteToken => c <| total_delayed_ := total_delayed_ c - 1 |>
  | CompactionPressureToken => c <| total_compaction_pressure_ := total_compaction_pressure_ c - 1 |>
  end.

Definition release (t : option WriteControllerToken) (c : WriteController) : WriteController :=
  match t with Some t => ReleaseToken t c | None => c end.

(** *** Delays of single writes *)

Definition kMicrosPerSecond : Z := 1000000.
Definition kMicrosPerRefill : Z := 1000.

(** The delay in microseconds, at time [time_now]. *)
Definition GetDelay (time_now num_bytes : Z) (c : WriteController) : WriteController * Z :=
  if 0 <? total_stopped_ c then (c, 0)
  else if total_delayed_ c =? 0 then (c, 0)
  else if num_bytes <=? credit_in_bytes_ c then (c <| credit_in_bytes_ := credit_in_bytes_ c - num_bytes |>, 0)
  else
    let c1 := if next_refill_time_ c =? 0 then c <| next_refill_time_ := time_now |> else c in
    let refill := next_refill_time_ c1 <=? time_now in
    let c2 :=
      if refill then
        let elapsed := time_now -64 next_refill_time_ c1 +64 kMicrosPerRefill in
        let bytes := u64_cast (dadd (dmul (ddiv (dmul (dlit 1 1) (dbl_of_Z elapsed)) (dbl_of_Z kMicrosPerSecond))
                                        (dbl_of_Z (delayed_write_rate_ c1))) (dlit 999999 1000000)) in
        let c' := c1 <| credit_in_bytes_ := credit_in_bytes_ c1 +64 bytes |> in
        c' <| next_refill_time_ := time_now +64 kMicrosPerRefill |>
      else c1 in
    if refill && (num_bytes <=? credit_in_bytes_ c2) then (c2 <| credit_in_bytes_ := credit_in_bytes_ c2 - num_bytes |>, 0)
    else
      let bytes_over_budget := num_bytes -64 credit_in_bytes_ c2 in
      let needed_delay := u64_cast (dmul (ddiv (dmul (dlit 1 1) (dbl_of_Z bytes_over_budget))
                                            (dbl_of_Z (delayed_write_rate_ c2))) (dbl_of_Z kMicrosPerSecond)) in
      let c3 := c2 <| credit_in_bytes_ := 0 |> in
      let next := next_refill_time_ c2 +64 needed_delay in
      (c3 <| next_refill_time_ := next |>, Z.max (next -64 time_now) kMicrosPerRefill).

(** ** Classification *)

Inductive WriteStallCondition := kDelayed | kStopped | kNormal.
Inductive WriteStallCause := kMemtableLimit | kL0FileCountLimit | kPendingCompactionBytes | kNone.
#[export] Instance condition_dec : EqDecision WriteStallCondition.
Proof. solve_decision. Defined.
#[export] Instance cause_dec : EqDecision WriteStallCause.
Proof. solve_decision. Defined.

(** The options read here. *)
Record StallOptions := mkStallOptions {
  so_max_write_buffer_number : Z;
  so_min_write_buffer_number_to_merge : Z;
  so_disable_auto_compactions : bool;
  so_level0_file_num_compaction_trigger : Z;
  so_level0_slowdown_writes_trigger : Z;
  so_level0_stop_writes_trigger : Z;
  so_soft_pending_compaction_bytes_limit : Z;
  so_hard_pending_compaction_bytes_limit : Z;
  so_max_bytes_for_level_base : Z;
}.

Definition GetWriteStallConditionAndCause (num_unflushed_memtables num_l0_files num_compaction_needed_bytes : Z)
    (o : StallOptions) : WriteStallCondition * WriteStallCause :=
  if so_max_write_buffer_number o <=? num_unflushed_memtables then (kStopped, kMemtableLimit)
  else if negb (so_disable_auto_compactions o) && (so_level0_stop_writes_trigger o <=? num_l0_files)
  then (kStopped, kL0FileCountLimit)
  else if negb (so_disable_auto_compactions o) && (0 <? so_hard_pending_compaction_bytes_limit o) &&
          (so_hard_pending_compaction_bytes_limit o <=? num_compaction_needed_bytes)
  then (kStopped, kPendingCompactionBytes)
  else if (3 <? so_max_write_buffer_number o) && (so_max_write_buffer_number o - 1 <=? num_unflushed_memtables) &&
          (so_min_write_buffer_number_to_merge o <=? num_unflushed_memtables - 1)
  then (kDelayed, kMemtableLimit)
  else if negb (so_disable_auto_compactions o) && (0 <=? so_level0_slowdown_writes_trigger o) &&
          (so_level0_slowdown_writes_trigger o <=? num_l0_files)
  then (kDelayed, kL0FileCountLimit)
  else if negb (so_disable_auto_compactions o) && (0 <? so_soft_pending_compaction_bytes_limit o) &&
          (so_soft_pending_compaction_bytes_limit o <=? num_compaction_needed_bytes)
  then (kDelayed, kPendingCompactionBytes)
  else (kNormal, kNone).

(** *** The rate of delayed writes *)

Definition kIncSlowdownRatio : double := dlit 8 10.
Definition kDecSlowdownRatio : double := ddiv (dlit 1 1) kIncSlowdownRatio.
Definition kNearStopSlowdownRatio : double := dlit 6 10.
Definition kDelayRecoverSlowdownRatio : double := dlit 14 10.
Definition kMinWriteRate : Z := 16 * 1024.

Definition scaled (rate : Z) (ratio : double) : Z := u64_cast (dmul (dbl_of_Z rate) ratio).

Definition SetupDelay (compaction_needed_bytes prev_compaction_need_bytes : Z) (penalize_stop auto_compactions_disabled : bool)
    (c : WriteController) : WriteController * WriteControllerToken :=
  let max_write_rate := max_delayed_write_rate_ c in
  let write_rate := delayed_write_rate_ c in
  let rate :=
    if auto_compactions_disabled then max_write_rate
    else if NeedsDelay c && (kMinWriteRate <? max_write_rate) then
      if penalize_stop then Z.max (scaled write_rate kNearStopSlowdownRatio) kMinWriteRate
      else if (0 <? prev_compaction_need_bytes) && (prev_compaction_need_bytes <=? compaction_needed_bytes)
      then Z.max (scaled write_rate kIncSlowdownRatio) kMinWriteRate
      else if compaction_needed_bytes <? prev_compaction_need_bytes
      then Z.min (scaled write_rate kDecSlowdownRatio) max_write_rate
      else write_rate
    else write_rate in
  GetDelayToken rate c.

(** *** When compactions should be sped up *)

Definition kIntMax : Z := 2 ^ 31 - 1.

Definition GetL0FileCountForCompactionSpeedup (level0_file_num_compaction_trigger level0_slowdown_writes_trigger : Z) : Z :=
  if level0_file_num_compaction_trigger <? 0 then kIntMax
  else
    let twice_level0_trigger := level0_file_num_compaction_trigger * 2 in
    let one_fourth_trigger_slowdown :=
      level0_file_num_compaction_trigger +
      Z.quot (level0_slowdown_writes_trigger - level0_file_num_compaction_trigger) 4 in
    let res := Z.min twice_level0_trigger one_fourth_trigger_slowdown in
    if kIntMax <=? res then kIntMax else res.

(** [bottommost] holds the sizes of the bottommost files. *)
Definition GetPendingCompactionBytesForCompactionSpeedup (o : StallOptions) (bottommost : list Z) : Z :=
  let bottommost_files_size := foldl (λ s n, s +64 n) 0 bottommost in
  let slowdown_threshold := so_soft_pending_compaction_bytes_limit o / 4 in
  if bottommost_files_size =? 0 then slowdown_threshold
  else
    let kMinDebtSize := 2 *64 so_max_bytes_for_level_base o in
    Z.min (Z.max (bottommost_files_size / 8) kMinDebtSize) slowdown_threshold.

Definition GetMarkedFileCountForCompactionSpeedup : Z := 2.

(** ** Column families *)

Inductive InternalCFStatsType :=
| MEMTABLE_LIMIT_DELAYS | MEMTABLE_LIMIT_STOPS | L0_FILE_COUNT_LIMIT_DELAYS | L0_FILE_COUNT_LIMIT_STOPS
| PENDING_COMPACTION_BYTES_LIMIT_DELAYS | PENDING_COMPACTION_BYTES_LIMIT_STOPS
| L0_FILE_COUNT_LIMIT_DELAYS_WITH_ONGOING_COMPACTION | L0_FILE_COUNT_LIMIT_STOPS_WITH_ONGOING_COMPACTION
| MEMTABLE_LIMIT_DELAYS_MICROS | MEMTABLE_LIMIT_STOPS_MICROS | L0_FILE_COUNT_LIMIT_DELAYS_MICROS
| L0_FILE_COUNT_LIMIT_STOPS_MICROS | PENDING_COMPACTION_BYTES_LIMIT_DELAYS_MICROS
| PENDING_COMPACTION_BYTES_LIMIT_STOPS_MICROS.
#[export] Instance stats_type_dec : EqDecision InternalCFStatsType.
Proof. solve_decision. Defined.

(** Sum and number of the values added for every type. *)
Definition CFStats : Type := InternalCFStatsType → Z * Z.

Definition AddCFStats (type : InternalCFStatsType) (value : Z) (s : CFStats) : CFStats :=
  λ t, if decide (t = type) then ((s t).1 +64 value, (s t).2 +64 1) else s t.

Record ColumnFamilyStall := mkStall {
  write_controller_token_ : option WriteControllerToken;
  write_stall_start_time_ : Z;
  write_stall_cause_ : WriteStallCause;
  write_stall_condition_ : WriteStallCondition;
  prev_compaction_needed_bytes_ : Z;
  internal_stats_ : CFStats;
}.

#[export] Instance stall_eta : Eta ColumnFamilyStall := λ s,
  mkStall (write_controller_token_ s) (write_stall_start_time_ s) (write_stall_cause_ s) (write_stall_condition_ s)
    (prev_compaction_needed_bytes_ s) (internal_stats_ s).

Definition NewColumnFamilyStall : ColumnFamilyStall := mkStall None 0 kNone kNormal 0 (λ _, (0, 0)).

Definition stall_micros (condition : WriteStallCondition) (cause : WriteStallCause) : option InternalCFStatsType :=
  match condition, cause with
  | kStopped, kMemtableLimit => Some MEMTABLE_LIMIT_STOPS_MICROS
  | kStopped, kL0FileCountLimit => Some L0_FILE_COUNT_LIMIT_STOPS_MICROS
  | kStopped, kPendingCompactionBytes => Some PENDING_COMPACTION_BYTES_LIMIT_STOPS_MICROS
  | kDelayed, kMemtableLimit => Some MEMTABLE_LIMIT_DELAYS_MICROS
  | kDelayed, kL0FileCountLimit => Some L0_FILE_COUNT_LIMIT_DELAYS_MICROS
  | kDelayed, kPendingCompactionBytes => Some PENDING_COMPACTION_BYTES_LIMIT_DELAYS_MICROS
  | _, _ => None
  end.

Definition RecordWriteStallTime (elapsed_micros : Z) (s : ColumnFamilyStall) : ColumnFamilyStall :=
  let stats := match stall_micros (write_stall_condition_ s) (write_stall_cause_ s) with
               | Some type => AddCFStats type elapsed_micros (internal_stats_ s)
               | None => internal_stats_ s
               end in
  mkStall (write_controller_token_ s) 0 kNone kNormal (prev_compaction_needed_bytes_ s) stats.

(** What the column family and its current version say, and the two readings of
    the clock. *)
Record StallInputs := mkStallInputs {
  in_options : StallOptions;
  in_not_flushed : Z;
  in_l0_delay_trigger_count : Z;
  in_compaction_needed_bytes : Z;
  in_bottommost_sizes : list Z;
  in_marked_files : Z;
  in_level0_compaction : bool;
  in_now_record : Z;
  in_now_start : Z;
}.

(** [write_controller_token_ = token]: the new token exists before the old one is
    released. *)
Definition take_token (got : WriteController * WriteControllerToken) (s : ColumnFamilyStall)
    : WriteController * ColumnFamilyStall :=
  (release (write_controller_token_ s) got.1, s <| write_controller_token_ := Some got.2 |>).

Definition reset_token (c : WriteController) (s : ColumnFamilyStall) : WriteController * ColumnFamilyStall :=
  (release (write_controller_token_ s) c, s <| write_controller_token_ := (None : option WriteControllerToken) |>).

Definition start_stall (condition : WriteStallCondition) (cause : WriteStallCause) (now : Z)
    (types : list InternalCFStatsType) (s : ColumnFamilyStall) : ColumnFamilyStall :=
  mkStall (write_controller_token_ s) now cause condition (prev_compaction_needed_bytes_ s)
    (foldl (λ st t, AddCFStats t 1 st) (internal_stats_ s) types).

(** The branch of a normal condition. *)
Definition speedup_or_reset (i : StallInputs) (c : WriteController) (s : ColumnFamilyStall)
    : WriteController * ColumnFamilyStall :=
  let o := in_options i in
  if (GetL0FileCountForCompactionSpeedup (so_level0_file_num_compaction_trigger o) (so_level0_slowdown_writes_trigger o)
        <=? in_l0_delay_trigger_count i)
  then take_token (GetCompactionPressureToken c) s
  else if so_soft_pending_compaction_bytes_limit o =? 0 then take_token (GetCompactionPressureToken c) s
  else if GetPendingCompactionBytesForCompactionSpeedup o (in_bottommost_sizes i) <=? in_compaction_needed_bytes i
  then take_token (GetCompactionPressureToken c) s
  else if GetMarkedFileCountForCompactionSpeedup <=? in_marked_files i then take_token (GetCompactionPressureToken c) s
  else reset_token c s.

(** After a delay the rate is raised again, and the rate of low-priority writes
    set. *)
Definition recover_rate (needed_delay : bool) (c : WriteController) : WriteController :=
  if needed_delay then
    let write_rate := delayed_write_rate_ c in
    let c1 := set_delayed_write_rate (scaled write_rate kDelayRecoverSlowdownRatio) c in
    c1 <| low_pri_bytes_per_second := write_rate / 4 |>
  else c.

Definition near_stop_bytes (i : StallInputs) : bool :=
  let o := in_options i in
  (0 <? so_hard_pending_compaction_bytes_limit o) &&
  ((3 *64 (so_hard_pending_compaction_bytes_limit o -64 so_soft_pending_compaction_bytes_limit o)) / 4 <?
   in_compaction_needed_bytes i -64 so_soft_pending_compaction_bytes_limit o).

Definition RecalculateWriteStallConditions (i : StallInputs) (c : WriteController) (s : ColumnFamilyStall)
    : WriteController * ColumnFamilyStall * WriteStallCondition :=
  let o := in_options i in
  let s1 := match write_controller_token_ s with
            | Some _ => if 0 <? write_stall_start_time_ s
                        then RecordWriteStallTime (in_now_record i -64 write_stall_start_time_ s) s else s
            | None => s
            end in
  let '(condition, cause) := GetWriteStallConditionAndCause (in_not_flushed i) (in_l0_delay_trigger_count i)
                               (in_compaction_needed_bytes i) o in
  let was_stopped := IsStopped c in
  let needed_delay := NeedsDelay c in
  let l0 := λ a b, if in_level0_compaction i then [a; b] else [a] in
  let delay := λ penalize, SetupDelay (in_compaction_needed_bytes i) (prev_compaction_needed_bytes_ s1) penalize
                             (so_disable_auto_compactions o) c in
  let stalled := λ got types, let '(c2, s2) := take_token got s1 in
                              (c2, start_stall condition cause (in_now_start i) types s2) in
  let '(c3, s3) :=
    match condition, cause with
    | kStopped, kMemtableLimit => stalled (GetStopToken c) [MEMTABLE_LIMIT_STOPS]
    | kStopped, kL0FileCountLimit =>
        stalled (GetStopToken c) (l0 L0_FILE_COUNT_LIMIT_STOPS L0_FILE_COUNT_LIMIT_STOPS_WITH_ONGOING_COMPACTION)
    | kStopped, kPendingCompactionBytes => stalled (GetStopToken c) [PENDING_COMPACTION_BYTES_LIMIT_STOPS]
    | kDelayed, kMemtableLimit => stalled (delay was_stopped) [MEMTABLE_LIMIT_DELAYS]
    | kDelayed, kL0FileCountLimit =>
        stalled (delay (was_stopped || (so_level0_stop_writes_trigger o - 2 <=? in_l0_delay_trigger_count i)))
          (l0 L0_FILE_COUNT_LIMIT_DELAYS L0_FILE_COUNT_LIMIT_DELAYS_WITH_ONGOING_COMPACTION)
    | kDelayed, kPendingCompactionBytes =>
        stalled (delay (was_stopped || near_stop_bytes i)) [PENDING_COMPACTION_BYTES_LIMIT_DELAYS]
    | _, _ => let '(c2, s2) := speedup_or_reset i c s1 in (recover_rate needed_delay c2, s2)
    end in
  (c3, s3 <| prev_compaction_needed_bytes_ := in_compaction_needed_bytes i |>, condition).

(** [SetDropped], as far as writes are concerned. *)
Definition SetDropped (c : WriteController) (s : ColumnFamilyStall) : WriteController * ColumnFamilyStall := reset_token c s.

(** ** The tokens of all column families *)

(** The controller, and every column family with the result of its last
    calculation, which dropping the family withdraws. *)
Record StallSystem := mkSystem {
  sys_controller : WriteController;
  sys_families : list (ColumnFamilyStall * WriteStallCondition);
}.

Inductive system_step : StallSystem → StallSystem → Prop :=
| step_new_family c fs : system_step (mkSystem c fs) (mkSystem c (fs ++ [(NewColumnFamilyStall, kNormal)]))
| step_recalculate c fs k s cond i c' s' cond' :
    fs !! k = Some (s, cond) → RecalculateWriteStallConditions i c s = (c', s', cond') →
    system_step (mkSystem c fs) (mkSystem c' (<[k := (s', cond')]> fs))
| step_drop c fs k s cond c' s' :
    fs !! k = Some (s, cond) → SetDropped c s = (c', s') →
    system_step (mkSystem c fs) (mkSystem c' (<[k := (s', kNormal)]> fs))
| step_write c fs now n c' d : GetDelay now n c = (c', d) → system_step (mkSystem c fs) (mkSystem c' fs)
| step_set_rate c fs rate : 0 <= rate → system_step (mkSystem c fs) (mkSystem (set_max_delayed_write_rate rate c) fs).

Definition system_reachable (rate low_pri : Z) : StallSystem → Prop :=
  rtc system_step (mkSystem (NewWriteController rate low_pri) []).

Definition token_count (t : WriteControllerToken) (fs : list (ColumnFamilyStall * WriteStallCondition)) : Z :=
  Z.of_nat (length (filter (λ f, write_controller_token_ f.1 = Some t) fs)).

(** The token of a family shows its condition. *)
Definition token_shows (t : option WriteControllerToken) (cond : WriteStallCondition) : Prop :=
  (t = Some StopWriteToken ↔ cond = kStopped) ∧ (t = Some DelayWriteToken ↔ cond = kDelayed).

Definition rate_ok (c : WriteController) : Prop := 1 <= delayed_write_rate_ c <= max_delayed_write_rate_ c.

Record system_ok (y : StallSystem) : Prop := {
  sy_stopped : total_stopped_ (sys_controller y) = token_count StopWriteToken (sys_families y);
  sy_delayed : total_delayed_ (sys_controller y) = token_count DelayWriteToken (sys_families y);
  sy_pressure : total_compaction_pressure_ (sys_controller y) = token_count CompactionPressureToken (sys_families y);
  sy_shows : Forall (λ f, token_shows (write_controller_token_ f.1) f.2) (sys_families y);
  sy_rate : rate_ok (sys_controller y);
}.

(** *** Counting tokens *)

Lemma token_count_insert t fs k f g :
  fs !! k = Some f →
  token_count t (<[k := g]> fs) = token_count t fs - (if decide (write_controller_token_ f.1 = Some t) then 1 else 0) +
    (if decide (write_controller_token_ g.1 = Some t) then 1 else 0).
Proof.
  intros Hk. unfold token_count. rewrite <- (take_drop_middle fs k f Hk) at 2. rewrite insert_take_drop by (by eapply lookup_lt_Some).
  rewrite !filter_app, !filter_cons, !length_app. repeat destruct (decide _); cbn [length]; lia.
Qed.

Lemma token_count_app t fs f : write_controller_token_ f.1 = None → token_count t (fs ++ [f]) = token_count t fs.
Proof. intros Hf. unfold token_count. rewrite filter_app, length_app, filter_cons, Hf. rewrite decide_False by done. cbn. lia. Qed.

Lemma token_count_positive t fs :
  0 < token_count t fs ↔ ∃ k f, fs !! k = Some f ∧ write_controller_token_ f.1 = Some t.
Proof.
  unfold token_count. split.
  - intros Hl. destruct (filter _ fs) as [|f l] eqn:Ef; [cbn in Hl; lia|].
    assert (Hin : f ∈ filter (λ f, write_controller_token_ f.1 = Some t) fs) by (rewrite Ef; left).
    apply list_elem_of_filter in Hin as [Ht [k Hk]%list_elem_of_lookup_1]. eauto.
  - intros (k & f & Hk & Ht). assert (Hin : f ∈ filter (λ f, write_controller_token_ f.1 = Some t) fs).
    { apply list_elem_of_filter. split; [done|]. by eapply list_elem_of_lookup_2. }
    destruct (filter _ fs); [by apply elem_of_nil in Hin|]. cbn. lia.
Qed.

(** *** The counters after a change of token *)

(** How the counters of [c'] differ from those of [c] when the token [t] was
    given up and [t'] taken. *)
Definition one (t : option WriteControllerToken) (x : WriteControllerToken) : Z := if decide (t = Some x) then 1 else 0.

Definition moved (t t' : option WriteControllerToken) (c c' : WriteController) : Prop :=
  total_stopped_ c' = total_stopped_ c - one t StopWriteToken + one t' StopWriteToken ∧
  total_delayed_ c' = total_delayed_ c - one t DelayWriteToken + one t' DelayWriteToken ∧
  total_compaction_pressure_ c' =
    total_compaction_pressure_ c - one t CompactionPressureToken + one t' CompactionPressureToken ∧
  max_delayed_write_rate_ c' = max_delayed_write_rate_ c.

Ltac solve_moved := unfold moved, one in *; cbn in *; repeat case_decide; simplify_eq; try done; repeat split; lia.

Lemma set_rate_ok rate c : 0 <= rate → rate_ok c → rate_ok (set_delayed_write_rate rate c).
Proof.
  intros Hr [H1 H2]. unfold rate_ok, set_delayed_write_rate. cbn. destruct (Z.eqb_spec rate 0); [lia|].
  destruct (Z.ltb_spec (max_delayed_write_rate_ c) rate); lia.
Qed.

Lemma release_rate t c : rate_ok c → rate_ok (release t c).
Proof. by destruct t as [[]|]. Qed.

Lemma release_moved t x c1 c :
  moved None (Some x) c c1 → moved t (Some x) c (release t c1).
Proof. intros (H1 & H2 & H3 & H4). destruct t as [[]|], x; solve_moved. Qed.

Lemma scaled_nonneg rate ratio : 0 <= scaled rate ratio.
Proof.
  unfold scaled, u64_cast, u64_of_double. destruct (dtrunc _) as [z|]; cbn; [|lia].
  destruct (Z.leb_spec 0 z); cbn; [|lia]. destruct (z <? 2 ^ 64); cbn; lia.
Qed.

(** *** What a calculation does *)

Lemma stop_moved c : moved None (Some StopWriteToken) c (GetStopToken c).1 ∧ (rate_ok c → rate_ok (GetStopToken c).1).
Proof. split; [solve_moved|done]. Qed.

Lemma pressure_moved c :
  moved None (Some CompactionPressureToken) c (GetCompactionPressureToken c).1 ∧
  (rate_ok c → rate_ok (GetCompactionPressureToken c).1).
Proof. split; [solve_moved|done]. Qed.

Lemma delay_moved rate c :
  0 <= rate → moved None (Some DelayWriteToken) c (GetDelayToken rate c).1 ∧ (rate_ok c → rate_ok (GetDelayToken rate c).1).
Proof.
  intros Hr. unfold GetDelayToken. cbn [fst]. split.
  - destruct (total_delayed_ c =? 0); solve_moved.
  - intros Hc. apply set_rate_ok; [done|]. by destruct (total_delayed_ c =? 0).
Qed.

Lemma setup_moved bytes prev pen dis c :
  rate_ok c → moved None (Some DelayWriteToken) c (SetupDelay bytes prev pen dis c).1 ∧ rate_ok (SetupDelay bytes prev pen dis c).1.
Proof.
  intros Hc. unfold SetupDelay. set (rate := if dis then _ else _). destruct (delay_moved rate c); [|auto].
  unfold rate. destruct Hc. pose proof (scaled_nonneg (delayed_write_rate_ c) kDecSlowdownRatio).
  pose proof (eq_refl : kMinWriteRate = 16384). repeat case_match; lia.
Qed.

(** A token that is taken replaces the one that was held. *)
Lemma take_moved got s c :
  moved None (Some got.2) c got.1 → rate_ok got.1 →
  moved (write_controller_token_ s) (Some got.2) c (take_token got s).1 ∧ rate_ok (take_token got s).1.
Proof. intros Hm Hr. split; [by apply release_moved|by apply release_rate]. Qed.

Lemma reset_moved c s : moved (write_controller_token_ s) None c (reset_token c s).1 ∧ (rate_ok c → rate_ok (reset_token c s).1).
Proof. cbn. split; [destruct (write_controller_token_ s) as [[]|]; solve_moved|apply release_rate]. Qed.

(** What a calculation with result [cond] does to the controller and the token. *)
Definition moves (cond : WriteStallCondition) (c : WriteController) (s : ColumnFamilyStall)
    (x : WriteController * ColumnFamilyStall) : Prop :=
  moved (write_controller_token_ s) (write_controller_token_ x.2) c x.1 ∧ rate_ok x.1 ∧
  token_shows (write_controller_token_ x.2) cond.

Lemma speedup_moves i c s : rate_ok c → moves kNormal c s (speedup_or_reset i c s).
Proof.
  intros Hc. assert (Hp : moves kNormal c s (take_token (GetCompactionPressureToken c) s)).
  { destruct (pressure_moved c) as [H1 H2]. destruct (take_moved (GetCompactionPressureToken c) s c H1 (H2 Hc)). by split_and!. }
  assert (Hr : moves kNormal c s (reset_token c s)) by (destruct (reset_moved c s); split_and!; by auto).
  unfold speedup_or_reset. by repeat case_match.
Qed.

Lemma recover_moved b t t' c c' : moved t t' c c' → rate_ok c' → moved t t' c (recover_rate b c') ∧ rate_ok (recover_rate b c').
Proof.
  intros (H1 & H2 & H3 & H4) Hr. destruct b; [|done]. split; [done|]. unfold recover_rate.
  apply (set_rate_ok (scaled (delayed_write_rate_ c') kDelayRecoverSlowdownRatio) c'); [apply scaled_nonneg|done].
Qed.

Lemma classify_cause a b d o :
  let r := GetWriteStallConditionAndCause a b d o in r.1 = kNormal ↔ r.2 = kNone.
Proof. unfold GetWriteStallConditionAndCause. repeat case_match; done. Qed.

(** A cause is given exactly when the condition is not normal. *)
Ltac no_cause H := try (exfalso; first [discriminate (proj1 H eq_refl)|discriminate (proj2 H eq_refl)]).

(** The token and the condition that a calculation leaves. *)
Lemma recalculate_moves i c s c' s' cond :
  rate_ok c → RecalculateWriteStallConditions i c s = (c', s', cond) → moves cond c s (c', s').
Proof.
  intros Hc. unfold RecalculateWriteStallConditions.
  set (s1 := match write_controller_token_ s with Some _ => _ | None => s end).
  assert (Ht : write_controller_token_ s1 = write_controller_token_ s).
  { unfold s1. destruct (write_controller_token_ s) eqn:E; [|done]. by destruct (0 <? _). }
  pose proof (classify_cause (in_not_flushed i) (in_l0_delay_trigger_count i) (in_compaction_needed_bytes i) (in_options i)) as Hcl.
  destruct (GetWriteStallConditionAndCause _ _ _ _) as [condition cause]. cbn in Hcl.
  unfold moves. rewrite <- Ht. clearbody s1. clear s Ht.
  destruct (stop_moved c) as [Hs1 Hs2]. destruct (take_moved (GetStopToken c) s1 c Hs1 (Hs2 Hc)) as [Hs3 Hs4].
  assert (Hd : ∀ pen, let got := SetupDelay (in_compaction_needed_bytes i) (prev_compaction_needed_bytes_ s1) pen
      (so_disable_auto_compactions (in_options i)) c in
    moved (write_controller_token_ s1) (Some DelayWriteToken) c (take_token got s1).1 ∧ rate_ok (take_token got s1).1).
  { intros pen. destruct (setup_moved (in_compaction_needed_bytes i) (prev_compaction_needed_bytes_ s1) pen
      (so_disable_auto_compactions (in_options i)) c Hc). by apply take_moved. }
  pose proof (speedup_moves i c s1 Hc) as (Hn1 & Hn2 & Hn3).
  destruct (speedup_or_reset i c s1) as [c2 s2]. destruct (recover_moved (NeedsDelay c) _ _ _ _ Hn1 Hn2) as [Hn4 Hn5].
  destruct condition, cause; no_cause Hcl; intros [= <- <- <-]; cbn;
    (split_and!; [first [apply Hs3|apply Hd|apply Hn4]|first [apply Hs4|apply Hd|apply Hn5]|first [exact Hn3|by repeat split]]).
Qed.

Lemma drop_moves c s : rate_ok c → moves kNormal c s (SetDropped c s).
Proof. intros Hc. destruct (reset_moved c s). split_and!; [done|auto|done..]. Qed.

Lemma delay_keeps now n c :
  moved None None c (GetDelay now n c).1 ∧ (rate_ok c → rate_ok (GetDelay now n c).1).
Proof.
  unfold GetDelay. destruct (0 <? total_stopped_ c); [split; [solve_moved|done]|].
  destruct (total_delayed_ c =? 0); [split; [solve_moved|done]|]. destruct (n <=? _); [split; [solve_moved|done]|].
  set (c1 := if next_refill_time_ c =? 0 then _ else c).
  assert (H1 : moved None None c c1 ∧ (rate_ok c → rate_ok c1)) by (unfold c1; destruct (_ =? 0); (split; [solve_moved|done])).
  clearbody c1. destruct H1 as [H1 H1']. destruct (next_refill_time_ c1 <=? now); cbn [andb].
  - destruct (n <=? _); cbn; (split; [exact H1|exact H1']).
  - cbn. split; [exact H1|exact H1'].
Qed.

(** A change of one family. *)
Lemma family_ok c fs k s cond c' s' cond' :
  system_ok (mkSystem c fs) → fs !! k = Some (s, cond) → moves cond' c s (c', s') →
  system_ok (mkSystem c' (<[k := (s', cond')]> fs)).
Proof.
  intros [H1 H2 H3 H4 H5] Hk ((M1 & M2 & M3 & _) & Hr & Hs). cbn in *. unfold one in *.
  split; cbn; rewrite ?(token_count_insert _ fs k (s, cond)) by done; cbn; [lia..| |done].
  by apply Forall_insert.
Qed.

Lemma step_system_ok y y' : system_step y y' → system_ok y → system_ok y'.
Proof.
  intros [c fs|c fs k s cond i c' s' cond' Hk Hr|c fs k s cond c' s' Hk Hd|c fs now n c' d Hd|c fs rate Hr] Hy.
  - destruct Hy as [H1 H2 H3 H4 H5]. split; cbn in *; rewrite ?token_count_app by done; [done..| |done].
    apply Forall_app. split; [done|]. by repeat constructor.
  - pose proof (sy_rate _ Hy) as Hc. cbn in Hc. eapply family_ok; [done..|]. by eapply recalculate_moves.
  - pose proof (sy_rate _ Hy) as Hc. cbn in Hc. pose proof (drop_moves c s Hc) as Hm. rewrite Hd in Hm. by eapply family_ok.
  - destruct Hy as [H1 H2 H3 H4 H5]. destruct (delay_keeps now n c) as [(M1 & M2 & M3 & _) Hr]. rewrite Hd in M1, M2, M3, Hr.
    unfold one in *. cbn in *. split; cbn; [lia..|done|by apply Hr].
  - destruct Hy as [H1 H2 H3 H4 H5]. split; cbn in *; [done..|]. unfold rate_ok, set_max_delayed_write_rate. cbn.
    destruct (Z.eqb_spec rate 0); lia.
Qed.

Lemma system_reachable_ok rate low y : 0 <= rate → system_reachable rate low y → system_ok y.
Proof.
  intros Hr Hy. assert (H0 : system_ok (mkSystem (NewWriteController rate low) [])).
  { split; cbn; [done..|constructor|]. unfold rate_ok, NewWriteController, set_max_delayed_write_rate. cbn.
    destruct (Z.eqb_spec rate 0); lia. }
  clear Hr. revert H0. unfold system_reachable in Hy. induction Hy as [|x z y Hxz Hzy IH]; [done|]. intros Hx. apply IH. by eapply step_system_ok.
Qed.

(** C39. The controller of writes is exact.  However column families are created,
    recalculated and dropped, and however many writes ask for a delay: all writes
    are stopped exactly while the last calculation of some live column family
    found that it must stop, they are delayed exactly while some family must be
    delayed, and compactions are sped up exactly while some family holds a token;
    the rate of delayed writes is positive and never above its maximum. *)
Theorem stall_tokens_exact rate low y :
  0 <= rate → system_reachable rate low y →
  let c := sys_controller y in
  (IsStopped c = true ↔ ∃ k s, sys_families y !! k = Some (s, kStopped)) ∧
  (NeedsDelay c = true ↔ ∃ k s, sys_families y !! k = Some (s, kDelayed)) ∧
  (NeedSpeedupCompaction c = true ↔ ∃ k f, sys_families y !! k = Some f ∧ is_Some (write_controller_token_ f.1)) ∧
  1 <= delayed_write_rate_ c <= max_delayed_write_rate_ c.
Proof.
  intros Hr Hy. destruct (system_reachable_ok rate low y Hr Hy) as [H1 H2 H3 H4 H5]. cbv zeta.
  rewrite Forall_lookup in H4. unfold NeedSpeedupCompaction, IsStopped, NeedsDelay. rewrite H1, H2, H3.
  rewrite !orb_true_iff, !Z.ltb_lt, !token_count_positive. split_and!; [| | |apply H5..].
  - split; [intros (k & [s cond] & Hk & Ht)|intros (k & s & Hk)]; destruct (H4 _ _ Hk) as [Hs _]; cbn in *.
    + exists k, s. rewrite Hk. by rewrite (proj1 Hs Ht).
    + exists k, (s, kStopped). split; [done|]. by apply Hs.
  - split; [intros (k & [s cond] & Hk & Ht)|intros (k & s & Hk)]; destruct (H4 _ _ Hk) as [_ Hs]; cbn in *.
    + exists k, s. rewrite Hk. by rewrite (proj1 Hs Ht).
    + exists k, (s, kDelayed). split; [done|]. by apply Hs.
  - split; [intros [[(k & f & Hk & Ht)|(k & f & Hk & Ht)]|(k & f & Hk & Ht)]; eauto|].
    intros (k & f & Hk & [[] Ht]); eauto 10.
Qed.

(** ** The time spent in stalls *)

Definition classify (i : StallInputs) : WriteStallCondition * WriteStallCause :=
  GetWriteStallConditionAndCause (in_not_flushed i) (in_l0_delay_trigger_count i) (in_compaction_needed_bytes i) (in_options i).

(** The calculations of one column family; the controller changes in between. *)
Definition recalculate_all (l : list (StallInputs * WriteController)) (s : ColumnFamilyStall) : ColumnFamilyStall :=
  foldl (λ s x, (RecalculateWriteStallConditions x.1 x.2 s).1.2) s l.

(** What the calculation [i] ends: the stall the previous one started, if it is
    of type [t], with its length and its number. *)
Definition ended (t : InternalCFStatsType) (prev : option StallInputs) (i : StallInputs) : Z * Z :=
  match prev with
  | Some p => if decide (stall_micros (classify p).1 (classify p).2 = Some t) then (in_now_record i - in_now_start p, 1) else (0, 0)
  | None => (0, 0)
  end.

Fixpoint stall_time (t : InternalCFStatsType) (prev : option StallInputs) (l : list StallInputs) : Z * Z :=
  match l with
  | [] => (0, 0)
  | i :: l' => let rest := stall_time t (Some i) l' in ((ended t prev i).1 + rest.1, (ended t prev i).2 + rest.2)
  end.

(** The number of calculations that found a condition. *)
Definition times_found (x : WriteStallCondition * WriteStallCause) (l : list StallInputs) : Z :=
  Z.of_nat (length (filter (λ i, classify i = x) l)).

(** The counter of a kind of stall. *)
Definition stall_counter (condition : WriteStallCondition) (cause : WriteStallCause) : option InternalCFStatsType :=
  match condition, cause with
  | kStopped, kMemtableLimit => Some MEMTABLE_LIMIT_STOPS
  | kStopped, kL0FileCountLimit => Some L0_FILE_COUNT_LIMIT_STOPS
  | kStopped, kPendingCompactionBytes => Some PENDING_COMPACTION_BYTES_LIMIT_STOPS
  | kDelayed, kMemtableLimit => Some MEMTABLE_LIMIT_DELAYS
  | kDelayed, kL0FileCountLimit => Some L0_FILE_COUNT_LIMIT_DELAYS
  | kDelayed, kPendingCompactionBytes => Some PENDING_COMPACTION_BYTES_LIMIT_DELAYS
  | _, _ => None
  end.

(** The family stands where the calculation [prev] left it. *)
Definition stands (prev : option StallInputs) (s : ColumnFamilyStall) : Prop :=
  match prev with
  | Some p => match classify p with
              | (kNormal, _) => write_stall_start_time_ s = 0
              | (condition, cause) => is_Some (write_controller_token_ s) ∧ write_stall_start_time_ s = in_now_start p ∧
                  write_stall_condition_ s = condition ∧ write_stall_cause_ s = cause
              end
  | None => write_stall_start_time_ s = 0
  end.

(** The statistics that the first part of a calculation leaves. *)
Definition after_record (i : StallInputs) (s : ColumnFamilyStall) : ColumnFamilyStall :=
  match write_controller_token_ s with
  | Some _ => if 0 <? write_stall_start_time_ s
              then RecordWriteStallTime (in_now_record i -64 write_stall_start_time_ s) s else s
  | None => s
  end.

(** The counters a calculation increments. *)
Definition found_types (i : StallInputs) : list InternalCFStatsType :=
  match stall_counter (classify i).1 (classify i).2 with
  | Some t => t :: (if in_level0_compaction i then
      match t with
      | L0_FILE_COUNT_LIMIT_STOPS => [L0_FILE_COUNT_LIMIT_STOPS_WITH_ONGOING_COMPACTION]
      | L0_FILE_COUNT_LIMIT_DELAYS => [L0_FILE_COUNT_LIMIT_DELAYS_WITH_ONGOING_COMPACTION]
      | _ => []
      end else [])
  | None => []
  end.

Lemma recalculate_effect i c s :
  let s' := (RecalculateWriteStallConditions i c s).1.2 in
  internal_stats_ s' = foldl (λ st t, AddCFStats t 1 st) (internal_stats_ (after_record i s)) (found_types i) ∧
  (write_stall_start_time_ (after_record i s) = 0 → stands (Some i) s').
Proof.
  unfold RecalculateWriteStallConditions. fold (after_record i s). fold (classify i). set (s1 := after_record i s). clearbody s1.
  unfold stands, found_types. pose proof (classify_cause (in_not_flushed i) (in_l0_delay_trigger_count i)
    (in_compaction_needed_bytes i) (in_options i)) as Hcl. fold (classify i) in Hcl.
  assert (Hsp : internal_stats_ (speedup_or_reset i c s1).2 = internal_stats_ s1 ∧
    write_stall_start_time_ (speedup_or_reset i c s1).2 = write_stall_start_time_ s1).
  { unfold speedup_or_reset. by repeat case_match. }
  destruct (speedup_or_reset i c s1) as [c2 s2]. destruct Hsp as [Hsp1 Hsp2]. cbn in Hsp1, Hsp2.
  destruct (classify i) as [condition cause]. cbn in Hcl.
  destruct condition, cause; no_cause Hcl; cbn; (split; [try done; by destruct (in_level0_compaction i)|]);
    intros H0; first [congruence|split_and!; [by eexists|done..]].
Qed.

(** *** Sums *)

Definition stats_ok (st : CFStats) : Prop := ∀ t, u64_ok (st t).1 ∧ u64_ok (st t).2.

Lemma add_stats_ok t z st : stats_ok st → stats_ok (AddCFStats t z st).
Proof. intros Hs u. unfold AddCFStats. destruct (decide (u = t)); [|by apply Hs]. split; apply u64_range. Qed.

Lemma add_all_ok ts st : stats_ok st → stats_ok (foldl (λ st t, AddCFStats t 1 st) st ts).
Proof. revert st. induction ts as [|t ts IH]; intros st Hs; [done|]. apply IH. by apply add_stats_ok. Qed.

(** The counters a calculation increments are not those of times. *)
Lemma found_not_micros i t ts :
  stall_micros (classify i).1 (classify i).2 = Some t ∨ (∃ x y, stall_micros x y = Some t) → ts = found_types i → t ∉ ts.
Proof.
  intros Ht ->. assert (∃ x y, stall_micros x y = Some t) as (x & y & Hxy) by (destruct Ht; eauto).
  unfold found_types. destruct (classify i) as [[] []], (in_level0_compaction i), x, y; cbn in *; simplify_eq; set_solver.
Qed.

Lemma add_other ts t st : t ∉ ts → foldl (λ st t, AddCFStats t 1 st) st ts t = st t.
Proof.
  revert st. induction ts as [|u ts IH]; intros st Hn; [done|]. apply not_elem_of_cons in Hn as [Hn1 Hn2]. cbn. rewrite IH by done.
  unfold AddCFStats. by rewrite decide_False.
Qed.

(** Recording adds the length of the stall that ends. *)
Lemma record_adds prev i s t :
  (∀ p, prev = Some p → 0 < in_now_start p) → stands prev s → stats_ok (internal_stats_ s) →
  stats_ok (internal_stats_ (after_record i s)) ∧ write_stall_start_time_ (after_record i s) = 0 ∧
  internal_stats_ (after_record i s) t =
    (u64 ((internal_stats_ s t).1 + (ended t prev i).1), u64 ((internal_stats_ s t).2 + (ended t prev i).2)).
Proof.
  intros Hp Hst Hok. assert (Hsame : internal_stats_ s t = (u64 ((internal_stats_ s t).1 + 0), u64 ((internal_stats_ s t).2 + 0))).
  { rewrite !Z.add_0_r, !u64_id by apply Hok. by destruct (internal_stats_ s t). }
  unfold after_record, ended. destruct prev as [p|].
  2:{ cbn in Hst. rewrite Hst. by destruct (write_controller_token_ s). }
  specialize (Hp p eq_refl). cbn in Hst. destruct (classify p) as [condition cause]. cbn [fst snd].
  assert (Hno : condition = kNormal → stall_micros condition cause = None) by (by intros ->).
  destruct (decide (condition = kNormal)) as [->|Hn].
  { rewrite Hst, Hno, decide_False by done. by destruct (write_controller_token_ s). }
  assert (Hst' : is_Some (write_controller_token_ s) ∧ write_stall_start_time_ s = in_now_start p ∧
    write_stall_condition_ s = condition ∧ write_stall_cause_ s = cause) by (by destruct condition).
  destruct Hst' as ([tk ->] & Hs & Hcond & Hcause). rewrite Hs. destruct (Z.ltb_spec 0 (in_now_start p)); [|lia].
  unfold RecordWriteStallTime. rewrite Hcond, Hcause. cbn [internal_stats_ write_stall_start_time_].
  destruct (stall_micros condition cause) as [u|] eqn:Eu; [|by rewrite decide_False].
  split; [by apply add_stats_ok|]. split; [done|]. unfold AddCFStats. destruct (decide (t = u)) as [->|Hne].
  - rewrite decide_True by done. cbn [fst snd]. by rewrite u64_add_r.
  - rewrite decide_False by congruence. done.
Qed.

Definition is_micros (t : InternalCFStatsType) : Prop := ∃ x y, stall_micros x y = Some t.

(** The clock is positive at every calculation. *)
Definition clocks_positive (l : list (StallInputs * WriteController)) : Prop := Forall (λ x, 0 < in_now_start x.1) l.

Lemma calculation_stats prev i c s t :
  (∀ p, prev = Some p → 0 < in_now_start p) → stands prev s → stats_ok (internal_stats_ s) →
  let s' := (RecalculateWriteStallConditions i c s).1.2 in
  stands (Some i) s' ∧ stats_ok (internal_stats_ s') ∧
  internal_stats_ s' t = foldl (λ st t, AddCFStats t 1 st) (internal_stats_ (after_record i s)) (found_types i) t ∧
  internal_stats_ (after_record i s) t =
    (u64 ((internal_stats_ s t).1 + (ended t prev i).1), u64 ((internal_stats_ s t).2 + (ended t prev i).2)).
Proof.
  intros Hp Hst Hok. destruct (recalculate_effect i c s) as [He Hs]. destruct (record_adds prev i s t Hp Hst Hok) as (H1 & H2 & H3).
  cbv zeta. rewrite He. split_and!; [by apply Hs|by apply add_all_ok|done|done].
Qed.

Lemma times_run t l : is_micros t → ∀ prev s,
  (∀ p, prev = Some p → 0 < in_now_start p) → clocks_positive l → stands prev s → stats_ok (internal_stats_ s) →
  internal_stats_ (recalculate_all l s) t =
    (u64 ((internal_stats_ s t).1 + (stall_time t prev l.*1).1), u64 ((internal_stats_ s t).2 + (stall_time t prev l.*1).2)).
Proof.
  intros Ht. induction l as [|[i c] l IH]; intros prev s Hp Hl Hst Hok.
  { cbn. rewrite !Z.add_0_r, !u64_id by apply Hok. by destruct (internal_stats_ s t). }
  apply Forall_cons in Hl as [Hi Hl]. destruct (calculation_stats prev i c s t Hp Hst Hok) as (H1 & H2 & H3 & H4).
  change (recalculate_all ((i, c) :: l) s) with (recalculate_all l (RecalculateWriteStallConditions i c s).1.2).
  rewrite (IH (Some i)) by first [done|by intros ? [= <-]]. rewrite H3, add_other, H4 by (by eapply found_not_micros; [right|]).
  cbn [fst snd fmap list_fmap stall_time]. by rewrite !u64_add_l, !Z.add_assoc.
Qed.

Lemma counter_not_micros x y t : stall_counter x y = Some t → ¬ is_micros t.
Proof. intros Hc (a & b & Hm). destruct x, y, a, b; cbn in *; congruence. Qed.

Lemma add_found x t i st :
  stall_counter x.1 x.2 = Some t → stats_ok st →
  (foldl (λ st t, AddCFStats t 1 st) st (found_types i) t).1 = u64 ((st t).1 + if decide (classify i = x) then 1 else 0).
Proof.
  intros Hx Hok. assert (Hsame : (st t).1 = u64 ((st t).1 + 0)) by (rewrite Z.add_0_r, u64_id; [done|apply Hok]).
  unfold found_types. destruct (decide (classify i = x)) as [->|Hne].
  - rewrite Hx. cbn [foldl]. rewrite add_other.
    + unfold AddCFStats. by rewrite decide_True.
    + destruct x as [[] []]; cbn in Hx; simplify_eq; destruct (in_level0_compaction i); set_solver.
  - destruct (stall_counter (classify i).1 (classify i).2) as [u|] eqn:Eu; [|done]. rewrite add_other; [done|].
    assert (t ≠ u). { intros ->. apply Hne. destruct x as [[] []], (classify i) as [[] []]; cbn in *; congruence. }
    destruct x as [[] []], (classify i) as [[] []]; cbn in Hx, Eu; simplify_eq; destruct (in_level0_compaction i); set_solver.
Qed.

Lemma counts_run x t l : stall_counter x.1 x.2 = Some t → ∀ prev s,
  (∀ p, prev = Some p → 0 < in_now_start p) → clocks_positive l → stands prev s → stats_ok (internal_stats_ s) →
  (internal_stats_ (recalculate_all l s) t).1 = u64 ((internal_stats_ s t).1 + times_found x l.*1).
Proof.
  intros Ht. induction l as [|[i c] l IH]; intros prev s Hp Hl Hst Hok.
  { cbn. unfold times_found. cbn. rewrite Z.add_0_r, u64_id by apply Hok. done. }
  apply Forall_cons in Hl as [Hi Hl]. destruct (calculation_stats prev i c s t Hp Hst Hok) as (H1 & H2 & H3 & H4).
  destruct (record_adds prev i s t Hp Hst Hok) as (H5 & _ & _).
  assert (He : ended t prev i = (0, 0)).
  { unfold ended. destruct prev as [p|]; [|done]. rewrite decide_False; [done|]. intros Hm.
    apply (counter_not_micros _ _ _ Ht). by eexists _, _. }
  change (recalculate_all ((i, c) :: l) s) with (recalculate_all l (RecalculateWriteStallConditions i c s).1.2).
  rewrite (IH (Some i)) by first [done|by intros ? [= <-]]. rewrite H3, (add_found x), H4, He by done. cbn [fst].
  unfold times_found. cbn [fmap list_fmap]. rewrite filter_cons, Z.add_0_r.
  rewrite u64_add_l, <- Z.add_assoc, u64_add_l. f_equal. cbn [fst].
  destruct (decide (classify i = x)); cbn [length]; lia.
Qed.

(** C40. The statistics of write stalls are exact.  Over any calculations of
    a column family, with a positive clock, the time recorded for a kind of stall
    is the total length of its stalls that have ended, each from the moment its
    calculation took the token to the next calculation, and the number recorded
    with it is the number of these stalls; the counter of the kind is the number
    of calculations that found it, whatever the controller and the other
    families do in between. *)
Theorem stall_statistics_exact l condition cause tm tc :
  clocks_positive l → stall_micros condition cause = Some tm → stall_counter condition cause = Some tc →
  let stats := internal_stats_ (recalculate_all l NewColumnFamilyStall) in
  stats tm = (u64 (stall_time tm None l.*1).1, u64 (stall_time tm None l.*1).2) ∧
  (stats tc).1 = u64 (times_found (condition, cause) l.*1).
Proof.
  intros Hl Hm Hc. assert (Hok : stats_ok (internal_stats_ NewColumnFamilyStall)) by (intros t; cbn; unfold u64_ok; lia).
  cbv zeta. split.
  - by rewrite (times_run tm l ltac:(by eexists _, _) None NewColumnFamilyStall).
  - by rewrite (counts_run (condition, cause) tc l Hc None NewColumnFamilyStall).
Qed.

Lemma u64_cast_ok d : u64_ok (u64_cast d).
Proof.
  unfold u64_cast, u64_of_double, u64_ok. destruct (dtrunc d) as [z|]; cbn; [|lia].
  destruct (Z.leb_spec 0 z); cbn; [|lia]. destruct (Z.ltb_spec z (2 ^ 64)); cbn; lia.
Qed.

(** A write waits not at all or at least one refill interval; it waits only while
    delays are in force and its bytes exceed the credit, which it then uses up;
    credit and refill time stay 64-bit numbers, without underflow. *)
Theorem write_delay_bounds now n c :
  u64_ok now → u64_ok (credit_in_bytes_ c) → u64_ok (next_refill_time_ c) → 0 <= n →
  let '(c', d) := GetDelay now n c in
  u64_ok (credit_in_bytes_ c') ∧ u64_ok (next_refill_time_ c') ∧ (d = 0 ∨ kMicrosPerRefill <= d) ∧
  (d ≠ 0 → IsStopped c = false ∧ total_delayed_ c ≠ 0 ∧ credit_in_bytes_ c < n ∧ credit_in_bytes_ c' = 0).
Proof.
  intros Hnow Hc Ht Hn. unfold GetDelay. fold (IsStopped c). destruct (IsStopped c); [by split_and!; [..|left|]|].
  destruct (Z.eqb_spec (total_delayed_ c) 0); [by split_and!; [..|left|]|].
  destruct (Z.leb_spec n (credit_in_bytes_ c)).
  { split_and!; [|done|by left|done]. cbn. unfold u64_ok in *. lia. }
  set (c1 := if next_refill_time_ c =? 0 then _ else c).
  assert (H1 : u64_ok (credit_in_bytes_ c1) ∧ u64_ok (next_refill_time_ c1)) by (unfold c1; by destruct (_ =? 0)).
  clearbody c1. destruct H1 as [H1 H2]. assert (Hz : u64_ok 0) by (unfold u64_ok; lia).
  assert (Hmax : ∀ z, Z.max z kMicrosPerRefill = 0 ∨ kMicrosPerRefill <= Z.max z kMicrosPerRefill) by (intros; right; lia).
  destruct (next_refill_time_ c1 <=? now); cbn.
  - set (b := credit_in_bytes_ c1 +64 u64_cast (dadd _ _)). assert (Hb : u64_ok b) by apply u64_range. clearbody b.
    destruct (Z.leb_spec n b); cbn.
    + split_and!; [unfold u64_ok in *; lia|apply u64_range|by left|done].
    + split_and!; [done|apply u64_range|apply Hmax|done].
  - split_and!; [done|apply u64_range|apply Hmax|done].
Qed.

(** ** Witnesses *)

(** Two memtables, level 0 stops at 36 files, pending bytes at 1000. *)
Definition sample_stall_options : StallOptions := mkStallOptions 2 1 false 4 20 36 500 1000 100.
Definition stop_input : StallInputs := mkStallInputs sample_stall_options 2 0 0 [] 0 false 90 100.
Definition normal_input : StallInputs := mkStallInputs sample_stall_options 0 0 0 [] 0 false 250 260.
Definition sample_controller : WriteController := NewWriteController 1000000 4096.

Lemma stall_tokens_exact_witness :
  ∃ y, system_reachable 1000000 4096 y ∧ IsStopped (sys_controller y) = true ∧
    (∃ k s, sys_families y !! k = Some (s, kStopped)) ∧ 1 <= delayed_write_rate_ (sys_controller y).
Proof.
  set (r := RecalculateWriteStallConditions stop_input sample_controller NewColumnFamilyStall).
  set (y := mkSystem r.1.1 [(r.1.2, r.2)]). assert (Hy : system_reachable 1000000 4096 y).
  { eapply rtc_l; [exact (step_new_family sample_controller [])|]. eapply rtc_l; [|apply rtc_refl].
    exact (step_recalculate sample_controller [(NewColumnFamilyStall, kNormal)] 0 NewColumnFamilyStall kNormal stop_input
      r.1.1 r.1.2 r.2 eq_refl eq_refl). }
  destruct (stall_tokens_exact 1000000 4096 y ltac:(lia) Hy) as (H1 & _ & _ & H2).
  assert (Hs : IsStopped (sys_controller y) = true) by (vm_compute; reflexivity).
  exists y. split; [exact Hy|]. split; [exact Hs|]. split; [apply H1; exact Hs|apply H2].
Defined.

Lemma stall_statistics_exact_witness :
  let stats := internal_stats_ (recalculate_all [(stop_input, sample_controller); (normal_input, sample_controller)] NewColumnFamilyStall) in
  stats MEMTABLE_LIMIT_STOPS_MICROS = (150, 1) ∧ (stats MEMTABLE_LIMIT_STOPS).1 = 1.
Proof.
  destruct (stall_statistics_exact [(stop_input, sample_controller); (normal_input, sample_controller)] kStopped kMemtableLimit
    MEMTABLE_LIMIT_STOPS_MICROS MEMTABLE_LIMIT_STOPS ltac:(repeat constructor) eq_refl eq_refl) as [H1 H2].
  split; [rewrite H1|rewrite H2]; vm_compute; reflexivity.
Defined.
