(* ===== verification/CompactionIterator.v ===== *)
(** * The compaction iterator

    Models [src/db/compaction/compaction_iterator.cc] and [.h] with the
    functions of [src/utilities/transactions/snapshot_checker.cc] they use:
    which of the sorted entries of a flush or a compaction are written, and in
    which form.  Covered are the tracking of user keys and snapshots, the
    compaction filter, single deletes, hidden versions, deletes at and above
    the bottommost level, timed puts, range tombstones, user-defined
    timestamps, blob extraction and relocation, and the zeroing of sequence
    numbers.

    The input is the list of the remaining entries.  The compaction filter, the
    snapshot checker, the range tombstone aggregator, the blob files, the
    serialization of wide columns and the merge helper are parameters, the
    fields of [IterEnv].  Flags that other threads set are functions of the
    number of times they have been read.  Logging, sync points, timers and the
    pinning of blocks are left out. *)

From S2P Require Import Prelude Coding BlobIndex Comparator DbFormat ManifestRecords FileMeta VersionEdit.
From S2P Require Import Bucket BucketManager BucketPartition VersionStorage TableIterator BuildTable.
From S2P Require Import Compaction CompactionScore CompactionOutputs CompactionJob.

(** ** The environment *)

Inductive SnapshotCheckerResult := kInSnapshot | kNotInSnapshot | kSnapshotReleased.

#[export] Instance SnapshotCheckerResult_eq : EqDecision SnapshotCheckerResult.
Proof. solve_decision. Defined.

Inductive FilterDecision :=
  | kKeep | kRemove | kChangeValue | kRemoveAndSkipUntil | kChangeBlobIndex | kIOError | kPurge
  | kChangeWideColumnEntity | kUndetermined.

#[export] Instance FilterDecision_eq : EqDecision FilterDecision.
Proof. solve_decision. Defined.

Inductive FilterValueType := kValue | kMergeOperand | kBlobIndex | kWideColumnEntity.

Inductive BlobDecision := kKeepBlob | kChangeBlobValue | kBlobCorruption | kBlobIOError.

Abbreviation columns := (list (list byte * list byte)).

(** A compaction filter; the results are the decision, the new value, the new
    columns and the key to skip to. *)
Record CompactionFilter := mkFilter {
  IsStackedBlobDbInternalCompactionFilter : bool;
  FilterBlobByKey : nat → key → FilterDecision * list byte * key;
  FilterV3 : nat → key → FilterValueType → option (list byte) → option columns →
    FilterDecision * list byte * columns * key;
  PrepareBlobOutput : key → list byte → BlobDecision * list byte;
}.

(** What the iterator asks of a compaction; [proxy_blob_files] are the numbers
    of the blob files of its input version. *)
Record CompactionProxy := mkProxy {
  proxy_level : nat;
  proxy_KeyNotExistsBeyondOutputLevel : key → list nat → list nat * bool;
  proxy_bottommost_level : bool;
  proxy_number_levels : nat;
  proxy_allow_ingest_behind : bool;
  proxy_enable_blob_garbage_collection : bool;
  proxy_blob_garbage_collection_age_cutoff : double;
  proxy_blob_files : list Z;
}.

Definition RealCompaction `{Comparator} (c : Compaction) (v : VersionStorageInfo) (o : CompactOptions)
    (allow_ingest_behind enable_gc : bool) (age_cutoff : double) (blob_files : list Z) : CompactionProxy :=
  mkProxy (c_start_level c) (KeyNotExistsBeyondOutputLevel c v o) (c_bottommost_level c) (c_number_levels c)
    allow_ingest_behind enable_gc age_cutoff blob_files.

(** An entry of the input; [ie_range_del] marks the start key of a range
    tombstone. *)
Record InputEntry := mkInput {
  ie_key : key;
  ie_value : list byte;
  ie_range_del : bool;
}.

(** The result of [MergeHelper::MergeUntil]: its status, whether that is
    [MergeInProgress], the keys and values produced in the order of the output
    iterator, the number of entries consumed, and [FilteredUntil]. *)
Record MergeResult := mkMergeResult {
  merge_status : JobStatus;
  merge_in_progress : bool;
  merge_outputs : list entry;
  merge_consumed : nat;
  merge_filtered_until : option key;
}.

Class IterEnv := {
  snapshots_ : list Z;
  iter_earliest_snapshot_ : Z;
  earliest_write_conflict_snapshot_ : Z;
  job_snapshot_ : Z;
  snapshot_checker_ : option (Z → Z → SnapshotCheckerResult);
  expect_valid_internal_key_ : bool;
  enforce_single_del_contracts_ : bool;
  must_count_input_entries : bool;
  compaction_ : option CompactionProxy;
  compaction_filter_ : option CompactionFilter;
  full_history_ts_low_ : option key;
  preserve_seqno_min : option Z;
  (* [cmp_->CompareTimestamp] *)
  cmp_CompareTimestamp : key → key → comparison;
  (* [range_del_agg_->ShouldDelete] *)
  ShouldDelete : key → bool;
  (* [blob_file_builder_->Add], after that many calls: the status and the blob index *)
  blob_file_builder_ : option (nat → key → list byte → JobStatus * list byte);
  (* [blob_fetcher_->FetchBlob]: the value and the number of bytes read *)
  FetchBlob : key → BlobIndex → JobStatus * list byte * Z;
  DeserializeColumns : list byte → option columns;
  SerializeColumns : columns → option (list byte);
  SortColumns : columns → columns;
  (* [merge_helper_] *)
  HasOperator : bool;
  MergeUntil : list InputEntry → Z → bool → MergeResult;
  (* the flags, at the n-th time one of them is read *)
  manual_compaction_canceled_ : nat → bool;
  shutting_down_ : option (nat → bool);
  (* the status of the input when it has ended *)
  input_status : JobStatus;
}.

(** ** The state *)

Inductive ValidContext :=
  | kMerge1 | kMerge2 | kParseKeyError | kCurrentKeyUncommitted | kKeepSDAndClearPut | kKeepTsHistory
  | kKeepSDForConflictCheck | kKeepSDForSnapshot | kKeepSD | kKeepDel | kNewUserKey | kRangeDeletion
  | kSwapPreferredSeqno.

(** The counters of [CompactionIterationStats] the iterator changes. *)
Inductive IterCounter :=
  | num_record_drop_user | num_record_drop_hidden | num_record_drop_obsolete | num_record_drop_range_del
  | num_optimized_del_drop_obsolete | num_input_records | num_input_deletion_records
  | num_input_corrupt_records | total_input_raw_key_bytes | total_input_raw_value_bytes
  | num_single_del_fallthru | num_single_del_mismatch | num_blobs_read | total_blob_bytes_read
  | num_blobs_relocated | total_blob_bytes_relocated | num_input_timed_put_records
  | num_timed_put_swap_preferred_seqno.

#[export] Instance IterCounter_eq : EqDecision IterCounter.
Proof. solve_decision. Defined.

(** [current_key_] is the copy of the key in the iterator's buffer; [key_]
    refers to it except at the start key of a range tombstone.  [merge_out_]
    holds what the merge output iterator has not returned yet. *)
Record CompactionIterator := mkIter {
  in_all : list InputEntry;
  in_rest : list InputEntry;
  num_itered_ : Z;
  has_num_itered_ : bool;
  validity_info_ : option ValidContext;
  key_ : key;
  value_ : list byte;
  status_ : JobStatus;
  ikey_ : ParsedInternalKey;
  has_current_user_key_ : bool;
  at_next_ : bool;
  current_key_ : key;
  current_user_key_ : key;
  curr_ts_ : key;
  current_user_key_sequence_ : Z;
  current_user_key_snapshot_ : Z;
  has_outputted_key_ : bool;
  clear_and_output_next_key_ : bool;
  merge_out_ : list entry;
  merge_until_in_progress_ : bool;
  blob_value_ : list byte;
  blob_adds : nat;
  iter_level_ptrs_ : list nat;
  iter_stats_ : IterCounter → Z;
  current_key_committed_ : bool;
  cmp_with_history_ts_low_ : comparison;
  last_key_seq_zeroed_ : bool;
  released_snapshots_ : list Z;
  is_range_del_ : bool;
  polls : nat;
}.

#[export] Instance iterator_eta : Eta CompactionIterator := λ s,
  mkIter (in_all s) (in_rest s) (num_itered_ s) (has_num_itered_ s) (validity_info_ s) (key_ s) (value_ s)
    (status_ s) (ikey_ s) (has_current_user_key_ s) (at_next_ s) (current_key_ s) (current_user_key_ s)
    (curr_ts_ s) (current_user_key_sequence_ s) (current_user_key_snapshot_ s) (has_outputted_key_ s)
    (clear_and_output_next_key_ s) (merge_out_ s) (merge_until_in_progress_ s) (blob_value_ s) (blob_adds s)
    (iter_level_ptrs_ s) (iter_stats_ s) (current_key_committed_ s) (cmp_with_history_ts_low_ s)
    (last_key_seq_zeroed_ s) (released_snapshots_ s) (is_range_del_ s) (polls s).

Section iterator.
Context `{Comparator} {E : IterEnv}.

(** ** Constants of the constructor *)

Definition bottommost_level_ : bool :=
  match compaction_ with
  | None => false
  | Some c => proxy_bottommost_level c && negb (proxy_allow_ingest_behind c)
  end.

Definition visible_at_tip_ : bool := (length snapshots_ =? 0)%nat.
Definition iter_level_ : nat := match compaction_ with None => O | Some c => proxy_level c end.
Definition preserve_seqno_after_ : Z := default iter_earliest_snapshot_ preserve_seqno_min.

Definition ComputeBlobGarbageCollectionCutoffFileNumber (compaction : option CompactionProxy) : Z :=
  match compaction with
  | None => 0
  | Some c =>
      if negb (proxy_enable_blob_garbage_collection c) then 0
      else
        let cutoff_index := Z.to_nat (u64_cast (dmul (proxy_blob_garbage_collection_age_cutoff c)
                              (dbl_of_Z (Z.of_nat (length (proxy_blob_files c)))))) in
        default (2 ^ 64 - 1) (proxy_blob_files c !! cutoff_index)
  end.

(** The constructor, on an input positioned at its first entry. *)
Definition NewCompactionIterator (input : list InputEntry) : CompactionIterator :=
  mkIter input input 0 true None [] [] Ok (mkParsed [] 0 0) false false [] [] [] 0 0 false false [] false
    [] O (match compaction_ with None => [] | Some c => replicate (proxy_number_levels c) O end)
    (λ _, 0) false Eq false [] false O.

(** ** The input *)

Definition is_nil {A} (l : list A) : bool := match l with [] => true | _ => false end.

Definition input_Valid (s : CompactionIterator) : bool := negb (is_nil (in_rest s)).

(** [SequenceIterWrapper::Next] *)
Definition AdvanceInputIter (s : CompactionIterator) : CompactionIterator :=
  match in_rest s with
  | [] => s
  | e :: rest =>
      let s1 := s <| in_rest := rest |> in
      if ie_range_del e then s1 else s1 <| num_itered_ := num_itered_ s +64 1 |>
  end.

Fixpoint seek_list (target : key) (l : list InputEntry) : list InputEntry :=
  match l with
  | [] => []
  | e :: l' => if ikey_ltb (ie_key e) target then seek_list target l' else l
  end.

Fixpoint seek_counting (target : key) (l : list InputEntry) (count : Z) : list InputEntry * Z :=
  match l with
  | [] => ([], count)
  | e :: l' =>
      if ikey_ltb (ie_key e) target
      then seek_counting target l' (if ie_range_del e then count else count +64 1)
      else (l, count)
  end.

(** [SequenceIterWrapper::Seek] *)
Definition SkipUntil (skip_until : key) (s : CompactionIterator) : CompactionIterator :=
  if must_count_input_entries then
    let '(rest, count) := seek_counting skip_until (in_rest s) (num_itered_ s) in
    let s1 := s <| in_rest := rest |> in s1 <| num_itered_ := count |>
  else
    let s1 := s <| has_num_itered_ := false |> in
    s1 <| in_rest := seek_list skip_until (in_all s) |>.

(** The flags; every reading counts. *)
Definition IsPausingManualCompaction (s : CompactionIterator) : CompactionIterator * bool :=
  (s <| polls := S (polls s) |>, manual_compaction_canceled_ (polls s)).
Definition IsShuttingDown (s : CompactionIterator) : CompactionIterator * bool :=
  match shutting_down_ with
  | None => (s, false)
  | Some flag => (s <| polls := S (polls s) |>, flag (polls s))
  end.

(** ** Small operations *)

Definition SetValid (ctx : ValidContext) (s : CompactionIterator) : CompactionIterator :=
  s <| validity_info_ := Some ctx |>.
Definition Invalidate (s : CompactionIterator) : CompactionIterator :=
  s <| validity_info_ := None (A:=ValidContext) |>.
Definition iter_Valid (s : CompactionIterator) : bool :=
  match validity_info_ s with Some _ => true | None => false end.

Definition add_stat (c : IterCounter) (n : Z) (s : CompactionIterator) : CompactionIterator :=
  s <| iter_stats_ := λ d, if bool_decide (d = c) then iter_stats_ s d +64 n else iter_stats_ s d |>.
Definition bump (c : IterCounter) : CompactionIterator → CompactionIterator := add_stat c 1.

Definition set_status (st : JobStatus) (s : CompactionIterator) : CompactionIterator :=
  s <| status_ := st |>.
(** The status [st], and no current entry. *)
Definition fail_with (st : JobStatus) (s : CompactionIterator) : CompactionIterator :=
  Invalidate (set_status st s).

(** [current_key_.UpdateInternalKey], which changes what [key_] refers to. *)
Definition update_current_key (seq t : Z) (s : CompactionIterator) : CompactionIterator :=
  let k := UpdateInternalKey (current_key_ s) seq t in
  let s1 := s <| current_key_ := k |> in s1 <| key_ := k |>.

(** The same with a timestamp, which ends the user key. *)
Definition update_current_key_ts (seq t : Z) (ts : key) (s : CompactionIterator) : CompactionIterator :=
  let u := ExtractUserKey (current_key_ s) in
  let k := InternalKey (take (length u - length ts) u ++ ts) seq t in
  let s1 := s <| current_key_ := k |> in s1 <| key_ := k |>.

(** The type of the current entry, in [ikey_] and in the key. *)
Definition set_type (t : Z) (s : CompactionIterator) : CompactionIterator :=
  let s1 := s <| ikey_ := mkParsed (user_key (ikey_ s)) (sequence (ikey_ s)) t |> in
  update_current_key (sequence (ikey_ s)) t s1.

Definition set_value (v : list byte) (s : CompactionIterator) : CompactionIterator :=
  s <| value_ := v |>.

(** [user_key()] *)
Definition iter_user_key (s : CompactionIterator) : key :=
  if is_range_del_ s then user_key (ikey_ s) else current_user_key_ s.

Definition EqualWithoutTimestamp (a b : key) : bool :=
  match CompareUser a b with Eq => true | _ => false end.

(** ** Snapshots *)

Definition DataIsDefinitelyInSnapshot (seqno snapshot : Z) (checker : option (Z → Z → SnapshotCheckerResult))
    : bool :=
  (seqno <=? snapshot) &&
  match checker with None => true | Some f => bool_decide (f seqno snapshot = kInSnapshot) end.

Definition DataIsDefinitelyNotInSnapshot (seqno snapshot : Z)
    (checker : option (Z → Z → SnapshotCheckerResult)) : bool :=
  (snapshot <? seqno) ||
  match checker with None => false | Some f => bool_decide (f seqno snapshot = kNotInSnapshot) end.

Definition DefinitelyInSnapshot (seq snapshot : Z) : bool :=
  DataIsDefinitelyInSnapshot seq snapshot snapshot_checker_.
Definition DefinitelyNotInSnapshot (seq snapshot : Z) : bool :=
  DataIsDefinitelyNotInSnapshot seq snapshot snapshot_checker_.

Definition KeyCommitted (sequence : Z) : bool :=
  match snapshot_checker_ with
  | None => true
  | Some f => bool_decide (f sequence job_snapshot_ = kInSnapshot)
  end.

(** The loop over the snapshots with a checker: the snapshot found, the
    previous one and the released snapshots.  Whether released snapshots are
    looked up is decided before the loop. *)
Fixpoint visible_loop (checker : Z → Z → SnapshotCheckerResult) (has_released_snapshot : bool) (seq : Z)
    (snaps : list Z) (prev : Z) (released : list Z) : Z * Z * list Z :=
  match snaps with
  | [] => (kMaxSequenceNumber, prev, released)
  | cur :: snaps' =>
      if has_released_snapshot && bool_decide (cur ∈ released)
      then visible_loop checker has_released_snapshot seq snaps' prev released
      else
        match checker seq cur with
        | kInSnapshot => (cur, prev, released)
        | kSnapshotReleased => visible_loop checker has_released_snapshot seq snaps' cur (cur :: released)
        | kNotInSnapshot => visible_loop checker has_released_snapshot seq snaps' cur released
        end
  end.

Definition findEarliestVisibleSnapshot (seq : Z) (s : CompactionIterator) : CompactionIterator * Z * Z :=
  let i := std_bound (λ x, x <? seq) snapshots_ 0 (length snapshots_) in
  let prev_snapshot := if (i =? 0)%nat then 0 else default 0 (snapshots_ !! (i - 1)%nat) in
  match snapshot_checker_ with
  | None => (s, default kMaxSequenceNumber (snapshots_ !! i), prev_snapshot)
  | Some checker =>
      let '(snap, prev, released) :=
        visible_loop checker (negb (is_nil (released_snapshots_ s))) seq (drop i snapshots_) prev_snapshot
          (released_snapshots_ s) in
      (s <| released_snapshots_ := released |>, snap, prev)
  end.

(** [compaction_->KeyNotExistsBeyondOutputLevel(ikey_.user_key, &level_ptrs_)] *)
Definition ask_beyond (s : CompactionIterator) : CompactionIterator * bool :=
  match compaction_ with
  | None => (s, false)
  | Some c =>
      let '(ptrs, b) := proxy_KeyNotExistsBeyondOutputLevel c (user_key (ikey_ s)) (iter_level_ptrs_ s) in
      (s <| iter_level_ptrs_ := ptrs |>, b)
  end.
(** [p && ask_beyond], evaluated from left to right. *)
Definition ask_beyond_if (p : bool) (s : CompactionIterator) : CompactionIterator * bool :=
  if p then ask_beyond s else (s, false).

(** ** The compaction filter *)

Record FilterResult := mkFilterResult {
  fr_decision : FilterDecision;
  fr_value : list byte;    (* [compaction_filter_value_] *)
  fr_columns : columns;    (* [new_columns] *)
  fr_skip_until : key;     (* [compaction_filter_skip_until_] *)
}.

(** The question by key alone, for a blob reference: the result, or the blob
    read into [blob_value_] and the value type to ask [FilterV3] with.  [None]
    is a failure, noted in the state. *)
Definition filter_blob_by_key (filter : CompactionFilter) (filter_key : key) (s : CompactionIterator)
    : CompactionIterator * option (FilterResult * FilterValueType) :=
  let '(decision, v, skip) := FilterBlobByKey filter iter_level_ filter_key in
  let r := mkFilterResult decision v [] skip in
  if bool_decide (decision = kUndetermined) && negb (IsStackedBlobDbInternalCompactionFilter filter) then
    match compaction_ with
    | None => (fail_with Corruption s, None)
    | Some _ =>
        match DecodeBlobIndex (value_ s) with
        | None => (fail_with Corruption s, None)
        | Some blob_index =>
            let '(st, blob, bytes_read) := FetchBlob (user_key (ikey_ s)) blob_index in
            if negb (ok st) then (fail_with st s, None)
            else
              let s1 := s <| blob_value_ := blob |> in
              (add_stat total_blob_bytes_read bytes_read (bump num_blobs_read s1), Some (r, kValue))
        end
    end
  else (s, Some (r, kBlobIndex)).

(** [FilterV3] on the value or the columns of the entry. *)
Definition filter_value (filter : CompactionFilter) (filter_key : key) (value_type : FilterValueType)
    (s : CompactionIterator) : CompactionIterator * option FilterResult :=
  let ask existing_val existing_col :=
    let '(decision, v, cols, skip) :=
      FilterV3 filter iter_level_ filter_key value_type existing_val existing_col in
    (s, Some (mkFilterResult decision v cols skip)) in
  if negb (type (ikey_ s) =? kTypeWideColumnEntity) then
    ask (Some (if negb (is_nil (blob_value_ s)) then blob_value_ s else value_ s)) None
  else
    match DeserializeColumns (value_ s) with
    | None => (fail_with Corruption s, None)
    | Some existing_columns => ask None (Some existing_columns)
    end.

(** What the decision changes; the results are the key to skip to, and false on
    failure. *)
Definition apply_decision (filter : CompactionFilter) (r : FilterResult) (s : CompactionIterator)
    : CompactionIterator * option key * bool :=
  let set_type_unless t s := if negb (type (ikey_ s) =? t) then set_type t s else s in
  let decision :=
    if bool_decide (fr_decision r = kRemoveAndSkipUntil) &&
       match Compare (fr_skip_until r) (user_key (ikey_ s)) with Gt => false | _ => true end
    then kKeep else fr_decision r in
  match decision with
  | kUndetermined => (fail_with OtherError s, None, false)
  | kKeep => (s, None, true)
  | kRemove => (bump num_record_drop_user (set_value [] (set_type kTypeDeletion s)), None, true)
  | kPurge => (bump num_record_drop_user (set_value [] (set_type kTypeSingleDeletion s)), None, true)
  | kChangeValue => (set_value (fr_value r) (set_type_unless kTypeValue s), None, true)
  | kRemoveAndSkipUntil =>
      (s, Some (ConvertFromUserKey (fr_skip_until r) kMaxSequenceNumber kValueTypeForSeek), true)
  | kChangeBlobIndex =>
      if negb (IsStackedBlobDbInternalCompactionFilter filter) then (fail_with OtherError s, None, false)
      else (set_value (fr_value r) (set_type_unless kTypeBlobIndex s), None, true)
  | kIOError =>
      if negb (IsStackedBlobDbInternalCompactionFilter filter) then (fail_with OtherError s, None, false)
      else (fail_with IOError s, None, false)
  | kChangeWideColumnEntity =>
      match SerializeColumns (SortColumns (fr_columns r)) with
      | None => (fail_with Corruption s, None, false)
      | Some v => (set_value v (set_type_unless kTypeWideColumnEntity s), None, true)
      end
  end.

Definition InvokeFilterIfNeeded (s : CompactionIterator) : CompactionIterator * option key * bool :=
  match compaction_filter_ with
  | None => (s, None, true)
  | Some filter =>
      let t := type (ikey_ s) in
      if negb (t =? kTypeValue) && negb (t =? kTypeBlobIndex) && negb (t =? kTypeWideColumnEntity)
      then (s, None, true)
      else
        let filter_key :=
          if negb (t =? kTypeBlobIndex) || negb (IsStackedBlobDbInternalCompactionFilter filter)
          then user_key (ikey_ s) else key_ s in
        let '(s1, by_key) :=
          if t =? kTypeBlobIndex then filter_blob_by_key filter filter_key s
          else (s, Some (mkFilterResult kUndetermined [] [] [],
                         if t =? kTypeValue then kValue else kWideColumnEntity)) in
        match by_key with
        | None => (s1, None, false)
        | Some (r, value_type) =>
            if bool_decide (fr_decision r = kUndetermined) then
              let '(s2, asked) := filter_value filter filter_key value_type s1 in
              match asked with
              | None => (s2, None, false)
              | Some r2 => apply_decision filter r2 s2
              end
            else apply_decision filter r s1
        end
  end.

(** ** Tracking the user key *)

Definition UpdateTimestampAndCompareWithFullHistoryLow (s : CompactionIterator) : CompactionIterator :=
  if (timestamp_size =? 0)%nat then s
  else
    let ts := ExtractTimestampFromUserKey (user_key (ikey_ s)) timestamp_size in
    let s1 := s <| curr_ts_ := ts |> in
    match full_history_ts_low_ with
    | None => s1
    | Some low => s1 <| cmp_with_history_ts_low_ := cmp_CompareTimestamp ts low |>
    end.

Definition is_lt (c : comparison) : bool := match c with Lt => true | _ => false end.

(** The first occurrence of a user key. *)
Definition first_occurrence (user_key_equal_without_ts : bool) (s : CompactionIterator)
    : CompactionIterator * option key * bool :=
  let s0 := s <| current_key_ := key_ s |> in
  let prev_cmp_with_ts_low :=
    match full_history_ts_low_ with
    | None => Eq
    | Some low => if is_nil (curr_ts_ s) then Eq else cmp_CompareTimestamp (curr_ts_ s) low
    end in
  let s1 := UpdateTimestampAndCompareWithFullHistoryLow s0 in
  let s2 :=
    if negb (has_current_user_key_ s) || (timestamp_size =? 0)%nat ||
       match full_history_ts_low_ with None => true | Some _ => false end ||
       negb user_key_equal_without_ts || negb (is_lt (cmp_with_history_ts_low_ s1)) ||
       negb (is_lt prev_cmp_with_ts_low)
    then
      let a := s1 <| current_user_key_sequence_ := kMaxSequenceNumber |> in
      let b := a <| current_user_key_snapshot_ := 0 |> in
      b <| has_current_user_key_ := true |>
    else s1 in
  let s3 := s2 <| current_user_key_ := user_key (ikey_ s) |> in
  let s4 := s3 <| has_outputted_key_ := false |> in
  let s5 := s4 <| last_key_seq_zeroed_ := false |> in
  let s6 := s5 <| current_key_committed_ := KeyCommitted (sequence (ikey_ s)) |> in
  if current_key_committed_ s6 then InvokeFilterIfNeeded s6 else (s6, None, true).

(** A further version of the user key. *)
Definition next_version (s : CompactionIterator) : CompactionIterator * option key * bool :=
  let s1 := update_current_key (sequence (ikey_ s)) (type (ikey_ s)) s in
  let s2 := s1 <| ikey_ := mkParsed (ExtractUserKey (current_key_ s1)) (sequence (ikey_ s)) (type (ikey_ s)) |> in
  if negb (current_key_committed_ s) then
    let s3 := s2 <| current_key_committed_ := KeyCommitted (sequence (ikey_ s)) |> in
    if current_key_committed_ s3 then InvokeFilterIfNeeded s3 else (s3, None, true)
  else (s2, None, true).

Definition track_user_key (s : CompactionIterator) : CompactionIterator * option key * bool :=
  let user_key_equal_without_ts :=
    has_current_user_key_ s && EqualWithoutTimestamp (user_key (ikey_ s)) (current_user_key_ s) in
  let cmp_ts :=
    if has_current_user_key_ s && negb (timestamp_size =? 0)%nat
    then cmp_CompareTimestamp (ExtractTimestampFromUserKey (user_key (ikey_ s)) timestamp_size) (curr_ts_ s)
    else Eq in
  if negb (has_current_user_key_ s) || negb user_key_equal_without_ts ||
     match cmp_ts with Eq => false | _ => true end
  then first_occurrence user_key_equal_without_ts s
  else next_version s.

(** ** Processing a committed key *)

Inductive Flow := Continue | Break | Return.

Definition is_put_type (t : Z) : bool :=
  (t =? kTypeValue) || (t =? kTypeBlobIndex) || (t =? kTypeWideColumnEntity) ||
  (t =? kTypeValuePreferredSeqno).

(** The put after a single delete that is kept: its value is not needed. *)
Definition clear_put (s : CompactionIterator) : CompactionIterator :=
  let t := type (ikey_ s) in
  let s1 := if (t =? kTypeBlobIndex) || (t =? kTypeWideColumnEntity) || (t =? kTypeValuePreferredSeqno)
            then set_type kTypeValue s else s in
  let s2 := SetValid kKeepSDAndClearPut (set_value [] s1) in
  s2 <| clear_and_output_next_key_ := false |>.

(** The next entry of the input, if it is a version of the current user key. *)
Definition next_same_key (s : CompactionIterator) : option ParsedInternalKey :=
  match in_rest s with
  | [] => None
  | e :: _ =>
      match ParseInternalKey (ie_key e) with
      | Some k => if EqualWithoutTimestamp (user_key (ikey_ s)) (user_key k) then Some k else None
      | None => None
      end
  end.

(** Skips start keys of range tombstones with the same user key; every round
    consumes an entry. *)
Fixpoint skip_sentinels (fuel : nat) (s : CompactionIterator) : CompactionIterator :=
  match fuel with
  | O => s
  | S n =>
      match in_rest s with
      | e :: _ =>
          if ie_range_del e && match next_same_key s with Some _ => true | None => false end
          then skip_sentinels n (AdvanceInputIter s) else s
      | [] => s
      end
  end.

Definition is_timestamp_eligible_for_gc (s : CompactionIterator) : bool :=
  (timestamp_size =? 0)%nat ||
  match full_history_ts_low_ with Some _ => is_lt (cmp_with_history_ts_low_ s) | None => false end.

(** A single delete followed by the version [next] of its key in the same
    stripe of snapshots. *)
Definition single_delete_same_stripe (next : ParsedInternalKey) (s : CompactionIterator)
    : CompactionIterator * Flow :=
  if type next =? kTypeSingleDeletion then
    (bump num_single_del_mismatch (bump num_record_drop_obsolete s), Continue)
  else if type next =? kTypeDeletion then
    let s1 := bump num_single_del_mismatch (bump num_record_drop_obsolete s) in
    if enforce_single_del_contracts_ then (fail_with Corruption s1, Return) else (s1, Continue)
  else if negb (is_timestamp_eligible_for_gc s) then (SetValid kKeepTsHistory s, Continue)
  else if has_outputted_key_ s ||
          DefinitelyInSnapshot (sequence (ikey_ s)) earliest_write_conflict_snapshot_ ||
          ((iter_earliest_snapshot_ <? earliest_write_conflict_snapshot_) &&
           DefinitelyInSnapshot (sequence (ikey_ s)) iter_earliest_snapshot_)
  then
    let s1 := if negb (is_put_type (type next)) then bump num_single_del_mismatch s else s in
    (AdvanceInputIter (bump num_record_drop_obsolete (bump num_record_drop_hidden s1)), Continue)
  else (SetValid kKeepSDForConflictCheck s <| clear_and_output_next_key_ := true |>, Continue).

(** A single delete with no further version of its key in the input. *)
Definition single_delete_last (s : CompactionIterator) : CompactionIterator :=
  let s0 := s <| has_current_user_key_ := false |> in
  let '(s1, gone) := ask_beyond_if
    (match compaction_ with Some _ => true | None => false end &&
     DefinitelyInSnapshot (sequence (ikey_ s)) iter_earliest_snapshot_) s0 in
  if gone && is_timestamp_eligible_for_gc s then
    let s2 := bump num_single_del_fallthru (bump num_record_drop_obsolete s1) in
    if negb bottommost_level_ then bump num_optimized_del_drop_obsolete s2 else s2
  else if last_key_seq_zeroed_ s then bump num_record_drop_obsolete (bump num_record_drop_hidden s1)
  else SetValid kKeepSD s1.

Definition single_delete (prev_snapshot : Z) (s : CompactionIterator) : CompactionIterator * Flow :=
  let s0 := AdvanceInputIter s in
  let s1 := skip_sentinels (length (in_rest s0)) s0 in
  let '(s2, flow) :=
    match next_same_key s1 with
    | Some next =>
        if last_key_seq_zeroed_ s1 then
          (AdvanceInputIter (bump num_record_drop_obsolete (bump num_record_drop_hidden s1)), Continue)
        else if (prev_snapshot =? 0) || DefinitelyNotInSnapshot (sequence next) prev_snapshot then
          single_delete_same_stripe next s1
        else (SetValid kKeepSDForSnapshot s1, Continue)
    | None => (single_delete_last s1, Continue)
    end in
  match flow with
  | Return => (s2, Return)
  | _ => (if iter_Valid s2 then s2 <| at_next_ := true |> else s2, flow)
  end.

(** Skips the versions in the stripe of a delete at the bottommost level, up to
    [prev_snapshot]; every round consumes an entry. *)
Fixpoint skip_stripe (fuel : nat) (prev_snapshot : Z) (s : CompactionIterator) : CompactionIterator :=
  match fuel with
  | O => s
  | S n =>
      let '(s1, paused) := IsPausingManualCompaction s in
      if paused then s1
      else
        let '(s2, down) := IsShuttingDown s1 in
        if down then s2
        else
          match in_rest s2, next_same_key s2 with
          | e :: _, Some next =>
              if (prev_snapshot =? 0) || ie_range_del e || DefinitelyNotInSnapshot (sequence next) prev_snapshot
              then skip_stripe n prev_snapshot (AdvanceInputIter s2) else s2
          | _, _ => s2
          end
  end.

Definition bottommost_delete (prev_snapshot : Z) (s : CompactionIterator) : CompactionIterator :=
  let s0 := AdvanceInputIter s in
  let s1 := skip_stripe (S (length (in_rest s0))) prev_snapshot s0 in
  match next_same_key s1 with
  | Some _ => SetValid kKeepDel s1 <| at_next_ := true |>
  | None => s1
  end.

(** The entry is covered by a range tombstone. *)
Definition drop_covered (s : CompactionIterator) : CompactionIterator :=
  AdvanceInputIter (bump num_record_drop_range_del (bump num_record_drop_hidden s)).

(** A timed put whose preferred sequence number can replace its own. *)
Definition swap_preferred (s : CompactionIterator) : CompactionIterator :=
  let '(unpacked_value, preferred_seqno) := ParsePackedValueWithSeqno (value_ s) in
  if ShouldDelete (key_ s) then drop_covered s
  else
    let ikey_after_swap :=
      InternalKey (user_key (ikey_ s)) (Z.min preferred_seqno (sequence (ikey_ s))) kTypeValue in
    if ShouldDelete ikey_after_swap then SetValid kNewUserKey s
    else
      let s1 :=
        if negb (sequence (ikey_ s) =? 0) then
          let a := bump num_timed_put_swap_preferred_seqno s in
          a <| ikey_ := mkParsed (user_key (ikey_ s)) preferred_seqno (type (ikey_ s)) |>
        else s in
      let s2 := set_type kTypeValue s1 in
      let s3 := s2 <| ikey_ := mkParsed (ExtractUserKey (current_key_ s2)) (sequence (ikey_ s2)) (type (ikey_ s2)) |> in
      SetValid kSwapPreferredSeqno (set_value unpacked_value s3).

(** The output of the merge helper becomes the current entry; [ts] is the
    timestamp to copy. *)
Definition present_merge (ctx : ValidContext) (ts : ParsedInternalKey → key) (o : entry) (s : CompactionIterator)
    : CompactionIterator :=
  let k := default (ikey_ s) (ParseInternalKey o.1) in
  let s1 := update_current_key_ts (sequence k) (type k) (ts k) (set_value o.2 s) in
  let s2 := s1 <| ikey_ := mkParsed (ExtractUserKey (current_key_ s1)) (sequence k) (type k) |> in
  SetValid ctx s2.

Fixpoint advance_n (n : nat) (s : CompactionIterator) : CompactionIterator :=
  match n with O => s | S n' => advance_n n' (AdvanceInputIter s) end.

Definition merge_key (prev_snapshot : Z) (s : CompactionIterator)
    : CompactionIterator * Flow * option key :=
  if negb HasOperator then (set_status OtherError s, Return, None)
  else
    let r := MergeUntil (in_rest s) prev_snapshot bottommost_level_ in
    let s0 := advance_n (merge_consumed r) s in
    let s1 := s0 <| merge_until_in_progress_ := merge_in_progress r |> in
    let s2 := s1 <| merge_out_ := merge_outputs r |> in
    if negb (ok (merge_status r)) && negb (merge_in_progress r)
    then (set_status (merge_status r) s2, Return, None)
    else
      match merge_outputs r with
      | o :: _ => (present_merge kMerge2 (λ _, []) o s2, Continue, None)
      | [] => (s2 <| has_current_user_key_ := false |>, Continue, merge_filtered_until r)
      end.

(** Any other entry. *)
Definition plain_key (s : CompactionIterator) : CompactionIterator :=
  if ((timestamp_size =? 0)%nat || is_lt (cmp_with_history_ts_low_ s)) && ShouldDelete (key_ s)
  then drop_covered s
  else SetValid kNewUserKey s.

Definition obsolete_delete_type (s : CompactionIterator) : bool :=
  (type (ikey_ s) =? kTypeDeletion) ||
  ((type (ikey_ s) =? kTypeDeletionWithTimestamp) && is_lt (cmp_with_history_ts_low_ s)).

(** The branches after single deletes and hidden versions. *)
Definition visible_key (prev_snapshot : Z) (s : CompactionIterator)
    : CompactionIterator * Flow * option key :=
  let in_earliest := DefinitelyInSnapshot (sequence (ikey_ s)) iter_earliest_snapshot_ in
  let '(s1, obsolete) :=
    ask_beyond_if (match compaction_ with Some _ => true | None => false end &&
                   obsolete_delete_type s && in_earliest) s in
  if obsolete then
    let s2 := bump num_record_drop_obsolete s1 in
    let s3 := if negb bottommost_level_ then bump num_optimized_del_drop_obsolete s2 else s2 in
    (AdvanceInputIter s3, Continue, None)
  else if obsolete_delete_type s && bottommost_level_ then (bottommost_delete prev_snapshot s1, Continue, None)
  else
    let '(s2, gone) :=
      ask_beyond_if ((type (ikey_ s) =? kTypeValuePreferredSeqno) && in_earliest && negb bottommost_level_ &&
                     match compaction_ with Some _ => true | None => false end) s1 in
    if (type (ikey_ s) =? kTypeValuePreferredSeqno) && in_earliest && (bottommost_level_ || gone)
    then (swap_preferred s2, Continue, None)
    else if type (ikey_ s) =? kTypeMerge then merge_key prev_snapshot s2
    else (plain_key s2, Continue, None).

(** One round of the loop of [NextFromInput] for a committed key. *)
Definition process_key (skip : option key) (s : CompactionIterator) : CompactionIterator * Flow :=
  let last_sequence := current_user_key_sequence_ s in
  let last_snapshot := current_user_key_snapshot_ s in
  let '(s0, snapshot, prev_snapshot) :=
    if visible_at_tip_ then (s, iter_earliest_snapshot_, 0)
    else findEarliestVisibleSnapshot (sequence (ikey_ s)) s in
  let s1 := s0 <| current_user_key_sequence_ := sequence (ikey_ s) |> in
  let s2 := s1 <| current_user_key_snapshot_ := snapshot |> in
  match skip with
  | Some skip_until => (SkipUntil skip_until s2, Continue)
  | None =>
      let '(s3, flow, skip') :=
        if clear_and_output_next_key_ s2 then (clear_put s2, Continue, None)
        else if type (ikey_ s2) =? kTypeSingleDeletion then (single_delete prev_snapshot s2, None)
        else if negb (last_sequence =? kMaxSequenceNumber) && (last_snapshot <=? snapshot) then
          (AdvanceInputIter (bump num_record_drop_hidden s2), Continue, None)
        else visible_key prev_snapshot s2 in
      match flow, skip' with
      | Continue, Some skip_until => (SkipUntil skip_until s3, Continue)
      | _, _ => (s3, flow)
      end
  end.

Definition is_delete_type (t : Z) : bool :=
  (t =? kTypeDeletion) || (t =? kTypeSingleDeletion) || (t =? kTypeDeletionWithTimestamp).

Definition count_input (s : CompactionIterator) : CompactionIterator :=
  let t := type (ikey_ s) in
  let s1 := if is_delete_type t then bump num_input_deletion_records s
            else if t =? kTypeValuePreferredSeqno then bump num_input_timed_put_records s else s in
  add_stat total_input_raw_value_bytes (Z.of_nat (length (value_ s)))
    (add_stat total_input_raw_key_bytes (Z.of_nat (length (key_ s))) s1).

(** The current entry read. *)
Definition read_entry (e : InputEntry) (s : CompactionIterator) : CompactionIterator :=
  let a := s <| key_ := ie_key e |> in
  let b := bump num_input_records (set_value (ie_value e) a) in
  let c := b <| blob_value_ := @nil byte |> in
  c <| is_range_del_ := ie_range_del e |>.

(** A key that does not parse; [ikey_] has been changed if it is long enough. *)
Definition corrupt_key (s : CompactionIterator) : CompactionIterator * Flow :=
  let k := key_ s in
  let a := if (length k <? kNumInternalBytes)%nat then s
           else s <| ikey_ := mkParsed (ExtractUserKey k) (GetInternalKeySeqno k) (ExtractValueType k) |> in
  let s1 := bump num_input_corrupt_records a in
  if expect_valid_internal_key_ then (set_status Corruption s1, Return)
  else
    let b := s1 <| current_key_ := k |> in
    let c := b <| has_current_user_key_ := false |> in
    let d := c <| current_user_key_sequence_ := kMaxSequenceNumber |> in
    let f := d <| current_user_key_snapshot_ := 0 |> in
    (SetValid kParseKeyError f, Break).

(** One round of the loop of [NextFromInput]. *)
Definition next_step (e : InputEntry) (s : CompactionIterator) : CompactionIterator * Flow :=
  let s1 := read_entry e s in
  match ParseInternalKey (ie_key e) with
  | None => corrupt_key s1
  | Some k =>
      let s2 := s1 <| ikey_ := k |> in
      if is_range_del_ s2 then (SetValid kRangeDeletion s2, Break)
      else
        let '(s3, skip, filter_ok) := track_user_key (count_input s2) in
        if negb filter_ok then (s3, Break)
        else if negb (current_key_committed_ s3) then (SetValid kCurrentKeyUncommitted s3, Break)
        else process_key skip s3
  end.

(** The condition of the loop. *)
Definition loop_guard (s : CompactionIterator) : CompactionIterator * bool :=
  if iter_Valid s || negb (input_Valid s) then (s, false)
  else
    let '(s1, paused) := IsPausingManualCompaction s in
    if paused then (s1, false)
    else let '(s2, down) := IsShuttingDown s1 in (s2, negb down).

(** The loop; the result tells whether it ended with a [return].  Every round
    that continues has found an entry to output or consumed one. *)
Fixpoint next_loop (fuel : nat) (s : CompactionIterator) : option (CompactionIterator * bool) :=
  match fuel with
  | O => None
  | S n =>
      let '(s1, go) := loop_guard s in
      match go, in_rest s1 with
      | true, e :: _ =>
          let '(s2, flow) := next_step e s1 in
          match flow with
          | Continue => next_loop n s2
          | Break => Some (s2, false)
          | Return => Some (s2, true)
          end
      | _, _ => Some (s1, false)
      end
  end.

(** What follows the loop. *)
Definition after_loop (s : CompactionIterator) : CompactionIterator :=
  let '(s1, down) := if negb (iter_Valid s) then IsShuttingDown s else (s, false) in
  let s2 := if down then set_status ShutdownInProgress s1 else s1 in
  let '(s3, paused) := IsPausingManualCompaction s2 in
  let s4 := if paused then set_status ManualCompactionPaused s3 else s3 in
  if negb (input_Valid s4) && bool_decide (input_status = Corruption)
  then set_status input_status s4 else s4.

Definition NextFromInput (s : CompactionIterator) : option CompactionIterator :=
  let s0 := Invalidate (s <| at_next_ := false |>) in
  '(s1, returned) ← next_loop (S (S (length (in_rest s0)))) s0;
  Some (if returned : bool then s1 else after_loop s1).

(** ** Preparing the output *)

(** The value handed to the blob file builder; true when it became a blob. *)
Definition ExtractLargeValueIfNeededImpl (s : CompactionIterator) : CompactionIterator * bool :=
  match blob_file_builder_ with
  | None => (s, false)
  | Some Add =>
      let '(st, blob_index) := Add (blob_adds s) (iter_user_key s) (value_ s) in
      let s1 := s <| blob_adds := S (blob_adds s) |> in
      if negb (ok st) then (fail_with st s1, false)
      else if is_nil blob_index then (s1, false)
      else (set_value blob_index s1, true)
  end.

Definition ExtractLargeValueIfNeeded (s : CompactionIterator) : CompactionIterator :=
  let '(s1, extracted) := ExtractLargeValueIfNeededImpl s in
  if extracted then set_type kTypeBlobIndex s1 else s1.

(** The blob read and written again, or stored inline. *)
Definition relocate_blob (s : CompactionIterator) : CompactionIterator :=
  match DecodeBlobIndex (value_ s) with
  | None => fail_with Corruption s
  | Some blob_index =>
      if ComputeBlobGarbageCollectionCutoffFileNumber compaction_ <=? blob_file_number blob_index then s
      else
        let '(st, blob, bytes_read) := FetchBlob (iter_user_key s) blob_index in
        if negb (ok st) then fail_with st s
        else
          let a := s <| blob_value_ := blob |> in
          let s1 := add_stat total_blob_bytes_read bytes_read (bump num_blobs_read a) in
          let s2 := add_stat total_blob_bytes_relocated (blob_size blob_index) (bump num_blobs_relocated s1) in
          let '(s3, extracted) := ExtractLargeValueIfNeededImpl (set_value blob s2) in
          if extracted then s3 else set_type kTypeValue s3
  end.

Definition GarbageCollectBlobIfNeeded (s : CompactionIterator) : CompactionIterator :=
  match compaction_ with
  | None => s
  | Some c =>
      if proxy_enable_blob_garbage_collection c then relocate_blob s
      else
        match compaction_filter_ with
        | Some filter =>
            if IsStackedBlobDbInternalCompactionFilter filter then
              match PrepareBlobOutput filter (iter_user_key s) (value_ s) with
              | (kBlobCorruption, _) => fail_with Corruption s
              | (kBlobIOError, _) => fail_with IOError s
              | (kChangeBlobValue, v) => set_value v s
              | (kKeepBlob, _) => s
              end
            else s
        | None => s
        end
  end.

(** The sequence number is set to zero, and a timestamp below the history to
    the smallest one. *)
Definition zero_seqno (s : CompactionIterator) : CompactionIterator :=
  let k := ikey_ s in
  let s1 := s <| ikey_ := mkParsed (user_key k) 0 (type k) |> in
  let s2 := s1 <| last_key_seq_zeroed_ := true |> in
  if (timestamp_size =? 0)%nat then update_current_key 0 (type k) s2
  else if match full_history_ts_low_ with Some _ => is_lt (cmp_with_history_ts_low_ s) | None => false end then
    let kTsMin := replicate timestamp_size x00 in
    let u := take (length (user_key k) - timestamp_size) (user_key k) ++ kTsMin in
    let s3 := s2 <| ikey_ := mkParsed u 0 (type k) |> in
    update_current_key_ts 0 (type k) kTsMin s3
  else s2.

Definition PrepareOutput (s : CompactionIterator) : CompactionIterator :=
  if negb (iter_Valid s) then s
  else
    let s1 :=
      if negb (is_range_del_ s) then
        if type (ikey_ s) =? kTypeValue then ExtractLargeValueIfNeeded s
        else if type (ikey_ s) =? kTypeBlobIndex then GarbageCollectBlobIfNeeded s else s
      else s in
    if iter_Valid s1 &&
       match compaction_ with Some c => negb (proxy_allow_ingest_behind c) | None => false end &&
       bottommost_level_ && DefinitelyInSnapshot (sequence (ikey_ s1)) iter_earliest_snapshot_ &&
       negb (type (ikey_ s1) =? kTypeMerge) && current_key_committed_ s1 &&
       (sequence (ikey_ s1) <=? preserve_seqno_after_) && negb (is_range_del_ s1)
    then zero_seqno s1 else s1.

(** ** The interface *)

Definition ResetRecordCounts (s : CompactionIterator) : CompactionIterator :=
  s <| iter_stats_ := λ d,
    if bool_decide (d ∈ [num_record_drop_user; num_record_drop_hidden; num_record_drop_obsolete;
                         num_record_drop_range_del; num_optimized_del_drop_obsolete])
    then 0 else iter_stats_ s d |>.

Definition SeekToFirst (s : CompactionIterator) : option CompactionIterator :=
  s1 ← NextFromInput s; Some (PrepareOutput s1).

Definition Next (s : CompactionIterator) : option CompactionIterator :=
  s1 ← match merge_out_ s with
       | _ :: rest =>
           let s0 := s <| merge_out_ := rest |> in
           match rest with
           | o :: _ =>
               Some (present_merge kMerge1
                       (λ k, ExtractTimestampFromUserKey (user_key k) timestamp_size) o s0)
           | [] =>
               NextFromInput (if merge_until_in_progress_ s0 then s0 <| has_current_user_key_ := false |> else s0)
           end
       | [] => NextFromInput (if negb (at_next_ s) then AdvanceInputIter s else s)
       end;
  Some (PrepareOutput (if iter_Valid s1 then s1 <| has_outputted_key_ := true |> else s1)).

Definition InputStatus (s : CompactionIterator) : JobStatus := if input_Valid s then Ok else input_status.

(** The entry the caller sees. *)
Definition current_entry (s : CompactionIterator) : CompactionEntry :=
  mkCEntry (key_ s) (value_ s) (is_range_del_ s) (InputStatus s).

(** The loop of the caller; every output but the merged ones consumes an entry. *)
Fixpoint drain (fuel : nat) (s : CompactionIterator) : option (list CompactionEntry * CompactionIterator) :=
  match fuel with
  | O => None
  | S n =>
      if negb (iter_Valid s) then Some ([], s)
      else
        s1 ← Next s;
        if bool_decide (status_ s1 = ManualCompactionPaused) then Some ([current_entry s], s1)
        else '(outs, fin) ← drain n s1; Some (current_entry s :: outs, fin)
  end.

(** All the outputs for an input. *)
Definition compact_entries (fuel : nat) (input : list InputEntry)
    : option (list CompactionEntry * CompactionIterator) :=
  s ← SeekToFirst (NewCompactionIterator input); drain fuel s.

End iterator.
