(* ===== verification/CompactionReads.v ===== *)
(** * What compaction keeps

    The specification of the compaction iterator, independent of its code: a
    relation between a sorted input and the entries written, by the reasons for
    which an entry may be dropped, and the proof that every such output reads
    like the input at every snapshot and at the tip, whatever range tombstones
    and lower levels there are.  [CompactionScan] shows that the code
    implements the relation. *)

From S2P Require Import Prelude Coding BlobIndex Comparator DbFormat ManifestRecords FileMeta VersionEdit.
From S2P Require Import Bucket BucketManager BucketPartition VersionStorage TableIterator BuildTable.
From S2P Require Import Compaction CompactionScore CompactionOutputs CompactionJob CompactionIterator.

(** ** Versions and reads *)

Abbreviation version := (ParsedInternalKey * list byte)%type.

(** The versions of keys in the input and in the output; start keys of range
    tombstones are none. *)
Definition in_version (e : InputEntry) : option version :=
  if ie_range_del e then None else (λ k, (k, ie_value e)) <$> ParseInternalKey (ie_key e).
Definition out_version (o : CompactionEntry) : option version :=
  if ce_range_del o then None else (λ k, (k, ce_value o)) <$> ParseInternalKey (ce_key o).

Definition versions (l : list InputEntry) : list version := omap in_version l.
Definition out_versions (l : list CompactionEntry) : list version := omap out_version l.

Section reads.
Context (C : Comparator) {E : IterEnv}.
(* what the levels below answer for a key at a snapshot, and what a blob reference refers to *)
Context (beneath : key → Z → option (Z * list byte)) (blob_content : list byte → list byte).

Abbreviation ule := (cmp_le (@Compare C)).

Definition ueq (a b : key) : Prop := ule a b ∧ ule b a.

#[export] Instance ueq_dec a b : Decision (ueq a b).
Proof. unfold ueq. apply _. Defined.

Definition content (t : Z) (v : list byte) : Z * list byte :=
  if t =? kTypeBlobIndex then (kTypeValue, blob_content v) else (t, v).

Definition covers_key (t : RangeTombstone) (u : key) : Prop := ule (start_key_ t) u ∧ ¬ ule (end_key_ t) u.

(** A tombstone of [T] that the snapshot [s] sees covers versions of [u] at
    [seq]. *)
Definition covered (T : list RangeTombstone) (u : key) (s seq : Z) : Prop :=
  Exists (λ t, covers_key t u ∧ seq_ t <= s ∧ seq < seq_ t) T.

#[export] Instance covered_dec T u s seq : Decision (covered T u s seq).
Proof. unfold covered, covers_key. apply _. Defined.

(** The newest version of [u] the snapshot [s] sees. *)
Definition newest (u : key) (s : Z) (vs : list version) : option version :=
  head (filter (λ p : version, ueq (user_key p.1) u ∧ sequence p.1 <= s) vs).

(** The answer to a read of [u] at the snapshot [s]. *)
Definition read (T : list RangeTombstone) (vs : list version) (u : key) (s : Z) : option (Z * list byte) :=
  match newest u s vs with
  | Some (k, v) =>
      if decide (covered T u s (sequence k)) then None
      else if is_delete_type (type k) then None else Some (content (type k) v)
  | None => if decide (covered T u s (-1)) then None else beneath u s
  end.

(** ** Stripes of snapshots *)

Definition snapshot_index (seq : Z) : nat := std_bound (λ x, x <? seq) snapshots_ 0 (length snapshots_).
(** The earliest snapshot that sees [seq], and the snapshot before it. *)
Definition stripe (seq : Z) : Z := default kMaxSequenceNumber (snapshots_ !! snapshot_index seq).
Definition stripe_prev (seq : Z) : Z :=
  if (snapshot_index seq =? 0)%nat then 0 else default 0 (snapshots_ !! (snapshot_index seq - 1)%nat).

Definition read_point (s : Z) : Prop := s = kMaxSequenceNumber ∨ s ∈ snapshots_.

Record snapshots_ok : Prop := {
  sn_sorted : StronglySorted Z.lt snapshots_;
  sn_range : Forall (λ x, 0 < x < kMaxSequenceNumber) snapshots_;
  sn_earliest : iter_earliest_snapshot_ = default kMaxSequenceNumber (head snapshots_);
}.

(** ** The relation *)

Definition point (e : InputEntry) (k : ParsedInternalKey) : Prop :=
  ie_range_del e = false ∧ ParseInternalKey (ie_key e) = Some k.

(** The entries of an input: puts, deletes, blob references and wide columns,
    and start keys of range tombstones. *)
Definition plain_type (t : Z) : bool :=
  (t =? kTypeValue) || (t =? kTypeDeletion) || (t =? kTypeBlobIndex) || (t =? kTypeWideColumnEntity).
Definition entry_ok (e : InputEntry) : Prop :=
  ∃ k, ParseInternalKey (ie_key e) = Some k ∧
    (ie_range_del e = false → plain_type (type k) = true ∧ sequence k < kMaxSequenceNumber).

(** Ordered by user key, newer versions of a key first. *)
Definition entry_before (e1 e2 : InputEntry) : Prop :=
  ∀ k1 k2, ParseInternalKey (ie_key e1) = Some k1 → ParseInternalKey (ie_key e2) = Some k2 →
    ule (user_key k1) (user_key k2) ∧
    (ie_range_del e1 = false → ie_range_del e2 = false → ule (user_key k2) (user_key k1) →
     sequence k2 < sequence k1).

(** The user key and the stripe of the last version seen. *)
Abbreviation cursor := (option (key * Z)).

Definition hidden (c : cursor) (k : ParsedInternalKey) : Prop :=
  match c with Some (u, snap) => ueq (user_key k) u ∧ snap <= stripe (sequence k) | None => False end.

(** No lower level holds anything for [u]. *)
Definition gone (u : key) : Prop := ∀ u' s, ueq u' u → beneath u' s = None.

(** A version in the stripe of the delete [k], or the start key of a range
    tombstone. *)
Definition in_stripe (k : ParsedInternalKey) (e : InputEntry) : Prop :=
  ∃ k', ParseInternalKey (ie_key e) = Some k' ∧ ueq (user_key k') (user_key k) ∧
    (ie_range_del e = true ∨ stripe_prev (sequence k) = 0 ∨ stripe_prev (sequence k) < sequence k').

Definition covered_in_stripe (T : list RangeTombstone) (k : ParsedInternalKey) : Prop :=
  covered T (user_key k) (stripe (sequence k)) (sequence k).

(** [o] is the entry written for the version [k] with value [v]: blobs may have
    moved, and the sequence number of what every snapshot sees may be zero at
    the bottommost level. *)
Definition prepared (k : ParsedInternalKey) (v : list byte) (o : CompactionEntry) : Prop :=
  ∃ k', out_version o = Some (k', ce_value o) ∧ ueq (user_key k') (user_key k) ∧
    is_delete_type (type k') = is_delete_type (type k) ∧
    content (type k') (ce_value o) = content (type k) v ∧
    (sequence k' = sequence k ∨
     sequence k' = 0 ∧ sequence k <= iter_earliest_snapshot_ ∧ bottommost_level_ = true).

Definition next_cursor (c : cursor) (k : ParsedInternalKey) : Prop :=
  ∃ u, ueq u (user_key k) ∧ c = Some (u, stripe (sequence k)).

Inductive emits (T : list RangeTombstone) : cursor → list InputEntry → list CompactionEntry → Prop :=
  | emits_nil c : emits T c [] []
  | emits_sentinel c e o r outs :
      ie_range_del e = true → ce_range_del o = true → emits T c r outs → emits T c (e :: r) (o :: outs)
  | emits_hidden c c' e k r outs :
      point e k → hidden c k → next_cursor c' k → emits T c' r outs → emits T c (e :: r) outs
  | emits_obsolete c c' e k r outs :
      point e k → ¬ hidden c k → next_cursor c' k → type k = kTypeDeletion →
      sequence k <= iter_earliest_snapshot_ → gone (user_key k) → emits T c' r outs → emits T c (e :: r) outs
  | emits_bottom_drop c c' e k skipped r outs :
      point e k → ¬ hidden c k → next_cursor c' k → type k = kTypeDeletion → bottommost_level_ = true →
      Forall (in_stripe k) skipped →
      (∀ e' k', e' ∈ r → ParseInternalKey (ie_key e') = Some k' → ¬ ueq (user_key k') (user_key k)) →
      emits T c' r outs → emits T c (e :: skipped ++ r) outs
  | emits_bottom_keep c c' e k o skipped r outs :
      point e k → ¬ hidden c k → next_cursor c' k → type k = kTypeDeletion →
      Forall (in_stripe k) skipped → prepared k (ie_value e) o →
      emits T c' r outs → emits T c (e :: skipped ++ r) (o :: outs)
  | emits_covered c c' e k r outs :
      point e k → ¬ hidden c k → next_cursor c' k → covered_in_stripe T k →
      emits T c' r outs → emits T c (e :: r) outs
  | emits_keep c c' e k o r outs :
      point e k → ¬ hidden c k → next_cursor c' k → ¬ covered_in_stripe T k → prepared k (ie_value e) o →
      emits T c' r outs → emits T c (e :: r) (o :: outs).

(** ** The range tombstones of the output *)

(** What is dropped is seen by every snapshot and covers nothing below; at the
    bottommost level all that every snapshot sees is dropped. *)
Record tombstones_kept (T T' : list RangeTombstone) : Prop := {
  tk_sub : ∀ t, t ∈ T' → t ∈ T;
  tk_dropped : ∀ t, t ∈ T → t ∈ T' ∨
    (seq_ t <= iter_earliest_snapshot_ ∧ ∀ u s, covers_key t u → beneath u s = None);
  tk_bottom : bottommost_level_ = true → ∀ t, t ∈ T' → iter_earliest_snapshot_ < seq_ t;
  tk_seq : ∀ t, t ∈ T → 0 <= seq_ t;
}.

(** ** Facts about stripes *)

Context (HC : ComparatorOk C) (Hsn : snapshots_ok).

Ltac uorder := unfold ueq in *; destruct_and?; split_and?; order (cmp_le (@Compare C)).

Lemma snapshot_index_spec seq :
  (snapshot_index seq <= length snapshots_)%nat ∧
  (∀ i x, (i < snapshot_index seq)%nat → snapshots_ !! i = Some x → x < seq) ∧
  (∀ i x, (snapshot_index seq <= i)%nat → snapshots_ !! i = Some x → seq <= x).
Proof using Hsn.
  destruct (std_bound_spec (λ x, x <? seq) snapshots_ 0 (length snapshots_)) as (H1 & H2 & H3); [lia| |].
  { intros i j x y _ Hij _ Hx Hy. rewrite !Z.ltb_lt. destruct (decide (i = j)) as [->|]; [by simplify_eq|].
    pose proof (StronglySorted_lookup _ _ i j x y (sn_sorted Hsn) ltac:(lia) Hx Hy). lia. }
  fold (snapshot_index seq) in *. split_and!; [lia| |].
  - intros i x Hi Hx. apply Z.ltb_lt, (H2 i x); [lia|done].
  - intros i x Hi Hx. apply Z.ltb_ge, (H3 i x); [|done]. apply lookup_lt_Some in Hx. lia.
Qed.

Lemma stripe_spec seq :
  seq <= kMaxSequenceNumber →
  seq <= stripe seq ∧ read_point (stripe seq) ∧ ∀ x, read_point x → seq <= x → stripe seq <= x.
Proof using Hsn.
  intros Hs. destruct (snapshot_index_spec seq) as (H1 & H2 & H3). unfold stripe.
  destruct (snapshots_ !! snapshot_index seq) as [y|] eqn:Ey; cbn [from_option id].
  - split; [apply (H3 _ _ (le_n _) Ey)|]. split; [right; by eapply list_elem_of_lookup_2|].
    pose proof (proj1 (Forall_lookup _ _) (sn_range Hsn) _ _ Ey) as Hr. cbn in Hr.
    intros x [->|[i Hi]%list_elem_of_lookup_1] Hx; [lia|].
    destruct (decide (i < snapshot_index seq)%nat); [pose proof (H2 i x ltac:(lia) Hi); lia|].
    destruct (decide (i = snapshot_index seq)) as [->|]; [by simplify_eq|].
    pose proof (StronglySorted_lookup _ _ (snapshot_index seq) i y x (sn_sorted Hsn) ltac:(lia) Ey Hi). lia.
  - split; [done|]. split; [by left|]. intros x [->|[i Hi]%list_elem_of_lookup_1] Hx; [lia|].
    apply lookup_ge_None in Ey. pose proof (lookup_lt_Some _ _ _ Hi). pose proof (H2 i x ltac:(lia) Hi). lia.
Qed.

Lemma stripe_prev_spec seq x :
  x ∈ snapshots_ → x < seq → x <= stripe_prev seq ∧ stripe_prev seq ≠ 0.
Proof using Hsn.
  intros [i Hi]%list_elem_of_lookup_1 Hx. destruct (snapshot_index_spec seq) as (H1 & H2 & H3).
  assert (Hlt : (i < snapshot_index seq)%nat).
  { destruct (decide (i < snapshot_index seq)%nat); [done|]. pose proof (H3 i x ltac:(lia) Hi). lia. }
  unfold stripe_prev. destruct (Nat.eqb_spec (snapshot_index seq) 0); [lia|].
  destruct (lookup_lt_is_Some_2 snapshots_ (snapshot_index seq - 1)) as [y Hy]; [lia|]. rewrite Hy. cbn [from_option id].
  pose proof (proj1 (Forall_lookup _ _) (sn_range Hsn) _ _ Hy) as Hr. cbn in Hr. split; [|lia].
  destruct (decide (i = snapshot_index seq - 1)%nat) as [->|]; [by simplify_eq|].
  pose proof (StronglySorted_lookup _ _ i (snapshot_index seq - 1) x y (sn_sorted Hsn) ltac:(lia) Hi Hy). lia.
Qed.

Lemma earliest_spec : read_point iter_earliest_snapshot_ ∧ ∀ x, read_point x → iter_earliest_snapshot_ <= x.
Proof using Hsn.
  rewrite (sn_earliest Hsn). pose proof (sn_sorted Hsn) as Hs. pose proof (sn_range Hsn) as Hr.
  unfold read_point. destruct snapshots_ as [|y l]; cbn [head from_option id].
  { split; [by left|]. intros x [->|Hx]; [done|by apply not_elem_of_nil in Hx]. }
  split; [right; by left|]. apply StronglySorted_inv in Hs as [_ Hl]. rewrite Forall_forall in Hl.
  apply Forall_cons in Hr as [Hy _]. intros x [->|[->|Hx]%elem_of_cons]; [lia|done|].
  specialize (Hl x Hx). lia.
Qed.

Lemma stripe_mono a b : b <= kMaxSequenceNumber → a <= b → stripe a <= stripe b.
Proof using Hsn.
  intros Hb Hab. destruct (stripe_spec a) as (_ & _ & Ha); [lia|]. destruct (stripe_spec b Hb) as (H1 & H2 & _).
  apply Ha; [done|lia].
Qed.

Lemma stripe_earliest a : a <= iter_earliest_snapshot_ → stripe a = iter_earliest_snapshot_.
Proof using Hsn.
  intros Ha. destruct earliest_spec as [H1 H2].
  assert (iter_earliest_snapshot_ <= kMaxSequenceNumber) by (apply H2; by left).
  destruct (stripe_spec a) as (H3 & H4 & H5); [lia|]. specialize (H2 _ H4). specialize (H5 _ H1 Ha). lia.
Qed.

(** ** Where an output comes from *)

Lemma point_version e k : point e k → in_version e = Some (k, ie_value e).
Proof. intros [H1 H2]. unfold in_version. by rewrite H1, H2. Qed.

Lemma versions_point e k r : point e k → versions (e :: r) = (k, ie_value e) :: versions r.
Proof. intros He. unfold versions. cbn [omap list_omap]. by rewrite (point_version e k He). Qed.

Lemma versions_sentinel e r : ie_range_del e = true → versions (e :: r) = versions r.
Proof. intros He. unfold versions. cbn [omap list_omap]. unfold in_version. by rewrite He. Qed.

Lemma out_versions_prepared k v o outs :
  prepared k v o → ∃ k', out_versions (o :: outs) = (k', ce_value o) :: out_versions outs ∧
    ueq (user_key k') (user_key k) ∧ is_delete_type (type k') = is_delete_type (type k) ∧
    content (type k') (ce_value o) = content (type k) v ∧
    (sequence k' = sequence k ∨
     sequence k' = 0 ∧ sequence k <= iter_earliest_snapshot_ ∧ bottommost_level_ = true).
Proof. intros (k' & Ho & ?). exists k'. split; [|done]. unfold out_versions. cbn [omap list_omap]. by rewrite Ho. Qed.

Lemma point_ok e k :
  entry_ok e → point e k → 0 <= sequence k < kMaxSequenceNumber ∧ plain_type (type k) = true.
Proof.
  intros (k' & Hp & Hk) [Hd Hp']. assert (k' = k) as -> by congruence.
  destruct (Hk Hd) as [??]. apply append_parse in Hp as (_ & [[??] _] & _). done.
Qed.

(** The cursor is not after the input, and the versions of its key left are in
    its stripe or below. *)
Definition cursor_ok (c : cursor) (r : list InputEntry) : Prop :=
  ∀ e k u snap, e ∈ r → point e k → c = Some (u, snap) →
    ule u (user_key k) ∧ (ueq (user_key k) u → stripe (sequence k) <= snap).

Definition input_ok (r : list InputEntry) : Prop := Forall entry_ok r ∧ StronglySorted entry_before r.

Lemma input_ok_cons e r : input_ok (e :: r) → entry_ok e ∧ Forall (entry_before e) r ∧ input_ok r.
Proof. intros [[H1 H2]%Forall_cons [H3 H4]%StronglySorted_inv]. by unfold input_ok. Qed.

Lemma input_ok_app l r : input_ok (l ++ r) → input_ok r.
Proof. intros [[_ H1]%Forall_app H2]. split; [done|by eapply StronglySorted_app_1_r]. Qed.

Lemma cursor_ok_incl c r r' : r' ⊆ r → cursor_ok c r → cursor_ok c r'.
Proof. intros Hr Hc e k u snap He. by apply Hc, Hr. Qed.

Lemma before_point e e' k k' r :
  Forall (entry_before e) r → e' ∈ r → point e k → point e' k' →
  ule (user_key k) (user_key k') ∧ (ule (user_key k') (user_key k) → sequence k' < sequence k).
Proof.
  intros Hb He' [H1 H2] [H3 H4]. rewrite Forall_forall in Hb.
  destruct (Hb e' He' k k' H2 H4) as [? Hs]. split; [done|]. by apply Hs.
Qed.

Lemma next_cursor_ok c e k r :
  input_ok (e :: r) → point e k → next_cursor c k → cursor_ok c r.
Proof using HC Hsn.
  intros (Ho & Hb & _)%input_ok_cons Hp (u & Hu & ->) e' k' u' snap He' Hp' [= <- <-].
  destruct (before_point e e' k k' r) as [H1 H2]; [done..|]. destruct (point_ok _ _ Ho Hp).
  split; [uorder|]. intros Hk. apply stripe_mono; [lia|]. assert (sequence k' < sequence k) by (apply H2; uorder). lia.
Qed.

Lemma not_hidden_tail c c' e k r e' k' :
  input_ok (e :: r) → cursor_ok c (e :: r) → point e k → next_cursor c' k →
  e' ∈ r → point e' k' → ¬ hidden c' k' → ¬ hidden c k'.
Proof using HC.
  intros (Ho & Hb & _)%input_ok_cons Hc Hp (u & Hu & ->) He' Hp' Hn Hh. apply Hn.
  destruct c as [[u0 snap]|]; [|done]. destruct Hh as [H1 H2]. cbn [hidden].
  destruct (before_point e e' k k' r) as [H3 H4]; [done..|].
  destruct (Hc e k u0 snap) as [H5 H6]; [by left|done..|].
  assert (stripe (sequence k) <= snap) by (apply H6; uorder). split; [uorder|lia].
Qed.

Lemma origin T c r outs ko vo :
  emits T c r outs → input_ok r → cursor_ok c r → (ko, vo) ∈ out_versions outs →
  ∃ e k, e ∈ r ∧ point e k ∧ ueq (user_key ko) (user_key k) ∧ sequence ko <= sequence k ∧ ¬ hidden c k.
Proof using HC Hsn.
  intros He. revert ko vo. induction He as
    [c|c e o r outs H1 H2 He IH|c c' e k r outs H1 H2 H3 He IH|c c' e k r outs H1 H2 H3 _ _ _ He IH
    |c c' e k sk r outs H1 H2 H3 _ _ _ _ He IH|c c' e k o sk r outs H1 H2 H3 _ _ H4 He IH
    |c c' e k r outs H1 H2 H3 _ He IH|c c' e k o r outs H1 H2 H3 _ H4 He IH]; intros ko vo Hi Hc Ho.
  { by apply not_elem_of_nil in Ho. }
  { assert (Hi' := proj2 (proj2 (input_ok_cons _ _ Hi))). unfold out_versions in Ho. cbn [omap list_omap] in Ho.
    unfold out_version at 1 in Ho. rewrite H2 in Ho.
    destruct (IH ko vo Hi') as (e0 & k0 & ? & ?); [by eapply cursor_ok_incl; [|exact Hc]; set_solver|done|].
    exists e0, k0. split; [by right|done]. }
  all: assert (Hnext := next_cursor_ok c' e k _ Hi H1 H3).
  all: assert (Htail : ∀ l, r ⊆ l → input_ok (e :: l) → cursor_ok c (e :: l) → input_ok r → (ko, vo) ∈ out_versions outs →
    ∃ e0 k0, e0 ∈ e :: l ∧ point e0 k0 ∧ ueq (user_key ko) (user_key k0) ∧ sequence ko <= sequence k0 ∧ ¬ hidden c k0).
  all: try (intros l Hl Hil Hcl Hir Hin; destruct (IH ko vo Hir) as (e0 & k0 & A1 & A2 & A3 & A4 & A5);
    [eapply cursor_ok_incl; [exact Hl|by eapply next_cursor_ok]|done|]; exists e0, k0; apply Hl in A1;
    split_and!; [by right|done..|by eapply not_hidden_tail]).
  all: assert (Hir := proj2 (proj2 (input_ok_cons _ _ Hi))); try (apply input_ok_app in Hir as Hir').
  all: try (by apply Htail; set_solver).
  all: destruct (out_versions_prepared _ _ _ outs H4) as (k1 & Eo & B1 & _ & _ & B2); rewrite Eo in Ho;
    apply elem_of_cons in Ho as [[= -> ->]|Ho]; [|apply Htail; [set_solver|done..]].
  all: destruct (point_ok e k (proj1 (input_ok_cons _ _ Hi)) H1); exists e, k; split_and!; [by left|done|done|lia|done].
Qed.

End reads.
